(* ===== verification/_CoqProject ===== *)
-Q . S2P
Prelude.v
Conc.v
Ledger.v
Abi.v
Bridge.v
Retry.v
Request.v
BridgeSafety.v
BridgeRun.v
BridgeRaces.v
Attempts.v
Limits.v
Executor.v
Workers.v
Pool.v
PoolFacts.v
Leases.v
Headers.v
Text.v
Uri.v
Proxy.v
Tls.v
Template.v
Client.v
ClientSafety.v
ClientRun.v
ClientLeases.v
Reservations.v
Served.v
Guards.v
Pauses.v
ClientCap.v
Start.v
Channels.v
Server.v
ServerFacts.v
ServerSafety.v
ServerBooks.v
ServerStreams.v
