(* ===== verification/Prelude.v ===== *)
(** * hyper4k: a verification development

    hyper4k is an HTTP engine (hyper on Tokio) behind a C ABI: a server whose
    request callback belongs to the embedding program, and a client whose
    responses are delivered through callbacks with backpressure.  This library
    models the Rust crate under [lib/src] and proves what its parts promise.

    ** The program and its parts

    - [abi.rs], [client/mod.rs]: status codes, capability bits, and the
      versioned structs a caller of another ABI version may hand in.
    - [client/handle.rs]: the exported client functions, the client-wide limits,
      and the network task of a request (attempts, retries, delivery).
    - [client/bridge.rs]: one slot per request: a bounded event queue between
      the network task and the callbacks, a terminal gate that is to make
      OnDone the last event, pause and resume, cancellation.
    - [client/executor.rs]: the fixed set of worker threads that run slots.
    - [client/retry.rs]: when a failed attempt may be repeated.
    - [client/pool.rs]: connections per target and their leases;
      [client/tls.rs], [client/plaintext.rs], [client/proxy.rs]: how they are
      made, directly or through a proxy.
    - [lib.rs]: the server: start and stop, accept loops, responder ids, the
      one-shot and streaming answers, the thread-local fast path, and the text
      form of headers.

    A request of the client is submitted by [hyper4k_client_send] (which makes a
    [Limits] reservation, spawns a slot and the network task), its events travel
    network task, queue, executor worker, callback; cancel, close, a timeout and
    a callback's own answer settle it through the gate.  A request of the server
    is shown to the callback with a responder id, and whoever holds the id
    answers through the registries.

    ** Files

    - [Prelude]: notation, record update, machine integers, little-endian
      fields, lemmas on lists and sums.
    - [Conc]: routines as [prog], trees of atomic actions on a shared state, run
      alone ([run]) or interleaved ([step], [reachable], [exec]); the
      rely-guarantee judgement [safe] with [safe_sound], framing ([keeps]) and
      plain invariants ([preserves]).
    - [Ledger]: values with a [Drop] as tokens: the judgement [owns] accounts for
      what each thread holds, and [books_over] concludes that nothing is held once
      the holders are over or wait empty-handed.
    - [Abi]: abi.rs and the structs of client/mod.rs ([init_prefix],
      [copy_prefix], [validate_header]) over the bytes of the caller's memory.
    - [Bridge]: bridge.rs.  [bridge] is everything the threads of one request
      share, one field per field of [RequestState], [Slot], [RequestHandle] and
      [BridgeCounter]; each function is a [prog] with one action per atomic
      access or critical section, in source order.
    - [Retry], [Request]: retry.rs, and [run_request], [attempt_loop],
      [deliver_response] of handle.rs.  What the loop needs of its surroundings is
      the class [Transport]; the instance [answers] takes the pool's and hyper's
      answers as an argument ([Attempt], [Response], [Frame]), the instance
      [Client.pooled] runs over the pools and connectors of a client.
    - [BridgeSafety], [BridgeRun], [BridgeRaces], [Attempts]: theorems on these.
    - [Limits]: [Limits] and [Reservation] of handle.rs.
    - [Executor]: executor.rs, for any [Runnable]: queue and turns.  [Workers]:
      the same file at the level of the mutex and the condition variable.
    - [Pool], [PoolFacts]: pool.rs; the connector's answer and the peer closing a
      connection are the environment.  [Leases]: who holds leases and dial locks.
    - [Headers]: [parse_headers], [trim_ascii] and the header buffer of lib.rs,
      for any http crate that satisfies [HttpHeadersLaws].
    - [Text]: the [str] functions of the standard library the source calls
      (UTF-8, lines, words, numbers).  [Uri]: the interface of [hyper::Uri].
    - [Proxy]: proxy.rs over a network [Net] that answers per address.  [Tls]:
      tls.rs and plaintext.rs for any [Rustls] and any answers of the
      handshakes.  [Template]: [RequestTemplate] and [to_origin_form].
    - [Client]: the exported functions of handle.rs on [client], the shared state
      of a [Hyper4kClient], with one slot of [Bridge] per accepted request, both
      pools with the paused counts that the slots share, the limits, and the
      network tasks: [network_task] acquires from the pool, connects through the
      proxy and TLS connectors, sends, delivers and gives its lease back, and may
      be dropped at any await ([until], [stop_task]).
      [ClientSafety], [ClientRun], [ClientLeases], [Reservations], [Served],
      [ClientCap]: theorems on them.  [Guards], [Pauses]: the pause guards of a
      request, and of all requests of a client.
    - [Start]: starting and stopping a server, its TLS configuration, its accept
      loops, for any [Host].
    - [Channels]: the interface of tokio's oneshot and mpsc channels.
    - [Server], [ServerFacts]: the responders, registries and streams of lib.rs,
      for any channels that satisfy [TokioChannelsLaws].  [ServerSafety],
      [ServerBooks], [ServerStreams]: which answer goes where, who holds
      registrations and channel senders, and how streams end.

    ** What the theorems show

    - Under every interleaving of the network task, any number of workers,
      cancels, closes, resumes and timeouts ([BridgeSafety]): OnDone at most
      once, and always before the counter [free] waits for reaches zero; an
      OnDone with an error is the last callback; events in order without gap or
      repetition; the queue bounded; the response committed before any event.
    - Alone ([BridgeRun]): settling ends a request, a complete response is
      delivered as received.
    - Five schedules that break the contract of the source's comments
      ([BridgeRaces]): OnDone lost after a cancel from the callback, a chunk
      after a normal OnDone, OnDone lost between two workers, a lost resume, a
      pause guard that outlives its pause; and a paused slot that stays in the
      ready queue ([BridgeRun]).
    - The client as a whole, with any number of requests submitted, cancelled,
      resumed, timed out and closed at once ([ClientSafety]): every request keeps
      the promises above; the client object stays well-formed (registry, ids,
      bridge counter, ceilings); [free] does not go on before every accepted
      request has had its OnDone.
    - The same threads over the pools and the limits: once the network tasks are
      over, however they ended, every lease, count and dial lock has been given
      back; a task that is dropped is never stuck; at any time an HTTP/1 connection
      has at most one lease ([ClientLeases]); live connections per key stay under
      the cap ([ClientCap]); whenever callers and workers rest, the reservations are exactly those of the
      unfinished requests, and no cleanup ever waits ([Reservations]); whenever
      all threads rest, the paused count of a connection is the number of requests
      that store a guard for it ([Pauses]).
    - [Served]: [send], the network task and one turn of a worker, run one after
      the other on a response that fits the queue: the request's way over the
      pool, the connector and the wire to its callbacks, and everything it took
      given back; the same over a connection the pool has, without any dialling.
    - Each exported function alone ([ClientRun]): [send] registers the request it
      was given or nothing; [new] refuses what it does not know and a client made with a proxy
      connects to nothing else; an accepted request goes out as given, in the
      right form; [close] settles everything that is registered.  A panic on a
      huge header count, a request that survives a concurrent [close], a target
      that stays in absolute form and a bad CA bundle that is not reported are
      exhibited.
    - Connecting ([Proxy], [Tls]): the CONNECT exchange gives, however the
      answer is fragmented, what checking the whole head gives, and takes a
      bounded number of reads and bytes; the protocol is the one negotiated; every failure has an error kind.
    - [Workers]: a schedule in which shutdown's notification is missed and the
      join never returns.  [Start]: the ALPN list round-trips, a TLS server is
      started with a configuration or not at all, the accept loop serves every
      connection until shutdown.
    - Retries ([Attempts]): bounded, and at most one send of a non-idempotent
      request that was not proved unsent, under every interleaving; the loop
      terminates with an error when no attempt succeeds.
    - [Limits]: ceilings never exceeded and counters never wrapped under every
      interleaving; reservation and release are exact inverses.  [Executor]: no
      ready slot starves unless a callback does not return, and a slice of a slot
      of [Bridge] returns when its callbacks do.
    - [PoolFacts]: an HTTP/1 connection has at most one lease and the live
      connections of a key stay under the cap, under every interleaving; an idle
      connection is reused; two schedules in which a dialler loses its own
      connection and in which a connection outlives shutdown.
    - [Headers]: the map holds what the lines of the text say, with a header line
      defined apart from the parser; parsing what was rendered gives back every
      value that is visible and not padded, and an empty one for a value that is
      not visible.  [ServerFacts]: the exported operations, one at a time, refine
      the responder state machine (fresh, streaming, done), from threads that may
      block and from others; streams are bounded FIFOs under every
      interleaving; a delivery inside another request's callback does not take
      its slot; a synchronous answer is served as given.
    - The server as a whole, with any number of requests served, answered (in
      their callback, in another one, from elsewhere, twice) and abandoned at once:
      a response is made from an answer that was given for its own request
      ([ServerSafety]); the channel of a responder accepts one answer, and when the
      threads are over nothing is registered any more ([ServerBooks]); the body of
      a stream that was finished gives out every accepted chunk and ends
      ([ServerStreams]).
    - [Abi]: initialisation writes only the caller's bytes; an older, shorter
      struct is read as intended.

    ** Modelling choices and bounds

    Atomics of the client all use [SeqCst], so interleaving of actions is their
    semantics; the server's id counter is relaxed but is only a source of fresh
    numbers.  A mutex-protected access that contains no other shared access is
    one action.  The tokio semaphore of a slot is its permit count, DashMap is a
    finite map with atomic operations.  The thread-locals of the fast path are
    indexed by the thread of the model that serves a request: a task of the server
    uses them only between two awaits, where it does not change threads.  A wait
    (a semaphore, an empty ready queue, [blocking_send]) is an action that cannot be taken yet; a panic, with
    [panic = "abort"], one that never can.  A future that is aborted or whose
    timeout fires leaves at the await where it waits (one whose awaited action can
    be taken goes on to the next) and runs the [Drop]s of what it holds; in [Request] alone, a thread that is not scheduled any more.
    [next_responder_id] has fuel two: of two consecutive values of the counter
    at most one is zero.  The attempt loop recurses on the list of answers it
    gets; a list longer than the budget is always enough
    ([attempt_loop_reports_failure]).  [worker n] is a worker's first [n] turns;
    theorems quantify over [n].  The slots of a client are a list that only
    grows; an index stands for the [Arc] of a request.  Numbers of threads are
    arbitrary and distinct; [task_of] names the network task of each slot.  NULL
    for [client] is a flag of the exported functions, NULL for a struct is
    [None], and the memory that pointers reach is a function of address and
    length.  An await that never completes is [None].  The read loop of the
    tunnel recurses on the list of what the peer sends.  The two counters of
    [Limits] do not wrap when the ceilings leave room for one attempt per thread
    ([limits_wide], a hypothesis of the theorems that need it;
    [hyper4k_client_new] accepts larger ceilings).  The bridge counter is not
    bounded: it has one unit per request.  [pool_shutdown] reads the connection
    lists in one step and then works through them.  Fields marked ghost record history for the
    statements; no routine reads them.

    ** Not modelled

    I/O, the async runtime, hyper's and rustls's protocols (interfaces with
    laws, or answers of the environment); the passing of time (a timeout is an
    answer or a step that may happen); failure of an allocation; the freeing of a
    slot (with it a guard that outlived its pause); the connection tasks' hyper
    service around [handle]; tests and benchmarks; the Kotlin side. *)

From stdpp Require Export base list gmap strings numbers relations.
From Stdlib Require Export ZArith Lia.

#[global] Open Scope Z_scope.

(** ** Bytes and strings

    A byte slice of the source ([&[u8]], [Bytes], [Vec<u8>]) is a list of
    integers; [is_byte] is the range of [u8]. *)

Abbreviation bytes := (list Z).

Definition is_byte (b : Z) : Prop := 0 ≤ b < 256.

(** A Rust byte-string literal [b"..."] (and an ASCII [&str] literal). *)
Fixpoint lit (s : string) : bytes :=
  match s with
  | EmptyString => []
  | String c s => Z.of_nat (Ascii.nat_of_ascii c) :: lit s
  end.

Arguments lit s%_string.

(** ** Machine integers *)

Definition wrap (w x : Z) : Z := x mod 2 ^ w.
Definition in_width (w x : Z) : Prop := 0 ≤ x < 2 ^ w.

Lemma wrap_add w x d : wrap w (wrap w x + d) = wrap w (x + d).
Proof. unfold wrap. apply Zplus_mod_idemp_l. Qed.

Lemma wrap_sub w x d : wrap w (wrap w x - d) = wrap w (x - d).
Proof. unfold wrap. apply Zminus_mod_idemp_l. Qed.

Lemma wrap_id w x : in_width w x → wrap w x = x.
Proof. intros ?. by apply Z.mod_small. Qed.

Lemma wrap_range w x : 0 ≤ w → in_width w (wrap w x).
Proof. intros ?. apply Z.mod_pos_bound, Z.pow_pos_nonneg; lia. Qed.

(** [AtomicU32]/[AtomicU64] [fetch_add] and [fetch_sub] wrap around. *)
Definition fetch_add (w x d : Z) : Z := wrap w (x + d).
Definition fetch_sub (w x d : Z) : Z := wrap w (x - d).

Lemma fetch_add_sub w x d : in_width w x → fetch_sub w (fetch_add w x d) d = x.
Proof.
  intros Hx. unfold fetch_sub, fetch_add, wrap.
  rewrite Zminus_mod_idemp_l. replace (x + d - d) with x by lia.
  by apply wrap_id.
Qed.

(** ** Functional record update

    [s <| f := v |>] and [s <| f ::= g |>].  A record type registers its
    eta-expansion as a [Settable] instance; the setter of a projection is
    computed from it, and has to be one of its fields. *)

Class Settable (R : Type) := eta_rec : R → R.
Class Setter {R T : Type} (proj : R → T) := upd : (T → T) → R → R.
Arguments upd {R T} proj {Setter} _ _ /.

Ltac solve_setter :=
  match goal with
  | |- @Setter ?R ?T ?p =>
      let i := constr:(_ : Settable R) in
      let e := eval hnf in i in
      let q := eval pattern p in e in
      lazymatch q with
      | (λ _, ?b) _ => fail "the projection is not a field of the record"
      | ?F _ =>
          let u := eval cbv beta in (λ g : T → T, F (λ r : R, g (p r))) in
          exact u
      end
  end.

Global Hint Extern 1 (Setter _) => solve_setter : typeclass_instances.

Declare Scope record_scope.
Delimit Scope record_scope with record.
Open Scope record_scope.
Notation "s <| f := v |>" := (upd f (λ _, v) s)
  (at level 1, f at level 0, left associativity, format "s  <| f  :=  v |>") : record_scope.
Notation "s <| f ::= g |>" := (upd f g s)
  (at level 1, f at level 0, left associativity, format "s  <| f  ::=  g |>") : record_scope.

(** ** Tactics and hint databases of the development *)

Create HintDb hyper4k.

(** Split conjunctions and existentials of the context, substitute equations. *)
Ltac break :=
  repeat match goal with
  | H : _ ∧ _ |- _ => destruct H
  | H : ∃ _, _ |- _ => destruct H
  | H : Some _ = Some _ |- _ => injection H as H
  | H : (_, _) = (_, _) |- _ => injection H as H
  | H : Some _ = None |- _ => discriminate H
  | H : None = Some _ |- _ => discriminate H
  | H : true = false |- _ => discriminate H
  | H : false = true |- _ => discriminate H
  end; subst.

(** Case on the scrutinee of a [match] or [if] in a hypothesis or the goal. *)
Ltac case_hyp H :=
  match type of H with
  | context [match ?x with _ => _ end] => destruct x eqn:?
  end.

Ltac bool_lia :=
  repeat match goal with
  | H : (_ <? _) = true |- _ => apply Z.ltb_lt in H
  | H : (_ <? _) = false |- _ => apply Z.ltb_ge in H
  | H : (_ <=? _) = true |- _ => apply Z.leb_le in H
  | H : (_ <=? _) = false |- _ => apply Z.leb_gt in H
  | H : (_ =? _) = true |- _ => apply Z.eqb_eq in H
  | H : (_ =? _) = false |- _ => apply Z.eqb_neq in H
  end; lia.

(** ** Little-endian fields *)

Fixpoint le_enc (n : nat) (x : Z) : bytes :=
  match n with
  | O => []
  | S n => x mod 256 :: le_enc n (x / 256)
  end.

Fixpoint le_dec (l : bytes) : Z :=
  match l with
  | [] => 0
  | b :: l => b + 256 * le_dec l
  end.

Lemma length_le_enc n x : length (le_enc n x) = n.
Proof. revert x. induction n; intros x; simpl; auto. Qed.

Lemma le_dec_enc n x : le_dec (le_enc n x) = x mod 2 ^ (8 * Z.of_nat n).
Proof.
  revert x. induction n as [|n IH]; intros x; [by rewrite Z.mod_1_r|].
  cbn [le_enc le_dec]. rewrite IH.
  replace (2 ^ (8 * Z.of_nat (S n))) with (256 * 2 ^ (8 * Z.of_nat n))
    by (rewrite Nat2Z.inj_succ, Z.mul_succ_r, Z.pow_add_r by lia; lia).
  rewrite Z.rem_mul_r by (try apply Z.pow_nonzero; lia). lia.
Qed.

(** Read an [n]-byte little-endian field and the bytes after it. *)
Definition get_le (n : nat) (bs : bytes) : Z * bytes := (le_dec (take n bs), drop n bs).

Lemma get_le_enc n x r :
  in_width (8 * Z.of_nat n) x → get_le n (le_enc n x ++ r) = (x, r).
Proof.
  intros Hx. unfold get_le.
  rewrite take_app_length' by (by rewrite length_le_enc).
  rewrite drop_app_length' by (by rewrite length_le_enc).
  rewrite le_dec_enc. f_equal. by apply Z.mod_small.
Qed.

#[global] Arguments le_enc : simpl never.
#[global] Arguments le_dec : simpl never.
#[global] Arguments get_le : simpl never.

(** ** Lists *)

Lemma take_drop_lookup {A} (n : nat) (l k : list A) i :
  length l = length k →
  (take n l ++ drop n k) !! i = if decide (i < n)%nat then l !! i else k !! i.
Proof.
  intros Hlen. destruct (decide (i < n)%nat) as [Hi|Hi].
  - destruct (decide (i < length l)%nat).
    + rewrite lookup_app_l by (rewrite length_take; lia). by rewrite lookup_take_lt.
    + rewrite (lookup_ge_None_2 l) by lia. apply lookup_ge_None_2.
      rewrite length_app, length_take, length_drop. lia.
  - destruct (decide (n ≤ length l)%nat).
    + rewrite lookup_app_r by (rewrite length_take; lia).
      rewrite length_take, lookup_drop. f_equal. lia.
    + rewrite (lookup_ge_None_2 k) by lia. apply lookup_ge_None_2.
      rewrite length_app, length_take, length_drop. lia.
Qed.

Lemma lookup_three {A} (a b c : A) t x :
  [a; b; c] !! t = Some x → (t = 0 ∧ x = a ∨ t = 1 ∧ x = b ∨ t = 2 ∧ x = c)%nat.
Proof. destruct t as [|[|[|t]]]; simpl; intros; simplify_eq; auto. Qed.

(** How often [b] is in a list. *)
Fixpoint occ (b : Z) (l : list Z) : nat :=
  match l with
  | [] => 0%nat
  | x :: l => ((if decide (x = b) then 1 else 0) + occ b l)%nat
  end.

Lemma occ_app b l l' : occ b (l ++ l') = (occ b l + occ b l')%nat.
Proof. induction l as [|x l IH]; simpl; [done|]. rewrite IH. lia. Qed.

Lemma occ_in b l : (0 < occ b l)%nat → b ∈ l.
Proof.
  induction l as [|x l IH]; simpl; [lia|]. case_decide as E; [subst; by left|]. intros. right. by apply IH.
Qed.

Lemma occ_perm l l' : (∀ b, occ b l = occ b l') → l ≡ₚ l'.
Proof.
  revert l'. induction l as [|x l IH]; intros l' Hl.
  - destruct l' as [|y l']; [done|]. specialize (Hl y). simpl in Hl. by rewrite decide_True in Hl.
  - assert (x ∈ l') as Hx.
    { apply occ_in. rewrite <- Hl. simpl. rewrite decide_True by done. lia. }
    apply list_elem_of_split in Hx as (l1 & l2 & ->). rewrite <- Permutation_middle. constructor.
    apply IH. intros b. specialize (Hl b). rewrite occ_app in *. simpl in Hl. lia.
Qed.

(** ** Sums *)

Definition zsum (l : list Z) : Z := foldr Z.add 0 l.

(** Remove the first occurrence. *)
Fixpoint remove_one (x : Z) (l : list Z) : list Z :=
  match l with
  | [] => []
  | y :: l => if x =? y then l else y :: remove_one x l
  end.

Lemma remove_one_spec x l :
  x ∈ l → zsum (remove_one x l) = zsum l - x ∧ S (length (remove_one x l)) = length l ∧
  ∀ P : Z → Prop, Forall P l → Forall P (remove_one x l).
Proof.
  induction l as [|y l IH]; intros Hx; [by apply elem_of_nil in Hx|]. simpl.
  destruct (Z.eqb_spec x y) as [->|Hne].
  - split_and!; [lia|done|]. intros P HP. by apply Forall_cons in HP as [_ ?].
  - apply elem_of_cons in Hx as [?|Hx]; [done|]. destruct (IH Hx) as (H1 & H2 & H3).
    simpl. split_and!; [lia|lia|]. intros P [??]%Forall_cons. constructor; auto.
Qed.

Lemma zsum_app l k : zsum (l ++ k) = zsum l + zsum k.
Proof. unfold zsum. induction l; simpl; lia. Qed.

(** The sum over a list when one element is replaced, and when nothing counts. *)
Lemma zsum_insert {A} (f : A → Z) l i x x' :
  l !! i = Some x → zsum (map f (<[i := x']> l)) = zsum (map f l) + (f x' - f x).
Proof.
  revert i. induction l as [|y l IH]; intros [|i] E; simplify_eq/=; [lia|]. rewrite (IH i E). lia.
Qed.

Lemma zsum_zero {A} (f : A → Z) l : (∀ x, x ∈ l → f x = 0) → zsum (map f l) = 0.
Proof.
  induction l as [|x l IH]; intros Hl; [done|]. simpl.
  rewrite IH by (intros; apply Hl; by right). by rewrite (Hl x) by left.
Qed.

Lemma zsum_nonneg l : Forall (λ x, 0 ≤ x) l → 0 ≤ zsum l.
Proof. induction 1; simpl; lia. Qed.

(** [g 0 + ... + g (n - 1)]. *)
Fixpoint sumn (g : nat → Z) (n : nat) : Z :=
  match n with
  | O => 0
  | S n => g n + sumn g n
  end.

Lemma sumn_ext g h n : (∀ i, (i < n)%nat → g i = h i) → sumn g n = sumn h n.
Proof. induction n as [|n IH]; intros E; simpl; [done|]. rewrite E, IH by auto with lia. done. Qed.

(** A sum whose summands differ at one index only. *)
Lemma sumn_update g h t n :
  (t < n)%nat → (∀ i, i ≠ t → h i = g i) → sumn h n = sumn g n - g t + h t.
Proof.
  induction n as [|n IH]; intros Ht E; [lia|]. simpl. destruct (decide (t = n)) as [->|].
  - rewrite (sumn_ext h g n) by (intros; apply E; lia). lia.
  - rewrite IH, (E n) by (auto; lia). lia.
Qed.

Lemma sumn_bounds g n k : (∀ i, 0 ≤ g i ≤ k) → 0 ≤ sumn g n ≤ Z.of_nat n * k.
Proof. intros Hg. induction n as [|n IH]; simpl; [lia|]. specialize (Hg n). lia. Qed.

Lemma sumn_within g h n k :
  (∀ i, g i ≤ h i ≤ g i + k) → sumn g n ≤ sumn h n ≤ sumn g n + Z.of_nat n * k.
Proof. intros Hg. induction n as [|n IH]; simpl; [lia|]. specialize (Hg n). lia. Qed.

Lemma sumn_ge g t n : (t < n)%nat → (∀ i, 0 ≤ g i) → g t ≤ sumn g n.
Proof.
  intros Ht Hg. assert (∀ m, 0 ≤ sumn g m) as Hm
    by (induction m as [|m IH]; simpl; [lia|]; specialize (Hg m); lia).
  induction n as [|n IH]; [lia|]. simpl. specialize (Hm n). destruct (decide (t = n)) as [->|].
  - lia.
  - specialize (Hg n). specialize (IH ltac:(lia)). lia.
Qed.
