(* ===== verification/Conc.v ===== *)
(** * Threads over shared memory

    The source shares state between OS threads and Tokio tasks through
    atomics, mutexes, a semaphore and concurrent maps.  A routine is modelled
    once, as a [prog]: a tree of atomic actions on the shared state.  The same
    definition then has two readings:
    - [run]: the routine executed without interference (the functional
      behaviour of the code), and
    - [step]/[exec]: any number of routines interleaved action by action.

    All atomics of the modelled code use [Ordering::SeqCst] (the responder-id
    counter apart), so interleaving of atomic actions is their semantics.

    [safe] is a rely-guarantee judgement on programs; [safe_sound] turns it
    into an invariant of every reachable configuration. *)

From S2P Require Import Prelude.

(** An action receives the id of the thread that runs it (used by ghost
    ownership fields only) and is [None] when it has to wait. *)
Inductive prog (S A : Type) : Type :=
| Ret (a : A)
| Atom (R : Type) (f : nat → S → option (S * R)) (k : R → prog S A).
Arguments Ret {S A} a.
Arguments Atom {S A R} f k.

Fixpoint pbind {S A B} (p : prog S A) (g : A → prog S B) : prog S B :=
  match p with
  | Ret a => g a
  | Atom f k => Atom f (λ r, pbind (k r) g)
  end.

Declare Scope prog_scope.
Delimit Scope prog_scope with prog.
Bind Scope prog_scope with prog.
Notation "x <- p ;; q" := (pbind p (λ x, q))
  (at level 100, p at next level, right associativity) : prog_scope.
Notation "p ;; q" := (pbind p (λ _, q))
  (at level 100, right associativity) : prog_scope.

Section actions.
Context {S : Type}.

Definition atomic {R} (f : nat → S → option (S * R)) : prog S R := Atom f Ret.

(** Read a component, replace the state, read-and-modify. *)
Definition load {R} (get : S → R) : prog S R := atomic (λ _ s, Some (s, get s)).
Definition modify (f : S → S) : prog S unit := atomic (λ _ s, Some (f s, tt)).
Definition fetch {R} (f : S → S * R) : prog S R := atomic (λ _ s, Some (f s)).
End actions.

(** ** Execution without interference *)

Fixpoint run {S A} (t : nat) (p : prog S A) (s : S) : option (S * A) :=
  match p with
  | Ret a => Some (s, a)
  | Atom f k =>
      match f t s with
      | Some (s', r) => run t (k r) s'
      | None => None
      end
  end.

Lemma run_bind {S A B} t (p : prog S A) (g : A → prog S B) s :
  run t (pbind p g) s =
  match run t p s with Some (s', a) => run t (g a) s' | None => None end.
Proof.
  revert s. induction p as [a|R f k IH]; intros s; simpl; [done|].
  destruct (f t s) as [[s' r]|]; [apply IH|done].
Qed.

Lemma run_bind_Some {S A B} t (p : prog S A) (g : A → prog S B) s s' a :
  run t p s = Some (s', a) → run t (pbind p g) s = run t (g a) s'.
Proof. intros E. by rewrite run_bind, E. Qed.

(** ** Interleaved execution *)

Section interleaving.
Context {S : Type}.

Record config := Config { shared : S; threads : list (prog S unit) }.

(** One action of one thread; [None] when the thread has finished or waits. *)
Definition pstep (t : nat) (p : prog S unit) (s : S) : option (S * prog S unit) :=
  match p with
  | Ret _ => None
  | Atom f k =>
      match f t s with
      | Some (s', r) => Some (s', k r)
      | None => None
      end
  end.

Inductive step : config → config → Prop :=
| step_thread s ts i p s' p' :
    ts !! i = Some p →
    pstep i p s = Some (s', p') →
    step (Config s ts) (Config s' (<[i := p']> ts)).

Definition reachable : config → config → Prop := rtc step.

(** Executable form: run the threads in the order of a schedule. *)
Fixpoint exec (sched : list nat) (c : config) : option config :=
  match sched with
  | [] => Some c
  | i :: sched =>
      match threads c !! i with
      | Some p =>
          match pstep i p (shared c) with
          | Some (s', p') => exec sched (Config s' (<[i := p']> (threads c)))
          | None => None
          end
      | None => None
      end
  end.

Lemma exec_reachable sched c c' : exec sched c = Some c' → reachable c c'.
Proof.
  revert c. induction sched as [|i sched IH]; intros [s ts] H; simpl in H.
  - injection H as <-. apply rtc_refl.
  - destruct (ts !! i) as [p|] eqn:Ep; [|done].
    destruct (pstep i p s) as [[s' p']|] eqn:Es; [|done].
    eapply rtc_l; [by eapply step_thread|]. by apply IH.
Qed.

Lemma reachable_length c c' : reachable c c' → length (threads c') = length (threads c).
Proof.
  induction 1 as [|c c1 c2 Hs _ IH]; [done|]. rewrite IH. destruct Hs. simpl. by rewrite length_insert.
Qed.

(** No thread of the configuration can take a step any more. *)
Definition quiescent (c : config) : Prop :=
  ∀ i p, threads c !! i = Some p → pstep i p (shared c) = None.

(** Its test, for a given configuration. *)
Fixpoint all_blocked (i : nat) (ts : list (prog S unit)) (s : S) : bool :=
  match ts with
  | [] => true
  | p :: ts =>
      match pstep i p s with
      | Some _ => false
      | None => all_blocked (1 + i) ts s
      end
  end.

Lemma all_blocked_spec i ts s :
  all_blocked i ts s = true → ∀ j p, ts !! j = Some p → pstep (i + j) p s = None.
Proof.
  revert i. induction ts as [|q ts IH]; intros i H j p Hj; [done|]. simpl in H.
  destruct (pstep i q s) as [[]|] eqn:E; [done|].
  destruct j as [|j]; simpl in Hj.
  - injection Hj as <-. by rewrite Nat.add_0_r.
  - specialize (IH _ H j p Hj). by rewrite <- Nat.add_succ_comm.
Qed.

Lemma quiescent_test c : all_blocked 0 (threads c) (shared c) = true → quiescent c.
Proof. intros H i p Hp. exact (all_blocked_spec 0 _ _ H i p Hp). Qed.

Definition finished_thread (i : nat) (c : config) : bool :=
  match threads c !! i with Some (Ret _) => true | _ => false end.

(** Evaluate a schedule and a test of where it ends. *)
Definition exec_test (sched : list nat) (c : config) (f : config → bool) : bool :=
  match exec sched c with Some c' => f c' | None => false end.

Lemma exec_test_reachable sched c f :
  exec_test sched c f = true → ∃ c', reachable c c' ∧ f c' = true.
Proof.
  unfold exec_test. destruct (exec sched c) as [c'|] eqn:E; [|done].
  intros Hf. exists c'. eauto using exec_reachable.
Qed.
End interleaving.
Arguments config : clear implicits.

(** ** Rely-guarantee reasoning

    [I] is the invariant of the shared state, [R t] what thread [t] may assume
    of the actions of the others.  [safe t p P Q]: started where [P] holds,
    every action of [p] keeps [I], stays within [R t'] for every other thread
    [t'], and [p] ends where [Q] holds of its result.  The assertion between
    two actions may depend on the values read so far and has to be stable. *)

Section rely_guarantee.
Context {S : Type} (I : S → Prop) (R : nat → S → S → Prop).

Definition stable (t : nat) (P : S → Prop) : Prop :=
  ∀ s s', I s → I s' → R t s s' → P s → P s'.

Definition guar (t : nat) (s s' : S) : Prop := ∀ t', t' ≠ t → R t' s s'.

Fixpoint safe {A} (t : nat) (p : prog S A) (P : S → Prop) (Q : A → S → Prop)
    {struct p} : Prop :=
  stable t P ∧
  match p with
  | Ret a => ∀ s, I s → P s → Q a s
  | Atom f k =>
      ∀ s s' r, I s → P s → f t s = Some (s', r) →
        I s' ∧ guar t s s' ∧ ∃ P', P' s' ∧ safe t (k r) P' Q
  end.

Lemma safe_stable {A} t (p : prog S A) P Q : safe t p P Q → stable t P.
Proof. destruct p; by intros []. Qed.

Lemma safe_ret {A} t (a : A) P (Q : A → S → Prop) :
  stable t P → (∀ s, I s → P s → Q a s) → safe t (Ret a) P Q.
Proof. done. Qed.

Lemma safe_pre {A} t (p : prog S A) P P' Q :
  stable t P' → (∀ s, I s → P' s → P s) → safe t p P Q → safe t p P' Q.
Proof. destruct p; simpl; intros ? HP [? Hp]; (split; [done|]); eauto. Qed.

Lemma safe_post {A} t (p : prog S A) P (Q Q' : A → S → Prop) :
  (∀ a s, I s → Q a s → Q' a s) → safe t p P Q → safe t p P Q'.
Proof.
  intros HQ. revert P. induction p as [a|R' f k IH]; intros P [? Hp]; (split; [done|]).
  - eauto.
  - intros s s' r Is Ps E. destruct (Hp s s' r Is Ps E) as (?&?&P'&?&?).
    split; [done|]. split; [done|]. exists P'. eauto.
Qed.

Lemma safe_bind {A B} t (p : prog S A) (g : A → prog S B) P M Q :
  safe t p P M → (∀ a, safe t (g a) (M a) Q) → safe t (pbind p g) P Q.
Proof.
  intros Hp Hg. revert P Hp. induction p as [a|R' f k IH]; intros P [HP Hp]; simpl.
  - by eapply safe_pre; [| |apply Hg].
  - split; [done|]. intros s s' r Is Ps E.
    destruct (Hp s s' r Is Ps E) as (?&?&P'&?&?). eauto 10.
Qed.

(** One action, its result handed to the continuation. *)
Lemma safe_atom {A T} t (f : nat → S → option (S * T)) (k : T → prog S A) P Q :
  stable t P →
  (∀ s s' r, I s → P s → f t s = Some (s', r) →
     I s' ∧ guar t s s' ∧ ∃ P', P' s' ∧ safe t (k r) P' Q) →
  safe t (Atom f k) P Q.
Proof. done. Qed.

(** A single action, whose postcondition is stable. *)
Lemma safe_atomic {T} t (f : nat → S → option (S * T)) P (Q : T → S → Prop) :
  stable t P → (∀ r, stable t (Q r)) →
  (∀ s s' r, I s → P s → f t s = Some (s', r) → I s' ∧ guar t s s' ∧ Q r s') →
  safe t (atomic f) P Q.
Proof.
  intros HP HQ Hf. split; [done|]. intros s s' r Is Ps E.
  destruct (Hf s s' r Is Ps E) as (?&?&?). split; [done|]. split; [done|].
  exists (Q r). split; [done|]. by split; [|].
Qed.

Lemma stable_True t : stable t (λ _, True).
Proof. done. Qed.

(** Code that is not reached. *)
Lemma safe_False {A} t (p : prog S A) Q : safe t p (λ _, False) Q.
Proof. destruct p; (split; [by intros s s' _ _ _ []|]); [by intros s _ []|by intros s s' r _ []]. Qed.

(** A thread that, whatever it has done so far, will end where [Q] holds. *)
Definition thread_ends (Q : S → Prop) (t : nat) (p : prog S unit) (s : S) : Prop :=
  ∃ P, P s ∧ safe t p P (λ _, Q).

Definition config_ends (Q : nat → S → Prop) (c : config S) : Prop :=
  I (shared c) ∧ ∀ i p, threads c !! i = Some p → thread_ends (Q i) i p (shared c).

Lemma step_ends Q c c' : step c c' → config_ends Q c → config_ends Q c'.
Proof.
  intros [s ts i p s' p' Ei Es] [Is Hts]; simpl in *.
  destruct (Hts i p Ei) as (P & Ps & Hsafe).
  destruct p as [|T f k]; simpl in Es; [done|].
  destruct (f i s) as [[s1 r]|] eqn:Ef; [|done]. injection Es as <- <-.
  destruct (proj2 Hsafe s s1 r Is Ps Ef) as (Is1 & Hg & P' & Ps' & Hk).
  split; [done|]. simpl. intros j q Ej.
  destruct (decide (i = j)) as [<-|Hne].
  - rewrite list_lookup_insert_eq in Ej by (by eapply lookup_lt_Some).
    injection Ej as <-. by exists P'.
  - rewrite list_lookup_insert_ne in Ej by done.
    destruct (Hts j q Ej) as (Pj & Psj & Hj). exists Pj. split; [|done].
    eapply (safe_stable _ _ _ _ Hj s s1); eauto.
Qed.

Theorem ends_sound Q c c' : reachable c c' → config_ends Q c → config_ends Q c'.
Proof. induction 1; eauto using step_ends. Qed.

(** A thread that is over has ended there. *)
Lemma ended Q c i : config_ends Q c → finished_thread i c = true → Q i (shared c).
Proof.
  intros [Is Hts] Hf. unfold finished_thread in Hf. destruct (threads c !! i) as [p|] eqn:Ei; [|done].
  destruct (Hts i p Ei) as (P & Ps & Hp). destruct p as [a|]; [|done]. by apply (proj2 Hp).
Qed.

Definition thread_ok : nat → prog S unit → S → Prop := thread_ends (λ _, True).
Definition config_ok : config S → Prop := config_ends (λ _ _, True).

(** Every reachable configuration satisfies the invariant. *)
Theorem safe_sound c c' : reachable c c' → config_ok c → config_ok c'.
Proof. apply ends_sound. Qed.
End rely_guarantee.

(** ** Framing

    [keeps obs p]: no action of [p] changes the observation [obs]. *)

Section framing.
Context {S X : Type} (obs : S → X).

Fixpoint keeps {A} (p : prog S A) : Prop :=
  match p with
  | Ret _ => True
  | Atom f k => (∀ t s s' r, f t s = Some (s', r) → obs s' = obs s) ∧ ∀ r, keeps (k r)
  end.

Lemma keeps_bind {A B} (p : prog S A) (g : A → prog S B) :
  keeps p → (∀ a, keeps (g a)) → keeps (pbind p g).
Proof.
  induction p as [a|R f k IH]; simpl; [auto|]. intros [Hf Hk] Hg. split; auto.
Qed.

Lemma run_keeps {A} t (p : prog S A) s s' a :
  keeps p → run t p s = Some (s', a) → obs s' = obs s.
Proof.
  revert s. induction p as [b|R f k IH]; intros s Hp E; simpl in E; [by simplify_eq|].
  destruct Hp as [Hf Hk]. destruct (f t s) as [[s1 r]|] eqn:Ef; [|done].
  rewrite (IH r s1) by done. by eapply Hf.
Qed.

Lemma keeps_load {R} (get : S → R) : keeps (load get).
Proof. split; [|done]. by intros t s s' r [= <- _]. Qed.

Lemma keeps_modify (f : S → S) : (∀ s, obs (f s) = obs s) → keeps (modify f).
Proof. intros Hf. split; [|done]. intros t s s' r [= <- _]. apply Hf. Qed.

Lemma keeps_fetch {R} (f : S → S * R) : (∀ s, obs (f s).1 = obs s) → keeps (fetch f).
Proof.
  intros Hf. split; [|done]. intros t s s' r E. injection E as E.
  by rewrite <- (Hf s), E.
Qed.

(** Under a rely that keeps [obs] for this thread, an assertion on [obs] is a
    frame around a program that keeps it. *)
Lemma safe_keeps (I : S → Prop) (R : nat → S → S → Prop) {A} t (p : prog S A) (φ : X → Prop) :
  (∀ s s', obs s' = obs s → I s → I s') →
  (∀ t' s s', obs s' = obs s → R t' s s') →
  (∀ s s', R t s s' → φ (obs s) → φ (obs s')) →
  keeps p → safe I R t p (λ s, φ (obs s)) (λ _ s, φ (obs s)).
Proof.
  intros HI HR Hst.
  assert (stable I R t (λ s, φ (obs s))) as Hs by (intros s s' _ _ ??; eauto).
  induction p as [a|T f k IH]; intros Hp; [by apply safe_ret|].
  destruct Hp as [Hf Hk]. apply safe_atom; [done|]. intros s s' r Is Ps E.
  specialize (Hf t s s' r E). split_and!; [by eapply HI|intros ??; by apply HR|].
  exists (λ s, φ (obs s)). split; [by rewrite Hf|by apply IH].
Qed.
End framing.

(** ** Plain invariants

    [preserves I p]: every action of [p] keeps [I], whatever the others do. *)

Section invariants.
Context {S : Type} (I : S → Prop).

Fixpoint preserves {A} (p : prog S A) : Prop :=
  match p with
  | Ret _ => True
  | Atom f k => (∀ t s s' r, I s → f t s = Some (s', r) → I s') ∧ ∀ r, preserves (k r)
  end.

Lemma preserves_bind {A B} (p : prog S A) (g : A → prog S B) :
  preserves p → (∀ a, preserves (g a)) → preserves (pbind p g).
Proof.
  induction p as [a|R f k IH]; simpl; [auto|]. intros [Hf Hk] Hg. split; auto.
Qed.

Lemma preserves_load {R} (get : S → R) : preserves (load get).
Proof. split; [|done]. by intros t s s' r ? [= <- _]. Qed.

Lemma preserves_modify (f : S → S) : (∀ s, I s → I (f s)) → preserves (modify f).
Proof. intros Hf. split; [|done]. intros t s s' r Hs [= <- _]. by apply Hf. Qed.

Lemma preserves_fetch {R} (f : S → S * R) : (∀ s, I s → I (f s).1) → preserves (fetch f).
Proof.
  intros Hf. split; [|done]. intros t s s' r Hs E. injection E as E.
  specialize (Hf s Hs). by rewrite E in Hf.
Qed.

Lemma preserves_atomic {R} (f : nat → S → option (S * R)) :
  (∀ t s s' r, I s → f t s = Some (s', r) → I s') → preserves (atomic f).
Proof. done. Qed.

Theorem preserves_sound c c' :
  reachable c c' → I (shared c) → Forall preserves (threads c) →
  I (shared c').
Proof.
  intros Hr Hi Ht. assert (config_ok I (λ _ _ _, True) c') as [? _]; [|done].
  eapply safe_sound; [done|]. split; [done|]. intros i p Hp.
  exists (λ _, True). split; [done|].
  assert (preserves p) as Hpp by (by eapply Forall_lookup_1). clear Hp Ht.
  induction p as [|R f k IH]; [by apply safe_ret|]. destruct Hpp as [Hf Hk].
  apply safe_atom; [done|]. intros s s' r Is _ E.
  split_and!; [by eapply Hf|done|]. exists (λ _, True). split; [done|by apply IH].
Qed.
End invariants.

(** ** Actions of one kind

    [steps_in Q p]: every action of [p] is a [Q]-step. *)

Section kinds.
Context {S : Type} (Q : S → S → Prop).

Fixpoint steps_in {A} (p : prog S A) : Prop :=
  match p with
  | Ret _ => True
  | Atom f k => (∀ t s s' r, f t s = Some (s', r) → Q s s') ∧ ∀ r, steps_in (k r)
  end.

Lemma steps_in_bind {A B} (p : prog S A) (g : A → prog S B) :
  steps_in p → (∀ a, steps_in (g a)) → steps_in (pbind p g).
Proof.
  induction p as [a|R f k IH]; simpl; [auto|]. intros [Hf Hk] Hg. split; auto.
Qed.

Lemma steps_in_load {R} (get : S → R) : (∀ s, Q s s) → steps_in (load get).
Proof. intros HQ. split; [|done]. by intros t s s' r [= <- _]. Qed.

Lemma steps_in_modify (f : S → S) : (∀ s, Q s (f s)) → steps_in (modify f).
Proof. intros Hf. split; [|done]. intros t s s' r [= <- _]. apply Hf. Qed.

Lemma steps_in_fetch {R} (f : S → S * R) : (∀ s, Q s (f s).1) → steps_in (fetch f).
Proof.
  intros Hf. split; [|done]. intros t s s' r E. injection E as E.
  specialize (Hf s). by rewrite E in Hf.
Qed.

(** Steps that keep the invariant and are within everybody's rely. *)
Lemma safe_steps_in (I : S → Prop) (R : nat → S → S → Prop) {A} t (p : prog S A) P :
  (∀ s s', I s → Q s s' → I s' ∧ ∀ t', R t' s s') →
  stable I R t P → steps_in p → safe I R t p P (λ _, P).
Proof.
  intros HQ Hs. induction p as [a|T f k IH]; intros Hp; [by apply safe_ret|].
  destruct Hp as [Hf Hk]. apply safe_atom; [done|]. intros s s' r Is Ps E.
  destruct (HQ s s' Is (Hf t s s' r E)) as [Is' HR].
  split_and!; [done|by intros ? _|]. exists P. split; [by eapply (Hs s s')|by apply IH].
Qed.
End kinds.

(** ** Results

    [results_in Q p]: whatever the others do, what [p] returns satisfies [Q]. *)

Fixpoint results_in {S A} (Q : A → Prop) (p : prog S A) : Prop :=
  match p with
  | Ret a => Q a
  | Atom f k => ∀ r, results_in Q (k r)
  end.

Lemma results_in_bind {S A B} (M : A → Prop) (Q : B → Prop) (p : prog S A) (g : A → prog S B) :
  results_in M p → (∀ a, M a → results_in Q (g a)) → results_in Q (pbind p g).
Proof. intros Hp Hg. induction p as [a|R f k IH]; simpl in *; [by apply Hg|]. intros r. by apply IH. Qed.

Lemma results_in_any {S A} (p : prog S A) : results_in (λ _, True) p.
Proof. induction p; simpl; auto. Qed.

Lemma results_in_then {S A B} (Q : B → Prop) (p : prog S A) (g : A → prog S B) :
  (∀ a, results_in Q (g a)) → results_in Q (pbind p g).
Proof. intros Hg. eapply results_in_bind; [apply results_in_any|auto]. Qed.

Lemma results_in_run {S A} (Q : A → Prop) t (p : prog S A) s s' a :
  results_in Q p → run t p s = Some (s', a) → Q a.
Proof.
  revert s. induction p as [b|R f k IH]; intros s Hp E; simpl in *; [by injection E as _ <-|].
  destruct (f t s) as [[s1 r]|]; [|done]. by eapply IH.
Qed.

#[export] Hint Resolve keeps_load preserves_load stable_True : hyper4k.
