(* ===== verification/Ledger.v ===== *)
(** * Accounting for what threads hold

    Some resources of the source are values with a [Drop]: a lease, the guard of
    a dial lock, a reservation.  Whoever holds one gives it back.  Here such a
    value is a token; a thread holds some number of each kind ([holding]), and the
    invariant [I s m] ties the shared state to what all threads hold together.

    [owns t B p m Q]: run by thread [t] and holding [m], every action of [p] keeps the books right; when
    an action has to wait, [B] holds of what is held then; [p] ends holding
    something that satisfies [Q].  [ledger_sound] turns this into a statement on
    every reachable configuration: when the threads that may hold tokens are over,
    nothing is held. *)

From S2P Require Import Prelude Conc.

Open Scope prog_scope.

(** ** What is held *)

Section holding.
Context {K : Type}.

Definition holding : Type := K → nat.
Definition none : holding := λ _, 0%nat.
Definition plus (m n : holding) : holding := λ k, (m k + n k)%nat.
Definition same (m n : holding) : Prop := ∀ k, m k = n k.

(** One token. *)
Definition one `{EqDecision K} (k : K) : holding := λ k', if decide (k = k') then 1%nat else 0%nat.

(** What all threads hold together. *)
Fixpoint total (ms : list holding) : holding :=
  match ms with
  | [] => none
  | m :: ms => plus m (total ms)
  end.

Lemma total_insert (ms : list holding) i (m m' : holding) k :
  ms !! i = Some m → (total (<[i := m']> ms) k + m k = total ms k + m' k)%nat.
Proof.
  revert i. induction ms as [|x ms IH]; intros [|i] E; simpl in *; simplify_eq; unfold plus; [lia|].
  specialize (IH i E). lia.
Qed.

Lemma total_ge ms i (m : holding) : ms !! i = Some m → ∀ k, (m k ≤ total ms k)%nat.
Proof. intros E k. pose proof (total_insert ms i m none k E). unfold none in *. lia. Qed.

(** What the others hold. *)
Definition rest (ms : list holding) (m : holding) : holding := λ k, (total ms k - m k)%nat.

Lemma total_none ms : Forall (same none) ms → same none (total ms).
Proof.
  induction 1 as [|m ms Hm _ IH]; intros k; [done|]. simpl. unfold plus. by rewrite <- Hm, <- IH.
Qed.
End holding.
Arguments holding : clear implicits.

(** ** Programs that never wait *)

Section nowait.
Context {S : Type}.

Fixpoint nowait {A} (p : prog S A) : Prop :=
  match p with
  | Ret _ => True
  | Atom f k => (∀ t s, f t s ≠ None) ∧ ∀ r, nowait (k r)
  end.

Lemma nowait_bind {A B} (p : prog S A) (g : A → prog S B) :
  nowait p → (∀ a, nowait (g a)) → nowait (pbind p g).
Proof. induction p as [a|T f k IH]; simpl; [auto|]. intros [Hf Hk] Hg. split; auto. Qed.
Lemma nowait_load {T} (get : S → T) : nowait (load get).
Proof. by split. Qed.
Lemma nowait_modify (f : S → S) : nowait (modify f).
Proof. by split. Qed.
Lemma nowait_fetch {T} (f : S → S * T) : nowait (fetch f).
Proof. by split. Qed.
Lemma nowait_ret {A} (a : A) : nowait (Ret a : prog S A).
Proof. done. Qed.
End nowait.

Ltac nowait_tac :=
  repeat first
    [ exact Logic.I
    | apply nowait_load | apply nowait_modify | apply nowait_fetch
    | solve [auto]
    | apply nowait_bind; [|intros ?]
    | case_match ].

(** ** Programs that keep the books *)

Section ledger.
Context {S K : Type} (I : S → holding K → Prop).
Hypothesis I_same : ∀ s m n, same m n → I s m → I s n.

Fixpoint owns {A} (t : nat) (B : S → holding K → Prop) (p : prog S A) (m : holding K)
    (Q : A → holding K → Prop) : Prop :=
  match p with
  | Ret a => Q a m
  | Atom f k =>
      ∀ s M, I s (plus m M) →
        match f t s with
        | Some (s', r) => ∃ m', I s' (plus m' M) ∧ owns t B (k r) m' Q
        | None => B s m
        end
  end.

Lemma owns_bind {A C} t B (p : prog S A) (g : A → prog S C) m N Q :
  owns t B p m N → (∀ a m', N a m' → owns t B (g a) m' Q) → owns t B (pbind p g) m Q.
Proof.
  intros Hp Hg. revert m Hp. induction p as [a|T f k IH]; intros m Hp; simpl in *; [by apply Hg|].
  intros s M Hs. specialize (Hp s M Hs). destruct (f t s) as [[s' r]|]; [|done].
  destruct Hp as (m' & ? & ?). exists m'. eauto.
Qed.

Lemma owns_mono {A} t (B B' : S → holding K → Prop) (p : prog S A) m (Q Q' : A → holding K → Prop) :
  (∀ s n, B s n → B' s n) → (∀ a n, Q a n → Q' a n) → owns t B p m Q → owns t B' p m Q'.
Proof.
  intros HB HQ. revert m. induction p as [a|T f k IH]; intros m Hp; simpl in *; [by apply HQ|].
  intros s M Hs. specialize (Hp s M Hs). destruct (f t s) as [[s' r]|]; [|by apply HB].
  destruct Hp as (m' & ? & ?). exists m'. eauto.
Qed.

Lemma owns_post {A} t B (p : prog S A) m (Q Q' : A → holding K → Prop) :
  (∀ a n, Q a n → Q' a n) → owns t B p m Q → owns t B p m Q'.
Proof. by apply owns_mono. Qed.

(** Holdings are compared kind by kind. *)
Lemma owns_same {A} t (B : S → holding K → Prop) (p : prog S A) m m' (Q : A → holding K → Prop) :
  (∀ s n n', same n n' → B s n → B s n') → (∀ a n n', same n n' → Q a n → Q a n') →
  same m m' → owns t B p m Q → owns t B p m' Q.
Proof.
  intros HB HQ Hm Hp. destruct p as [a|T f k]; simpl in *; [by eapply HQ|].
  intros s M Hs. specialize (Hp s M).
  destruct (f t s) as [[s' r]|]; [apply Hp|eapply HB; [done|apply Hp]];
    (eapply I_same; [|exact Hs]); intros k0; unfold plus; by rewrite Hm.
Qed.

(** What else is held is not touched. *)
Lemma owns_frame {A} t (B : S → holding K → Prop) (p : prog S A) m F (Q : A → holding K → Prop) :
  owns t B p m Q →
  owns t (λ s n, ∃ n0, same n (plus n0 F) ∧ B s n0) p (plus m F) (λ a n, ∃ n0, same n (plus n0 F) ∧ Q a n0).
Proof.
  revert m. induction p as [a|T f k IH]; intros m Hp; simpl in *; [by exists m|].
  intros s M Hs. specialize (Hp s (plus F M)).
  assert (Hassoc : ∀ n : holding K, same (plus n (plus F M)) (plus (plus n F) M)).
  { intros n k0. unfold plus. lia. }
  destruct (f t s) as [[s' r]|].
  - destruct Hp as (m' & HI & Hk); [eapply I_same; [|exact Hs]; intros k0; by rewrite Hassoc|].
    exists (plus m' F). split; [by eapply I_same|by apply IH].
  - exists m. split; [done|]. apply Hp. eapply I_same; [|exact Hs]. intros k0. by rewrite Hassoc.
Qed.

Lemma owns_atomic {T} t B (f : nat → S → option (S * T)) m (Q : T → holding K → Prop) :
  (∀ s M, I s (plus m M) →
     match f t s with Some (s', r) => ∃ m', I s' (plus m' M) ∧ Q r m' | None => B s m end) →
  owns t B (atomic f) m Q.
Proof. done. Qed.

(** Actions that hold and release nothing. *)
Fixpoint silent {A} (p : prog S A) : Prop :=
  match p with
  | Ret _ => True
  | Atom f k => ∀ t s s' r m, I s m → f t s = Some (s', r) → I s' m ∧ silent (k r)
  end.

Lemma silent_preserves {A} (p : prog S A) : (∀ m, preserves (λ s, I s m) p) → silent p.
Proof.
  induction p as [a|T f k IH]; intros Hp; simpl; [done|]. intros t s s' r m Hs E.
  split; [by apply (proj1 (Hp m) t s s' r)|]. apply IH. intros n. apply (proj2 (Hp n)).
Qed.

Lemma silent_ret {A} (a : A) : silent (Ret a).
Proof. done. Qed.
Lemma silent_bind {A C} (p : prog S A) (g : A → prog S C) :
  silent p → (∀ a, silent (g a)) → silent (pbind p g).
Proof.
  intros Hp Hg. induction p as [a|T f k IH]; simpl in *; [done|]. intros t s s' r m Hs E.
  destruct (Hp t s s' r m Hs E). split; [done|by apply IH].
Qed.
Lemma silent_load {T} (get : S → T) : silent (load get).
Proof. apply silent_preserves. intros m. apply preserves_load. Qed.
Lemma silent_modify (f : S → S) : (∀ s m, I s m → I (f s) m) → silent (modify f).
Proof. intros Hf. apply silent_preserves. intros m. apply preserves_modify. auto. Qed.
Lemma silent_fetch {T} (f : S → S * T) : (∀ s m, I s m → I (f s).1 m) → silent (fetch f).
Proof. intros Hf. apply silent_preserves. intros m. apply preserves_fetch. auto. Qed.
Lemma silent_atomic {T} (f : nat → S → option (S * T)) :
  (∀ t s s' r m, I s m → f t s = Some (s', r) → I s' m) → silent (atomic f).
Proof. intros Hf t s s' r m Hs E. split; [by eapply Hf|done]. Qed.

Lemma silent_steps (Q : S → S → Prop) {A} (p : prog S A) :
  (∀ s s' m, I s m → Q s s' → I s' m) → steps_in Q p → silent p.
Proof.
  intros HQ. induction p as [a|T f k IH]; simpl; [done|]. intros [Hf Hk] t s s' r m Hs E.
  split; [eapply HQ; eauto|auto].
Qed.

(** Around those, what is held stays as it is. *)
Lemma owns_silent {A} t B (p : prog S A) m : silent p → (∀ s, B s m) → owns t B p m (λ _ n, n = m).
Proof.
  intros Hp HB. induction p as [a|T f k IH]; simpl in *; [done|]. intros s M Hs.
  specialize (Hp t s). destruct (f t s) as [[s' r]|]; [|done].
  destruct (Hp s' r (plus m M) Hs eq_refl) as [? ?]. exists m. split; [done|by apply IH].
Qed.

Lemma owns_nowait {A} t B (p : prog S A) m :
  silent p → nowait p → owns t B p m (λ _ n, n = m).
Proof.
  intros Hp Hw. induction p as [a|T f k IH]; simpl in *; [done|]. intros s M Hs.
  destruct Hw as [Hf Hk]. specialize (Hp t s). specialize (Hf t s). destruct (f t s) as [[s' r]|]; [|done].
  destruct (Hp s' r (plus m M) Hs eq_refl) as [? ?]. exists m. split; [done|by apply IH].
Qed.

(** ** Every reachable configuration *)

(** A thread is one of the [holders], which may hold something, are as [B] says
    when they wait and as [F] says at their end, or one of the [others], which
    never hold anything. *)
Definition books_to (F : holding K → Prop) (B : nat → S → holding K → Prop)
    (others holders : nat → Prop) (c : config S) : Prop :=
  ∃ ms, length ms = length (threads c) ∧ I (shared c) (total ms) ∧
    ∀ i p m, threads c !! i = Some p → ms !! i = Some m →
      others i ∧ silent p ∧ same none m ∨ holders i ∧ owns i (B i) p m (λ _, F).

(** At the end nothing is held. *)
Definition books : (nat → S → holding K → Prop) → (nat → Prop) → (nat → Prop) → config S → Prop :=
  books_to (same none).

Lemma step_books F B others holders c c' :
  step c c' → books_to F B others holders c → books_to F B others holders c'.
Proof.
  intros [s ts i p s' p' Ei Es] (ms & Hlen & HI & Hts); simpl in *.
  destruct (lookup_lt_is_Some_2 ms i) as [m Em]; [rewrite Hlen; by eapply lookup_lt_Some|].
  assert (Hstep : ∃ m', I s' (total (<[i := m']> ms)) ∧
    (others i ∧ silent p' ∧ same none m' ∨ holders i ∧ owns i (B i) p' m' (λ _, F))).
  { pose proof (Hts i p m Ei Em) as Hp. destruct p as [|T f k]; simpl in Es; [done|].
    destruct (f i s) as [[s1 r]|] eqn:Ef; [|done]. injection Es as <- <-.
    destruct Hp as [(Ho & Hp & Hm)|[Hh Hp]].
    - exists m. rewrite list_insert_id by done.
      destruct (Hp i s s1 r (total ms) HI Ef) as [? ?]. split; [done|]. by left.
    - set (M := rest ms m). pose proof (total_ge ms i m Em) as Hle.
      specialize (Hp s M). rewrite Ef in Hp. destruct Hp as (m' & HI' & Hk).
      { eapply I_same; [|exact HI]. intros k0. unfold plus, M, rest. specialize (Hle k0). lia. }
      exists m'. split; [|by right]. eapply I_same; [|exact HI'].
      intros k0. unfold plus, M, rest. specialize (Hle k0). pose proof (total_insert ms i m m' k0 Em). lia. }
  destruct Hstep as (m' & HI' & Hp'). exists (<[i := m']> ms). split_and!; [simpl; by rewrite !length_insert|done|].
  intros j q n Ej En. simpl in Ej. destruct (decide (i = j)) as [<-|Hne].
  - rewrite list_lookup_insert_eq in Ej by (by eapply lookup_lt_Some).
    rewrite list_lookup_insert_eq in En by (by eapply lookup_lt_Some).
    injection Ej as <-. injection En as <-. exact Hp'.
  - rewrite list_lookup_insert_ne in Ej by done. rewrite list_lookup_insert_ne in En by done.
    by apply (Hts j).
Qed.

Lemma reachable_books_to F B others holders c c' :
  reachable c c' → books_to F B others holders c → books_to F B others holders c'.
Proof. induction 1; eauto using step_books. Qed.

Lemma reachable_books B others holders c c' :
  reachable c c' → books B others holders c → books B others holders c'.
Proof. apply reachable_books_to. Qed.

(** The start: nobody holds anything. *)
Lemma books_to_start F B (others holders : nat → Prop) s ts :
  I s none →
  (∀ i p, ts !! i = Some p → others i ∧ silent p ∨ holders i ∧ owns i (B i) p none (λ _, F)) →
  books_to F B others holders (Config s ts).
Proof.
  intros Hs Hts. exists (replicate (length ts) (none : holding K)). split_and!; [by rewrite length_replicate| |].
  - eapply I_same; [|exact Hs]. simpl. apply total_none, Forall_replicate. done.
  - intros i p m Hi [-> _]%lookup_replicate. destruct (Hts i p Hi) as [[? ?]|?]; [by left|by right].
Qed.

Lemma books_start B (others holders : nat → Prop) s ts :
  I s none →
  (∀ i p, ts !! i = Some p →
     others i ∧ silent p ∨ holders i ∧ owns i (B i) p none (λ _, same none)) →
  books B others holders (Config s ts).
Proof. apply books_to_start. Qed.

(** What a thread that waits holds. *)
Lemma waiting_holds ms i m {T} (f : nat → S → option (S * T)) k B Q (c : config S) :
  ms !! i = Some m → I (shared c) (total ms) → owns i B (Atom f k : prog S unit) m Q →
  pstep i (Atom f k) (shared c) = None → B (shared c) m.
Proof.
  intros Em HI Hp Hw. simpl in Hw, Hp. specialize (Hp (shared c) (rest ms m)).
  destruct (f i (shared c)) as [[]|]; [done|]. apply Hp. eapply I_same; [|exact HI].
  intros k1. unfold plus, rest. pose proof (total_ge ms i m Em k1). lia.
Qed.

(** When every thread that may hold something is over, or waits where it holds
    nothing, nothing is held. *)
Lemma books_over B (others holders : nat → Prop) c :
  books B others holders c →
  (∀ i p, holders i → threads c !! i = Some p →
     finished_thread i c = true ∨ pstep i p (shared c) = None ∧ ∀ m, B i (shared c) m → same none m) →
  I (shared c) none.
Proof.
  intros (ms & Hlen & HI & Hts) Hover. eapply I_same; [|exact HI].
  intros k. symmetry. apply (total_none ms). apply Forall_lookup. intros i m Em.
  destruct (lookup_lt_is_Some_2 (threads c) i) as [p Ep]; [rewrite <- Hlen; by eapply lookup_lt_Some|].
  destruct (Hts i p m Ep Em) as [(_ & _ & Hm)|[Hh Hp]]; [done|].
  destruct (Hover i p Hh Ep) as [Hf|[Hw HB]].
  - unfold finished_thread in Hf. rewrite Ep in Hf. by destruct p.
  - destruct p as [|T f k0]; [done|]. apply HB. exact (waiting_holds ms i m f _ (B i) _ c Em HI Hp Hw).
Qed.

(** The same for some kinds of token. *)
Lemma books_over_kind (P : K → Prop) F B (others holders : nat → Prop) c :
  books_to F B others holders c → (∀ m, F m → ∀ k, P k → m k = 0%nat) →
  (∀ i p, holders i → threads c !! i = Some p →
     finished_thread i c = true ∨
     pstep i p (shared c) = None ∧ ∀ m, B i (shared c) m → ∀ k, P k → m k = 0%nat) →
  ∃ m, I (shared c) m ∧ ∀ k, P k → m k = 0%nat.
Proof.
  intros (ms & Hlen & HI & Hts) HF Hover. exists (total ms). split; [done|].
  assert (Forall (λ m : holding K, ∀ k, P k → m k = 0%nat) ms) as Hk.
  { apply Forall_lookup. intros i m Em.
    destruct (lookup_lt_is_Some_2 (threads c) i) as [p Ep]; [rewrite <- Hlen; by eapply lookup_lt_Some|].
    destruct (Hts i p m Ep Em) as [(_ & _ & Hm)|[Hh Hp]]; [intros k _; by rewrite <- Hm|].
    destruct (Hover i p Hh Ep) as [Hf|[Hw HB]].
    - unfold finished_thread in Hf. rewrite Ep in Hf. destruct p; [|done]. by apply HF.
    - destruct p as [|T f k0]; [by apply HF|]. apply HB. exact (waiting_holds ms i m f _ (B i) _ c Em HI Hp Hw). }
  clear -Hk. intros k HP. induction Hk as [|m ms Hm _ IH]; [done|]. simpl. unfold plus. by rewrite Hm, IH.
Qed.

(** A thread that waits does so where it may. *)
Lemma books_wait B (others holders : nat → Prop) c i p :
  books B others holders c → threads c !! i = Some p → pstep i p (shared c) = None →
  others i ∨ finished_thread i c = true ∨ ∃ m, B i (shared c) m.
Proof.
  intros (ms & Hlen & HI & Hts) Ep Hw.
  destruct (lookup_lt_is_Some_2 ms i) as [m Em]; [rewrite Hlen; by eapply lookup_lt_Some|].
  destruct (Hts i p m Ep Em) as [[? _]|[Hh Hp]]; [by left|right].
  destruct p as [|T f k]; [left; unfold finished_thread; by rewrite Ep|right].
  exists m. exact (waiting_holds ms i m f _ (B i) _ c Em HI Hp Hw).
Qed.

(** At any time the books are right for what is held then. *)
Lemma books_hold B others holders c : books B others holders c → ∃ m, I (shared c) m.
Proof. intros (ms & _ & HI & _). by exists (total ms). Qed.
End ledger.
