(* ===== verification/Abi.v ===== *)
(** * The C ABI surface: status codes, versioned structs, capability bits

    Source: [lib/src/abi.rs] and [lib/src/client/mod.rs].

    A [repr(C)] struct is modelled by its fields together with its byte
    layout ([ReprC]) on the 64-bit little-endian targets the crate is built
    for (macosArm64, macosX64, linuxX64, linuxArm64).  A raw pointer is its
    address, NULL is 0.  A caller's buffer is the list of bytes at and after
    the pointer, so writes past the struct are visible in the result. *)

From S2P Require Import Prelude.

(** ** Status codes, error kinds, callback actions (abi.rs) *)

Abbreviation Hyper4kStatus := Z (only parsing).
Definition HYPER4K_STATUS_OK : Hyper4kStatus := 0.
Definition HYPER4K_STATUS_ABI_MISMATCH : Hyper4kStatus := -1.
Definition HYPER4K_STATUS_STRUCT_SIZE : Hyper4kStatus := -2.
Definition HYPER4K_STATUS_UNKNOWN_FLAGS : Hyper4kStatus := -3.
Definition HYPER4K_STATUS_INVALID_ARG : Hyper4kStatus := -4.
Definition HYPER4K_STATUS_UNSUPPORTED : Hyper4kStatus := -5.
Definition HYPER4K_STATUS_CLIENT_CLOSED : Hyper4kStatus := -6.
Definition HYPER4K_STATUS_OOM : Hyper4kStatus := -7.
Definition HYPER4K_STATUS_RESOURCE_EXHAUSTED : Hyper4kStatus := -8.
Definition HYPER4K_STATUS_NOT_FOUND : Hyper4kStatus := -20.
Definition HYPER4K_STATUS_ALREADY_DONE : Hyper4kStatus := -21.
Definition HYPER4K_STATUS_NOT_PAUSED : Hyper4kStatus := -22.

Abbreviation Hyper4kErrorKind := Z (only parsing).
Definition HYPER4K_ERR_NONE : Hyper4kErrorKind := 0.
Definition HYPER4K_ERR_DNS : Hyper4kErrorKind := 1.
Definition HYPER4K_ERR_CONNECT : Hyper4kErrorKind := 2.
Definition HYPER4K_ERR_TLS_CA : Hyper4kErrorKind := 3.
Definition HYPER4K_ERR_TLS_HOSTNAME : Hyper4kErrorKind := 4.
Definition HYPER4K_ERR_TLS_EXPIRED : Hyper4kErrorKind := 5.
Definition HYPER4K_ERR_TLS_OTHER : Hyper4kErrorKind := 6.
Definition HYPER4K_ERR_ALPN_NO_H2 : Hyper4kErrorKind := 7.
Definition HYPER4K_ERR_PROTOCOL : Hyper4kErrorKind := 8.
Definition HYPER4K_ERR_TIMEOUT : Hyper4kErrorKind := 9.
Definition HYPER4K_ERR_IDLE_TIMEOUT : Hyper4kErrorKind := 10.
Definition HYPER4K_ERR_CANCELLED : Hyper4kErrorKind := 11.
Definition HYPER4K_ERR_TRUNCATED : Hyper4kErrorKind := 12.
Definition HYPER4K_ERR_OUTCOME_UNKNOWN : Hyper4kErrorKind := 13.

Definition HYPER4K_HEADERS_CONTINUE : Z := 0.
Definition HYPER4K_HEADERS_CANCEL : Z := 2.
Definition HYPER4K_CHUNK_CONTINUE : Z := 0.
Definition HYPER4K_CHUNK_PAUSE : Z := 1.
Definition HYPER4K_CHUNK_CANCEL : Z := 2.

(** ** Version and capabilities (abi.rs) *)

Definition ABI_VERSION : Z := Z.lor (Z.shiftl 4 16) 1.
Definition hyper4k_abi_version : Z := ABI_VERSION.

Definition HYPER4K_SERVER_CAP_HTTP1 : Z := Z.shiftl 1 0.
Definition HYPER4K_SERVER_CAP_H2C : Z := Z.shiftl 1 1.
Definition HYPER4K_SERVER_CAP_STREAMING : Z := Z.shiftl 1 2.
Definition hyper4k_server_capabilities : Z :=
  Z.lor (Z.lor HYPER4K_SERVER_CAP_HTTP1 HYPER4K_SERVER_CAP_H2C)
    HYPER4K_SERVER_CAP_STREAMING.

Definition HYPER4K_CLIENT_CAP_HTTP1 : Z := Z.shiftl 1 0.
Definition HYPER4K_CLIENT_CAP_HTTP2 : Z := Z.shiftl 1 1.
Definition HYPER4K_CLIENT_CAP_TLS : Z := Z.shiftl 1 2.
Definition HYPER4K_CLIENT_CAP_CUSTOM_CA : Z := Z.shiftl 1 3.
Definition HYPER4K_CLIENT_CAP_CANCEL : Z := Z.shiftl 1 4.
Definition HYPER4K_CLIENT_CAP_STREAMING : Z := Z.shiftl 1 5.
Definition HYPER4K_CLIENT_CAP_PROXY : Z := Z.shiftl 1 6.
Definition hyper4k_client_capabilities : Z :=
  foldr Z.lor 0
    [HYPER4K_CLIENT_CAP_HTTP1; HYPER4K_CLIENT_CAP_HTTP2; HYPER4K_CLIENT_CAP_TLS;
     HYPER4K_CLIENT_CAP_CUSTOM_CA; HYPER4K_CLIENT_CAP_CANCEL;
     HYPER4K_CLIENT_CAP_STREAMING; HYPER4K_CLIENT_CAP_PROXY].

(** ** Flags and built-in ceilings (client/mod.rs) *)

Definition HYPER4K_CLIENT_HTTP2_REQUIRED : Z := Z.shiftl 1 0.
Definition HYPER4K_CLIENT_CA_REPLACE_SYSTEM : Z := Z.shiftl 1 1.
Definition DEFAULT_MAX_INFLIGHT : Z := 1024.
Definition DEFAULT_MAX_BUFFERED_BYTES : Z := 64 * 1024 * 1024.
Definition KNOWN_CLIENT_FLAGS : Z :=
  Z.lor HYPER4K_CLIENT_HTTP2_REQUIRED HYPER4K_CLIENT_CA_REPLACE_SYSTEM.

(** [flags & !mask != 0] on [u64]. *)
Definition has_bits_outside (mask flags : Z) : bool :=
  negb (Z.land flags (Z.lxor mask (2 ^ 64 - 1)) =? 0).
(** [flags & bit != 0]. *)
Definition has_flag (bit flags : Z) : bool := negb (Z.land flags bit =? 0).

(** ** Structs that cross the boundary *)

Record Hyper4kSlice := { sl_ptr : Z; sl_len : Z }.

Record Hyper4kClientOptions := {
  abi_version : Z;
  struct_size : Z;
  flags : Z;
  connect_timeout_ms : Z;
  request_timeout_ms : Z;
  read_idle_timeout_ms : Z;
  max_retries : Z;
  max_inflight_requests : Z;
  max_buffered_bytes : Z;
  custom_ca_pem : Z;
  custom_ca_pem_len : Z;
  proxy_url : Z;
  proxy_url_len : Z;
}.

Record Hyper4kClientRequest := {
  req_abi_version : Z;
  req_struct_size : Z;
  method : Hyper4kSlice;
  url : Hyper4kSlice;
  headers : Z;
  header_count : Z;
  body_ptr : Z;
  body_len : Z;
  req_read_idle_timeout_ms : Z;
}.

(** The byte representation of a [repr(C)] struct. *)
Class ReprC (T : Type) := {
  size_of : nat;
  to_bytes : T → bytes;
  of_bytes : bytes → T;
  (** every field is within the width of its C type *)
  field_ok : T → Prop;
  length_to_bytes : ∀ x, length (to_bytes x) = size_of;
  of_to_bytes : ∀ x r, field_ok x → of_bytes (to_bytes x ++ r) = x;
}.
Arguments size_of T {_}.

Definition slice_ok (s : Hyper4kSlice) : Prop :=
  in_width 64 (sl_ptr s) ∧ in_width 64 (sl_len s).

Definition enc_slice (s : Hyper4kSlice) : bytes := le_enc 8 (sl_ptr s) ++ le_enc 8 (sl_len s).

Definition enc_options (o : Hyper4kClientOptions) : bytes :=
  le_enc 4 (abi_version o) ++ le_enc 4 (struct_size o) ++ le_enc 8 (flags o) ++
  le_enc 8 (connect_timeout_ms o) ++ le_enc 8 (request_timeout_ms o) ++
  le_enc 8 (read_idle_timeout_ms o) ++ le_enc 4 (max_retries o) ++
  le_enc 4 (max_inflight_requests o) ++ le_enc 8 (max_buffered_bytes o) ++
  le_enc 8 (custom_ca_pem o) ++ le_enc 8 (custom_ca_pem_len o) ++
  le_enc 8 (proxy_url o) ++ le_enc 8 (proxy_url_len o).

Definition dec_options (bs : bytes) : Hyper4kClientOptions :=
  let '(v, bs) := get_le 4 bs in let '(sz, bs) := get_le 4 bs in
  let '(fl, bs) := get_le 8 bs in let '(ct, bs) := get_le 8 bs in
  let '(rt, bs) := get_le 8 bs in let '(it, bs) := get_le 8 bs in
  let '(mr, bs) := get_le 4 bs in let '(mi, bs) := get_le 4 bs in
  let '(mb, bs) := get_le 8 bs in let '(ca, bs) := get_le 8 bs in
  let '(cl, bs) := get_le 8 bs in let '(pu, bs) := get_le 8 bs in
  let '(pl, _) := get_le 8 bs in
  {| abi_version := v; struct_size := sz; flags := fl; connect_timeout_ms := ct;
     request_timeout_ms := rt; read_idle_timeout_ms := it; max_retries := mr;
     max_inflight_requests := mi; max_buffered_bytes := mb; custom_ca_pem := ca;
     custom_ca_pem_len := cl; proxy_url := pu; proxy_url_len := pl |}.

Definition options_ok (o : Hyper4kClientOptions) : Prop :=
  in_width 32 (abi_version o) ∧ in_width 32 (struct_size o) ∧ in_width 64 (flags o) ∧
  in_width 64 (connect_timeout_ms o) ∧ in_width 64 (request_timeout_ms o) ∧
  in_width 64 (read_idle_timeout_ms o) ∧ in_width 32 (max_retries o) ∧
  in_width 32 (max_inflight_requests o) ∧ in_width 64 (max_buffered_bytes o) ∧
  in_width 64 (custom_ca_pem o) ∧ in_width 64 (custom_ca_pem_len o) ∧
  in_width 64 (proxy_url o) ∧ in_width 64 (proxy_url_len o).

Definition enc_request (r : Hyper4kClientRequest) : bytes :=
  le_enc 4 (req_abi_version r) ++ le_enc 4 (req_struct_size r) ++
  (le_enc 8 (sl_ptr (method r)) ++ le_enc 8 (sl_len (method r)) ++
  le_enc 8 (sl_ptr (url r)) ++ le_enc 8 (sl_len (url r))) ++
  le_enc 8 (headers r) ++ le_enc 8 (header_count r) ++ le_enc 8 (body_ptr r) ++
  le_enc 8 (body_len r) ++ le_enc 8 (req_read_idle_timeout_ms r).

Definition dec_request (bs : bytes) : Hyper4kClientRequest :=
  let '(v, bs) := get_le 4 bs in let '(sz, bs) := get_le 4 bs in
  let '(mp, bs) := get_le 8 bs in let '(ml, bs) := get_le 8 bs in
  let '(up, bs) := get_le 8 bs in let '(ul, bs) := get_le 8 bs in
  let '(hp, bs) := get_le 8 bs in let '(hc, bs) := get_le 8 bs in
  let '(bp, bs) := get_le 8 bs in let '(bl, bs) := get_le 8 bs in
  let '(it, _) := get_le 8 bs in
  {| req_abi_version := v; req_struct_size := sz;
     method := {| sl_ptr := mp; sl_len := ml |}; url := {| sl_ptr := up; sl_len := ul |};
     headers := hp; header_count := hc; body_ptr := bp; body_len := bl;
     req_read_idle_timeout_ms := it |}.

Definition request_ok (r : Hyper4kClientRequest) : Prop :=
  in_width 32 (req_abi_version r) ∧ in_width 32 (req_struct_size r) ∧
  slice_ok (method r) ∧ slice_ok (url r) ∧ in_width 64 (headers r) ∧
  in_width 64 (header_count r) ∧ in_width 64 (body_ptr r) ∧ in_width 64 (body_len r) ∧
  in_width 64 (req_read_idle_timeout_ms r).

(** Decoding a concatenation of encoded fields, field by field. *)
Ltac decode_fields :=
  repeat (rewrite <- ?app_assoc; rewrite get_le_enc by done; cbn [fst snd]; cbv beta iota).

#[export, refine] Instance options_repr : ReprC Hyper4kClientOptions := {|
  size_of := 88; to_bytes := enc_options; of_bytes := dec_options; field_ok := options_ok |}.
Proof.
  - intros o. unfold enc_options. by rewrite !length_app, !length_le_enc.
  - intros o r Ho. unfold options_ok in Ho. destruct_and! Ho.
    unfold enc_options, dec_options. decode_fields. by destruct o.
Defined.

#[export, refine] Instance request_repr : ReprC Hyper4kClientRequest := {|
  size_of := 80; to_bytes := enc_request; of_bytes := dec_request; field_ok := request_ok |}.
Proof.
  - intros o. unfold enc_request. by rewrite !length_app, !length_le_enc.
  - intros q r Hq. unfold request_ok, slice_ok in Hq. destruct_and! Hq.
    unfold enc_request, dec_request. decode_fields. by destruct q as [? ? [] []].
Defined.

Definition OPTIONS_MIN_SIZE : Z := 16.
Definition REQUEST_MIN_SIZE : Z := 8 + 2 * 16.

(** ** Init, copy and validation *)

Section versioned.
Context {T : Type} `{!ReprC T}.

(** [ptr] is [None] for NULL, otherwise the bytes from the pointer on.
    Returns the status and the caller's memory afterwards. *)
Definition init_prefix (ptr : option bytes) (struct_size min_size : Z) (defaults : T)
    : Hyper4kStatus * option bytes :=
  match ptr with
  | None => (HYPER4K_STATUS_INVALID_ARG, None)
  | Some buf =>
      if struct_size <? min_size then (HYPER4K_STATUS_STRUCT_SIZE, Some buf)
      else
        let writable := Nat.min (Z.to_nat struct_size) (size_of T) in
        (HYPER4K_STATUS_OK, Some (take writable (to_bytes defaults) ++ drop writable buf))
  end.

Definition copy_prefix (src : bytes) (caller_size : Z) (defaults : T) : T :=
  let n := Nat.min (Z.to_nat caller_size) (size_of T) in
  of_bytes (take n src ++ drop n (to_bytes defaults)).
End versioned.

Definition options_defaults (struct_size : Z) : Hyper4kClientOptions :=
  {| abi_version := hyper4k_abi_version; struct_size := struct_size; flags := 0;
     connect_timeout_ms := 10000; request_timeout_ms := 60000;
     read_idle_timeout_ms := 60000; max_retries := 2;
     max_inflight_requests := DEFAULT_MAX_INFLIGHT;
     max_buffered_bytes := DEFAULT_MAX_BUFFERED_BYTES; custom_ca_pem := 0;
     custom_ca_pem_len := 0; proxy_url := 0; proxy_url_len := 0 |}.

Definition hyper4k_client_options_init (opts : option bytes) (struct_size : Z)
    : Hyper4kStatus * option bytes :=
  init_prefix opts struct_size OPTIONS_MIN_SIZE (options_defaults struct_size).

Definition request_defaults (struct_size : Z) : Hyper4kClientRequest :=
  {| req_abi_version := hyper4k_abi_version; req_struct_size := struct_size;
     method := {| sl_ptr := 0; sl_len := 0 |}; url := {| sl_ptr := 0; sl_len := 0 |};
     headers := 0; header_count := 0; body_ptr := 0; body_len := 0;
     req_read_idle_timeout_ms := 2 ^ 64 - 1 |}.

Definition hyper4k_client_request_init (request : option bytes) (struct_size : Z)
    : Hyper4kStatus * option bytes :=
  init_prefix request struct_size REQUEST_MIN_SIZE (request_defaults struct_size).

(** [mem::zeroed()] and then the init function at the full size. *)
Definition defaults_options : Hyper4kClientOptions :=
  match hyper4k_client_options_init (Some (replicate 88 0)) 88 with
  | (_, Some b) => of_bytes b
  | (_, None) => of_bytes (replicate 88 0)
  end.

Definition defaults_request : Hyper4kClientRequest :=
  match hyper4k_client_request_init (Some (replicate 80 0)) 80 with
  | (_, Some b) => of_bytes b
  | (_, None) => of_bytes (replicate 80 0)
  end.

Definition validate_header (abi_version struct_size min_size : Z) : Hyper4kStatus :=
  if negb (Z.shiftr abi_version 16 =? Z.shiftr hyper4k_abi_version 16) then
    HYPER4K_STATUS_ABI_MISMATCH
  else if struct_size <? min_size then HYPER4K_STATUS_STRUCT_SIZE
  else HYPER4K_STATUS_OK.

(** The two [u32] a caller's struct starts with, read before anything else. *)
Definition raw_abi (src : bytes) : Z := le_dec (take 4 src).
Definition raw_size (src : bytes) : Z := le_dec (take 4 (drop 4 src)).

(** ** Lemmas *)

Section versioned_lemmas.
Context {T : Type} `{!ReprC T}.

(** The bytes a successful init leaves in the caller's memory. *)
Lemma init_prefix_bytes buf n min_size (d : T) :
  min_size ≤ n → n ≤ Z.of_nat (length buf) →
  ∃ buf', init_prefix (Some buf) n min_size d = (HYPER4K_STATUS_OK, Some buf') ∧
    length buf' = length buf ∧
    (∀ i, buf' !! i = if decide (i < Nat.min (Z.to_nat n) (size_of T))%nat
                      then to_bytes d !! i else buf !! i) ∧
    take (Nat.min (Z.to_nat n) (size_of T)) buf' =
    take (Nat.min (Z.to_nat n) (size_of T)) (to_bytes d).
Proof.
  intros Hmin Hlen. unfold init_prefix. rewrite (proj2 (Z.ltb_ge _ _)) by lia.
  set (w := Nat.min _ _). pose proof (length_to_bytes d) as Hd.
  assert (Hw : length (take w (to_bytes d)) = w) by (rewrite length_take; lia).
  eexists; split; [reflexivity|]. split_and!.
  - rewrite length_app, Hw, length_drop. lia.
  - intros i. destruct (decide (i < w)%nat).
    + rewrite lookup_app_l by lia. by apply lookup_take_lt.
    + rewrite lookup_app_r by lia. rewrite Hw, lookup_drop. f_equal. lia.
  - by rewrite take_app_length'.
Qed.

(** A caller's buffer that starts with the encoding of [x] on the bytes the
    copy reads gives [x], if [x] and the defaults agree on the others. *)
Lemma copy_prefix_agree src n (x d : T) :
  field_ok x →
  let w := Nat.min (Z.to_nat n) (size_of T) in
  take w src = take w (to_bytes x) → drop w (to_bytes d) = drop w (to_bytes x) →
  copy_prefix src n d = x.
Proof.
  intros Hx w Ht Hd. unfold copy_prefix. fold w. rewrite Ht, Hd, take_drop.
  rewrite <- (app_nil_r (to_bytes x)). by apply of_to_bytes.
Qed.
End versioned_lemmas.

Lemma defaults_options_eq : defaults_options = options_defaults 88.
Proof. vm_compute. reflexivity. Qed.

Lemma defaults_request_eq : defaults_request = request_defaults 80.
Proof. vm_compute. reflexivity. Qed.

(** The defaults differ in [struct_size] only, which every accepted caller
    size covers. *)
Lemma options_defaults_tail n m w :
  (8 ≤ w)%nat →
  drop w (enc_options (options_defaults n)) = drop w (enc_options (options_defaults m)).
Proof.
  intros Hw. replace w with (8 + (w - 8))%nat by lia. rewrite <- !drop_drop.
  by unfold enc_options.
Qed.

Lemma request_defaults_tail n m w :
  (8 ≤ w)%nat →
  drop w (enc_request (request_defaults n)) = drop w (enc_request (request_defaults m)).
Proof.
  intros Hw. replace w with (8 + (w - 8))%nat by lia. rewrite <- !drop_drop.
  by unfold enc_request.
Qed.

Lemma in_width_le w x : in_width w x → 0 ≤ x.
Proof. by intros []. Qed.

Lemma options_defaults_ok n : in_width 32 n → options_ok (options_defaults n).
Proof. intros ?. unfold options_ok; simpl. repeat split; done || apply H. Qed.

Lemma request_defaults_ok n : in_width 32 n → request_ok (request_defaults n).
Proof. intros ?. unfold request_ok, slice_ok; simpl. repeat split; done || apply H. Qed.

(** Prefix reads see the leading two words of an encoded options struct. *)
Lemma raw_words_take src w :
  (8 ≤ w)%nat → raw_abi (take w src) = raw_abi src ∧ raw_size (take w src) = raw_size src.
Proof.
  intros Hw. unfold raw_abi, raw_size. rewrite take_take, Nat.min_l by lia. split; [done|].
  rewrite !take_drop_commute, take_take, Nat.min_l by lia. done.
Qed.

Lemma raw_words_options o :
  in_width 32 (abi_version o) → in_width 32 (struct_size o) →
  raw_abi (enc_options o) = abi_version o ∧ raw_size (enc_options o) = struct_size o.
Proof.
  intros ? ?. split; [change (fst (get_le 4 (enc_options o)) = abi_version o)
    |change (fst (get_le 4 (snd (get_le 4 (enc_options o)))) = struct_size o)];
    unfold enc_options; by decode_fields.
Qed.

Lemma validate_header_ok_iff v n m :
  validate_header v n m = HYPER4K_STATUS_OK ↔ Z.shiftr v 16 = 4 ∧ m ≤ n.
Proof.
  unfold validate_header. change (Z.shiftr hyper4k_abi_version 16) with 4.
  destruct (Z.eqb_spec (Z.shiftr v 16) 4), (Z.ltb_spec n m); simpl;
    (split; [intros; by (done || split) || discriminate|intros []; lia || done]).
Qed.

(** Only the two known bits pass the unknown-flag test. *)
Lemma known_flags_iff f :
  in_width 64 f → has_bits_outside KNOWN_CLIENT_FLAGS f = false ↔ f < 4.
Proof.
  intros [Hlo Hhi]. unfold has_bits_outside. rewrite negb_false_iff, Z.eqb_eq.
  change (Z.lxor KNOWN_CLIENT_FLAGS (2 ^ 64 - 1)) with (Z.shiftl (Z.ones 62) 2).
  split.
  - intros H. assert (Hs : Z.shiftr f 2 = 0).
    { apply Z.bits_inj'. intros i Hi. rewrite Z.shiftr_spec, Z.bits_0 by lia.
      destruct (decide (i < 62)).
      - apply (f_equal (λ z, Z.testbit z (i + 2))) in H.
        rewrite Z.land_spec, Z.shiftl_spec, Z.bits_0 in H by lia.
        rewrite Z.ones_spec_low in H by lia. by rewrite andb_true_r in H.
      - destruct (decide (f = 0)) as [->|]; [apply Z.bits_0|].
        apply Z.bits_above_log2; [lia|].
        apply Z.log2_lt_pow2; [lia|]. apply (Z.lt_le_trans _ (2 ^ 64)); [done|].
        apply Z.pow_le_mono_r; lia. }
    rewrite Z.shiftr_div_pow2 in Hs by lia. apply Z.div_small_iff in Hs; [|done]. lia.
  - intros H. apply Z.bits_inj'. intros i Hi. rewrite Z.land_spec, Z.bits_0, Z.shiftl_spec by lia.
    destruct (decide (i < 2)); [rewrite (Z.testbit_neg_r _ (i - 2)) by lia; apply andb_false_r|].
    destruct (decide (f = 0)) as [->|]; [by rewrite Z.bits_0|].
    rewrite Z.bits_above_log2; [done|lia|]. apply Z.log2_lt_pow2; [lia|].
    apply (Z.lt_le_trans _ (2 ^ 2)); [lia|]. apply Z.pow_le_mono_r; lia.
Qed.

(** ** Properties *)

(** C36: an init function never writes outside the caller's struct. For any
    accepted caller size the memory keeps its length, the first
    [min(struct_size, size_of T)] bytes become those of the defaults and every
    other byte, inside or after the caller's allocation, is untouched. *)
Theorem init_prefix_in_bounds {T} `{!ReprC T} buf n min_size (d : T) :
  min_size ≤ n → n ≤ Z.of_nat (length buf) →
  ∃ buf', init_prefix (Some buf) n min_size d = (HYPER4K_STATUS_OK, Some buf') ∧
    length buf' = length buf ∧
    ∀ i, buf' !! i = if decide (i < Nat.min (Z.to_nat n) (size_of T))%nat
                     then to_bytes d !! i else buf !! i.
Proof.
  intros Hmin Hlen. destruct (init_prefix_bytes buf n min_size d Hmin Hlen) as (b&?&?&?&_).
  by exists b.
Qed.

(** C37: what the options init writes, [hyper4k_client_new] reads back. For every
    caller size from the minimum up, the initialised memory passes the header
    validation and the prefix copy yields exactly this build's defaults, with
    the caller's own size recorded. *)
Theorem options_init_roundtrip buf n :
  OPTIONS_MIN_SIZE ≤ n → in_width 32 n → n ≤ Z.of_nat (length buf) →
  ∃ buf', hyper4k_client_options_init (Some buf) n = (HYPER4K_STATUS_OK, Some buf') ∧
    validate_header (raw_abi buf') (raw_size buf') OPTIONS_MIN_SIZE = HYPER4K_STATUS_OK ∧
    copy_prefix buf' (raw_size buf') defaults_options = options_defaults n.
Proof.
  intros Hmin Hw Hlen. unfold hyper4k_client_options_init.
  destruct (init_prefix_bytes buf n OPTIONS_MIN_SIZE (options_defaults n) Hmin Hlen)
    as (buf' & E & _ & _ & Ht).
  exists buf'. unfold OPTIONS_MIN_SIZE in Hmin.
  set (w := Nat.min (Z.to_nat n) 88) in *. simpl in Ht. fold w in Ht.
  assert (Hw8 : (8 ≤ w)%nat) by lia.
  destruct (raw_words_take buf' w Hw8) as [Ea Es].
  destruct (raw_words_take (enc_options (options_defaults n)) w Hw8) as [Fa Fs].
  destruct (raw_words_options (options_defaults n)) as [Ga Gs]; [done..|].
  rewrite Ht in Ea, Es. rewrite <- Ea, <- Es, Fa, Fs, Ga, Gs. split; [done|]. split.
  - by apply validate_header_ok_iff.
  - rewrite defaults_options_eq. apply copy_prefix_agree; simpl; fold w; [|done|].
    + by apply options_defaults_ok.
    + by apply options_defaults_tail.
Qed.

(** A caller compiled against the 72-byte ABI 4.0 options struct is read
    safely: whatever lies in memory after its 72 bytes, every field it has is
    taken over and the later [proxy_url] fields keep their defaults, so the
    client connects directly. *)
Theorem abi_40_caller_connects_directly o junk :
  options_ok o →
  copy_prefix (take 72 (to_bytes o) ++ junk) 72 defaults_options =
  {| abi_version := abi_version o; struct_size := struct_size o; flags := flags o;
     connect_timeout_ms := connect_timeout_ms o;
     request_timeout_ms := request_timeout_ms o;
     read_idle_timeout_ms := read_idle_timeout_ms o; max_retries := max_retries o;
     max_inflight_requests := max_inflight_requests o;
     max_buffered_bytes := max_buffered_bytes o; custom_ca_pem := custom_ca_pem o;
     custom_ca_pem_len := custom_ca_pem_len o; proxy_url := 0; proxy_url_len := 0 |}.
Proof.
  intros Ho. apply copy_prefix_agree; unfold options_ok in *; destruct_and! Ho.
  - simpl. split_and!; done.
  - change (Nat.min (Z.to_nat 72) (size_of Hyper4kClientOptions)) with 72%nat.
    rewrite take_app_le, take_take by
      (rewrite length_take, length_to_bytes; simpl; lia).
    change (Nat.min 72 72) with 72%nat. by unfold to_bytes; simpl.
  - rewrite defaults_options_eq. by unfold to_bytes; simpl.
Qed.

(** ** Witnesses *)

Lemma init_prefix_in_bounds_witness :
  ∃ buf', hyper4k_client_options_init (Some (replicate 80 171)) 16 =
          (HYPER4K_STATUS_OK, Some buf') ∧ length buf' = 80%nat ∧ buf' !! 16%nat = Some 171.
Proof.
  destruct (init_prefix_in_bounds (replicate 80 171) 16 OPTIONS_MIN_SIZE (options_defaults 16))
    as (b & E & Hl & Hb); [done|vm_compute; discriminate|].
  exists b. split; [exact E|]. split; [exact Hl|]. rewrite Hb. reflexivity.
Defined.

Lemma options_init_roundtrip_witness :
  ∃ buf', hyper4k_client_options_init (Some (replicate 100 7)) 40 =
          (HYPER4K_STATUS_OK, Some buf') ∧
          copy_prefix buf' (raw_size buf') defaults_options = options_defaults 40.
Proof.
  destruct (options_init_roundtrip (replicate 100 7) 40) as (b & E & _ & F);
    [done|done|vm_compute; discriminate|].
  exists b. split; [exact E|exact F].
Defined.

Lemma abi_40_caller_connects_directly_witness :
  proxy_url (copy_prefix (take 72 (to_bytes (options_defaults 72)) ++ replicate 16 255) 72
               defaults_options) = 0.
Proof.
  rewrite (abi_40_caller_connects_directly (options_defaults 72) (replicate 16 255)).
  - reflexivity.
  - vm_compute. repeat split; discriminate || reflexivity.
Defined.
