(* ===== verification/Bridge.v ===== *)
(** * Per-request event delivery: the slot, the terminal gate, backpressure

    Source: [lib/src/client/bridge.rs].

    One value of [bridge] is everything the threads of one request share: the
    fields of [RequestState], [Slot], [RequestHandle] and [BridgeCounter], and
    of the executor's ready queue the number of entries that are this slot.
    Each routine is a [prog]: one action per atomic access or critical section
    of the source, in source order.

    The callbacks belong to the caller.  [script] lists what they will return,
    call after call; the theorems quantify over it.  A call the callback makes
    itself ([resume], [cancel]) is an action of another thread while the
    callback runs.

    Fields under "ghost" record history for the statements; no routine reads
    them. *)

From S2P Require Import Prelude Conc Abi.

Open Scope prog_scope.

(** ** Data *)

Inductive Event :=
| Headers (status version : Z) (headers : list (bytes * bytes))
| Chunk (b : bytes).

Record Terminal := { kind : Hyper4kErrorKind; protocol_code : Z; message : bytes }.

(** An invocation of one of the caller's callbacks with its arguments; the
    [Hyper4kError] of [OnDone] is [None] for NULL. *)
Inductive Call :=
| OnEvent (e : Event)
| OnDone (error : option Terminal).

Definition RUNNING : Z := 0.
Definition TERMINAL_DRAIN : Z := 1.
Definition TERMINAL_DISCARD : Z := 2.

Record bridge := Bridge {
  (* RequestState *)
  state : Z;
  committed : bool;
  paused : bool;
  in_callback : bool;
  permit : bool;
  conn : option nat;
  pause_guard : option nat;
  (* Slot *)
  has_on_chunk : bool;
  queue : list Event;
  space : nat;
  terminal : option Terminal;
  done_ready : bool;
  scheduled : bool;
  running : bool;
  finished_flag : bool;
  finished : bool;
  (* RequestHandle *)
  abort : bool;
  task_aborted : bool;
  (* BridgeCounter, the executor's ready queue, the connections' paused counts *)
  counter : Z;
  ready : nat;
  conn_paused : gmap nat Z;
  (* what the callbacks will return *)
  script : list Z;
  (* ghost *)
  calls : list Call;
  sent : list Event;
  popped : list Event;
  owner : option nat;
  claimant : option nat;
  term_set : bool;
  producer_holds : nat;
  worker_owes : nat;
  bumped : nat;
  sends : list (nat * bool);
}.

#[export] Instance bridge_eta : Settable bridge := λ s,
  Bridge (state s) (committed s) (paused s) (in_callback s) (permit s) (conn s)
    (pause_guard s) (has_on_chunk s) (queue s) (space s) (terminal s) (done_ready s)
    (scheduled s) (running s) (finished_flag s) (finished s) (abort s) (task_aborted s)
    (counter s) (ready s) (conn_paused s) (script s) (calls s) (sent s) (popped s)
    (owner s) (claimant s) (term_set s) (producer_holds s) (worker_owes s) (bumped s) (sends s).

(** [spawn]: a fresh request.  [BridgeCounter::enter] has been called by
    [hyper4k_client_send]; the abort handle is stored when the task starts. *)
Definition spawn (queue_capacity : nat) (on_chunk : bool) (script : list Z) : bridge :=
  {| state := RUNNING; committed := false; paused := false; in_callback := false;
     permit := false; conn := None; pause_guard := None; has_on_chunk := on_chunk;
     queue := []; space := queue_capacity; terminal := None; done_ready := false;
     scheduled := false; running := false; finished_flag := false; finished := true;
     abort := false; task_aborted := false; counter := 1; ready := 0; conn_paused := ∅;
     script := script; calls := []; sent := []; popped := []; owner := None;
     claimant := None; term_set := false; producer_holds := 0; worker_owes := 0;
     bumped := 0; sends := [] |}.

Definition is_nil {A} (l : list A) : bool := match l with [] => true | _ => false end.

(** ** BridgeCounter *)

Definition leave : prog bridge unit := modify (λ s, s <| counter ::= Z.pred |>).

(** [wait_zero]: a step that can only be taken at zero. *)
Definition wait_zero : prog bridge unit :=
  atomic (λ _ s, if counter s =? 0 then Some (s, tt) else None).

(** ** RequestState *)

Definition bind_connection (entry : nat) : prog bridge unit :=
  modify (λ s, s <| conn := Some entry |>).
Definition mark_committed : prog bridge unit := modify (λ s, s <| committed := true |>).
Definition is_committed : prog bridge bool := load committed.
Definition is_terminal : prog bridge bool := load (λ s, negb (state s =? RUNNING)).
Definition discarding : prog bridge bool := load (λ s, state s =? TERMINAL_DISCARD).

(** [compare_exchange(RUNNING, target)]. *)
Definition claim (discard : bool) : prog bridge bool :=
  atomic (λ t s,
    if state s =? RUNNING
    then Some (s <| state := if discard then TERMINAL_DISCARD else TERMINAL_DRAIN |>
                 <| claimant := Some t |>, true)
    else Some (s, false)).

(** [PauseGuard::new] and its [Drop] on the paused count of a connection. *)
Definition paused_count (s : bridge) (c : nat) : Z := default 0 (conn_paused s !! c).
Definition guard_new (c : nat) : prog bridge unit :=
  modify (λ s, s <| conn_paused ::= insert c (fetch_add 32 (paused_count s c) 1) |>).
Definition guard_drop (c : nat) : prog bridge unit :=
  modify (λ s, s <| conn_paused ::= insert c (fetch_sub 32 (paused_count s c) 1) |>).

(** [*self.pause_guard.lock() = g]: store, then drop what was there. *)
Definition set_pause_guard (g : option nat) : prog bridge unit :=
  old <- fetch (λ s, (s <| pause_guard := g |>, pause_guard s)) ;;
  match old with Some c => guard_drop c | None => Ret tt end.

Definition enter_pause : prog bridge unit :=
  modify (λ s, s <| paused := true |>) ;;
  c <- load conn ;;
  match c with
  | Some c => guard_new c ;; set_pause_guard (Some c)
  | None => set_pause_guard None
  end.

Definition leave_pause : prog bridge unit :=
  modify (λ s, s <| paused := false |>) ;;
  set_pause_guard None.

Definition clear_permit : prog bridge unit := modify (λ s, s <| permit := false |>).

(** ** Scheduling *)

(** [BridgeExecutor::schedule]: push this slot to the back of the ready queue. *)
Definition ex_schedule : prog bridge unit := modify (λ s, s <| ready ::= S |>).

Definition schedule_slot : prog bridge unit :=
  was <- fetch (λ s, (s <| scheduled := true |>, scheduled s)) ;;
  if was then Ret tt else ex_schedule.

(** [slot.me] upgrades for as long as someone holds the slot, and every caller
    of [reschedule] does. *)
Definition reschedule : prog bridge unit := schedule_slot.

(** ** Termination *)

Definition add_permits_bump : prog bridge unit :=
  modify (λ s, s <| space ::= S |> <| bumped ::= S |>).

Definition settle_slot (t : Terminal) (discard : bool) : prog bridge unit :=
  won <- claim discard ;;
  if negb won then
    p <- load paused ;;
    if discard && p then leave_pause ;; reschedule else Ret tt
  else
    modify (λ s, s <| terminal := Some t |> <| term_set := true |>) ;;
    modify (λ s, s <| done_ready := true |>) ;;
    add_permits_bump ;;
    p <- load paused ;;
    (if discard && p then leave_pause else Ret tt) ;;
    reschedule.

(** [RequestHandle::settle]: the slot first, then the network task. *)
Definition settle (t : Terminal) (discard : bool) : prog bridge unit :=
  settle_slot t discard ;;
  h <- fetch (λ s, (s <| abort := false |>, abort s)) ;;
  if h then modify (λ s, s <| task_aborted := true |>) else Ret tt.

Definition set_abort : prog bridge unit := modify (λ s, s <| abort := true |>).

Definition resume : prog bridge Hyper4kStatus :=
  p <- load paused ;;
  if p then leave_pause ;; schedule_slot ;; Ret HYPER4K_STATUS_OK
  else
    c <- load in_callback ;;
    if c then modify (λ s, s <| permit := true |>) ;; Ret HYPER4K_STATUS_OK
    else
      d <- is_terminal ;;
      if d then Ret HYPER4K_STATUS_ALREADY_DONE else Ret HYPER4K_STATUS_NOT_PAUSED.

(** ** Delivery *)

(** A callback that returns an action: record the call, take its result.  A
    script that has run out is a callback that never returns. *)
Definition invoke (e : Event) : prog bridge Z :=
  atomic (λ _ s,
    match script s with
    | a :: rest => Some (s <| calls ::= (λ l, l ++ [OnEvent e]) |> <| script := rest |>, a)
    | [] => None
    end).

Definition deliver (e : Event) : prog bridge (option Z) :=
  match e with
  | Headers _ _ _ =>
      action <- invoke e ;;
      Ret (if action =? HYPER4K_HEADERS_CANCEL then Some HYPER4K_CHUNK_CANCEL else None)
  | Chunk _ =>
      f <- load has_on_chunk ;;
      if f then a <- invoke e ;; Ret (Some a) else Ret None
  end.

Definition deliver_done (t : Terminal) : prog bridge unit :=
  let error := if kind t =? HYPER4K_ERR_NONE then None else Some t in
  modify (λ s, s <| calls ::= (λ l, l ++ [OnDone error]) |>).

Definition pop_front : prog bridge (option Event) :=
  fetch (λ s,
    match queue s with
    | [] => (s, None)
    | e :: q => (s <| queue := q |> <| popped ::= (λ l, l ++ [e]) |> <| worker_owes := 1%nat |>,
                 Some e)
    end).

(** [space.add_permits(1)] for the event that just left the queue. *)
Definition add_permits_popped : prog bridge unit :=
  modify (λ s, s <| space ::= S |> <| worker_owes := 0%nat |>).

Definition cancelled_by_callback : Terminal :=
  {| kind := HYPER4K_ERR_CANCELLED; protocol_code := 0;
     message := lit "cancelled by callback" |}.

Definition set_in_callback (b : bool) : prog bridge unit :=
  modify (λ s, s <| in_callback := b |>).

(** What [run_owned] does after its loop: [Done] once the queue is empty and
    the request is settled. *)
Definition finish_if_done : prog bridge bool :=
  empty <- load (λ s, is_nil (queue s)) ;;
  d <- (if empty : bool then load done_ready else Ret false) ;;
  if d then
    t <- fetch (λ s, (s <| terminal := None |>, terminal s)) ;;
    match t with
    | Some t =>
        deliver_done t ;;
        modify (λ s, s <| finished_flag := true |>) ;;
        modify (λ s, s <| finished := false |>) ;;
        leave ;;
        Ret false
    | None => Ret false
    end
  else Ret (negb empty).

(** The loop of [run_owned]: [Some more] is an early return. *)
Fixpoint deliver_loop (budget : nat) : prog bridge (option bool) :=
  match budget with
  | O => Ret None
  | S budget =>
      p <- load paused ;;
      if p : bool then Ret (Some false)
      else
        next <- pop_front ;;
        match next with
        | None => Ret None
        | Some e =>
            add_permits_popped ;;
            d <- discarding ;;
            if d : bool then deliver_loop budget
            else
              set_in_callback true ;;
              action <- deliver e ;;
              set_in_callback false ;;
              match action with
              | Some a =>
                  if a =? HYPER4K_CHUNK_CANCEL then
                    clear_permit ;;
                    settle_slot cancelled_by_callback true ;;
                    Ret (Some false)
                  else if a =? HYPER4K_CHUNK_PAUSE then
                    got <- fetch (λ s, (s <| permit := false |>, permit s)) ;;
                    if got : bool then deliver_loop budget
                    else enter_pause ;; Ret (Some false)
                  else clear_permit ;; deliver_loop budget
              | None => clear_permit ;; deliver_loop budget
              end
        end
  end.

Definition run_owned (budget : nat) : prog bridge bool :=
  modify (λ s, s <| scheduled := false |>) ;;
  p <- load paused ;;
  if p : bool then Ret false
  else
    r <- deliver_loop budget ;;
    match r with
    | Some more => Ret more
    | None => finish_if_done
    end.

Definition run_slice (budget : nat) : prog bridge bool :=
  was <- atomic (λ t s,
    if running s then Some (s, true)
    else Some (s <| running := true |> <| owner := Some t |>, false)) ;;
  if was : bool then
    modify (λ s, s <| scheduled := false |>) ;;
    Ret false
  else
    more <- run_owned budget ;;
    modify (λ s, s <| running := false |> <| owner := None |>) ;;
    f <- load finished_flag ;;
    if f : bool then Ret false
    else if more : bool then Ret true
    else e <- load (λ s, is_nil (queue s)) ;; Ret (negb e).

(** ** The producer half *)

Definition acquire_permit : prog bridge unit :=
  atomic (λ _ s,
    match space s with
    | S n => Some (s <| space := n |> <| producer_holds := 1%nat |>, tt)
    | O => None
    end).

Definition release_permit : prog bridge unit :=
  modify (λ s, s <| space ::= S |> <| producer_holds := 0%nat |>).

Definition push_back (e : Event) : prog bridge unit :=
  modify (λ s, s <| queue ::= (λ q, q ++ [e]) |> <| sent ::= (λ q, q ++ [e]) |>
                 <| producer_holds := 0%nat |>).

(** [EventSink::send].  Dropping the permit on the second refusal gives it
    back; [permit.forget()] keeps it until the event has been delivered. *)
Definition send (e : Event) : prog bridge bool :=
  d <- is_terminal ;;
  if d : bool then Ret false
  else
    acquire_permit ;;
    d <- is_terminal ;;
    if d : bool then release_permit ;; Ret false
    else
      mark_committed ;;
      push_back e ;;
      p <- load paused ;;
      (if p : bool then Ret tt else schedule_slot) ;;
      Ret true.

(** ** A worker of the executor, seen from this slot

    [SLICE] events per turn; a slot with more work goes back to the queue. *)

Definition SLICE : nat := 8.

Definition worker_turn : prog bridge unit :=
  atomic (λ _ s, match ready s with
                 | S n => Some (s <| ready := n |>, tt)
                 | O => None
                 end) ;;
  again <- run_slice SLICE ;;
  if again : bool then ex_schedule else Ret tt.

(** [worker_loop] for [n] turns. *)
Fixpoint worker (n : nat) : prog bridge unit :=
  match n with
  | O => Ret tt
  | S n => worker_turn ;; worker n
  end.
