(* ===== verification/Retry.v ===== *)
(** * Retry policy

    Source: [lib/src/client/retry.rs].  A [hyper::Method] is its token. *)

From S2P Require Import Prelude.

Definition is_idempotent (m : bytes) : bool :=
  bool_decide (m ∈ [lit "GET"; lit "HEAD"; lit "PUT"; lit "DELETE"; lit "OPTIONS"; lit "TRACE"]).

Definition may_retry (committed provably_unsent method_idempotent : bool) (budget_left : Z)
    : bool :=
  if committed then false
  else if budget_left =? 0 then false
  else provably_unsent || method_idempotent.

(** The decision table of the source, as one equivalence. *)
Lemma may_retry_iff c u i b :
  may_retry c u i b = true ↔ c = false ∧ b ≠ 0 ∧ (u = true ∨ i = true).
Proof.
  unfold may_retry. destruct c, (Z.eqb_spec b 0); simpl; rewrite ?orb_true_iff; intuition congruence.
Qed.
