(* ===== verification/Request.v ===== *)
(** * The network task of a request: attempts, retries, delivery

    Source: [run_request], [attempt_loop] and [deliver_response] of
    [lib/src/client/handle.rs].

    What hyper answers is the environment of the task: one element of a list per
    turn of the loop, and the frames of the response body.  A list that has run
    out is an answer that never comes.  What the loop asks of its surroundings is
    the class [Transport]: a connection, its way back, and to run a part of the
    request that may be cut short because the task is dropped.  Seen from one
    request ([answers]) the pool's answers are given too; [Client] has the
    instance over its pools. *)

From S2P Require Import Prelude Conc Abi Bridge Retry.

Open Scope prog_scope.

(** What awaiting [body.frame()] gives: a data frame, a frame that is not data
    (trailers), a transport error, an idle period as long as the configured
    limit, or nothing for ever.  The end of the list is the end of the body. *)
Inductive Frame :=
| Data (b : bytes)
| Trailers
| Broken
| Silence
| Pending.

(** The parts of [hyper::Response] the task reads. *)
Record Response := {
  resp_http2 : bool;
  resp_status : Z;
  resp_headers : list (bytes * bytes);
  resp_body : list Frame;
}.

Definition mk_terminal (k : Hyper4kErrorKind) (msg : bytes) : Terminal :=
  {| kind := k; protocol_code := 0; message := msg |}.

Record RequestPolicy := {
  policy_max_retries : Z;
  request_timeout : option Z;
  read_idle_timeout : option Z;
}.

(** An await that does not complete. *)
Definition wait_forever : prog bridge unit := atomic (λ _ _, None).

Section deliver.
Variable policy : RequestPolicy.

Fixpoint deliver_body (body : list Frame) : prog bridge unit :=
  match body with
  | [] => settle (mk_terminal HYPER4K_ERR_NONE []) false
  | Data b :: body =>
      if is_nil b then deliver_body body
      else
        ok <- send (Chunk b) ;;
        if ok : bool then deliver_body body else Ret tt
  | Trailers :: body => deliver_body body
  | Broken :: _ => settle (mk_terminal HYPER4K_ERR_TRUNCATED (lit "response truncated")) true
  | Silence :: body =>
      match read_idle_timeout policy with
      | Some _ =>
          settle (mk_terminal HYPER4K_ERR_IDLE_TIMEOUT (lit "idle timeout between chunks")) true
      | None => deliver_body body
      end
  | Pending :: _ => wait_forever
  end.

Definition deliver_response (r : Response) : prog bridge unit :=
  let version := if resp_http2 r then 2 else 1 in
  ok <- send (Headers (resp_status r) version (resp_headers r)) ;;
  if ok : bool then deliver_body (resp_body r) else Ret tt.
End deliver.

(** Handing the request to connection [c]; [unsent] is only recorded. *)
Definition try_send_request (c : nat) (unsent : bool) : prog bridge unit :=
  modify (λ s, s <| sends ::= (λ l, l ++ [(c, unsent)]) |>).

(** ** The surroundings of the task *)

(** [E] is what the environment will answer in one turn of the loop; [None] as a
    result says that the task has been dropped at an await. *)
Class Transport (S E : Type) := {
  (* a part of the request's own code; the same up to a drop of the task *)
  tr_slot : ∀ {A}, prog bridge A → prog S A;
  tr_until : ∀ {A}, prog bridge A → prog S (option A);
  (* [pool.acquire], [is_closed] of the sender, the lease's [Drop] *)
  tr_acquire : E → prog S (option (Hyper4kErrorKind + nat));
  tr_is_closed : E → nat → prog S bool;
  tr_drop : nat → prog S unit;
  (* [template.build] succeeds; what [try_send_request] answers, if it does: a
     response, or whether the request was handed back unsent *)
  tr_built : E → bool;
  tr_sent : E → option (bool + Response);
}.

(** The answers given, one request on its own. *)
Record Attempt := {
  at_acquire : Hyper4kErrorKind + nat;
  at_closed : bool;
  at_built : bool;
  at_sent : bool + Response;
}.

#[export] Instance answers : Transport bridge Attempt := {|
  tr_slot A p := p;
  tr_until A p := a <- p ;; Ret (Some a);
  tr_acquire a := Ret (Some (at_acquire a));
  tr_is_closed a _ := Ret (at_closed a);
  tr_drop _ := Ret tt;
  tr_built := at_built;
  tr_sent a := Some (at_sent a);
|}.

Section attempts.
Variables (idempotent : bool) (deliver : Response → prog bridge unit).

(** One attempt on the connection [c]; the result is whether to try again. *)
Definition attempt (built : bool) (sent : option (bool + Response)) (c : nat) (budget : Z)
    : prog bridge bool :=
  bind_connection c ;;
  if negb built then
    settle (mk_terminal HYPER4K_ERR_PROTOCOL (lit "request could not be built")) true ;;
    Ret false
  else
    match sent with
    | None => try_send_request c false ;; wait_forever ;; Ret false
    | Some (inr r) => try_send_request c false ;; deliver r ;; Ret false
    | Some (inl provably_unsent) =>
        try_send_request c provably_unsent ;;
        committed <- is_committed ;;
        if may_retry committed provably_unsent idempotent budget then Ret true
        else
          let k := if committed : bool then HYPER4K_ERR_TRUNCATED
                   else HYPER4K_ERR_OUTCOME_UNKNOWN in
          settle (mk_terminal k (lit "send failed")) true ;;
          Ret false
    end.

(** The loop; whether it came to its end (or was dropped). *)
Fixpoint attempt_loop {S E} {T : Transport S E} (env : list E) (budget : Z) : prog S bool :=
  match env with
  | [] => tr_until wait_forever ;; Ret false
  | a :: env =>
      lease <- tr_acquire a ;;
      match lease with
      | None => Ret false
      | Some (inl k) => tr_slot (settle (mk_terminal k (lit "connect failed")) true) ;; Ret true
      | Some (inr c) =>
          gone <- tr_is_closed a c ;;
          if gone : bool then
            tr_drop c ;;
            if 0 <? budget then attempt_loop env (budget - 1)
            else
              tr_slot (settle (mk_terminal HYPER4K_ERR_CONNECT (lit "no live connection")) true) ;;
              Ret true
          else
            again <- tr_until (attempt (tr_built a) (tr_sent a) c budget) ;;
            tr_drop c ;;
            match again with
            | None => Ret false
            | Some true => attempt_loop env (budget - 1)
            | Some false => Ret true
            end
      end
  end.
End attempts.

(** One turn of the loop when the answers are given. *)
Lemma attempt_loop_answers i d (a : Attempt) env budget :
  attempt_loop i d (a :: env) budget =
  match at_acquire a with
  | inl k => settle (mk_terminal k (lit "connect failed")) true ;; Ret true
  | inr c =>
      if at_closed a then
        if 0 <? budget then attempt_loop i d env (budget - 1)
        else
          settle (mk_terminal HYPER4K_ERR_CONNECT (lit "no live connection")) true ;; Ret true
      else
        again <- (r <- attempt i d (at_built a) (Some (at_sent a)) c budget ;; Ret (Some r)) ;;
        match again with
        | None => Ret false
        | Some true => attempt_loop i d env (budget - 1)
        | Some false => Ret true
        end
  end.
Proof. cbn -[attempt settle lit]. by destruct (at_acquire a); [|destruct (at_closed a)]. Qed.

(** [run_request] is the attempt loop raced against the configured timeout.
    When the timeout fires the task's future is dropped at an await (it takes no
    further step) and [request_timed_out] runs instead. *)
Definition run_request (method : bytes) (policy : RequestPolicy) (env : list Attempt)
    : prog bridge unit :=
  attempt_loop (is_idempotent method) (deliver_response policy) env (policy_max_retries policy) ;;
  Ret tt.

Definition request_timed_out (policy : RequestPolicy) : prog bridge unit :=
  match request_timeout policy with
  | Some _ => settle (mk_terminal HYPER4K_ERR_TIMEOUT (lit "request timeout")) true
  | None => Ret tt
  end.

(** [hyper4k_client_cancel] for a request that is registered, and what
    [hyper4k_client_close] does to each. *)
Definition cancel_request : prog bridge Hyper4kStatus :=
  d <- is_terminal ;;
  if d : bool then Ret HYPER4K_STATUS_ALREADY_DONE
  else
    settle (mk_terminal HYPER4K_ERR_CANCELLED (lit "cancelled")) true ;;
    Ret HYPER4K_STATUS_OK.

Definition close_request : prog bridge unit :=
  settle (mk_terminal HYPER4K_ERR_CANCELLED (lit "client closed")) true.
