(* ===== verification/BridgeSafety.v ===== *)
(** * The bridge under every interleaving

    Rely-guarantee proof, over [Conc.safe], that the routines of [Bridge] and
    the network task of [Request] keep one invariant when any number of
    executor workers, API calls ([resume], [cancel], [close], a timeout) and
    the one network task run concurrently. *)

From S2P Require Import Prelude Conc Abi Bridge Retry Request.

Open Scope prog_scope.

(** ** Observations *)

(** The events a sequence of callback invocations shows, and how many of the
    invocations are [OnDone]. *)
Definition events (l : list Call) : list Event :=
  omap (λ c, match c with OnEvent e => Some e | OnDone _ => None end) l.

Definition dones (l : list Call) : nat :=
  length (omap (λ c, match c with OnEvent _ => None | OnDone e => Some e end) l).

(** With no [on_chunk] callback the chunks are dropped after the queue. *)
Definition visible (on_chunk : bool) (l : list Event) : list Event :=
  if on_chunk then l
  else omap (λ e, match e with Headers _ _ _ => Some e | Chunk _ => None end) l.

(** An [OnDone] that reports an error is the last invocation. *)
Definition error_last (l : list Call) : Prop :=
  ∀ a t b, l = a ++ OnDone (Some t) :: b → b = [].

Lemma events_app l k : events (l ++ k) = events l ++ events k.
Proof. apply omap_app. Qed.

Lemma dones_app l k : dones (l ++ k) = (dones l + dones k)%nat.
Proof. unfold dones. by rewrite omap_app, length_app. Qed.

Lemma visible_app h l k : visible h (l ++ k) = visible h l ++ visible h k.
Proof. destruct h; [done|]. apply omap_app. Qed.

Lemma error_last_snoc l c :
  error_last l → (∀ t, OnDone (Some t) ∉ l) → error_last (l ++ [c]).
Proof.
  intros Hl Hn a t b E. destruct b as [|x b _] using rev_ind; [done|exfalso].
  rewrite app_comm_cons, app_assoc in E. apply app_inj_tail in E as [E _].
  apply (Hn t). rewrite E. set_solver.
Qed.

Lemma dones_0_no_done l : dones l = 0%nat → ∀ e, OnDone e ∉ l.
Proof.
  intros H e [l1 [l2 ->]]%list_elem_of_split. rewrite dones_app in H.
  unfold dones in H; simpl in H. lia.
Qed.

(** ** Invariant and interference *)

Section safety.
Variable cap : nat.

Record inv (s : bridge) : Prop := Inv {
  inv_running : running s = bool_decide (is_Some (owner s));
  inv_state : state s = RUNNING ∧ claimant s = None ∨
    (state s = TERMINAL_DRAIN ∨ state s = TERMINAL_DISCARD) ∧ is_Some (claimant s);
  inv_term_set : term_set s = true → is_Some (claimant s);
  inv_terminal : ∀ t, terminal s = Some t →
    term_set s = true ∧ dones (calls s) = 0%nat ∧
    (kind t ≠ HYPER4K_ERR_NONE → state s = TERMINAL_DISCARD);
  inv_dones : (dones (calls s) ≤ 1)%nat;
  inv_dones_set : dones (calls s) ≠ 0%nat → term_set s = true;
  inv_error : ∀ t, OnDone (Some t) ∈ calls s → state s = TERMINAL_DISCARD;
  inv_error_last : error_last (calls s);
  inv_counter : 0 ≤ counter s ≤ 1;
  inv_counter_1 : dones (calls s) = 0%nat → counter s = 1;
  inv_sent : sent s = popped s ++ queue s;
  inv_prefix : events (calls s) `prefix_of` visible (has_on_chunk s) (popped s);
  inv_idle : owner s = None → worker_owes s = 0%nat ∧
    (state s ≠ TERMINAL_DISCARD → events (calls s) = visible (has_on_chunk s) (popped s));
  inv_committed : sent s ≠ [] → committed s = true;
  inv_space : (space s + length (queue s) + producer_holds s + worker_owes s =
               cap + bumped s)%nat;
  inv_bumped : bumped s = 0%nat ∨ bumped s = 1%nat ∧ is_Some (claimant s);
}.

(** What thread [t] relies on of an action of another thread. *)
Record rely (t : nat) (s s' : bridge) : Prop := Rely {
  rely_owner : owner s = Some t →
    owner s' = Some t ∧ calls s' = calls s ∧ popped s' = popped s ∧
    worker_owes s' = worker_owes s ∧ counter s' = counter s;
  rely_claimant : claimant s = Some t →
    term_set s' = term_set s ∧ bumped s' = bumped s;
  rely_state : is_Some (claimant s) → claimant s' = claimant s ∧ state s' = state s;
  rely_term : term_set s = true → term_set s' = true ∧ (terminal s = None → terminal s' = None);
  rely_commit : committed s = true → committed s' = true;
  rely_producer : t = 0%nat → producer_holds s' = producer_holds s;
  rely_on_chunk : has_on_chunk s' = has_on_chunk s;
}.

#[local] Abbreviation safe := (Conc.safe inv rely) (only parsing).
#[local] Abbreviation stable := (Conc.stable inv rely) (only parsing).

Lemma rely_refl t s : rely t s s.
Proof. constructor; naive_solver. Qed.

(** *** Actions that touch none of the fields the invariant mentions *)

Definition core (s : bridge) : bridge :=
  Bridge (state s) (committed s) false false false None None (has_on_chunk s) (queue s)
    (space s) (terminal s) false false (running s) false false false false (counter s) 0 ∅ []
    (calls s) (sent s) (popped s) (owner s) (claimant s) (term_set s) (producer_holds s)
    (worker_owes s) (bumped s) [].

Lemma inv_core s s' : core s' = core s → inv s → inv s'.
Proof.
  intros E H. assert (inv (core s)) as Hc by (destruct H; by constructor).
  rewrite <- E in Hc. destruct Hc; by constructor.
Qed.

Lemma rely_core t s s' : core s' = core s → rely t s s'.
Proof.
  intros E. assert (rely t (core s) (core s')) as H by (rewrite E; apply rely_refl).
  destruct H; by constructor.
Qed.

(** An assertion that only looks at those fields. *)
Definition on_core (P : bridge → Prop) : Prop := ∀ s s', core s' = core s → P s → P s'.

#[local] Abbreviation silent := (keeps core) (only parsing).

Lemma safe_silent {A} t (p : prog bridge A) P :
  on_core P → stable t P → silent p → safe t p P (λ _, P).
Proof.
  intros Hc Hs. induction p as [a|T f k IH]; simpl; intros Hp; (split; [done|]); [done|].
  destruct Hp as [Hf Hk]. intros s s' r Is Ps E. specialize (Hf t s s' r E).
  split; [by eapply inv_core|]. split; [intros ? _; by apply rely_core|].
  exists P. split; [by eapply Hc|by apply IH].
Qed.

Lemma safe_silent_bind {A B} t (p : prog bridge A) (g : A → prog bridge B) P Q :
  on_core P → stable t P → silent p → (∀ a, safe t (g a) P Q) → safe t (pbind p g) P Q.
Proof. intros. eapply safe_bind; [by apply safe_silent|done]. Qed.

(** *** Assertions along the routines *)

(** Thread [t] holds [running] and has no event in hand. *)
Definition Own (t : nat) (s : bridge) : Prop :=
  owner s = Some t ∧ worker_owes s = 0%nat ∧
  (state s ≠ TERMINAL_DISCARD → events (calls s) = visible (has_on_chunk s) (popped s)).

(** It has popped [e]; [owes] permits are still to be returned. *)
Definition InHand (t owes : nat) (e : Event) (s : bridge) : Prop :=
  owner s = Some t ∧ worker_owes s = owes ∧
  (state s ≠ TERMINAL_DISCARD →
   events (calls s) ++ visible (has_on_chunk s) [e] = visible (has_on_chunk s) (popped s)).

(** It has seen that the request is not being discarded. *)
Definition ToDeliver (t : nat) (e : Event) (s : bridge) : Prop :=
  owner s = Some t ∧ worker_owes s = 0%nat ∧
  events (calls s) ++ visible (has_on_chunk s) [e] = visible (has_on_chunk s) (popped s) ∧
  ∀ x, OnDone (Some x) ∉ calls s.

(** It has taken the terminal [x] and is about to deliver it. *)
Definition Finishing (t : nat) (x : Terminal) (s : bridge) : Prop :=
  Own t s ∧ terminal s = None ∧ term_set s = true ∧ dones (calls s) = 0%nat ∧
  (kind x ≠ HYPER4K_ERR_NONE → state s = TERMINAL_DISCARD).

Definition Delivered (t : nat) (s : bridge) : Prop :=
  Own t s ∧ dones (calls s) = 1%nat ∧ counter s = 1.

(** Thread [t] won the claim and has not stored the terminal yet. *)
Definition Claimed (t : nat) (discard : bool) (s : bridge) : Prop :=
  claimant s = Some t ∧ term_set s = false ∧ bumped s = 0%nat ∧
  state s = (if discard then TERMINAL_DISCARD else TERMINAL_DRAIN).

Definition Stored (t : nat) (s : bridge) : Prop :=
  claimant s = Some t ∧ term_set s = true ∧ bumped s = 0%nat.

(** The network task (thread 0) holds [n] permits. *)
Definition Producer (t n : nat) (s : bridge) : Prop := t = 0%nat ∧ producer_holds s = n.

(** *** Stability *)

Lemma rely_discard t s s' :
  inv s → rely t s s' → state s = TERMINAL_DISCARD → state s' = TERMINAL_DISCARD.
Proof.
  intros Hi Hr Hd. destruct (inv_state _ Hi) as [[E _]|[_ Hcl]]; [by rewrite E in Hd|].
  by rewrite (proj2 (rely_state _ _ _ Hr Hcl)).
Qed.

(** Facts thread [t] keeps while it owns the slot. *)
Ltac use_rely Hr :=
  repeat match goal with
  | Ho : owner ?s = Some ?t |- _ =>
      match goal with
      | _ : owner ?s' = Some t, _ : calls ?s' = calls s |- _ => fail 1
      | _ => destruct (rely_owner _ _ _ Hr Ho) as (?&?&?&?&?)
      end
  | Ho : claimant ?s = Some ?t |- _ =>
      match goal with
      | _ : bumped ?s' = bumped s |- _ => fail 1
      | _ => destruct (rely_claimant _ _ _ Hr Ho) as (?&?);
             destruct (rely_state _ _ _ Hr (ex_intro _ t Ho)) as (?&?)
      end
  end; pose proof (rely_on_chunk _ _ _ Hr).

(** Rewrite a goal about [s'] into one about [s] with the equations at hand. *)
Ltac back s' := repeat match goal with H : ?f s' = _ |- context [?f s'] => rewrite H end.

Lemma Own_stable t : stable t (Own t).
Proof.
  intros s s' Hi Hi' Hr (Ho & Hw & He). use_rely Hr. split_and!; [done|congruence|].
  intros Hs. back s'. apply He. intros Hd. by apply Hs, (rely_discard t s).
Qed.

Lemma InHand_stable t n e : stable t (InHand t n e).
Proof.
  intros s s' Hi Hi' Hr (Ho & Hw & He). use_rely Hr. split_and!; [done|congruence|].
  intros Hs. back s'. apply He. intros Hd. by apply Hs, (rely_discard t s).
Qed.

Lemma ToDeliver_stable t e : stable t (ToDeliver t e).
Proof.
  intros s s' Hi Hi' Hr (Ho & Hw & He & Hn). use_rely Hr. unfold ToDeliver. by back s'.
Qed.

Lemma Finishing_stable t x : stable t (Finishing t x).
Proof.
  intros s s' Hi Hi' Hr (HO & Ht & Hts & Hd & Hk).
  pose proof (Own_stable t s s' Hi Hi' Hr HO) as HO'.
  destruct HO as (Ho & _). use_rely Hr. destruct (rely_term _ _ _ Hr Hts) as [? Hn].
  split_and!; [done|by apply Hn|done|congruence|].
  intros. by eapply rely_discard, Hk.
Qed.

Lemma Delivered_stable t : stable t (Delivered t).
Proof.
  intros s s' Hi Hi' Hr (HO & Hd & Hc).
  pose proof (Own_stable t s s' Hi Hi' Hr HO) as HO'.
  destruct HO as (Ho & _). use_rely Hr. split_and!; congruence.
Qed.

Lemma Claimed_stable t d : stable t (Claimed t d).
Proof. intros s s' Hi Hi' Hr (?&?&?&?). use_rely Hr. split_and!; congruence. Qed.

Lemma Stored_stable t : stable t (Stored t).
Proof. intros s s' Hi Hi' Hr (?&?&?). use_rely Hr. split_and!; congruence. Qed.

Lemma Producer_stable t n : stable t (Producer t n).
Proof.
  intros s s' Hi Hi' Hr [-> ?]. split; [done|].
  by rewrite (rely_producer _ _ _ Hr eq_refl).
Qed.

Lemma stable_and t (P Q : bridge → Prop) :
  stable t P → stable t Q → stable t (λ s, P s ∧ Q s).
Proof. intros HP HQ s s' ??? []. split; [by apply (HP s s')|by apply (HQ s s')]. Qed.

#[local] Create HintDb bridge.
#[local] Hint Resolve Own_stable InHand_stable ToDeliver_stable Finishing_stable
  Delivered_stable Claimed_stable Stored_stable Producer_stable stable_and
  stable_True : bridge.

(** *** Silent routines *)

#[local] Hint Resolve keeps_load : bridge.
#[local] Hint Extern 1 (silent (modify _)) => apply keeps_modify; reflexivity : bridge.
#[local] Hint Extern 1 (silent (fetch _)) => apply keeps_fetch; reflexivity : bridge.
#[local] Hint Extern 1 (silent (set_in_callback _)) => apply keeps_modify; reflexivity : bridge.
#[local] Hint Extern 1 (silent clear_permit) => apply keeps_modify; reflexivity : bridge.
#[local] Hint Extern 1 (silent ex_schedule) => apply keeps_modify; reflexivity : bridge.
#[local] Hint Extern 1 (silent is_terminal) => apply keeps_load : bridge.
#[local] Hint Extern 2 (silent (Ret _)) => exact Logic.I : bridge.

(** Walk through a routine all of whose actions are silent. *)
Ltac silent_tac :=
  repeat first
    [ solve [auto with bridge]
    | apply keeps_bind; [|intros ?]
    | case_match ].

Lemma silent_set_pause_guard g : silent (set_pause_guard g).
Proof. unfold set_pause_guard, guard_drop. silent_tac. Qed.
#[local] Hint Resolve silent_set_pause_guard : bridge.

Lemma silent_enter_pause : silent enter_pause.
Proof. unfold enter_pause, guard_new. silent_tac. Qed.

Lemma silent_leave_pause : silent leave_pause.
Proof. unfold leave_pause. silent_tac. Qed.

Lemma silent_schedule_slot : silent schedule_slot.
Proof. unfold schedule_slot, ex_schedule. silent_tac. Qed.

Lemma on_core_and P Q : on_core P → on_core Q → on_core (λ s, P s ∧ Q s).
Proof. intros HP HQ s s' E []. split; [by apply (HP s)|by apply (HQ s)]. Qed.

(** The assertions only mention fields of the core. *)
Lemma on_core_all t n e x d :
  on_core (Own t) ∧ on_core (InHand t n e) ∧ on_core (ToDeliver t e) ∧
  on_core (Finishing t x) ∧ on_core (Delivered t) ∧ on_core (Claimed t d) ∧
  on_core (Stored t) ∧ on_core (Producer t n) ∧ on_core (λ _, True).
Proof.
  split_and!; intros s s' E; [..|done];
    repeat match goal with |- ?P s → ?P s' =>
      change (P (core s) → P (core s')); by rewrite E end.
Qed.

#[local] Hint Resolve silent_enter_pause silent_leave_pause
  silent_schedule_slot on_core_and : bridge.
#[local] Hint Extern 1 (on_core _) => apply on_core_all; exact 0%nat || exact (Chunk []) ||
  exact true || exact cancelled_by_callback : bridge.

(** *** One lemma per action that the invariant is about *)

(** Open the state after an action: equations for the result, the invariant
    of the state before. *)
Ltac open_act :=
  intros s s' r Hi HP E; simpl in E;
  repeat case_match; simplify_eq/=.

(** The other threads: nothing they rely on is touched, or the acting thread
    is the only one entitled to touch it. *)
Ltac others :=
  intros t' Hne; constructor; simpl; intros;
  repeat match goal with H : is_Some _ |- _ => destruct H end;
  split_and?; intros; try done; exfalso; congruence.

Ltac states := unfold RUNNING, TERMINAL_DRAIN, TERMINAL_DISCARD in *; lia.

Ltac keep_inv Hi :=
  destruct Hi; constructor; simpl; eauto; try (intros; exfalso; congruence);
  try lia; try (intros; exfalso; states).

Lemma safe_pop t :
  safe t pop_front (Own t) (λ r, match r with Some e => InHand t 1 e | None => Own t end).
Proof.
  apply safe_atomic; [auto with bridge|intros []; auto with bridge|].
  open_act; [by split_and!; [|intros ? _; apply rely_refl|]|].
  destruct HP as (Ho & Hw & He). split_and!.
  - keep_inv Hi.
    + rewrite inv_sent0, H. by rewrite <- app_assoc.
    + rewrite visible_app. by apply prefix_app_r.
    + rewrite H in inv_space0. simpl in inv_space0. lia.
  - others.
  - split_and!; simpl; [done..|]. rewrite visible_app. intros Hs. by rewrite He.
Qed.

Lemma safe_add_permits t e :
  safe t add_permits_popped (InHand t 1 e) (λ _, InHand t 0 e).
Proof.
  apply safe_atomic; auto with bridge. open_act. destruct HP as (Ho & Hw & He). split_and!.
  - keep_inv Hi.
  - others.
  - by split_and!.
Qed.

Lemma safe_discarding t e :
  safe t discarding (InHand t 0 e)
    (λ d, if d : bool then Own t else ToDeliver t e).
Proof.
  apply safe_atomic; [auto with bridge|intros []; auto with bridge|].
  intros s s' r Hi HP E. injection E as <- <-. destruct HP as (Ho & Hw & He).
  split; [done|]. split; [intros ? _; apply rely_refl|].
  destruct (Z.eqb_spec (state s) TERMINAL_DISCARD) as [Hd|Hd].
  - by split_and!.
  - split_and!; [done..|by apply He|]. intros x Hx. by apply Hd, (inv_error s Hi x).
Qed.

Lemma safe_invoke t e :
  safe t (invoke e) (λ s, ToDeliver t e s ∧ visible (has_on_chunk s) [e] = [e]) (λ _, Own t).
Proof.
  apply safe_atomic; auto with bridge.
  { intros s s' Hi Hi' Hr [HT Hvis]. split; [by apply (ToDeliver_stable t e s s')|].
    by rewrite (rely_on_chunk _ _ _ Hr). }
  open_act. destruct HP as [(Ho & Hw & He & Hn) Hvis]. rewrite Hvis in He.
  assert (events (calls s ++ [OnEvent e]) = visible (has_on_chunk s) (popped s)) as Hev.
  { by rewrite events_app. }
  assert (dones (calls s ++ [OnEvent e]) = dones (calls s)) as Hdn.
  { rewrite dones_app. apply Nat.add_0_r. }
  split_and!.
  - destruct Hi; constructor; simpl; rewrite ?Hdn, ?Hev; eauto.
    + intros x [Hx|Hx]%elem_of_app; [by apply Hn in Hx|by apply list_elem_of_singleton in Hx].
    + by apply error_last_snoc.
  - others.
  - split_and!; simpl; [done..|]. by rewrite Hev.
Qed.

Definition take_terminal : prog bridge (option Terminal) :=
  fetch (λ s, (s <| terminal := None |>, terminal s)).

Lemma safe_take_terminal t :
  safe t take_terminal (Own t)
    (λ r, match r with Some x => Finishing t x | None => Own t end).
Proof.
  apply safe_atomic; [auto with bridge|intros []; auto with bridge|].
  intros s s' r Hi HO E. injection E as <- <-. split_and!.
  - keep_inv Hi.
  - others.
  - destruct (terminal s) as [x|] eqn:Et; [|done].
    destruct (inv_terminal s Hi x Et) as (?&?&?). by split_and!.
Qed.

Lemma safe_deliver_done t x : safe t (deliver_done x) (Finishing t x) (λ _, Delivered t).
Proof.
  apply safe_atomic; auto with bridge. intros s s' r Hi HP E. injection E as <- <-.
  destruct HP as ((Ho & Hw & He) & Ht & Hts & Hd & Hk).
  set (er := if kind x =? HYPER4K_ERR_NONE then None else Some x).
  assert (Hev : events (calls s ++ [OnDone er]) = events (calls s)).
  { by rewrite events_app, app_nil_r. }
  assert (Hdn : dones (calls s ++ [OnDone er]) = 1%nat) by (by rewrite dones_app, Hd).
  pose proof (dones_0_no_done _ Hd) as Hno. split_and!.
  - destruct Hi; constructor; simpl; rewrite ?Hdn, ?Hev; eauto; try congruence.
    + intros y [Hy|Hy]%elem_of_app; [by apply Hno in Hy|].
      apply list_elem_of_singleton in Hy. unfold er in Hy.
      destruct (Z.eqb_spec (kind x) HYPER4K_ERR_NONE); [done|]. by apply Hk.
    + by apply error_last_snoc.
  - others.
  - unfold Delivered, Own; simpl. rewrite Hev, Hdn. pose proof (inv_counter_1 s Hi Hd).
    by split_and!.
Qed.

Lemma safe_leave t : safe t leave (Delivered t) (λ _, Own t).
Proof.
  apply safe_atomic; auto with bridge. open_act.
  destruct HP as ((Ho & Hw & He) & Hd & Hc). split_and!; [keep_inv Hi|others|by split_and!].
Qed.

(** The settling actions, for any assertion [F] they do not disturb. *)
Section settling.
Variables (t : nat) (F : bridge → Prop).
Hypothesis F_stable : stable t F.
Hypothesis F_core : on_core F.
Hypothesis F_settle : ∀ s s', inv s → inv s' →
  owner s' = owner s → calls s' = calls s → popped s' = popped s →
  worker_owes s' = worker_owes s → has_on_chunk s' = has_on_chunk s →
  producer_holds s' = producer_holds s →
  (state s = TERMINAL_DISCARD → state s' = TERMINAL_DISCARD) → F s → F s'.

Lemma safe_claim d :
  safe t (claim d) F (λ won s, F s ∧ if won : bool then Claimed t d s else True).
Proof.
  apply safe_atomic; [done|intros []; auto with bridge|].
  intros s s' r Hi HF E. unfold claim in E. simpl in E.
  destruct (Z.eqb_spec (state s) RUNNING) as [Hs|Hs]; simplify_eq/=;
    [|by split_and!; [|intros ? _; apply rely_refl|..]].
  destruct (inv_state s Hi) as [[_ Hc]|[[]]]; [|states..].
  destruct (inv_bumped s Hi) as [Hb|[_ [? Hb]]]; [|congruence].
  assert (Hts : term_set s = false).
  { destruct (term_set s) eqn:Ets; [|done]. destruct (inv_term_set s Hi Ets). congruence. }
  assert (Ht : terminal s = None).
  { destruct (terminal s) as [x|] eqn:Et; [|done].
    destruct (inv_terminal s Hi x Et). congruence. }
  assert (Hinv : inv (s <| state := if d then TERMINAL_DISCARD else TERMINAL_DRAIN |>
                        <| claimant := Some t |>)).
  { keep_inv Hi.
    - right. split; [destruct d; auto|done].
    - intros x Hx. apply inv_error0 in Hx. states.
    - intros Ho. split; [by apply inv_idle0|]. intros _. apply inv_idle0; [done|states]. }
  split_and!; [done|others|apply (F_settle s); try done; simpl; states|by split_and!].
Qed.

Lemma safe_store d x :
  (kind x ≠ HYPER4K_ERR_NONE → d = true) →
  safe t (modify (λ s, s <| terminal := Some x |> <| term_set := true |>))
    (λ s, F s ∧ Claimed t d s) (λ _ s, F s ∧ Stored t s).
Proof.
  intros Hk. apply safe_atomic; [auto with bridge..|].
  intros s s' r Hi (HF & Hc & Hts & Hb & Hst) E. injection E as <- <-.
  assert (Hdn : dones (calls s) = 0%nat).
  { destruct (decide (dones (calls s) = 0%nat)) as [|Hn]; [done|].
    apply (inv_dones_set s Hi) in Hn. congruence. }
  assert (Hinv : inv (s <| terminal := Some x |> <| term_set := true |>)).
  { keep_inv Hi. intros y [= <-]. split_and!; [done..|]. intros Hx. rewrite Hst. by rewrite Hk. }
  split_and!; [done|others|by apply (F_settle s)|by split_and!].
Qed.

Lemma safe_bump : safe t add_permits_bump (λ s, F s ∧ Stored t s) (λ _, F).
Proof.
  apply safe_atomic; [auto with bridge..|].
  intros s s' r Hi (HF & Hc & Hts & Hb) E. injection E as <- <-.
  assert (Hinv : inv (s <| space ::= S |> <| bumped ::= S |>)).
  { keep_inv Hi. }
  split_and!; [done|others|by apply (F_settle s)].
Qed.

(** *** Composite routines *)

Lemma safe_settle_slot x d :
  (kind x ≠ HYPER4K_ERR_NONE → d = true) → safe t (settle_slot x d) F (λ _, F).
Proof.
  intros Hk. unfold settle_slot. eapply safe_bind; [apply safe_claim|].
  intros [|]; simpl negb; cbv iota.
  - eapply safe_bind; [by apply safe_store|]. intros ?; cbv beta.
    apply safe_silent_bind; [auto with bridge..|]. intros ?.
    eapply safe_bind; [apply safe_bump|]. intros ?; cbv beta.
    apply safe_silent; [auto with bridge..|]. unfold reschedule. silent_tac.
  - eapply safe_pre with (P := F); [auto with bridge|by intros ?? []|].
    apply safe_silent; [auto with bridge..|]. unfold reschedule. silent_tac.
Qed.

Lemma safe_settle x d :
  (kind x ≠ HYPER4K_ERR_NONE → d = true) → safe t (settle x d) F (λ _, F).
Proof.
  intros Hk. unfold settle. eapply safe_bind; [by apply safe_settle_slot|].
  intros ?; cbv beta. apply safe_silent; [auto with bridge..|]. silent_tac.
Qed.
End settling.

Lemma Own_settle t s s' :
  owner s' = owner s → calls s' = calls s → popped s' = popped s →
  worker_owes s' = worker_owes s → has_on_chunk s' = has_on_chunk s →
  (state s = TERMINAL_DISCARD → state s' = TERMINAL_DISCARD) → Own t s → Own t s'.
Proof.
  intros E1 E2 E3 E4 E5 Hs (Ho & Hw & He). unfold Own. rewrite E1, E2, E3, E4, E5.
  split_and!; auto.
Qed.

Lemma safe_deliver t e : safe t (deliver e) (ToDeliver t e) (λ _, Own t).
Proof.
  destruct e as [st v hs|b]; cbn [deliver].
  - eapply safe_bind with (M := λ _, Own t); [|by intros; apply safe_ret; auto with bridge].
    eapply safe_pre; [| |apply safe_invoke]; [auto with bridge|].
    intros s _ HT. split; [done|]. by destruct (has_on_chunk s).
  - unfold load, atomic; cbn [pbind].
    apply safe_atom; [auto with bridge|]. intros s s' r Hi HT E. injection E as <- <-.
    split; [done|]. split; [intros ? _; apply rely_refl|].
    destruct (has_on_chunk s) eqn:Eh.
    + exists (λ s, ToDeliver t (Chunk b) s ∧ visible (has_on_chunk s) [Chunk b] = [Chunk b]).
      split; [by rewrite Eh|].
      eapply safe_bind; [apply safe_invoke|]. intros ?. apply safe_ret; auto with bridge.
    + exists (Own t). split; [|by apply safe_ret; auto with bridge].
      destruct HT as (?&?&He&_). rewrite Eh in He. unfold Own.
      rewrite Eh, <- He. by rewrite app_nil_r.
Qed.

Lemma safe_deliver_loop t n : safe t (deliver_loop n) (Own t) (λ _, Own t).
Proof.
  induction n as [|n IH]; cbn [deliver_loop]; [apply safe_ret; auto with bridge|].
  apply safe_silent_bind; [auto with bridge..|]. intros [|]; [apply safe_ret; auto with bridge|].
  eapply safe_bind; [apply safe_pop|]. intros [e|]; [|apply safe_ret; auto with bridge].
  eapply safe_bind; [apply safe_add_permits|]. intros ?; cbv beta.
  eapply safe_bind; [apply safe_discarding|]. intros [|]; [done|].
  apply safe_silent_bind; [auto with bridge..|]. intros ?; cbv beta.
  eapply safe_bind; [apply safe_deliver|]. intros act; cbv beta.
  apply safe_silent_bind; [auto with bridge..|]. intros ?; cbv beta.
  assert (Hclear : safe t (clear_permit ;; deliver_loop n) (Own t) (λ _, Own t)).
  { apply safe_silent_bind; [auto with bridge..|]. done. }
  destruct act as [v|]; [|done]. destruct (v =? HYPER4K_CHUNK_CANCEL).
  - apply safe_silent_bind; [auto with bridge..|]. intros ?; cbv beta.
    eapply safe_bind; [apply safe_settle_slot with (F := Own t); auto with bridge|].
    + intros s s' _ _ E1 E2 E3 E4 E5 _ E6 HO. by eapply Own_settle.
    + intros ?. apply safe_ret; auto with bridge.
  - destruct (v =? HYPER4K_CHUNK_PAUSE); [|done].
    apply safe_silent_bind; [auto with bridge..|]. intros [|]; [done|].
    apply safe_silent; [auto with bridge..|]. silent_tac.
Qed.

Lemma safe_finish_if_done t : safe t finish_if_done (Own t) (λ _, Own t).
Proof.
  unfold finish_if_done. apply safe_silent_bind; [auto with bridge..|]. intros empty.
  apply safe_silent_bind; [auto with bridge..|silent_tac|]. intros [|];
    [|apply safe_ret; auto with bridge].
  eapply safe_bind; [apply safe_take_terminal|]. intros [x|];
    [|apply safe_ret; auto with bridge].
  eapply safe_bind; [apply safe_deliver_done|]. intros ?; cbv beta.
  do 2 (apply safe_silent_bind; [auto with bridge..|]; intros ?).
  eapply safe_bind; [apply safe_leave|]. intros ?. apply safe_ret; auto with bridge.
Qed.

Lemma safe_run_owned t n : safe t (run_owned n) (Own t) (λ _, Own t).
Proof.
  unfold run_owned. do 2 (apply safe_silent_bind; [auto with bridge..|]; intros ?).
  destruct a0; [apply safe_ret; auto with bridge|].
  eapply safe_bind; [apply safe_deliver_loop|]. intros [m|];
    [apply safe_ret; auto with bridge|apply safe_finish_if_done].
Qed.

Lemma safe_run_slice t n : safe t (run_slice n) (λ _, True) (λ _ _, True).
Proof.
  unfold run_slice. eapply safe_bind with
    (M := λ was s, if was : bool then True else Own t s).
  { apply safe_atomic; [done|intros []; auto with bridge|]. open_act.
    - by split_and!; [|intros ? _; apply rely_refl|].
    - pose proof (inv_running s Hi) as Hr. rewrite H in Hr.
      destruct (owner s) as [?|] eqn:Eo; [done|].
      destruct (inv_idle s Hi Eo) as [Hw He]. split_and!; [keep_inv Hi|others|by split_and!]. }
  intros [|]; [apply safe_silent; auto with bridge; silent_tac|].
  eapply safe_bind; [apply safe_run_owned|]. intros more; cbv beta.
  eapply safe_bind with (M := λ _ _, True).
  { apply safe_atomic; [auto with bridge|done|]. open_act. destruct HP as (Ho & Hw & He).
    split_and!; [keep_inv Hi; done|others|done]. }
  intros ?; cbv beta. apply safe_silent; [auto with bridge..|]. silent_tac.
Qed.

(** *** The producer *)

Lemma safe_acquire t : safe t acquire_permit (Producer t 0) (λ _, Producer t 1).
Proof.
  apply safe_atomic; auto with bridge. open_act. destruct HP as [-> Hp].
  split_and!; [keep_inv Hi|others|by split].
Qed.

Lemma safe_release t : safe t release_permit (Producer t 1) (λ _, Producer t 0).
Proof.
  apply safe_atomic; auto with bridge. open_act. destruct HP as [-> Hp].
  split_and!; [keep_inv Hi|others|by split].
Qed.

Definition Committed (s : bridge) : Prop := committed s = true.

Lemma Committed_stable t : stable t Committed.
Proof. intros s s' _ _ Hr. apply (rely_commit _ _ _ Hr). Qed.
#[local] Hint Resolve Committed_stable : bridge.

Lemma safe_mark_committed t :
  safe t mark_committed (Producer t 1) (λ _ s, Producer t 1 s ∧ Committed s).
Proof.
  apply safe_atomic; auto with bridge. open_act.
  split_and!; [keep_inv Hi|others|done|done].
Qed.

Lemma safe_push t e :
  safe t (push_back e) (λ s, Producer t 1 s ∧ Committed s) (λ _, Producer t 0).
Proof.
  apply safe_atomic; auto with bridge. open_act. destruct HP as [[-> Hp] Hc].
  split_and!; [keep_inv Hi|others|by split].
  - rewrite inv_sent0. by rewrite app_assoc.
  - rewrite length_app; simpl. lia.
Qed.

Lemma safe_send t e : safe t (send e) (Producer t 0) (λ _, Producer t 0).
Proof.
  unfold send. apply safe_silent_bind; [auto with bridge..|].
  intros [|]; [apply safe_ret; auto with bridge|].
  eapply safe_bind; [apply safe_acquire|]. intros ?; cbv beta.
  apply safe_silent_bind; [auto with bridge..|]. intros [|].
  - eapply safe_bind; [apply safe_release|]. intros ?; apply safe_ret; auto with bridge.
  - eapply safe_bind; [apply safe_mark_committed|]. intros ?; cbv beta.
    eapply safe_bind; [apply safe_push|]. intros ?; cbv beta.
    apply safe_silent; [auto with bridge..|]. silent_tac.
Qed.

Lemma safe_settle_producer t x d :
  (kind x ≠ HYPER4K_ERR_NONE → d = true) →
  safe t (settle x d) (Producer t 0) (λ _, Producer t 0).
Proof.
  intros Hk. apply safe_settle; auto with bridge.
  intros s s' _ _ _ _ _ _ _ E _ [-> Hp]. split; congruence.
Qed.

Lemma safe_settle_any t x d :
  (kind x ≠ HYPER4K_ERR_NONE → d = true) →
  safe t (settle x d) (λ _, True) (λ _ _, True).
Proof. intros Hk. apply safe_settle; auto with bridge. Qed.

Lemma safe_deliver_body t pol body :
  safe t (deliver_body pol body) (Producer t 0) (λ _, Producer t 0).
Proof.
  induction body as [|[b| | | |] body IH]; cbn [deliver_body].
  - by apply safe_settle_producer.
  - destruct (is_nil b); [done|]. eapply safe_bind; [apply safe_send|].
    intros [|]; [done|apply safe_ret; auto with bridge].
  - done.
  - by apply safe_settle_producer.
  - destruct (read_idle_timeout pol); [by apply safe_settle_producer|done].
  - split; [auto with bridge|done].
Qed.

Lemma safe_deliver_response t pol r :
  safe t (deliver_response pol r) (Producer t 0) (λ _, Producer t 0).
Proof.
  unfold deliver_response. eapply safe_bind; [apply safe_send|].
  intros [|]; [apply safe_deliver_body|apply safe_ret; auto with bridge].
Qed.

Lemma safe_then {A B} t (p : prog bridge A) (f : A → B) P :
  safe t p P (λ _, P) → safe t (a <- p ;; Ret (f a)) P (λ _, P).
Proof.
  intros Hp. eapply safe_bind; [exact Hp|]. intros a. apply safe_ret; [|done].
  by eapply safe_stable.
Qed.

Lemma safe_attempt t i pol built sent c budget :
  safe t (attempt i (deliver_response pol) built sent c budget) (Producer t 0) (λ _, Producer t 0).
Proof.
  unfold attempt. apply safe_silent_bind; [auto with bridge..|by apply keeps_modify|]. intros _.
  destruct built; cbn [negb]; [|by apply safe_then, safe_settle_producer].
  destruct sent as [[u|r]|]; (apply safe_silent_bind;
    [auto with bridge..|by apply keeps_modify|intros _]).
  - apply safe_silent_bind; [auto with bridge..|by apply keeps_load|]. intros c'.
    destruct (may_retry _ _ _ _); [apply safe_ret; auto with bridge|].
    by apply safe_then, safe_settle_producer.
  - apply safe_then, safe_deliver_response.
  - apply safe_then. split; [auto with bridge|done].
Qed.

Lemma safe_attempt_loop t i pol (env : list Attempt) budget :
  safe t (attempt_loop i (deliver_response pol) env budget) (Producer t 0)
    (λ _, Producer t 0).
Proof.
  revert budget. induction env as [|a env IH]; intros budget.
  { split; [auto with bridge|done]. }
  rewrite attempt_loop_answers.
  destruct (at_acquire a) as [k|c]; [by apply safe_then, safe_settle_producer|].
  destruct (at_closed a).
  { destruct (0 <? budget); [apply IH|by apply safe_then, safe_settle_producer]. }
  eapply safe_bind with (M := λ _, Producer t 0); [apply safe_then, safe_attempt|].
  intros [[|]|]; [apply IH|apply safe_ret; auto with bridge..].
Qed.

(** *** The other threads *)

(** Threads that may run beside the network task: executor workers, the
    request timeout, and API calls from any thread. *)
Inductive other_thread : prog bridge unit → Prop :=
| other_worker n : other_thread (worker n)
| other_resume : other_thread (resume ;; Ret tt)
| other_cancel : other_thread (cancel_request ;; Ret tt)
| other_close : other_thread close_request
| other_timeout pol : other_thread (request_timed_out pol)
| other_set_abort : other_thread set_abort.

Lemma safe_worker_turn t : safe t worker_turn (λ _, True) (λ _ _, True).
Proof.
  unfold worker_turn. eapply safe_bind with (M := λ _ _, True).
  { apply safe_atomic; [done..|]. open_act.
    split_and!; [by apply (inv_core s)|intros ? _; by apply rely_core|done]. }
  intros _. eapply safe_bind; [apply safe_run_slice|]. intros ?; cbv beta.
  apply safe_silent; [auto with bridge..|]. silent_tac.
Qed.

Lemma safe_worker t n : safe t (worker n) (λ _, True) (λ _ _, True).
Proof.
  induction n as [|n IH]; cbn [worker]; [by apply safe_ret|].
  eapply safe_bind with (M := λ _ _, True); [apply safe_worker_turn|done].
Qed.

Lemma safe_resume t : safe t resume (λ _, True) (λ _ _, True).
Proof. unfold resume. apply safe_silent; [auto with bridge..|]. silent_tac. Qed.

Lemma safe_cancel_request t : safe t cancel_request (λ _, True) (λ _ _, True).
Proof.
  unfold cancel_request. apply safe_silent_bind; [auto with bridge..|].
  intros [|]; [by apply safe_ret|].
  eapply safe_bind; [by apply safe_settle_any|]. intros ?; by apply safe_ret.
Qed.

Lemma safe_other t p : other_thread p → safe t p (λ _, True) (λ _ _, True).
Proof.
  destruct 1.
  - apply safe_worker.
  - eapply safe_bind; [apply safe_resume|intros; by apply safe_ret].
  - eapply safe_bind; [apply safe_cancel_request|intros; by apply safe_ret].
  - by apply safe_settle_any.
  - unfold request_timed_out. destruct (request_timeout pol); [by apply safe_settle_any|].
    by apply safe_ret.
  - apply safe_silent; [auto with bridge..|]. by apply keeps_modify.
Qed.

Lemma inv_spawn on_chunk script : inv (spawn cap on_chunk script).
Proof.
  constructor; simpl; try done; eauto; try lia.
  - by intros t ?%elem_of_nil.
  - intros a t b E. by apply (f_equal length) in E; rewrite length_app in E; simpl in E; lia.
  - by destruct on_chunk.
  - intros _. split; [done|]. by destruct on_chunk.
Qed.
End safety.

(** ** The cleanup

    Only the delivery of [OnDone] takes [finished]; the network task does not. *)

#[local] Create HintDb frames.

Ltac keeps_action := split; [intros ???? E; simpl in E; repeat case_match; by simplify_eq/=|done].

Ltac keeps_walk :=
  repeat first
    [ solve [auto with frames]
    | exact Logic.I
    | apply keeps_load
    | apply keeps_modify; reflexivity
    | apply keeps_fetch; intros ?; simpl; repeat case_match; reflexivity
    | apply keeps_bind; [|intros ?]
    | case_match ].

Lemma settle_keeps_finished x d : keeps finished (settle x d).
Proof.
  assert (keeps finished (claim d)) by keeps_action.
  unfold settle, settle_slot, leave_pause, set_pause_guard, guard_drop, reschedule, schedule_slot,
    ex_schedule, add_permits_bump.
  keeps_walk.
Qed.

Lemma send_keeps_finished e : keeps finished (send e).
Proof.
  assert (keeps finished acquire_permit) by keeps_action.
  unfold send, is_terminal, release_permit, mark_committed, push_back, schedule_slot, ex_schedule.
  keeps_walk.
Qed.

#[local] Hint Resolve settle_keeps_finished send_keeps_finished : frames.

Lemma attempt_keeps_finished i pol built sent c budget :
  keeps finished (attempt i (deliver_response pol) built sent c budget).
Proof.
  assert (keeps finished wait_forever) by (by split).
  assert (∀ body, keeps finished (deliver_body pol body)) as Hb.
  { induction body as [|[b| | | |] body IH]; cbn [deliver_body]; keeps_walk. }
  unfold attempt, deliver_response, bind_connection, try_send_request, is_committed.
  keeps_walk.
Qed.

(** [finished] is taken, never put back. *)
Definition finished_step (b b' : bridge) : Prop := finished b' = true → finished b = true.

Lemma keeps_finished_step {A} (p : prog bridge A) : keeps finished p → steps_in finished_step p.
Proof.
  induction p as [|T f k IH]; [done|]. intros [Hf Hk]. split; [|auto].
  intros t s s' r E. unfold finished_step. by rewrite (Hf t s s' r E).
Qed.

Lemma resume_keeps_finished : keeps finished resume.
Proof.
  unfold resume, leave_pause, set_pause_guard, guard_drop, schedule_slot, ex_schedule, is_terminal.
  keeps_walk.
Qed.

Lemma cancel_keeps_finished : keeps finished cancel_request.
Proof. unfold cancel_request, is_terminal. keeps_walk. Qed.

Lemma timed_out_keeps_finished pol : keeps finished (request_timed_out pol).
Proof. unfold request_timed_out. keeps_walk. Qed.

Lemma deliver_loop_keeps_finished n : keeps finished (deliver_loop n).
Proof.
  assert (∀ e, keeps finished (invoke e)) by (intros e; keeps_action).
  assert (∀ d, keeps finished (claim d)) by (intros d; keeps_action).
  induction n as [|n IH]; cbn [deliver_loop]; [done|].
  unfold pop_front, add_permits_popped, discarding, set_in_callback, deliver, clear_permit, settle_slot,
    enter_pause, leave_pause, guard_new, set_pause_guard, guard_drop, reschedule, schedule_slot,
    ex_schedule, add_permits_bump.
  keeps_walk.
Qed.

Lemma turn_takes_finished : steps_in finished_step worker_turn.
Proof.
  unfold worker_turn, run_slice, run_owned, finish_if_done.
  repeat first
    [ exact Logic.I
    | apply keeps_finished_step, deliver_loop_keeps_finished
    | apply steps_in_bind; [|intros ?]
    | apply steps_in_load; by intros s ?
    | apply steps_in_modify; by intros s ?
    | apply steps_in_fetch; by intros s ?
    | apply keeps_finished_step; keeps_action
    | case_match ].
Qed.

(** ** Every reachable state of a request *)

(** The threads of one request: its network task and the rest. *)
Definition request_system (cap : nat) (on_chunk : bool) (script : list Z) (method : bytes)
    (pol : RequestPolicy) (env : list Attempt) (others : list (prog bridge unit))
    : config bridge :=
  Config (spawn cap on_chunk script) (run_request method pol env :: others).

Lemma reachable_inv cap on_chunk script method pol env others c :
  Forall other_thread others →
  reachable (request_system cap on_chunk script method pol env others) c →
  inv cap (shared c).
Proof.
  intros Ho Hr. refine (proj1 (safe_sound (inv cap) rely _ _ Hr _)).
  split; [apply inv_spawn|]. intros [|i] p Hp; simpl in Hp.
  - injection Hp as <-. exists (Producer 0 0). split; [done|].
    eapply safe_post; [|apply (safe_then cap 0 _ (λ _, tt)), safe_attempt_loop]. done.
  - exists (λ _, True). split; [done|]. apply safe_other.
    by eapply Forall_lookup_1 in Hp.
Qed.

(** ** Properties of every interleaving *)

Section properties.
Context (cap : nat) (on_chunk : bool) (script : list Z) (method : bytes)
  (pol : RequestPolicy) (env : list Attempt) (others : list (prog bridge unit)).
Hypothesis others_ok : Forall other_thread others.

#[local] Abbreviation system :=
  (request_system cap on_chunk script method pol env others) (only parsing).

(** C1: [OnDone] is invoked at most once, whatever the interleaving of the
    network task, workers, timeouts, cancels, closes and resumes, and the
    bridge counter that [free] waits for only reaches zero after it has
    been invoked. *)
Theorem on_done_at_most_once c :
  reachable system c →
  (dones (calls (shared c)) ≤ 1)%nat ∧
  (counter (shared c) = 0 → dones (calls (shared c)) = 1%nat).
Proof.
  intros Hr. pose proof (reachable_inv _ _ _ _ _ _ _ _ others_ok Hr) as Hi.
  split; [apply (inv_dones _ _ Hi)|]. intros Hc.
  pose proof (inv_dones _ _ Hi). pose proof (inv_counter_1 _ _ Hi).
  destruct (decide (dones (calls (shared c)) = 0%nat)) as [E|]; [|lia].
  specialize (H0 E). lia.
Qed.

(** C2: an [OnDone] that reports an error (a cancel, a close, a timeout, a
    transport failure) is the last callback of the request: nothing that was
    queued, or is still being queued, reaches the caller after it. *)
Theorem error_on_done_is_last c pre x post :
  reachable system c →
  calls (shared c) = pre ++ OnDone (Some x) :: post → post = [].
Proof.
  intros Hr. apply (inv_error_last _ _ (reachable_inv _ _ _ _ _ _ _ _ others_ok Hr)).
Qed.

(** C3: events reach the caller in the order they were produced, each at most
    once and without a gap: the delivered events are a prefix of those the
    network task queued (of its headers, when there is no chunk callback). *)
Theorem delivery_is_in_order c :
  reachable system c →
  events (calls (shared c)) `prefix_of` visible (has_on_chunk (shared c)) (sent (shared c)).
Proof.
  intros Hr. pose proof (reachable_inv _ _ _ _ _ _ _ _ others_ok Hr) as Hi.
  rewrite (inv_sent _ _ Hi), visible_app. apply prefix_app_r, (inv_prefix _ _ Hi).
Qed.

(** Backpressure bounds memory. While the request runs its queue holds at
    most [cap] events; once it is settled, one more can slip in (the permit
    that wakes a blocked producer). *)
Theorem queue_is_bounded c :
  reachable system c →
  (length (queue (shared c)) ≤ S cap)%nat ∧
  (state (shared c) = RUNNING → (length (queue (shared c)) ≤ cap)%nat).
Proof.
  intros Hr. pose proof (reachable_inv _ _ _ _ _ _ _ _ others_ok Hr) as Hi.
  pose proof (inv_space _ _ Hi). split.
  - destruct (inv_bumped _ _ Hi) as [|[? _]]; lia.
  - intros Hs. destruct (inv_bumped _ _ Hi) as [|[_ [t Ht]]]; [lia|].
    destruct (inv_state _ _ Hi) as [[_ E]|[[E|E] _]]; rewrite E in *; done.
Qed.

(** The response is committed before any part of it can be seen: as soon
    as one event has been queued the [committed] flag, which forbids any
    retry, is set. *)
Theorem committed_before_first_event c :
  reachable system c → sent (shared c) ≠ [] → committed (shared c) = true.
Proof.
  intros Hr. apply (inv_committed _ _ (reachable_inv _ _ _ _ _ _ _ _ others_ok Hr)).
Qed.
End properties.

(** ** Witnesses: a two-chunk response cancelled half way *)

Module Example1.
Definition pol : RequestPolicy :=
  {| policy_max_retries := 2; request_timeout := None; read_idle_timeout := None |}.
Definition resp : Response :=
  {| resp_http2 := false; resp_status := 200; resp_headers := [];
     resp_body := [Data [1]; Data [2]] |}.
Definition env : list Attempt :=
  [{| at_acquire := inr 0%nat; at_closed := false; at_built := true; at_sent := inr resp |}].
Definition others : list (prog bridge unit) := [worker 2; cancel_request ;; Ret tt].
Definition sys : config bridge := request_system 8 true [0; 0; 0] (lit "GET") pol env others.

Lemma others_ok : Forall other_thread others.
Proof. repeat constructor. Qed.

(** The task sends headers and one chunk, the worker delivers the headers,
    the request is cancelled, the worker finishes. *)
Definition sched : list nat :=
  replicate 17 0%nat ++ replicate 12 1%nat ++ replicate 9 2%nat ++ replicate 11 1%nat.

Definition final : config bridge := default sys (exec sched sys).

Lemma final_reachable : reachable sys final.
Proof.
  unfold final. destruct (exec sched sys) eqn:E; [by eapply exec_reachable|apply rtc_refl].
Qed.
End Example1.
Import Example1.

Lemma on_done_at_most_once_witness :
  dones (calls (shared final)) = 1%nat ∧ (dones (calls (shared final)) ≤ 1)%nat.
Proof.
  split; [vm_compute; reflexivity|].
  exact (proj1 (on_done_at_most_once 8 true [0; 0; 0] (lit "GET") pol env others others_ok
    final final_reachable)).
Defined.

Lemma error_on_done_is_last_witness :
  ∃ pre x post, calls (shared final) = pre ++ OnDone (Some x) :: post ∧ post = [].
Proof.
  exists [OnEvent (Headers 200 1 [])], (mk_terminal HYPER4K_ERR_CANCELLED (lit "cancelled")), [].
  split; [vm_compute; reflexivity|].
  apply (error_on_done_is_last 8 true [0; 0; 0] (lit "GET") pol env others others_ok final
    [OnEvent (Headers 200 1 [])] (mk_terminal HYPER4K_ERR_CANCELLED (lit "cancelled")) []
    final_reachable).
  vm_compute. reflexivity.
Defined.

Lemma delivery_is_in_order_witness :
  events (calls (shared final)) `prefix_of`
  visible (has_on_chunk (shared final)) (sent (shared final)).
Proof.
  exact (delivery_is_in_order 8 true [0; 0; 0] (lit "GET") pol env others others_ok final
    final_reachable).
Defined.

Lemma queue_is_bounded_witness : (length (queue (shared final)) ≤ 9)%nat.
Proof.
  exact (proj1 (queue_is_bounded 8 true [0; 0; 0] (lit "GET") pol env others others_ok final
    final_reachable)).
Defined.

Lemma committed_before_first_event_witness :
  sent (shared final) ≠ [] ∧ committed (shared final) = true.
Proof.
  assert (sent (shared final) ≠ []) as H by (vm_compute; discriminate).
  split; [exact H|].
  exact (committed_before_first_event 8 true [0; 0; 0] (lit "GET") pol env others others_ok
    final final_reachable H).
Defined.
