(* ===== verification/BridgeRun.v ===== *)
(** * The bridge without interference

    What the routines of [Bridge] do when each runs to its end undisturbed
    ([Conc.run]): settling, draining, the happy path, a paused slot. *)

From S2P Require Import Prelude Conc Abi Bridge Retry Request.

Open Scope prog_scope.

(** ** The delivery loop *)

(** While a request is being discarded the loop drops events silently. *)
Lemma run_loop_discard t n s :
  paused s = false → state s = TERMINAL_DISCARD →
  ∃ p k w, run t (deliver_loop n) s =
    Some (s <| queue := drop n (queue s) |> <| popped := p |> <| space := k |>
            <| worker_owes := w |>, None).
Proof.
  revert s. induction n as [|n IH]; intros s Hp Hs.
  { exists (popped s), (space s), (worker_owes s). by destruct s. }
  simpl. rewrite Hp. simpl. destruct (queue s) as [|e q] eqn:Eq; simpl.
  { exists (popped s), (space s), (worker_owes s). destruct s; simpl in *. by subst. }
  rewrite Hs; simpl.
  match goal with |- context [run t (deliver_loop n) ?s1] =>
    destruct (IH s1) as (p & k & w & E); [done..|] end.
  exists p, k, w. rewrite E. simpl. by rewrite ?Hp.
Qed.

(** With callbacks that continue, the loop hands the events over in order. *)
Lemma run_loop_continue t n s m rest :
  paused s = false → state s ≠ TERMINAL_DISCARD → has_on_chunk s = true →
  script s = replicate m HYPER4K_CHUNK_CONTINUE ++ rest →
  (Nat.min n (length (queue s)) ≤ m)%nat →
  ∃ p k w pm ic sc, run t (deliver_loop n) s =
    Some (s <| queue := drop n (queue s) |>
            <| calls ::= (λ l, l ++ map OnEvent (take n (queue s))) |>
            <| popped := p |> <| space := k |> <| worker_owes := w |> <| permit := pm |>
            <| in_callback := ic |> <| script := sc |>, None).
Proof.
  revert s m. induction n as [|n IH]; intros s m Hp Hs Hc Hsc Hm.
  { exists (popped s), (space s), (worker_owes s), (permit s), (in_callback s), (script s).
    destruct s; simpl. by rewrite app_nil_r. }
  simpl. rewrite Hp. simpl. destruct (queue s) as [|e q] eqn:Eq; simpl.
  { exists (popped s), (space s), (worker_owes s), (permit s), (in_callback s), (script s).
    destruct s; simpl in *. subst. by rewrite app_nil_r. }
  destruct m as [|m]; [simpl in Hm; lia|].
  rewrite (proj2 (Z.eqb_neq _ _) Hs); simpl.
  set (s1 := s <| queue := q |> <| calls ::= (λ l, l ++ [OnEvent e]) |>
    <| popped ::= (λ l, l ++ [e]) |> <| space ::= S |> <| worker_owes := 0%nat |>
    <| permit := false |> <| in_callback := false |>
    <| script := replicate m HYPER4K_CHUNK_CONTINUE ++ rest |>).
  destruct (IH s1 m) as (p & k & w & pm & ic & sc & E); [done..|simpl in *; lia|].
  exists p, k, w, pm, ic, sc.
  assert (Hrun : ∀ s2, s2 = s1 → run t (deliver_loop n) s2 = run t (deliver_loop n) s1) by congruence.
  destruct e; simpl; rewrite ?Hc, Hsc; simpl;
    rewrite Hrun by (unfold s1; simpl; by rewrite ?Hp, ?Hc); rewrite E;
    simpl; by rewrite <- app_assoc, ?Hp, ?Hc.
Qed.

(** A settled request whose queue is empty: [OnDone], the cleanup, the count. *)
Lemma run_finish t s x :
  queue s = [] → done_ready s = true → terminal s = Some x →
  run t finish_if_done s =
    Some (s <| terminal := None |>
            <| calls ::= (λ l, l ++ [OnDone (if kind x =? HYPER4K_ERR_NONE then None else Some x)]) |>
            <| finished_flag := true |> <| finished := false |> <| counter ::= Z.pred |>, false).
Proof. destruct s; simpl; intros. by subst. Qed.

(** ** One turn of a worker *)

#[local] Opaque deliver_loop finish_if_done.

(** A turn on an idle slot with room in its slice for the whole queue, once the
    loop is known to end with that queue empty. *)
Lemma run_turn_finish t s s1 x m :
  ready s = S m → running s = false → paused s = false →
  run t (deliver_loop SLICE)
    (s <| ready := m |> <| running := true |> <| owner := Some t |> <| scheduled := false |>) =
    Some (s1, None) →
  queue s1 = [] → done_ready s1 = true → terminal s1 = Some x →
  run t worker_turn s =
    Some (s1 <| terminal := None |>
             <| calls ::= (λ l, l ++ [OnDone (if kind x =? HYPER4K_ERR_NONE then None else Some x)]) |>
             <| finished_flag := true |> <| finished := false |> <| counter ::= Z.pred |>
             <| running := false |> <| owner := None |>, tt).
Proof.
  intros Hr Hrun Hp E Hq Hd Ht. pose proof (run_finish t s1 x Hq Hd Ht) as Hfin.
  destruct s; simpl in Hr, Hrun, Hp; subst; simpl in *.
  rewrite !run_bind, E, Hfin. reflexivity.
Qed.

(** ** Settling *)

(** The winner of the gate: [OnDone] is armed, a pause is released, the slot is
    queued and the network task aborted. *)
Lemma run_settle_discard t s x :
  state s = RUNNING →
  ∃ g cp, run t (settle x true) s =
    Some (s <| state := TERMINAL_DISCARD |> <| claimant := Some t |> <| terminal := Some x |>
            <| term_set := true |> <| done_ready := true |> <| space ::= S |> <| bumped ::= S |>
            <| paused := false |> <| pause_guard := g |> <| conn_paused := cp |>
            <| scheduled := true |> <| ready := if scheduled s then ready s else S (ready s) |>
            <| abort := false |> <| task_aborted := abort s || task_aborted s |>, tt).
Proof.
  intros Hs.
  exists (if paused s then None else pause_guard s),
    (match pause_guard s with
     | Some c => if paused s
                 then <[c := fetch_sub 32 (paused_count s c) 1]> (conn_paused s)
                 else conn_paused s
     | None => conn_paused s
     end).
  destruct s; simpl in Hs; subst; simpl.
  destruct paused, pause_guard, scheduled, abort; reflexivity.
Qed.

(** The loser changes nothing but a pause it has to release. *)
Lemma run_settle_lost t s x d :
  state s ≠ RUNNING → paused s = false →
  run t (settle_slot x d) s = Some (s, tt).
Proof.
  intros Hs Hp. destruct s; simpl in *; subst. rewrite (proj2 (Z.eqb_neq _ _) Hs). simpl.
  by rewrite andb_false_r.
Qed.

(** C30: cancelling, closing or failing a request ends it when no worker is in
    the way.  From any state in which the request is running, paused or not, no
    worker is inside its slot, it is scheduled only if the ready queue names it,
    and no more events are queued than a slice takes (the queue's capacity),
    [settle] followed, with nothing interfering, by one turn of a worker drops
    whatever is queued, invokes [OnDone] with that error as the last callback,
    runs the cleanup and leaves the bridge counter, so that [free] can proceed. *)
Theorem settle_then_turn_ends_request t s x :
  state s = RUNNING → running s = false → kind x ≠ HYPER4K_ERR_NONE →
  scheduled s = false ∨ (0 < ready s)%nat → (length (queue s) ≤ SLICE)%nat →
  ∃ s', run t (settle x true ;; worker_turn) s = Some (s', tt) ∧
    calls s' = calls s ++ [OnDone (Some x)] ∧ queue s' = [] ∧
    finished s' = false ∧ finished_flag s' = true ∧ counter s' = counter s - 1 ∧
    paused s' = false.
Proof.
  intros Hs Hr Hk Hsc Hq. destruct (run_settle_discard t s x Hs) as (g & cp & E).
  rewrite (run_bind_Some _ _ _ _ _ _ E). clear E.
  assert (∃ m, (if scheduled s then ready s else S (ready s)) = S m) as [m Hm].
  { destruct (scheduled s); [|eauto]. destruct Hsc; [done|]. exists (ready s - 1)%nat. lia. }
  match goal with |- context [run t worker_turn ?s1] => set (s2 := s1) end.
  destruct (run_loop_discard t SLICE
    (s2 <| ready := m |> <| running := true |> <| owner := Some t |> <| scheduled := false |>))
    as (p & k & w & E); [done..|].
  eexists. split.
  { eapply (run_turn_finish t s2 _ x m); try done. simpl. by rewrite drop_ge. }
  simpl. rewrite (proj2 (Z.eqb_neq _ _) Hk), drop_ge by done. by split_and!.
Qed.

(** ** Producing *)

Lemma run_send t s e n :
  state s = RUNNING → paused s = false → space s = S n →
  run t (send e) s =
    Some (s <| space := n |> <| producer_holds := 0%nat |> <| committed := true |>
            <| queue ::= (λ q, q ++ [e]) |> <| sent ::= (λ q, q ++ [e]) |>
            <| scheduled := true |> <| ready := if scheduled s then ready s else S (ready s) |>,
          true).
Proof.
  intros Hs Hp Hn. destruct s; simpl in Hs, Hp, Hn; subst; simpl. by destruct scheduled.
Qed.

(** Normal completion: the gate is set to drain. *)
Lemma run_settle_drain t s x :
  state s = RUNNING →
  run t (settle x false) s =
    Some (s <| state := TERMINAL_DRAIN |> <| claimant := Some t |> <| terminal := Some x |>
            <| term_set := true |> <| done_ready := true |> <| space ::= S |> <| bumped ::= S |>
            <| scheduled := true |> <| ready := if scheduled s then ready s else S (ready s) |>
            <| abort := false |> <| task_aborted := abort s || task_aborted s |>, tt).
Proof.
  intros Hs. destruct s; simpl in Hs; subst; simpl. destruct scheduled, abort; reflexivity.
Qed.

(** The chunks a body is delivered as. *)
Definition body_events (body : list Frame) : list Event :=
  omap (λ f, match f with Data b => if is_nil b then None else Some (Chunk b) | _ => None end) body.

(** A body that ends normally. *)
Definition complete_body (body : list Frame) : Prop := Forall (λ f, f ≠ Broken ∧ f ≠ Silence ∧ f ≠ Pending) body.

#[local] Opaque send settle.

Lemma run_deliver_body t pol body s :
  complete_body body → state s = RUNNING → paused s = false → scheduled s = true →
  (length (body_events body) ≤ space s)%nat →
  ∃ s', run t (deliver_body pol body) s = Some (s', tt) ∧
    queue s' = queue s ++ body_events body ∧ state s' = TERMINAL_DRAIN ∧
    terminal s' = Some (mk_terminal HYPER4K_ERR_NONE []) ∧ done_ready s' = true ∧
    ready s' = ready s ∧ running s' = running s ∧ paused s' = false ∧
    has_on_chunk s' = has_on_chunk s ∧ calls s' = calls s ∧ script s' = script s ∧
    counter s' = counter s ∧ finished s' = finished s ∧ conn_paused s' = conn_paused s.
Proof.
  revert s. induction body as [|f body IH]; intros s Hb Hs Hp Hsc Hn; cbn [deliver_body].
  { rewrite run_settle_drain by done. eexists; split; [reflexivity|]. simpl.
    rewrite Hsc. split_and!; try done. by rewrite app_nil_r. }
  apply Forall_cons in Hb as [(Hf1 & Hf2 & Hf3) Hb].
  destruct f as [b| | | |]; [|by apply IH|done..].
  change (body_events (Data b :: body)) with
    (match (if is_nil b then None else Some (Chunk b)) with
     | Some e => e :: body_events body | None => body_events body end) in *.
  destruct (is_nil b) eqn:Eb; [by apply IH|]. simpl in Hn.
  destruct (space s) as [|n] eqn:Es; [lia|].
  erewrite run_bind_Some by (by eapply run_send). cbv iota.
  match goal with |- context [run t _ ?s1] =>
    destruct (IH s1) as (s' & E & Hq & Hrest); [done..|simpl; lia|] end.
  exists s'. split; [exact E|]. simpl in Hq, Hrest. rewrite Hsc in Hrest.
  split; [by rewrite Hq, <- app_assoc|done].
Qed.

(** What a request looks like whose whole response is queued, with [es] the
    events, for a slot that began as [s]. *)
Record response_queued (s : bridge) (es : list Event) (s' : bridge) : Prop := ResponseQueued {
  rq_queue : queue s' = es;
  rq_state : state s' = TERMINAL_DRAIN;
  rq_terminal : terminal s' = Some (mk_terminal HYPER4K_ERR_NONE []);
  rq_done : done_ready s' = true;
  rq_ready : ready s' = S (ready s);
  rq_running : running s' = running s;
  rq_paused : paused s' = false;
  rq_on_chunk : has_on_chunk s' = has_on_chunk s;
  rq_calls : calls s' = calls s;
  rq_script : script s' = script s;
  rq_counter : counter s' = counter s;
  rq_finished : finished s' = finished s;
  rq_conn_paused : conn_paused s' = conn_paused s;
}.

Definition response_events (r : Response) : list Event :=
  Headers (resp_status r) (if resp_http2 r then 2 else 1) (resp_headers r) :: body_events (resp_body r).

Lemma run_deliver_response t pol r s :
  complete_body (resp_body r) → state s = RUNNING → paused s = false → scheduled s = false →
  queue s = [] → (length (response_events r) ≤ space s)%nat →
  ∃ s', run t (deliver_response pol r) s = Some (s', tt) ∧ response_queued s (response_events r) s'.
Proof.
  intros Hb Hs Hp Hsc Hq Hn. unfold deliver_response. rewrite run_bind.
  destruct (space s) as [|n] eqn:En; [simpl in Hn; lia|].
  rewrite (run_send _ _ _ n) by done. cbv iota.
  match goal with |- context [run t (deliver_body _ _) ?s1] =>
    destruct (run_deliver_body t pol (resp_body r) s1)
      as (s2 & E & H1 & H2 & H3 & H4 & H5 & H6 & H7 & H8 & H9 & H10 & H11 & H12 & H13);
      [done..|simpl in *; lia|] end.
  exists s2. split; [exact E|]. simpl in *. rewrite Hsc in H5. rewrite Hq in H1. by split.
Qed.

(** One turn of a worker hands a queued response over. *)
Lemma run_turn_delivers t s es s2 m :
  response_queued s es s2 → running s = false → has_on_chunk s = true →
  script s = replicate m HYPER4K_CHUNK_CONTINUE → (length es ≤ SLICE)%nat → (length es ≤ m)%nat →
  ∃ s', run t worker_turn s2 = Some (s', tt) ∧
    calls s' = calls s ++ map OnEvent es ++ [OnDone None] ∧ counter s' = counter s - 1 ∧
    finished s' = false ∧ conn_paused s' = conn_paused s.
Proof.
  intros [Hq Hst Ht Hd Hr Hrun Hp Hc Hcalls Hscr Hcnt Hfin Hcp] Hrs Hcs Hss Hlen Hm.
  destruct (run_loop_continue t SLICE
    (s2 <| ready := ready s |> <| running := true |> <| owner := Some t |> <| scheduled := false |>)
    m []) as (p & k & w & pm & ic & sc & E); try done.
  { simpl. by rewrite Hst. }
  { simpl. congruence. }
  { simpl. by rewrite Hscr, Hss, app_nil_r. }
  { change (queue (s2 <| ready := ready s |> <| running := true |> <| owner := Some t |>
      <| scheduled := false |>)) with (queue s2). rewrite Hq. lia. }
  eexists. split.
  { eapply (run_turn_finish t s2 _ (mk_terminal HYPER4K_ERR_NONE []) (ready s)); try done.
    - congruence.
    - simpl. rewrite Hq. by apply drop_ge. }
  simpl. rewrite Hcalls, Hcnt, Hcp, Hq, take_ge, <- app_assoc by done. by split_and!.
Qed.

(** The happy path. A response that fits the queue, handed to a fresh
    request whose callbacks all continue, is delivered by one turn of a worker
    exactly as received: the headers, every non-empty data frame in order, and
    then [OnDone] with no error; the bridge counter reaches zero. *)
Theorem complete_response_is_delivered t pol r m :
  complete_body (resp_body r) → (length (body_events (resp_body r)) < SLICE)%nat →
  (length (body_events (resp_body r)) < m)%nat →
  ∃ s', run t (deliver_response pol r ;; worker_turn)
          (spawn SLICE true (replicate m HYPER4K_CHUNK_CONTINUE)) = Some (s', tt) ∧
    calls s' = OnEvent (Headers (resp_status r) (if resp_http2 r then 2 else 1) (resp_headers r))
               :: map OnEvent (body_events (resp_body r)) ++ [OnDone None] ∧
    counter s' = 0.
Proof.
  intros Hb Hn Hm. rewrite run_bind.
  destruct (run_deliver_response t pol r (spawn SLICE true (replicate m HYPER4K_CHUNK_CONTINUE)))
    as (s2 & -> & Hs2); [done..|]. cbv iota.
  destruct (run_turn_delivers t _ _ s2 m Hs2) as (s' & E & Hc & Hn' & _); [done..|].
  exists s'. by split_and!.
Qed.

(** ** A paused slot *)

(** A paused slot that has events queued never leaves the ready queue. A
    worker's turn on it delivers nothing and changes nothing but the
    [scheduled] flag, and puts the slot straight back: [run_slice] answers
    "more work" although the contract of [Runnable::run_slice] is to answer
    false for a paused slot. *)
Theorem paused_slot_is_requeued t s m :
  paused s = true → queue s ≠ [] → running s = false → owner s = None →
  finished_flag s = false → ready s = S m →
  run t worker_turn s = Some (s <| scheduled := false |>, tt).
Proof.
  intros Hp Hq Hr Ho Hf Hm. destruct s; simpl in *; subst; simpl.
  by destruct queue.
Qed.

(** ** Witnesses *)

Definition cancelled : Terminal := mk_terminal HYPER4K_ERR_CANCELLED (lit "cancelled").

(** A paused request with two chunks queued. *)
Definition paused_request : bridge :=
  (spawn SLICE true []) <| paused := true |> <| queue := [Chunk [1]; Chunk [2]] |>
                      <| ready := 1%nat |> <| scheduled := true |>.

Lemma settle_then_turn_ends_request_witness :
  ∃ s', run 1 (settle cancelled true ;; worker_turn) paused_request = Some (s', tt) ∧
        calls s' = [OnDone (Some cancelled)] ∧ counter s' = 0.
Proof.
  destruct (settle_then_turn_ends_request 1 paused_request cancelled)
    as (s' & E & Hc & _ & _ & _ & Hn & _).
  - reflexivity.
  - reflexivity.
  - vm_compute. discriminate.
  - right. apply Nat.lt_0_1.
  - vm_compute. lia.
  - exists s'. split; [exact E|]. split; [exact Hc|exact Hn].
Defined.

Lemma complete_response_is_delivered_witness :
  let pol := {| policy_max_retries := 2; request_timeout := None; read_idle_timeout := None |} in
  let r := {| resp_http2 := true; resp_status := 200; resp_headers := [];
              resp_body := [Data [104; 105]; Data []; Trailers] |} in
  ∃ s', run 0 (deliver_response pol r ;; worker_turn)
          (spawn SLICE true (replicate 2 HYPER4K_CHUNK_CONTINUE)) = Some (s', tt) ∧
        calls s' = [OnEvent (Headers 200 2 []); OnEvent (Chunk [104; 105]); OnDone None].
Proof.
  intros pol r. destruct (complete_response_is_delivered 0 pol r 2) as (s' & E & Hc & _).
  - repeat constructor; discriminate.
  - vm_compute. lia.
  - vm_compute. lia.
  - exists s'. split; [exact E|exact Hc].
Defined.

Lemma paused_slot_is_requeued_witness :
  run 1 worker_turn paused_request = Some (paused_request <| scheduled := false |>, tt).
Proof.
  apply (paused_slot_is_requeued 1 paused_request 0); [reflexivity|discriminate|reflexivity..].
Defined.
