(* ===== verification/BridgeRaces.v ===== *)
(** * Interleavings of the bridge that break its contract

    The invariant of [BridgeSafety] is what every interleaving keeps.  The
    closed theorems of this file are the other half: five schedules, each
    evaluated, after which a promise of the source's comments or of the ABI
    document does not hold. *)

From S2P Require Import Prelude Conc Abi Bridge Retry Request BridgeSafety.

Open Scope prog_scope.

(** ** Observations of a final configuration *)

#[export] Instance Event_eq_dec : EqDecision Event.
Proof. solve_decision. Defined.
#[export] Instance Terminal_eq_dec : EqDecision Terminal.
Proof. solve_decision. Defined.
#[export] Instance Call_eq_dec : EqDecision Call.
Proof. solve_decision. Defined.

(** Nothing is left that could ever invoke [OnDone]: no entry of the ready
    queue is this slot, and every thread has returned or waits for one. *)
Definition stuck (c : config bridge) : Prop := ready (shared c) = 0%nat ∧ quiescent c.

Definition stuck_test (c : config bridge) : bool :=
  Nat.eqb (ready (shared c)) 0 && all_blocked 0 (threads c) (shared c).

Lemma stuck_test_ok c : stuck_test c = true → stuck c.
Proof.
  intros [H1 H2]%andb_true_iff. split; [by apply Nat.eqb_eq|by apply quiescent_test].
Qed.

(** One request whose only attempt gets a connection and a response with the
    given body, beside the given other threads. *)
Definition policy : RequestPolicy :=
  {| policy_max_retries := 2; request_timeout := None; read_idle_timeout := None |}.

Definition ok_response (body : list Frame) : Response :=
  {| resp_http2 := false; resp_status := 200; resp_headers := []; resp_body := body |}.

Definition one_attempt (body : list Frame) : list Attempt :=
  [{| at_acquire := inr 0%nat; at_closed := false; at_built := true;
      at_sent := inr (ok_response body) |}].

Definition system (script : list Z) (body : list Frame) (others : list (prog bridge unit))
    : config bridge :=
  request_system SLICE true script (lit "GET") policy (one_attempt body) others.

(** What the schedules below end in: the callbacks invoked, the bridge counter
    that [free] waits for, whether the request is paused, and which of the
    threads have returned. *)
Definition ends_with (cs : list Call) (n : Z) (p : bool) (returned : list nat)
    (c : config bridge) : Prop :=
  calls (shared c) = cs ∧ counter (shared c) = n ∧ paused (shared c) = p ∧
  Forall (λ i, finished_thread i c = true) returned.

Definition ends_test (cs : list Call) (n : Z) (p : bool) (returned : list nat)
    (c : config bridge) : bool :=
  stuck_test c && (bool_decide (calls (shared c) = cs) && (counter (shared c) =? n) &&
  bool_decide (paused (shared c) = p) && forallb (λ i, finished_thread i c) returned).

Lemma ends_test_ok cs n p returned c :
  ends_test cs n p returned c = true → stuck c ∧ ends_with cs n p returned c.
Proof.
  intros Hc. unfold ends_test in Hc. rewrite !andb_true_iff in Hc.
  destruct Hc as (H1 & ((H2 & H3) & H4) & H5). split; [by apply stuck_test_ok|].
  split_and!; [by apply bool_decide_eq_true in H2|by apply Z.eqb_eq|
    by apply bool_decide_eq_true in H4|].
  apply Forall_forall. intros i Hi. rewrite forallb_forall in H5.
  apply H5. by apply list_elem_of_In.
Qed.

Lemma ends_by_schedule sched c0 cs n p returned :
  exec_test sched c0 (ends_test cs n p returned) = true →
  ∃ c, reachable c0 c ∧ stuck c ∧ ends_with cs n p returned c.
Proof.
  intros (c & Hr & Hc)%exec_test_reachable. exists c. split; [done|]. by apply ends_test_ok.
Qed.

(** ** The schedules *)

(** C38: a cancel returned by the callback can end a request without [OnDone].
    When the body has ended (the gate is already set to drain) and the callback
    of the last queued chunk answers CANCEL, [settle_slot] loses the claim and
    does nothing, and [run_owned] returns without looking at [done_ready]: the
    network task and a later close have returned, nothing is scheduled, [OnDone]
    was not and will not be invoked, and the bridge counter stays at one, so
    [free] waits forever. *)
Theorem cancel_on_last_chunk_loses_on_done :
  ∃ c, reachable (system [HYPER4K_CHUNK_CONTINUE; HYPER4K_CHUNK_CANCEL] [Data [1]]
                    [worker 3; close_request]) c ∧
    stuck c ∧
    ends_with [OnEvent (Headers 200 1 []); OnEvent (Chunk [1])] 1 false [0; 2]%nat c.
Proof.
  apply (ends_by_schedule (replicate 24 0 ++ replicate 26 1 ++ replicate 3 2)%nat).
  vm_compute. reflexivity.
Qed.

(** C39: a normal [OnDone] is not always the last callback. The worker reads
    the queue as empty, the network task queues the last chunk and settles, the
    worker then reads [done_ready] and invokes [OnDone]; the chunk is delivered
    by a later turn, after [OnDone] has returned and the counter is zero. *)
Theorem chunk_after_normal_on_done :
  ∃ c, reachable (system [HYPER4K_CHUNK_CONTINUE; HYPER4K_CHUNK_CONTINUE] [Data [7]]
                    [worker 3]) c ∧
    stuck c ∧
    ends_with [OnEvent (Headers 200 1 []); OnDone None; OnEvent (Chunk [7])] 0 false [0]%nat c.
Proof.
  apply (ends_by_schedule
    (replicate 12 0 ++ replicate 15 1 ++ replicate 13 0 ++ replicate 28 1)%nat).
  vm_compute. reflexivity.
Qed.

(** C40: [OnDone] can be lost to the hand-over between two workers. The request
    settles while its owner is past the [done_ready] test; the second worker
    bounces off [running] and drops the slot from the ready queue, and the
    owner only re-checks the queue of events. A later close does not help. *)
Theorem on_done_lost_between_workers :
  ∃ c, reachable (system [HYPER4K_CHUNK_CONTINUE; HYPER4K_CHUNK_CONTINUE] []
                    [worker 3; worker 3; close_request]) c ∧
    stuck c ∧ ends_with [OnEvent (Headers 200 1 [])] 1 false [0; 3]%nat c.
Proof.
  apply (ends_by_schedule (replicate 12 0 ++ replicate 16 1 ++ replicate 6 0 ++
    replicate 3 2 ++ replicate 3 1 ++ replicate 3 3)%nat).
  vm_compute. reflexivity.
Qed.

(** A resume can be lost. Between the moment a callback that asked for a
    pause has returned and the moment the pause is recorded, [resume] finds the
    request neither paused nor in a callback and leaves no trace: it has
    returned, the request is paused, and nothing will run it again. *)
Theorem resume_lost_before_pause :
  ∃ c, reachable (system [HYPER4K_CHUNK_CONTINUE; HYPER4K_CHUNK_PAUSE] [Data [7]]
                    [worker 3; resume ;; Ret tt]) c ∧
    stuck c ∧
    ends_with [OnEvent (Headers 200 1 []); OnEvent (Chunk [7])] 1 true [0; 2]%nat c.
Proof.
  apply (ends_by_schedule (replicate 24 0 ++ replicate 20 1 ++ replicate 3 2 ++ replicate 8 1)%nat).
  vm_compute. reflexivity.
Qed.

(** The budget of paused streams can be held by a stream that is not
    paused. [enter_pause] stores [paused] before it makes the guard: a resume in
    between clears the flag and finds no guard to drop, and the guard is stored
    afterwards. The resume has returned, everything has been delivered up to
    [OnDone], the request is not paused, and the paused count of the connection
    is still one. *)
Theorem guard_outlives_pause :
  ∃ c, reachable (system [HYPER4K_CHUNK_CONTINUE; HYPER4K_CHUNK_PAUSE] [Data [7]]
                    [worker 2; resume ;; Ret tt]) c ∧
    paused_count (shared c) 0 = 1 ∧ pause_guard (shared c) = Some 0%nat ∧
    ends_with [OnEvent (Headers 200 1 []); OnEvent (Chunk [7]); OnDone None] 0 false [0; 1; 2]%nat c.
Proof.
  destruct (exec_test_reachable (replicate 24 0 ++ replicate 22 1 ++ replicate 5 2 ++ replicate 21 1)%nat
    (system [HYPER4K_CHUNK_CONTINUE; HYPER4K_CHUNK_PAUSE] [Data [7]] [worker 2; resume ;; Ret tt])
    (λ c, ends_test [OnEvent (Headers 200 1 []); OnEvent (Chunk [7]); OnDone None] 0 false [0; 1; 2]%nat c &&
          bool_decide (paused_count (shared c) 0 = 1 ∧ pause_guard (shared c) = Some 0%nat)))
    as (c & Hr & Hc); [vm_compute; reflexivity|].
  apply andb_true_iff in Hc as [He [? ?]%bool_decide_eq_true]. exists c.
  split_and!; [done|done|done|]. by apply (ends_test_ok _ _ _ _ _ He).
Qed.
