(* ===== verification/Attempts.v ===== *)
(** * The attempt loop: how often a request is sent, and how it ends

    Source: [attempt_loop] of [lib/src/client/handle.rs] and
    [lib/src/client/retry.rs].  The first group of theorems holds under every
    interleaving; it only looks at the history [sends], which no other thread
    of the request touches.  The second runs the loop undisturbed. *)

From S2P Require Import Prelude Conc Abi Bridge Retry Request BridgeSafety BridgeRun.

Open Scope prog_scope.

(** ** Who touches [sends] *)

#[local] Abbreviation keeps_sends := (keeps sends) (only parsing).

(** One action whose definition is a match on the state. *)
Ltac keeps_atomic :=
  split; [intros ???? E; simpl in E; repeat case_match; by simplify_eq/=|done].

Ltac keeps_tac :=
  repeat first
    [ solve [auto with sends hyper4k]
    | exact Logic.I
    | apply keeps_modify; reflexivity
    | apply keeps_fetch; intros ?; simpl; repeat case_match; reflexivity
    | apply keeps_bind; [|intros ?]
    | case_match ].

Create HintDb sends.

Lemma set_pause_guard_sends g : keeps_sends (set_pause_guard g).
Proof. unfold set_pause_guard, guard_drop. keeps_tac. Qed.
#[local] Hint Resolve set_pause_guard_sends : sends.

Lemma enter_pause_sends : keeps_sends enter_pause.
Proof. unfold enter_pause, guard_new. keeps_tac. Qed.

Lemma leave_pause_sends : keeps_sends leave_pause.
Proof. unfold leave_pause. keeps_tac. Qed.

Lemma schedule_slot_sends : keeps_sends schedule_slot.
Proof. unfold schedule_slot, ex_schedule. keeps_tac. Qed.

Lemma claim_sends d : keeps_sends (claim d).
Proof. keeps_atomic. Qed.
#[local] Hint Resolve enter_pause_sends leave_pause_sends schedule_slot_sends claim_sends : sends.

Lemma settle_slot_sends x d : keeps_sends (settle_slot x d).
Proof. unfold settle_slot, reschedule, add_permits_bump. keeps_tac. Qed.
#[local] Hint Resolve settle_slot_sends : sends.

Lemma settle_sends x d : keeps_sends (settle x d).
Proof. unfold settle. keeps_tac. Qed.

Lemma invoke_sends e : keeps_sends (invoke e).
Proof. keeps_atomic. Qed.

Lemma acquire_permit_sends : keeps_sends acquire_permit.
Proof. keeps_atomic. Qed.
#[local] Hint Resolve settle_sends invoke_sends acquire_permit_sends : sends.

Lemma deliver_loop_sends n : keeps_sends (deliver_loop n).
Proof.
  induction n as [|n IH]; cbn [deliver_loop];
    unfold pop_front, add_permits_popped, discarding, set_in_callback, deliver, clear_permit;
    keeps_tac.
Qed.
#[local] Hint Resolve deliver_loop_sends : sends.

Lemma run_slice_sends n : keeps_sends (run_slice n).
Proof.
  unfold run_slice, run_owned, finish_if_done, deliver_done, leave.
  apply keeps_bind; [keeps_atomic|intros ?]. keeps_tac.
Qed.
#[local] Hint Resolve run_slice_sends : sends.

Lemma worker_sends n : keeps_sends (worker n).
Proof.
  induction n as [|n IH]; cbn [worker]; [done|]. unfold worker_turn, ex_schedule.
  apply keeps_bind; [|done]. apply keeps_bind; [keeps_atomic|intros _]. keeps_tac.
Qed.

Lemma send_sends e : keeps_sends (send e).
Proof. unfold send, is_terminal, release_permit, mark_committed, push_back. keeps_tac. Qed.
#[local] Hint Resolve worker_sends send_sends : sends.

Lemma deliver_response_sends pol r : keeps_sends (deliver_response pol r).
Proof.
  assert (∀ body, keeps_sends (deliver_body pol body)) as Hb.
  { induction body as [|[] body IH]; cbn [deliver_body]; keeps_tac. by split. }
  unfold deliver_response. keeps_tac.
Qed.

Lemma other_thread_sends p : other_thread p → keeps_sends p.
Proof.
  destruct 1; unfold resume, cancel_request, close_request, request_timed_out, set_abort,
    is_terminal; keeps_tac.
Qed.

(** ** Retries, under every interleaving *)

Section retries.
Context (idempotent : bool) (max_retries : Z).
Hypothesis max_retries_nonneg : 0 ≤ max_retries.

(** A send that may be followed by another one. *)
Definition replayable (x : nat * bool) : Prop := x.2 = true ∨ idempotent = true.

(** Every send but the last is replayable, and there are not too many. *)
Definition sends_ok (s : bridge) : Prop :=
  Z.of_nat (length (sends s)) ≤ max_retries + 1 ∧
  ∀ l x, sends s = l ++ [x] → Forall replayable l.

(** Only the network task (thread 0) sends. *)
Definition sends_rely (t : nat) (s s' : bridge) : Prop := t = 0%nat → sends s' = sends s.

(** Where the loop stands with [budget] retries left. *)
Definition at_loop (budget : Z) (l : list (nat * bool)) : Prop :=
  Z.of_nat (length l) + budget ≤ max_retries ∧ Forall replayable l.

#[local] Abbreviation safe := (Conc.safe sends_ok sends_rely) (only parsing).

Lemma safe_keeps_sends {A} (p : prog bridge A) φ :
  keeps_sends p → safe 0%nat p (λ s, φ (sends s)) (λ _ s, φ (sends s)).
Proof.
  apply safe_keeps.
  - intros s s' E. unfold sends_ok. by rewrite E.
  - by intros t' s s' E _.
  - intros s s' H. by rewrite (H eq_refl).
Qed.

Lemma sends_stable φ : stable sends_ok sends_rely 0 (λ s, φ (sends s)).
Proof. intros s s' _ _ H. by rewrite (H eq_refl). Qed.

(** Handing the request over uses up the room the budget leaves. *)
Lemma safe_try_send c u budget :
  0 ≤ budget →
  safe 0%nat (try_send_request c u) (λ s, at_loop budget (sends s))
    (λ _ s, ∃ l, sends s = l ++ [(c, u)] ∧ at_loop budget l).
Proof.
  intros Hb. apply safe_atomic; [apply (sends_stable (at_loop budget))|
    intros _; apply (sends_stable (λ k, ∃ l, k = l ++ [(c, u)] ∧ at_loop budget l))|].
  intros s s' r _ [Hn Hf] [= <- _]. simpl. split_and!.
  - split; simpl; [rewrite length_app; simpl; lia|].
    intros l x [<- _]%app_inj_tail. done.
  - by intros t' Ht' ->.
  - by exists (sends s).
Qed.

(** What one attempt leaves, and what is known when it is to be repeated. *)
Lemma safe_attempt_sends pol built sent c budget :
  0 ≤ budget →
  safe 0%nat (attempt idempotent (deliver_response pol) built sent c budget)
    (λ s, at_loop budget (sends s))
    (λ again s, again = true → 0 < budget ∧ at_loop (budget - 1) (sends s)).
Proof.
  intros Hb. unfold attempt.
  assert (Hend : ∀ (p : prog bridge unit) φ ψ, keeps_sends p →
    safe 0%nat (p ;; Ret false) (λ s, φ (sends s)) (λ again s, again = true → ψ s)).
  { intros p φ ψ Hp. eapply safe_bind; [by apply safe_keeps_sends|]. intros ?; cbv beta.
    by apply safe_ret; [apply (sends_stable φ)|]. }
  eapply safe_bind; [apply safe_keeps_sends; by apply keeps_modify|]. intros ?; cbv beta.
  destruct built; cbn [negb]; [|apply Hend, settle_sends].
  set (φ u k := ∃ l, k = l ++ [(c, u)] ∧ at_loop budget l).
  destruct sent as [[u|r]|].
  - eapply safe_bind; [by apply safe_try_send|]. intros ?; cbv beta.
    eapply safe_bind; [apply (safe_keeps_sends _ (φ u)), keeps_load|]. intros cm; cbv beta.
    destruct (may_retry cm u idempotent budget) eqn:Er; [|apply (Hend _ (φ u)), settle_sends].
    apply may_retry_iff in Er as (_ & Hb0 & Hu). apply safe_ret; [apply (sends_stable (φ u))|].
    intros s _ (l & E & Hn & Hl) _. rewrite E. split; [lia|].
    split; [rewrite length_app; simpl; lia|]. apply Forall_app. split; [done|]. by apply Forall_singleton.
  - eapply safe_bind; [by apply safe_try_send|]. intros ?; cbv beta.
    apply (Hend _ (φ false)), deliver_response_sends.
  - eapply safe_bind; [by apply safe_try_send|]. intros ?; cbv beta.
    apply (Hend _ (φ false)). by split.
Qed.

Lemma safe_attempts pol (env : list Attempt) budget :
  0 ≤ budget →
  safe 0%nat (attempt_loop idempotent (deliver_response pol) env budget)
    (λ s, at_loop budget (sends s)) (λ _ _, True).
Proof.
  assert (Hend : ∀ (p : prog bridge unit) φ, keeps_sends p →
    safe 0%nat (p ;; Ret true) (λ s, φ (sends s)) (λ _ _, True)).
  { intros p φ Hp. eapply safe_bind; [by apply safe_keeps_sends|]. intros ?; cbv beta.
    apply safe_ret; [apply (sends_stable φ)|done]. }
  revert budget. induction env as [|a env IH]; intros budget Hb.
  { split; [apply (sends_stable (at_loop budget))|done]. }
  rewrite attempt_loop_answers.
  destruct (at_acquire a) as [k|c]; [apply Hend, settle_sends|].
  destruct (at_closed a).
  { destruct (Z.ltb_spec 0 budget); [|apply Hend, settle_sends].
    eapply safe_pre; [..|apply IH; lia]; [apply (sends_stable (at_loop budget))|].
    intros s _ [??]. split; [lia|done]. }
  set (ψ (again : bool) (k : list (nat * bool)) := again = true → 0 < budget ∧ at_loop (budget - 1) k).
  eapply safe_bind with (M := λ r s, ∃ b, r = Some b ∧ ψ b (sends s)).
  { eapply safe_bind; [by apply safe_attempt_sends|]. intros b; cbv beta.
    apply safe_ret; [apply (sends_stable (ψ b))|]. eauto. }
  assert (Hst : ∀ r : option bool, stable sends_ok sends_rely 0 (λ s, ∃ b, r = Some b ∧ ψ b (sends s)))
    by (intros r; apply (sends_stable (λ k, ∃ b, r = Some b ∧ ψ b k))).
  intros [[|]|]; [|by apply safe_ret..].
  destruct (Z.ltb_spec 0 budget) as [Hpos|Hneg].
  - eapply safe_pre; [apply Hst| |apply IH; lia]. intros s _ (b & [= <-] & Hl). by apply Hl.
  - eapply safe_pre with (P := λ _, False); [apply Hst| |].
    + intros s _ (b & [= <-] & Hl). destruct (Hl eq_refl). lia.
    + apply safe_False.
Qed.
End retries.

Lemma replayable_none l : Forall (replayable false) l → filter (λ x, x.2 = false) l = [].
Proof.
  induction 1 as [|y l [E|] _ IH]; [done| |done].
  rewrite filter_cons, decide_False by congruence. done.
Qed.

Lemma reachable_sends_ok cap on_chunk script method pol env others c :
  0 ≤ policy_max_retries pol → Forall other_thread others →
  reachable (request_system cap on_chunk script method pol env others) c →
  sends_ok (is_idempotent method) (policy_max_retries pol) (shared c).
Proof.
  intros Hb Ho Hr. refine (proj1 (safe_sound _ sends_rely _ _ Hr _)).
  split; [split; simpl; [lia|]|].
  { intros l x E. by apply (f_equal length) in E; rewrite length_app in E; simpl in E; lia. }
  intros [|i] p Hp; simpl in Hp.
  - injection Hp as <-. eexists. split; [|eapply safe_bind; [by apply safe_attempts|intros ?; by apply safe_ret]].
    split; [simpl; lia|by constructor].
  - exists (λ _, True). split; [done|].
    assert (keeps_sends p) as Hk by (by eapply other_thread_sends, Forall_lookup_1).
    eapply (safe_keeps sends _ _ _ _ (λ _, True)); try done.
    + intros s s' E. unfold sends_ok. by rewrite E.
    + by intros t' s s' E _.
Qed.

(** C6: a request is handed to a connection at most [max_retries + 1] times,
    and for a method that is not idempotent every hand-over but the last was
    proved unsent: at most one of them can have reached the peer. This holds in
    every reachable state of every interleaving. *)
Theorem retries_are_bounded_and_safe cap on_chunk script method pol env others c :
  0 ≤ policy_max_retries pol → Forall other_thread others →
  reachable (request_system cap on_chunk script method pol env others) c →
  Z.of_nat (length (sends (shared c))) ≤ policy_max_retries pol + 1 ∧
  (is_idempotent method = false →
   (length (filter (λ x, x.2 = false) (sends (shared c))) ≤ 1)%nat).
Proof.
  intros Hb Ho Hr. destruct (reachable_sends_ok _ _ _ _ _ _ _ _ Hb Ho Hr) as [Hn Hl].
  split; [done|]. intros Hi. destruct (sends (shared c)) as [|x l _] using rev_ind; [simpl; lia|].
  specialize (Hl l x eq_refl). rewrite Hi in Hl.
  rewrite filter_app, length_app, replayable_none by done.
  rewrite filter_cons. case_decide; simpl; lia.
Qed.

(** ** How the loop ends when no attempt gets a response *)

Definition no_response (a : Attempt) : Prop := ∀ r, at_sent a ≠ inr r.

(** The loop has returned and the request is settled for discarding with one
    of its own errors or one of the pool's [causes]. *)
Definition reports_failure (causes : list (Hyper4kErrorKind + nat))
    (result : option (bridge * bool)) : Prop :=
  ∃ s' k msg, result = Some (s', true) ∧
    state s' = TERMINAL_DISCARD ∧ terminal s' = Some (mk_terminal k msg) ∧
    done_ready s' = true ∧ scheduled s' = true ∧
    (k ∈ [HYPER4K_ERR_CONNECT; HYPER4K_ERR_PROTOCOL; HYPER4K_ERR_OUTCOME_UNKNOWN] ∨
     inl k ∈ causes).

Lemma settle_reports_failure t s k msg causes :
  state s = RUNNING →
  k ∈ [HYPER4K_ERR_CONNECT; HYPER4K_ERR_PROTOCOL; HYPER4K_ERR_OUTCOME_UNKNOWN] ∨
    inl k ∈ causes →
  reports_failure causes (run t (settle (mk_terminal k msg) true ;; Ret true) s).
Proof.
  intros Hs Hk. destruct (run_settle_discard t s (mk_terminal k msg) Hs) as (g & cp & E).
  eexists _, k, msg. rewrite run_bind, E. split; [reflexivity|]. by split_and!.
Qed.

Lemma reports_failure_weaken c causes o :
  reports_failure causes o → reports_failure (c :: causes) o.
Proof.
  intros (s' & k & msg & ?&?&?&?&?&[|]); exists s', k, msg; split_and!; auto.
  right. by right.
Qed.

(** A failed attempt: again with the state as it was, or a settled request. *)
Lemma run_attempt_failed t idempotent deliver built u c budget s :
  0 ≤ budget → state s = RUNNING → committed s = false →
  ∃ s' again, run t (attempt idempotent deliver built (Some (inl u)) c budget) s = Some (s', again) ∧
    if again : bool then 0 < budget ∧ state s' = RUNNING ∧ committed s' = false
    else ∃ k msg, state s' = TERMINAL_DISCARD ∧ terminal s' = Some (mk_terminal k msg) ∧
      done_ready s' = true ∧ scheduled s' = true ∧
      k ∈ [HYPER4K_ERR_CONNECT; HYPER4K_ERR_PROTOCOL; HYPER4K_ERR_OUTCOME_UNKNOWN].
Proof.
  intros Hb Hs Hc. unfold attempt. rewrite run_bind. simpl (run t (bind_connection c) s). cbv iota.
  destruct built; cbn [negb].
  2: { match goal with |- context [run t (settle ?x true ;; _) ?s1] =>
         destruct (run_settle_discard t s1 x Hs) as (g & cp & E) end.
       rewrite run_bind, E. eexists _, false. split; [reflexivity|].
       eexists _, _. by split_and!; [done..|right; left]. }
  rewrite run_bind. simpl (run t (try_send_request _ _) _). cbv iota.
  rewrite run_bind. simpl (run t is_committed _). cbv iota. rewrite Hc.
  destruct (may_retry false u idempotent budget) eqn:Em.
  - apply may_retry_iff in Em as (_ & ? & _). eexists _, true. split; [reflexivity|].
    split_and!; done || lia.
  - match goal with |- context [run t (settle ?x true ;; _) ?s1] =>
      destruct (run_settle_discard t s1 x Hs) as (g & cp & E) end.
    rewrite run_bind, E. eexists _, false. split; [reflexivity|].
    eexists _, _. by split_and!; [done..|right; right; left].
Qed.

(** C31: the attempt loop terminates and reports a failure. Given an answer for
    each of [max_retries + 1] attempts, none of them a response, the loop
    returns with the request settled for discarding: the error is the pool's
    own, or CONNECT (no live connection), PROTOCOL (the request cannot be
    built) or OUTCOME_UNKNOWN. In particular a request that has delivered
    nothing is never reported as TRUNCATED by the loop itself. *)
Theorem attempt_loop_reports_failure t idempotent deliver (env : list Attempt) budget s :
  Forall no_response env → 0 ≤ budget < Z.of_nat (length env) →
  state s = RUNNING → committed s = false →
  reports_failure (map at_acquire env) (run t (attempt_loop idempotent deliver env budget) s).
Proof.
  revert budget s. induction env as [|a env IH]; intros budget s Hn Hb Hs Hc; [simpl in Hb; lia|].
  apply Forall_cons in Hn as [Ha Hn]. rewrite attempt_loop_answers. cbn [length map] in *.
  destruct (at_acquire a) as [k|c]; [apply settle_reports_failure; [done|right; by left]|].
  destruct (at_closed a).
  { destruct (Z.ltb_spec 0 budget); [apply reports_failure_weaken, IH; auto; lia|].
    apply settle_reports_failure; [done|set_solver]. }
  destruct (at_sent a) as [u|r] eqn:Er; [|by destruct (Ha r)].
  destruct (run_attempt_failed t idempotent deliver (at_built a) u c budget s)
    as (s1 & again & E & H1); [lia|done|done|]. rewrite !run_bind, E. cbn [run]. destruct again.
  - destruct H1 as (? & ? & ?). apply reports_failure_weaken, IH; auto; lia.
  - destruct H1 as (k & msg & Hk). exists s1, k, msg. destruct_and?. split_and!; auto.
Qed.

(** A request that was never sent can still be reported as OUTCOME_UNKNOWN:
    when the last attempt of the budget fails and hyper hands the request back
    unsent, the caller is told that the outcome is unknown. *)
Theorem unsent_request_reported_unknown t idempotent deliver a (env : list Attempt) c s :
  at_acquire a = inr c → at_closed a = false → at_built a = true → at_sent a = inl true →
  state s = RUNNING → committed s = false →
  ∃ s' msg, run t (attempt_loop idempotent deliver (a :: env) 0) s = Some (s', true) ∧
    terminal s' = Some (mk_terminal HYPER4K_ERR_OUTCOME_UNKNOWN msg) ∧
    sends s' = sends s ++ [(c, true)].
Proof.
  intros Ea Ecl Eb Es Hs Hc. rewrite attempt_loop_answers, Ea, Ecl, Eb, Es. unfold attempt.
  cbn [negb]. rewrite !run_bind. simpl (run t (bind_connection c) s). cbv iota.
  rewrite run_bind. simpl (run t (try_send_request _ _) _). cbv iota.
  rewrite run_bind. simpl (run t is_committed _). cbv iota. rewrite Hc. cbn [may_retry Z.eqb].
  match goal with |- context [run t (settle ?x true ;; _) ?s1] =>
    destruct (run_settle_discard t s1 x Hs) as (g & cp & E) end.
  rewrite run_bind, E. eexists _, _. split; [reflexivity|]. done.
Qed.

(** ** Witnesses *)

Definition closed_attempt : Attempt :=
  {| at_acquire := inr 0%nat; at_closed := true; at_built := true; at_sent := inl true |}.
Definition unsent_attempt : Attempt :=
  {| at_acquire := inr 1%nat; at_closed := false; at_built := true; at_sent := inl true |}.
Definition lost_attempt : Attempt :=
  {| at_acquire := inr 2%nat; at_closed := false; at_built := true; at_sent := inl false |}.

Definition post_system : config bridge :=
  request_system 8 true [] (lit "POST")
    {| policy_max_retries := 2; request_timeout := None; read_idle_timeout := None |}
    [closed_attempt; unsent_attempt; lost_attempt] [worker 1].

(** The three attempts, one step at a time. *)
Definition post_final : config bridge := default post_system (exec (replicate 11 0%nat) post_system).

Lemma post_final_reachable : reachable post_system post_final.
Proof.
  unfold post_final. destruct (exec _ post_system) eqn:E; [by eapply exec_reachable|apply rtc_refl].
Qed.

Lemma retries_are_bounded_and_safe_witness :
  sends (shared post_final) = [(1%nat, true); (2%nat, false)] ∧
  (length (filter (λ x, x.2 = false) (sends (shared post_final))) ≤ 1)%nat.
Proof.
  split; [vm_compute; reflexivity|].
  apply (retries_are_bounded_and_safe 8 true [] (lit "POST")
    {| policy_max_retries := 2; request_timeout := None; read_idle_timeout := None |}
    [closed_attempt; unsent_attempt; lost_attempt] [worker 1] post_final).
  - simpl. lia.
  - repeat constructor.
  - exact post_final_reachable.
  - vm_compute. reflexivity.
Defined.

Lemma attempt_loop_reports_failure_witness :
  reports_failure [inr 0%nat; inr 1%nat; inr 2%nat]
    (run 0 (attempt_loop false (λ _, Ret tt) [closed_attempt; unsent_attempt; lost_attempt] 2)
       (spawn 8 true [])).
Proof.
  apply (attempt_loop_reports_failure 0 false (λ _, Ret tt)
    [closed_attempt; unsent_attempt; lost_attempt] 2 (spawn 8 true [])).
  - repeat constructor; discriminate.
  - simpl. lia.
  - reflexivity.
  - reflexivity.
Defined.

Lemma unsent_request_reported_unknown_witness :
  ∃ s' msg, run 0 (attempt_loop true (λ _, Ret tt) [unsent_attempt] 0) (spawn 8 true []) =
      Some (s', true) ∧
    terminal s' = Some (mk_terminal HYPER4K_ERR_OUTCOME_UNKNOWN msg) ∧ sends s' = [(1%nat, true)].
Proof.
  exact (unsent_request_reported_unknown 0 true (λ _, Ret tt) unsent_attempt [] 1%nat
    (spawn 8 true []) eq_refl eq_refl eq_refl eq_refl eq_refl eq_refl).
Defined.
