(* ===== verification/Limits.v ===== *)
(** * Client-wide ceilings

    Source: [Limits] and [Reservation] of [lib/src/client/handle.rs].

    Two counters, updated optimistically: a caller adds first, looks at what it
    found, and takes back what it added when that was too much.  Counters are
    [u32] and [u64] and wrap.  [held] (the bytes of the reservations that exist)
    and [stage] (what each thread has added without holding a reservation) are
    ghost.  A reservation is owned by whoever will drop it, so dropping one is
    only possible while it exists. *)

From S2P Require Import Prelude Conc Abi.

Open Scope prog_scope.

(** ** Data *)

Record Limits := { max_inflight : Z; max_bytes : Z }.

Inductive Stage := Idle | Refused | Passed | Oversized (b : Z) | Releasing.

Record counters := Counters {
  inflight : Z;
  bytes_reserved : Z;
  (* ghost *)
  held : list Z;
  stage : nat → Stage;
}.

#[export] Instance counters_eta : Settable counters := λ s,
  Counters (inflight s) (bytes_reserved s) (held s) (stage s).

(** [Limits::new]: zero selects the default. *)
Definition limits_new (n b : Z) : Limits :=
  {| max_inflight := if n =? 0 then DEFAULT_MAX_INFLIGHT else n;
     max_bytes := if b =? 0 then DEFAULT_MAX_BUFFERED_BYTES else b |}.

Definition counters_new : counters := Counters 0 0 [] (λ _, Idle).

(** ** Operations *)

Definition set_stage (t : nat) (x : Stage) (s : counters) : counters :=
  s <| stage ::= (λ f i, if decide (i = t) then x else f i) |>.

Section operations.
Variable limits : Limits.

(** [inflight.fetch_sub(1)]. *)
Definition sub_inflight : prog counters unit :=
  atomic (λ t s, Some (set_stage t Idle (s <| inflight ::= λ n, fetch_sub 32 n 1 |>), tt)).

Definition try_reserve (bytes : Z) : prog counters bool :=
  n <- atomic (λ t s,
    let n := inflight s in
    Some (set_stage t (if max_inflight limits <=? n then Refused else Passed)
            (s <| inflight := fetch_add 32 n 1 |>), n)) ;;
  if max_inflight limits <=? n then
    sub_inflight ;; Ret false
  else
    b <- atomic (λ t s,
      let b := bytes_reserved s in
      let s := s <| bytes_reserved := fetch_add 64 b bytes |> in
      Some (if max_bytes limits <? wrap 64 (b + bytes)
            then set_stage t (Oversized bytes) s
            else set_stage t Idle (s <| held ::= cons bytes |>), b)) ;;
    if max_bytes limits <? wrap 64 (b + bytes) then
      atomic (λ t s, Some (set_stage t Passed
                             (s <| bytes_reserved ::= λ b, fetch_sub 64 b bytes |>), tt)) ;;
      sub_inflight ;;
      Ret false
    else Ret true.

(** [Reservation::drop]. *)
Definition reservation_drop (bytes : Z) : prog counters unit :=
  atomic (λ t s,
    if decide (bytes ∈ held s)
    then Some (set_stage t Releasing
                 (s <| bytes_reserved ::= λ b, fetch_sub 64 b bytes |>
                    <| held ::= remove_one bytes |>), tt)
    else None) ;;
  sub_inflight.
End operations.

(** ** Invariant *)

(** What a thread in a stage has added to the two counters, and whether it was
    counted as admitted. *)
Definition adds_n (x : Stage) : Z := match x with Idle => 0 | _ => 1 end.
Definition adds_b (x : Stage) : Z := match x with Oversized b => b | _ => 0 end.
Definition admits (x : Stage) : Z := match x with Idle | Refused => 0 | _ => 1 end.

Section safety.
Context (limits : Limits) (threads_max : nat) (request_max : Z).
Hypothesis limits_wide :
  0 ≤ request_max ∧ 0 ≤ max_inflight limits ∧ 0 ≤ max_bytes limits ∧
  max_inflight limits + Z.of_nat (S threads_max) < 2 ^ 32 ∧
  max_bytes limits + Z.of_nat (S threads_max) * request_max < 2 ^ 64.

#[local] Abbreviation total g s := (sumn (λ i, g (stage s i)) threads_max) (only parsing).

Record limits_inv (s : counters) : Prop := LimitsInv {
  li_n : inflight s = Z.of_nat (length (held s)) + total adds_n s;
  li_b : bytes_reserved s = zsum (held s) + total adds_b s;
  li_admitted : Z.of_nat (length (held s)) + total admits s ≤ max_inflight limits;
  li_sum : zsum (held s) ≤ max_bytes limits;
  li_held : Forall (λ b, 0 ≤ b) (held s);
  li_stage i b : stage s i = Oversized b → 0 ≤ b ≤ request_max;
}.

(** A thread's stage is its own. *)
Definition limits_rely (t : nat) (s s' : counters) : Prop := stage s' t = stage s t.

#[local] Abbreviation safe := (Conc.safe limits_inv limits_rely) (only parsing).

Definition at_stage (t : nat) (x : Stage) (s : counters) : Prop := stage s t = x.

Lemma at_stage_stable t x : stable limits_inv limits_rely t (at_stage t x).
Proof. intros s s' _ _ E. unfold at_stage. by rewrite E. Qed.

Lemma set_stage_guar t x s s0 : stage s = stage s0 → guar limits_rely t s0 (set_stage t x s).
Proof.
  intros E t' Ht. unfold limits_rely, set_stage. simpl. by rewrite decide_False, E by done.
Qed.

Lemma set_stage_total g t x s :
  (t < threads_max)%nat →
  total g (set_stage t x s) = total g s - g (stage s t) + g x.
Proof.
  intros Ht. rewrite (sumn_update (λ i, g (stage s i)) _ t) by
    (done || intros; simpl; by rewrite decide_False).
  simpl. by rewrite decide_True by done.
Qed.

Lemma adds_b_bounds s i : limits_inv s → 0 ≤ adds_b (stage s i) ≤ request_max.
Proof. intros Hi. destruct (stage s i) eqn:E; simpl; try lia. by eapply li_stage. Qed.

Lemma totals s :
  limits_inv s →
  0 ≤ total admits s ≤ total adds_n s ∧ total adds_n s - total admits s ≤ Z.of_nat threads_max ∧
  0 ≤ total adds_b s < 2 ^ 64 - max_bytes limits - request_max ∧ 0 ≤ zsum (held s).
Proof.
  intros Hi.
  assert (0 ≤ total admits s ≤ Z.of_nat threads_max * 1)
    by (apply sumn_bounds; intros i; by destruct (stage s i)).
  assert (total admits s ≤ total adds_n s ≤ total admits s + Z.of_nat threads_max * 1)
    by (apply sumn_within; intros i; by destruct (stage s i)).
  assert (0 ≤ total adds_b s ≤ Z.of_nat threads_max * request_max)
    by (apply sumn_bounds; intros; by apply adds_b_bounds).
  pose proof (zsum_nonneg _ (li_held _ Hi)).
  destruct limits_wide as (_ & _ & _ & _ & Hw).
  rewrite Nat2Z.inj_succ, Z.mul_succ_l in Hw. lia.
Qed.

(** *** The actions *)

(** Thread [t] moves from its stage to [x]: what the counters have to be. *)
Lemma inv_action t x s s1 :
  (t < threads_max)%nat → limits_inv s → stage s1 = stage s →
  inflight s1 = Z.of_nat (length (held s1)) + (total adds_n s - adds_n (stage s t) + adds_n x) →
  bytes_reserved s1 = zsum (held s1) + (total adds_b s - adds_b (stage s t) + adds_b x) →
  Z.of_nat (length (held s1)) + (total admits s - admits (stage s t) + admits x)
    ≤ max_inflight limits →
  zsum (held s1) ≤ max_bytes limits → Forall (λ b, 0 ≤ b) (held s1) →
  0 ≤ adds_b x ≤ request_max →
  limits_inv (set_stage t x s1) ∧ guar limits_rely t s (set_stage t x s1) ∧
  at_stage t x (set_stage t x s1).
Proof.
  intros Ht Hi Es Hn Hb Ha Hsum Hheld Hx. split_and!.
  - split; try rewrite set_stage_total by done; rewrite ?Es; simpl; auto.
    intros i b. rewrite Es. case_decide; [|by apply (li_stage _ Hi)]. by intros ->.
  - by apply set_stage_guar.
  - unfold at_stage. simpl. by rewrite decide_True.
Qed.

(** One action of thread [t] between two of its stages. *)
Lemma safe_action {A} t x (y : A → Stage) (f : nat → counters → option (counters * A)) :
  (∀ s s' r, limits_inv s → stage s t = x → f t s = Some (s', r) →
     limits_inv s' ∧ guar limits_rely t s s' ∧ at_stage t (y r) s') →
  safe t (atomic f) (at_stage t x) (λ r, at_stage t (y r)).
Proof.
  intros Hf. apply safe_atomic; [apply at_stage_stable|intros; apply at_stage_stable|].
  intros s s' r Hi HP E. by apply Hf.
Qed.

Lemma safe_sub_inflight t x :
  (t < threads_max)%nat → x ≠ Idle → adds_b x = 0 →
  safe t sub_inflight (at_stage t x) (λ _, at_stage t Idle).
Proof.
  intros Ht Hx Hb. apply (safe_action t x (λ _, Idle)). intros s s' r Hi HP [= <- _].
  assert (adds_n x = 1 ∧ 0 ≤ admits x) as [Hn Ha] by (destruct x; simpl; done || lia).
  destruct (totals s Hi) as (?&?&?&?).
  assert (adds_n (stage s t) ≤ total adds_n s) as Hp.
  { apply (sumn_ge (λ i, adds_n (stage s i))); [done|]. intros i. destruct (stage s i); simpl; lia. }
  rewrite HP, Hn in Hp.
  apply inv_action; auto; destruct Hi; simpl; rewrite ?HP, ?Hb, ?Hn; auto; try lia.
  unfold fetch_sub. rewrite wrap_id by (split; lia). lia.
Qed.

Lemma safe_try_reserve t b :
  (t < threads_max)%nat → 0 ≤ b ≤ request_max →
  safe t (try_reserve limits b) (at_stage t Idle) (λ _, at_stage t Idle).
Proof.
  intros Ht Hb. unfold try_reserve.
  eapply safe_bind; [apply (safe_action t Idle (λ n, if max_inflight limits <=? n then Refused else Passed))|].
  { intros s s' r Hi HP [= <- <-]. destruct (totals s Hi) as (?&?&?&?).
    destruct (Z.leb_spec (max_inflight limits) (inflight s));
      (apply inv_action; auto; destruct Hi; simpl; rewrite ?HP; simpl; auto; try lia;
       unfold fetch_add; rewrite wrap_id by (split; lia); lia). }
  intros n; cbv beta. destruct (max_inflight limits <=? n).
  { eapply safe_bind; [by apply safe_sub_inflight|]. intros ?; apply safe_ret; [|done].
    apply at_stage_stable. }
  eapply safe_bind; [apply (safe_action t Passed
    (λ p, if max_bytes limits <? wrap 64 (p + b) then Oversized b else Idle))|].
  { intros s s' r Hi HP [= <- <-]. destruct (totals s Hi) as (?&?&?&?).
    pose proof (li_sum _ Hi). pose proof (li_b _ Hi).
    assert (wrap 64 (bytes_reserved s + b) = bytes_reserved s + b) as Ew
      by (apply wrap_id; split; lia).
    unfold fetch_add. rewrite !Ew.
    destruct (Z.ltb_spec (max_bytes limits) (bytes_reserved s + b));
      (apply inv_action; auto; destruct Hi; simpl; rewrite ?HP; simpl; auto; try lia).
    constructor; [lia|done]. }
  intros p; cbv beta. destruct (max_bytes limits <? wrap 64 (p + b)).
  2: { apply safe_ret; [apply at_stage_stable|done]. }
  eapply safe_bind; [apply (safe_action t (Oversized b) (λ _, Passed))|].
  { intros s s' r Hi HP [= <- _]. destruct (totals s Hi) as (?&?&?&?).
    pose proof (li_sum _ Hi). pose proof (li_b _ Hi).
    assert (adds_b (stage s t) ≤ total adds_b s) as Hp.
    { apply (sumn_ge (λ i, adds_b (stage s i))); [done|]. intros i. by apply adds_b_bounds. }
    rewrite HP in Hp. simpl in Hp.
    apply inv_action; auto; destruct Hi; simpl; rewrite ?HP; simpl; auto; try lia.
    unfold fetch_sub. rewrite wrap_id by (split; lia). lia. }
  intros ?; cbv beta. eapply safe_bind; [by apply safe_sub_inflight|].
  intros ?; apply safe_ret; [apply at_stage_stable|done].
Qed.

Lemma safe_reservation_drop t b :
  (t < threads_max)%nat →
  safe t (reservation_drop b) (at_stage t Idle) (λ _, at_stage t Idle).
Proof.
  intros Ht. unfold reservation_drop. eapply safe_bind; [apply (safe_action t Idle (λ _, Releasing))|].
  2: { intros ?. by apply safe_sub_inflight. }
  intros s s' r Hi HP. case_decide as Hin; [|done]. intros [= <- _].
  destruct (totals s Hi) as (?&?&?&?). destruct (remove_one_spec b (held s) Hin) as (Hs & Hl & Hf).
  pose proof (li_sum _ Hi). pose proof (li_b _ Hi). pose proof (li_held _ Hi) as Hh.
  pose proof (zsum_nonneg _ (Hf _ Hh)). pose proof (proj1 (Forall_forall _ _) Hh b Hin) as Hb. cbv beta in Hb.
  apply inv_action; auto; destruct Hi; simpl; rewrite ?HP; simpl; auto; try lia.
  unfold fetch_sub. rewrite wrap_id by (split; lia). lia.
Qed.

(** What threads do with the limits: any sequence of submissions and of
    dropped reservations. *)
Inductive limits_program : prog counters unit → Prop :=
| limits_ret : limits_program (Ret tt)
| limits_reserve b p : 0 ≤ b ≤ request_max → limits_program p →
    limits_program (try_reserve limits b ;; p)
| limits_release b p : limits_program p → limits_program (reservation_drop b ;; p).

Lemma safe_limits_program t p :
  (t < threads_max)%nat → limits_program p → safe t p (at_stage t Idle) (λ _ _, True).
Proof.
  intros Ht. induction 1 as [|b p Hb _ IH|b p _ IH].
  - apply safe_ret; [apply at_stage_stable|done].
  - eapply safe_bind; [by apply safe_try_reserve|]. done.
  - eapply safe_bind; [by apply safe_reservation_drop|]. done.
Qed.

Lemma limits_inv_new : limits_inv counters_new.
Proof.
  assert (∀ n, sumn (λ _, 0) n = 0) as E by (induction n as [|n IH]; simpl; lia).
  split; simpl; rewrite ?E; try done; lia.
Qed.

(** What the invariant says of the reservations that exist. *)
Lemma limits_inv_bounds s :
  limits_inv s →
  Z.of_nat (length (held s)) ≤ max_inflight limits ∧ zsum (held s) ≤ max_bytes limits ∧
  Z.of_nat (length (held s)) ≤ inflight s ∧ zsum (held s) ≤ bytes_reserved s.
Proof. intros Hi. destruct (totals _ Hi) as (?&?&?&?). destruct Hi. lia. Qed.

(** What the counters are above that: one attempt per thread at most. *)
Lemma limits_inv_counters s :
  limits_inv s →
  inflight s ≤ Z.of_nat (length (held s)) + Z.of_nat threads_max ∧
  bytes_reserved s ≤ zsum (held s) + Z.of_nat threads_max * request_max.
Proof.
  intros Hi. rewrite (li_n _ Hi), (li_b _ Hi).
  assert (0 ≤ total adds_n s ≤ Z.of_nat threads_max * 1)
    by (apply sumn_bounds; intros i; by destruct (stage s i)).
  assert (0 ≤ total adds_b s ≤ Z.of_nat threads_max * request_max)
    by (apply sumn_bounds; intros; by apply adds_b_bounds).
  lia.
Qed.

(** C13: the ceilings hold under every interleaving.  Suppose the ceilings leave
    room below 2^32 and 2^64 for one attempt of every thread ([limits_wide]).
    However submissions and completions race on the two counters, the
    reservations that exist never number more than [max_inflight], and the bytes
    they stand for never exceed [max_bytes].  Neither counter ever wraps, in
    either direction: each is at least what is held and above it by at most one
    attempt per thread, and so within its width. *)
Theorem limits_are_never_exceeded ts c :
  Forall limits_program ts → (length ts ≤ threads_max)%nat →
  reachable (Config counters_new ts) c →
  Z.of_nat (length (held (shared c))) ≤ max_inflight limits ∧
  zsum (held (shared c)) ≤ max_bytes limits ∧
  (Z.of_nat (length (held (shared c))) ≤ inflight (shared c) ≤
     Z.of_nat (length (held (shared c))) + Z.of_nat threads_max) ∧
  (zsum (held (shared c)) ≤ bytes_reserved (shared c) ≤
     zsum (held (shared c)) + Z.of_nat threads_max * request_max) ∧
  in_width 32 (inflight (shared c)) ∧ in_width 64 (bytes_reserved (shared c)).
Proof.
  intros Hts Hlen Hr.
  assert (Hi : limits_inv (shared c)).
  { refine (proj1 (safe_sound limits_inv limits_rely _ _ Hr _)). split; [apply limits_inv_new|].
    intros i p Hp. exists (at_stage i Idle). split; [done|].
    apply safe_limits_program; [|by eapply Forall_lookup_1].
    apply lookup_lt_Some in Hp. simpl in Hp. lia. }
  destruct (limits_inv_bounds _ Hi) as (?&?&?&?). destruct (limits_inv_counters _ Hi).
  pose proof (zsum_nonneg _ (li_held _ Hi)). destruct limits_wide as (?&?&?&?&Hw).
  rewrite Nat2Z.inj_succ, Z.mul_succ_l in Hw. unfold in_width. split_and!; lia.
Qed.
End safety.

(** ** Without interference *)

Lemma run_try_reserve t limits b s :
  in_width 32 (inflight s) → in_width 64 (bytes_reserved s + b) → in_width 64 (bytes_reserved s) →
  inflight s < 2 ^ 32 - 1 →
  ∃ s', run t (try_reserve limits b) s =
      Some (s', bool_decide (inflight s < max_inflight limits ∧
                             bytes_reserved s + b ≤ max_bytes limits)) ∧
    if bool_decide (inflight s < max_inflight limits ∧ bytes_reserved s + b ≤ max_bytes limits)
    then inflight s' = inflight s + 1 ∧ bytes_reserved s' = bytes_reserved s + b ∧
         held s' = b :: held s
    else inflight s' = inflight s ∧ bytes_reserved s' = bytes_reserved s ∧ held s' = held s.
Proof.
  intros Hn Hb Hb0 Hlt. unfold try_reserve. rewrite run_bind. simpl (run t (atomic _) s). cbv iota.
  destruct (Z.leb_spec (max_inflight limits) (inflight s)) as [Hi|Hi].
  { rewrite bool_decide_eq_false_2 by lia. eexists. split; [reflexivity|]. simpl.
    by rewrite fetch_add_sub. }
  rewrite run_bind. simpl (run t (atomic _) _). cbv iota. rewrite (wrap_id 64 (bytes_reserved s + b)) by done.
  destruct (Z.ltb_spec (max_bytes limits) (bytes_reserved s + b)) as [Hm|Hm].
  - rewrite bool_decide_eq_false_2 by lia. eexists. split; [reflexivity|]. simpl.
    by rewrite !fetch_add_sub.
  - rewrite bool_decide_eq_true_2 by lia. eexists. split; [reflexivity|]. simpl.
    split_and!; [unfold fetch_add; apply wrap_id; destruct Hn; split; lia|by apply wrap_id|done].
Qed.

Lemma run_reservation_drop t b s :
  b ∈ held s →
  ∃ s', run t (reservation_drop b) s = Some (s', tt) ∧
    inflight s' = fetch_sub 32 (inflight s) 1 ∧ bytes_reserved s' = fetch_sub 64 (bytes_reserved s) b ∧
    held s' = remove_one b (held s).
Proof. intros Hb. unfold reservation_drop. simpl. rewrite decide_True by done. eexists. by split. Qed.

(** A reservation is granted exactly when both ceilings allow it; a refusal
    leaves both counters as they were, and dropping the reservation restores
    them, so no way out of a request can leak either. *)
Theorem reserve_then_drop_restores t limits b s :
  in_width 32 (inflight s) → in_width 64 (bytes_reserved s + b) → in_width 64 (bytes_reserved s) →
  inflight s < 2 ^ 32 - 1 →
  ∃ s', run t (try_reserve limits b) s =
      Some (s', bool_decide (inflight s < max_inflight limits ∧
                             bytes_reserved s + b ≤ max_bytes limits)) ∧
    if bool_decide (inflight s < max_inflight limits ∧ bytes_reserved s + b ≤ max_bytes limits)
    then
      inflight s' = inflight s + 1 ∧ bytes_reserved s' = bytes_reserved s + b ∧
      ∃ s'', run t (reservation_drop b) s' = Some (s'', tt) ∧
        inflight s'' = inflight s ∧ bytes_reserved s'' = bytes_reserved s ∧ held s'' = held s
    else inflight s' = inflight s ∧ bytes_reserved s' = bytes_reserved s ∧ held s' = held s.
Proof.
  intros Hn Hb Hb0 Hlt. destruct (run_try_reserve t limits b s) as (s' & E & Hs); [done..|].
  exists s'. split; [exact E|]. destruct (bool_decide _); [|done]. destruct Hs as (E1 & E2 & E3).
  split_and!; [done|done|].
  destruct (run_reservation_drop t b s') as (s'' & Er & F1 & F2 & F3); [rewrite E3; by left|].
  exists s''. split; [exact Er|]. rewrite F1, F2, F3, E1, E2, E3. unfold fetch_sub. simpl.
  rewrite Z.eqb_refl. split_and!; [|by rewrite Z.add_simpl_r, wrap_id|done].
  by rewrite Z.add_simpl_r, wrap_id.
Qed.

(** ** Witnesses *)

Definition small_limits : Limits := {| max_inflight := 1; max_bytes := 100 |}.

(** Two threads race for the single slot; the first releases it. *)
Definition racing : list (prog counters unit) :=
  [try_reserve small_limits 60 ;; reservation_drop 60 ;; Ret tt;
   try_reserve small_limits 60 ;; Ret tt].

Definition race_start : config counters := Config counters_new racing.
Definition race_end : config counters := default race_start (exec [0; 1; 0; 1]%nat race_start).

Lemma race_end_reachable : reachable race_start race_end.
Proof.
  unfold race_end. destruct (exec _ race_start) eqn:E; [by eapply exec_reachable|apply rtc_refl].
Qed.

Lemma limits_are_never_exceeded_witness :
  held (shared race_end) = [60] ∧ Z.of_nat (length (held (shared race_end))) ≤ 1 ∧
  zsum (held (shared race_end)) ≤ 100 ∧ inflight (shared race_end) ≤ 3.
Proof.
  split; [vm_compute; reflexivity|].
  destruct (limits_are_never_exceeded small_limits 2 60) with (ts := racing) (c := race_end)
    as (H1 & H2 & [_ H3] & _).
  - vm_compute. intuition discriminate.
  - repeat constructor; discriminate.
  - repeat constructor.
  - exact race_end_reachable.
  - split; [exact H1|]. split; [exact H2|]. vm_compute. vm_compute in H3. exact H3.
Defined.

Lemma reserve_then_drop_restores_witness :
  ∃ s', run 0 (try_reserve small_limits 60) counters_new = Some (s', true) ∧
    ∃ s'', run 0 (reservation_drop 60) s' = Some (s'', tt) ∧ inflight s'' = 0 ∧ bytes_reserved s'' = 0.
Proof.
  destruct (reserve_then_drop_restores 0 small_limits 60 counters_new) as (s' & E & Hs).
  - split; vm_compute; congruence.
  - split; vm_compute; congruence.
  - split; vm_compute; congruence.
  - vm_compute. reflexivity.
  - rewrite bool_decide_eq_true_2 in E by (split; vm_compute; congruence).
    rewrite bool_decide_eq_true_2 in Hs by (split; vm_compute; congruence).
    exists s'. split; [exact E|]. destruct Hs as (_ & _ & s'' & E2 & H1 & H2 & _).
    exists s''. split; [exact E2|]. split; [exact H1|exact H2].
Defined.
