(* ===== verification/Executor.v ===== *)
(** * The bridge executor: a FIFO of ready slots

    Source: [lib/src/client/executor.rs].

    [Runnable] is the trait: running a slice changes the world (the slots, the
    callbacks) and says whether the slot goes back to the queue.  One worker is
    [worker_turn] again and again; between its turns other threads schedule
    slots, change the world or shut the executor down, so an execution is a list
    of [action]s.
    [ran] is ghost: the slots in the order they were run. *)

From S2P Require Import Prelude Conc Ledger Abi Bridge.

Open Scope prog_scope.

(** ** Data *)

(** [Runnable::run_slice] for a slot, given its number; [None] is a callback
    that does not return. *)
Class Runnable (W : Type) := run_slice_of : nat → nat → W → option (W * bool).

Section executor.
Context {W : Type} {R : Runnable W}.

Record executor := Executor {
  queue_ready : list nat;
  stopped : bool;
  world : W;
  ran : list nat;
}.

#[export] Instance executor_eta : Settable executor := λ s,
  Executor (queue_ready s) (stopped s) (world s) (ran s).

Definition executor_new (w : W) : executor := Executor [] false w [].

(** ** Operations *)

Definition schedule (slot : nat) (e : executor) : executor :=
  e <| queue_ready ::= λ q, q ++ [slot] |>.

(** [shutdown] up to the joins: workers see the flag. *)
Definition shutdown (e : executor) : executor := e <| stopped := true |>.

Inductive Turn :=
| Returned                (* the worker thread is gone *)
| Waits                   (* on the condition variable *)
| Stuck                   (* inside a callback that does not return *)
| Ran (e : executor).

(** One iteration of [worker_loop]. *)
Definition worker_iteration (e : executor) : Turn :=
  if stopped e then Returned
  else
    match queue_ready e with
    | [] => if stopped e then Returned else Waits
    | slot :: q =>
        match run_slice_of slot SLICE (world e) with
        | None => Stuck
        | Some (w, more) =>
            Ran (Executor (if more then q ++ [slot] else q) (stopped e) w (ran e ++ [slot]))
        end
    end.

(** What happens around one worker; other threads may leave the world as any [w]. *)
Inductive action := Schedule (slot : nat) | WorkerTurn | Shutdown | Outside (w : W).

Definition act (a : action) (e : executor) : option executor :=
  match a with
  | Schedule slot => Some (schedule slot e)
  | Shutdown => Some (shutdown e)
  | Outside w => Some (e <| world := w |>)
  | WorkerTurn => match worker_iteration e with Ran e => Some e | _ => None end
  end.

Fixpoint acts (l : list action) (e : executor) : option executor :=
  match l with
  | [] => Some e
  | a :: l => match act a e with Some e => acts l e | None => None end
  end.

Fixpoint turns (l : list action) : nat :=
  match l with
  | [] => 0
  | WorkerTurn :: l => S (turns l)
  | _ :: l => turns l
  end.

(** ** First come, first served *)

Lemma iteration_ran e e' :
  worker_iteration e = Ran e' →
  ∃ slot q back, queue_ready e = slot :: q ∧ queue_ready e' = q ++ back ∧
    ran e' = ran e ++ [slot] ∧ stopped e' = stopped e.
Proof.
  unfold worker_iteration. destruct (stopped e); [done|].
  destruct (queue_ready e) as [|slot q] eqn:Eq; [done|].
  destruct (run_slice_of slot SLICE (world e)) as [[w [|]]|]; intros [= <-];
    exists slot, q; [exists [slot]|exists []]; simpl; by rewrite ?app_nil_r.
Qed.

(** What is run is what was queued, followed by what was queued since. *)
Lemma acts_fifo l e e' :
  acts l e = Some e' →
  ∃ done added, ran e' = ran e ++ done ∧ length done = turns l ∧
    queue_ready e ++ added = done ++ queue_ready e'.
Proof.
  revert e. induction l as [|a l IH]; intros e E; simpl in E.
  { injection E as <-. exists [], []. by rewrite !app_nil_r. }
  destruct a as [slot| | |w]; simpl in E.
  - destruct (IH _ E) as (d & x & H1 & H2 & H3). simpl in *.
    exists d, (slot :: x). split_and!; [done|done|]. by rewrite <- H3, <- app_assoc.
  - destruct (worker_iteration e) as [| | |e1] eqn:Ei; try done.
    destruct (iteration_ran _ _ Ei) as (slot & q & back & Eq & Eq' & Er & _).
    destruct (IH _ E) as (d & x & H1 & H2 & H3). exists (slot :: d), (back ++ x).
    split_and!; [by rewrite H1, Er, <- app_assoc|simpl; by rewrite H2|].
    rewrite Eq. simpl. by rewrite <- H3, Eq', <- app_assoc.
  - destruct (IH _ E) as (d & x & H1 & H2 & H3). by exists d, x.
  - destruct (IH _ E) as (d & x & H1 & H2 & H3). by exists d, x.
Qed.

(** A callback that does not return holds its worker up. *)
Definition held_up (l : list action) (e : executor) : Prop :=
  ∃ l1 l2 e1, l = l1 ++ WorkerTurn :: l2 ∧ acts l1 e = Some e1 ∧ worker_iteration e1 = Stuck.

(** Enough is queued and nobody shuts down: every turn runs, unless a callback
    does not return. *)
Lemma acts_total l e :
  stopped e = false → Shutdown ∉ l → (turns l ≤ length (queue_ready e))%nat →
  is_Some (acts l e) ∨ held_up l e.
Proof.
  revert e. induction l as [|a l IH]; intros e Hs Hl Hn; simpl; [eauto|].
  apply not_elem_of_cons in Hl as [Ha Hl].
  assert (Hnext : ∀ e1, act a e = Some e1 → is_Some (acts l e1) ∨ held_up l e1 →
    is_Some (match act a e with Some e => acts l e | None => None end) ∨ held_up (a :: l) e).
  { intros e1 E [Hsome|(l1 & l2 & e2 & -> & E1 & E2)]; [rewrite E; by left|]. right.
    exists (a :: l1), l2, e2. split_and!; [done| |done]. simpl. by rewrite E. }
  destruct a as [slot| | |w]; [| |done|].
  - eapply Hnext; [reflexivity|]. apply IH; [done|done|]. simpl in *. rewrite length_app. lia.
  - destruct (worker_iteration e) as [| | |e1] eqn:Ei.
    + unfold worker_iteration in Ei. rewrite Hs in Ei. repeat case_match; done.
    + unfold worker_iteration in Ei. rewrite Hs in Ei. simpl in Hn.
      destruct (queue_ready e); [simpl in Hn; lia|]. by repeat case_match.
    + right. by exists [], l, e.
    + destruct (iteration_ran _ _ Ei) as (slot & q & back & Eq & Eq' & _ & Es).
      eapply (Hnext e1); [simpl; by rewrite Ei|]. apply IH; [congruence|done|].
      rewrite Eq in Hn. simpl in Hn. rewrite Eq', length_app. lia.
  - eapply Hnext; [reflexivity|]. by apply IH.
Qed.

Lemma taken_first {A} (pre : list A) slot post added d rest :
  (pre ++ slot :: post) ++ added = d ++ rest → length d = S (length pre) → d = pre ++ [slot].
Proof.
  intros Hd Hlen. assert (d = take (length d) (d ++ rest)) as -> by (by rewrite take_app_length).
  rewrite <- Hd, Hlen. change (pre ++ slot :: post) with (pre ++ [slot] ++ post).
  rewrite !app_assoc, <- (app_assoc _ post). apply take_app_length'. rewrite length_app. simpl. lia.
Qed.

(** C35: no ready slot starves.  With one worker and nobody shutting down, a slot
    with [n] slots before it in the ready queue is run by the worker's turn number
    [n + 1], after exactly those slots in order, however often the others ask to
    go on and whatever other threads schedule or do to the slots in the meantime;
    unless a callback of a slot whose turn comes does not return, which holds the
    worker up in that turn. *)
Theorem ready_slot_is_run_in_turn l e pre slot post :
  queue_ready e = pre ++ slot :: post → stopped e = false → Shutdown ∉ l →
  turns l = S (length pre) →
  (∃ e', acts l e = Some e' ∧ ran e' = ran e ++ pre ++ [slot]) ∨ held_up l e.
Proof.
  intros Hq Hs Hl Ht. destruct (acts_total l e Hs Hl) as [[e' E]|Hh]; [|left|by right].
  { rewrite Hq, length_app, Ht. simpl. lia. }
  exists e'. split; [done|]. destruct (acts_fifo l e e' E) as (d & x & Er & Hlen & Hd).
  rewrite Er. f_equal. rewrite Hq in Hd. eapply taken_first; [exact Hd|congruence].
Qed.
End executor.
Arguments executor : clear implicits.
Arguments action : clear implicits.
Arguments Schedule {W}.
Arguments WorkerTurn {W}.
Arguments Shutdown {W}.
Arguments Outside {W}.

(** ** The slots of the bridge are runnable *)

#[export] Instance slots_runnable : Runnable (gmap nat bridge) := λ slot budget w,
  match w !! slot with
  | Some s =>
      match run 0 (run_slice budget) s with
      | Some (s', more) => Some (<[slot := s']> w, more)
      | None => None
      end
  | None => Some (w, false)
  end.

(** *** A slice returns when its callbacks do *)

(** [p] returns when [n] answers of callbacks are to come, and uses no more. *)
Definition returns {A} (n : nat) (p : prog bridge A) : Prop :=
  ∀ t s, (n ≤ length (script s))%nat →
    ∃ s' a, run t p s = Some (s', a) ∧ (length (script s) ≤ length (script s') + n)%nat.

Lemma returns_ret {A} (a : A) : returns 0 (Ret a).
Proof. intros t s _. exists s, a. split; [done|lia]. Qed.

Lemma returns_less {A} n m (p : prog bridge A) : (n ≤ m)%nat → returns n p → returns m p.
Proof.
  intros Hn Hp t s Hs. destruct (Hp t s) as (s' & a & E & Hl); [lia|]. exists s', a. split; [done|lia].
Qed.

Lemma returns_bind {A B} n m (p : prog bridge A) (g : A → prog bridge B) :
  returns n p → (∀ a, returns m (g a)) → returns (n + m) (pbind p g).
Proof.
  intros Hp Hg t s Hs. destruct (Hp t s) as (s1 & a & E1 & H1); [lia|].
  destruct (Hg a t s1) as (s2 & b & E2 & H2); [lia|]. exists s2, b.
  rewrite (run_bind_Some _ _ _ _ _ _ E1). split; [done|lia].
Qed.

Lemma returns_then {A B} n (p : prog bridge A) (g : A → prog bridge B) :
  returns 0 p → (∀ a, returns n (g a)) → returns n (pbind p g).
Proof. exact (returns_bind 0 n p g). Qed.

Lemma returns_load {T} (get : bridge → T) : returns 0 (load get).
Proof. intros t s _. eexists s, _. split; [done|lia]. Qed.
Lemma returns_modify f : (∀ s, script (f s) = script s) → returns 0 (modify f).
Proof. intros Hf t s _. eexists (f s), tt. split; [done|rewrite Hf; lia]. Qed.
Lemma returns_fetch {T} (f : bridge → bridge * T) :
  (∀ s, script (f s).1 = script s) → returns 0 (fetch f).
Proof.
  intros Hf t s _. specialize (Hf s). destruct (f s) as [s' a] eqn:E. exists s', a.
  unfold fetch, atomic. simpl. rewrite E. split; [done|]. simpl in Hf. rewrite Hf. lia.
Qed.

#[local] Ltac returns_tac :=
  repeat first
    [ apply returns_ret | apply returns_load | solve [auto]
    | apply returns_modify; solve [done]
    | apply returns_fetch; solve [intros ?; simpl; repeat case_match; done]
    | apply returns_then; [|intros ?]
    | case_match ].

Lemma returns_claim d : returns 0 (claim d).
Proof.
  intros t s _. unfold claim, atomic. simpl. destruct (state s =? RUNNING); eexists _, _; (split; [done|simpl; lia]).
Qed.

Lemma returns_set_guard g : returns 0 (set_pause_guard g).
Proof. unfold set_pause_guard, guard_drop. returns_tac. Qed.
#[local] Hint Resolve returns_claim returns_set_guard : core.

Lemma returns_pausing : returns 0 enter_pause ∧ returns 0 leave_pause.
Proof. unfold enter_pause, leave_pause, guard_new. split; returns_tac. Qed.

Lemma returns_settle_slot x d : returns 0 (settle_slot x d).
Proof.
  destruct returns_pausing. unfold settle_slot, reschedule, schedule_slot, ex_schedule, add_permits_bump.
  returns_tac.
Qed.
#[local] Hint Resolve returns_settle_slot : core.

Lemma returns_deliver e : returns 1 (deliver e).
Proof.
  assert (Hi : returns 1 (invoke e)).
  { intros t s Hs. unfold invoke, atomic. simpl. destruct (script s); simpl in Hs; [lia|].
    eexists _, _. split; [done|simpl; lia]. }
  unfold deliver. destruct e; [apply (returns_bind 1 0); [done|intros; apply returns_ret]|].
  apply returns_then; [apply returns_load|]. intros [|].
  - apply (returns_bind 1 0); [done|intros; apply returns_ret].
  - apply (returns_less 0); [lia|apply returns_ret].
Qed.

Lemma returns_deliver_loop n : returns n (deliver_loop n).
Proof.
  destruct returns_pausing as [Hp _]. induction n as [|n IH]; cbn [deliver_loop]; [apply returns_ret|].
  assert (Hn : ∀ {A} (p : prog bridge A), returns 0 p → returns (S n) p) by (intros A p; apply returns_less; lia).
  assert (IH' : returns (S n) (deliver_loop n)) by (eapply returns_less; [|exact IH]; lia).
  apply returns_then; [apply returns_load|]. intros [|]; [apply Hn, returns_ret|].
  apply returns_then; [unfold pop_front; returns_tac|]. intros [e|]; [|apply Hn, returns_ret].
  apply returns_then; [unfold add_permits_popped; returns_tac|]. intros _.
  apply returns_then; [apply returns_load|]. intros [|]; [done|].
  apply returns_then; [unfold set_in_callback; returns_tac|]. intros _.
  apply (returns_bind 1 n); [apply returns_deliver|]. intros action.
  apply returns_then; [unfold set_in_callback; returns_tac|]. intros _.
  assert (Hz : ∀ {A} (p : prog bridge A), returns 0 p → returns n p) by (intros A p; apply returns_less; lia).
  unfold clear_permit. destruct action as [a|].
  - destruct (a =? HYPER4K_CHUNK_CANCEL); [apply Hz; returns_tac|].
    destruct (a =? HYPER4K_CHUNK_PAUSE).
    + apply returns_then; [returns_tac|]. intros [|]; [done|]. apply Hz. returns_tac.
    + apply returns_then; [returns_tac|]. by intros _.
  - apply returns_then; [returns_tac|]. by intros _.
Qed.

Lemma returns_run_slice n : returns n (run_slice n).
Proof.
  assert (Hz : ∀ {A} (p : prog bridge A), returns 0 p → returns n p) by (intros A p; apply returns_less; lia).
  unfold run_slice. apply returns_then.
  { intros t s _. unfold atomic. simpl. destruct (running s); eexists _, _; (split; [done|simpl; lia]). }
  intros [|]; [apply Hz; returns_tac|]. apply (returns_less (n + 0)); [lia|].
  apply returns_bind; [|intros ?; returns_tac].
  unfold run_owned. apply returns_then; [returns_tac|]. intros _.
  apply returns_then; [apply returns_load|]. intros [|]; [apply Hz, returns_ret|].
  apply (returns_less (n + 0)); [lia|]. apply returns_bind; [apply returns_deliver_loop|]. intros [more|]; [apply returns_ret|].
  unfold finish_if_done, deliver_done, leave. returns_tac.
Qed.

(** Every slot has [k] answers of its callbacks to come. *)
Definition answers_left (k : nat) (w : gmap nat bridge) : Prop :=
  ∀ slot s, w !! slot = Some s → (k ≤ length (script s))%nat.

Lemma slots_run slot k w :
  answers_left (SLICE + k) w →
  ∃ w' more, run_slice_of slot SLICE w = Some (w', more) ∧ answers_left k w'.
Proof.
  intros Hw. unfold run_slice_of, slots_runnable. destruct (w !! slot) as [s|] eqn:E.
  - destruct (returns_run_slice SLICE 0%nat s) as (s' & more & -> & Hl); [specialize (Hw _ _ E); lia|].
    exists (<[slot := s']> w), more. split; [done|].
    intros slot' s1 [[<- <-]|[_ E']]%lookup_insert_Some; [specialize (Hw _ _ E)|specialize (Hw _ _ E')]; lia.
  - exists w, false. split; [done|]. intros slot' s E'. specialize (Hw _ _ E'). lia.
Qed.

(** A worker on slots whose callbacks answer is never held up. *)
Lemma slots_not_held_up l (e : executor (gmap nat bridge)) :
  (∀ w, Outside w ∈ l → answers_left (turns l * SLICE) w) → answers_left (turns l * SLICE) (world e) →
  ¬ held_up l e.
Proof.
  intros Hout Hw (l1 & l2 & e1 & -> & E & Hs). revert e Hout Hw E.
  assert (Hless : ∀ k k' w, (k' ≤ k)%nat → answers_left k w → answers_left k' w).
  { intros k k' w Hk Ha slot s Es. specialize (Ha slot s Es). lia. }
  induction l1 as [|a l1 IH]; intros e Hout Hw E.
  - injection E as <-. cbn [app turns] in Hw. unfold worker_iteration in Hs.
    destruct (stopped e); [done|]. destruct (queue_ready e) as [|slot q]; [done|].
    destruct (slots_run slot (turns l2 * SLICE) (world e)) as (w & more & Er & _); [exact Hw|].
    by rewrite Er in Hs.
  - cbn [acts] in E. destruct (act a e) as [e'|] eqn:Ea; [|done].
    assert (Hle : (turns (l1 ++ WorkerTurn :: l2) ≤ turns ((a :: l1) ++ WorkerTurn :: l2))%nat)
      by (destruct a; simpl; lia).
    apply (IH e'); [| |done].
    { intros w Hin. eapply Hless; [|apply Hout; by right]. by apply Nat.mul_le_mono_r. }
    destruct a as [slot| | |w]; simpl in Ea; [injection Ea as <-; exact Hw| |injection Ea as <-; exact Hw|].
    + unfold worker_iteration in Ea. destruct (stopped e); [done|].
      destruct (queue_ready e) as [|slot q]; [done|].
      destruct (slots_run slot (turns (l1 ++ WorkerTurn :: l2) * SLICE) (world e)) as (w & more & Er & Ha);
        [exact Hw|]. rewrite Er in Ea. by injection Ea as <-.
    + injection Ea as <-. apply (Hout w). by left.
Qed.

(** ** Witness: two requests, the first with more events than a slice *)

Module Slots.
Definition slot_with (n : nat) : bridge :=
  (spawn SLICE true (replicate 40 0)) <| queue := replicate n (Chunk [1]) |>.
Definition two : executor (gmap nat bridge) :=
  Executor [1; 2]%nat false (<[1%nat := slot_with 9]> (<[2%nat := slot_with 1]> ∅)) [].
End Slots.
Import Slots.

Lemma ready_slot_is_run_in_turn_witness :
  ∃ e', acts [WorkerTurn; Schedule 9%nat; WorkerTurn] two = Some e' ∧ ran e' = [1; 2]%nat.
Proof.
  destruct (ready_slot_is_run_in_turn [WorkerTurn; Schedule 9%nat; WorkerTurn] two [1%nat] 2%nat []) as [H|H].
  - reflexivity.
  - reflexivity.
  - set_solver.
  - reflexivity.
  - exact H.
  - exfalso. revert H. apply slots_not_held_up; [set_solver|].
    intros slot s E. unfold two in E. cbn [world] in E.
    apply lookup_insert_Some in E as [[_ <-]|[_ E]]; [vm_compute; lia|].
    apply lookup_insert_Some in E as [[_ <-]|[_ E]]; [vm_compute; lia|]. by rewrite lookup_empty in E.
Defined.
