(* ===== verification/Workers.v ===== *)
(** * The executor's threads: mutex, condition variable, shutdown

    Source: [BridgeExecutor::new], [schedule], [shutdown] and [worker_loop] of
    [lib/src/client/executor.rs], at the granularity of the lock and the
    condition variable (which [Executor] abstracts from).

    [ex_waiting] are the threads asleep on the condition variable.  A wait
    releases the lock and falls asleep in one action, and goes on when it has
    been notified and the lock is free; spurious wake-ups are not assumed.
    [again slot] is whether running a slice of [slot] asks for more. *)

From S2P Require Import Prelude Conc.

Open Scope prog_scope.

Record exec_state := ExecState {
  ex_ready : list nat;
  ex_lock : option nat;
  ex_waiting : list nat;
  ex_stopped : bool;
  (* threads that have returned from [worker_loop] *)
  ex_exited : list nat;
  (* ghost: slots in the order they were run *)
  ex_ran : list nat;
}.

#[export] Instance exec_state_eta : Settable exec_state := λ s,
  ExecState (ex_ready s) (ex_lock s) (ex_waiting s) (ex_stopped s) (ex_exited s) (ex_ran s).

Definition exec_new : exec_state := ExecState [] None [] false [] [].

(** ** Primitives *)

Definition lock : prog exec_state unit :=
  atomic (λ t s, match ex_lock s with None => Some (s <| ex_lock := Some t |>, tt) | Some _ => None end).
Definition unlock : prog exec_state unit := modify (λ s, s <| ex_lock := None |>).

Definition notify_one : prog exec_state unit := modify (λ s, s <| ex_waiting ::= tail |>).
Definition notify_all : prog exec_state unit := modify (λ s, s <| ex_waiting := [] |>).

(** [cv.wait(q)]. *)
Definition cv_wait : prog exec_state unit :=
  atomic (λ t s, Some (s <| ex_lock := None |> <| ex_waiting ::= (λ l, l ++ [t]) |>, tt)) ;;
  atomic (λ t s,
    if decide (t ∈ ex_waiting s) then None
    else match ex_lock s with
         | None => Some (s <| ex_lock := Some t |>, tt)
         | Some _ => None
         end).

(** ** Operations *)

Definition schedule_ready (slot : nat) : prog exec_state unit :=
  lock ;;
  modify (λ s, s <| ex_ready ::= (λ q, q ++ [slot]) |>) ;;
  notify_one ;;
  unlock.

(** Joining worker [w]: a step that can be taken once it has returned. *)
Fixpoint join_all (ws : list nat) : prog exec_state unit :=
  match ws with
  | [] => Ret tt
  | w :: ws =>
      atomic (λ _ s, if decide (w ∈ ex_exited s) then Some (s, tt) else None) ;;
      join_all ws
  end.

Definition shutdown_workers (ws : list nat) : prog exec_state unit :=
  modify (λ s, s <| ex_stopped := true |>) ;;
  notify_all ;;
  join_all ws.

Definition pop_ready : prog exec_state (option nat) :=
  fetch (λ s, match ex_ready s with
              | [] => (s, None)
              | x :: q => (s <| ex_ready := q |>, Some x)
              end).

(** The inner loop, holding the lock: a slot, or [None] once stopped.  [n] bounds
    the number of times the thread is woken for nothing. *)
Fixpoint next_slot (n : nat) : prog exec_state (option nat) :=
  x <- pop_ready ;;
  match x with
  | Some slot => Ret (Some slot)
  | None =>
      st <- load ex_stopped ;;
      if st : bool then Ret None
      else
        cv_wait ;;
        match n with
        | O => Ret None
        | S n => next_slot n
        end
  end.

Definition return_from_loop : prog exec_state unit :=
  atomic (λ t s, Some (s <| ex_exited ::= (λ l, l ++ [t]) |>, tt)).

Section workers.
Variable again : nat → bool.

(** [worker_loop] for at most [n] slots. *)
Fixpoint worker_loop (n : nat) : prog exec_state unit :=
  match n with
  | O => Ret tt
  | S n =>
      st <- load ex_stopped ;;
      if st : bool then return_from_loop
      else
        lock ;;
        slot <- next_slot n ;;
        unlock ;;
        match slot with
        | None => return_from_loop
        | Some slot =>
            modify (λ s, s <| ex_ran ::= (λ l, l ++ [slot]) |>) ;;
            (if again slot then schedule_ready slot else Ret tt) ;;
            worker_loop n
        end
  end.
End workers.

(** ** A lost wake-up *)

(** [shutdown] stores the flag and notifies without the lock.  A worker that has
    found the queue empty and the flag unset, and has not fallen asleep yet,
    misses both: it sleeps for ever, and the join in [shutdown] (which
    [hyper4k_client_free] runs) never returns. *)
Theorem shutdown_loses_a_wakeup :
  ∃ c', reachable (Config exec_new [worker_loop (λ _, false) 3; shutdown_workers [0%nat]]) c' ∧
    quiescent c' ∧ ex_stopped (shared c') = true ∧ ex_waiting (shared c') = [0%nat] ∧
    finished_thread 1 c' = false.
Proof.
  set (c := Config exec_new _).
  set (test := λ c' : config exec_state,
    all_blocked 0 (threads c') (shared c') && ex_stopped (shared c') &&
    bool_decide (ex_waiting (shared c') = [0%nat]) && negb (finished_thread 1 c')).
  destruct (exec_test_reachable (replicate 4 0%nat ++ replicate 2 1%nat ++ [0%nat]) c test)
    as (c' & Hr & Ht); [vm_compute; reflexivity|].
  exists c'. subst test. cbv beta in Ht.
  apply andb_true_iff in Ht as [[[Hq Hs]%andb_true_iff Hw]%andb_true_iff Hf].
  split_and!; [done|by apply quiescent_test|done|by apply bool_decide_eq_true_1 in Hw|].
  by apply negb_true_iff.
Qed.

(** Waking a worker for work is not affected: with the lock held over the push,
    a sleeping worker runs the slot. *)
Example scheduled_slot_is_run :
  ∃ c', reachable (Config exec_new [worker_loop (λ _, false) 3; schedule_ready 7]) c' ∧
    bool_decide (ex_ran (shared c') = [7%nat]) = true.
Proof.
  apply (exec_test_reachable (replicate 5 0%nat ++ replicate 4 1%nat ++ replicate 4 0%nat)).
  vm_compute. reflexivity.
Qed.
