(* ===== verification/Pool.v ===== *)
(** * The connection pool

    Source: [lib/src/client/pool.rs].

    One value of [pool] is the shared state of a [Pool].  A [ConnEntry] is named
    by its id; its sender belongs to hyper, and whether the peer has closed it
    ([is_closed]) is up to the environment: [peer_closes] can happen at any
    time, once.  A dial is an argument of [acquire]: what the connector answers.
    Each function is a [prog], one action per access.

    A [Lease] is owned: it is dropped once, by whoever holds it.  The ghost
    fields [out] and [returning] count the leases of an entry that exist and
    that are being dropped; an action on a lease can only be taken while the
    lease exists.  [aborted] lists the drivers that shutdown aborted and joined. *)

From S2P Require Import Prelude Conc Abi.

Open Scope prog_scope.

(** ** Data *)

Record PoolKey := Key { scheme : bytes; host : bytes; port : Z }.

#[export] Instance PoolKey_eq_dec : EqDecision PoolKey.
Proof. solve_decision. Defined.
#[export] Instance PoolKey_countable : Countable PoolKey.
Proof.
  refine (inj_countable' (λ k, (scheme k, host k, port k)) (λ x, Key x.1.1 x.1.2 x.2) _).
  by intros [].
Defined.

(** [PoolKey::new] lower-cases scheme and host. *)
Definition to_ascii_lowercase (b : bytes) : bytes :=
  map (λ c, if (65 <=? c) && (c <=? 90) then c + 32 else c) b.
Definition pool_key (scheme host : bytes) (port : Z) : PoolKey :=
  Key (to_ascii_lowercase scheme) (to_ascii_lowercase host) port.

Record ConnEntry := Entry {
  is_h2 : bool;
  (* [Slot::H1]: the sender is in the slot *)
  slot : bool;
  active : Z;
  paused : Z;
  dead : bool;
  driver : bool;
  (* the environment: hyper reports the sender as closed *)
  peer_closed : bool;
  (* ghost *)
  out : nat;
  returning : nat;
}.

#[export] Instance entry_eta : Settable ConnEntry := λ e,
  Entry (is_h2 e) (slot e) (active e) (paused e) (dead e) (driver e) (peer_closed e)
    (out e) (returning e).

Record pool := Pool {
  conns : gmap PoolKey (list nat);
  entries : gmap nat ConnEntry;
  dial_locks : gmap PoolKey (option nat);
  next_entry : nat;
  closed : bool;
  shutting_down : bool;
  shutdown_complete : bool;
  (* ghost *)
  aborted : list nat;
}.

#[export] Instance pool_eta : Settable pool := λ s,
  Pool (conns s) (entries s) (dial_locks s) (next_entry s) (closed s) (shutting_down s)
    (shutdown_complete s) (aborted s).

Definition DEFAULT_MAX_CONNS_PER_KEY : Z := 8.
Definition DEFAULT_PAUSED_CAP : Z := 4.

(** [Pool::new]. *)
Definition pool_new : pool := Pool ∅ ∅ ∅ 1 false false false [].

(** ** Entries *)

Definition on_entry (id : nat) (f : ConnEntry → ConnEntry) : prog pool unit :=
  modify (λ s, s <| entries ::= alter f id |>).

Definition load_entry {A} (id : nat) (d : A) (f : ConnEntry → A) : prog pool A :=
  load (λ s, match entries s !! id with Some e => f e | None => d end).

(** [ConnEntry::closed]: an HTTP/1 sender that is leased out does not count. *)
Definition entry_closed (id : nat) : prog pool bool :=
  d <- load_entry id true dead ;;
  if d : bool then Ret true
  else load_entry id true (λ e, if is_h2 e then peer_closed e else slot e && peer_closed e).

Section pool.
Variables (max_conns_per_key paused_cap : Z).

Definition eligible (id : nat) : prog pool bool :=
  c <- entry_closed id ;;
  if c : bool then Ret false
  else
    p <- load_entry id 0 paused ;;
    if paused_cap <=? p then Ret false
    else load_entry id false (λ e, if is_h2 e then true else slot e).

(** [take_lease]: the sender, then the count.  The lease is the entry's id. *)
Definition take_lease (id : nat) : prog pool (option nat) :=
  got <- fetch (λ s,
    match entries s !! id with
    | Some e =>
        if is_h2 e then (s <| entries ::= insert id (e <| out ::= S |>) |>, true)
        else if slot e
        then (s <| entries ::= insert id (e <| slot := false |> <| out ::= S |>) |>, true)
        else (s, false)
    | None => (s, false)
    end) ;;
  if got : bool then
    on_entry id (λ e, e <| active := fetch_add 32 (active e) 1 |>) ;;
    Ret (Some id)
  else Ret None.

(** The loop of [reuse] over the list found for the key. *)
Fixpoint reuse_from (l : list nat) : prog pool (option nat) :=
  match l with
  | [] => Ret None
  | id :: l =>
      ok <- eligible id ;;
      if ok : bool then
        lease <- take_lease id ;;
        match lease with
        | Some id => Ret (Some id)
        | None => reuse_from l
        end
      else reuse_from l
  end.

Definition reuse (key : PoolKey) : prog pool (option nat) :=
  l <- load (λ s, conns s !! key) ;;
  match l with
  | Some l => reuse_from l
  | None => Ret None
  end.

(** [l.iter().filter(|e| !e.closed()).count()]. *)
Fixpoint count_live (l : list nat) : prog pool Z :=
  match l with
  | [] => Ret 0
  | id :: l =>
      c <- entry_closed id ;;
      n <- count_live l ;;
      Ret (if c : bool then n else n + 1)
  end.

(** [lock.lock().await] and the end of the guard's scope. *)
Definition lock_dial (key : PoolKey) : prog pool unit :=
  atomic (λ t s, match dial_locks s !! key with
                 | Some (Some _) => None
                 | _ => Some (s <| dial_locks ::= insert key (Some t) |>, tt)
                 end).
Definition unlock_dial (key : PoolKey) : prog pool unit :=
  modify (λ s, s <| dial_locks ::= insert key None |>).

(** A new entry with its sender in the slot and its driver running. *)
Definition new_entry (h2 : bool) : ConnEntry :=
  Entry h2 (negb h2) 0 0 false true false 0 0.

Definition create_entry (h2 : bool) : prog pool nat :=
  fetch (λ s, (s <| entries ::= insert (next_entry s) (new_entry h2) |>
                 <| next_entry ::= S |>, next_entry s)).

(** [conns.entry(key).or_default().push(entry)]. *)
Definition push_conn (key : PoolKey) (id : nat) : prog pool unit :=
  modify (λ s, s <| conns ::= insert key (default [] (conns s !! key) ++ [id]) |>).

(** Under the dial lock, up to the decision to connect ([None]). *)
Definition check_locked (key : PoolKey) : prog pool (option (Hyper4kErrorKind + nat)) :=
  lease <- reuse key ;;
  match lease with
  | Some id => Ret (Some (inr id))
  | None =>
      l <- load (λ s, default [] (conns s !! key)) ;;
      live <- count_live l ;;
      if max_conns_per_key <=? live then Ret (Some (inl HYPER4K_ERR_CONNECT)) else Ret None
  end.

(** What is done with the connector's answer: an error, or whether the new
    connection is HTTP/2. *)
Definition add_connection (key : PoolKey) (dial : Hyper4kErrorKind + bool)
    : prog pool (Hyper4kErrorKind + nat) :=
  match dial with
  | inl e => Ret (inl e)
  | inr h2 =>
      id <- create_entry h2 ;;
      push_conn key id ;;
      lease <- take_lease id ;;
      match lease with
      | Some id => Ret (inr id)
      | None => Ret (inl HYPER4K_ERR_CONNECT)
      end
  end.

(** [acquire] up to [connect(key).await]: [None] is waiting there, with the dial
    lock held. *)
Definition start_acquire (key : PoolKey) : prog pool (option (Hyper4kErrorKind + nat)) :=
  c <- load closed ;;
  if c : bool then Ret (Some (inl HYPER4K_ERR_CANCELLED))
  else
    lease <- reuse key ;;
    match lease with
    | Some id => Ret (Some (inr id))
    | None =>
        lock_dial key ;;
        r <- check_locked key ;;
        match r with
        | Some r => unlock_dial key ;; Ret (Some r)
        | None => Ret None
        end
    end.

(** [acquire] from the connector's answer on. *)
Definition finish_acquire (key : PoolKey) (dial : Hyper4kErrorKind + bool)
    : prog pool (Hyper4kErrorKind + nat) :=
  r <- add_connection key dial ;;
  unlock_dial key ;;
  Ret r.

Definition acquire (key : PoolKey) (dial : Hyper4kErrorKind + bool)
    : prog pool (Hyper4kErrorKind + nat) :=
  r <- start_acquire key ;;
  match r with
  | Some r => Ret r
  | None => finish_acquire key dial
  end.
End pool.

(** ** Leases *)

(** [lease.sender_mut().is_closed()]. *)
Definition lease_is_closed (id : nat) : prog pool bool := load_entry id true peer_closed.

(** [Lease::drop]: hand the sender back unless the peer is gone. *)
Definition lease_drop (id : nat) : prog pool unit :=
  gone <- atomic (λ _ s,
    match entries s !! id with
    | Some e =>
        match out e with
        | S n => Some (s <| entries ::= insert id (e <| out := n |> <| returning ::= S |>) |>,
                       peer_closed e)
        | O => None
        end
    | None => None
    end) ;;
  atomic (λ _ s,
    match entries s !! id with
    | Some e =>
        match returning e with
        | S n =>
            let e := e <| returning := n |> in
            Some (s <| entries ::= insert id
                         (if gone : bool then e <| dead := true |>
                          else if is_h2 e then e else e <| slot := true |>) |>, tt)
        | O => None
        end
    | None => None
    end) ;;
  on_entry id (λ e, e <| active := fetch_sub 32 (active e) 1 |>).

(** [PauseGuard::new] and its [Drop]. *)
Definition pause_guard_new (id : nat) : prog pool unit :=
  on_entry id (λ e, e <| paused := fetch_add 32 (paused e) 1 |>).
Definition pause_guard_drop (id : nat) : prog pool unit :=
  on_entry id (λ e, e <| paused := fetch_sub 32 (paused e) 1 |>).

(** The environment: the peer goes away. *)
Definition peer_closes (id : nat) : prog pool unit :=
  on_entry id (λ e, e <| peer_closed := true |>).

(** ** Shutdown *)

(** Mark every entry of a list dead and take its driver. *)
Fixpoint kill_list (l : list nat) : prog pool (list nat) :=
  match l with
  | [] => Ret []
  | id :: l =>
      on_entry id (λ e, e <| dead := true |>) ;;
      h <- fetch (λ s,
        match entries s !! id with
        | Some e => (s <| entries ::= insert id (e <| driver := false |>) |>, driver e)
        | None => (s, false)
        end) ;;
      rest <- kill_list l ;;
      Ret (if h : bool then id :: rest else rest)
  end.

(** Every entry, in the order the map is walked. *)
Definition all_conns (s : pool) : list nat := concat (map snd (map_to_list (conns s))).

(** [shutdown].  The maps are walked as they are found; the loser of the swap
    waits for the winner. *)
Definition pool_shutdown : prog pool unit :=
  was <- fetch (λ s, (s <| shutting_down := true |>, shutting_down s)) ;;
  if was : bool then
    atomic (λ _ s, if shutdown_complete s then Some (s, tt) else None)
  else
    modify (λ s, s <| closed := true |>) ;;
    ids <- load all_conns ;;
    handles <- kill_list ids ;;
    modify (λ s, s <| conns := ∅ |>) ;;
    modify (λ s, s <| aborted ::= (λ l, l ++ handles) |>) ;;
    modify (λ s, s <| shutdown_complete := true |>).

(** [total_paused]: each connection's count is read in turn. *)
Fixpoint sum_paused (l : list nat) : prog pool Z :=
  match l with
  | [] => Ret 0
  | id :: l =>
      n <- load_entry id 0 paused ;;
      m <- sum_paused l ;;
      Ret (n + m)
  end.

Definition total_paused : prog pool Z :=
  ids <- load all_conns ;;
  sum_paused ids.
