(* ===== verification/PoolFacts.v ===== *)
(** * The pool under every interleaving

    An HTTP/1 connection serves one request at a time, the number of live
    connections per key stays under its cap, and two schedules in which the
    order of operations in [acquire] shows. *)

From S2P Require Import Prelude Conc Abi Pool.

Open Scope prog_scope.

(** ** Programs that use a pool *)

Section programs.
Variables (max_conns_per_key paused_cap : Z).

(** What a thread does: sequences of acquiring, dropping leases, pausing and
    resuming streams, shutting down, reading the paused total; and, for the
    environment, connections going away. *)
Inductive pool_program : prog pool unit → Prop :=
| pool_done : pool_program (Ret tt)
| pool_acquire key dial (g : Hyper4kErrorKind + nat → prog pool unit) :
    (∀ r, pool_program (g r)) →
    pool_program (r <- acquire max_conns_per_key paused_cap key dial ;; g r)
| pool_drop id p : pool_program p → pool_program (lease_drop id ;; p)
| pool_peer id p : pool_program p → pool_program (peer_closes id ;; p)
| pool_pause id p : pool_program p → pool_program (pause_guard_new id ;; p)
| pool_unpause id p : pool_program p → pool_program (pause_guard_drop id ;; p)
| pool_shut p : pool_program p → pool_program (pool_shutdown ;; p)
| pool_total p : pool_program p → pool_program (total_paused ;; p).
End programs.

(** ** Exclusive connections *)

(** The sender of an HTTP/1 connection is in one place: the slot, a lease, or a
    lease that is being dropped; or it is gone. *)
Definition entry_ok (e : ConnEntry) : Prop :=
  is_h2 e = false → ((if slot e then 1 else 0) + out e + returning e ≤ 1)%nat.

Definition entries_ok (s : pool) : Prop := ∀ id e, entries s !! id = Some e → entry_ok e.

Lemma entries_ok_insert s id e' :
  entries_ok s → entry_ok e' → entries_ok (s <| entries ::= insert id e' |>).
Proof.
  intros Hs He' i e. simpl. intros [[<- <-]|[_ Hi]]%lookup_insert_Some; [done|by eapply Hs].
Qed.

Lemma entries_ok_alter s id f :
  entries_ok s → (∀ e, entry_ok e → entry_ok (f e)) → entries_ok (s <| entries ::= alter f id |>).
Proof.
  intros Hs Hf i e. simpl. destruct (decide (id = i)) as [<-|Hne].
  - rewrite lookup_alter_eq. intros (e0 & E & ->)%fmap_Some. apply Hf. by eapply Hs.
  - rewrite lookup_alter_ne by done. apply Hs.
Qed.

#[local] Abbreviation keeps_entries := (preserves entries_ok) (only parsing).

Create HintDb pool.

Ltac entries_tac :=
  repeat first
    [ exact Logic.I
    | solve [auto with pool hyper4k]
    | apply preserves_modify; intros; solve [done | by apply entries_ok_alter]
    | apply preserves_fetch; intros; solve [done]
    | apply preserves_bind; [|intros ?]
    | case_match ].

Lemma entry_closed_entries id : keeps_entries (entry_closed id).
Proof. unfold entry_closed, load_entry. entries_tac. Qed.
#[local] Hint Resolve entry_closed_entries : pool.

Lemma eligible_entries n id : keeps_entries (eligible n id).
Proof. unfold eligible, load_entry. entries_tac. Qed.

Lemma take_lease_entries id : keeps_entries (take_lease id).
Proof.
  unfold take_lease, on_entry. apply preserves_bind; [|intros ?; entries_tac].
  apply preserves_fetch. intros s Hs. destruct (entries s !! id) as [e|] eqn:E; [|done].
  pose proof (Hs id e E) as He. destruct (is_h2 e) eqn:E2; simpl.
  - apply entries_ok_insert; [done|]. by intros ?; simpl in *; congruence.
  - destruct (slot e) eqn:E3; simpl; [|done]. apply entries_ok_insert; [done|].
    intros _. simpl. specialize (He E2). rewrite E3 in He. lia.
Qed.
#[local] Hint Resolve eligible_entries take_lease_entries : pool.

Lemma reuse_entries n key : keeps_entries (reuse n key).
Proof.
  assert (∀ l, keeps_entries (reuse_from n l)) by (induction l; cbn [reuse_from]; entries_tac).
  unfold reuse. entries_tac.
Qed.
#[local] Hint Resolve reuse_entries : pool.

Lemma acquire_entries m n key dial : keeps_entries (acquire m n key dial).
Proof.
  assert (∀ l, keeps_entries (count_live l)) as Hc by (induction l; cbn [count_live]; entries_tac).
  assert (∀ h, keeps_entries (create_entry h)).
  { intros h. apply preserves_fetch. intros s Hs.
    apply (entries_ok_insert s (next_entry s) (new_entry h)); [done|]. intros _. simpl. destruct h; simpl; lia. }
  assert (keeps_entries (lock_dial key)).
  { apply preserves_atomic. intros t s s' r Hs E. repeat case_match; simplify_eq/=; done. }
  unfold acquire, start_acquire, finish_acquire, check_locked, add_connection, push_conn, unlock_dial.
  entries_tac.
Qed.

Lemma lease_drop_entries id : keeps_entries (lease_drop id).
Proof.
  unfold lease_drop. apply preserves_bind; [|intros gone; apply preserves_bind; [|intros ?]].
  - apply preserves_atomic. intros t s s' r Hs E. destruct (entries s !! id) as [e|] eqn:Ee; [|done].
    pose proof (Hs id e Ee) as He. destruct (out e) as [|n] eqn:Eo; [done|]. injection E as <- _.
    apply entries_ok_insert; [done|]. intros E2. specialize (He E2). simpl. lia.
  - apply preserves_atomic. intros t s s' r Hs E. destruct (entries s !! id) as [e|] eqn:Ee; [|done].
    pose proof (Hs id e Ee) as He. destruct (returning e) as [|n] eqn:Er; [done|].
    injection E as <- _. apply entries_ok_insert; [done|].
    unfold entry_ok in *.
    destruct gone; [|destruct (is_h2 e) eqn:E2]; simpl; intros E2'; try congruence;
      specialize (He ltac:(congruence)); destruct (slot e); simpl; lia.
  - unfold on_entry. entries_tac.
Qed.

Lemma shutdown_entries : keeps_entries pool_shutdown.
Proof.
  assert (∀ l, keeps_entries (kill_list l)).
  { induction l as [|id l IH]; cbn [kill_list]; [done|]. unfold on_entry.
    apply preserves_bind; [entries_tac|intros ?]. apply preserves_bind; [|intros ?; entries_tac].
    apply preserves_fetch. intros s Hs. destruct (entries s !! id) as [e|] eqn:E; [|done].
    apply (entries_ok_insert s id); [done|]. exact (Hs id e E). }
  unfold pool_shutdown. entries_tac. apply preserves_atomic. intros t s s' r Hs E.
  by repeat case_match; simplify_eq/=.
Qed.

Lemma pool_program_entries m n p : pool_program m n p → keeps_entries p.
Proof.
  assert (∀ l, keeps_entries (sum_paused l)) as Hsum
    by (induction l; cbn [sum_paused]; unfold load_entry; entries_tac).
  induction 1; auto.
  - exact Logic.I.
  - apply preserves_bind; [apply acquire_entries|done].
  - apply preserves_bind; [apply lease_drop_entries|done].
  - apply preserves_bind; [|done]. unfold peer_closes, on_entry. entries_tac.
  - apply preserves_bind; [|done]. unfold pause_guard_new, on_entry. entries_tac.
  - apply preserves_bind; [|done]. unfold pause_guard_drop, on_entry. entries_tac.
  - apply preserves_bind; [apply shutdown_entries|done].
  - apply preserves_bind; [|done]. unfold total_paused. entries_tac.
Qed.

(** An HTTP/1 connection never carries two requests at once: under every
    interleaving of acquires, drops, dying connections and shutdowns at most one
    lease of it exists, and none while its sender is available in the pool. *)
Theorem h1_connection_is_exclusive m n ts c id e :
  Forall (pool_program m n) ts → reachable (Config pool_new ts) c →
  entries (shared c) !! id = Some e → is_h2 e = false →
  (out e ≤ 1)%nat ∧ (slot e = true → out e = 0%nat).
Proof.
  intros Ht Hr He H1. assert (entries_ok (shared c)) as Hok.
  { eapply preserves_sound; [done| |].
    - intros i x Hx. simpl in Hx. by rewrite lookup_empty in Hx.
    - eapply Forall_impl; [exact Ht|]. apply pool_program_entries. }
  specialize (Hok id e He H1). destruct (slot e); split; intros; try done; lia.
Qed.

(** ** The cap on connections per key *)

(** A connection that works: not given up by the pool, not closed by the peer.
    Both are for ever. *)
Definition alive (e : ConnEntry) : bool := negb (dead e) && negb (peer_closed e).

Definition live (s : pool) (id : nat) : bool :=
  match entries s !! id with Some e => alive e | None => false end.

Definition live_ids (s : pool) (l : list nat) : list nat := List.filter (live s) l.

Definition conn_list (s : pool) (key : PoolKey) : list nat := default [] (conns s !! key).

Section cap.
Variables (max paused_cap : Z).
Hypothesis max_nonneg : 0 ≤ max.

Record cap_inv (s : pool) : Prop := CapInv {
  ci_cap key : Z.of_nat (length (live_ids s (conn_list s key))) ≤ max;
  ci_ids key id : id ∈ conn_list s key → (id < next_entry s)%nat;
}.

(** What thread [t] relies on: nobody else touches the connections of a key it
    holds the dial lock of, except that a shutdown may forget them; connections
    only die; ids are not reused. *)
Record cap_rely (t : nat) (s s' : pool) : Prop := CapRely {
  cr_lock key : dial_locks s !! key = Some (Some t) →
    dial_locks s' !! key = Some (Some t) ∧
    (conn_list s' key = conn_list s key ∨ conn_list s' key = []);
  cr_live id : (id < next_entry s)%nat → live s' id = true → live s id = true;
  cr_next : (next_entry s ≤ next_entry s')%nat;
}.

#[local] Abbreviation safe := (Conc.safe cap_inv cap_rely) (only parsing).
#[local] Abbreviation stable := (Conc.stable cap_inv cap_rely) (only parsing).

(** Steps on entries that revive nothing. *)
Record tame (s s' : pool) : Prop := Tame {
  tame_conns : conns s' = conns s;
  tame_locks : dial_locks s' = dial_locks s;
  tame_next : next_entry s' = next_entry s;
  tame_live id : live s' id = true → live s id = true;
}.

Lemma live_ids_mono s s' l :
  (∀ id, id ∈ l → live s' id = true → live s id = true) →
  (length (live_ids s' l) ≤ length (live_ids s l))%nat.
Proof.
  induction l as [|id l IH]; intros Hl; simpl; [lia|].
  assert (length (live_ids s' l) ≤ length (live_ids s l))%nat by (apply IH; set_solver).
  destruct (live s' id) eqn:E; [rewrite (Hl id) by (set_solver || done)|]; simpl; [lia|].
  destruct (live s id); simpl; lia.
Qed.

Lemma tame_ok s s' : cap_inv s → tame s s' → cap_inv s' ∧ ∀ t, cap_rely t s s'.
Proof.
  intros [Hc Hi] [E1 E2 E3 Hl]. unfold conn_list in *. split.
  - split; unfold conn_list; rewrite E1, ?E3; [|by apply Hi]. intros key. specialize (Hc key).
    pose proof (live_ids_mono s s' (default [] (conns s !! key)) ltac:(auto)). lia.
  - intros t. split; unfold conn_list; rewrite ?E1, ?E2, ?E3; auto.
Qed.

Lemma tame_refl s : tame s s.
Proof. by split. Qed.

Lemma tame_alter s id f :
  (∀ e, alive (f e) = true → alive e = true) → tame s (s <| entries ::= alter f id |>).
Proof.
  intros Hf. split; try done. intros i. unfold live. simpl. destruct (decide (id = i)) as [<-|].
  - rewrite lookup_alter_eq. destruct (entries s !! id); simpl; auto.
  - by rewrite lookup_alter_ne.
Qed.

Lemma tame_insert s id e e' :
  entries s !! id = Some e → (alive e' = true → alive e = true) →
  tame s (s <| entries ::= insert id e' |>).
Proof.
  intros E Hf. split; try done. intros i. unfold live. simpl. destruct (decide (id = i)) as [<-|].
  - rewrite lookup_insert_eq, E. done.
  - by rewrite lookup_insert_ne.
Qed.

#[local] Abbreviation tame_prog := (steps_in tame) (only parsing).

(** Dropping flags only. *)
Ltac alive_tac := unfold alive; simpl; rewrite ?andb_true_iff, ?negb_true_iff; intuition congruence.

Ltac tame_tac :=
  repeat first
    [ exact Logic.I
    | solve [auto with pool]
    | apply steps_in_load; apply tame_refl
    | apply steps_in_modify; intros; solve [by split | apply tame_alter; intros []; alive_tac]
    | apply steps_in_fetch; intros; solve [by split]
    | apply steps_in_bind; [|intros ?]
    | case_match ].

Lemma entry_closed_tame id : tame_prog (entry_closed id).
Proof. unfold entry_closed, load_entry. tame_tac. Qed.
#[local] Hint Resolve entry_closed_tame : pool.

Lemma take_lease_tame id : tame_prog (take_lease id).
Proof.
  unfold take_lease, on_entry. apply steps_in_bind; [|intros ?; tame_tac].
  apply steps_in_fetch. intros s. destruct (entries s !! id) as [e|] eqn:E; [|apply tame_refl].
  destruct (is_h2 e); simpl; [by apply (tame_insert s id e)|].
  destruct (slot e); simpl; [by apply (tame_insert s id e)|apply tame_refl].
Qed.
#[local] Hint Resolve take_lease_tame : pool.

Lemma reuse_tame key : tame_prog (reuse paused_cap key).
Proof.
  assert (∀ l, tame_prog (reuse_from paused_cap l)).
  { induction l as [|id l IH]; cbn [reuse_from]; [done|]. unfold eligible, load_entry. tame_tac. }
  unfold reuse. tame_tac.
Qed.

Lemma lease_drop_tame id : tame_prog (lease_drop id).
Proof.
  unfold lease_drop. apply steps_in_bind; [|intros gone; apply steps_in_bind; [|intros ?]].
  - split; [|done]. intros t s s' r E. destruct (entries s !! id) as [e|] eqn:Ee; [|done].
    destruct (out e); [done|]. injection E as <- _. by apply (tame_insert s id e).
  - split; [|done]. intros t s s' r E. destruct (entries s !! id) as [e|] eqn:Ee; [|done].
    destruct (returning e); [done|]. injection E as <- _. apply (tame_insert s id e); [done|].
    destruct gone; [|by destruct (is_h2 e)]. alive_tac.
  - unfold on_entry. tame_tac.
Qed.

Lemma kill_list_tame l : tame_prog (kill_list l).
Proof.
  induction l as [|id l IH]; cbn [kill_list]; [done|]. unfold on_entry.
  apply steps_in_bind; [tame_tac|intros ?]. apply steps_in_bind; [|intros ?; tame_tac].
  apply steps_in_fetch. intros s. destruct (entries s !! id) as [e|] eqn:E; [|apply tame_refl].
  by apply (tame_insert s id e).
Qed.

Lemma safe_tame {A} t (p : prog pool A) P : stable t P → tame_prog p → safe t p P (λ _, P).
Proof. apply safe_steps_in. apply tame_ok. Qed.

(** *** Holding the dial lock *)

Definition Locked (t : nat) (key : PoolKey) (s : pool) : Prop :=
  dial_locks s !! key = Some (Some t).

(** The list read under the lock is still the list, unless it was forgotten. *)
Definition Listed (t : nat) (key : PoolKey) (l : list nat) (s : pool) : Prop :=
  Locked t key s ∧ (conn_list s key = l ∨ conn_list s key = []) ∧
  ∀ id, id ∈ l → (id < next_entry s)%nat.

(** Of these connections at most [n] are alive. *)
Definition Counted (l : list nat) (n : Z) (s : pool) : Prop :=
  (∀ id, id ∈ l → (id < next_entry s)%nat) ∧ Z.of_nat (length (live_ids s l)) ≤ n.

(** There is room for one more connection. *)
Definition Room (t : nat) (key : PoolKey) (s : pool) : Prop :=
  Locked t key s ∧ Z.of_nat (length (live_ids s (conn_list s key))) < max.

Lemma Locked_stable t key : stable t (Locked t key).
Proof. intros s s' _ _ Hr Hl. apply (cr_lock _ _ _ Hr key Hl). Qed.

Lemma Listed_stable t key l : stable t (Listed t key l).
Proof.
  intros s s' _ _ Hr (Hl & Hc & Hi). destruct (cr_lock _ _ _ Hr key Hl) as [Hl' Hc'].
  split_and!; [done| |].
  - destruct Hc' as [-> | ->]; [done|by right].
  - intros id Hid. pose proof (cr_next _ _ _ Hr). specialize (Hi id Hid). lia.
Qed.

Lemma Counted_stable t l n : stable t (Counted l n).
Proof.
  intros s s' _ _ Hr [Hi Hn]. pose proof (cr_next _ _ _ Hr). split.
  - intros id Hid. specialize (Hi id Hid). lia.
  - pose proof (live_ids_mono s s' l) as Hm.
    specialize (Hm ltac:(intros id Hid; apply (cr_live _ _ _ Hr), Hi, Hid)). lia.
Qed.

Lemma Room_stable t key : stable t (Room t key).
Proof.
  intros s s' Hi _ Hr [Hl Hn]. destruct (cr_lock _ _ _ Hr key Hl) as [Hl' Hc'].
  split; [done|]. destruct Hc' as [-> | ->]; [|simpl; simpl in Hn; lia].
  pose proof (live_ids_mono s s' (conn_list s key)
    ltac:(intros id Hid; apply (cr_live _ _ _ Hr), (ci_ids _ Hi key), Hid)). lia.
Qed.

Lemma stable_both t P Q : stable t P → stable t Q → stable t (λ s, P s ∧ Q s).
Proof. intros HP HQ s s' Hi Hi' Hr [??]. split; eauto. Qed.

#[local] Hint Resolve Locked_stable Listed_stable Counted_stable Room_stable stable_both : pool.

(** What is known of an entry that was found closed stays true. *)
Lemma found_closed_stable t id (c : bool) P :
  stable t P → (∀ s, P s → (id < next_entry s)%nat) →
  stable t (λ s, P s ∧ (c = true → live s id = false)).
Proof.
  intros HP Hid s s' Hi Hi' Hr [Ps Hc]. split; [exact (HP s s' Hi Hi' Hr Ps)|]. intros Ec.
  destruct (live s' id) eqn:E; [|done]. specialize (Hc Ec).
  by rewrite (cr_live _ _ _ Hr id (Hid s Ps) E) in Hc.
Qed.

(** An entry found closed is not alive. *)
Lemma safe_entry_closed t id P :
  stable t P → (∀ s, P s → (id < next_entry s)%nat) →
  safe t (entry_closed id) P (λ c s, P s ∧ (c = true → live s id = false)).
Proof.
  intros HP Hid.
  assert (HQ : ∀ c : bool, stable t (λ s, P s ∧ (c = true → live s id = false)))
    by (intros c; by apply found_closed_stable).
  unfold entry_closed, load_entry.
  eapply safe_bind with (M := λ c s, P s ∧ (c = true → live s id = false)).
  - apply safe_atomic; [done|done|]. intros s s' r Hi Ps [= <- <-].
    destruct (tame_ok s s Hi (tame_refl s)) as [? Hg]. split_and!; [done|by intros ? _|done|].
    unfold live, alive. destruct (entries s !! id) as [e|]; [|done].
    by intros ->.
  - intros [|]; [by apply safe_ret|]. apply safe_atomic; [apply HQ|done|].
    intros s s' r Hi [Ps _] [= <- <-].
    destruct (tame_ok s s Hi (tame_refl s)) as [? Hg]. split_and!; [done|by intros ? _|done|].
    unfold live, alive. destruct (entries s !! id) as [e|]; [|done].
    destruct (is_h2 e), (slot e), (peer_closed e), (dead e); simpl; done.
Qed.

Lemma safe_count_live t l P :
  stable t P → (∀ s, P s → ∀ id, id ∈ l → (id < next_entry s)%nat) →
  safe t (count_live l) P (λ n s, P s ∧ Counted l n s).
Proof.
  revert P. induction l as [|id l IH]; intros P HP Hid; cbn [count_live].
  { apply safe_ret; [done|]. intros s _ Ps. split; [done|]. split; [by intros ? ?%elem_of_nil|].
    simpl. lia. }
  assert (Hid0 : ∀ s, P s → (id < next_entry s)%nat) by (intros s Ps; apply (Hid s Ps); by left).
  eapply safe_bind; [by apply (safe_entry_closed t id P)|].
  intros c; cbv beta. eapply safe_bind; [apply (IH (λ s, P s ∧ (c = true → live s id = false)))|].
  - by apply found_closed_stable.
  - intros s [Ps _] i Hi. apply (Hid s Ps). by right.
  - intros n; cbv beta. apply safe_ret.
    + apply stable_both; [by apply found_closed_stable|apply Counted_stable].
    + intros s _ [[Ps Hc] [Hi Hn]]. split; [done|]. split; [by apply Hid|]. simpl.
      destruct c; [rewrite Hc by done; done|]. destruct (live s id); simpl; lia.
Qed.

(** *** The actions under the lock *)

Lemma other_lock t t' key key' s :
  t' ≠ t → Locked t key s → dial_locks s !! key' = Some (Some t') → key' ≠ key.
Proof. unfold Locked. intros Hne Hl Hl' ->. congruence. Qed.

Lemma safe_create t key h2 :
  safe t (create_entry h2) (Room t key) (λ id s, Room t key s ∧ (id < next_entry s)%nat).
Proof.
  apply safe_atomic; [apply Room_stable| |].
  { intros id. apply stable_both; [apply Room_stable|]. intros s s' _ _ Hr ?.
    pose proof (cr_next _ _ _ Hr). lia. }
  intros s s' r Hi [Hl Hn] [= <- <-].
  set (s1 := s <| entries ::= insert (next_entry s) (new_entry h2) |> <| next_entry ::= S |>).
  assert (Hlive : ∀ id, (id < next_entry s)%nat → live s1 id = live s id).
  { intros id Hid. unfold live, s1. simpl. by rewrite lookup_insert_ne by lia. }
  assert (Hlen : ∀ key, length (live_ids s1 (conn_list s1 key)) = length (live_ids s (conn_list s key))).
  { intros k. unfold live_ids. change (conn_list s1 k) with (conn_list s k). f_equal.
    apply List.filter_ext_in. intros id Hin%list_elem_of_In.
    apply Hlive, (ci_ids _ Hi k). done. }
  split_and!.
  - split; intros k; [rewrite Hlen; apply (ci_cap _ Hi)|]. intros id Hid.
    pose proof (ci_ids _ Hi k id Hid). simpl. lia.
  - intros t' _. split; simpl; auto with lia. intros id Hid. by rewrite Hlive.
  - change (Room t key s1). split; [exact Hl|]. by rewrite Hlen.
  - simpl. lia.
Qed.

Lemma safe_push_conn t key id :
  safe t (push_conn key id) (λ s, Room t key s ∧ (id < next_entry s)%nat) (λ _, Locked t key).
Proof.
  apply safe_atomic; [|intros ?; apply Locked_stable|].
  { apply stable_both; [apply Room_stable|]. intros s s' _ _ Hr ?.
    pose proof (cr_next _ _ _ Hr). lia. }
  intros s s' r Hi [[Hl Hn] Hid] [= <- _].
  set (s1 := s <| conns ::= insert key (default [] (conns s !! key) ++ [id]) |>).
  assert (Hlist : ∀ k, conn_list s1 k = if decide (k = key) then conn_list s key ++ [id] else conn_list s k).
  { intros k. unfold conn_list, s1. simpl. case_decide as Hk; [subst; by rewrite lookup_insert_eq|].
    by rewrite lookup_insert_ne by congruence. }
  split_and!; [|intros t' Ht'|done].
  - change (cap_inv s1). split; intros k; rewrite Hlist.
    + change (live_ids s1) with (live_ids s). case_decide; [|apply (ci_cap _ Hi)].
      unfold live_ids in *. rewrite List.filter_app, length_app. simpl.
      destruct (live s id); simpl; lia.
    + intros i. change (next_entry s1) with (next_entry s). case_decide; [|apply (ci_ids _ Hi)].
      intros [Hin| ->%list_elem_of_singleton]%elem_of_app; [|done]. by eapply (ci_ids _ Hi).
  - change (cap_rely t' s s1). split; [|done|done]. intros k Hk. split; [done|]. left. rewrite Hlist.
    by rewrite decide_False by (by eapply other_lock).
Qed.

Lemma safe_lock t key : safe t (lock_dial key) (λ _, True) (λ _, Locked t key).
Proof.
  apply safe_atomic; [done|intros ?; apply Locked_stable|]. intros s s' r Hi _ E.
  assert (dial_locks s !! key = None ∨ dial_locks s !! key = Some None) as Hfree
    by (destruct (dial_locks s !! key) as [[?|]|]; auto; done).
  assert (s' = s <| dial_locks ::= insert key (Some t) |>) as ->
    by (destruct Hfree as [Hf|Hf]; rewrite Hf in E; congruence).
  split_and!; [by destruct Hi|intros t' Ht'|unfold Locked; simpl; apply lookup_insert_eq].
  split; [|done|done]. intros k Hk. split; [|by left]. simpl.
  rewrite lookup_insert_ne; [done|]. intros <-. by destruct Hfree; congruence.
Qed.

Lemma safe_unlock t key : safe t (unlock_dial key) (Locked t key) (λ _ _, True).
Proof.
  apply safe_atomic; [apply Locked_stable|done|]. intros s s' r Hi Hl [= <- _].
  split_and!; [by destruct Hi|intros t' Ht'|done].
  split; [|done|done]. intros k Hk. split; [|by left]. simpl.
  rewrite lookup_insert_ne; [done|]. intros E. symmetry in E. by eapply other_lock.
Qed.

Lemma safe_check_locked t key :
  safe t (check_locked max paused_cap key) (Locked t key)
    (λ r, match r with Some _ => Locked t key | None => Room t key end).
Proof.
  unfold check_locked.
  eapply safe_bind; [apply safe_tame; [apply Locked_stable|apply reuse_tame]|].
  intros [id|]; cbv beta; [apply safe_ret; auto with pool|].
  eapply safe_bind with (M := λ l, Listed t key l).
  { apply safe_atomic; [apply Locked_stable|intros ?; apply Listed_stable|].
    intros s s' l Hi Hl [= <- <-]. destruct (tame_ok s s Hi (tame_refl s)) as [? Hg].
    split_and!; [done|by intros ? _|]. split; [done|]. split; [by left|]. apply (ci_ids _ Hi). }
  intros l. eapply safe_bind; [apply (safe_count_live t l (Listed t key l)); [apply Listed_stable|]|].
  { by intros s (_ & _ & Hid). }
  intros n; cbv beta. destruct (Z.leb_spec max n) as [|Hlt]; (apply safe_ret; [auto with pool|]).
  - by intros s _ [(Hl & _) _].
  - intros s Hi [(Hl & Hc & _) [_ Hn]]. split; [done|]. destruct Hc as [-> | ->]; simpl; lia.
Qed.

Lemma safe_finish_acquire t key dial :
  safe t (finish_acquire key dial) (Room t key) (λ _ _, True).
Proof.
  unfold finish_acquire.
  eapply safe_bind with (M := λ _, Locked t key);
    [|intros r; eapply safe_bind; [apply safe_unlock|intros ?; by apply safe_ret]].
  destruct dial as [e|h2]; cbn [add_connection].
  { apply safe_ret; [auto with pool|]. by intros s _ [Hl _]. }
  eapply safe_bind; [apply safe_create|]. intros id; cbv beta.
  eapply safe_bind; [apply safe_push_conn|]. intros ?; cbv beta.
  eapply safe_bind; [apply safe_tame; [apply Locked_stable|apply take_lease_tame]|].
  intros [?|]; apply safe_ret; auto with pool.
Qed.

Lemma safe_start_acquire t key :
  safe t (start_acquire max paused_cap key) (λ _, True)
    (λ r, match r with Some _ => λ _, True | None => Room t key end).
Proof.
  unfold start_acquire. eapply safe_bind; [apply safe_tame; [done|by apply steps_in_load, tame_refl]|].
  intros [|]; cbv beta; [by apply safe_ret|].
  eapply safe_bind; [apply safe_tame; [done|apply reuse_tame]|].
  intros [id|]; cbv beta; [by apply safe_ret|].
  eapply safe_bind; [apply safe_lock|]. intros ?; cbv beta.
  eapply safe_bind; [apply safe_check_locked|]. intros [r|]; cbv beta.
  - eapply safe_bind; [apply safe_unlock|]. intros ?; by apply safe_ret.
  - apply safe_ret; auto with pool.
Qed.

Lemma safe_pool_acquire t key dial :
  safe t (acquire max paused_cap key dial) (λ _, True) (λ _ _, True).
Proof.
  unfold acquire. eapply safe_bind; [apply safe_start_acquire|].
  intros [r|]; cbv beta; [by apply safe_ret|apply safe_finish_acquire].
Qed.

Lemma safe_shutdown t : safe t pool_shutdown (λ _, True) (λ _ _, True).
Proof.
  unfold pool_shutdown.
  eapply safe_bind; [apply safe_tame; [done|by apply steps_in_fetch]|]. intros [|]; cbv beta.
  { apply safe_tame; [done|]. split; [|done]. intros t' s s' r E. case_match; [|done].
    injection E as <- _. apply tame_refl. }
  eapply safe_bind; [apply safe_tame; [done|by apply steps_in_modify]|]. intros ?; cbv beta.
  eapply safe_bind; [apply safe_tame; [done|by apply steps_in_load, tame_refl]|]. intros ids; cbv beta.
  eapply safe_bind; [apply safe_tame; [done|apply kill_list_tame]|]. intros hs; cbv beta.
  eapply safe_bind with (M := λ _ _, True).
  { apply safe_atomic; [done|done|]. intros s s' r Hi _ [= <- _]. split_and!; [|intros ? _|done].
    - split; unfold conn_list; simpl; intros k; rewrite lookup_empty; simpl; [lia|].
      by intros ? ?%elem_of_nil.
    - split; [|done|done]. intros k Hk. split; [done|]. right. unfold conn_list. simpl.
      by rewrite lookup_empty. }
  intros ?; cbv beta. apply safe_tame; [done|]. tame_tac.
Qed.

Lemma total_paused_tame : tame_prog total_paused.
Proof.
  assert (∀ l, tame_prog (sum_paused l)) as Hsum
    by (induction l; cbn [sum_paused]; unfold load_entry; tame_tac).
  unfold total_paused. tame_tac.
Qed.

Lemma peer_closes_tame id : tame_prog (peer_closes id).
Proof. unfold peer_closes, on_entry. tame_tac. Qed.

Lemma safe_pool_program t p :
  pool_program max paused_cap p → safe t p (λ _, True) (λ _ _, True).
Proof.
  induction 1; [by apply safe_ret|..]; (eapply safe_bind with (M := λ _ _, True); [|by auto]).
  - apply safe_pool_acquire.
  - apply safe_tame; [done|apply lease_drop_tame].
  - apply safe_tame; [done|apply peer_closes_tame].
  - apply safe_tame; [done|]. unfold pause_guard_new, on_entry. tame_tac.
  - apply safe_tame; [done|]. unfold pause_guard_drop, on_entry. tame_tac.
  - apply safe_shutdown.
  - apply safe_tame; [done|apply total_paused_tame].
Qed.

(** The connection cap holds under every interleaving: for each key the
    connections in the pool that are alive (not given up, not closed by the
    peer) never number more than [max_conns_per_key], however many requests dial
    at the same time. *)
Theorem connections_per_key_are_capped ts c key :
  Forall (pool_program max paused_cap) ts → reachable (Config pool_new ts) c →
  Z.of_nat (length (live_ids (shared c) (conn_list (shared c) key))) ≤ max.
Proof.
  intros Ht Hr. apply ci_cap. refine (proj1 (safe_sound cap_inv cap_rely _ _ Hr _)). split.
  - split; unfold conn_list; simpl; intros k; rewrite lookup_empty; simpl; [done|].
    by intros ? ?%elem_of_nil.
  - intros i p Hp. exists (λ _, True). split; [done|]. apply safe_pool_program.
    by eapply Forall_lookup_1 in Hp.
Qed.
End cap.

(** ** Reuse, without interference *)

(** What [eligible] answers. *)
Definition eligible_now (paused_cap : Z) (s : pool) (id : nat) : bool :=
  match entries s !! id with
  | Some e =>
      negb (dead e) && negb (peer_closed e) && (paused e <? paused_cap) && (is_h2 e || slot e)
  | None => false
  end.

Lemma run_eligible t cap id s :
  run t (eligible cap id) s = Some (s, eligible_now cap s id).
Proof.
  unfold eligible, entry_closed, load_entry, eligible_now. simpl.
  destruct (entries s !! id) as [e|] eqn:E; simpl; [|done].
  destruct (dead e); simpl; [done|]. rewrite E. destruct (is_h2 e) eqn:E2, (slot e) eqn:E3, (peer_closed e);
    simpl; rewrite ?E; simpl; rewrite ?andb_false_r; try done;
    destruct (Z.leb_spec cap (paused e)), (Z.ltb_spec (paused e) cap); try lia; simpl;
    rewrite ?E; simpl; rewrite ?E2, ?E3; done.
Qed.

(** The entry a lease has been taken of: an HTTP/1 sender leaves its slot. *)
Definition leased (e : ConnEntry) : ConnEntry :=
  e <| slot := is_h2 e && slot e |> <| out ::= S |> <| active := fetch_add 32 (active e) 1 |>.

Lemma run_take_lease t id e s :
  entries s !! id = Some e → is_h2 e || slot e = true →
  run t (take_lease id) s = Some (s <| entries ::= insert id (leased e) |>, Some id).
Proof.
  intros E E2. unfold take_lease, on_entry. simpl. rewrite E.
  destruct e as [h2 sl ac pa de dr pc o re]. simpl in E2 |- *.
  destruct h2, sl; simpl in *; try done; do 3 f_equal; destruct s; simpl; f_equal;
    apply map_eq; intros i; destruct (decide (id = i)) as [<-|];
    by rewrite ?lookup_alter_eq, ?lookup_insert_eq, ?lookup_alter_ne, ?lookup_insert_ne.
Qed.

Lemma run_reuse_from t cap s pre id post e :
  Forall (λ i, eligible_now cap s i = false) pre → eligible_now cap s id = true →
  entries s !! id = Some e →
  run t (reuse_from cap (pre ++ id :: post)) s =
    Some (s <| entries ::= insert id (leased e) |>, Some id).
Proof.
  intros Hpre Hid He. induction Hpre as [|i pre Hi _ IH]; cbn [app reuse_from].
  - rewrite run_bind, run_eligible, Hid.
    rewrite run_bind, (run_take_lease t id e); [done|done|].
    unfold eligible_now in Hid. rewrite He in Hid. rewrite !andb_true_iff in Hid. by destruct Hid.
  - rewrite run_bind, run_eligible, Hi. apply IH.
Qed.

(** Up to the connect: the first eligible entry is leased, nothing is locked. *)
Lemma run_start_reuse t m cap key s pre id post e :
  closed s = false → conns s !! key = Some (pre ++ id :: post) →
  Forall (λ i, eligible_now cap s i = false) pre → eligible_now cap s id = true →
  entries s !! id = Some e →
  run t (start_acquire m cap key) s =
    Some (s <| entries ::= insert id (leased e) |>, Some (inr id)).
Proof.
  intros Hc Hl Hpre Hid He. unfold start_acquire. rewrite !run_bind.
  simpl (run t (load _) s). cbv iota. rewrite Hc. unfold reuse. rewrite !run_bind.
  simpl (run t (load _) s). cbv iota. rewrite Hl. by rewrite (run_reuse_from t cap s pre id post e).
Qed.

(** An idle connection is reused.  When the pool is open and the list of a key
    has an eligible entry, [acquire] leases the first eligible one in the list:
    an HTTP/1 sender leaves its slot, the active count goes up by one, and nothing
    is dialled or locked. *)
Theorem acquire_reuses_first_eligible t m cap key dial s pre id post e :
  closed s = false → conns s !! key = Some (pre ++ id :: post) →
  Forall (λ i, eligible_now cap s i = false) pre → eligible_now cap s id = true →
  entries s !! id = Some e →
  run t (acquire m cap key dial) s =
    Some (s <| entries ::= insert id (leased e) |>, inr id).
Proof.
  intros Hc Hl Hpre Hid He. unfold acquire.
  by rewrite (run_bind_Some _ _ _ _ _ _ (run_start_reuse t m cap key s pre id post e Hc Hl Hpre Hid He)).
Qed.

(** Dropping a lease of an open connection leaves it as it was before. *)
Lemma run_lease_drop_leased t id e s :
  entries s !! id = Some e → is_h2 e || slot e = true → peer_closed e = false → in_width 32 (active e) →
  run t (lease_drop id) (s <| entries ::= insert id (leased e) |>) = Some (s, tt).
Proof.
  intros He Hsl Hp Ha. unfold lease_drop. simpl. rewrite lookup_insert_eq. simpl.
  rewrite lookup_insert_eq. simpl. do 2 f_equal. destruct s; simpl in *; unfold upd; simpl.
  f_equal. apply map_eq. intros i. destruct (decide (id = i)) as [<-|];
    rewrite ?lookup_alter_eq, ?lookup_insert_eq, ?lookup_alter_ne, ?lookup_insert_ne by done; [|done].
  rewrite He. destruct e as [h2 sl ac pa de dr pc o re]. simpl in *. subst pc. f_equal.
  assert (Hw : fetch_sub 32 (fetch_add 32 ac 1) 1 = ac) by (by apply fetch_add_sub).
  destruct h2; simpl in *; unfold upd; simpl; rewrite Hw; [done|]. by subst sl.
Qed.

(** ** Schedules *)

(** Continuations that only return when the acquire failed to connect, or got
    the lease of an entry. *)
Definition failed (r : Hyper4kErrorKind + nat) : prog pool unit :=
  atomic (λ _ s, match r with
                 | inl k => if k =? HYPER4K_ERR_CONNECT then Some (s, tt) else None
                 | inr _ => None
                 end).
Definition got (id : nat) (r : Hyper4kErrorKind + nat) : prog pool unit :=
  atomic (λ _ s, match r with
                 | inl _ => None
                 | inr i => if decide (i = id) then Some (s, tt) else None
                 end).

Definition example_key : PoolKey := pool_key (lit "http") (lit "Example.org") 80.

(** One thread dials, another asks for the same key. *)
Definition dial_race : config pool :=
  Config pool_new
    [r <- acquire DEFAULT_MAX_CONNS_PER_KEY DEFAULT_PAUSED_CAP example_key (inr false) ;; failed r;
     r <- acquire DEFAULT_MAX_CONNS_PER_KEY DEFAULT_PAUSED_CAP example_key (inr false) ;; got 1 r].

(** A dial can succeed and its caller be told that connecting failed. The
    new HTTP/1 connection is put into the pool before its own lease is taken, so
    another request can take the only sender in between; the request that
    dialled then reports CONNECT although its connection is open. *)
Theorem dialler_loses_its_connection :
  ∃ c, reachable dial_race c ∧
    finished_thread 0 c = true ∧ finished_thread 1 c = true ∧
    conn_list (shared c) example_key = [1%nat] ∧ live (shared c) 1 = true.
Proof.
  destruct (exec_test_reachable (replicate 7 0 ++ replicate 9 1 ++ replicate 3 0)%nat dial_race
    (λ c, finished_thread 0 c && finished_thread 1 c &&
          bool_decide (conn_list (shared c) example_key = [1%nat]) && live (shared c) 1))
    as (c & Hr & Hc); [vm_compute; reflexivity|].
  rewrite !andb_true_iff, bool_decide_eq_true in Hc. exists c. intuition.
Qed.

(** One thread dials while another shuts the pool down. *)
Definition shutdown_race : config pool :=
  Config pool_new
    [r <- acquire DEFAULT_MAX_CONNS_PER_KEY DEFAULT_PAUSED_CAP example_key (inr false) ;; got 1 r;
     pool_shutdown].

(** A connection can outlive shutdown. An acquire that is connecting while
    the pool is shut down does not look at [closed] again: it puts its entry into
    the emptied map and hands out a lease; shutdown has completed, and the
    connection's driver was neither aborted nor joined. *)
Theorem driver_outlives_shutdown :
  ∃ c e, reachable shutdown_race c ∧
    finished_thread 0 c = true ∧ finished_thread 1 c = true ∧
    shutdown_complete (shared c) = true ∧
    conn_list (shared c) example_key = [1%nat] ∧
    entries (shared c) !! 1%nat = Some e ∧ driver e = true ∧ aborted (shared c) = [].
Proof.
  destruct (exec_test_reachable (replicate 5 0 ++ replicate 6 1 ++ replicate 6 0)%nat shutdown_race
    (λ c, finished_thread 0 c && finished_thread 1 c && shutdown_complete (shared c) &&
          bool_decide (conn_list (shared c) example_key = [1%nat]) &&
          (match entries (shared c) !! 1%nat with Some e => driver e | None => false end) &&
          bool_decide (aborted (shared c) = [])))
    as (c & Hr & Hc); [vm_compute; reflexivity|].
  rewrite !andb_true_iff, !bool_decide_eq_true in Hc.
  destruct (entries (shared c) !! 1%nat) as [e|] eqn:E; [|intuition done].
  exists c, e. intuition.
Qed.

(** ** Witnesses *)

(** Two requests to one host, each dropping its lease when it is done. *)
Definition one_request : prog pool unit :=
  r <- acquire DEFAULT_MAX_CONNS_PER_KEY DEFAULT_PAUSED_CAP example_key (inr false) ;;
  match r with
  | inr id => lease_drop id ;; Ret tt
  | inl _ => Ret tt
  end.

Definition two_requests : config pool := Config pool_new [one_request; one_request].

(** The first has dialled and holds its lease; the second is about to look. *)
Definition one_leased : config pool := default two_requests (exec (replicate 10 0 ++ [1])%nat two_requests).

Lemma one_leased_reachable : reachable two_requests one_leased.
Proof.
  unfold one_leased. destruct (exec _ two_requests) eqn:E; [by eapply exec_reachable|apply rtc_refl].
Qed.

Lemma two_requests_ok :
  Forall (pool_program DEFAULT_MAX_CONNS_PER_KEY DEFAULT_PAUSED_CAP) [one_request; one_request].
Proof.
  assert (pool_program DEFAULT_MAX_CONNS_PER_KEY DEFAULT_PAUSED_CAP one_request).
  { apply pool_acquire. intros [k|id]; [apply pool_done|]. apply pool_drop, pool_done. }
  repeat apply Forall_cons_2; auto.
Qed.

Lemma h1_connection_is_exclusive_witness :
  ∃ e, entries (shared one_leased) !! 1%nat = Some e ∧ out e = 1%nat ∧ (out e ≤ 1)%nat.
Proof.
  destruct (entries (shared one_leased) !! 1%nat) as [e|] eqn:E; [|vm_compute in E; discriminate E].
  assert (is_h2 e = false ∧ out e = 1%nat) as [H2 Ho].
  { vm_compute in E. injection E as <-. split; reflexivity. }
  exists e. split; [reflexivity|]. split; [exact Ho|].
  exact (proj1 (h1_connection_is_exclusive _ _ _ one_leased 1%nat e two_requests_ok
    one_leased_reachable E H2)).
Defined.

Lemma connections_per_key_are_capped_witness :
  live_ids (shared one_leased) (conn_list (shared one_leased) example_key) = [1%nat] ∧
  Z.of_nat (length (live_ids (shared one_leased) (conn_list (shared one_leased) example_key))) ≤ 8.
Proof.
  split; [vm_compute; reflexivity|].
  apply (connections_per_key_are_capped DEFAULT_MAX_CONNS_PER_KEY DEFAULT_PAUSED_CAP)
    with (ts := [one_request; one_request]).
  - vm_compute. discriminate.
  - exact two_requests_ok.
  - exact one_leased_reachable.
Defined.

(** A dead connection and an idle one. *)
Definition mixed_pool : pool :=
  pool_new <| conns := {[example_key := [1; 2]%nat]} |> <| next_entry := 3%nat |>
    <| entries := {[1%nat := (new_entry false) <| dead := true |>; 2%nat := new_entry false]} |>.

Lemma acquire_reuses_first_eligible_witness :
  run 0 (acquire 8 4 example_key (inl HYPER4K_ERR_DNS)) mixed_pool =
    Some (mixed_pool <| entries ::= insert 2%nat (leased (new_entry false)) |>, inr 2%nat).
Proof.
  apply (acquire_reuses_first_eligible 0 8 4 example_key (inl HYPER4K_ERR_DNS) mixed_pool
    [1%nat] 2%nat [] (new_entry false)).
  - reflexivity.
  - vm_compute. reflexivity.
  - repeat constructor.
  - reflexivity.
  - reflexivity.
Defined.
