(* ===== verification/Leases.v ===== *)
(** * Every lease is given back

    The books of the pool: who holds leases of which connection, and who holds a
    dial lock.  The counts of an entry are exactly the leases that exist, and an
    HTTP/1 sender that nobody holds is in its slot, unless the connection has been
    given up.  [take_lease], [acquire] and [lease_drop] keep the books, and giving
    a lease back never waits. *)

From S2P Require Import Prelude Conc Ledger Abi Pool.

Open Scope prog_scope.

(** A lease, from the taking of the sender to the end of its [Drop]: the count is
    yet to be raised, held, the sender is yet to be put back, the count is yet to
    be lowered. *)
Inductive stage := Taken | Held | Back | Given.
Inductive token := Lease (id : nat) (st : stage) | Dial (key : PoolKey).

#[export] Instance stage_eq_dec : EqDecision stage.
Proof. solve_decision. Defined.
#[export] Instance token_eq_dec : EqDecision token.
Proof. solve_decision. Defined.

(** ** The books of a pool *)

Record entry_books (e : ConnEntry) (n : stage → nat) : Prop := EntryBooks {
  eb_out : out e = (n Taken + n Held)%nat;
  eb_returning : returning e = n Back;
  eb_active : active e = wrap 32 (Z.of_nat (n Held + n Back + n Given));
  eb_h1 : is_h2 e = false →
    ((if slot e then 1 else 0) + out e + returning e ≤ 1)%nat ∧
    (slot e = false → out e = 0%nat → returning e = 0%nat → dead e = true);
}.

Definition locked (s : pool) (key : PoolKey) : bool :=
  match dial_locks s !! key with Some (Some _) => true | _ => false end.

Record pool_books (s : pool) (m : holding token) : Prop := PoolBooks {
  pb_entries id :
    match entries s !! id with
    | Some e => entry_books e (λ st, m (Lease id st))
    | None => ∀ st, m (Lease id st) = 0%nat
    end;
  pb_locks key : m (Dial key) = if locked s key then 1%nat else 0%nat;
  pb_next id : (next_entry s ≤ id)%nat → entries s !! id = None;
}.

Lemma pool_books_same s m n : same m n → pool_books s m → pool_books s n.
Proof.
  intros Hmn [He Hl Hn]. split; [|intros key; by rewrite <- Hmn|done].
  intros id. specialize (He id). destruct (entries s !! id) as [e|]; [|intros st; by rewrite <- Hmn].
  destruct He. by split; rewrite <- ?Hmn.
Qed.

(** A change to entries. *)
Lemma books_entries s s' m m' :
  pool_books s m → dial_locks s' = dial_locks s → next_entry s' = next_entry s →
  (∀ key, m' (Dial key) = m (Dial key)) →
  (∀ id, match entries s !! id with
         | Some e => ∃ e', entries s' !! id = Some e' ∧
             (entry_books e (λ st, m (Lease id st)) → entry_books e' (λ st, m' (Lease id st)))
         | None => entries s' !! id = None ∧
             ((∀ st, m (Lease id st) = 0%nat) → ∀ st, m' (Lease id st) = 0%nat)
         end) →
  pool_books s' m'.
Proof.
  intros [He Hl Hn] E1 E2 Hm Hid. split; unfold locked; rewrite ?E1, ?E2.
  - intros id. specialize (He id). specialize (Hid id).
    destruct (entries s !! id) as [e|]; [destruct Hid as (e' & -> & ?)|destruct Hid as [-> ?]]; auto.
  - intros key. rewrite Hm. apply Hl.
  - intros id Hle. specialize (Hid id). rewrite Hn in Hid by done. by destruct Hid.
Qed.

(** A change to one of them. *)
Lemma books_entry s id e e' m m' :
  pool_books s m → entries s !! id = Some e →
  (∀ k, (∀ st, k ≠ Lease id st) → m' k = m k) →
  (entry_books e (λ st, m (Lease id st)) → entry_books e' (λ st, m' (Lease id st))) →
  pool_books (s <| entries ::= insert id e' |>) m'.
Proof.
  intros Hs Ee Hm He. eapply books_entries; [exact Hs|done|done|intros; by apply Hm|].
  intros i. simpl. destruct (decide (id = i)) as [<-|Hne].
  - rewrite Ee, lookup_insert_eq. eauto.
  - assert (Hl : ∀ st, m' (Lease i st) = m (Lease i st)) by (intros st; apply Hm; congruence).
    rewrite lookup_insert_ne by done. destruct (entries s !! i) as [x|].
    + exists x. split; [done|]. intros []. split; rewrite ?Hl; done.
    + split; [done|]. intros H0 st. by rewrite Hl.
Qed.

Lemma entry_alter (f : ConnEntry → ConnEntry) id (es : gmap nat ConnEntry) e :
  es !! id = Some e → alter f id es = <[id := f e]> es.
Proof.
  intros E. apply map_eq. intros i. destruct (decide (id = i)) as [<-|].
  - by rewrite lookup_alter_eq, E, lookup_insert_eq.
  - by rewrite lookup_alter_ne, lookup_insert_ne.
Qed.

(** ** Actions that move no lease *)

#[local] Abbreviation psilent := (silent pool_books) (only parsing).

(** What the books of an entry look at. *)
Definition booked (e e' : ConnEntry) : Prop :=
  out e' = out e ∧ returning e' = returning e ∧ active e' = active e ∧ is_h2 e' = is_h2 e ∧
  slot e' = slot e ∧ (dead e = true → dead e' = true).

Lemma booked_books e e' n : booked e e' → entry_books e n → entry_books e' n.
Proof.
  intros (E1 & E2 & E3 & E4 & E5 & E6) [H1 H2 H3 H4]. split; rewrite ?E1, ?E2, ?E3, ?E4, ?E5; try done.
  intros Hh. destruct (H4 Hh) as [? Hd]. split; auto.
Qed.

Lemma silent_on_entry id f : (∀ e, booked e (f e)) → psilent (on_entry id f).
Proof.
  intros Hf. apply silent_modify. intros s m Hs.
  eapply books_entries; [exact Hs|done..|]. intros i. simpl. destruct (decide (id = i)) as [<-|].
  - rewrite lookup_alter_eq. destruct (entries s !! id) as [e|]; simpl; [|done].
    eexists. split; [done|]. by apply booked_books.
  - rewrite lookup_alter_ne by done. destruct (entries s !! i) as [e|]; [by exists e|done].
Qed.

(** A change outside the entries, the locks and the ids. *)
Lemma silent_elsewhere (f : pool → pool) :
  (∀ s, entries (f s) = entries s ∧ dial_locks (f s) = dial_locks s ∧ next_entry (f s) = next_entry s) →
  psilent (modify f).
Proof.
  intros Hf. apply silent_modify. intros s m [He Hl Hn]. destruct (Hf s) as (E1 & E2 & E3).
  split; unfold locked; by rewrite ?E1, ?E2, ?E3.
Qed.

Create HintDb books.
#[export] Hint Resolve silent_ret silent_load : books.

Ltac silent_tac :=
  repeat first
    [ solve [auto with books]
    | apply silent_on_entry; intros; solve [by split_and!]
    | apply silent_elsewhere; intros; solve [by split_and!]
    | apply silent_fetch; intros; solve [done]
    | apply silent_bind; [|intros ?]
    | case_match ].

Lemma silent_entry_closed id : psilent (entry_closed id).
Proof. unfold entry_closed, load_entry. silent_tac. Qed.
#[export] Hint Resolve silent_entry_closed : books.

Lemma silent_eligible n id : psilent (eligible n id).
Proof. unfold eligible, load_entry. silent_tac. Qed.

Lemma silent_count_live l : psilent (count_live l).
Proof. induction l as [|id l IH]; cbn [count_live]; silent_tac. Qed.

Lemma silent_push key id : psilent (push_conn key id).
Proof. unfold push_conn. silent_tac. Qed.

(** A new entry has no leases and its sender in the slot. *)
Lemma silent_create h2 : psilent (create_entry h2).
Proof.
  apply silent_fetch. intros s m [He Hl Hn]. simpl. split; simpl.
  - intros id. destruct (decide (next_entry s = id)) as [<-|Hne].
    + rewrite lookup_insert_eq. specialize (He (next_entry s)). rewrite Hn in He by lia.
      split; simpl; rewrite ?He; try done. intros E. destruct h2; [done|]. simpl. split; [lia|done].
    + rewrite lookup_insert_ne by done. apply He.
  - done.
  - intros id Hid. rewrite lookup_insert_ne by lia. apply Hn. lia.
Qed.

Lemma silent_kill_list l : psilent (kill_list l).
Proof.
  induction l as [|id l IH]; cbn [kill_list]; [silent_tac|].
  apply silent_bind; [silent_tac|intros _]. apply silent_bind; [|intros ?; silent_tac].
  apply silent_fetch. intros s m Hs. destruct (entries s !! id) as [e|] eqn:E; [|done].
  apply (books_entry s id e _ m m); [done|done|done|]. by apply booked_books.
Qed.
#[export] Hint Resolve silent_eligible silent_count_live silent_push silent_create silent_kill_list : books.

Lemma silent_shutdown : psilent pool_shutdown.
Proof.
  unfold pool_shutdown. apply silent_bind; [|intros [|]].
  - apply silent_fetch. intros s m [He Hl Hn]. by split.
  - apply silent_atomic. intros t s s' r m Hs E. destruct (shutdown_complete s); by simplify_eq.
  - silent_tac.
Qed.

Lemma silent_total_paused : psilent total_paused.
Proof.
  assert (∀ l, psilent (sum_paused l)) as Hs
    by (induction l; cbn [sum_paused]; unfold load_entry; silent_tac).
  unfold total_paused. silent_tac.
Qed.

Lemma silent_peer_closes id : psilent (peer_closes id).
Proof. unfold peer_closes. silent_tac. Qed.

Lemma silent_is_closed id : psilent (lease_is_closed id).
Proof. unfold lease_is_closed, load_entry. silent_tac. Qed.
#[export] Hint Resolve silent_shutdown silent_total_paused silent_peer_closes silent_is_closed : books.

(** ** Taking and giving back *)

Section thread.
Context (t : nat).

#[local] Abbreviation powns := (owns pool_books t) (only parsing).

Definition never (s : pool) (n : holding token) : Prop := False.

(** The holding after the taking of a lease. *)
Definition leased (r : option nat) (n : holding token) : Prop :=
  match r with Some c => same n (one (Lease c Held)) | None => same n none end.

(** Holding [k] besides [M], in numbers. *)
Ltac tokens :=
  unfold plus, one, none in *; simpl in *;
  repeat match goal with
  | |- context [decide ?P] => destruct (decide P); [try congruence|try congruence]
  | H : context [decide ?P] |- _ => destruct (decide P); [try congruence|try congruence]
  end; try done.

Lemma owns_take_lease id : powns never (take_lease id) none leased.
Proof.
  unfold take_lease. eapply owns_bind with (N := λ (got : bool) n,
    if got then n = one (Lease id Taken) else n = none).
  - apply owns_atomic. intros s M Hs. destruct (entries s !! id) as [e|] eqn:E; [|by exists none].
    assert (Hins : ∀ e', (entry_books e (λ st, plus none M (Lease id st)) →
        entry_books e' (λ st, plus (one (Lease id Taken)) M (Lease id st))) →
      pool_books (s <| entries ::= insert id e' |>) (plus (one (Lease id Taken)) M)).
    { intros e' He. apply (books_entry s id e e' (plus none M)); [done|done| |done].
      intros k Hk. tokens. }
    destruct (is_h2 e) eqn:E2; [|destruct (slot e) eqn:E3; [|by exists none]];
      (eexists; split; [apply Hins|done]); intros [H1 H2 H3 H4]; split; tokens; try lia;
      intros ?; [congruence|].
    destruct (H4 E2) as [H5 _]. rewrite E3 in H5. split; [lia|done].
  - intros [|] m ->; [|by simpl]. eapply owns_bind with (N := λ _ n, n = one (Lease id Held));
      [|intros ? m ->; by simpl].
    apply owns_atomic. intros s M Hs. exists (one (Lease id Held)). split; [|done].
    pose proof (pb_entries _ _ Hs id) as Hid. destruct (entries s !! id) as [e|] eqn:E.
    2: { specialize (Hid Taken). tokens. }
    assert (pool_books (s <| entries ::= insert id
      (e <| active := fetch_add 32 (active e) 1 |>) |>) (plus (one (Lease id Held)) M)) as Hb.
    { apply (books_entry s id e _ (plus (one (Lease id Taken)) M)); [done|done| |].
      - intros k Hk. tokens.
      - intros [H1 H2 H3 H4]. split; tokens; try lia. rewrite H3. unfold fetch_add, wrap.
        rewrite Z.add_mod_idemp_l by done. f_equal. lia. }
    destruct Hb as [B1 B2 B3]. split; simpl in *; rewrite (entry_alter _ _ _ e) by done; done.
Qed.

(** A part that moves no lease and cannot wait, before the rest. *)
Lemma owns_after {A C} B (p : prog pool A) (g : A → prog pool C) m Q :
  psilent p → nowait p → (∀ a, powns B (g a) m Q) → powns B (pbind p g) m Q.
Proof.
  intros Hp Hw Hg. eapply owns_bind; [by apply owns_nowait|]. intros a m' ->. apply Hg.
Qed.

Lemma leased_same r n n' : same n n' → leased r n → leased r n'.
Proof. intros Hn. destruct r as [c|]; intros Hl k; rewrite <- Hn; apply Hl. Qed.

Lemma nowait_entry_closed id : nowait (entry_closed id).
Proof. unfold entry_closed, load_entry. nowait_tac. Qed.
Lemma nowait_eligible n id : nowait (eligible n id).
Proof. pose proof (nowait_entry_closed id). unfold eligible, load_entry. nowait_tac. Qed.
Lemma nowait_count_live l : nowait (count_live l).
Proof. pose proof nowait_entry_closed. induction l as [|id l IH]; cbn [count_live]; nowait_tac. Qed.

Lemma owns_reuse n key : powns never (reuse n key) none leased.
Proof.
  assert (∀ l, powns never (reuse_from n l) none leased) as Hr.
  { induction l as [|id l IH]; cbn [reuse_from]; [done|].
    apply owns_after; [auto with books|apply nowait_eligible|]. intros [|]; [|exact IH].
    eapply owns_bind; [apply owns_take_lease|]. intros [c|] m Hm; [exact Hm|].
    eapply (owns_same _ pool_books_same); [done|apply leased_same| |exact IH].
    intros k. by rewrite Hm. }
  unfold reuse. apply owns_after; [auto with books|apply nowait_load|]. intros [l|]; [apply Hr|done].
Qed.

(** ** The dial lock *)

Lemma owns_lock_dial key :
  powns (λ _, same none) (lock_dial key) none (λ _ n, n = one (Dial key)).
Proof.
  apply owns_atomic. intros s M Hs.
  assert (Hb : locked s key = false →
    pool_books (s <| dial_locks ::= insert key (Some t) |>) (plus (one (Dial key)) M)).
  { intros Hf. destruct Hs as [He Hl Hn]. split; [|intros key'|done].
    - intros id. specialize (He id). simpl. destruct (entries s !! id) as [e|]; [|intros st; apply He].
      destruct He. by split.
    - specialize (Hl key'). unfold locked in *. simpl. destruct (decide (key = key')) as [<-|Hne].
      + rewrite lookup_insert_eq. rewrite Hf in Hl. tokens. lia.
      + rewrite lookup_insert_ne by done. rewrite <- Hl. tokens. }
  unfold locked in Hb. destruct (dial_locks s !! key) as [[]|]; [done|eauto..].
Qed.

Lemma owns_unlock_dial key : powns never (unlock_dial key) (one (Dial key)) (λ _ n, n = none).
Proof.
  apply owns_atomic. intros s M [He Hl Hn]. exists none. split; [|done]. split; [|intros key'|done].
  - intros id. specialize (He id). simpl. destruct (entries s !! id) as [e|]; [|intros st; apply He].
    destruct He. by split.
  - specialize (Hl key'). unfold locked in *. simpl. destruct (decide (key = key')) as [<-|Hne].
    + rewrite lookup_insert_eq. tokens. destruct (dial_locks s !! key) as [[]|]; lia.
    + rewrite lookup_insert_ne by done. rewrite <- Hl. tokens.
Qed.

(** Unlocking with something else in hand. *)
Lemma owns_unlock_with key m F :
  same m (plus F (one (Dial key))) → powns never (unlock_dial key) m (λ _ n, same n F).
Proof.
  intros Hm. eapply (owns_same _ pool_books_same) with (m := plus (one (Dial key)) F).
  - done.
  - intros a n n' Hn Hs k. by rewrite <- Hn.
  - intros k. rewrite (Hm k). apply Nat.add_comm.
  - eapply owns_mono; [| |apply (owns_frame _ pool_books_same), owns_unlock_dial].
    + by intros ? n (n0 & _ & []).
    + intros a n (n0 & Hn & ->) k. rewrite Hn. done.
Qed.

(** Taking a lease with the lock in hand. *)
Lemma owns_locked key (p : prog pool (option nat)) :
  powns never p none leased →
  powns never p (one (Dial key)) (λ r n, ∃ n0, same n (plus n0 (one (Dial key))) ∧ leased r n0).
Proof.
  intros Hp. eapply (owns_same _ pool_books_same) with (m := plus none (one (Dial key))); [done| |done|].
  - intros a n n' Hn (n0 & Hs & ?). exists n0. split; [|done]. intros k. by rewrite <- Hn.
  - eapply owns_mono; [| |apply (owns_frame _ pool_books_same), Hp]; [|done]. by intros ? n (n0 & _ & []).
Qed.

(** ** [acquire] *)

Definition acquired (r : Hyper4kErrorKind + nat) (n : holding token) : Prop :=
  match r with inl _ => same n none | inr c => same n (one (Lease c Held)) end.

Lemma acquired_same r n n' : same n n' → acquired r n → acquired r n'.
Proof. intros Hn. destruct r as [c|]; intros Hl k; rewrite <- Hn; apply Hl. Qed.

(** With the dial lock in hand; without an answer yet only the lock. *)
Definition acquired_locked (key : PoolKey) (r : option (Hyper4kErrorKind + nat)) (n : holding token) : Prop :=
  ∃ n0, same n (plus n0 (one (Dial key))) ∧
    match r with Some r => acquired r n0 | None => same n0 none end.

Lemma owns_check_locked max cap key :
  powns never (check_locked max cap key) (one (Dial key)) (acquired_locked key).
Proof.
  unfold check_locked. eapply owns_bind; [apply owns_locked, owns_reuse|].
  intros [c|] m (n0 & Hm & Hl); [by exists n0|].
  apply owns_after; [auto with books|apply nowait_load|]. intros l.
  apply owns_after; [auto with books|apply nowait_count_live|]. intros live.
  destruct (max <=? live); by exists n0.
Qed.

Lemma owns_start_acquire max cap key :
  powns (λ _, same none) (start_acquire max cap key) none
    (λ r n, match r with Some r => acquired r n | None => same n (one (Dial key)) end).
Proof.
  unfold start_acquire. apply owns_after; [auto with books|apply nowait_load|]. intros [|]; [done|].
  eapply owns_bind; [eapply owns_mono; [| |apply owns_reuse]; [done|intros ??; exact id]|].
  intros [c|] m Hm; [exact Hm|].
  eapply (owns_same _ pool_books_same) with (m := none).
  { intros _ n n' Hn Hs k. by rewrite <- Hn. }
  { intros [r|] n n' Hn Hs; [by eapply acquired_same|]. intros k. by rewrite <- Hn. }
  { intros k. by rewrite Hm. }
  eapply owns_bind; [apply owns_lock_dial|]. intros [] ? ->.
  eapply owns_bind; [eapply owns_mono; [| |apply owns_check_locked]; [done|intros ??; exact id]|].
  intros [r|] n (n0 & Hn & Hr).
  - eapply owns_bind; [eapply owns_mono; [| |by apply owns_unlock_with]; [done|intros ??; exact id]|].
    intros [] n' Hn'. simpl. eapply acquired_same; [|exact Hr]. intros k. by rewrite Hn'.
  - intros k. rewrite Hn. unfold plus. by rewrite Hr.
Qed.

Lemma owns_finish_acquire key dial :
  powns never (finish_acquire key dial) (one (Dial key)) acquired.
Proof.
  unfold finish_acquire.
  eapply owns_bind with (N := λ r, acquired_locked key (Some r)).
  - unfold add_connection. destruct dial as [e|h2]; [by exists none|].
    apply owns_after; [auto with books|apply nowait_fetch|]. intros id.
    apply owns_after; [auto with books|apply nowait_modify|]. intros _.
    eapply owns_bind; [apply owns_locked, owns_take_lease|].
    intros [c|] m (n0 & Hm & Hl); by exists n0.
  - intros r m (n0 & Hm & Hr). eapply owns_bind; [by apply owns_unlock_with|].
    intros [] n Hn. simpl. eapply acquired_same; [|exact Hr]. intros k. by rewrite Hn.
Qed.

(** ** [Lease::drop] *)

(** One lease of [id] goes from one stage to the next. *)
Lemma books_move s id e e' st st' M :
  pool_books s (plus (one (Lease id st)) M) → entries s !! id = Some e →
  (entry_books e (λ x, plus (one (Lease id st)) M (Lease id x)) →
   entry_books e' (λ x, plus (one (Lease id st')) M (Lease id x))) →
  pool_books (s <| entries ::= insert id e' |>) (plus (one (Lease id st')) M).
Proof.
  intros Hs E He. apply (books_entry s id e e' (plus (one (Lease id st)) M)); [done|done| |done].
  intros k Hk. tokens.
Qed.

Lemma held_entry s id st M :
  pool_books s (plus (one (Lease id st)) M) →
  ∃ e, entries s !! id = Some e ∧ entry_books e (λ x, plus (one (Lease id st)) M (Lease id x)).
Proof.
  intros Hs. pose proof (pb_entries _ _ Hs id) as He.
  destruct (entries s !! id) as [e|]; [by exists e|]. specialize (He st). tokens.
Qed.

(** Giving a lease back never waits and leaves nothing held. *)
Lemma owns_lease_drop id : powns never (lease_drop id) (one (Lease id Held)) (λ _ n, n = none).
Proof.
  unfold lease_drop. eapply owns_bind with (N := λ _ n, n = one (Lease id Back)).
  { apply owns_atomic. intros s M Hs. destruct (held_entry _ _ _ _ Hs) as (e & Ee & He).
    rewrite Ee. destruct (out e) as [|n] eqn:Eo; [destruct He; tokens; lia|].
    eexists. split; [apply (books_move s id e _ Held Back M Hs Ee)|done].
    intros [H1 H2 H3 H4]. split; tokens; try lia.
    - rewrite H3. f_equal. lia.
    - intros E2. destruct (H4 E2). split; [lia|]. intros. lia. }
  intros gone ? ->. eapply owns_bind with (N := λ _ n, n = one (Lease id Given)).
  { apply owns_atomic. intros s M Hs. destruct (held_entry _ _ _ _ Hs) as (e & Ee & He).
    rewrite Ee. destruct (returning e) as [|n] eqn:Er; [destruct He; tokens; lia|].
    eexists. split; [apply (books_move s id e _ Back Given M Hs Ee)|done].
    intros [H1 H2 H3 H4]. simpl. destruct gone; [|destruct (is_h2 e) eqn:E2];
      split; tokens; try lia; try (rewrite H3; f_equal; lia).
    intros E2. destruct (H4 E2). split; [lia|done]. }
  intros [] ? ->. apply owns_atomic. intros s M Hs. exists none. split; [|done].
  destruct (held_entry _ _ _ _ Hs) as (e & Ee & He).
  assert (pool_books (s <| entries ::= insert id (e <| active := fetch_sub 32 (active e) 1 |>) |>)
    (plus none M)) as [B1 B2 B3].
  { apply (books_entry s id e _ (plus (one (Lease id Given)) M)); [done|done|intros k Hk; tokens|].
    intros [H1 H2 H3 H4]. split; tokens; try lia. rewrite H3. unfold fetch_sub, wrap.
    rewrite Zminus_mod_idemp_l. f_equal. lia. }
  split; simpl in *; rewrite (entry_alter _ _ _ e) by done; done.
Qed.

End thread.

Lemma pool_books_new : pool_books pool_new none.
Proof. split; [intros id; simpl; by rewrite lookup_empty|done|]. intros id _. apply lookup_empty. Qed.

(** When nothing is held: every sender is back, every count is zero, every dial
    lock is free. *)
Definition at_rest (s : pool) : Prop :=
  (∀ id e, entries s !! id = Some e →
     out e = 0%nat ∧ returning e = 0%nat ∧ active e = 0 ∧
     (is_h2 e = false → slot e = true ∨ dead e = true)) ∧
  ∀ key, locked s key = false.

Lemma books_at_rest s : pool_books s none → at_rest s.
Proof.
  intros [He Hl Hn]. split.
  - intros id e E. specialize (He id). rewrite E in He. destruct He as [H1 H2 H3 H4].
    split_and!; [done|done|done|]. intros E2. destruct (H4 E2) as [_ Hd].
    destruct (slot e); [by left|right]. by apply Hd.
  - intros key. specialize (Hl key). by destruct (locked s key).
Qed.
