(* ===== verification/Headers.v ===== *)
(** * The header block: "Name: Value\n" text and [HeaderMap]

    Source: [parse_headers] and [trim_ascii] of [lib/src/lib.rs], and the
    header buffer that [handle] builds for the request callback.

    [HeaderName], [HeaderValue] and [HeaderMap] belong to the http crate.  They
    are the class [HttpHeaders]; [HttpHeadersLaws] is the documented behaviour
    the theorems use, and [Module Concrete] an instance of both. *)

From S2P Require Import Prelude.

(** ** The http crate *)

Class HttpHeaders := {
  HeaderName : Type;
  HeaderValue : Type;
  HeaderMap : Type;
  HeaderName_eq_dec :: EqDecision HeaderName;
  (* HeaderName::from_bytes, HeaderName::as_str *)
  name_from_bytes : bytes → option HeaderName;
  name_as_str : HeaderName → bytes;
  (* HeaderValue::from_bytes, HeaderValue::to_str *)
  value_from_bytes : bytes → option HeaderValue;
  value_to_str : HeaderValue → option bytes;
  (* HeaderMap::new, HeaderMap::append ([None]: it panics, and [try_append], which
     the request builder calls, is an error), HeaderMap::get_all and the number of
     values *)
  map_new : HeaderMap;
  map_append : HeaderMap → HeaderName → HeaderValue → option HeaderMap;
  map_get_all : HeaderMap → HeaderName → list HeaderValue;
  map_len : HeaderMap → nat;
}.

(** Entries a [HeaderMap] has room for before it may panic: its index table is
    limited to 32768 slots, of which it fills at most three quarters. *)
Definition MAX_SIZE : Z := 32768 / 4 * 3.

(** [u8::is_ascii_whitespace]: space, tab, line feed, form feed, carriage return. *)
Definition is_ascii_whitespace (b : Z) : bool :=
  (b =? 32) || (b =? 9) || (b =? 10) || (b =? 12) || (b =? 13).

(** What the laws use of a token character (RFC 9110, section 5.6.2): it is
    neither whitespace nor a colon. *)
Definition name_byte (b : Z) : bool := negb (is_ascii_whitespace b) && negb (b =? 58).

Class HttpHeadersLaws (H : HttpHeaders) := {
  name_as_str_token n : name_as_str n ≠ [] ∧ Forall (λ b, name_byte b = true) (name_as_str n);
  name_from_as_str n : name_from_bytes (name_as_str n) = Some n;
  value_to_str_visible v s :
    value_to_str v = Some s → Forall (λ b, 32 ≤ b < 127 ∨ b = 9) s ∧ value_from_bytes s = Some v;
  visible_value s : Forall (λ b, 32 ≤ b < 127 ∨ b = 9) s → is_Some (value_from_bytes s);
  get_all_new n : map_get_all map_new n = [];
  get_all_append m n v m' n' :
    map_append m n v = Some m' →
    map_get_all m' n' = map_get_all m n' ++ (if decide (n = n') then [v] else []);
  map_len_new : map_len map_new = 0%nat;
  map_len_append m n v m' : map_append m n v = Some m' → map_len m' = S (map_len m);
  append_total m n v : Z.of_nat (map_len m) < MAX_SIZE → is_Some (map_append m n v);
}.

(** ** Slices *)

(** [slice::split]: the pieces between the bytes that satisfy [p]. *)
Fixpoint split (p : Z → bool) (l : bytes) : list bytes :=
  match l with
  | [] => [[]]
  | b :: l =>
      if p b then [] :: split p l
      else match split p l with
           | [] => [[b]]
           | piece :: rest => (b :: piece) :: rest
           end
  end.

(** [slice::strip_suffix] for a one-byte suffix. *)
Definition strip_suffix (c : Z) (l : bytes) : option bytes :=
  match last l with
  | Some b => if b =? c then Some (take (length l - 1) l) else None
  | None => None
  end.

(** [iter().position]. *)
Fixpoint position (p : Z → bool) (l : bytes) : option nat :=
  match l with
  | [] => None
  | b :: l => if p b then Some 0%nat else S <$> position p l
  end.

(** The two loops of [trim_ascii]; the second peels the slice from its end. *)
Fixpoint trim_start (b : bytes) : bytes :=
  match b with
  | first :: rest => if is_ascii_whitespace first then trim_start rest else b
  | [] => []
  end.

Definition trim_end (b : bytes) : bytes := rev (trim_start (rev b)).

Definition trim_ascii (b : bytes) : bytes := trim_end (trim_start b).

Section headers.
Context {H : HttpHeaders}.

(** One turn of the loop of [parse_headers]; [None] is [continue]. *)
Definition parse_line (line : bytes) : option (HeaderName * HeaderValue) :=
  let line := default line (strip_suffix 13 line) in
  if bool_decide (line = []) then None
  else
    match position (λ b, b =? 58) line with
    | None => None
    | Some idx =>
        let name := trim_ascii (take idx line) in
        let value := trim_ascii (drop (idx + 1) line) in
        if bool_decide (name = []) then None
        else
          match name_from_bytes name, value_from_bytes value with
          | Some name, Some value => Some (name, value)
          | _, _ => None
          end
    end.

Fixpoint parse_lines (map : HeaderMap) (lines : list bytes) : option HeaderMap :=
  match lines with
  | [] => Some map
  | line :: lines =>
      match parse_line line with
      | None => parse_lines map lines
      | Some (name, value) =>
          match map_append map name value with
          | Some map => parse_lines map lines
          | None => None
          end
      end
  end.

(** [None] is a null pointer; the result is [None] when [append] panics. *)
Definition parse_headers (raw : option bytes) : option HeaderMap :=
  match raw with
  | None | Some [] => Some map_new
  | Some raw => parse_lines map_new (split (λ b, b =? 10) raw)
  end.

(** The header buffer of [handle], for what iterating [req.headers()] gives. *)
Definition render_line (h : HeaderName * HeaderValue) : bytes :=
  name_as_str h.1 ++ [58; 32] ++ default [] (value_to_str h.2) ++ [10].

Definition header_buf (headers : list (HeaderName * HeaderValue)) : bytes :=
  mjoin (map render_line headers).
End headers.

(** ** Lemmas on slices *)

Lemma trim_start_spec b :
  ∃ pre, b = pre ++ trim_start b ∧ Forall (λ c, is_ascii_whitespace c = true) pre ∧
    ∀ c, head (trim_start b) = Some c → is_ascii_whitespace c = false.
Proof.
  induction b as [|c b (pre & E & Hp & Hh)]; simpl; [by exists []|].
  destruct (is_ascii_whitespace c) eqn:Ec.
  - exists (c :: pre). split_and!; [by rewrite E at 1|by constructor|done].
  - exists []. split_and!; [done|done|]. by intros ? [= <-].
Qed.

Lemma trim_start_fixed b :
  (∀ c, head b = Some c → is_ascii_whitespace c = false) → trim_start b = b.
Proof. destruct b as [|c b]; [done|]. intros Hc. simpl. by rewrite Hc. Qed.

Lemma head_rev {A} (l : list A) : head (rev l) = last l.
Proof.
  destruct l as [|x l _] using rev_ind; [done|]. by rewrite rev_unit, last_snoc.
Qed.

Lemma trim_end_spec b :
  ∃ post, b = trim_end b ++ post ∧ Forall (λ c, is_ascii_whitespace c = true) post ∧
    ∀ c, last (trim_end b) = Some c → is_ascii_whitespace c = false.
Proof.
  unfold trim_end. destruct (trim_start_spec (rev b)) as (pre & E & Hp & Hh).
  exists (rev pre). split_and!.
  - by rewrite <- rev_app_distr, <- E, rev_involutive.
  - by apply List.Forall_rev.
  - intros c. rewrite <- head_rev, rev_involutive. apply Hh.
Qed.

Lemma trim_end_fixed b :
  (∀ c, last b = Some c → is_ascii_whitespace c = false) → trim_end b = b.
Proof.
  intros Hc. unfold trim_end. rewrite trim_start_fixed, rev_involutive; [done|].
  by rewrite head_rev.
Qed.

Lemma split_line p l c r :
  Forall (λ b, p b = false) l → p c = true → split p (l ++ c :: r) = l :: split p r.
Proof.
  intros Hl Hc. induction Hl as [|b l Hb _ IH]; simpl; [by rewrite Hc|]. by rewrite Hb, IH.
Qed.

Lemma position_first p l c r :
  Forall (λ b, p b = false) l → p c = true → position p (l ++ c :: r) = Some (length l).
Proof.
  intros Hl Hc. induction Hl as [|b l Hb _ IH]; simpl; [by rewrite Hc|]. by rewrite Hb, IH.
Qed.

(** [trim_ascii] removes exactly the whitespace around its argument: what
    it drops on either side is whitespace, and what it returns neither starts
    nor ends with whitespace (so it is empty for an all-whitespace slice). *)
Theorem trim_ascii_spec b :
  ∃ pre post, b = pre ++ trim_ascii b ++ post ∧
    Forall (λ c, is_ascii_whitespace c = true) (pre ++ post) ∧
    (∀ c, head (trim_ascii b) = Some c ∨ last (trim_ascii b) = Some c →
          is_ascii_whitespace c = false).
Proof.
  unfold trim_ascii.
  destruct (trim_start_spec b) as (pre & E & Hpre & Hh).
  destruct (trim_end_spec (trim_start b)) as (post & E' & Hpost & Hl).
  exists pre, post. split_and!; [by rewrite <- E'|by apply Forall_app|].
  intros c [Hc|Hc]; [|by apply Hl]. apply Hh. rewrite E'.
  by destruct (trim_end (trim_start b)).
Qed.

(** Only whitespace; a text with no whitespace at either end. *)
Definition blank (b : bytes) : Prop := Forall (λ c, is_ascii_whitespace c = true) b.
Definition unpadded (b : bytes) : Prop :=
  ∀ c, head b = Some c ∨ last b = Some c → is_ascii_whitespace c = false.

Lemma trim_start_blank pre b : blank pre → trim_start (pre ++ b) = trim_start b.
Proof. induction 1 as [|c pre Hc _ IH]; simpl; [done|]. by rewrite Hc. Qed.

Lemma trim_end_blank b post : blank post → trim_end (b ++ post) = trim_end b.
Proof.
  intros Hp. unfold trim_end. rewrite rev_app_distr, trim_start_blank; [done|]. by apply List.Forall_rev.
Qed.

Lemma trim_ascii_fixed b : unpadded b → trim_ascii b = b.
Proof.
  intros Hb. unfold trim_ascii. rewrite trim_start_fixed by (intros c Hc; apply Hb; auto).
  apply trim_end_fixed. intros c Hc. apply Hb. auto.
Qed.

(** Trimming finds the text between two runs of whitespace. *)
Lemma trim_ascii_between pre b post : blank pre → unpadded b → blank post → trim_ascii (pre ++ b ++ post) = b.
Proof.
  intros Hpre Hb Hpost. unfold trim_ascii. rewrite trim_start_blank by done. destruct b as [|c b].
  - simpl. rewrite <- (app_nil_r post), trim_start_blank by done. done.
  - rewrite trim_start_fixed by (intros ? Hc; apply Hb; auto). rewrite trim_end_blank by done.
    apply trim_end_fixed. intros d Hd. apply Hb. auto.
Qed.

Lemma trim_ascii_parts b :
  ∃ pre post, b = pre ++ trim_ascii b ++ post ∧ blank pre ∧ blank post ∧ unpadded (trim_ascii b).
Proof.
  destruct (trim_ascii_spec b) as (pre & post & E & Hw & Hu). exists pre, post.
  apply Forall_app in Hw as [? ?]. by split_and!.
Qed.

(** ** The parsed map *)

(** Lines of a block: no line feed inside, one between any two. *)
Fixpoint join_lines (lines : list bytes) : bytes :=
  match lines with
  | [] => []
  | [l] => l
  | l :: lines => l ++ 10 :: join_lines lines
  end.

Lemma split_lines raw :
  join_lines (split (λ b, b =? 10) raw) = raw ∧
  Forall (λ l, 10 ∉ l) (split (λ b, b =? 10) raw) ∧
  length (split (λ b, b =? 10) raw) = S (length (filter (λ b, b = 10) raw)).
Proof.
  induction raw as [|b raw (Ej & Hn & Hl)]; [split_and!; [done|apply Forall_singleton, not_elem_of_nil|done]|].
  simpl. rewrite filter_cons. destruct (Z.eqb_spec b 10) as [->|Hb].
  - rewrite decide_True by done. destruct (split _ raw) as [|l ls]; [done|]. split_and!.
    + simpl in *. by rewrite Ej.
    + constructor; [by apply not_elem_of_nil|done].
    + simpl in *. lia.
  - rewrite decide_False by done. destruct (split _ raw) as [|l ls]; [done|]. split_and!.
    + simpl in *. destruct ls; by rewrite <- Ej.
    + apply Forall_cons in Hn as [Hnl ?]. constructor; [|done].
      by intros [?|?]%elem_of_cons.
    + done.
Qed.

Section parse.
Context {H : HttpHeaders} {HL : HttpHeadersLaws H}.

(** A line that is a header, said without the parser: a name and a value around
    the first colon, with any whitespace (the carriage return of a CR LF among
    it) before and after each. *)
Definition header_line (line : bytes) (n : HeaderName) (v : HeaderValue) : Prop :=
  ∃ w1 name w2 w3 value w4,
    line = w1 ++ name ++ w2 ++ [58] ++ w3 ++ value ++ w4 ∧
    blank w1 ∧ blank w2 ∧ blank w3 ∧ blank w4 ∧
    name ≠ [] ∧ unpadded name ∧ (58 ∉ name) ∧ unpadded value ∧
    name_from_bytes name = Some n ∧ value_from_bytes value = Some v.

Lemma position_spec p l i :
  position p l = Some i →
  ∃ c, p c = true ∧ l = take i l ++ (c :: drop (i + 1) l) ∧ Forall (λ b, p b = false) (take i l).
Proof.
  revert i. induction l as [|b l IH]; intros i E; simpl in E; [done|].
  destruct (p b) eqn:Eb; [injection E as <-; by exists b|].
  destruct (position p l) as [k|]; simplify_eq/=. destruct (IH k eq_refl) as (c & Hc & El & Hf).
  exists c. split_and!; [done|by f_equal|by constructor].
Qed.

(** Stripping the carriage return is part of trimming the value. *)
Lemma strip_suffix_parts line :
  ∃ cr, line = default line (strip_suffix 13 line) ++ cr ∧ (cr = [] ∨ cr = [13]).
Proof.
  unfold strip_suffix. destruct line as [|x line _] using rev_ind; [by exists []; auto|].
  rewrite last_snoc. destruct (Z.eqb_spec x 13) as [->|]; [|exists []; rewrite app_nil_r; auto].
  exists [13]. simpl. split; [|auto]. rewrite length_app, take_app_length' by (simpl; lia). done.
Qed.

Lemma blank_no_colon w : blank w → 58 ∉ w.
Proof. intros Hw Hin. by apply (proj1 (Forall_forall _ _) Hw 58) in Hin. Qed.

Lemma parse_line_sound line n v : parse_line line = Some (n, v) → header_line line n v.
Proof.
  unfold parse_line. destruct (strip_suffix_parts line) as (cr & El & Hcr).
  set (l := default line (strip_suffix 13 line)) in *. intros E.
  case_bool_decide; [done|]. destruct (position (λ b, b =? 58) l) as [i|] eqn:Ei; [|done].
  destruct (position_spec _ _ _ Ei) as (c & Hc & Es & Hf). apply Z.eqb_eq in Hc as ->.
  case_bool_decide as Hne; [done|].
  destruct (name_from_bytes _) as [n'|] eqn:En; [|done].
  destruct (value_from_bytes _) as [v'|] eqn:Ev; [|done]. injection E as <- <-.
  destruct (trim_ascii_parts (take i l)) as (w1 & w2 & E1 & ? & ? & ?).
  destruct (trim_ascii_parts (drop (i + 1) l)) as (w3 & w4 & E2 & ? & ? & ?).
  set (name := trim_ascii (take i l)) in *. set (value := trim_ascii (drop (i + 1) l)) in *.
  exists w1, name, w2, w3, value, (w4 ++ cr). split_and!; try done.
  - assert (l = w1 ++ name ++ w2 ++ [58] ++ w3 ++ value ++ w4) as El'.
    { etrans; [exact Es|]. rewrite E1, E2. by rewrite <- !app_assoc. }
    etrans; [exact El|]. rewrite El'. by rewrite <- !app_assoc.
  - apply Forall_app. split; [done|]. destruct Hcr as [-> | ->]; by repeat constructor.
  - intros Hin. assert (58 ∈ take i l) as Hi by (rewrite E1, !elem_of_app; auto).
    apply (proj1 (Forall_forall _ _) Hf) in Hi. discriminate Hi.
Qed.

Lemma parse_line_complete line n v : header_line line n v → parse_line line = Some (n, v).
Proof.
  intros (w1 & name & w2 & w3 & value & w4 & El & H1 & H2 & H3 & H4 & Hne & Hun & Hcol & Huv & En & Ev).
  unfold parse_line. destruct (strip_suffix_parts line) as (cr & Es & Hcr).
  set (l := default line (strip_suffix 13 line)) in *.
  assert (line = (w1 ++ name ++ w2) ++ 58 :: (w3 ++ value ++ w4)) as El0
    by (rewrite El; by rewrite <- !app_assoc).
  assert (∃ w, l = (w1 ++ name ++ w2) ++ 58 :: w ∧ trim_ascii w = value) as (w & -> & Hw).
  { destruct Hcr as [-> | ->].
    - rewrite app_nil_r in Es. exists (w3 ++ value ++ w4). by rewrite <- Es, trim_ascii_between.
    - assert (Hlast : last line = Some 13) by (rewrite Es; apply last_snoc).
      destruct (w3 ++ value ++ w4) as [|x y _] eqn:Ew using rev_ind.
      + exfalso. rewrite El0, last_snoc in Hlast. done.
      + assert (El' : line = ((w1 ++ name ++ w2) ++ 58 :: y) ++ [x]).
        { rewrite El0. by rewrite <- !app_assoc. }
        rewrite El', last_snoc in Hlast. injection Hlast as ->. rewrite El' in Es.
        apply app_inj_tail in Es as [<- _]. exists y. split; [done|].
        rewrite <- (trim_ascii_between w3 value w4), Ew by done. unfold trim_ascii.
        destruct (trim_start_spec y) as (pre & Ey & Hpre & Hh).
        rewrite Ey at 2. rewrite <- app_assoc, trim_start_blank by done.
        destruct (trim_start y) as [|z zs] eqn:Et; [done|].
        rewrite (trim_start_fixed ((z :: zs) ++ [13])) by (intros ? [= <-]; by apply Hh).
        by rewrite trim_end_blank by repeat constructor. }
  assert (Hfront : Forall (λ b, (b =? 58) = false) (w1 ++ name ++ w2)).
  { apply Forall_forall. intros c Hc. apply Z.eqb_neq. intros ->.
    apply elem_of_app in Hc as [Hc|[Hc|Hc]%elem_of_app]; 
      [exact (blank_no_colon w1 H1 Hc)|done|exact (blank_no_colon w2 H2 Hc)]. }
  rewrite bool_decide_eq_false_2 by (by destruct (w1 ++ name ++ w2)).
  rewrite position_first by done. rewrite take_app_length, drop_app_ge by lia.
  replace (length (w1 ++ name ++ w2) + 1 - length (w1 ++ name ++ w2))%nat with 1%nat by lia.
  change (drop 1 (58 :: w)) with w. rewrite trim_ascii_between, Hw by done.
  by rewrite bool_decide_eq_false_2, En, Ev.
Qed.

(** The headers of a block, in order; a line that is no header adds none. *)
Inductive block_says : list bytes → list (HeaderName * HeaderValue) → Prop :=
| says_nil : block_says [] []
| says_header line n v lines hs :
    header_line line n v → block_says lines hs → block_says (line :: lines) ((n, v) :: hs)
| says_nothing line lines hs :
    (∀ n v, ¬ header_line line n v) → block_says lines hs → block_says (line :: lines) hs.

(** The parser reads what the block says. *)
Lemma parsed_says lines : block_says lines (omap parse_line lines).
Proof.
  induction lines as [|line lines IH]; [constructor|]. cbn [omap list_omap].
  destruct (parse_line line) as [[n v]|] eqn:E; [constructor; [by apply parse_line_sound|done]|].
  apply says_nothing; [|done]. intros n v Hl%parse_line_complete. congruence.
Qed.

Lemma parse_lines_spec m lines :
  Z.of_nat (map_len m + length lines) ≤ MAX_SIZE →
  ∃ m', parse_lines m lines = Some m' ∧
    ∀ n, map_get_all m' n = map_get_all m n ++ (filter (λ h, h.1 = n) (omap parse_line lines)).*2.
Proof.
  revert m. induction lines as [|line lines IH]; intros m Hm; simpl.
  { exists m. split; [done|]. intros n. by rewrite app_nil_r. }
  simpl in Hm. destruct (parse_line line) as [[n' v]|]; [|apply IH; lia].
  destruct (append_total m n' v) as [m1 E1]; [lia|]. rewrite E1.
  pose proof (map_len_append _ _ _ _ E1).
  destruct (IH m1) as (m' & E & Hg); [lia|]. exists m'. split; [done|]. intros n.
  rewrite Hg, (get_all_append _ _ _ _ n E1), filter_cons. cbn [fst].
  case_decide; simpl; by rewrite <- app_assoc.
Qed.

Lemma parse_headers_spec raw :
  Z.of_nat (length (split (λ b, b =? 10) raw)) ≤ MAX_SIZE →
  ∃ m, parse_headers (Some raw) = Some m ∧
    ∀ n, map_get_all m n = (filter (λ h, h.1 = n) (omap parse_line (split (λ b, b =? 10) raw))).*2.
Proof.
  intros Hl. destruct raw as [|b raw].
  { exists map_new. split; [done|]. intros n. by rewrite get_all_new. }
  destruct (parse_lines_spec map_new (split (λ b, b =? 10) (b :: raw))) as (m & E & Hg).
  { by rewrite map_len_new. }
  exists m. split; [exact E|]. intros n. by rewrite Hg, get_all_new.
Qed.

(** C33: the response headers are what the text block says.  Cut at its line
    feeds, fewer than [MAX_SIZE] of them, a block is parsed without a panic, and
    the map gives every name the values of its header lines in order, repeated
    names included.  A header line has a valid name before its first colon and a
    valid value after it, with any whitespace around both; any other line adds
    nothing and changes nothing else. *)
Theorem parse_headers_values raw :
  Z.of_nat (length (filter (λ b, b = 10) raw)) < MAX_SIZE →
  ∃ lines hs m, raw = join_lines lines ∧ Forall (λ l, 10 ∉ l) lines ∧ block_says lines hs ∧
    parse_headers (Some raw) = Some m ∧ ∀ n, map_get_all m n = (filter (λ h, h.1 = n) hs).*2.
Proof.
  intros Hl. destruct (split_lines raw) as (Ej & Hn & Hlen).
  destruct (parse_headers_spec raw) as (m & E & Hg); [lia|].
  eexists _, _, m. split_and!; [by symmetry|done|apply parsed_says|done|exact Hg].
Qed.

(** *** Rendering and parsing back *)

Definition line_text (h : HeaderName * HeaderValue) : bytes :=
  name_as_str h.1 ++ [58; 32] ++ default [] (value_to_str h.2).

(** A value that survives the text form: visible, not padded by whitespace. *)
Definition clean (v : HeaderValue) : Prop := ∃ s, value_to_str v = Some s ∧ unpadded s.

(** What becomes of any value: its visible text without the padding, or nothing
    when it has no visible text. *)
Definition comes_back (v v' : HeaderValue) : Prop :=
  match value_to_str v with
  | Some s => ∃ pre text post, s = pre ++ text ++ post ∧ blank pre ∧ blank post ∧ unpadded text ∧
                value_from_bytes text = Some v'
  | None => value_from_bytes [] = Some v'
  end.

Lemma comes_back_as_something v : ∃ v', comes_back v v'.
Proof.
  unfold comes_back. destruct (value_to_str v) as [s|] eqn:Es.
  - destruct (trim_ascii_parts s) as (pre & post & E & ? & ? & ?).
    destruct (visible_value (trim_ascii s)) as [v' Ev].
    { pose proof (proj1 (value_to_str_visible v s Es)) as Hs. rewrite E, !Forall_app in Hs. apply Hs. }
    exists v', pre, (trim_ascii s), post. by split_and!.
  - destruct (visible_value []) as [v' Ev]; [constructor|]. by exists v'.
Qed.

Lemma clean_comes_back v v' : clean v → comes_back v v' → v' = v.
Proof.
  intros (s & Es & Hu). unfold comes_back. rewrite Es. intros (pre & text & post & E & ? & ? & ? & Ev).
  assert (s = text) as <-.
  { rewrite <- (trim_ascii_fixed s Hu), E. by apply trim_ascii_between. }
  destruct (value_to_str_visible v s Es) as [_ Hv]. congruence.
Qed.

Lemma name_no_sep n c : (c = 58 ∨ c = 10) → Forall (λ b, (b =? c) = false) (name_as_str n).
Proof.
  intros Hc. eapply Forall_impl; [apply (name_as_str_token n)|]. intros b Hb.
  unfold name_byte, is_ascii_whitespace in Hb.
  destruct (Z.eqb_spec b c) as [->|]; [|done]. by destruct Hc as [-> | ->].
Qed.

Lemma text_no_newline h : Forall (λ b, (b =? 10) = false) (line_text h).
Proof.
  unfold line_text. rewrite !Forall_app. split_and!; [apply name_no_sep; auto|by repeat constructor|].
  destruct (value_to_str h.2) as [s|] eqn:E; [|constructor].
  eapply Forall_impl; [exact (proj1 (value_to_str_visible _ _ E))|].
  intros b [?|?]; apply Z.eqb_neq; lia.
Qed.

Lemma split_header_buf hs : split (λ b, b =? 10) (header_buf hs) = map line_text hs ++ [[]].
Proof.
  induction hs as [|h hs IH]; [done|]. unfold header_buf in *. cbn [map mjoin].
  assert (Hr : render_line h = line_text h ++ [10]).
  { unfold line_text, render_line. by rewrite <- !app_assoc. }
  transitivity (split (λ b, b =? 10) (line_text h ++ 10 :: mjoin (map render_line hs))).
  { f_equal. simpl. by rewrite Hr, <- app_assoc. }
  rewrite split_line by (done || apply text_no_newline). by rewrite IH.
Qed.

Lemma name_unpadded n : unpadded (name_as_str n).
Proof.
  destruct (name_as_str_token n) as [_ Hn]. intros c Hc.
  assert (c ∈ name_as_str n) as Hin
    by (destruct Hc; [by apply list_elem_of_lookup_2 with 0%nat; rewrite <- head_lookup|by apply last_Some_elem_of]).
  apply (proj1 (Forall_forall _ _) Hn) in Hin. unfold name_byte in Hin.
  by destruct (is_ascii_whitespace c).
Qed.

Lemma parse_line_text n v v' : comes_back v v' → parse_line (line_text (n, v)) = Some (n, v').
Proof.
  intros Hv. destruct (name_as_str_token n) as [Hn _]. apply parse_line_complete.
  assert (∃ pre text post, default [] (value_to_str v) = pre ++ text ++ post ∧ blank pre ∧ blank post ∧
    unpadded text ∧ value_from_bytes text = Some v') as (pre & text & post & E & ? & ? & ? & ?).
  { unfold comes_back in Hv. destruct (value_to_str v); [exact Hv|]. exists [], [], [].
    split_and!; [done|constructor|constructor| |done]. by intros c [?|?]. }
  exists [], (name_as_str n), [], (32 :: pre), text, post. unfold line_text. cbn [fst snd]. rewrite E.
  split_and!; try done; [constructor|constructor|by constructor|apply name_unpadded| |by apply name_from_as_str].
  pose proof (name_no_sep n 58 (or_introl eq_refl)) as Hc. intros Hin.
  by apply (proj1 (Forall_forall _ _) Hc) in Hin.
Qed.

(** C34: the two directions of the header block agree.  Rendering fewer
    than [MAX_SIZE] headers the way a request is shown to the callback and parsing the
    text the way a response is read gives, for every name, its values in the same
    order: each without the whitespace around it, and the empty value for one
    that has no visible text.  When every value is visible and not padded, the
    values are the same. *)
Theorem header_block_roundtrip hs :
  Z.of_nat (length hs) < MAX_SIZE →
  ∃ m, parse_headers (Some (header_buf hs)) = Some m ∧
    (∀ n, Forall2 comes_back (filter (λ h, h.1 = n) hs).*2 (map_get_all m n)) ∧
    (Forall (λ h, clean h.2) hs → ∀ n, map_get_all m n = (filter (λ h, h.1 = n) hs).*2).
Proof.
  intros Hl. destruct (parse_headers_spec (header_buf hs)) as (m & E & Hg).
  { rewrite split_header_buf, length_app, length_map. simpl. lia. }
  assert (Hback : ∀ n, Forall2 comes_back (filter (λ h, h.1 = n) hs).*2 (map_get_all m n)).
  { intros n. rewrite Hg, split_header_buf, omap_app. cbn [omap list_omap]. rewrite app_nil_r.
    clear -HL. induction hs as [|[n' v] hs IH]; [constructor|]. cbn [map omap list_omap].
    destruct (comes_back_as_something v) as [v' Hv]. rewrite (parse_line_text n' v v' Hv).
    rewrite !filter_cons. cbn [fst]. case_decide; [|done]. by constructor. }
  exists m. split_and!; [done|done|]. intros Hc n. specialize (Hback n). revert Hback.
  generalize (map_get_all m n). clear -HL Hc. intros l. revert l.
  induction Hc as [|[n' v] hs Hv _ IH]; intros l; [by intros ->%Forall2_nil_inv_l|].
  rewrite filter_cons. cbn [fst]. case_decide; [|by apply IH]. cbn [fmap list_fmap snd].
  intros (v' & l' & Hv' & Hl & ->)%Forall2_cons_inv_l. f_equal; [by apply clean_comes_back|by apply IH].
Qed.
End parse.

(** ** An instance: tokens, visible bytes, and a list of fields *)

Module Concrete.
Definition tchar (c : Z) : bool :=
  ((97 <=? c) && (c <=? 122)) || ((48 <=? c) && (c <=? 57)) ||
  bool_decide (c ∈ lit "!#$%&'*+-.^_`|~").

Definition to_ascii_lowercase (c : Z) : Z :=
  if (65 <=? c) && (c <=? 90) then c + 32 else c.

Definition Name : Type := dsig (λ b : bytes, b ≠ [] ∧ Forall (λ c, tchar c = true) b).
Definition Value : Type := dsig (Forall (λ c : Z, (32 ≤ c < 256 ∧ c ≠ 127) ∨ c = 9)).

Definition visible (c : Z) : Prop := 32 ≤ c < 127 ∨ c = 9.

#[export] Instance Name_eq_dec : EqDecision Name := _.

Definition from_sig (P : bytes → Prop) `{∀ b, Decision (P b)} (b : bytes) : option (dsig P) :=
  match decide (P b) with left p => Some (dexist b p) | right _ => None end.

Lemma from_sig_Some (P : bytes → Prop) `{∀ b, Decision (P b)} (x : dsig P) :
  from_sig P (`x) = Some x.
Proof.
  unfold from_sig. destruct (decide _) as [p|n].
  - f_equal. by apply dsig_eq.
  - by destruct n; apply proj2_dsig.
Qed.

#[export] Instance http : HttpHeaders := {
  HeaderName := Name;
  HeaderValue := Value;
  HeaderMap := list (Name * Value);
  name_from_bytes b := from_sig _ (map to_ascii_lowercase b);
  name_as_str n := `n;
  value_from_bytes b := from_sig _ b;
  value_to_str v := if decide (Forall visible (`v)) then Some (`v) else None;
  map_new := [];
  map_append m n v := if Z.of_nat (length m) <? MAX_SIZE then Some (m ++ [(n, v)]) else None;
  map_get_all m n := (filter (λ h : Name * Value, h.1 = n) m).*2;
  map_len := length;
}.

Lemma tchar_facts c : tchar c = true → to_ascii_lowercase c = c ∧ name_byte c = true.
Proof.
  unfold tchar, to_ascii_lowercase. intros Hc.
  assert (Hr : 97 ≤ c ≤ 122 ∨ 48 ≤ c ≤ 57 ∨ c ∈ lit "!#$%&'*+-.^_`|~").
  { apply orb_true_iff in Hc as [Hc|Hc]; [apply orb_true_iff in Hc as [Hc|Hc]|].
    - apply andb_true_iff in Hc as [??]. left. bool_lia.
    - apply andb_true_iff in Hc as [??]. right; left. bool_lia.
    - right; right. by apply bool_decide_eq_true in Hc. }
  destruct Hr as [Hr|[Hr|Hr]].
  - destruct (Z.leb_spec 65 c), (Z.leb_spec c 90); try lia. split; [done|].
    unfold name_byte, is_ascii_whitespace. rewrite !(proj2 (Z.eqb_neq _ _)) by lia. done.
  - destruct (Z.leb_spec 65 c), (Z.leb_spec c 90); try lia; (split; [done|]);
      unfold name_byte, is_ascii_whitespace; rewrite !(proj2 (Z.eqb_neq _ _)) by lia; done.
  - cbv in Hr. repeat (apply elem_of_cons in Hr as [->|Hr]; [done|]). by apply elem_of_nil in Hr.
Qed.

#[export] Instance http_laws : HttpHeadersLaws http.
Proof.
  constructor; simpl.
  - intros n. destruct (proj2_dsig n) as [Hn Hf]. split; [done|].
    eapply Forall_impl; [exact Hf|]. intros c Hc. by apply tchar_facts.
  - intros n. replace (map to_ascii_lowercase (`n)) with (`n) by
      (destruct (proj2_dsig n) as [_ Hf]; induction Hf as [|c b Hc _ IH]; simpl; [done|];
       f_equal; [symmetry; by apply tchar_facts|done]).
    apply from_sig_Some.
  - intros v s. case_decide as Hv; [|done]. intros [= <-]. split; [exact Hv|].
    apply from_sig_Some.
  - intros s Hs. unfold from_sig. destruct (decide _) as [p|Hn]; [by eexists|].
    destruct Hn. eapply Forall_impl; [exact Hs|]. intros c Hc. cbv beta in *. lia.
  - done.
  - intros m n v m' n'. case_match; [|done]. intros [= <-].
    rewrite filter_app, fmap_app. f_equal. rewrite filter_cons. simpl. by case_decide.
  - done.
  - intros m n v m'. case_match; [|done]. intros [= <-]. rewrite length_app. simpl. lia.
  - intros m n v Hm. apply Z.ltb_lt in Hm. rewrite Hm. eauto.
Qed.
End Concrete.

(** ** Witnesses *)

Import Concrete.

(** Two cookies, a line that is not a header, CR LF and LF line ends. *)
Definition cookie_block : bytes :=
  lit "Set-Cookie: a=1" ++ [13; 10] ++ lit "not a header" ++ [10] ++ lit "set-cookie:b=2" ++ [10].

Lemma cookie_name_valid : lit "set-cookie" ≠ [] ∧ Forall (λ c, tchar c = true) (lit "set-cookie").
Proof. split; [discriminate|]. repeat constructor. Qed.

Definition cookie_name : Name := dexist (lit "set-cookie") cookie_name_valid.

Lemma parse_headers_values_witness :
  ∃ hs m, parse_headers (H := http) (Some cookie_block) = Some m ∧
    map proj1_sig (map_get_all (HttpHeaders := http) m cookie_name) = [lit "a=1"; lit "b=2"] ∧
    map_get_all (HttpHeaders := http) m cookie_name = (filter (λ h, h.1 = cookie_name) hs).*2.
Proof.
  destruct (parse_headers_values (H := http) cookie_block) as (lines & hs & m & _ & _ & _ & E & Hg);
    [vm_compute; reflexivity|].
  exists hs, m. split; [exact E|]. split; [|exact (Hg cookie_name)].
  assert (match parse_headers (H := http) (Some cookie_block) with
          | Some m => map proj1_sig (map_get_all (HttpHeaders := http) m cookie_name) = [lit "a=1"; lit "b=2"]
          | None => False end) as F by (vm_compute; reflexivity).
  rewrite E in F. exact F.
Defined.

Lemma cookie_value_valid : Forall (λ c : Z, (32 ≤ c < 256 ∧ c ≠ 127) ∨ c = 9) (lit "a=1").
Proof. apply (bool_decide_eq_true_1 _). vm_compute. reflexivity. Qed.

Definition cookie_value : Value := dexist (lit "a=1") cookie_value_valid.

Lemma cookie_value_clean : clean (H := http) cookie_value.
Proof.
  exists (lit "a=1"). split; [|by intros c [[= <-]|[= <-]]].
  change ((if decide (Forall visible (lit "a=1")) then Some (lit "a=1") else None) = Some (lit "a=1")).
  rewrite decide_True; [reflexivity|].
  unfold visible. apply (bool_decide_eq_true_1 _). vm_compute. reflexivity.
Qed.

Lemma header_block_roundtrip_witness :
  ∃ m, parse_headers (H := http) (Some (header_buf (H := http) [(cookie_name, cookie_value)])) = Some m ∧
    map_get_all (HttpHeaders := http) m cookie_name = [cookie_value].
Proof.
  destruct (header_block_roundtrip (H := http) [(cookie_name, cookie_value)]) as (m & E & _ & Hg).
  - reflexivity.
  - exists m. split; [exact E|]. rewrite Hg by (apply Forall_singleton; exact cookie_value_clean).
    rewrite filter_cons, decide_True by reflexivity. reflexivity.
Defined.

(** ** What goes wrong *)

(** A value the http crate accepts: "café" in Latin-1. *)
Lemma latin_value_valid : Forall (λ c : Z, (32 ≤ c < 256 ∧ c ≠ 127) ∨ c = 9) [99; 97; 102; 233].
Proof. apply (bool_decide_eq_true_1 _). vm_compute. reflexivity. Qed.

Definition latin_value : Value := dexist [99; 97; 102; 233] latin_value_valid.

(** A legal value with a byte that is not visible ASCII reaches the callback as an
    empty one, although every line is documented to be "Name: Value". *)
Theorem invisible_value_is_shown_empty :
  value_from_bytes (HttpHeaders := http) [99; 97; 102; 233] = Some latin_value ∧
  header_buf (H := http) [(cookie_name, latin_value)] = lit "set-cookie: " ++ [10].
Proof.
  split; [exact (from_sig_Some _ latin_value)|]. vm_compute. reflexivity.
Qed.
