(* ===== verification/Text.v ===== *)
(** * Text: the [str] and slice functions the source calls

    Rust's [String], [&str] and [&[u8]] are their bytes; [from_utf8] decodes
    the characters (scalar values) of a byte slice.  Only the functions of the
    standard library that [client/proxy.rs], [client/tls.rs] and
    [client/handle.rs] use are here. *)

From S2P Require Import Prelude Headers.

(** ** UTF-8 *)

Definition between (lo hi b : Z) : bool := (lo <=? b) && (b <=? hi).
Definition continuation (b : Z) : bool := between 128 191 b.

(** The second byte allowed after the lead byte of a 3- or 4-byte sequence
    (no overlong form, no surrogate, nothing above U+10FFFF). *)
Definition second_ok (lead b : Z) : bool :=
  if lead =? 224 then between 160 191 b
  else if lead =? 237 then between 128 159 b
  else if lead =? 240 then between 144 191 b
  else if lead =? 244 then between 128 143 b
  else continuation b.

(** [str::from_utf8]: [None] is the error. *)
Fixpoint from_utf8 (l : bytes) : option (list Z) :=
  match l with
  | [] => Some []
  | b0 :: l1 =>
      if b0 <? 128 then cons b0 <$> from_utf8 l1
      else if between 194 223 b0 then
        match l1 with
        | b1 :: l2 =>
            if continuation b1 then cons ((b0 - 192) * 64 + (b1 - 128)) <$> from_utf8 l2
            else None
        | _ => None
        end
      else if between 224 239 b0 then
        match l1 with
        | b1 :: b2 :: l3 =>
            if second_ok b0 b1 && continuation b2
            then cons ((b0 - 224) * 4096 + (b1 - 128) * 64 + (b2 - 128)) <$> from_utf8 l3
            else None
        | _ => None
        end
      else if between 240 244 b0 then
        match l1 with
        | b1 :: b2 :: b3 :: l4 =>
            if second_ok b0 b1 && continuation b2 && continuation b3
            then cons ((b0 - 240) * 262144 + (b1 - 128) * 4096 + (b2 - 128) * 64 + (b3 - 128))
                   <$> from_utf8 l4
            else None
        | _ => None
        end
      else None
  end.

Definition is_utf8 (l : bytes) : bool :=
  match from_utf8 l with Some _ => true | None => false end.

(** ** Lines, words, numbers *)

(** [char::is_whitespace]: the code points with the property White_Space. *)
Definition is_whitespace (c : Z) : bool :=
  between 9 13 c || (c =? 32) || (c =? 133) || (c =? 160) || (c =? 5760) ||
  between 8192 8202 c || (c =? 8232) || (c =? 8233) || (c =? 8239) || (c =? 8287) ||
  (c =? 12288).

(** [s.lines().next()]: up to the first line feed, without the carriage return
    before it; [None] for an empty string. *)
Definition first_line (s : list Z) : option (list Z) :=
  match s with
  | [] => None
  | _ =>
      match position (λ c, c =? 10) s with
      | Some i => let l := take i s in Some (default l (strip_suffix 13 l))
      | None => Some s
      end
  end.

(** [split_whitespace]: the non-empty pieces between whitespace. *)
Definition split_whitespace (s : list Z) : list (list Z) :=
  filter (λ w, w ≠ []) (split is_whitespace s).

(** The digits of [u16::from_str], each step checked. *)
Fixpoint parse_digits (acc : Z) (s : list Z) : option Z :=
  match s with
  | [] => Some acc
  | c :: s =>
      if between 48 57 c then
        let acc := acc * 10 + (c - 48) in
        if acc <? 2 ^ 16 then parse_digits acc s else None
      else None
  end.

(** [s.parse::<u16>()]: an optional sign [+], then at least one digit. *)
Definition parse_u16 (s : list Z) : option Z :=
  match s with
  | [] => None
  | [43] => None
  | 43 :: s => parse_digits 0 s
  | s => parse_digits 0 s
  end.

(** [Display] for [u16]: at most five digits. *)
Fixpoint digits (fuel : nat) (n : Z) (acc : bytes) : bytes :=
  match fuel with
  | O => acc
  | S fuel =>
      let acc := (48 + n mod 10) :: acc in
      if n <? 10 then acc else digits fuel (n / 10) acc
  end.

Definition u16_to_string (n : Z) : bytes := digits 5 n [].

(** ** Searching *)

Fixpoint starts_with (needle s : list Z) : bool :=
  match needle, s with
  | [], _ => true
  | c :: needle, d :: s => (c =? d) && starts_with needle s
  | _ :: _, [] => false
  end.

(** [str::contains]. *)
Fixpoint contains (needle s : list Z) : bool :=
  match s with
  | [] => starts_with needle []
  | _ :: tl => starts_with needle s || contains needle tl
  end.

(** [head.windows(4).any(|w| w == pat)] for a four-byte pattern: every run of
    four consecutive bytes is compared. *)
Fixpoint any_window (pat s : list Z) : bool :=
  match s with
  | b0 :: ((b1 :: b2 :: b3 :: _) as tl) =>
      bool_decide ([b0; b1; b2; b3] = pat) || any_window pat tl
  | _ => false
  end.

(** ** Lemmas *)

Lemma starts_with_spec needle s : starts_with needle s = true ↔ needle `prefix_of` s.
Proof.
  revert s. induction needle as [|c n IH]; intros [|d s]; simpl.
  - split; [intros _; apply prefix_nil|done].
  - split; [intros _; apply prefix_nil|done].
  - split; [done|]. by intros ?%prefix_nil_not.
  - rewrite andb_true_iff, Z.eqb_eq, IH. split.
    + intros [-> ?]. by apply prefix_cons.
    + intros H. split; [by apply prefix_cons_inv_1 in H|by apply prefix_cons_inv_2 in H].
Qed.

Lemma contains_spec needle s : contains needle s = true ↔ ∃ a b, s = a ++ needle ++ b.
Proof.
  induction s as [|c s IH]; cbn [contains].
  - rewrite starts_with_spec. split.
    + intros [k E]. by exists [], k.
    + intros (a & b & E). destruct needle; [apply prefix_nil|]. by destruct a.
  - rewrite orb_true_iff, starts_with_spec, IH. split.
    + intros [[k E]|(a & b & ->)]; [by exists [], k|by exists (c :: a), b].
    + intros (a & b & E). destruct a as [|x a]; [left; by exists b|right].
      injection E as <- ->. by exists a, b.
Qed.

(** The window test is a substring test. *)
Lemma any_window_spec pat s :
  length pat = 4%nat → any_window pat s = true ↔ ∃ a b, s = a ++ pat ++ b.
Proof.
  intros Hp. rewrite <- contains_spec. destruct pat as [|p0 [|p1 [|p2 [|p3 [|]]]]]; try done.
  induction s as [|b0 s IH]; [done|]. destruct s as [|b1 [|b2 [|b3 s]]];
    try (simpl; rewrite ?andb_false_r; done).
  change (any_window [p0; p1; p2; p3] (b0 :: b1 :: b2 :: b3 :: s)) with
    (bool_decide ([b0; b1; b2; b3] = [p0; p1; p2; p3]) ||
     any_window [p0; p1; p2; p3] (b1 :: b2 :: b3 :: s)).
  change (contains [p0; p1; p2; p3] (b0 :: b1 :: b2 :: b3 :: s)) with
    (starts_with [p0; p1; p2; p3] (b0 :: b1 :: b2 :: b3 :: s) ||
     contains [p0; p1; p2; p3] (b1 :: b2 :: b3 :: s)).
  rewrite !orb_true_iff, IH, bool_decide_eq_true, starts_with_spec.
  assert ([b0; b1; b2; b3] = [p0; p1; p2; p3] ↔
          [p0; p1; p2; p3] `prefix_of` b0 :: b1 :: b2 :: b3 :: s) as ->; [|done].
  split; [intros <-; by exists s|]. intros [k E]. by injection E as -> -> -> -> _.
Qed.

Lemma any_window_mono pat s r : any_window pat s = true → any_window pat (s ++ r) = true.
Proof.
  revert r. induction s as [|b0 s IH]; intros r; [done|]. destruct s as [|b1 [|b2 [|b3 s]]]; try done.
  change ((b0 :: b1 :: b2 :: b3 :: s) ++ r) with (b0 :: b1 :: b2 :: b3 :: (s ++ r)).
  cbn [any_window]. rewrite !orb_true_iff. intros [?|H]; [by left|right]. exact (IH r H).
Qed.

(** *** Decimal text *)

Definition is_digit (c : Z) : bool := between 48 57 c.
Definition value (acc : Z) (l : list Z) : Z := foldl (λ a c, a * 10 + (c - 48)) acc l.

Lemma digits_spec fuel n acc :
  0 ≤ n < 10 ^ Z.of_nat fuel → (0 < fuel)%nat →
  ∃ l, digits fuel n acc = l ++ acc ∧ l ≠ [] ∧ Forall (λ c, is_digit c = true) l ∧ value 0 l = n.
Proof.
  revert n acc. induction fuel as [|fuel IH]; intros n acc Hn Hf; [lia|]. cbn [digits].
  assert (is_digit (48 + n mod 10) = true) as Hd.
  { unfold is_digit, between. pose proof (Z.mod_pos_bound n 10). apply andb_true_iff.
    rewrite !Z.leb_le. lia. }
  destruct (Z.ltb_spec n 10).
  - exists [48 + n mod 10]. split_and!; [done|done|by repeat constructor|].
    unfold value; simpl. rewrite Z.mod_small by lia. lia.
  - destruct fuel as [|fuel]; [simpl in Hn; lia|].
    destruct (IH (n / 10) ((48 + n mod 10) :: acc)) as (l & E & Hne & Hl & Hv); [|lia|].
    { split; [apply Z.div_pos; lia|]. apply Z.div_lt_upper_bound; [lia|].
      rewrite (Nat2Z.inj_succ (S fuel)), Z.pow_succ_r in Hn by lia. lia. }
    exists (l ++ [48 + n mod 10]). split_and!.
    + by rewrite E, <- app_assoc.
    + by destruct l.
    + apply Forall_app; split; [done|by repeat constructor].
    + unfold value in *. rewrite foldl_app, Hv. simpl. pose proof (Z.div_mod n 10). lia.
Qed.

Lemma value_mono acc l : 0 ≤ acc → Forall (λ c, is_digit c = true) l → acc ≤ value acc l.
Proof.
  intros Ha Hl. revert acc Ha. induction Hl as [|c l Hc _ IH]; intros acc Ha; [done|].
  unfold is_digit, between in Hc. apply andb_true_iff in Hc as [??].
  unfold value; simpl. etransitivity; [|apply IH]; bool_lia.
Qed.

Lemma parse_digits_value acc l :
  0 ≤ acc → Forall (λ c, is_digit c = true) l → value acc l < 2 ^ 16 →
  parse_digits acc l = Some (value acc l).
Proof.
  intros Ha Hl. revert acc Ha. induction Hl as [|c l Hc Hl IH]; intros acc Ha Hv; [done|].
  cbn [parse_digits]. unfold is_digit in Hc. rewrite Hc.
  assert (0 ≤ acc * 10 + (c - 48)) as Hp
    by (unfold between in Hc; apply andb_true_iff in Hc as [??]; bool_lia).
  pose proof (value_mono _ l Hp Hl) as Hm. change (value acc (c :: l)) with
    (value (acc * 10 + (c - 48)) l) in *.
  rewrite (proj2 (Z.ltb_lt _ _)) by lia. by apply IH.
Qed.

Lemma u16_to_string_spec n :
  in_width 16 n →
  u16_to_string n ≠ [] ∧ Forall (λ c, is_digit c = true) (u16_to_string n) ∧
  value 0 (u16_to_string n) = n.
Proof.
  intros Hn. unfold u16_to_string.
  destruct (digits_spec 5 n []) as (l & -> & ?); [unfold in_width in Hn; lia|lia|].
  by rewrite app_nil_r.
Qed.

(** Printing a port and parsing it back. *)
Lemma parse_u16_to_string n : in_width 16 n → parse_u16 (u16_to_string n) = Some n.
Proof.
  intros Hn. destruct (u16_to_string_spec n Hn) as (Hne & Hd & Hv).
  assert (parse_u16 (u16_to_string n) = parse_digits 0 (u16_to_string n)) as ->.
  { destruct Hd as [|c l Hc]; [done|]. unfold parse_u16. destruct (decide (c = 43)) as [->|]; [done|].
    destruct c as [|c|c]; try done. by repeat (destruct c; try done). }
  rewrite parse_digits_value by (try done; rewrite Hv; apply Hn). by rewrite Hv.
Qed.
