(* ===== verification/Uri.v ===== *)
(** * The interface of [hyper::Uri]

    [Uri] belongs to the http crate.  The class [HttpUri] has the accessors the
    source calls, [HttpUriLaws] what it relies on of them.  [Module Concrete] is
    an instance for the URIs the witnesses use. *)

From S2P Require Import Prelude Headers Text.

Class HttpUri := {
  Uri : Type;
  (* [str::parse::<Uri>] and [Uri::try_from(String)] *)
  uri_parse : bytes → option Uri;
  scheme_str : Uri → option bytes;
  uri_authority : Uri → option bytes;
  uri_host : Uri → option bytes;
  port_u16 : Uri → option Z;
  uri_path : Uri → bytes;
  uri_query : Uri → option bytes;
  (* [path_and_query().map(|p| p.as_str())] *)
  path_and_query : Uri → option bytes;
}.

Class HttpUriLaws (U : HttpUri) := {
  port_u16_range u p : port_u16 u = Some p → in_width 16 p;
  (* a URI with an authority has a host *)
  authority_host u : is_Some (uri_authority u) → is_Some (uri_host u);
  (* the host is part of the text that was parsed: no control bytes *)
  host_visible u h : uri_host u = Some h → Forall (λ b, 32 < b < 127) h;
  (* a path with its query is itself a URI, in origin-form *)
  path_is_uri u pq :
    path_and_query u = Some pq → head pq = Some 47 →
    ∃ u', uri_parse pq = Some u' ∧ scheme_str u' = None ∧ uri_authority u' = None ∧
      path_and_query u' = Some pq;
}.

(** ** An instance *)

Module Concrete.
Record uri := {
  u_scheme : option bytes;
  u_host : option bytes;
  u_userinfo : bytes;
  u_port : option Z;
  u_path : bytes;
  u_query : option bytes;
}.

Definition uchar (b : Z) : bool := (32 <? b) && (b <? 127).

(** Split at the first byte that satisfies [p]. *)
Definition cut (p : Z → bool) (s : bytes) : bytes * bytes :=
  match position p s with
  | Some i => (take i s, drop i s)
  | None => (s, [])
  end.

Definition path_query (s : bytes) : bytes * option bytes :=
  let '(path, rest) := cut (λ b, b =? 63) s in
  (path, match rest with [] => None | _ :: q => Some q end).

(** [userinfo@host:port]; the port is optional. *)
Definition parse_authority (a : bytes) : option (bytes * bytes * option Z) :=
  let '(front, rest) := cut (λ b, b =? 64) a in
  let '(userinfo, hp) := match rest with [] => ([], front) | _ :: r => (front ++ [64], r) end in
  let '(h, p) := cut (λ b, b =? 58) hp in
  if bool_decide (h = []) then None
  else
    match p with
    | [] => Some (userinfo, h, None)
    | _ :: p => match parse_u16 p with Some n => Some (userinfo, h, Some n) | None => None end
    end.

Definition parse (s : bytes) : option uri :=
  if negb (forallb uchar s) then None
  else
    match s with
    | [] => None
    | 47 :: _ =>
        let '(path, query) := path_query s in Some (Build_uri None None [] None path query)
    | _ =>
        let '(scheme, rest) := cut (λ b, b =? 58) s in
        match rest with
        | 58 :: 47 :: 47 :: rest =>
            let '(a, tail) := cut (λ b, (b =? 47) || (b =? 63)) rest in
            match parse_authority a with
            | Some (userinfo, h, p) =>
                let '(path, query) := path_query tail in
                Some (Build_uri (Some scheme) (Some h) userinfo p
                        (if bool_decide (path = [] ∧ query = None) then [47] else path) query)
            | None => None
            end
        | _ => None
        end
    end.

(** The instance only hands out what satisfies the laws. *)
Definition ok_uri (u : uri) : Prop :=
  (∀ p, u_port u = Some p → 0 ≤ p < 2 ^ 16) ∧
  (∀ h, u_host u = Some h → Forall (λ b, 32 < b < 127) h) ∧
  Forall (λ b, uchar b = true ∧ (b =? 63) = false) (u_path u) ∧
  (∀ q, u_query u = Some q → Forall (λ b, uchar b = true) q).

Definition ok_uri_b (u : uri) : bool :=
  match u_port u with Some p => (0 <=? p) && (p <? 2 ^ 16) | None => true end &&
  match u_host u with Some h => forallb uchar h | None => true end &&
  forallb (λ b, uchar b && negb (b =? 63)) (u_path u) &&
  match u_query u with Some q => forallb uchar q | None => true end.

Definition checked_uri : Type := { u : uri | ok_uri_b u = true }.

Definition check (u : uri) : option checked_uri :=
  (if ok_uri_b u as b return ok_uri_b u = b → option checked_uri
   then λ E, Some (exist _ u E) else λ _, None) eq_refl.

#[export] Instance uri_instance : HttpUri := {
  Uri := checked_uri;
  uri_parse s := u ← parse s; check u;
  scheme_str u := u_scheme (`u);
  uri_authority u :=
    h ← u_host (`u);
    Some (u_userinfo (`u) ++ h ++
          match u_port (`u) with Some p => 58 :: u16_to_string p | None => [] end);
  uri_host u := u_host (`u);
  port_u16 u := u_port (`u);
  uri_path u := if bool_decide (u_path (`u) = []) then [47] else u_path (`u);
  uri_query u := u_query (`u);
  path_and_query u :=
    Some (u_path (`u) ++ match u_query (`u) with Some q => 63 :: q | None => [] end);
}.

Lemma forallb_Forall' (p : Z → bool) l : forallb p l = true → Forall (λ b, p b = true) l.
Proof.
  intros H. apply Forall_forall. intros b Hb. rewrite forallb_forall in H.
  by apply H, list_elem_of_In.
Qed.

Lemma ok_uri_b_spec u : ok_uri_b u = true → ok_uri u.
Proof.
  unfold ok_uri_b, ok_uri. rewrite !andb_true_iff. intros [[[Hp Hh] Ha] Hq]. split_and!.
  - intros p E. rewrite E in Hp. apply andb_true_iff in Hp as [??]. bool_lia.
  - intros h E. rewrite E in Hh. eapply Forall_impl; [by apply forallb_Forall'|].
    intros b [??]%andb_true_iff. bool_lia.
  - eapply Forall_impl; [by apply forallb_Forall'|]. intros b [? Hb]%andb_true_iff. by apply negb_true_iff in Hb.
  - intros q E. rewrite E in Hq. by apply forallb_Forall'.
Qed.

(** An origin-form text is parsed into its path and query. *)
Lemma path_query_text path q :
  Forall (λ b, uchar b = true ∧ (b =? 63) = false) path →
  path_query (path ++ match q with Some q => 63 :: q | None => [] end) = (path, q).
Proof.
  intros Hp. assert (Forall (λ b, (b =? 63) = false) path) as Hf by (eapply Forall_impl; [exact Hp|]; by intros ? []).
  unfold path_query, cut. destruct q as [q|].
  - rewrite position_first by done. by rewrite take_app_length, drop_app_length.
  - rewrite app_nil_r. assert (position (λ b, b =? 63) path = None) as ->; [|done].
    clear Hp. induction Hf as [|b l Hb _ IH]; [done|]. simpl. by rewrite Hb, IH.
Qed.

Lemma check_ok u : ok_uri_b u = true → ∃ c, check u = Some c ∧ `c = u.
Proof.
  intros E. unfold check. generalize (eq_refl (ok_uri_b u)).
  generalize (ok_uri_b u) at 2 3. intros [] H; [by eexists|congruence].
Qed.

#[export] Instance uri_laws : HttpUriLaws uri_instance.
Proof.
  split.
  - intros [u Hu] p E. simpl in *. apply (proj1 (ok_uri_b_spec _ Hu) _ E).
  - intros [u Hu] [a E]. simpl in *. destruct (u_host u); [done|discriminate].
  - intros [u Hu] h E. simpl in *. apply (proj1 (proj2 (ok_uri_b_spec _ Hu)) _ E).
  - intros [u Hu] pq. simpl. intros [= <-] Hhd.
    destruct (ok_uri_b_spec _ Hu) as (_ & _ & Hp & Hq).
    destruct (u_path u) as [|c path] eqn:Ep.
    { destruct (u_query u); simplify_eq/=. }
    simplify_eq/=. pose proof (path_query_text (47 :: path) (u_query u) Hp) as Hpq.
    set (text := match u_query u with Some q => 63 :: q | None => [] end) in *.
    set (v := Build_uri None None [] None (47 :: path) (u_query u)).
    destruct (check_ok v) as (w & Ew & Ev).
    { revert Hu. unfold ok_uri_b. subst v. simpl. rewrite Ep, !andb_true_iff. tauto. }
    exists w. rewrite Ev. simpl. split_and!; [|done..].
    assert (forallb uchar (47 :: path ++ text) = true) as Hc.
    { apply (forallb_forall uchar (47 :: path ++ text)). intros b Hb.
      change (47 :: path ++ text) with ((47 :: path) ++ text) in Hb.
      apply in_app_or in Hb as [Hb|Hb]; apply list_elem_of_In in Hb.
      - rewrite Forall_forall in Hp. by apply Hp.
      - destruct (u_query u) as [q|]; [|by apply elem_of_nil in Hb]. subst text.
        apply elem_of_cons in Hb as [->|Hb]; [done|].
        specialize (Hq q eq_refl). rewrite Forall_forall in Hq. by apply Hq. }
    unfold parse. rewrite Hc. cbn [negb]. simpl in Hpq. rewrite Hpq. cbn [mbind option_bind]. exact Ew.
Qed.
End Concrete.
