(* ===== verification/Proxy.v ===== *)
(** * HTTP proxy: target parsing, dialling, the CONNECT tunnel

    Source: [lib/src/client/proxy.rs].

    The network is the environment: [Net] says, for every address, what
    connecting to it, writing to it and reading from it will do.  An await that
    does not complete (before the deadline, when there is one) is [None]. *)

From S2P Require Import Prelude Abi Headers Text Uri.

(** ** The network *)

(** What one [read] into the 1024-byte buffer gives. *)
Inductive ReadResult :=
| ReadOk (b : bytes)
| ReadErr.

Record TcpPeer := {
  (* [TcpStream::connect], [write_all]: does it succeed *)
  accepts : option bool;
  takes : option bool;
  reads : list ReadResult;
}.

Definition Net : Type := bytes → TcpPeer.

(** An open connection: whose it is, what was written, what is still to come. *)
Record TcpStream := {
  peer_addr : bytes;
  written : bytes;
  unread : list ReadResult;
}.

(** A fallible future: its result, or [None] while it does not complete. *)
Definition Fut (A : Type) : Type := option (Hyper4kErrorKind + A).

(** [?] on a future. *)
Definition fbind {A B} (x : Fut A) (f : A → Fut B) : Fut B :=
  match x with
  | Some (inr a) => f a
  | Some (inl e) => Some (inl e)
  | None => None
  end.

Notation "'try' x := e 'in' f" := (fbind e (λ x, f))
  (at level 10, x pattern, e at level 100, f at level 200, only parsing).

(** [tokio::time::timeout]: what has not completed by the deadline is a
    timeout; without one it stays pending. *)
Definition with_timeout {A} (timeout : option Z) (x : Fut A) : Fut A :=
  match x, timeout with
  | None, Some _ => Some (inl HYPER4K_ERR_TIMEOUT)
  | _, _ => x
  end.

(** [map_err(|_| kind)] on an operation that succeeds or fails. *)
Definition or_err {A} (k : Hyper4kErrorKind) (ok : option bool) (a : A) : Fut A :=
  match ok with
  | Some true => Some (inr a)
  | Some false => Some (inl k)
  | None => None
  end.

(** ** [ProxyTarget] *)

Record ProxyTarget := { px_host : bytes; px_port : Z }.

(** [format!("{host}:{port}")]. *)
Definition host_port (host : bytes) (port : Z) : bytes := host ++ [58] ++ u16_to_string port.

Definition proxy_parse `{HttpUri} (raw : bytes) : option ProxyTarget :=
  uri ← uri_parse raw;
  if negb (bool_decide (scheme_str uri = Some (lit "http"))) then None
  else
    authority ← uri_authority uri;
    if contains (lit "@") authority then None
    else if negb (bool_decide (uri_path uri = [] ∨ uri_path uri = lit "/")) ||
            bool_decide (is_Some (uri_query uri)) then None
    else
      host ← uri_host uri;
      Some {| px_host := host; px_port := default 80 (port_u16 uri) |}.

Definition proxy_addr (p : ProxyTarget) : bytes := host_port (px_host p) (px_port p).

(** ** [dial] and [tunnel] *)

Section net.
Variable net : Net.

Definition dial (addr : bytes) (timeout : option Z) : Fut TcpStream :=
  let connect := or_err HYPER4K_ERR_CONNECT (accepts (net addr))
    {| peer_addr := addr; written := []; unread := reads (net addr) |} in
  with_timeout timeout connect.

Definition connect_request (host : bytes) (port : Z) : bytes :=
  lit "CONNECT " ++ host_port host port ++ lit " HTTP/1.1" ++ [13; 10] ++
  lit "Host: " ++ host_port host port ++ [13; 10; 13; 10].

Definition CRLF2 : bytes := [13; 10; 13; 10].

(** The read loop: the head so far, the reads to come. *)
Fixpoint read_head (head : bytes) (rs : list ReadResult) : Fut (bytes * list ReadResult) :=
  match rs with
  | [] => None
  | ReadErr :: _ => Some (inl HYPER4K_ERR_CONNECT)
  | ReadOk b :: rs =>
      if bool_decide (b = []) then Some (inl HYPER4K_ERR_CONNECT)
      else
        let head := head ++ b in
        if any_window CRLF2 head then Some (inr (head, rs))
        else if 8 * 1024 <? Z.of_nat (length head) then Some (inl HYPER4K_ERR_PROTOCOL)
        else read_head head rs
  end.

(** "HTTP/1.1 200 Connection established": only the status matters. *)
Definition head_status (head : bytes) : option Z :=
  s ← from_utf8 head;
  l ← first_line s;
  w ← split_whitespace l !! 1%nat;
  parse_u16 w.

Definition check_status (head : bytes) : Hyper4kErrorKind + unit :=
  match head_status head with
  | None => inl HYPER4K_ERR_PROTOCOL
  | Some status =>
      if (200 <=? status) && (status <? 300) then inr tt else inl HYPER4K_ERR_PROTOCOL
  end.

Definition exchange (host : bytes) (port : Z) (stream : TcpStream) : Fut TcpStream :=
  let request := connect_request host port in
  try _ := or_err HYPER4K_ERR_CONNECT (takes (net (peer_addr stream))) tt in
  try (head, rest) := read_head [] (unread stream) in
  try _ := Some (check_status head) in
  Some (inr {| peer_addr := peer_addr stream; written := written stream ++ request;
               unread := rest |}).

Definition tunnel (proxy : ProxyTarget) (host : bytes) (port : Z) (timeout : option Z)
    : Fut TcpStream :=
  try stream := dial (proxy_addr proxy) timeout in
  with_timeout timeout (exchange host port stream).
End net.

(** ** Lemmas *)

Lemma fbind_Some {A B} (x : Fut A) (f : A → Fut B) r :
  fbind x f = Some r →
  (∃ e, x = Some (inl e) ∧ r = inl e) ∨ (∃ a, x = Some (inr a) ∧ f a = Some r).
Proof. destruct x as [[e|a]|]; simpl; intros; simplify_eq; eauto. Qed.

(** A connection with [addr] depends on the network at [addr] only. *)
Lemma tunnel_local net net' p host port timeout :
  net (proxy_addr p) = net' (proxy_addr p) →
  tunnel net p host port timeout = tunnel net' p host port timeout.
Proof.
  intros E. unfold tunnel, dial. rewrite E.
  destruct (accepts (net' (proxy_addr p))) as [[]|], timeout; simpl; try done;
    unfold exchange; simpl; by rewrite E.
Qed.

(** Reading pieces none of which completes the head. *)
Lemma read_head_skip head pieces rs :
  Forall (λ b, b ≠ []) pieces →
  (pieces ≠ [] → any_window CRLF2 (head ++ concat pieces) = false ∧
     Z.of_nat (length (head ++ concat pieces)) ≤ 8 * 1024) →
  read_head head (map ReadOk pieces ++ rs) = read_head (head ++ concat pieces) rs.
Proof.
  intros Hp. revert head. induction Hp as [|b pieces Hb Hp IH]; intros head H; simpl.
  { by rewrite app_nil_r. }
  destruct H as [Hw Hl]; [done|]. rewrite bool_decide_eq_false_2 by done.
  simpl in Hw, Hl. rewrite app_assoc in Hw, Hl.
  destruct (any_window CRLF2 (head ++ b)) eqn:E;
    [by apply any_window_mono with (r := concat pieces) in E; rewrite E in Hw|].
  rewrite length_app in Hl.
  rewrite (proj2 (Z.ltb_ge _ _)) by lia. rewrite IH by (intros _; split; [done|rewrite length_app; lia]).
  by rewrite app_assoc.
Qed.

(** A head is complete: it ends with the first empty line. *)
Definition complete_head (h : bytes) : Prop :=
  any_window CRLF2 h = true ∧ ∀ n, (n < length h)%nat → any_window CRLF2 (take n h) = false.

Lemma read_head_complete pieces rs h :
  Forall (λ b, b ≠ []) pieces → concat pieces = h → complete_head h →
  Z.of_nat (length h) ≤ 8 * 1024 + 1 →
  read_head [] (map ReadOk pieces ++ rs) = Some (inr (h, rs)).
Proof.
  intros Hp Hc [Hh Hn] Hl. destruct pieces as [|last front _] using rev_ind; [by subst h|].
  apply Forall_app in Hp as [Hf Hlast]. rewrite Forall_singleton in Hlast.
  rewrite concat_app in Hc. simpl in Hc. rewrite app_nil_r in Hc.
  assert (0 < length last)%nat by (destruct last; simpl; [done|lia]).
  rewrite map_app, <- app_assoc. rewrite read_head_skip; [|done|].
  - simpl. rewrite bool_decide_eq_false_2 by done. by rewrite Hc, Hh.
  - intros _. simpl. split.
    + rewrite <- (take_app_length (concat front) last), Hc. apply Hn. rewrite <- Hc, length_app. lia.
    + rewrite <- Hc, length_app in Hl. lia.
Qed.

(** The bytes of a sequence of reads. *)
Definition read_bytes (rs : list ReadResult) : bytes :=
  concat (map (λ r, match r with ReadOk b => b | ReadErr => [] end) rs).

(** What the loop took of the reads: it was not done before the last of them. *)
Definition taken (head : bytes) (used : list ReadResult) : Prop :=
  ∀ k, (k < length used)%nat → read_head head (take k used) = None.

Lemma taken_one head x : taken head [x].
Proof. intros [|k] Hk; [done|simpl in Hk; lia]. Qed.

(** The loop takes at most one read for every byte it accepts: it is done after
    [used], whatever follows, or everything that will come is taken. *)
Lemma read_head_bounded head rs :
  Forall (λ r, match r with ReadOk b => (length b ≤ 1024)%nat | ReadErr => True end) rs →
  Z.of_nat (length head) ≤ 8 * 1024 →
  ∃ used rest, rs = used ++ rest ∧ taken head used ∧
    Z.of_nat (length (head ++ read_bytes used)) ≤ 8 * 1024 + 1024 ∧
    ((∃ r, read_head head rs = Some r ∧
        Z.of_nat (length head + length used) ≤ 8 * 1024 + 1 ∧
        ∀ h rest', r = inr (h, rest') → h = head ++ read_bytes used ∧ rest' = rest) ∨
     (read_head head rs = None ∧ rest = [] ∧ Z.of_nat (length head + length used) ≤ 8 * 1024)).
Proof.
  intros Hr. revert head. induction Hr as [|x rs Hx Hr IH]; intros head Hh.
  { exists [], []. split_and!; [done|intros k Hk; simpl in Hk; lia|rewrite length_app; simpl; lia|].
    right. split_and!; [done|done|simpl; lia]. }
  destruct x as [b|]; simpl.
  2: { exists [ReadErr], rs. split_and!; [done|apply taken_one|rewrite length_app; simpl; lia|].
       left. eexists. split_and!; [done|simpl; lia|done]. }
  assert (Eb : read_bytes [ReadOk b] = b) by (unfold read_bytes; simpl; apply app_nil_r).
  assert (Hone : ∀ r : Hyper4kErrorKind + bytes * list ReadResult, (∀ h rest', r = inr (h, rest') → h = head ++ b ∧ rest' = rs) →
    ∃ used rest, ReadOk b :: rs = used ++ rest ∧ taken head used ∧
      Z.of_nat (length (head ++ read_bytes used)) ≤ 8 * 1024 + 1024 ∧
      ((∃ r', Some r = Some r' ∧ Z.of_nat (length head + length used) ≤ 8 * 1024 + 1 ∧
          ∀ h rest', r' = inr (h, rest') → h = head ++ read_bytes used ∧ rest' = rest) ∨
       (Some r = None ∧ rest = [] ∧ Z.of_nat (length head + length used) ≤ 8 * 1024))).
  { intros r Hi. exists [ReadOk b], rs. rewrite Eb.
    split_and!; [done|apply taken_one|rewrite length_app; lia|].
    left. exists r. split_and!; [done|simpl; lia|done]. }
  case_bool_decide as Hb; [by apply Hone|].
  destruct (any_window CRLF2 (head ++ b)) eqn:Ew; [apply Hone; by intros ?? [= <- <-]|].
  destruct (Z.ltb_spec (8 * 1024) (Z.of_nat (length (head ++ b)))) as [Hlt|Hge]; [by apply Hone|].
  assert (0 < length b)%nat by (destruct b; simpl; [done|lia]).
  destruct (IH (head ++ b)) as (used & rest & -> & Ht & Hu & Hi); [done|].
  exists (ReadOk b :: used), rest. rewrite length_app in Hi. rewrite <- app_assoc in Hu, Hi.
  split_and!; [done| |done|].
  - intros [|k] Hk; [done|]. simpl. rewrite bool_decide_eq_false_2, Ew by done.
    rewrite (proj2 (Z.ltb_ge _ _)) by done. apply Ht. simpl in Hk. lia.
  - destruct Hi as [(r & E & Hn & Hi)|(E & -> & Hn)]; [left; exists r|right]; (split_and!; [done|..]);
      try done; simpl; lia.
Qed.

(** ** Properties *)

(** C28: the tunnel does not depend on how TCP cut the proxy's answer.  A head
    that ends with its first empty line and fits the 8 KiB limit gives, in
    whatever non-empty pieces it arrives, the result of checking it as a whole:
    the stream positioned right after it for a 2xx status, PROTOCOL for any
    other status or an unreadable first line. *)
Theorem tunnel_equals_whole_head_check net p host port timeout pieces rest h :
  accepts (net (proxy_addr p)) = Some true → takes (net (proxy_addr p)) = Some true →
  reads (net (proxy_addr p)) = map ReadOk pieces ++ rest →
  Forall (λ b, b ≠ []) pieces → concat pieces = h → complete_head h →
  Z.of_nat (length h) ≤ 8 * 1024 + 1 →
  tunnel net p host port timeout =
  Some (match check_status h with
        | inr _ => inr {| peer_addr := proxy_addr p; written := connect_request host port;
                          unread := rest |}
        | inl e => inl e
        end).
Proof.
  intros Ha Ht Hr Hp Hc Hh Hl. unfold tunnel, dial. rewrite Ha. cbn [or_err].
  transitivity (with_timeout timeout (exchange net host port
    {| peer_addr := proxy_addr p; written := []; unread := reads (net (proxy_addr p)) |}));
    [by destruct timeout|].
  unfold exchange. cbn [peer_addr unread]. rewrite Ht, Hr. cbn [or_err fbind].
  rewrite (read_head_complete pieces rest h) by done. cbn [fbind].
  by destruct (check_status h), timeout.
Qed.

(** C29: a proxy cannot make the client buffer without end or read for ever.
    Whatever a connected proxy sends, in reads of up to 1024 bytes, there are reads
    [used] that the tunnel takes, none of them after it could stop: they hold at
    most 9 KiB.  Either the tunnel is then done (after at most 8193 reads, with
    the stream right behind them when the head was accepted), or the proxy sends
    nothing more (it has sent at most 8192 pieces) and the tunnel waits, up to its
    timeout when there is one. *)
Theorem tunnel_head_is_bounded net p host port timeout :
  accepts (net (proxy_addr p)) = Some true → takes (net (proxy_addr p)) = Some true →
  Forall (λ r, match r with ReadOk b => (length b ≤ 1024)%nat | ReadErr => True end)
    (reads (net (proxy_addr p))) →
  ∃ used rest, reads (net (proxy_addr p)) = used ++ rest ∧ taken [] used ∧
    Z.of_nat (length (read_bytes used)) ≤ 8 * 1024 + 1024 ∧
    ((∃ r, tunnel net p host port timeout = Some r ∧ Z.of_nat (length used) ≤ 8 * 1024 + 1 ∧
        ∀ s, r = inr s → unread s = rest ∧ check_status (read_bytes used) = inr tt) ∨
     (rest = [] ∧ Z.of_nat (length used) ≤ 8 * 1024 ∧
      tunnel net p host port timeout =
        match timeout with Some _ => Some (inl HYPER4K_ERR_TIMEOUT) | None => None end)).
Proof.
  intros Ha Ht Hr.
  destruct (read_head_bounded [] (reads (net (proxy_addr p))) Hr) as (used & rest & E & Hk & Hu & Hi); [done|].
  exists used, rest. split_and!; [done|done|done|].
  unfold tunnel, dial. rewrite Ha. cbn [or_err].
  assert (Hw : ∀ x : Hyper4kErrorKind + TcpStream, with_timeout timeout (Some x) = Some x)
    by (by destruct timeout).
  rewrite Hw. cbn [fbind]. unfold exchange. cbn [peer_addr unread]. rewrite Ht. cbn [or_err fbind].
  destruct Hi as [(r & Er & Hn & Hi)|(Er & -> & Hn)]; rewrite Er; [left|right].
  - destruct r as [e|[h rest']]; cbn [fbind]; [exists (inl e); by rewrite Hw|].
    destruct (Hi h rest' eq_refl) as [-> ->]. cbn [app].
    destruct (check_status (read_bytes used)) as [e|[]] eqn:Ec; cbn [fbind]; rewrite Hw;
      (eexists; split_and!; [done|done|]); [done|]. by intros s [= <-].
  - split_and!; [done|done|]. by destruct timeout.
Qed.

(** ** Witnesses *)

Module Example2.
Definition ok_head : bytes := lit "HTTP/1.1 200 Connection established" ++ CRLF2.
Definition target : ProxyTarget := {| px_host := lit "proxy.local"; px_port := 3128 |}.
Definition answering (rs : list ReadResult) : Net :=
  λ a, if decide (a = proxy_addr target)
       then {| accepts := Some true; takes := Some true; reads := rs |}
       else {| accepts := Some false; takes := None; reads := [] |}.

(** More one-byte reads than the loop can take. *)
Definition many : nat := Z.to_nat 8200.

(** Any way of cutting [ok_head] is complete. *)
Lemma ok_head_complete : complete_head ok_head.
Proof.
  split; [reflexivity|]. intros n Hn. change (length ok_head) with 39%nat in Hn.
  do 39 (destruct n as [|n]; [reflexivity|]). lia.
Defined.
End Example2.
Import Example2.

Lemma tunnel_equals_whole_head_check_witness :
  tunnel (answering (map ReadOk [take 10 ok_head; drop 10 ok_head] ++ [ReadOk [22]]))
    target (lit "origin") 443 None =
  Some (inr {| peer_addr := lit "proxy.local:3128"; written := connect_request (lit "origin") 443;
               unread := [ReadOk [22]] |}).
Proof.
  rewrite (tunnel_equals_whole_head_check _ _ _ _ _ [take 10 ok_head; drop 10 ok_head]
             [ReadOk [22]] ok_head).
  - reflexivity.
  - reflexivity.
  - reflexivity.
  - reflexivity.
  - repeat constructor; discriminate.
  - reflexivity.
  - exact ok_head_complete.
  - vm_compute. discriminate.
Defined.

Lemma tunnel_head_is_bounded_witness :
  ∃ r, tunnel (answering (replicate many (ReadOk [65]))) target (lit "origin") 443 (Some 10) = Some r.
Proof.
  destruct (tunnel_head_is_bounded (answering (replicate many (ReadOk [65]))) target (lit "origin") 443
    (Some 10)) as (used & rest & E & _ & _ & [(r & Er & _)|(Erest & Hn & _)]).
  - reflexivity.
  - reflexivity.
  - change (reads _) with (replicate many (ReadOk [65])). apply Forall_replicate. simpl. lia.
  - exists r. exact Er.
  - exfalso. subst rest. rewrite app_nil_r in E. subst used. revert Hn.
    change (reads _) with (replicate many (ReadOk [65])). rewrite length_replicate. unfold many. lia.
Defined.

(** Bytes of the target that arrive in the same read as the end of the proxy's
    head are not in the stream that is handed on. *)
Theorem tunnel_drops_early_bytes :
  tunnel (answering [ReadOk (ok_head ++ lit "early"); ReadOk (lit "later")]) target
    (lit "origin") 443 None =
  Some (inr {| peer_addr := lit "proxy.local:3128"; written := connect_request (lit "origin") 443;
               unread := [ReadOk (lit "later")] |}).
Proof. vm_compute. reflexivity. Qed.

(** The parser on the addresses of the source's own tests. *)
Example proxy_parse_tests :
  let parse s := (λ p, (px_host p, px_port p)) <$> proxy_parse (H := Uri.Concrete.uri_instance) (lit s) in
  parse "http://proxy.local"%string = Some (lit "proxy.local", 80) ∧
  parse "http://10.0.0.1:3128/"%string = Some (lit "10.0.0.1", 3128) ∧
  parse "https://proxy:443"%string = None ∧ parse "http://user:pw@proxy:3128"%string = None ∧
  parse "http://proxy:3128/path"%string = None ∧ parse "socks5://proxy:1080"%string = None ∧
  parse "proxy:3128"%string = None.
Proof. vm_compute. done. Qed.
