(* ===== verification/Tls.v ===== *)
(** * The connectors: TLS and plaintext

    Source: [lib/src/client/tls.rs] and [lib/src/client/plaintext.rs].

    rustls is an interface: the trust store and the PEM reader are the class
    [Rustls]; what the TLS and HTTP handshakes answer is the environment
    ([Handshakes]).  Of [rustls::Error] the variants that the source matches are
    constructors, all others one. *)

From S2P Require Import Prelude Conc Abi Headers Text Uri Proxy Pool.

(** ** Windows *)

Definition STREAM_WINDOW : Z := 1024 * 1024.
Definition CONNECTION_WINDOW : Z := DEFAULT_PAUSED_CAP * STREAM_WINDOW + 4 * 1024 * 1024.
Definition MAX_CONCURRENT_STREAMS : Z := 128.

(** ** The trust store *)

Class Rustls := {
  Certificate : Type;
  RootCertStore : Type;
  ServerName : Type;
  (* [RootCertStore::empty], [add] ([None] is an error), [is_empty] *)
  roots_empty : RootCertStore;
  roots_add : RootCertStore → Certificate → option RootCertStore;
  roots_is_empty : RootCertStore → bool;
  (* the trust anchors of a store, in the order they were added *)
  roots_list : RootCertStore → list Certificate;
  (* [rustls_pemfile::certs]: each item a certificate or an error *)
  pem_certs : bytes → list (option Certificate);
  (* [ServerName::try_from] *)
  server_name : bytes → option ServerName;
}.

Class RustlsLaws (R : Rustls) := {
  roots_list_empty : roots_list roots_empty = [];
  roots_list_add s c s' : roots_add s c = Some s' → roots_list s' = roots_list s ++ [c];
  roots_is_empty_spec s : roots_is_empty s = true ↔ roots_list s = [];
}.

Record TlsOptions := {
  tls_custom_ca_pem : option bytes;
  replace_system_roots : bool;
  require_h2 : bool;
  tls_proxy : option ProxyTarget;
  tls_connect_timeout : option Z;
}.

Section config.
Context {R : Rustls}.

Record ClientConfig := { cfg_roots : RootCertStore; alpn_protocols : list bytes }.

(** [for cert in loaded.certs { let _ = roots.add(cert); }]. *)
Fixpoint add_all (roots : RootCertStore) (certs : list Certificate) : RootCertStore :=
  match certs with
  | [] => roots
  | c :: certs => add_all (default roots (roots_add roots c)) certs
  end.

(** The loop over the custom bundle: every item has to be a certificate the
    store takes. *)
Fixpoint add_pem (roots : RootCertStore) (added : nat) (items : list (option Certificate))
    : Hyper4kErrorKind + (RootCertStore * nat) :=
  match items with
  | [] => inr (roots, added)
  | None :: _ => inl HYPER4K_ERR_TLS_CA
  | Some c :: items =>
      match roots_add roots c with
      | None => inl HYPER4K_ERR_TLS_CA
      | Some roots => add_pem roots (S added) items
      end
  end.

(** What is done with the roots collected so far: the custom bundle, then the
    configuration. *)
Definition finish_config (opts : TlsOptions) (roots : RootCertStore)
    : Hyper4kErrorKind + ClientConfig :=
  let config (roots : RootCertStore) : ClientConfig :=
    {| cfg_roots := roots;
       alpn_protocols := if require_h2 opts then [lit "h2"] else [lit "h2"; lit "http/1.1"] |} in
  match tls_custom_ca_pem opts with
  | Some pem =>
      match add_pem roots 0 (pem_certs pem) with
      | inl e => inl e
      | inr (roots, added) =>
          if bool_decide (added = 0%nat) then inl HYPER4K_ERR_TLS_CA else inr (config roots)
      end
  | None => inr (config roots)
  end.

(** [native]: the certificates [load_native_certs] finds. *)
Definition build_tls_config (native : list Certificate) (opts : TlsOptions)
    : Hyper4kErrorKind + ClientConfig :=
  if replace_system_roots opts then finish_config opts roots_empty
  else
    let roots := add_all roots_empty native in
    if roots_is_empty roots then inl HYPER4K_ERR_TLS_OTHER else finish_config opts roots.
End config.

(** ** Failure classification *)

Inductive CertificateError :=
| UnknownIssuer
| BadSignature
| NotValidForName
| NotValidForNameContext
| Expired
| ExpiredContext
| NotValidYet
| NotValidYetContext
| OtherCertificateError.

Inductive RustlsError :=
| InvalidCertificate (e : CertificateError)
| NoApplicationProtocol
| OtherError.

Definition classify_rustls (e : RustlsError) : Hyper4kErrorKind :=
  match e with
  | InvalidCertificate UnknownIssuer | InvalidCertificate BadSignature => HYPER4K_ERR_TLS_CA
  | InvalidCertificate NotValidForName | InvalidCertificate NotValidForNameContext =>
      HYPER4K_ERR_TLS_HOSTNAME
  | InvalidCertificate Expired | InvalidCertificate ExpiredContext
  | InvalidCertificate NotValidYet | InvalidCertificate NotValidYetContext =>
      HYPER4K_ERR_TLS_EXPIRED
  | NoApplicationProtocol => HYPER4K_ERR_ALPN_NO_H2
  | _ => HYPER4K_ERR_TLS_OTHER
  end.

Definition contains_any (needles : list string) (t : bytes) : bool :=
  existsb (λ n, contains (lit n) t) needles.

Definition classify_text (t : bytes) : Hyper4kErrorKind :=
  let t := to_ascii_lowercase t in
  if contains_any ["unknownissuer"; "unknown issuer"; "badsignature"; "bad signature"]%string t
  then HYPER4K_ERR_TLS_CA
  else if contains_any ["notvalidforname"; "not valid for name"]%string t
  then HYPER4K_ERR_TLS_HOSTNAME
  else if contains_any ["expired"; "notvalidyet"]%string t
  then HYPER4K_ERR_TLS_EXPIRED
  else if contains_any ["no application protocol"; "noapplicationprotocol"]%string t
  then HYPER4K_ERR_ALPN_NO_H2
  else if contains_any ["certificate"; "handshake"; "tls"]%string t
  then HYPER4K_ERR_TLS_OTHER
  else HYPER4K_ERR_CONNECT.

(** An error and its chain of sources: the text of each and, where it is one,
    the [rustls::Error] it downcasts to. *)
Definition ErrorChain : Type := list (bytes * option RustlsError).

Fixpoint classify_from (text : bytes) (err : ErrorChain) : Hyper4kErrorKind :=
  match err with
  | [] => classify_text text
  | (msg, down) :: err =>
      match down with
      | Some e => classify_rustls e
      | None => classify_from (text ++ msg ++ lit ";") err
      end
  end.

Definition classify (err : ErrorChain) : Hyper4kErrorKind := classify_from [] err.

(** ** Connecting *)

(** The HTTP/2 settings a connection is opened with. *)
Record Http2Settings := {
  initial_stream_window_size : Z;
  initial_connection_window_size : Z;
  max_concurrent_streams : Z;
}.

(** The sender of a new connection. *)
Inductive Sender :=
| H1
| H2 (settings : Http2Settings).

Definition is_h2_sender (s : Sender) : bool := match s with H1 => false | H2 _ => true end.

Section connect.
Context {R : Rustls}.

(** What the handshakes answer on a stream: TLS with the negotiated protocol or
    its error, then HTTP. *)
Record Handshakes := {
  tls_handshake : ClientConfig → ServerName → TcpStream → option (ErrorChain + option bytes);
  http1_handshake : TcpStream → option bool;
  http2_handshake : TcpStream → option bool;
}.

Record TlsClientConnector := {
  tc_config : ClientConfig;
  tc_require_h2 : bool;
  tc_connect_timeout : option Z;
  tc_proxy : option ProxyTarget;
}.

Definition tls_connector_new (native : list Certificate) (opts : TlsOptions)
    : Hyper4kErrorKind + TlsClientConnector :=
  match build_tls_config native opts with
  | inl e => inl e
  | inr config =>
      inr {| tc_config := config; tc_require_h2 := require_h2 opts;
             tc_connect_timeout := tls_connect_timeout opts; tc_proxy := tls_proxy opts |}
  end.

Variables (net : Net) (hs : Handshakes).

Definition tls_connect (c : TlsClientConnector) (key : PoolKey) : Fut Sender :=
  let addr := host_port (host key) (port key) in
  match server_name (host key) with
  | None => Some (inl HYPER4K_ERR_TLS_HOSTNAME)
  | Some name =>
      try tcp := match tc_proxy c with
                 | Some p => tunnel net p (host key) (port key) (tc_connect_timeout c)
                 | None => dial net addr (tc_connect_timeout c)
                 end in
      try alpn := match tls_handshake hs (tc_config c) name tcp with
                  | Some (inl e) => Some (inl (classify e))
                  | Some (inr alpn) => Some (inr alpn)
                  | None => None
                  end in
      let negotiated_h2 := bool_decide (alpn = Some (lit "h2")) in
      if tc_require_h2 c && negb negotiated_h2 then Some (inl HYPER4K_ERR_ALPN_NO_H2)
      else if negotiated_h2 then
        or_err HYPER4K_ERR_PROTOCOL (http2_handshake hs tcp)
          (H2 {| initial_stream_window_size := STREAM_WINDOW;
                 initial_connection_window_size := CONNECTION_WINDOW;
                 max_concurrent_streams := MAX_CONCURRENT_STREAMS |})
      else or_err HYPER4K_ERR_PROTOCOL (http1_handshake hs tcp) H1
  end.

Record PlaintextConnector := {
  pc_connect_timeout : option Z;
  pc_proxy : option ProxyTarget;
}.

Definition plain_connect (c : PlaintextConnector) (key : PoolKey) : Fut Sender :=
  let addr := match pc_proxy c with
              | Some p => proxy_addr p
              | None => host_port (host key) (port key)
              end in
  try stream := dial net addr (pc_connect_timeout c) in
  or_err HYPER4K_ERR_CONNECT (http1_handshake hs stream) H1.
End connect.

(** What [Pool::acquire] is told by a connector that has answered. *)
Definition dial_answer (r : Hyper4kErrorKind + Sender) : Hyper4kErrorKind + bool :=
  match r with inl e => inl e | inr s => inr (is_h2_sender s) end.

(** ** Lemmas *)

(** The kinds a connector may report: all of them are errors. *)
Definition connect_kinds : list Hyper4kErrorKind :=
  [HYPER4K_ERR_CONNECT; HYPER4K_ERR_TLS_CA; HYPER4K_ERR_TLS_HOSTNAME; HYPER4K_ERR_TLS_EXPIRED;
   HYPER4K_ERR_TLS_OTHER; HYPER4K_ERR_ALPN_NO_H2; HYPER4K_ERR_PROTOCOL; HYPER4K_ERR_TIMEOUT].

Ltac kinds := repeat first [by left | right].

(** A future whose errors are all of [connect_kinds]. *)
Definition errs_ok {A} (x : Fut A) : Prop := ∀ k, x = Some (inl k) → k ∈ connect_kinds.

Lemma errs_ok_bind {A B} (x : Fut A) (f : A → Fut B) :
  errs_ok x → (∀ a, errs_ok (f a)) → errs_ok (fbind x f).
Proof.
  intros Hx Hf k E. apply fbind_Some in E as [(e & -> & [= ->])|(a & -> & E)]; [by apply Hx|].
  by apply (Hf a).
Qed.

Lemma errs_ok_err {A} k : k ∈ connect_kinds → errs_ok (A := A) (Some (inl k)).
Proof. by intros ? ? [= <-]. Qed.

Lemma errs_ok_ok {A} (a : A) : errs_ok (Some (inr a)).
Proof. done. Qed.

Lemma errs_ok_or_err {A} k ok (a : A) : k ∈ connect_kinds → errs_ok (or_err k ok a).
Proof. intros Hk e. destruct ok as [[]|]; simpl; intros; simplify_eq; done. Qed.

Lemma errs_ok_timeout {A} t (x : Fut A) : errs_ok x → errs_ok (with_timeout t x).
Proof. intros Hx k. destruct x as [[]|], t; simpl; intros E; simplify_eq; try (by apply Hx). kinds. Qed.

Create HintDb kinds.
#[export] Hint Resolve errs_ok_bind errs_ok_err errs_ok_ok errs_ok_or_err errs_ok_timeout : kinds.
#[export] Hint Extern 2 (_ ∈ connect_kinds) => kinds : kinds.

Lemma read_head_errs head rs : errs_ok (read_head head rs).
Proof.
  revert head. induction rs as [|[b|] rs IH]; intros head; simpl; [done| |auto with kinds].
  repeat case_match; auto with kinds.
Qed.

Lemma dial_errs net addr t : errs_ok (dial net addr t).
Proof. unfold dial. auto with kinds. Qed.

Lemma tunnel_errs net p h n t : errs_ok (tunnel net p h n t).
Proof.
  unfold tunnel, exchange. apply errs_ok_bind; [apply dial_errs|]. intros s.
  apply errs_ok_timeout, errs_ok_bind; [auto with kinds|]. intros _.
  apply errs_ok_bind; [apply read_head_errs|]. intros [head rest].
  apply errs_ok_bind; [|auto with kinds]. unfold check_status.
  repeat case_match; auto with kinds.
Qed.

Lemma classify_rustls_kind e : classify_rustls e ∈ connect_kinds.
Proof. destruct e as [[]| |]; kinds. Qed.

Lemma classify_kind err : classify err ∈ connect_kinds.
Proof.
  unfold classify. generalize (@nil Z). induction err as [|[msg [e|]] err IH]; intros t; simpl.
  - unfold classify_text. repeat case_match; kinds.
  - apply classify_rustls_kind.
  - apply IH.
Qed.

#[export] Hint Resolve dial_errs tunnel_errs classify_kind : kinds.

Section facts.
Context {R : Rustls}.

Lemma plain_connect_errs net hs c key : errs_ok (plain_connect net hs c key).
Proof. unfold plain_connect. auto with kinds. Qed.

Lemma tls_connect_errs net hs c key : errs_ok (tls_connect net hs c key).
Proof.
  unfold tls_connect. destruct (server_name (host key)) as [name|]; [|auto with kinds].
  apply errs_ok_bind; [destruct (tc_proxy c); auto with kinds|]. intros tcp.
  apply errs_ok_bind; [|intros alpn; repeat case_match; auto with kinds].
  destruct (tls_handshake _ _ _ _) as [[e|a]|]; auto with kinds. done.
Qed.
End facts.

(** ** Properties *)

Section properties.
Context {R : Rustls}.

(** A connection that could not be made is always reported as an error.
    Whatever the network, the proxy and the handshakes answer, what a connector
    reports and what [acquire] then returns to the request is one of the error
    kinds of the ABI, never NONE, which would reach the caller as a success. *)
Theorem connect_failure_is_an_error net hs tls plain key r max_conns cap :
  tls_connect net hs tls key = Some r ∨ plain_connect net hs plain key = Some r →
  results_in (λ a, ∀ k, a = inl k → k ∈ HYPER4K_ERR_CANCELLED :: connect_kinds ∧ k ≠ HYPER4K_ERR_NONE)
    (acquire max_conns cap key (dial_answer r)).
Proof.
  intros Hr. set (Q := λ a : Hyper4kErrorKind + nat, _).
  assert (HQ : ∀ k, k ∈ HYPER4K_ERR_CANCELLED :: connect_kinds → Q (inl k)).
  { intros k Hk ? [= <-]. split; [done|]. intros ->.
    by repeat (apply elem_of_cons in Hk as [Hk|Hk]; [discriminate Hk|]); apply elem_of_nil in Hk. }
  assert (HR : ∀ id, Q (inr id)) by done.
  assert (Hd : ∀ k, dial_answer r = inl k → Q (inl k)).
  { intros k E. apply HQ, elem_of_cons. right. destruct r as [e|s]; simplify_eq/=.
    by destruct Hr as [Hr|Hr]; [eapply tls_connect_errs|eapply plain_connect_errs]. }
  assert (HC : Q (inl HYPER4K_ERR_CONNECT)) by (apply HQ; right; by left).
  set (Q' := λ a : option (Hyper4kErrorKind + nat), ∀ x, a = Some x → Q x).
  assert (HS : ∀ x, Q x → Q' (Some x)) by (by intros x Hx ? [= <-]).
  assert (HN : Q' None) by done.
  assert (Hcheck : results_in Q' (check_locked max_conns cap key)).
  { apply results_in_then. intros [id|]; [apply HS, HR|].
    do 2 (apply results_in_then; intros ?). destruct (max_conns <=? _); [apply HS, HC|done]. }
  apply results_in_bind with (M := Q').
  - apply results_in_then. intros []; [apply HS, HQ; by left|].
    apply results_in_then. intros [id|]; [apply HS, HR|]. apply results_in_then. intros [].
    eapply results_in_bind; [exact Hcheck|]. intros [a|] Ha; [|done].
    apply results_in_then. intros []. exact Ha.
  - intros [a|] Ha; [by apply Ha|].
    apply results_in_bind with (M := Q); [|by intros x Hx; apply results_in_then; intros []].
    unfold add_connection. destruct (dial_answer r) as [e|h2]; [by apply Hd|].
    do 2 (apply results_in_then; intros ?). apply results_in_then. by intros [id'|].
Qed.

(** C27: HTTP/2 is never downgraded when it is required, never assumed when it
    was not negotiated, and never spoken in plaintext.  The connector of a
    client that requires HTTP/2 offers nothing else in ALPN, and a connection it
    makes is an HTTP/2 connection, with windows that leave the live streams 4
    MiB beside the parked ones the pool allows for; any TLS connection is HTTP/2
    exactly when the peer chose it; a plaintext connection is HTTP/1. *)
Theorem protocol_is_what_was_negotiated net hs native opts tls plain key s :
  tls_connector_new native opts = inr tls →
  (require_h2 opts = true → alpn_protocols (tc_config tls) = [lit "h2"]) ∧
  (tls_connect net hs tls key = Some (inr s) →
     (require_h2 opts = true → is_h2_sender s = true) ∧
     (is_h2_sender s = true ↔ ∃ name tcp,
        tls_handshake hs (tc_config tls) name tcp = Some (inr (Some (lit "h2"))) ∧
        http2_handshake hs tcp = Some true ∧ server_name (host key) = Some name ∧
        match tls_proxy opts with
        | Some p => tunnel net p (host key) (port key) (tls_connect_timeout opts)
        | None => dial net (host_port (host key) (port key)) (tls_connect_timeout opts)
        end = Some (inr tcp)) ∧
     ∀ w, s = H2 w →
       DEFAULT_PAUSED_CAP * initial_stream_window_size w + 4 * 1024 * 1024
         ≤ initial_connection_window_size w < 2 ^ 31) ∧
  (plain_connect net hs plain key = Some (inr s) → s = H1).
Proof.
  unfold tls_connector_new. destruct (build_tls_config native opts) as [e|cfg] eqn:Ec; [done|].
  intros [= <-]. simpl. split_and!.
  - intros Hh2. revert Ec. unfold build_tls_config, finish_config. rewrite Hh2.
    repeat case_match; intros; simplify_eq; done.
  - unfold tls_connect. simpl. destruct (server_name (host key)) as [name|]; [|done].
    set (tcp := match tls_proxy opts with Some _ => _ | None => _ end).
    intros E. apply fbind_Some in E as [(?&_&?)|(st & Et & E)]; [done|].
    apply fbind_Some in E as [(?&_&?)|(alpn & Ea & E)]; [done|].
    destruct (tls_handshake hs cfg name st) as [[|]|] eqn:Eh; simplify_eq.
    case_bool_decide as Hal; [subst alpn|].
    + rewrite andb_false_r in E. destruct (http2_handshake hs st) as [[]|] eqn:E2; simplify_eq/=.
      split_and!; [done|split; [eauto 10|done]|]. intros w [= <-]. vm_compute. by split.
    + rewrite andb_true_r in E. destruct (require_h2 opts) eqn:Er; [done|].
      destruct (http1_handshake hs st) as [[]|]; simplify_eq/=. split_and!; [done| |done].
      split; [done|]. intros (n' & t' & Eh' & _ & [= <-] & Et'). rewrite Et in Et'. simplify_eq.
  - intros E. apply fbind_Some in E as [(?&_&?)|(st & Et & E)]; [done|].
    by destruct (http1_handshake hs st) as [[]|]; simplify_eq/=.
Qed.

(** A connector that was given a proxy talks to nobody else.  What either
    connector does for any target is determined by the network at the proxy's
    address: two networks that agree there are indistinguishable. *)
Lemma proxied_connectors_contact_only_the_proxy net net' hs tls plain key p :
  net (proxy_addr p) = net' (proxy_addr p) →
  (tc_proxy tls = Some p → tls_connect net hs tls key = tls_connect net' hs tls key) ∧
  (pc_proxy plain = Some p → plain_connect net hs plain key = plain_connect net' hs plain key).
Proof.
  intros E. unfold tls_connect, plain_connect, dial. split; intros ->; [|by rewrite E].
  destruct (server_name _); [|done]. by rewrite (tunnel_local net net').
Qed.

(** *** The trust store *)

Context {RL : RustlsLaws R}.

Lemma add_all_list roots certs :
  ∃ l, l `sublist_of` certs ∧ roots_list (add_all roots certs) = roots_list roots ++ l.
Proof.
  revert roots. induction certs as [|c certs IH]; intros roots; simpl.
  { exists []. by rewrite app_nil_r. }
  destruct (roots_add roots c) as [s'|] eqn:E; simpl.
  - destruct (IH s') as (l & Hl & ->). exists (c :: l). split; [by constructor|].
    by rewrite (roots_list_add _ _ _ E), <- app_assoc.
  - destruct (IH roots) as (l & Hl & ->). exists l. split; [by constructor|done].
Qed.

Lemma add_pem_list roots n items roots' n' :
  add_pem roots n items = inr (roots', n') →
  ∃ l, items = map Some l ∧ n' = (n + length l)%nat ∧ roots_list roots' = roots_list roots ++ l.
Proof.
  revert roots n. induction items as [|[c|] items IH]; intros roots n E; simpl in E; [| |done].
  - simplify_eq. exists []. rewrite app_nil_r. split_and!; [done|simpl; lia|done].
  - destruct (roots_add roots c) as [s|] eqn:Es; [|done].
    destruct (IH _ _ E) as (l & -> & -> & ->). exists (c :: l).
    split_and!; [done|simpl; lia|]. by rewrite (roots_list_add _ _ _ Es), <- app_assoc.
Qed.

Lemma finish_config_roots opts roots cfg :
  finish_config opts roots = inr cfg →
  ∃ bundle, roots_list (cfg_roots cfg) = roots_list roots ++ bundle ∧
    match tls_custom_ca_pem opts with
    | Some pem => pem_certs pem = map Some bundle ∧ bundle ≠ []
    | None => bundle = []
    end.
Proof.
  unfold finish_config. destruct (tls_custom_ca_pem opts) as [pem|].
  - destruct (add_pem roots 0 (pem_certs pem)) as [|[roots' n]] eqn:E; [done|].
    case_bool_decide as Hn; [done|]. intros [= <-].
    destruct (add_pem_list _ _ _ _ _ E) as (l & Hl & -> & Hr). exists l. simpl.
    split_and!; [done|done|]. by intros ->.
  - intros [= <-]. exists []. by rewrite app_nil_r.
Qed.

(** Whom the client trusts.  The roots of an accepted configuration are
    some of the platform's followed by every certificate of the custom bundle;
    with "replace system roots" there are none of the platform's, without it at
    least one; a bundle that is given is never empty, and never partly used. *)
Lemma trusted_roots native opts cfg :
  build_tls_config native opts = inr cfg →
  ∃ sys bundle, roots_list (cfg_roots cfg) = sys ++ bundle ∧ sys `sublist_of` native ∧
    (replace_system_roots opts = true ↔ sys = []) ∧
    match tls_custom_ca_pem opts with
    | Some pem => pem_certs pem = map Some bundle ∧ bundle ≠ []
    | None => bundle = []
    end.
Proof.
  unfold build_tls_config. destruct (replace_system_roots opts).
  - intros (b & Hr & Hb)%finish_config_roots. exists [], b. rewrite roots_list_empty in Hr.
    split_and!; [done|apply sublist_nil_l|done|done].
  - destruct (roots_is_empty (add_all roots_empty native)) eqn:Ee; [done|].
    destruct (add_all_list roots_empty native) as (l & Hl & El). rewrite roots_list_empty in El.
    intros (b & Hr & Hb)%finish_config_roots. exists l, b. rewrite El in Hr.
    split_and!; [done|done| |done].
    split; [done|]. intros ->. rewrite <- not_true_iff_false, roots_is_empty_spec in Ee. done.
Qed.
End properties.

(** ** An instance and witnesses *)

Module Concrete.
(** Certificates are numbers, negative ones are not accepted; a bundle is a list
    of bytes, 255 one that is not a certificate. *)
#[export] Instance rustls : Rustls := {
  Certificate := Z;
  RootCertStore := list Z;
  ServerName := bytes;
  roots_empty := [];
  roots_add s c := if c <? 0 then None else Some (s ++ [c]);
  roots_is_empty s := bool_decide (s = []);
  roots_list s := s;
  pem_certs b := map (λ c, if c =? 255 then None else Some c) b;
  server_name h := if bool_decide (h = []) then None else Some h;
}.

#[export] Instance rustls_laws : RustlsLaws rustls.
Proof.
  split; [done| |].
  - intros s c s' E. simpl in *. destruct (c <? 0); simplify_eq. done.
  - intros s. simpl. by rewrite bool_decide_eq_true.
Qed.

Definition opts (pem : option bytes) (replace h2 : bool) : TlsOptions :=
  {| tls_custom_ca_pem := pem; replace_system_roots := replace; require_h2 := h2;
     tls_proxy := None; tls_connect_timeout := Some 10 |}.

(** A network in which everybody answers, and handshakes that choose [alpn]. *)
Definition open_net : Net :=
  λ _, {| accepts := Some true; takes := Some true; reads := [] |}.
Definition choose (alpn : option bytes) : Handshakes :=
  {| tls_handshake := λ _ _ _, Some (inr alpn); http1_handshake := λ _, Some true;
     http2_handshake := λ _, Some true |}.
Definition key : PoolKey := pool_key (lit "https") (lit "Origin") 443.
Definition direct : PlaintextConnector := {| pc_connect_timeout := None; pc_proxy := None |}.
Definition h2_only : TlsClientConnector :=
  {| tc_config := {| cfg_roots := [7]; alpn_protocols := [lit "h2"] |}; tc_require_h2 := true;
     tc_connect_timeout := Some 10; tc_proxy := None |}.
End Concrete.
Import Tls.Concrete.

Lemma connect_failure_is_an_error_witness :
  tls_connect open_net (choose None) h2_only key = Some (inl HYPER4K_ERR_ALPN_NO_H2) ∧
  results_in (λ a, ∀ k, a = inl k → k ∈ HYPER4K_ERR_CANCELLED :: connect_kinds ∧ k ≠ HYPER4K_ERR_NONE)
    (acquire 8 4 key (inl HYPER4K_ERR_ALPN_NO_H2)).
Proof.
  assert (tls_connect open_net (choose None) h2_only key = Some (inl HYPER4K_ERR_ALPN_NO_H2)) as E
    by (vm_compute; reflexivity).
  split; [exact E|].
  exact (connect_failure_is_an_error open_net (choose None) h2_only direct key _ 8 4 (or_introl E)).
Defined.

Lemma protocol_is_what_was_negotiated_witness :
  tls_connector_new [7] (opts None false true) = inr h2_only ∧
  alpn_protocols (tc_config h2_only) = [lit "h2"].
Proof.
  assert (tls_connector_new [7] (opts None false true) = inr h2_only) as E
    by (vm_compute; reflexivity).
  split; [exact E|].
  exact (proj1 (protocol_is_what_was_negotiated open_net (choose None) [7] (opts None false true)
    h2_only direct key H1 E) eq_refl).
Defined.

(** *** What the classification and the configuration do not do *)

(** The textual fallback agrees with the structural classification on every
    variant in its derived [Debug] form. *)
Definition debug_name (e : CertificateError) : string :=
  match e with
  | UnknownIssuer => "UnknownIssuer" | BadSignature => "BadSignature"
  | NotValidForName => "NotValidForName"
  | NotValidForNameContext => "NotValidForNameContext { expected: a, presented: [] }"
  | Expired => "Expired" | ExpiredContext => "ExpiredContext { time: 1, not_after: 0 }"
  | NotValidYet => "NotValidYet" | NotValidYetContext => "NotValidYetContext { time: 0, not_before: 1 }"
  | OtherCertificateError => "Revoked"
  end%string.

Lemma fallback_agrees e :
  classify [(lit "invalid peer certificate: " ++ lit (debug_name e), None)] =
  classify_rustls (InvalidCertificate e).
Proof. by destruct e; vm_compute. Qed.

(** The spaced form of "not valid yet" is not recognised, unlike the spaced
    forms of the other categories. *)
Theorem not_valid_yet_text_is_other :
  classify [(lit "invalid peer certificate: certificate not valid yet", None)] =
    HYPER4K_ERR_TLS_OTHER ∧
  classify_rustls (InvalidCertificate NotValidYetContext) = HYPER4K_ERR_TLS_EXPIRED.
Proof. vm_compute. done. Qed.

(** Replacing the system roots without a bundle leaves nothing to trust, and is
    accepted. *)
Theorem replaced_roots_may_be_empty `{R : Rustls} native opts :
  replace_system_roots opts = true → tls_custom_ca_pem opts = None →
  ∃ cfg, build_tls_config native opts = inr cfg ∧ cfg_roots cfg = roots_empty.
Proof. intros Hr Hc. unfold build_tls_config, finish_config. rewrite Hr, Hc. by eexists. Qed.

(** Nine streams of one HTTP/2 connection, leased while none was paused, can all
    pause: the pool's cap of four only stops new ones, and their windows exceed
    the connection's. *)
Fixpoint times (n : nat) (p : prog pool unit) : prog pool unit :=
  match n with
  | O => Ret tt
  | S n => pbind p (λ _, times n p)
  end.

Theorem paused_streams_exceed_window :
  match run 0 (pbind (times 9 (pbind (acquire 8 DEFAULT_PAUSED_CAP key (inr true)) (λ _, Ret tt)))
                 (λ _, times 9 (pause_guard_new 1))) pool_new with
  | Some (s, _) =>
      match entries s !! 1%nat with
      | Some e => is_h2 e = true ∧ active e = 9 ∧ CONNECTION_WINDOW < paused e * STREAM_WINDOW
      | None => False
      end
  | None => False
  end.
Proof. vm_compute. done. Qed.
