(* ===== verification/Template.v ===== *)
(** * The request template

    Source: [RequestTemplate], [to_origin_form] and [slice_bytes] of
    [lib/src/client/handle.rs].

    [hyper::Method] is the class [HttpMethod]; headers and URIs are those of
    [Headers] and [Uri].  [HttpNames] adds what building a request relies on. *)

From S2P Require Import Prelude Abi Headers Text Uri Proxy Pool.

Class HttpMethod := {
  Method : Type;
  (* [Method::from_bytes], [Method::as_str] *)
  method_from_bytes : bytes → option Method;
  method_as_str : Method → bytes;
}.

Class HttpMethodLaws (M : HttpMethod) := {
  method_from_as_str b m : method_from_bytes b = Some m → method_as_str m = b;
}.

(** [HeaderName::from_bytes] normalises to lower case; visible ASCII is a value. *)
Class HttpNames (H : HttpHeaders) := {
  name_as_str_lower b n : name_from_bytes b = Some n → name_as_str n = to_ascii_lowercase b;
  host_is_a_name : is_Some (name_from_bytes (lit "host"));
  visible_is_a_value b : Forall (λ c, 32 < c < 127) b → is_Some (value_from_bytes b);
}.

(** ** Data *)

Section template.
Context {H : HttpHeaders} {U : HttpUri} {M : HttpMethod}.

Record RequestTemplate := {
  t_method : Method;
  t_uri : Uri;
  t_headers : list (bytes * bytes);
  t_body : bytes;
  t_authority : bytes;
  absolute_form : bool;
}.

(** The parts of [hyper::Request] that are set. *)
Record HttpRequest := {
  rq_method : Method;
  rq_uri : Uri;
  rq_headers : HeaderMap;
  rq_body : bytes;
}.

(** ** Operations *)

Fixpoint validate_headers (hs : list (bytes * bytes)) : bool :=
  match hs with
  | [] => true
  | (n, v) :: hs =>
      match name_from_bytes n with
      | None => false
      | Some _ =>
          match value_from_bytes v with
          | None => false
          | Some _ => validate_headers hs
          end
      end
  end.

Definition validate (t : RequestTemplate) : bool := validate_headers (t_headers t).

Definition eq_ignore_ascii_case (a b : bytes) : bool :=
  bool_decide (to_ascii_lowercase a = to_ascii_lowercase b).

(** [Builder::header]: the first error stays. *)
Definition builder_header (b : option HeaderMap) (n v : bytes) : option HeaderMap :=
  m ← b; name ← name_from_bytes n; value ← value_from_bytes v; map_append m name value.

Fixpoint add_headers (b : option HeaderMap) (saw_host : bool) (hs : list (bytes * bytes))
    : option HeaderMap * bool :=
  match hs with
  | [] => (b, saw_host)
  | (n, v) :: hs =>
      let saw_host := eq_ignore_ascii_case n (lit "host") || saw_host in
      add_headers (builder_header b n v) saw_host hs
  end.

Definition build (t : RequestTemplate) : option HttpRequest :=
  let '(b, saw_host) := add_headers (Some map_new) false (t_headers t) in
  let b := if saw_host then b else builder_header b (lit "host") (t_authority t) in
  m ← b;
  Some {| rq_method := t_method t; rq_uri := t_uri t; rq_headers := m; rq_body := t_body t |}.

Definition to_origin_form (req : HttpRequest) : HttpRequest :=
  let pq := default (lit "/") (path_and_query (rq_uri req)) in
  match uri_parse pq with
  | Some uri =>
      {| rq_method := rq_method req; rq_uri := uri; rq_headers := rq_headers req;
         rq_body := rq_body req |}
  | None => req
  end.

(** What an attempt hands to the sender it leased. *)
Definition wire_request (t : RequestTemplate) (h2 : bool) : option HttpRequest :=
  req ← build t;
  Some (if h2 then req else if absolute_form t then req else to_origin_form req).
End template.

(** A [Hyper4kSlice]: an empty one may have any pointer, any other needs one.
    [mem ptr len] are the caller's bytes. *)
Definition slice_bytes (mem : Z → Z → bytes) (s : Hyper4kSlice) : option bytes :=
  if sl_len s =? 0 then Some []
  else if sl_ptr s =? 0 then None
  else Some (mem (sl_ptr s) (sl_len s)).

(** ** Lemmas *)

#[local] Arguments lit : simpl never.

Section facts.
Context {H : HttpHeaders} {U : HttpUri} {M : HttpMethod}.
Context {HL : HttpHeadersLaws H} {HN : HttpNames H} {UL : HttpUriLaws U}.

(** The headers as the http crate sees them. *)
Definition parsed (hs : list (bytes * bytes)) : list (HeaderName * HeaderValue) :=
  omap (λ h, n ← name_from_bytes h.1; v ← value_from_bytes h.2; Some (n, v)) hs.

Definition values_for (n : HeaderName) (l : list (HeaderName * HeaderValue)) : list HeaderValue :=
  (filter (λ h, h.1 = n) l).*2.

Lemma builder_header_ok m n v name value :
  name_from_bytes n = Some name → value_from_bytes v = Some value →
  Z.of_nat (map_len m) < MAX_SIZE →
  ∃ m', builder_header (Some m) n v = Some m' ∧ map_len m' = S (map_len m) ∧
    ∀ k, map_get_all m' k = map_get_all m k ++ (if decide (name = k) then [value] else []).
Proof.
  intros En Ev Hm. destruct (append_total m name value Hm) as [m' E].
  exists m'. unfold builder_header. simpl. rewrite En. simpl. rewrite Ev. simpl.
  split_and!; [done|by eapply map_len_append|]. intros k. by apply get_all_append.
Qed.

Lemma validate_parsed hs :
  validate_headers hs = true → length (parsed hs) = length hs.
Proof.
  induction hs as [|[n v] hs IH]; [done|]. simpl.
  destruct (name_from_bytes n); [|done]. simpl. destruct (value_from_bytes v); [|done].
  simpl. auto.
Qed.

Lemma add_headers_spec hs m saw :
  validate_headers hs = true → Z.of_nat (map_len m + length hs) ≤ MAX_SIZE →
  ∃ m', add_headers (Some m) saw hs =
      (Some m', existsb (λ h, eq_ignore_ascii_case h.1 (lit "host")) hs || saw) ∧
    map_len m' = (map_len m + length hs)%nat ∧
    ∀ k, map_get_all m' k = map_get_all m k ++ values_for k (parsed hs).
Proof.
  revert m saw. induction hs as [|[n v] hs IH]; intros m saw Hv Hm; cbn [add_headers].
  { exists m. split_and!; [done|simpl; lia|]. intros k. by rewrite app_nil_r. }
  simpl in Hv. destruct (name_from_bytes n) as [name|] eqn:En; [|done].
  destruct (value_from_bytes v) as [value|] eqn:Ev; [|done]. simpl in Hm.
  destruct (builder_header_ok m n v name value En Ev) as (m1 & -> & Hl & Hg); [lia|].
  destruct (IH m1 (eq_ignore_ascii_case n (lit "host") || saw) Hv) as (m' & E & Hl' & Hg'); [lia|].
  exists m'. split_and!; [|simpl; lia|].
  - rewrite E. f_equal. cbn [existsb fst]. by destruct (eq_ignore_ascii_case n _), (existsb _ hs), saw.
  - intros k. rewrite Hg', Hg. unfold parsed, values_for. cbn [omap list_omap fst snd].
    rewrite En. simpl. rewrite Ev. simpl. rewrite filter_cons. cbn [fst].
    case_decide; simpl; by rewrite <- app_assoc.
Qed.

(** Two texts of the same name differ in case only. *)
Lemma same_name_iff x y n m :
  name_from_bytes x = Some n → name_from_bytes y = Some m →
  eq_ignore_ascii_case x y = true ↔ n = m.
Proof.
  intros Ex Ey. unfold eq_ignore_ascii_case.
  rewrite bool_decide_eq_true, <- (name_as_str_lower _ _ Ex), <- (name_as_str_lower _ _ Ey).
  split; [|by intros ->]. intros E. apply (f_equal name_from_bytes) in E.
  rewrite !name_from_as_str in E. by injection E.
Qed.

Lemma saw_host_iff hs h :
  name_from_bytes (lit "host") = Some h → validate_headers hs = true →
  existsb (λ x, eq_ignore_ascii_case x.1 (lit "host")) hs = false ↔
  values_for h (parsed hs) = [].
Proof.
  intros Eh. induction hs as [|[n v] hs IH]; [done|]. intros Hv. simpl in Hv. cbn [existsb fst].
  destruct (name_from_bytes n) as [name|] eqn:En; [|done].
  destruct (value_from_bytes v) as [value|] eqn:Ev; [|done].
  unfold parsed, values_for. cbn [omap list_omap fst snd]. rewrite En. simpl. rewrite Ev. simpl.
  rewrite filter_cons, orb_false_iff, (IH Hv). cbn [fst].
  pose proof (same_name_iff _ _ _ _ En Eh) as Hs. rewrite <- not_true_iff_false, Hs.
  case_decide; [|tauto]. split; [by intros []|done].
Qed.

Lemma host_port_value host port :
  Forall (λ c, 32 < c < 127) host → in_width 16 port →
  is_Some (value_from_bytes (host_port host port)).
Proof.
  intros Hh Hp. apply visible_is_a_value. unfold host_port. rewrite !Forall_app.
  split_and!; [done|by repeat constructor|].
  destruct (u16_to_string_spec port Hp) as (_ & Hd & _). eapply Forall_impl; [exact Hd|].
  intros c. unfold is_digit, between. intros [??]%andb_true_iff. bool_lia.
Qed.

(** The request that a validated template builds. *)
Lemma build_spec t h a :
  validate t = true → Z.of_nat (length (t_headers t)) < MAX_SIZE →
  name_from_bytes (lit "host") = Some h → value_from_bytes (t_authority t) = Some a →
  ∃ r, build t = Some r ∧ rq_method r = t_method t ∧ rq_uri r = t_uri t ∧ rq_body r = t_body t ∧
    ∀ n, map_get_all (rq_headers r) n =
      values_for n (parsed (t_headers t)) ++
      (if decide (h = n ∧ values_for h (parsed (t_headers t)) = []) then [a] else []).
Proof.
  intros Hv Hl Eh Ea. unfold build.
  destruct (add_headers_spec (t_headers t) map_new false Hv) as (m & E & Hlen & Hg).
  { rewrite map_len_new. lia. }
  rewrite E, orb_false_r. rewrite map_len_new in Hlen.
  destruct (existsb _ (t_headers t)) eqn:Es.
  - eexists. split; [reflexivity|]. split_and!; [done..|]. intros n. simpl.
    rewrite Hg, get_all_new, decide_False, app_nil_r; [done|].
    intros [_ Hn]. by rewrite <- (saw_host_iff _ _ Eh Hv), Es in Hn.
  - destruct (builder_header_ok m _ _ h a Eh Ea) as (m' & -> & _ & Hg'); [lia|].
    eexists. split; [reflexivity|]. split_and!; [done..|]. intros n. simpl.
    rewrite Hg', Hg, get_all_new. simpl. f_equal. apply decide_ext.
    pose proof (proj1 (saw_host_iff _ _ Eh Hv) Es). tauto.
Qed.

(** The target of a direct HTTP/1 request for [uri]: origin-form when the path is
    not empty; the whole URI when its path and query are not a URI of their own. *)
Definition direct_target (uri target : Uri) : Prop :=
  (∀ pq, path_and_query uri = Some pq → head pq = Some 47 →
     scheme_str target = None ∧ uri_authority target = None ∧ path_and_query target = Some pq) ∧
  (uri_parse (default (lit "/") (path_and_query uri)) = None → target = uri).

Lemma to_origin_form_spec r :
  direct_target (rq_uri r) (rq_uri (to_origin_form r)) ∧
  rq_method (to_origin_form r) = rq_method r ∧ rq_headers (to_origin_form r) = rq_headers r ∧
  rq_body (to_origin_form r) = rq_body r.
Proof.
  unfold to_origin_form, direct_target.
  destruct (uri_parse (default (lit "/") _)) as [u|] eqn:Eu; (split_and!; [..|done|done|done]).
  - intros pq Epq Hpq. destruct (path_is_uri _ _ Epq Hpq) as (u' & Eu' & ?).
    rewrite Epq in Eu. simpl in Eu. rewrite Eu' in Eu. by injection Eu as <-.
  - done.
  - intros pq Epq Hpq. destruct (path_is_uri _ _ Epq Hpq) as (u' & Eu' & _).
    rewrite Epq in Eu. simpl in Eu. congruence.
  - done.
Qed.

(** What a validated template puts on the wire, on either kind of connection. *)
Lemma wire_request_spec t host port h2 :
  validate t = true → Z.of_nat (length (t_headers t)) < MAX_SIZE →
  t_authority t = host_port host port → Forall (λ c, 32 < c < 127) host → in_width 16 port →
  ∃ r h a, wire_request t h2 = Some r ∧
    name_from_bytes (lit "host") = Some h ∧ value_from_bytes (t_authority t) = Some a ∧
    rq_method r = t_method t ∧ rq_body r = t_body t ∧
    (∀ n, map_get_all (rq_headers r) n =
       values_for n (parsed (t_headers t)) ++
       (if decide (h = n ∧ values_for h (parsed (t_headers t)) = []) then [a] else [])) ∧
    if h2 || absolute_form t then rq_uri r = t_uri t else direct_target (t_uri t) (rq_uri r).
Proof.
  intros Hv Hl Ea Hh Hp. destruct host_is_a_name as [h Eh].
  destruct (host_port_value host port Hh Hp) as [a Eva]. rewrite <- Ea in Eva.
  destruct (build_spec t h a Hv Hl Eh Eva) as (r & Er & Hm & Hu & Hb & Hg).
  unfold wire_request. rewrite Er. simpl.
  destruct h2; simpl; [by exists r, h, a|]. destruct (absolute_form t); [by exists r, h, a|].
  destruct (to_origin_form_spec r) as (Hd & Em & Eg & Eb).
  exists (to_origin_form r), h, a. rewrite Em, Eg, Eb, <- Hu. done.
Qed.

(** [validate] does not count: a map that refuses more than [cap] values makes
    [build] fail on a template that was accepted. *)
Lemma add_headers_cap cap hs b saw m :
  (∀ m n v m', map_append m n v = Some m' → (map_len m' ≤ cap)%nat) →
  (add_headers b saw hs).1 = Some m →
  ∃ m0, b = Some m0 ∧ map_len m = (map_len m0 + length hs)%nat ∧ (hs ≠ [] → (map_len m ≤ cap)%nat).
Proof.
  intros Hcap. revert b saw. induction hs as [|[n v] hs IH]; intros b saw E; simpl in E.
  { exists m. subst b. split_and!; [done|simpl; lia|done]. }
  destruct (IH _ _ E) as (m1 & E1 & Hl & Hc). unfold builder_header in E1.
  destruct b as [m0|]; [|done]. simpl in E1.
  destruct (name_from_bytes n) as [name|]; [|done]. simpl in E1.
  destruct (value_from_bytes v) as [value|]; [|done]. simpl in E1.
  pose proof (map_len_append _ _ _ _ E1). pose proof (Hcap _ _ _ _ E1).
  exists m0. split_and!; [done|simpl; lia|]. intros _. destruct hs; [simpl in Hl; lia|by apply Hc].
Qed.

Theorem too_many_headers_cannot_be_built cap t :
  (∀ m n v m', map_append m n v = Some m' → (map_len m' ≤ cap)%nat) →
  (cap < length (t_headers t))%nat → build t = None.
Proof.
  intros Hcap Hl. unfold build. destruct (add_headers (Some map_new) false (t_headers t)) as [b saw] eqn:E.
  destruct b as [m|]; [|by destruct saw].
  destruct (add_headers_cap cap (t_headers t) (Some map_new) false m Hcap) as (m0 & [= <-] & Hm & Hc);
    [by rewrite E|]. rewrite map_len_new in Hm.
  destruct (t_headers t); [simpl in Hl; lia|]. specialize (Hc ltac:(done)). simpl in *. lia.
Qed.
End facts.

(** ** An instance and witnesses *)

Module Concrete.
#[export] Instance http_names : HttpNames Headers.Concrete.http.
Proof.
  split.
  - intros b n E. simpl in E. unfold Headers.Concrete.from_sig in E.
    destruct (decide _); [|done]. injection E as <-. done.
  - simpl. unfold Headers.Concrete.from_sig. destruct (decide _) as [|Hn]; [by eexists|].
    destruct Hn. split; [done|]. by repeat constructor.
  - intros b Hb. simpl. unfold Headers.Concrete.from_sig. destruct (decide _) as [|Hn]; [by eexists|].
    destruct Hn. eapply Forall_impl; [exact Hb|]. simpl. lia.
Qed.

(** Methods are their tokens. *)
#[export] Instance http_method : HttpMethod := {
  Method := bytes;
  method_from_bytes b := if bool_decide (b = []) then None else Some b;
  method_as_str m := m;
}.

#[export] Instance http_method_laws : HttpMethodLaws http_method.
Proof. split. intros b m. simpl. case_bool_decide; by intros [= ->]. Qed.
End Concrete.
