(* ===== verification/Client.v ===== *)
(** * The client object: new, send, resume, cancel, close, free

    Source: the exported functions of [lib/src/client/handle.rs].

    [client] is the shared state of a [Hyper4kClient]; [ClientConf] its fields
    that never change.  Every request that was ever accepted is an element of
    [slots], named by its index (the allocation); the registry maps the ids that
    callers hold to them.  The routines of one request ([Bridge], [Request]) run
    on their slot through [on_slot], those of [Limits] and [Pool] through
    [on_limits] and [on_pool].  The network task of a request is the attempt loop
    of [Request] over the client's pools and connectors ([pooled]); a task that is
    aborted or timed out leaves at the await where it stands ([until]) and gives
    back what it holds.

    A struct that the caller passes is the bytes from its pointer on ([None] is
    NULL); everything else it points to is [mem ptr len].  Threads have numbers;
    [task_of i] is the number of the network task of slot [i] (a name, used by
    the ghost ownership fields only). *)

From S2P Require Import Prelude Conc Abi Headers Text Uri Proxy Pool Tls Template Limits.
From S2P Require Import Retry Bridge Request.

Open Scope prog_scope.

(** ** Data *)

Section client.
Context {H : HttpHeaders} {U : HttpUri} {M : HttpMethod} {R : Rustls}.

(** What [hyper4k_client_new] fixes. *)
Record ClientConf := {
  cf_plain : PlaintextConnector;
  cf_tls : option TlsClientConnector;
  cf_connect_timeout : option Z;
  cf_queue_capacity : nat;
  cf_h2_required : bool;
  cf_executor_threads : Z;
  cf_limits : Limits;
  cf_max_retries : Z;
  cf_request_timeout : option Z;
  cf_read_idle_timeout : option Z;
  cf_via_proxy : bool;
}.

(** What a network task is started with. *)
Record Job := {
  j_https : bool;
  j_key : PoolKey;
  j_template : RequestTemplate;
  j_policy : RequestPolicy;
}.

(** Why the future of a network task is dropped before its end: the task was
    aborted, or the timeout of [run_request] fired. *)
Inductive Stop := Aborted | TimedOut.

(** A request: its id, its slot and handle, the bytes its cleanup releases, the
    task once it has been spawned, and whether its future is being dropped. *)
Record request := Req {
  r_id : Z;
  r_bridge : bridge;
  r_reserved : Z;
  r_task : option Job;
  r_dropped : option Stop;
}.

#[export] Instance request_eta : Settable request := λ q,
  Req (r_id q) (r_bridge q) (r_reserved q) (r_task q) (r_dropped q).

Record client := Client {
  c_pool : pool;
  c_tls_pool : option pool;
  c_requests : gmap Z nat;
  next_id : Z;
  c_closed : bool;
  c_bridges : Z;
  c_limits : counters;
  c_slots : list request;
  (* shutdown tasks that were spawned; [executor.shutdown] was called *)
  c_shutdowns : nat;
  c_stopped : bool;
}.

#[export] Instance client_eta : Settable client := λ s,
  Client (c_pool s) (c_tls_pool s) (c_requests s) (next_id s) (c_closed s) (c_bridges s)
    (c_limits s) (c_slots s) (c_shutdowns s) (c_stopped s).

(** ** [hyper4k_client_new] *)

(** What the platform answers: the Tokio runtime, the native certificates, the
    available parallelism. *)
Record Platform := {
  runtime_builds : bool;
  native_certs : list Certificate;
  parallelism : option Z;
}.

(** [match ms { 0 => None, ms => Some(ms) }]. *)
Definition nonzero (ms : Z) : option Z := if ms =? 0 then None else Some ms.

(** A pointer and length that may be absent. *)
Definition optional_bytes (mem : Z → Z → bytes) (ptr len : Z) : option bytes :=
  if (ptr =? 0) || (len =? 0) then None else Some (mem ptr len).

(** The proxy of the options: [None] is an error. *)
Definition options_proxy (mem : Z → Z → bytes) (o : Hyper4kClientOptions)
    : option (option ProxyTarget) :=
  match optional_bytes mem (proxy_url o) (proxy_url_len o) with
  | None => Some None
  | Some raw => if is_utf8 raw then Some <$> proxy_parse raw else None
  end.

Definition options_tls (mem : Z → Z → bytes) (o : Hyper4kClientOptions)
    (proxy : option ProxyTarget) : TlsOptions :=
  {| tls_custom_ca_pem := optional_bytes mem (custom_ca_pem o) (custom_ca_pem_len o);
     replace_system_roots := has_flag HYPER4K_CLIENT_CA_REPLACE_SYSTEM (flags o);
     require_h2 := has_flag HYPER4K_CLIENT_HTTP2_REQUIRED (flags o);
     tls_proxy := proxy;
     tls_connect_timeout := nonzero (connect_timeout_ms o) |}.

Definition new_conf (pl : Platform) (o : Hyper4kClientOptions) (proxy : option ProxyTarget)
    (tls : option TlsClientConnector) : ClientConf :=
  {| cf_plain := {| pc_connect_timeout := nonzero (connect_timeout_ms o); pc_proxy := proxy |};
     cf_tls := tls;
     cf_connect_timeout := nonzero (connect_timeout_ms o);
     cf_queue_capacity := 8;
     cf_h2_required := has_flag HYPER4K_CLIENT_HTTP2_REQUIRED (flags o);
     cf_executor_threads := match parallelism pl with
                            | Some n => Z.min (Z.max n 2) 8
                            | None => 4
                            end;
     cf_limits := limits_new (max_inflight_requests o) (max_buffered_bytes o);
     cf_max_retries := max_retries o;
     cf_request_timeout := nonzero (request_timeout_ms o);
     cf_read_idle_timeout := nonzero (Abi.read_idle_timeout_ms o);
     cf_via_proxy := bool_decide (is_Some proxy) |}.

Definition new_client (conf : ClientConf) : client :=
  {| c_pool := pool_new;
     c_tls_pool := match cf_tls conf with Some _ => Some pool_new | None => None end;
     c_requests := ∅; next_id := 1; c_closed := false; c_bridges := 0;
     c_limits := counters_new; c_slots := []; c_shutdowns := 0; c_stopped := false |}.

(** [out_null]: the caller passed NULL for [out_client]. *)
Definition hyper4k_client_new (pl : Platform) (mem : Z → Z → bytes) (opts : option bytes)
    (out_null : bool) : Hyper4kStatus + (ClientConf * client) :=
  match opts with
  | None => inl HYPER4K_STATUS_INVALID_ARG
  | Some src =>
      if out_null then inl HYPER4K_STATUS_INVALID_ARG
      else
        let st := validate_header (raw_abi src) (raw_size src) OPTIONS_MIN_SIZE in
        if negb (st =? HYPER4K_STATUS_OK) then inl st
        else
          let o := copy_prefix src (raw_size src) defaults_options in
          if has_bits_outside KNOWN_CLIENT_FLAGS (flags o) then inl HYPER4K_STATUS_UNKNOWN_FLAGS
          else if negb (runtime_builds pl) then inl HYPER4K_STATUS_OOM
          else
            match options_proxy mem o with
            | None => inl HYPER4K_STATUS_INVALID_ARG
            | Some proxy =>
                let ok tls := let conf := new_conf pl o proxy tls in inr (conf, new_client conf) in
                match tls_connector_new (native_certs pl) (options_tls mem o proxy) with
                | inr c => ok (Some c)
                | inl e => if e =? HYPER4K_ERR_TLS_CA then inl HYPER4K_STATUS_INVALID_ARG else ok None
                end
            end
  end.

(** ** The parts of the state *)

Section parts.
Variable task_of : nat → nat.

(** The name of thread [t] in slot [i]: its network task is 0. *)
Definition local (i t : nat) : nat := if decide (t = task_of i) then 0%nat else S t.

(** The paused counts of the connections of a pool after a slot changed its share
    of them (the guards it has made and not dropped) from [old] to [new]. *)
Definition shift_paused (old new : gmap nat Z) (p : pool) : pool :=
  if decide (old = new) then p
  else p <| entries ::= map_imap (λ id e,
         Some (e <| Pool.paused := wrap 32 (Pool.paused e +
                      (default 0 (new !! id) - default 0 (old !! id))) |>)) |>.

(** A change to the pool of a scheme. *)
Definition in_pool (https : bool) (f : pool → pool) (s : client) : client :=
  if https then s <| c_tls_pool ::= fmap f |> else s <| c_pool ::= f |>.

Definition is_https (q : request) : bool :=
  match r_task q with Some j => j_https j | None => false end.

(** Storing the slot of request [i]: the bridge counter and the paused counts of
    the connections are shared by all slots. *)
Definition put_bridge (i : nat) (q : request) (b : bridge) (s : client) : client :=
  in_pool (is_https q) (shift_paused (conn_paused (r_bridge q)) (conn_paused b))
    (s <| c_slots ::= insert i (q <| r_bridge := b |>) |>
       <| c_bridges ::= λ n, n + (counter b - counter (r_bridge q)) |>).

Fixpoint on_limits {A} (p : prog counters A) : prog client A :=
  match p with
  | Ret a => Ret a
  | Atom f k =>
      Atom (λ t s, match f t (c_limits s) with
                   | Some (l, r) => Some (s <| c_limits := l |>, r)
                   | None => None
                   end) (λ r, on_limits (k r))
  end.

(** The closure that [finished] holds: release the reservation, then leave the
    registry. *)
Definition cleanup (q : request) : prog client unit :=
  on_limits (reservation_drop (r_reserved q)) ;;
  modify (λ s, s <| c_requests ::= delete (r_id q) |>).

(** A routine of one request.  Taking [finished] runs the cleanup. *)
Fixpoint on_slot {A} (i : nat) (p : prog bridge A) : prog client A :=
  match p with
  | Ret a => Ret a
  | Atom f k =>
      Atom (λ t s,
        match c_slots s !! i with
        | Some q =>
            match f (local i t) (r_bridge q) with
            | Some (b, r) =>
                Some (put_bridge i q b s,
                      (r, if finished (r_bridge q) && negb (finished b) then Some q else None))
            | None => None
            end
        | None => None
        end)
      (λ rf, match rf.2 with
             | Some q => cleanup q ;; on_slot i (k rf.1)
             | None => on_slot i (k rf.1)
             end)
  end.

Fixpoint on_pool {A} (p : prog pool A) : prog client A :=
  match p with
  | Ret a => Ret a
  | Atom f k =>
      Atom (λ t s, match f t (c_pool s) with
                   | Some (l, r) => Some (s <| c_pool := l |>, r)
                   | None => None
                   end) (λ r, on_pool (k r))
  end.

(** On the TLS pool, or [d] when there is none. *)
Fixpoint on_tls_pool {A} (d : A) (p : prog pool A) : prog client A :=
  match p with
  | Ret a => Ret a
  | Atom f k =>
      Atom (λ t s, match c_tls_pool s with
                   | None => Some (s, None)
                   | Some l =>
                       match f t l with
                       | Some (l, r) => Some (s <| c_tls_pool := Some l |>, Some r)
                       | None => None
                       end
                   end)
        (λ r, match r with Some r => on_tls_pool d (k r) | None => Ret d end)
  end.

(** [c.requests.get(&id)]. *)
Definition get_request (id : Z) : prog client (option nat) := load (λ s, c_requests s !! id).

(** ** [hyper4k_client_send] *)

Section api.
Variable conf : ClientConf.

(** The arguments of a call: the struct, the callbacks (whether each is set, and
    what they will return), and whether [client] or [out_request_id] is NULL. *)
Record SendArgs := {
  a_client_null : bool;
  a_mem : Z → Z → bytes;
  a_request : option bytes;
  a_on_headers : bool;
  a_on_chunk : bool;
  a_on_done : bool;
  a_out_null : bool;
  a_script : list Z;
}.

(** Up to the look at [closed]: pointers, callbacks, the versioned struct. *)
Definition read_request (a : SendArgs) : Hyper4kStatus + Hyper4kClientRequest :=
  match a_request a with
  | None => inl HYPER4K_STATUS_INVALID_ARG
  | Some src =>
      if a_client_null a || a_out_null a then inl HYPER4K_STATUS_INVALID_ARG
      else if negb (a_on_headers a && a_on_done a) then inl HYPER4K_STATUS_INVALID_ARG
      else
        let st := validate_header (raw_abi src) (raw_size src) REQUEST_MIN_SIZE in
        if negb (st =? HYPER4K_STATUS_OK) then inl st
        else inr (copy_prefix src (raw_size src) defaults_request)
  end.

(** An early return, a panic, or a value. *)
Inductive Checked (A : Type) :=
| Refuse (st : Hyper4kStatus)
| Panic
| Good (a : A).
#[local] Arguments Refuse {A} st.
#[local] Arguments Panic {A}.
#[local] Arguments Good {A} a.

Definition cbind {A B} (x : Checked A) (f : A → Checked B) : Checked B :=
  match x with Refuse st => Refuse st | Panic => Panic | Good a => f a end.

Definition or_refuse {A} (st : Hyper4kStatus) (x : option A) : Checked A :=
  match x with Some a => Good a | None => Refuse st end.

#[local] Notation "'let?' x := e 'in' f" := (cbind e (λ x, f))
  (at level 10, x pattern, e at level 100, f at level 200).

(** The port of a URL: its own, or the default of a scheme there is one for. *)
Definition url_port (scheme : bytes) (uri : Uri) : Checked Z :=
  let given := port_u16 uri in
  if bool_decide (scheme = lit "https") then Good (default 443 given)
  else if bool_decide (scheme = lit "http") then Good (default 80 given)
  else Refuse HYPER4K_STATUS_INVALID_ARG.

(** Entry [i] of the caller's header array. *)
Definition header_at (mem : Z → Z → bytes) (headers : Z) (i : nat) : Hyper4kSlice * Hyper4kSlice :=
  let bs := mem (headers + 32 * Z.of_nat i) 32 in
  let '(np, bs) := get_le 8 bs in let '(nl, bs) := get_le 8 bs in
  let '(vp, bs) := get_le 8 bs in let '(vl, _) := get_le 8 bs in
  ({| sl_ptr := np; sl_len := nl |}, {| sl_ptr := vp; sl_len := vl |}).

Fixpoint read_headers (mem : Z → Z → bytes) (headers : Z) (i n : nat)
    : option (list (bytes * bytes)) :=
  match n with
  | O => Some []
  | S n =>
      let '(nm, vl) := header_at mem headers i in
      x ← slice_bytes mem nm;
      y ← slice_bytes mem vl;
      rest ← read_headers mem headers (S i) n;
      Some ((x, y) :: rest)
  end.

(** [Vec::with_capacity(n)] of pairs of [Bytes] (64 bytes each) panics when the
    capacity in bytes exceeds [isize::MAX]. *)
Definition with_capacity (n : Z) : Checked unit := if n * 64 <? 2 ^ 63 then Good tt else Panic.

Definition request_headers (mem : Z → Z → bytes) (r : Hyper4kClientRequest)
    : Checked (list (bytes * bytes)) :=
  let? _ := with_capacity (header_count r) in
  if 0 <? header_count r then
    if headers r =? 0 then Refuse HYPER4K_STATUS_INVALID_ARG
    else or_refuse HYPER4K_STATUS_INVALID_ARG
           (read_headers mem (headers r) 0 (Z.to_nat (header_count r)))
  else Good [].

Definition request_body (mem : Z → Z → bytes) (r : Hyper4kClientRequest) : Checked bytes :=
  if body_len r =? 0 then Good []
  else if body_ptr r =? 0 then Refuse HYPER4K_STATUS_INVALID_ARG
  else Good (mem (body_ptr r) (body_len r)).

(** [u64::MAX] inherits, 0 disables, anything else overrides. *)
Definition idle_timeout (r : Hyper4kClientRequest) : option Z :=
  if req_read_idle_timeout_ms r =? 2 ^ 64 - 1 then cf_read_idle_timeout conf
  else nonzero (req_read_idle_timeout_ms r).

(** From the look at [closed] to the allocation of the id: everything is decided
    here, nothing is registered. *)
Definition prepare (mem : Z → Z → bytes) (r : Hyper4kClientRequest) : Checked Job :=
  let? method_b := or_refuse HYPER4K_STATUS_INVALID_ARG (slice_bytes mem (method r)) in
  let? url_b := or_refuse HYPER4K_STATUS_INVALID_ARG (slice_bytes mem (url r)) in
  let? m := or_refuse HYPER4K_STATUS_INVALID_ARG (method_from_bytes method_b) in
  let? _ := if is_utf8 url_b then Good tt else Refuse HYPER4K_STATUS_INVALID_ARG in
  let? uri := or_refuse HYPER4K_STATUS_INVALID_ARG (uri_parse url_b) in
  let scheme := default [] (scheme_str uri) in
  let? host := or_refuse HYPER4K_STATUS_INVALID_ARG (uri_host uri) in
  let? port := url_port scheme uri in
  let https := bool_decide (scheme = lit "https") in
  let? _ := if negb https && cf_h2_required conf then Refuse HYPER4K_STATUS_UNSUPPORTED else Good tt in
  let? hs := request_headers mem r in
  let? body := request_body mem r in
  let? _ := if https && bool_decide (cf_tls conf = None) then Refuse HYPER4K_STATUS_UNSUPPORTED
            else Good tt in
  let template :=
    {| t_method := m; t_uri := uri; t_headers := hs; t_body := body;
       t_authority := host_port host port;
       absolute_form := cf_via_proxy conf && negb https |} in
  let? _ := if validate template then Good tt else Refuse HYPER4K_STATUS_INVALID_ARG in
  Good {| j_https := https; j_key := pool_key scheme host port; j_template := template;
          j_policy := {| policy_max_retries := cf_max_retries conf;
                         Request.request_timeout := cf_request_timeout conf;
                         Request.read_idle_timeout := idle_timeout r |} |}.

(** The bytes a request reserves: its body and a full queue. *)
Definition reserve_bytes (j : Job) : Z :=
  Z.of_nat (length (t_body (j_template j))) + Z.of_nat (cf_queue_capacity conf) * 64 * 1024.

(** [bridges.enter()] and [bridge::spawn]: a slot nobody else knows yet. *)
Definition enter_and_spawn (id : Z) (a : SendArgs) (j : Job) : prog client nat :=
  fetch (λ s,
    (s <| c_bridges ::= Z.succ |>
       <| c_slots ::= (λ l, l ++ [Req id (spawn (cf_queue_capacity conf) (a_on_chunk a) (a_script a))
                                    (reserve_bytes j) None None]) |>,
     length (c_slots s))).

(** [rt.spawn(run_request(..))]. *)
Definition spawn_task (i : nat) (j : Job) : prog client unit :=
  modify (λ s, s <| c_slots ::= alter (λ q, q <| r_task := Some j |>) i |>).

(** With [panic = "abort"] nothing runs any more. *)
Definition panic {A} : prog client A := Atom (R := A) (λ _ _, None) Ret.

(** The status and what was written to [*out_request_id]. *)
Definition hyper4k_client_send (a : SendArgs) : prog client (Hyper4kStatus * option Z) :=
  match read_request a with
  | inl st => Ret (st, None)
  | inr r =>
      c <- load c_closed ;;
      if c : bool then Ret (HYPER4K_STATUS_CLIENT_CLOSED, None)
      else
        match prepare (a_mem a) r with
        | Refuse st => Ret (st, None)
        | Panic => panic
        | Good j =>
            id <- fetch (λ s, (s <| next_id := fetch_add 64 (next_id s) 1 |>, next_id s)) ;;
            ok <- on_limits (try_reserve (cf_limits conf) (reserve_bytes j)) ;;
            if negb ok then Ret (HYPER4K_STATUS_RESOURCE_EXHAUSTED, None)
            else
              i <- enter_and_spawn id a j ;;
              modify (λ s, s <| c_requests ::= insert id i |>) ;;
              spawn_task i j ;;
              on_slot i set_abort ;;
              Ret (HYPER4K_STATUS_OK, Some id)
        end
  end.

(** ** The network task *)

(** The task of slot [i], once it has been spawned. *)
Definition wait_task (i : nat) : prog client Job :=
  atomic (λ _ s, match c_slots s !! i with
                 | Some q => match r_task q with Some j => Some (s, j) | None => None end
                 | None => None
                 end).

Definition why_dropped (i : nat) (s : client) : option Stop :=
  match c_slots s !! i with Some q => r_dropped q | None => None end.

Definition is_dropped (i : nat) (s : client) : bool :=
  match why_dropped i s with Some _ => true | None => false end.

(** The runtime decides to drop the future of task [i]: once it has been aborted
    (or the runtime is gone), or when the timer fires. *)
Definition can_stop (why : Stop) (q : request) (s : client) : bool :=
  match why with
  | Aborted => task_aborted (r_bridge q) || c_stopped s
  | TimedOut => match r_task q with
                | Some j => bool_decide (is_Some (Request.request_timeout (j_policy j)))
                | None => false
                end
  end.

Definition stop_task (i : nat) (why : Stop) : prog client unit :=
  atomic (λ _ s,
    match c_slots s !! i with
    | Some q =>
        if can_stop why q s && bool_decide (r_dropped q = None)
        then Some (s <| c_slots ::= insert i (q <| r_dropped := Some why |>) |>, tt)
        else None
    | None => None
    end).

(** Run [p] until its end or until it has to wait in a future that is being
    dropped ([None]).  An await is the only place where a future can be dropped. *)
Fixpoint until {A} (i : nat) (p : prog client A) : prog client (option A) :=
  match p with
  | Ret a => Ret (Some a)
  | Atom f k =>
      Atom (λ t s, match f t s with
                   | Some (s', r) => Some (s', Some r)
                   | None => if is_dropped i s then Some (s, None) else None
                   end)
        (λ r, match r with Some r => until i (k r) | None => Ret None end)
  end.

Definition wait_dropped (i : nat) : prog client unit :=
  atomic (λ _ s, if is_dropped i s then Some (s, tt) else None).

(** On the pool of a request; [d] should there be none. *)
Definition on_job {A} (j : Job) (d : A) (p : prog pool A) : prog client A :=
  if j_https j then on_tls_pool d p else on_pool p.

(** What the environment of a task answers in one attempt: the network and the
    handshakes when it connects, and hyper when it sends. *)
Record Round := {
  rd_net : Net;
  rd_handshakes : Handshakes;
  rd_sent : option (bool + Response);
}.

(** [connector.connect(key)] of the pool of a request. *)
Definition connect (j : Job) (a : Round) : option (Hyper4kErrorKind + bool) :=
  dial_answer <$>
    if j_https j then
      match cf_tls conf with
      | Some c => tls_connect (rd_net a) (rd_handshakes a) c (j_key j)
      | None => None
      end
    else plain_connect (rd_net a) (rd_handshakes a) (cf_plain conf) (j_key j).

(** [pool.acquire(&key).await].  A future dropped while it connects releases the
    dial lock. *)
Definition task_acquire (i : nat) (j : Job) (a : Round)
    : prog client (option (Hyper4kErrorKind + nat)) :=
  r <- until i (on_job j (Some (inl HYPER4K_ERR_CONNECT))
                  (start_acquire DEFAULT_MAX_CONNS_PER_KEY DEFAULT_PAUSED_CAP (j_key j))) ;;
  match r with
  | None => Ret None
  | Some (Some r) => Ret (Some r)
  | Some None =>
      match connect j a with
      | Some dial =>
          r <- on_job j (inl HYPER4K_ERR_CONNECT) (finish_acquire (j_key j) dial) ;;
          Ret (Some r)
      | None => wait_dropped i ;; on_job j tt (unlock_dial (j_key j)) ;; Ret None
      end
  end.

(** The surroundings of the network task of slot [i]. *)
Definition pooled (i : nat) (j : Job) : Transport client Round := {|
  tr_slot A p := on_slot i p;
  tr_until A p := until i (on_slot i p);
  tr_acquire := task_acquire i j;
  tr_is_closed _ c := on_job j true (lease_is_closed c);
  tr_drop c := on_job j tt (lease_drop c);
  tr_built _ := match build (j_template j) with Some _ => true | None => false end;
  tr_sent := rd_sent;
|}.

(** [run_request]: the attempt loop, and what is done when the timeout dropped it. *)
Definition network_task (i : nat) (env : list Round) : prog client unit :=
  j <- wait_task i ;;
  ended <- attempt_loop (T := pooled i j) (is_idempotent (method_as_str (t_method (j_template j))))
             (deliver_response (j_policy j)) env (policy_max_retries (j_policy j)) ;;
  if ended : bool then Ret tt
  else
    why <- load (why_dropped i) ;;
    match why with
    | Some TimedOut => on_slot i (request_timed_out (j_policy j))
    | _ => Ret tt
    end.

(** ** The other exported functions *)

Definition hyper4k_client_resume (client_null : bool) (id : Z) : prog client Hyper4kStatus :=
  if client_null then Ret HYPER4K_STATUS_INVALID_ARG
  else
    h <- get_request id ;;
    match h with
    | None => Ret HYPER4K_STATUS_NOT_FOUND
    | Some i => on_slot i resume
    end.

Definition hyper4k_client_cancel (client_null : bool) (id : Z) : prog client Hyper4kStatus :=
  if client_null then Ret HYPER4K_STATUS_INVALID_ARG
  else
    h <- get_request id ;;
    match h with
    | None => Ret HYPER4K_STATUS_NOT_FOUND
    | Some i => on_slot i cancel_request
    end.

Definition hyper4k_client_inflight_count (client_null : bool) : prog client Z :=
  if client_null then Ret 0 else load (λ s, inflight (c_limits s)).

Definition hyper4k_client_paused_stream_count (client_null : bool) : prog client Z :=
  if client_null then Ret 0
  else
    n <- on_pool total_paused ;;
    m <- on_tls_pool 0 total_paused ;;
    Ret (wrap 32 (n + m)).

Fixpoint close_all (ids : list Z) : prog client unit :=
  match ids with
  | [] => Ret tt
  | id :: ids =>
      h <- get_request id ;;
      match h with
      | Some i => on_slot i close_request
      | None => Ret tt
      end ;;
      close_all ids
  end.

Definition hyper4k_client_close (client_null : bool) : prog client unit :=
  if client_null then Ret tt
  else
    modify (λ s, s <| c_closed := true |>) ;;
    ids <- load (λ s, (map_to_list (c_requests s)).*1) ;;
    close_all ids ;;
    modify (λ s, s <| c_shutdowns ::= S |>).

Definition shutdown_pools : prog client unit :=
  on_pool pool_shutdown ;;
  on_tls_pool tt pool_shutdown.

(** The task that [close] spawns. *)
Definition shutdown_task : prog client unit :=
  atomic (λ _ s, match c_shutdowns s with O => None | S _ => Some (s, tt) end) ;;
  shutdown_pools.

(** [bridges.wait_zero()]. *)
Definition wait_bridges : prog client unit :=
  atomic (λ _ s, if c_bridges s =? 0 then Some (s, tt) else None).

Definition hyper4k_client_free (client_null : bool) : prog client unit :=
  if client_null then Ret tt
  else
    hyper4k_client_close client_null ;;
    wait_bridges ;;
    shutdown_pools ;;
    modify (λ s, s <| c_stopped := true |>).

(** A worker of the executor: one turn on each of the slots [l], in order. *)
Fixpoint client_worker (l : list nat) : prog client unit :=
  match l with
  | [] => Ret tt
  | i :: l => on_slot i worker_turn ;; client_worker l
  end.
End api.
End parts.
End client.

(** ** A caller: one plaintext request, for the witnesses *)

Module Caller.
#[export] Existing Instance Headers.Concrete.http.
#[export] Existing Instance Uri.Concrete.uri_instance.
#[export] Existing Instance Template.Concrete.http_method.
#[export] Existing Instance Tls.Concrete.rustls.

(** The caller's memory: a method, two URLs, a proxy. *)
Definition mem (p n : Z) : bytes :=
  if p =? 1000 then lit "GET"
  else if p =? 2000 then lit "http://origin/x"
  else if p =? 3000 then lit "http://proxy.local:3128"
  else [].

Definition get_request_struct : Hyper4kClientRequest :=
  {| req_abi_version := hyper4k_abi_version; req_struct_size := 80;
     method := {| sl_ptr := 1000; sl_len := 3 |}; url := {| sl_ptr := 2000; sl_len := 15 |};
     headers := 0; header_count := 0; body_ptr := 0; body_len := 0;
     req_read_idle_timeout_ms := 2 ^ 64 - 1 |}.

Definition args_of (r : Hyper4kClientRequest) : SendArgs :=
  {| a_client_null := false; a_mem := mem; a_request := Some (to_bytes r); a_on_headers := true; a_on_chunk := true;
     a_on_done := true; a_out_null := false; a_script := [0; 0; 0] |}.
Definition args : SendArgs := args_of get_request_struct.

Definition platform : Platform :=
  {| runtime_builds := true; native_certs := [7]; parallelism := Some 16 |}.

(** Options as [hyper4k_client_options_init] leaves them, with a proxy or not. *)
Definition options (proxy : bool) : Hyper4kClientOptions :=
  {| abi_version := hyper4k_abi_version; struct_size := 88; flags := 0;
     connect_timeout_ms := 10000; request_timeout_ms := 60000; read_idle_timeout_ms := 60000;
     max_retries := 2; max_inflight_requests := 4; max_buffered_bytes := 0; custom_ca_pem := 0;
     custom_ca_pem_len := 0; proxy_url := if proxy then 3000 else 0;
     proxy_url_len := if proxy then 23 else 0 |}.

Definition made (proxy : bool) : option (ClientConf * client) :=
  match hyper4k_client_new platform mem (Some (to_bytes (options proxy))) false with
  | inr x => Some x
  | inl _ => None
  end.

Definition conf : ClientConf :=
  new_conf platform (options false) None
    (match tls_connector_new [7] (options_tls mem (options false) None) with
     | inr t => Some t
     | inl _ => None
     end).
End Caller.
