(* ===== verification/ClientSafety.v ===== *)
(** * The whole client under every interleaving

    Rely-guarantee proof that the routines of [Client] keep one invariant when
    any number of requests are submitted, run, cancelled, resumed, timed out and
    closed concurrently.  What [BridgeSafety] shows of one request and [Limits]
    of the two counters carries over through [on_slot] and [on_limits]. *)

From S2P Require Import Prelude Conc Abi Headers Text Uri Proxy Pool Tls Template Limits.
From S2P Require Import Retry Bridge Request BridgeSafety Client.

Open Scope prog_scope.

Section safety.
Context {H : HttpHeaders} {U : HttpUri} {M : HttpMethod} {R : Rustls}.
Context (task_of : nat → nat) (conf : ClientConf) (threads_max : nat) (request_max : Z).
Hypothesis limits_wide :
  0 ≤ request_max ∧ 0 ≤ max_inflight (cf_limits conf) ∧ 0 ≤ max_bytes (cf_limits conf) ∧
  max_inflight (cf_limits conf) + Z.of_nat (S threads_max) < 2 ^ 32 ∧
  max_bytes (cf_limits conf) + Z.of_nat (S threads_max) * request_max < 2 ^ 64.

#[local] Abbreviation binv := (BridgeSafety.inv (cf_queue_capacity conf)) (only parsing).
#[local] Abbreviation bsafe := (Conc.safe binv rely) (only parsing).
#[local] Abbreviation linv := (limits_inv (cf_limits conf) threads_max request_max) (only parsing).
#[local] Abbreviation lsafe := (Conc.safe linv limits_rely) (only parsing).
#[local] Abbreviation nm := (local task_of) (only parsing).

(** ** Invariant and interference *)

Definition shares (l : list request) : list Z := map (λ q, counter (r_bridge q)) l.

Record client_inv (s : client) : Prop := ClientInv {
  ci_slots : Forall (λ q, binv (r_bridge q)) (c_slots s);
  ci_bridges : c_bridges s = zsum (shares (c_slots s));
  ci_registry : ∀ id i, c_requests s !! id = Some i → ∃ q, c_slots s !! i = Some q ∧ r_id q = id;
  ci_limits : linv (c_limits s);
}.

Record client_rely (t : nat) (s s' : client) : Prop := ClientRely {
  cr_limits : limits_rely t (c_limits s) (c_limits s');
  cr_slots : ∀ i q, c_slots s !! i = Some q →
    ∃ q', c_slots s' !! i = Some q' ∧ r_id q' = r_id q ∧ rely (nm i t) (r_bridge q) (r_bridge q');
  cr_new : ∀ i q', c_slots s !! i = None → c_slots s' !! i = Some q' →
    producer_holds (r_bridge q') = 0%nat;
}.

#[local] Abbreviation safe := (Conc.safe client_inv client_rely) (only parsing).
#[local] Abbreviation stable := (Conc.stable client_inv client_rely) (only parsing).

Lemma local_inj i t t' : t ≠ t' → nm i t ≠ nm i t'.
Proof. unfold local. repeat case_decide; congruence. Qed.

(** The requests did not change and the limits did as others may rely on. *)
Lemma guar_same t s s' :
  c_slots s' = c_slots s → guar limits_rely t (c_limits s) (c_limits s') →
  guar client_rely t s s'.
Proof.
  intros Es Hl t' Ht. split; [by apply Hl|rewrite Es..].
  - intros i q Hq. exists q. split_and!; [done|done|apply rely_refl].
  - intros. congruence.
Qed.

(** *** Assertions *)

(** Thread [t] has nothing half-done with the limits. *)
Definition Quiet (t : nat) (s : client) : Prop := at_stage t Limits.Idle (c_limits s).

(** An assertion on the slot of request [i]. *)
Definition On (i : nat) (P : bridge → Prop) (s : client) : Prop :=
  ∃ q, c_slots s !! i = Some q ∧ P (r_bridge q).

Definition HasId (i : nat) (id : Z) (s : client) : Prop :=
  ∃ q, c_slots s !! i = Some q ∧ r_id q = id.

(** Nobody but its task has produced for request [i]. *)
Definition Unproduced (i : nat) (s : client) : Prop :=
  ∀ q, c_slots s !! i = Some q → producer_holds (r_bridge q) = 0%nat.

(** Assertions that only look at the requests. *)
Definition on_requests (F : client → Prop) : Prop :=
  ∀ s s', c_slots s' = c_slots s → F s → F s'.

Lemma Quiet_stable t : stable t (Quiet t).
Proof.
  intros s s' Hi Hi' Hr. apply (at_stage_stable (cf_limits conf) threads_max request_max t
    Limits.Idle (c_limits s) (c_limits s')); [apply Hi|apply Hi'|apply Hr].
Qed.

Lemma On_stable t i P : Conc.stable binv rely (nm i t) P → stable t (On i P).
Proof.
  intros HP s s' Hi Hi' Hr (q & Hq & Pq). destruct (cr_slots _ _ _ Hr i q Hq) as (q' & Hq' & _ & Hb).
  exists q'. split; [done|]. apply (HP (r_bridge q)); [| |done|done].
  - by apply (Forall_lookup_1 _ _ _ _ (ci_slots _ Hi) Hq).
  - by apply (Forall_lookup_1 _ _ _ _ (ci_slots _ Hi') Hq').
Qed.

Lemma HasId_stable t i id : stable t (HasId i id).
Proof.
  intros s s' Hi Hi' Hr (q & Hq & <-). destruct (cr_slots _ _ _ Hr i q Hq) as (q' & ? & ? & _).
  by exists q'.
Qed.

Lemma Unproduced_stable t i : t = task_of i → stable t (Unproduced i).
Proof.
  intros -> s s' Hi Hi' Hr HP q' Hq'. destruct (c_slots s !! i) as [q|] eqn:Hq.
  - destruct (cr_slots _ _ _ Hr i q Hq) as (q'' & Hq'' & _ & Hb). simplify_eq.
    rewrite (rely_producer _ _ _ Hb); [by apply HP|]. unfold local. by rewrite decide_True.
  - by apply (cr_new _ _ _ Hr i).
Qed.

Lemma client_stable_and t (P Q : client → Prop) :
  stable t P → stable t Q → stable t (λ s, P s ∧ Q s).
Proof. intros HP HQ s s' ??? []. split; [by apply (HP s s')|by apply (HQ s s')]. Qed.

Lemma on_requests_On i P : on_requests (On i P).
Proof. intros s s' E (q & Hq & ?). exists q. by rewrite E. Qed.
Lemma on_requests_HasId i id : on_requests (HasId i id).
Proof. intros s s' E (q & Hq & ?). exists q. by rewrite E. Qed.
Lemma on_requests_Unproduced i : on_requests (Unproduced i).
Proof. intros s s' E HP q. rewrite E. apply HP. Qed.
Lemma on_requests_True : on_requests (λ _, True).
Proof. done. Qed.

#[local] Create HintDb client.
#[local] Hint Resolve Quiet_stable On_stable HasId_stable client_stable_and stable_True
  on_requests_On on_requests_HasId on_requests_Unproduced on_requests_True : client.

(** ** The parts *)

(** *** Actions outside the requests and the limits *)

Definition ccore (s : client) : list request * Z * gmap Z nat * counters :=
  (c_slots s, c_bridges s, c_requests s, c_limits s).

Lemma silent_step t s s' :
  ccore s' = ccore s → client_inv s → client_inv s' ∧ guar client_rely t s s'.
Proof.
  intros [= Es Eb Er El] Hi. split.
  - destruct Hi. split; by rewrite ?Es, ?Eb, ?Er, ?El.
  - apply guar_same; [done|]. rewrite El. intros ? _. done.
Qed.

Lemma safe_quiet {A} t (p : prog client A) F :
  stable t F → on_requests F → keeps ccore p →
  safe t p (λ s, Quiet t s ∧ F s) (λ _ s, Quiet t s ∧ F s).
Proof.
  intros HF HoF. assert (stable t (λ s, Quiet t s ∧ F s)) as Hst by auto with client.
  induction p as [a|T f k IH]; simpl; intros Hp; (split; [done|]); [done|].
  destruct Hp as [Hf Hk]. intros s s' r Is [HQ Fs] E. specialize (Hf t s s' r E).
  destruct (silent_step t s s' Hf Is). injection Hf as Es _ _ El. split_and!; [done|done|].
  eexists. split; [|by apply IH]. split; [unfold Quiet; by rewrite El|by apply (HoF s)].
Qed.

(** *** The limits *)

Lemma safe_on_limits {A} t (p : prog counters A) P (Q : A → counters → Prop) F :
  lsafe t p P Q → stable t F → on_requests F →
  safe t (on_limits p) (λ s, P (c_limits s) ∧ F s) (λ a s, Q a (c_limits s) ∧ F s).
Proof.
  intros Hp HF HoF. revert P Hp. induction p as [a|T f k IH]; intros P [HP Hp].
  - split; [|intros s Is []; split; [apply Hp; [apply Is|done]|done]].
    intros s s' Hi Hi' Hr [? ?]. split; [|by apply (HF s s')].
    apply (HP (c_limits s)); [apply Hi|apply Hi'|apply Hr|done].
  - split.
    { intros s s' Hi Hi' Hr [? ?]. split; [|by apply (HF s s')].
      apply (HP (c_limits s)); [apply Hi|apply Hi'|apply Hr|done]. }
    intros s s' r Is [Ps Fs] E.
    destruct (f t (c_limits s)) as [[l r']|] eqn:Ef; [|done]. injection E as <- <-.
    destruct (Hp _ _ _ (ci_limits _ Is) Ps Ef) as (Il & Hg & P' & Pl & Hk).
    split_and!.
    + destruct Is. by split.
    + by apply guar_same.
    + exists (λ s, P' (c_limits s) ∧ F s). split; [split; [done|by apply (HoF s)]|]. by apply IH.
Qed.

(** *** The requests *)

(** Storing a slot, seen from the requests and the limits. *)
Lemma put_bridge_core i q b s :
  ccore (put_bridge i q b s) =
  (<[i := q <| r_bridge := b |>]> (c_slots s),
   c_bridges s + (counter b - counter (r_bridge q)), c_requests s, c_limits s).
Proof. unfold put_bridge, in_pool. by destruct (is_https q). Qed.

(** One action of thread [t] on the slot of request [i]. *)
Lemma slot_step t i q b s :
  client_inv s → c_slots s !! i = Some q → binv b → guar rely (nm i t) (r_bridge q) b →
  let s' := put_bridge i q b s in
  client_inv s' ∧ guar client_rely t s s' ∧ c_slots s' !! i = Some (q <| r_bridge := b |>).
Proof.
  intros Hi Hq Hb Hg s'. assert (i < length (c_slots s))%nat as Hlt by (by eapply lookup_lt_Some).
  pose proof (put_bridge_core i q b s) as E. injection E as Es Eb Er El. fold s' in Es, Eb, Er, El.
  split_and!.
  - destruct Hi as [Hs Hc Hr Hl]. split; rewrite ?Es, ?Eb, ?Er, ?El; [| | |done].
    + by apply Forall_insert.
    + rewrite Hc. unfold shares. by rewrite (zsum_insert _ _ i q).
    + intros id j Hj. destruct (Hr id j Hj) as (q' & Hq' & <-). destruct (decide (i = j)) as [<-|Hne].
      * simplify_eq. eexists. rewrite list_lookup_insert_eq by done. by split.
      * exists q'. by rewrite list_lookup_insert_ne.
  - intros t' Ht. split; rewrite ?Es, ?El; [done| |].
    + intros j q' Hq'. destruct (decide (i = j)) as [<-|Hne].
      * simplify_eq. eexists. rewrite list_lookup_insert_eq by done. split_and!; [done|done|].
        by apply Hg, local_inj.
      * exists q'. rewrite list_lookup_insert_ne by done. split_and!; [done|done|apply rely_refl].
    + intros j q' Hn Hs. destruct (decide (i = j)) as [<-|Hne]; [congruence|].
      rewrite list_lookup_insert_ne in Hs by done. congruence.
  - rewrite Es. by rewrite list_lookup_insert_eq.
Qed.

Lemma safe_cleanup t q F :
  (t < threads_max)%nat → stable t F → on_requests F →
  safe t (cleanup q) (λ s, Quiet t s ∧ F s) (λ _ s, Quiet t s ∧ F s).
Proof.
  intros Ht HF HoF. unfold cleanup.
  eapply safe_bind; [apply (safe_on_limits t _ (at_stage t Limits.Idle) (λ _, at_stage t Limits.Idle) F);
    [by apply safe_reservation_drop|done|done]|].
  intros []; cbv beta. apply safe_atomic; [auto with client..|].
  intros s s' r Is [HQ Fs] [= <- <-]. split_and!; [|by apply guar_same|done|by apply (HoF s)].
  destruct Is. split; [done|done| |done]. intros id j Hj. simpl in Hj.
  apply lookup_delete_Some in Hj as [_ Hj]. by apply ci_registry0.
Qed.

Lemma safe_on_slot {A} t i (p : prog bridge A) P (Q : A → bridge → Prop) :
  (t < threads_max)%nat → bsafe (nm i t) p P Q →
  safe t (on_slot task_of i p) (λ s, Quiet t s ∧ On i P s) (λ a s, Quiet t s ∧ On i (Q a) s).
Proof.
  intros Ht Hp. revert P Hp. induction p as [a|T f k IH]; intros P [HP Hp].
  { apply safe_ret; [auto with client|]. intros s Is [HQ (q & Hq & Pq)]. split; [done|].
    exists q. split; [done|]. apply Hp; [|done]. by apply (Forall_lookup_1 _ _ _ _ (ci_slots _ Is) Hq). }
  apply safe_atom; [auto with client|]. intros s s' rf Is [HQ (q & Hq & Pq)] E.
  rewrite Hq in E. destruct (f (nm i t) (r_bridge q)) as [[b r]|] eqn:Ef; [|done].
  injection E as <- <-.
  destruct (Hp _ _ _ (Forall_lookup_1 _ _ _ _ (ci_slots _ Is) Hq) Pq Ef) as (Ib & Hg & P' & Pb & Hk).
  destruct (slot_step t i q b s Is Hq Ib Hg) as (Is' & Hg' & Hq').
  split_and!; [done|done|]. exists (λ s, Quiet t s ∧ On i P' s).
  assert (Quiet t (put_bridge i q b s)) as HQ'.
  { pose proof (put_bridge_core i q b s) as E. injection E as _ _ _ El. unfold Quiet. by rewrite El. }
  split; [split; [done|by exists (q <| r_bridge := b |>)]|].
  pose proof (IH r P' Hk) as IHr. cbn [fst snd]. destruct (finished _ && _); [|exact IHr].
  eapply safe_bind; [apply safe_cleanup; [done| |auto with client]|intros ?; exact IHr].
  apply On_stable. by eapply safe_stable.
Qed.

(** *** Threads *)

(** A routine any thread may run on a request; without the request it waits. *)
Lemma safe_on_slot_any {A} t i (p : prog bridge A) :
  (t < threads_max)%nat → bsafe (nm i t) p (λ _, True) (λ _ _, True) →
  safe t (on_slot task_of i p) (Quiet t) (λ _, Quiet t).
Proof.
  intros Ht Hp. pose proof (safe_on_slot t i p _ (λ _ _, True) Ht Hp) as Hs.
  assert (Hq : safe t (on_slot task_of i p) (λ s, Quiet t s ∧ On i (λ _, True) s) (λ _, Quiet t))
    by (eapply safe_post; [|exact Hs]; by intros ?? _ []).
  destruct p as [a|T f k]; [apply safe_ret; auto with client|].
  apply safe_atom; [auto with client|]. intros s s' rf Is HQ E.
  apply (proj2 Hq s s' rf Is); [|done]. split; [done|].
  destruct (c_slots s !! i) as [q|] eqn:Eq; [|done]. by exists q.
Qed.

Lemma safe_plain {A} t (p : prog client A) : keeps ccore p → safe t p (Quiet t) (λ _, Quiet t).
Proof.
  intros Hp. eapply safe_post; [|eapply safe_pre; [| |apply (safe_quiet t p (λ _, True)); [|done|done]]].
  - by intros ?? _ [].
  - auto with client.
  - done.
  - auto with client.
Qed.

Lemma keeps_on_pool {A} (p : prog pool A) : keeps ccore (on_pool p).
Proof.
  induction p as [|T f k IH]; simpl; [done|]. split; [|done].
  intros t s s' r E. destruct (f t (c_pool s)) as [[]|]; simplify_eq. done.
Qed.

Lemma keeps_on_tls_pool {A} (d : A) (p : prog pool A) : keeps ccore (on_tls_pool d p).
Proof.
  induction p as [|T f k IH]; simpl; [done|]. split; [|by intros [r|]].
  intros t s s' r E. repeat case_match; simplify_eq; done.
Qed.

Lemma keeps_shutdown_pools : keeps ccore shutdown_pools.
Proof. apply keeps_bind; [apply keeps_on_pool|]. intros _. apply keeps_on_tls_pool. Qed.

(** An API call on a request that is looked up by its id. *)
Lemma safe_lookup {A} t id (f : option nat → prog client A) :
  (∀ h, safe t (f h) (Quiet t) (λ _, Quiet t)) →
  safe t (h <- get_request id ;; f h) (Quiet t) (λ _, Quiet t).
Proof. intros Hf. eapply safe_bind; [apply safe_plain, keeps_load|exact Hf]. Qed.

Lemma safe_done {A} t (a : A) : safe t (Ret a) (Quiet t) (λ _, Quiet t).
Proof. apply safe_ret; auto with client. Qed.

(** *** Submitting *)

(** The bodies of a thread's requests are within the bound. *)
Definition small (a : SendArgs) : Prop :=
  ∀ r j, read_request a = inr r → prepare conf (a_mem a) r = Good _ j →
    reserve_bytes conf j ≤ request_max.

Lemma safe_enter t id a j :
  safe t (enter_and_spawn conf id a j) (Quiet t) (λ i s, Quiet t s ∧ HasId i id s).
Proof.
  apply safe_atomic; [auto with client..|]. intros s s' i Is HQ [= <- <-]. split_and!.
  - destruct Is as [Hs Hb Hr Hl]. split; simpl; [| | |done].
    + apply Forall_app; split; [done|]. rewrite Forall_singleton. apply inv_spawn.
    + unfold shares in *. rewrite map_app, zsum_app, Hb. simpl. lia.
    + intros id' k Hk. destruct (Hr id' k Hk) as (q & Hq & ?). exists q.
      split; [by apply lookup_app_l_Some|done].
  - intros t' _. split; [done| |]; simpl.
    + intros k q Hq. exists q. split_and!; [by apply lookup_app_l_Some|done|apply rely_refl].
    + intros k q Hn Hq. apply lookup_app_Some in Hq as [?|[_ Hq]]; [congruence|].
      destruct (k - length (c_slots s))%nat as [|[]]; simplify_eq/=. done.
  - done.
  - eexists. simpl. split; [by apply list_lookup_middle|done].
Qed.

Lemma safe_register t id i :
  safe t (modify (λ s, s <| c_requests ::= insert id i |>))
    (λ s, Quiet t s ∧ HasId i id s) (λ _ s, Quiet t s ∧ HasId i id s).
Proof.
  apply safe_atomic; [auto with client..|]. intros s s' [] Is [HQ Hid] [= <-].
  split_and!; [|by apply guar_same|done|done].
  destruct Is. split; [done|done| |done]. intros id' k Hk. simpl in Hk.
  apply lookup_insert_Some in Hk as [[<- <-]|[_ Hk]]; [done|by apply ci_registry0].
Qed.

Lemma shares_alter (f : request → request) i (l : list request) :
  (∀ q, r_bridge (f q) = r_bridge q) → shares (alter f i l) = shares l.
Proof.
  intros Hf. revert i. induction l as [|q l IH]; intros [|i]; simpl; [done..| |].
  - by rewrite Hf.
  - f_equal. apply IH.
Qed.

(** A change to a request that its slot does not see. *)
Lemma alter_step t i (f : request → request) s :
  (∀ q, r_id (f q) = r_id q ∧ r_bridge (f q) = r_bridge q) → client_inv s →
  let s' := s <| c_slots ::= alter f i |> in client_inv s' ∧ guar client_rely t s s'.
Proof.
  intros Hf Is s'.
  assert (Hlk : ∀ k x, c_slots s !! k = Some x → ∃ y, alter f i (c_slots s) !! k = Some y ∧
    r_id y = r_id x ∧ r_bridge y = r_bridge x).
  { intros k x Hx. destruct (decide (k = i)) as [->|Hne].
    - exists (f x). rewrite list_lookup_alter_eq, Hx. by destruct (Hf x).
    - exists x. by rewrite list_lookup_alter_ne. }
  split_and!.
  - destruct Is as [Hs Hb Hr Hl]. split; simpl; [| | |done].
    + apply Forall_alter; [done|]. intros x _ Hx. by rewrite (proj2 (Hf x)).
    + rewrite (shares_alter f); [done|]. intros q. apply Hf.
    + intros id' k Hk. destruct (Hr id' k Hk) as (x & Hx & <-).
      destruct (Hlk k x Hx) as (y & ? & ? & _). by exists y.
  - intros t' _. split; [done| |]; simpl.
    + intros k x Hx. destruct (Hlk k x Hx) as (y & ? & ? & E). exists y. split_and!; [done|done|].
      rewrite E. apply rely_refl.
    + intros k y Hn Hy. apply lookup_lt_Some in Hy. apply lookup_ge_None in Hn.
      rewrite length_alter in Hy. lia.
Qed.

Lemma safe_spawn_task t id i j :
  safe t (spawn_task i j) (λ s, Quiet t s ∧ HasId i id s) (λ _, Quiet t).
Proof.
  apply safe_atomic; [auto with client..|]. intros s s' [] Is [HQ _] [= <-].
  destruct (alter_step t i (λ q : request, q <| r_task := Some j |>) s) as [Hi Hg]; [done|done|]. split; [exact Hi|]. split; [exact Hg|exact HQ].
Qed.

Lemma safe_stop_task t i why : safe t (stop_task i why) (Quiet t) (λ _, Quiet t).
Proof.
  apply safe_atomic; [auto with client..|]. intros s s' [] Is HQ E.
  destruct (c_slots s !! i) as [q|] eqn:Eq; [|done].
  destruct (can_stop why q s && _); [|done]. injection E as <-.
  assert (<[i := q <| r_dropped := Some why |>]> (c_slots s) =
    alter (λ q : request, q <| r_dropped := Some why |>) i (c_slots s)) as Ea.
  { apply list_eq. intros k. destruct (decide (i = k)) as [<-|].
    - rewrite list_lookup_alter_eq, Eq. apply list_lookup_insert_eq. by eapply lookup_lt_Some.
    - by rewrite list_lookup_alter_ne, list_lookup_insert_ne. }
  destruct (alter_step t i (λ q : request, q <| r_dropped := Some why |>) s) as [Hi Hg]; [done|done|].
  simpl in Ea, Hi, Hg |- *. rewrite Ea. split; [exact Hi|]. split; [exact Hg|exact HQ].
Qed.

Lemma safe_client_send t a :
  (t < threads_max)%nat → small a →
  safe t (hyper4k_client_send task_of conf a) (Quiet t) (λ _, Quiet t).
Proof.
  intros Ht Ha. unfold hyper4k_client_send.
  destruct (read_request a) as [st|r] eqn:Er; [apply safe_done|].
  eapply safe_bind; [apply safe_plain, keeps_load|]. intros [|]; cbv beta; [apply safe_done|].
  destruct (prepare conf (a_mem a) r) as [st| |j] eqn:Ep;
    [apply safe_done|split; [auto with client|done]|].
  eapply safe_bind; [apply safe_plain, keeps_fetch; done|]. intros id; cbv beta.
  assert (0 ≤ reserve_bytes conf j ≤ request_max) as Hb
    by (split; [unfold reserve_bytes; lia|by eapply Ha]).
  eapply safe_bind.
  { eapply safe_post; [|eapply safe_pre; [auto with client| |apply (safe_on_limits t _ (at_stage t Limits.Idle)
      (λ _, at_stage t Limits.Idle) (λ _, True)); [by apply safe_try_reserve|auto with client|done]]].
    - intros ok s _ [HQ _]. exact HQ.
    - by split. }
  intros [|]; cbn [negb]; [|apply safe_done].
  eapply safe_bind; [apply safe_enter|]. intros i; cbv beta.
  eapply safe_bind; [apply safe_register|]. intros []; cbv beta.
  eapply safe_bind; [apply safe_spawn_task|]. intros []; cbv beta.
  eapply safe_bind; [apply safe_on_slot_any; [done|]|intros []; apply safe_done].
  apply safe_other. constructor.
Qed.

(** *** The programs of the client *)

(** What threads other than the network tasks do: any sequence of exported
    calls, worker turns and shutdowns; for the environment, futures being dropped
    and connections going away. *)
Inductive client_program : prog client unit → Prop :=
| cp_ret : client_program (Ret tt)
| cp_send a p : small a → client_program p →
    client_program (hyper4k_client_send task_of conf a ;; p)
| cp_cancel n id p : client_program p → client_program (hyper4k_client_cancel task_of n id ;; p)
| cp_resume n id p : client_program p → client_program (hyper4k_client_resume task_of n id ;; p)
| cp_close n p : client_program p → client_program (hyper4k_client_close task_of n ;; p)
| cp_free n p : client_program p → client_program (hyper4k_client_free task_of n ;; p)
| cp_inflight n p : client_program p → client_program (hyper4k_client_inflight_count n ;; p)
| cp_paused n p : client_program p → client_program (hyper4k_client_paused_stream_count n ;; p)
| cp_worker l p : client_program p → client_program (client_worker task_of l ;; p)
| cp_stop i why p : client_program p → client_program (stop_task i why ;; p)
| cp_peer id p : client_program p → client_program (on_pool (peer_closes id) ;; p)
| cp_tls_peer id p : client_program p → client_program (on_tls_pool tt (peer_closes id) ;; p)
| cp_shutdown p : client_program p → client_program (shutdown_task ;; p).

Lemma safe_close t n :
  (t < threads_max)%nat → safe t (hyper4k_client_close task_of n) (Quiet t) (λ _, Quiet t).
Proof.
  intros Ht. unfold hyper4k_client_close. destruct n; [apply safe_done|].
  eapply safe_bind; [by apply safe_plain, keeps_modify|]. intros []; cbv beta.
  eapply safe_bind; [apply safe_plain, keeps_load|]. intros ids; cbv beta.
  eapply safe_bind with (M := λ _, Quiet t); [|intros []; by apply safe_plain, keeps_modify].
  induction ids as [|id ids IH]; cbn [close_all]; [apply safe_done|].
  apply safe_lookup. intros h. eapply safe_bind with (M := λ _, Quiet t); [|intros []; exact IH].
  destruct h as [i|]; [|apply safe_done]. apply safe_on_slot_any; [done|].
  apply safe_other. constructor.
Qed.

Lemma keeps_wait (f : client → bool) :
  keeps ccore (atomic (λ _ s, if f s then Some (s, tt) else None)).
Proof. split; [|done]. intros t s s' r. destruct (f s); [|done]. by intros [= <- _]. Qed.

Lemma safe_free t n :
  (t < threads_max)%nat → safe t (hyper4k_client_free task_of n) (Quiet t) (λ _, Quiet t).
Proof.
  intros Ht. unfold hyper4k_client_free. destruct n; [apply safe_done|].
  eapply safe_bind; [by apply safe_close|]. intros []; cbv beta. apply safe_plain.
  apply keeps_bind; [apply keeps_wait|]. intros [].
  apply keeps_bind; [apply keeps_shutdown_pools|]. intros []. by apply keeps_modify.
Qed.

Lemma safe_worker_client t l :
  (t < threads_max)%nat → safe t (client_worker task_of l) (Quiet t) (λ _, Quiet t).
Proof.
  intros Ht. induction l as [|i l IH]; cbn [client_worker]; [apply safe_done|].
  eapply safe_bind with (M := λ _, Quiet t); [|intros []; exact IH]. apply safe_on_slot_any; [done|]. apply safe_worker_turn.
Qed.

Lemma keeps_wait_task i : keeps ccore (wait_task i).
Proof. split; [|done]. intros t s s' r E. repeat case_match; simplify_eq. done. Qed.

Lemma safe_client_program t p :
  (t < threads_max)%nat → client_program p → safe t p (Quiet t) (λ _, Quiet t).
Proof.
  intros Ht. induction 1 as [|a p Ha _ IH|n id p _ IH|n id p _ IH|n p _ IH|n p _ IH|n p _ IH|n p _ IH|l p _ IH|
    i why p _ IH|id p _ IH|id p _ IH|p _ IH];
    [apply safe_done|(eapply safe_bind with (M := λ _, Quiet t); [|intros ?; exact IH])..].
  - by apply safe_client_send.
  - destruct n; [apply safe_done|]. apply safe_lookup. intros [i|]; [|apply safe_done].
    apply safe_on_slot_any; [done|]. apply safe_cancel_request.
  - destruct n; [apply safe_done|]. apply safe_lookup. intros [i|]; [|apply safe_done]. apply safe_on_slot_any; [done|]. apply safe_resume.
  - by apply safe_close.
  - by apply safe_free.
  - destruct n; [apply safe_done|]. apply safe_plain, keeps_load.
  - destruct n; [apply safe_done|]. apply safe_plain. apply keeps_bind; [apply keeps_on_pool|]. intros k.
    apply keeps_bind; [apply keeps_on_tls_pool|]. by intros m.
  - by apply safe_worker_client.
  - apply safe_stop_task.
  - apply safe_plain, keeps_on_pool.
  - apply safe_plain, keeps_on_tls_pool.
  - apply safe_plain. apply keeps_bind; [|intros []; apply keeps_shutdown_pools].
    split; [|done]. intros t' s s' r E. destruct (c_shutdowns s); simplify_eq. done.
Qed.

(** *** The network task *)

Lemma keeps_until {A X} (obs : client → X) i (p : prog client A) : keeps obs p → keeps obs (until i p).
Proof.
  induction p as [a|T f k IH]; simpl; [done|]. intros [Hf Hk]. split; [|intros [r|]; [by apply IH|done]].
  intros t s s' r E. destruct (f t s) as [[s1 r1]|] eqn:Ef; [injection E as <- _; by eapply Hf|].
  destruct (is_dropped i s); by simplify_eq.
Qed.

Lemma keeps_on_job {A} j (d : A) (p : prog pool A) : keeps ccore (on_job j d p).
Proof. unfold on_job. destruct (j_https j); [apply keeps_on_tls_pool|apply keeps_on_pool]. Qed.

Lemma keeps_task_acquire i j a : keeps ccore (task_acquire conf i j a).
Proof.
  unfold task_acquire. apply keeps_bind; [apply keeps_until, keeps_on_job|]. intros [[r|]|]; [done| |done].
  destruct (connect conf j a) as [d|].
  - apply keeps_bind; [apply keeps_on_job|done].
  - apply keeps_bind; [apply keeps_wait|]. intros []. apply keeps_bind; [apply keeps_on_job|done].
Qed.

(** A part of the request that may be cut short. *)
Lemma safe_until_slot {A} t i (p : prog bridge A) P (Q : A → bridge → Prop) :
  (t < threads_max)%nat → keeps finished p → bsafe (nm i t) p P Q →
  safe t (until i (on_slot task_of i p)) (λ s, Quiet t s ∧ On i P s)
    (λ r s, Quiet t s ∧ match r with Some a => On i (Q a) s | None => True end).
Proof.
  intros Ht Hk Hp. revert P Hp. induction p as [a|T f k IH]; intros P [HP Hp].
  { apply safe_ret; [auto with client|]. intros s Is [HQ (q & Hq & Pq)]. split; [done|].
    exists q. split; [done|]. apply Hp; [|done]. by apply (Forall_lookup_1 _ _ _ _ (ci_slots _ Is) Hq). }
  destruct Hk as [Hfin Hk]. cbn [on_slot until]. apply safe_atom; [auto with client|].
  intros s s' rf Is [HQ (q & Hq & Pq)] E. rewrite Hq in E.
  destruct (f (nm i t) (r_bridge q)) as [[b r]|] eqn:Ef.
  - injection E as <- <-.
    destruct (Hp _ _ _ (Forall_lookup_1 _ _ _ _ (ci_slots _ Is) Hq) Pq Ef) as (Ib & Hg & P' & Pb & Hk').
    destruct (slot_step t i q b s Is Hq Ib Hg) as (Is' & Hg' & Hq').
    split_and!; [done|done|]. exists (λ s, Quiet t s ∧ On i P' s).
    assert (Quiet t (put_bridge i q b s)) as HQ'.
    { pose proof (put_bridge_core i q b s) as Ec. injection Ec as _ _ _ El. unfold Quiet. by rewrite El. }
    split; [split; [done|by exists (q <| r_bridge := b |>)]|].
    rewrite (Hfin _ _ _ _ Ef), andb_negb_r. cbn [fst snd]. by apply IH.
  - destruct (is_dropped i s); [|done]. injection E as <- <-.
    destruct (silent_step t s s eq_refl Is). split_and!; [done|done|].
    exists (Quiet t). split; [done|]. apply safe_ret; [auto with client|done].
Qed.

Lemma safe_pooled_loop t i j idem (env : list Round) budget :
  (t < threads_max)%nat → nm i t = 0%nat →
  safe t (attempt_loop (T := pooled task_of conf i j) idem (deliver_response (j_policy j)) env budget)
    (λ s, Quiet t s ∧ On i (Producer (nm i t) 0) s) (λ _, Quiet t).
Proof.
  intros Ht Hl. set (K := λ s, Quiet t s ∧ On i (Producer (nm i t) 0) s).
  assert (stable t K) as HK by (apply client_stable_and; [auto with client|];
    apply On_stable; apply Producer_stable).
  assert (HKQ : ∀ {A} (p : prog client A), safe t p K (λ _, K) → safe t p K (λ _, Quiet t))
    by (intros A p Hp; eapply safe_post; [|exact Hp]; by intros ?? _ []).
  assert (Hkeep : ∀ {A} (p : prog client A), keeps ccore p → safe t p K (λ _, K)).
  { intros A p Hp. apply safe_quiet; [|auto with client|done]. apply On_stable, Producer_stable. }
  assert (Hend : ∀ x, (kind x ≠ HYPER4K_ERR_NONE → True) →
    safe t (on_slot task_of i (settle x true) ;; Ret true) K (λ _, Quiet t)).
  { intros x _. eapply safe_bind; [apply safe_on_slot; [done|by apply safe_settle_producer]|].
    intros ?; cbv beta. apply safe_ret; [done|by intros s _ []]. }
  revert budget. induction env as [|a env IH]; intros budget; cbn [attempt_loop].
  { eapply safe_bind with (M := λ _, Quiet t); [|intros ?; apply safe_done].
    eapply safe_post; [|apply (safe_until_slot t i wait_forever (Producer (nm i t) 0) (λ _ _, True))];
      [by intros ?? _ []|done|by split|split; [apply Producer_stable|done]]. }
  eapply safe_bind; [apply Hkeep, keeps_task_acquire|]. intros [[k|c]|]; cbv beta;
    [by apply Hend| |apply safe_ret; [done|by intros s _ []]].
  eapply safe_bind; [apply Hkeep, keeps_on_job|]. intros [|]; cbv beta.
  { eapply safe_bind; [apply Hkeep, keeps_on_job|]. intros ?; cbv beta.
    destruct (0 <? budget); [apply IH|by apply Hend]. }
  eapply safe_bind; [apply safe_until_slot; [done|apply attempt_keeps_finished|apply safe_attempt]|].
  intros [again|]; cbv beta.
  - eapply safe_bind; [apply Hkeep, keeps_on_job|]. intros ?; cbv beta.
    destruct again; [apply IH|]. apply safe_ret; [done|by intros s _ []].
  - eapply safe_pre with (P := Quiet t); [auto with client|by intros s _ []|].
    eapply safe_bind; [apply safe_plain, keeps_on_job|]. intros ?; apply safe_done.
Qed.

Lemma safe_network_task i env :
  (task_of i < threads_max)%nat →
  safe (task_of i) (network_task task_of conf i env) (λ s, Quiet (task_of i) s ∧ Unproduced i s)
    (λ _ _, True).
Proof.
  intros Ht. set (t := task_of i).
  assert (Hl : nm i t = 0%nat) by (unfold local; by rewrite decide_True).
  assert (stable t (λ s, Quiet t s ∧ Unproduced i s)) as Hst
    by (apply client_stable_and; [auto with client|by apply Unproduced_stable]).
  unfold network_task.
  eapply safe_bind with (M := λ _ s, Quiet t s ∧ On i (Producer (nm i t) 0) s).
  - apply safe_atomic; [done|intros; rewrite Hl; apply client_stable_and; [auto with client|];
      apply On_stable; rewrite Hl; apply Producer_stable|].
    intros s s' j Is [HQ HU] E. destruct (c_slots s !! i) as [q|] eqn:Eq; [|done].
    destruct (r_task q); simplify_eq. destruct (silent_step t s' s' eq_refl Is).
    split_and!; [done|done|done|]. exists q. split; [done|]. rewrite Hl. split; [done|]. by apply HU.
  - intros j. eapply safe_bind; [by apply safe_pooled_loop|].
    assert (Hq : ∀ p : prog client unit, safe t p (Quiet t) (λ _, Quiet t) → safe t p (Quiet t) (λ _ _, True))
      by (intros p Hp; by eapply safe_post; [|exact Hp]).
    intros [|]; cbv beta; [apply Hq, safe_done|].
    eapply safe_bind; [apply safe_plain, keeps_load|]. intros [[]|]; apply Hq; [apply safe_done| |apply safe_done].
    apply safe_on_slot_any; [done|]. apply safe_other. constructor.
Qed.

(** ** Every reachable state of a client *)

(** The threads of a client: network tasks, each at its own number, and others. *)
Definition client_threads (ts : list (prog client unit)) : Prop :=
  (length ts ≤ threads_max)%nat ∧
  ∀ t p, ts !! t = Some p →
    client_program p ∨ ∃ i env, t = task_of i ∧ p = network_task task_of conf i env.

Lemma reachable_client_inv ts c :
  client_threads ts → reachable (Config (new_client conf) ts) c → client_inv (shared c).
Proof.
  intros [Hlen Hts] Hr. refine (proj1 (safe_sound client_inv client_rely _ _ Hr _)). split.
  - split; [constructor|done|intros id i Hi; simpl in Hi; by rewrite lookup_empty in Hi|].
    by apply limits_inv_new.
  - intros t p Hp. simpl in Hp.
    assert (t < threads_max)%nat as Ht by (apply lookup_lt_Some in Hp; lia).
    destruct (Hts t p Hp) as [Hc|(i & env & -> & ->)].
    + exists (Quiet t). split; [done|].
      eapply safe_post; [|by apply safe_client_program]. done.
    + eexists. split; [|by apply safe_network_task]. split; [done|]. by intros q Hq.
Qed.

(** C16: the client object stays well-formed under every interleaving of
    submissions, cancels, resumes, closes, frees, workers, timeouts and network
    tasks: an id in the registry names the request that was given that id, the
    counter that [free] waits for is the number of requests whose bridge has not
    left, and the reservations that exist respect both ceilings. *)
Theorem client_is_well_formed ts c :
  client_threads ts → reachable (Config (new_client conf) ts) c →
  (∀ id i, c_requests (shared c) !! id = Some i →
     ∃ q, c_slots (shared c) !! i = Some q ∧ r_id q = id) ∧
  c_bridges (shared c) = zsum (map (λ q, counter (r_bridge q)) (c_slots (shared c))) ∧
  Forall (λ q, 0 ≤ counter (r_bridge q) ≤ 1) (c_slots (shared c)) ∧
  Z.of_nat (length (held (c_limits (shared c)))) ≤ max_inflight (cf_limits conf) ∧
  zsum (held (c_limits (shared c))) ≤ max_bytes (cf_limits conf).
Proof.
  intros Hts Hr. pose proof (reachable_client_inv ts c Hts Hr) as Hi. split_and!; [apply Hi|apply Hi| | |].
  - eapply Forall_impl; [apply (ci_slots _ Hi)|]. intros q Hq. apply (inv_counter _ _ Hq).
  - by apply (limits_inv_bounds _ _ _ limits_wide _ (ci_limits _ Hi)).
  - by apply (limits_inv_bounds _ _ _ limits_wide _ (ci_limits _ Hi)).
Qed.

(** C14: what one request promises, every request of a client keeps, however
    many run at once: its OnDone is invoked at most once, an OnDone with an error
    is the last callback, the delivered events are a gap-free prefix of those its
    own task queued, and its queue is bounded. *)
Theorem every_request_is_delivered ts c i q :
  client_threads ts → reachable (Config (new_client conf) ts) c →
  c_slots (shared c) !! i = Some q →
  (dones (calls (r_bridge q)) ≤ 1)%nat ∧ error_last (calls (r_bridge q)) ∧
  events (calls (r_bridge q)) `prefix_of` visible (has_on_chunk (r_bridge q)) (sent (r_bridge q)) ∧
  (length (queue (r_bridge q)) ≤ S (cf_queue_capacity conf))%nat ∧
  (sent (r_bridge q) ≠ [] → committed (r_bridge q) = true).
Proof.
  intros Hts Hr Hq. pose proof (reachable_client_inv ts c Hts Hr) as Hi.
  pose proof (Forall_lookup_1 _ _ _ _ (ci_slots _ Hi) Hq) as Hb. split_and!.
  - apply (inv_dones _ _ Hb).
  - apply (inv_error_last _ _ Hb).
  - rewrite (inv_sent _ _ Hb), visible_app. apply prefix_app_r, (inv_prefix _ _ Hb).
  - pose proof (inv_space _ _ Hb). destruct (inv_bumped _ _ Hb) as [|[? _]]; lia.
  - apply (inv_committed _ _ Hb).
Qed.

(** The wait of [free] is over when the counter is zero. *)
Lemma zero_bridges l :
  Forall (λ q, 0 ≤ counter (r_bridge q) ≤ 1) l → zsum (shares l) = 0 →
  Forall (λ q, counter (r_bridge q) = 0) l.
Proof.
  intros Hl. induction Hl as [|q l Hq Hl IH]; intros Hz; [constructor|].
  change (zsum (shares (q :: l))) with (counter (r_bridge q) + zsum (shares l)) in Hz.
  assert (0 ≤ zsum (shares l)) as Hn.
  { apply zsum_nonneg. unfold shares. apply Forall_map. eapply Forall_impl; [exact Hl|].
    intros x Hx. cbv beta in Hx. simpl. lia. }
  constructor; [lia|]. apply IH. lia.
Qed.

(** C15: [free] does not pass its wait before every accepted request has had
    its OnDone: whenever the step can be taken, every request that was ever
    accepted, by whatever thread, has had exactly one. *)
Theorem free_waits_for_every_on_done ts c t :
  client_threads ts → reachable (Config (new_client conf) ts) c →
  is_Some (run t wait_bridges (shared c)) →
  Forall (λ q, dones (calls (r_bridge q)) = 1%nat) (c_slots (shared c)).
Proof.
  intros Hts Hr [[s u] Hw]. pose proof (reachable_client_inv ts c Hts Hr) as Hi.
  simpl in Hw. destruct (Z.eqb_spec (c_bridges (shared c)) 0) as [Hz|]; [|done].
  rewrite (ci_bridges _ Hi) in Hz.
  assert (Forall (λ q, 0 ≤ counter (r_bridge q) ≤ 1) (c_slots (shared c))) as Hc.
  { eapply Forall_impl; [apply (ci_slots _ Hi)|]. intros q Hq. apply (inv_counter _ _ Hq). }
  pose proof (zero_bridges _ Hc Hz) as H0. apply Forall_forall. intros q Hq.
  rewrite Forall_forall in H0. specialize (H0 q Hq). simpl in H0.
  pose proof (proj1 (Forall_forall _ _) (ci_slots _ Hi) q Hq) as Hb. simpl in Hb.
  pose proof (inv_dones _ _ Hb). pose proof (inv_counter_1 _ _ Hb) as Hc1.
  destruct (dones (calls (r_bridge q))) as [|[|n]]; [specialize (Hc1 eq_refl)| |]; lia.
Qed.
End safety.

(** ** Witnesses: one request, from [send] to its cleanup *)

Module Example3.
Import Client.Caller.

(** Thread 0 submits, thread 1 is a worker, thread 2 the network task. *)
Definition task_of (i : nat) : nat := (2 + i)%nat.
Definition resp : Response :=
  {| resp_http2 := false; resp_status := 200; resp_headers := []; resp_body := [Data [1]; Data [2]] |}.

(** Every address accepts connections and every handshake succeeds. *)
Definition net : Net := λ _, {| accepts := Some true; takes := Some true; reads := [] |}.
Definition handshakes : Handshakes :=
  {| tls_handshake _ _ _ := None; http1_handshake _ := Some true; http2_handshake _ := None |}.
Definition env : list Round :=
  [{| rd_net := net; rd_handshakes := handshakes; rd_sent := Some (inr resp) |}].
Definition ts : list (prog client unit) :=
  [hyper4k_client_send task_of conf args ;; Ret tt; client_worker task_of [0%nat] ;; Ret tt;
   network_task task_of conf 0 env].
Definition sched : list nat := replicate 8 0%nat ++ replicate 47 2%nat ++ replicate 44 1%nat.
Definition start : config client := Config (new_client conf) ts.
Definition final : config client := default start (exec sched start).

Lemma client_final_reachable : reachable start final.
Proof.
  unfold final. destruct (exec sched start) eqn:E; [by eapply exec_reachable|apply rtc_refl].
Qed.

Definition bound : Z := 1000000.

Lemma args_small : small conf bound args.
Proof.
  intros r j Er Ep.
  assert (match read_request args with
          | inr r => match prepare conf (a_mem args) r with
                     | Good _ j => reserve_bytes conf j <=? bound
                     | _ => true
                     end
          | inl _ => true
          end = true) as E by (vm_compute; reflexivity).
  rewrite Er, Ep in E. by apply Z.leb_le.
Qed.

Lemma wide :
  0 ≤ bound ∧ 0 ≤ max_inflight (cf_limits conf) ∧ 0 ≤ max_bytes (cf_limits conf) ∧
  max_inflight (cf_limits conf) + Z.of_nat (S 3) < 2 ^ 32 ∧
  max_bytes (cf_limits conf) + Z.of_nat (S 3) * bound < 2 ^ 64.
Proof. vm_compute. repeat split; discriminate. Qed.

Lemma threads_ok : client_threads task_of conf 3 bound ts.
Proof.
  split; [unfold ts; cbn [length]; lia|].
  intros t p Hp. destruct (lookup_three _ _ _ _ _ Hp) as [[-> ->]|[[-> ->]|[-> ->]]].
  - left. constructor; [apply args_small|constructor].
  - left. apply (cp_worker task_of conf bound [0%nat]). constructor.
  - right. by exists 0%nat, env.
Qed.
End Example3.
Import Client.Caller Example3.

Lemma client_is_well_formed_witness :
  c_bridges (shared final) = 0 ∧ length (c_slots (shared final)) = 1%nat ∧
  c_bridges (shared final) = zsum (map (λ q, counter (r_bridge q)) (c_slots (shared final))).
Proof.
  split; [vm_compute; reflexivity|]. split; [vm_compute; reflexivity|].
  exact (proj1 (proj2 (client_is_well_formed task_of conf 3 bound wide ts final threads_ok
    client_final_reachable))).
Defined.

Lemma every_request_is_delivered_witness :
  ∃ q, c_slots (shared final) !! 0%nat = Some q ∧ length (calls (r_bridge q)) = 4%nat ∧
    (dones (calls (r_bridge q)) ≤ 1)%nat.
Proof.
  assert (match c_slots (shared final) !! 0%nat with
          | Some q => length (calls (r_bridge q)) | None => 0%nat end = 4%nat) as F
    by (vm_compute; reflexivity).
  destruct (c_slots (shared final) !! 0%nat) as [q|] eqn:E; [|discriminate F].
  exists q. split; [reflexivity|]. split; [exact F|].
  exact (proj1 (every_request_is_delivered task_of conf 3 bound wide ts final 0 q threads_ok
    client_final_reachable E)).
Defined.

Lemma free_waits_for_every_on_done_witness :
  Forall (λ q, dones (calls (r_bridge q)) = 1%nat) (c_slots (shared final)) ∧
  length (c_slots (shared final)) = 1%nat.
Proof.
  split; [|vm_compute; reflexivity].
  apply (free_waits_for_every_on_done task_of conf 3 bound wide ts final 0 threads_ok client_final_reachable).
  unfold run, wait_bridges, atomic.
  assert ((c_bridges (shared final) =? 0) = true) as E by (vm_compute; reflexivity).
  rewrite E. eexists. reflexivity.
Defined.
