(* ===== verification/ClientRun.v ===== *)
(** * The exported client functions, one at a time

    What [hyper4k_client_new], [_send] and [_close] do when nothing interferes,
    on every branch; and two schedules and one input on which they do not do what
    their comments say. *)

From S2P Require Import Prelude Conc Abi Headers Text Uri Proxy Pool Tls Template Limits.
From S2P Require Import Retry Bridge Request BridgeSafety BridgeRun Client.

Open Scope prog_scope.

#[local] Arguments Refuse {A} st.
#[local] Arguments Panic {A}.
#[local] Arguments Good {A} a.
#[local] Arguments lit : simpl never.

Section run.
Context {H : HttpHeaders} {U : HttpUri} {M : HttpMethod} {R : Rustls}.

(** ** Running a part of the state *)

Lemma run_on_limits {A} t (p : prog counters A) s :
  run t (on_limits p) s =
  match run t p (c_limits s) with Some (l, a) => Some (s <| c_limits := l |>, a) | None => None end.
Proof.
  revert s. induction p as [a|T f k IH]; intros s; simpl; [by destruct s|].
  destruct (f t (c_limits s)) as [[l r]|]; [|done]. rewrite IH. simpl.
  by destruct (run t (k r) l) as [[]|].
Qed.

Section slots.
Variable task_of : nat → nat.

(** The paused counts of the connections are [u32]. *)
Definition pool_counts (p : pool) : Prop :=
  ∀ id e, entries p !! id = Some e → in_width 32 (Pool.paused e).

Definition counts_ok (s : client) : Prop :=
  pool_counts (c_pool s) ∧ ∀ p, c_tls_pool s = Some p → pool_counts p.

Lemma shift_paused_same m p : shift_paused m m p = p.
Proof. unfold shift_paused. by rewrite decide_True. Qed.

Lemma pool_counts_shift m m' p : pool_counts p → pool_counts (shift_paused m m' p).
Proof.
  intros Hp. unfold shift_paused. case_decide; [done|]. intros id e. simpl.
  rewrite map_lookup_imap. destruct (entries p !! id) as [e0|]; [|done]. simpl. intros [= <-].
  by apply Z.mod_pos_bound.
Qed.

Lemma shift_paused_twice m1 m2 m3 p :
  pool_counts p → shift_paused m2 m3 (shift_paused m1 m2 p) = shift_paused m1 m3 p.
Proof.
  intros Hp. unfold shift_paused. destruct (decide (m1 = m2)) as [->|H12]; [done|].
  destruct (decide (m2 = m3)) as [->|H23]; [by rewrite decide_False|].
  destruct p as [cs es dl ne cl sd sc ab]; simpl.
  assert (Hw : ∀ x d d', wrap 32 (wrap 32 (x + d) + d') = wrap 32 (x + (d + d'))).
  { intros x d d'. unfold wrap. rewrite Z.add_mod_idemp_l by done. f_equal. lia. }
  destruct (decide (m1 = m3)) as [->|H13]; unfold upd; simpl; f_equal; apply map_eq; intros id;
    rewrite !map_lookup_imap; destruct (es !! id) as [[]|] eqn:E; simpl; try done;
    do 2 f_equal; rewrite Hw; [|f_equal; lia].
  rewrite wrap_id; [lia|]. replace (_ + _) with paused by lia. by apply (Hp id _ E).
Qed.

Lemma in_pool_same h f s : (∀ p, f p = p) → in_pool h f s = s.
Proof.
  intros Hf. unfold in_pool. destruct s as [p tp rq ni cl br li sl sh st]; unfold upd; simpl.
  destruct h; f_equal; [|apply Hf]. destruct tp; simpl; [by rewrite Hf|done].
Qed.

(** Storing a slot whose share of the paused counts is as it was. *)
Lemma put_bridge_same i q b s :
  conn_paused b = conn_paused (r_bridge q) →
  put_bridge i q b s = s <| c_slots ::= insert i (q <| r_bridge := b |>) |>
                         <| c_bridges ::= λ n, n + (counter b - counter (r_bridge q)) |>.
Proof. intros E. unfold put_bridge. rewrite E. apply in_pool_same, shift_paused_same. Qed.

Lemma put_bridge_id i q s : c_slots s !! i = Some q → put_bridge i q (r_bridge q) s = s.
Proof.
  intros Hq. rewrite put_bridge_same by done. destruct s; simpl in *. f_equal; [lia|].
  apply list_insert_id. by destruct q.
Qed.

Lemma put_bridge_twice i q b b' s :
  counts_ok s →
  put_bridge i (q <| r_bridge := b |>) b' (put_bridge i q b s) = put_bridge i q b' s.
Proof.
  intros [Hp Ht]. unfold put_bridge, in_pool, is_https. simpl.
  destruct s as [p tp rq ni cl br li sl sh st]; unfold upd; simpl in *.
  destruct (match r_task q with Some j => j_https j | None => false end); simpl; f_equal;
    try lia; try apply list_insert_insert_eq.
  - destruct tp as [p'|]; simpl; [|done]. f_equal. by apply shift_paused_twice, Ht.
  - by apply shift_paused_twice.
Qed.

Lemma put_bridge_counts i q b s : counts_ok s → counts_ok (put_bridge i q b s).
Proof.
  intros [Hp Ht]. unfold put_bridge, in_pool. destruct (is_https q); split; simpl; auto.
  - intros p. destruct (c_tls_pool s) as [p'|]; simpl; [|done]. intros [= <-].
    by apply pool_counts_shift, Ht.
  - by apply pool_counts_shift.
Qed.

(** The fields of a client besides its requests, its bridge counter and its
    pools. *)
Lemma put_bridge_fields i q b s :
  c_slots (put_bridge i q b s) = <[i := q <| r_bridge := b |>]> (c_slots s) ∧
  c_requests (put_bridge i q b s) = c_requests s ∧ c_limits (put_bridge i q b s) = c_limits s ∧
  c_closed (put_bridge i q b s) = c_closed s ∧ c_shutdowns (put_bridge i q b s) = c_shutdowns s ∧
  c_stopped (put_bridge i q b s) = c_stopped s ∧ next_id (put_bridge i q b s) = next_id s.
Proof. unfold put_bridge, in_pool. by destruct (is_https q). Qed.

(** What the cleanup leaves. *)
Definition cleaned (q : request) (l : counters) (s : client) : client :=
  s <| c_limits := l |> <| c_requests ::= delete (r_id q) |>.

Lemma put_bridge_cleaned i q q' b l s :
  put_bridge i q' b (cleaned q l s) = cleaned q l (put_bridge i q' b s).
Proof. unfold put_bridge, in_pool, cleaned. by destruct (is_https q'). Qed.

Lemma run_cleanup t q s :
  run t (cleanup q) s =
  match run t (reservation_drop (r_reserved q)) (c_limits s) with
  | Some (l, _) => Some (cleaned q l s, tt)
  | None => None
  end.
Proof.
  unfold cleanup. rewrite run_bind, run_on_limits. destruct (run t _ (c_limits s)) as [[l []]|]; done.
Qed.

Lemma run_finished t {A} (p : prog bridge A) b b' a :
  steps_in finished_step p → run t p b = Some (b', a) → finished_step b b'.
Proof.
  revert b. induction p as [x|T f k IH]; intros b Hp E; simpl in E; [injection E as <- _; by intros ?|].
  destruct Hp as [Hf Hk]. destruct (f t b) as [[b1 r]|] eqn:Ef; [|done].
  intros Hb'. eapply Hf; [exact Ef|]. by apply (IH r b1).
Qed.

(** Running a routine of a request: it runs on the slot, and the cleanup of the
    request has been run when it took [finished]. *)
Lemma run_on_slot {A} t i (p : prog bridge A) s q :
  steps_in finished_step p → counts_ok s → c_slots s !! i = Some q →
  run t (on_slot task_of i p) s =
  match run (local task_of i t) p (r_bridge q) with
  | Some (b, a) =>
      if finished (r_bridge q) && negb (finished b) then
        match run t (reservation_drop (r_reserved q)) (c_limits s) with
        | Some (l, _) => Some (cleaned q l (put_bridge i q b s), a)
        | None => None
        end
      else Some (put_bridge i q b s, a)
  | None => None
  end.
Proof.
  revert s q. induction p as [a|T f k IH]; intros s q Hp Hc Hq; cbn [on_slot run].
  { rewrite put_bridge_id by done. by rewrite andb_negb_r. }
  rewrite Hq. destruct Hp as [Hf Hk].
  destruct (f (local task_of i t) (r_bridge q)) as [[b r]|] eqn:E; [|done].
  specialize (Hf _ _ _ _ E). cbn [fst snd].
  destruct (put_bridge_fields i q b s) as (Es & Er & El & _).
  set (q1 := q <| r_bridge := b |>) in *.
  assert (E1 : r_bridge q1 = b ∧ r_reserved q1 = r_reserved q) by done. destruct E1 as [E1 E2].
  assert (Hq' : c_slots (put_bridge i q b s) !! i = Some q1).
  { rewrite Es, list_lookup_insert_eq; [done|]. by eapply lookup_lt_Some. }
  destruct (finished (r_bridge q)) eqn:Fq; destruct (finished b) eqn:Fb; cbn [andb negb].
  - rewrite (IH r _ q1); [|done|by apply put_bridge_counts|done].
    rewrite E1, E2, Fb, El. destruct (run _ (k r) b) as [[b' a]|]; [|done].
    unfold q1. rewrite put_bridge_twice by done. reflexivity.
  - rewrite run_bind, run_cleanup, El.
    assert (Hm : ∀ b' a, run (local task_of i t) (k r) b = Some (b', a) → finished b' = false).
    { intros b' a Ek. pose proof (run_finished _ _ _ _ _ (Hk r) Ek) as Hm. unfold finished_step in Hm.
      destruct (finished b'); [specialize (Hm eq_refl); congruence|done]. }
    destruct (run t (reservation_drop _) _) as [[l []]|].
    2: { destruct (run _ (k r) b) as [[b' a]|] eqn:Ek; [|done]. by rewrite (Hm b' a). }
    rewrite (IH r _ q1); [|done| |done].
    2: { destruct (put_bridge_counts i q b s Hc). by split. }
    rewrite E1, Fb. cbn [andb]. destruct (run _ (k r) b) as [[b' a]|] eqn:Ek; [|done].
    rewrite (Hm b' a) by done. cbn [negb].
    f_equal. f_equal. rewrite put_bridge_cleaned. unfold q1. by rewrite put_bridge_twice.
  - unfold finished_step in Hf. rewrite Fq in Hf. specialize (Hf Fb). done.
  - rewrite (IH r _ q1); [|done|by apply put_bridge_counts|done].
    rewrite E1, Fb. cbn [andb]. destruct (run _ (k r) b) as [[b' a]|]; [|done].
    unfold q1. by rewrite put_bridge_twice.
Qed.

(** A routine that leaves [finished] alone does not run the cleanup. *)
Lemma run_on_slot_keeps {A} t i (p : prog bridge A) s q :
  keeps finished p → counts_ok s → c_slots s !! i = Some q →
  run t (on_slot task_of i p) s =
  match run (local task_of i t) p (r_bridge q) with
  | Some (b, a) => Some (put_bridge i q b s, a)
  | None => None
  end.
Proof.
  intros Hp Hc Hq. pose proof (keeps_finished_step p Hp).
  rewrite (run_on_slot t i p s q) by done.
  destruct (run _ p (r_bridge q)) as [[b a]|] eqn:E; [|done].
  by rewrite (run_keeps finished _ _ _ _ _ Hp E), andb_negb_r.
Qed.
End slots.

(** ** What [send] accepts *)

Section send.
Variables (task_of : nat → nat) (conf : ClientConf).

Ltac peel E :=
  match type of E with
  | cbind ?x _ = _ =>
      let Ex := fresh "E" in
      destruct x as [?st| |?v] eqn:Ex; cbn [cbind] in E; [..|peel E]
  | _ => idtac
  end.

Lemma or_refuse_inv {A} st (x : option A) a : or_refuse st x = Good a → x = Some a.
Proof. destruct x; simpl; by intros [= ->]. Qed.

Lemma read_headers_length mem p i n hs : read_headers mem p i n = Some hs → length hs = n.
Proof.
  revert i hs. induction n as [|n IH]; intros i hs E; cbn [read_headers] in E; [by simplify_eq|].
  destruct (header_at mem p i) as [x y]. destruct (slice_bytes mem x); [|done]. simpl in E.
  destruct (slice_bytes mem y); [|done]. simpl in E.
  destruct (read_headers mem p (S i) n) eqn:Er; simplify_eq/=. f_equal. by eapply IH.
Qed.

Lemma request_headers_length mem r hs :
  request_headers mem r = Good hs → 0 ≤ header_count r → Z.of_nat (length hs) = header_count r.
Proof.
  unfold request_headers. intros E Hn. peel E; [done..|].
  destruct (Z.ltb_spec 0 (header_count r)); [|simplify_eq; simpl; lia].
  destruct (headers r =? 0); [done|]. apply or_refuse_inv, read_headers_length in E. lia.
Qed.

(** A refusal is one of two statuses. *)
Definition refuses {A} (x : Checked A) : Prop :=
  ∀ st, x = Refuse st → st = HYPER4K_STATUS_INVALID_ARG ∨ st = HYPER4K_STATUS_UNSUPPORTED.

Lemma refuses_bind {A B} (x : Checked A) (f : A → Checked B) :
  refuses x → (∀ a, refuses (f a)) → refuses (cbind x f).
Proof. intros Hx Hf st. destruct x; simpl; [intros [= <-]; by apply Hx|done|by apply Hf]. Qed.

Lemma refuses_or_refuse {A} (x : option A) : refuses (or_refuse HYPER4K_STATUS_INVALID_ARG x).
Proof. intros st. destruct x; simpl; [done|]. intros [= <-]. by left. Qed.

Lemma refuses_test (b : bool) st :
  st = HYPER4K_STATUS_INVALID_ARG ∨ st = HYPER4K_STATUS_UNSUPPORTED →
  refuses (if b then Refuse st else Good tt) ∧ refuses (if b then Good tt else Refuse st).
Proof. intros Hs. split; intros st'; destruct b; by intros [= <-]. Qed.

Lemma refuses_url_port scheme uri : refuses (url_port scheme uri).
Proof. intros st. unfold url_port. repeat case_bool_decide; intros [= <-]. by left. Qed.

Lemma refuses_headers mem r : refuses (request_headers mem r).
Proof.
  unfold request_headers. apply refuses_bind.
  - intros st. unfold with_capacity. by destruct (_ <? _).
  - intros _. destruct (0 <? header_count r); [|done].
    destruct (headers r =? 0); [intros st [= <-]; by left|apply refuses_or_refuse].
Qed.

Lemma refuses_body mem r : refuses (request_body mem r).
Proof.
  intros st. unfold request_body. destruct (body_len r =? 0); [done|].
  destruct (body_ptr r =? 0); [intros [= <-]; by left|done].
Qed.

Lemma prepare_refuse mem r : refuses (prepare conf mem r).
Proof.
  unfold prepare.
  repeat (apply refuses_bind; [first [apply refuses_or_refuse | apply refuses_url_port |
    apply refuses_headers | apply refuses_body | apply refuses_test; auto]|intros ?]). done.
Qed.

(** What is known of an accepted request. *)
Lemma prepare_good mem r j :
  prepare conf mem r = Good j →
  ∃ m_b url_b scheme host port,
    slice_bytes mem (method r) = Some m_b ∧ slice_bytes mem (url r) = Some url_b ∧
    method_from_bytes m_b = Some (t_method (j_template j)) ∧
    uri_parse url_b = Some (t_uri (j_template j)) ∧
    uri_host (t_uri (j_template j)) = Some host ∧
    scheme = default [] (scheme_str (t_uri (j_template j))) ∧
    (scheme = lit "https" ∧ j_https j = true ∧ port = default 443 (port_u16 (t_uri (j_template j))) ∧
       cf_tls conf ≠ None ∨
     scheme = lit "http" ∧ j_https j = false ∧ port = default 80 (port_u16 (t_uri (j_template j))) ∧
       cf_h2_required conf = false) ∧
    j_key j = pool_key scheme host port ∧
    t_authority (j_template j) = host_port host port ∧
    absolute_form (j_template j) = cf_via_proxy conf && negb (j_https j) ∧
    request_headers mem r = Good (t_headers (j_template j)) ∧
    request_body mem r = Good (t_body (j_template j)) ∧
    validate (j_template j) = true.
Proof.
  unfold prepare. intros E. peel E; simplify_eq.
  repeat match goal with E : or_refuse _ _ = Good _ |- _ => apply or_refuse_inv in E end.
  simpl. do 5 eexists. split_and!; try done; try (repeat case_match; simplify_eq; done).
  unfold url_port in *. repeat case_bool_decide; simplify_eq/=.
  - left. by split_and!.
  - right. by destruct (cf_h2_required conf).
  - right. by destruct (cf_h2_required conf).
Qed.

(** ** [send] *)

(** The fields no submission touches. *)
Definition rest (s : client) : pool * option pool * bool * nat * bool :=
  (c_pool s, c_tls_pool s, c_closed s, c_shutdowns s, c_stopped s).

(** The effect of an accepted submission: one more request, registered under the
    id, with its task and its abort handle. *)
Definition accepted (a : SendArgs) (j : Job) (s s' : client) : Prop :=
  c_slots s' = c_slots s ++
    [Req (next_id s) ((spawn (cf_queue_capacity conf) (a_on_chunk a) (a_script a)) <| abort := true |>)
       (reserve_bytes conf j) (Some j) None] ∧
  c_requests s' = <[next_id s := length (c_slots s)]> (c_requests s) ∧
  next_id s' = fetch_add 64 (next_id s) 1 ∧ c_bridges s' = c_bridges s + 1 ∧
  inflight (c_limits s') = inflight (c_limits s) + 1 ∧
  bytes_reserved (c_limits s') = bytes_reserved (c_limits s) + reserve_bytes conf j ∧
  held (c_limits s') = reserve_bytes conf j :: held (c_limits s) ∧ rest s' = rest s.

(** A refused one leaves everything as it was; only an id may be used up. *)
Definition refused (st : Hyper4kStatus) (s s' : client) : Prop :=
  c_slots s' = c_slots s ∧ c_requests s' = c_requests s ∧ c_bridges s' = c_bridges s ∧
  inflight (c_limits s') = inflight (c_limits s) ∧
  bytes_reserved (c_limits s') = bytes_reserved (c_limits s) ∧
  held (c_limits s') = held (c_limits s) ∧ rest s' = rest s ∧
  next_id s' = (if st =? HYPER4K_STATUS_RESOURCE_EXHAUSTED then fetch_add 64 (next_id s) 1
                else next_id s).

Lemma alter_last {A} (f : A → A) l x : alter f (length l) (l ++ [x]) = l ++ [f x].
Proof. induction l as [|y l IH]; simpl; [done|]. f_equal. apply IH. Qed.

Lemma insert_last {A} l (x y : A) : <[length l := y]> (l ++ [x]) = l ++ [y].
Proof. induction l as [|z l IH]; simpl; [done|]. f_equal. apply IH. Qed.

(** The part of [send] after the reservation. *)
Lemma run_register t a j id s :
  ∃ s', run t (i <- enter_and_spawn conf id a j ;;
               modify (λ s, s <| c_requests ::= insert id i |>) ;;
               spawn_task i j ;; on_slot task_of i set_abort ;;
               Ret (HYPER4K_STATUS_OK, Some id)) s = Some (s', (HYPER4K_STATUS_OK, Some id)) ∧
    c_slots s' = c_slots s ++
      [Req id ((spawn (cf_queue_capacity conf) (a_on_chunk a) (a_script a)) <| abort := true |>)
         (reserve_bytes conf j) (Some j) None] ∧
    c_requests s' = <[id := length (c_slots s)]> (c_requests s) ∧ next_id s' = next_id s ∧
    c_bridges s' = c_bridges s + 1 ∧ c_limits s' = c_limits s ∧ rest s' = rest s.
Proof.
  set (q := Req id (spawn (cf_queue_capacity conf) (a_on_chunk a) (a_script a))
              (reserve_bytes conf j) (Some j) None).
  set (s1 := s <| c_bridges ::= Z.succ |> <| c_slots := c_slots s ++ [q] |>
               <| c_requests ::= insert id (length (c_slots s)) |>).
  assert (E : run t (on_slot task_of (length (c_slots s)) set_abort ;;
      Ret (HYPER4K_STATUS_OK, Some id)) s1 =
      Some (put_bridge (length (c_slots s)) q ((r_bridge q) <| abort := true |>) s1,
            (HYPER4K_STATUS_OK, Some id))).
  { simpl. by rewrite list_lookup_middle. }
  eexists. split.
  - rewrite run_bind. simpl. rewrite alter_last. exact E.
  - rewrite put_bridge_same by done. simpl. rewrite insert_last. split_and!; try done. lia.
Qed.

Lemma read_request_refuse a st :
  read_request a = inl st → st ∈ [HYPER4K_STATUS_INVALID_ARG; HYPER4K_STATUS_ABI_MISMATCH;
                                  HYPER4K_STATUS_STRUCT_SIZE].
Proof.
  unfold read_request. intros E. destruct (a_request a) as [src|]; [|injection E as <-; kinds].
  destruct (a_client_null a || a_out_null a); [injection E as <-; kinds|].
  destruct (a_on_headers a && a_on_done a); cbn [negb] in E; [|injection E as <-; kinds].
  revert E. set (v := validate_header _ _ _). intros E.
  destruct (v =? HYPER4K_STATUS_OK) eqn:Ev; cbn [negb] in E; [done|]. injection E as <-.
  subst v. unfold validate_header in *. destruct (Z.shiftr _ _ =? _); cbn [negb] in *; [|kinds].
  destruct (_ <? _); [kinds|done].
Qed.

(** From the id on: the reservation decides. *)
Definition submit (a : SendArgs) (j : Job) : prog client (Hyper4kStatus * option Z) :=
  id <- fetch (λ s, (s <| next_id := fetch_add 64 (next_id s) 1 |>, next_id s)) ;;
  ok <- on_limits (try_reserve (cf_limits conf) (reserve_bytes conf j)) ;;
  if negb ok then Ret (HYPER4K_STATUS_RESOURCE_EXHAUSTED, None)
  else
    i <- enter_and_spawn conf id a j ;;
    modify (λ s, s <| c_requests ::= insert id i |>) ;;
    spawn_task i j ;; on_slot task_of i set_abort ;;
    Ret (HYPER4K_STATUS_OK, Some id).

(** Both ceilings have room for a request. *)
Definition has_room (j : Job) (s : client) : bool :=
  bool_decide (inflight (c_limits s) < max_inflight (cf_limits conf) ∧
    bytes_reserved (c_limits s) + reserve_bytes conf j ≤ max_bytes (cf_limits conf)).

Lemma run_submit t a j s :
  in_width 32 (inflight (c_limits s)) → inflight (c_limits s) < 2 ^ 32 - 1 →
  in_width 64 (bytes_reserved (c_limits s)) →
  in_width 64 (bytes_reserved (c_limits s) + reserve_bytes conf j) →
  ∃ s' st out, run t (submit a j) s = Some (s', (st, out)) ∧
    if has_room j s then st = HYPER4K_STATUS_OK ∧ out = Some (next_id s) ∧ accepted a j s s'
    else st = HYPER4K_STATUS_RESOURCE_EXHAUSTED ∧ out = None ∧ refused st s s'.
Proof.
  intros Hn Hlt Hb Hbb. unfold submit, has_room.
  destruct (run_try_reserve t (cf_limits conf) (reserve_bytes conf j) (c_limits s))
    as (l & El & Hl); [done..|].
  set (s1 := s <| next_id := fetch_add 64 (next_id s) 1 |>).
  rewrite run_bind. simpl (run t (fetch _) s). cbv iota.
  rewrite run_bind, run_on_limits. cbn [c_limits]. rewrite El. case_bool_decide as Hroom.
  - cbn [negb]. destruct (run_register t a j (next_id s) (s1 <| c_limits := l |>))
      as (s' & E & Hs & Hr & Hi & Hbr & Hlim & Hrest).
    eexists _, _, _. split; [exact E|]. destruct Hl as (Hl1 & Hl2 & Hl3).
    split_and!; [done|done|]. unfold accepted. rewrite Hs, Hr, Hi, Hbr, Hlim, Hrest. by split_and!.
  - eexists _, _, _. split; [reflexivity|]. destruct Hl as (? & ? & ?). by split_and!.
Qed.

(** A well-formed request on a client that is open. *)
Lemma run_send_submits t a r j s :
  read_request a = inr r → c_closed s = false → prepare conf (a_mem a) r = Good j →
  run t (hyper4k_client_send task_of conf a) s = run t (submit a j) s.
Proof.
  intros Er Ec Ep. unfold hyper4k_client_send. rewrite Er, run_bind. simpl (run t (load _) s). cbv iota.
  by rewrite Ec, Ep.
Qed.

(** The arguments make a request that an open client can take: the job is what
    they were read into. *)
Definition well_formed (a : SendArgs) (s : client) (j : Job) : Prop :=
  ∃ r, read_request a = inr r ∧ c_closed s = false ∧ prepare conf (a_mem a) r = Good j.

(** What a submission that returns has done. *)
Definition outcome (a : SendArgs) (s s' : client) (st : Hyper4kStatus) (out : option Z) : Prop :=
  (st = HYPER4K_STATUS_OK ∧ out = Some (next_id s) ∧
     ∃ j, well_formed a s j ∧ has_room j s = true ∧ accepted a j s s') ∨
  (st = HYPER4K_STATUS_RESOURCE_EXHAUSTED ∧ out = None ∧ refused st s s' ∧
     ∃ j, well_formed a s j ∧ has_room j s = false) ∨
  (st ≠ HYPER4K_STATUS_OK ∧ st ≠ HYPER4K_STATUS_RESOURCE_EXHAUSTED ∧ out = None ∧ s' = s ∧
     ∀ j, ¬ well_formed a s j).

(** C17: a submission is all or nothing.  While the counters have room for one
    more request within their width, [send] returns on every input but one that
    makes it panic.  With OK the arguments were well-formed, the client open and
    both ceilings had room; the next id was handed out and exactly one new
    request was registered under it, counted and reserved, with the job the
    arguments were read into.  With RESOURCE_EXHAUSTED a ceiling had no room:
    nothing is registered, counted or reserved, only the id is used up.  With any
    other status the request was not well-formed or the client closed, and the
    client is exactly as it was. *)
Theorem send_is_all_or_nothing t a s :
  in_width 32 (inflight (c_limits s)) → inflight (c_limits s) < 2 ^ 32 - 1 →
  in_width 64 (bytes_reserved (c_limits s)) →
  (∀ j, well_formed a s j → in_width 64 (bytes_reserved (c_limits s) + reserve_bytes conf j)) →
  (∃ r, read_request a = inr r ∧ prepare conf (a_mem a) r = Panic ∧ c_closed s = false ∧
     run t (hyper4k_client_send task_of conf a) s = None) ∨
  ∃ s' st out, run t (hyper4k_client_send task_of conf a) s = Some (s', (st, out)) ∧
    outcome a s s' st out.
Proof.
  intros Hn Hlt Hb Hj. unfold hyper4k_client_send.
  assert (Hearly : ∀ st, st ∈ [HYPER4K_STATUS_INVALID_ARG; HYPER4K_STATUS_ABI_MISMATCH;
      HYPER4K_STATUS_STRUCT_SIZE; HYPER4K_STATUS_UNSUPPORTED; HYPER4K_STATUS_CLIENT_CLOSED] →
    (∀ j, ¬ well_formed a s j) →
    ∃ s' st' out, Some (s, (st, None)) = Some (s', (st', out)) ∧ outcome a s s' st' out).
  { intros st Hst Hno. eexists _, _, _. split; [done|]. do 2 right.
    by repeat (apply elem_of_cons in Hst as [->|Hst]; [done|]); apply elem_of_nil in Hst. }
  destruct (read_request a) as [st|r] eqn:Er.
  { right. apply Hearly; [|intros j (r & Er' & _); congruence]. apply read_request_refuse in Er.
    by repeat (apply elem_of_cons in Er as [->|Er]; [kinds|]); apply elem_of_nil in Er. }
  rewrite run_bind. simpl (run t (load _) s). cbv iota.
  destruct (c_closed s) eqn:Ec; [right; apply Hearly; [kinds|intros j (? & _ & ? & _); congruence]|].
  destruct (prepare conf (a_mem a) r) as [st| |j] eqn:Ep.
  - right. apply Hearly; [apply prepare_refuse in Ep as [-> | ->]; kinds|].
    intros j (r' & Er' & _ & Ej). congruence.
  - left. by exists r.
  - right. assert (Hw : well_formed a s j) by (by exists r).
    destruct (run_submit t a j s) as (s' & st & out & E & Ho); [done..|by apply Hj|].
    exists s', st, out. split; [exact E|]. unfold outcome. destruct (has_room j s) eqn:Eh.
    + left. destruct Ho as (?&?&?). split_and!; [done|done|by exists j].
    + right; left. destruct Ho as (?&?&?). split_and!; [done|done|done|by exists j].
Qed.

(** ** What goes out *)

Context {HL : HttpHeadersLaws H} {HN : HttpNames H} {UL : HttpUriLaws U} {ML : HttpMethodLaws M}.

(** C19: an accepted request goes out as it was given.  Whenever [send] accepts
    a request of fewer headers than a header map has room for, every attempt can
    be built, over either protocol: it has the caller's method and body, for
    every name the caller's values in order, and [Host] is [host:port] unless the
    caller set it.  The target is the whole URL on HTTP/2 and through a plaintext
    proxy; on a direct HTTP/1 connection it is the path and query when there is a
    path, and stays the whole URL when path and query alone are not a URI.  An
    "https" request always has a TLS connector and a plaintext one is never
    accepted when HTTP/2 is required. *)
Theorem accepted_request_goes_out_as_given mem r j h2 :
  prepare conf mem r = Good j → 0 ≤ header_count r < MAX_SIZE →
  ∃ m_b url_b hs body host port q h a,
    slice_bytes mem (method r) = Some m_b ∧ slice_bytes mem (url r) = Some url_b ∧
    request_headers mem r = Good hs ∧ request_body mem r = Good body ∧
    uri_parse url_b = Some (t_uri (j_template j)) ∧ uri_host (t_uri (j_template j)) = Some host ∧
    j_key j = pool_key (if j_https j then lit "https" else lit "http") host port ∧
    wire_request (j_template j) h2 = Some q ∧
    method_as_str (rq_method q) = m_b ∧ rq_body q = body ∧
    name_from_bytes (lit "host") = Some h ∧ value_from_bytes (host_port host port) = Some a ∧
    (∀ n, map_get_all (rq_headers q) n = values_for n (parsed hs) ++
       (if decide (h = n ∧ values_for h (parsed hs) = []) then [a] else [])) ∧
    (if h2 || (cf_via_proxy conf && negb (j_https j)) then rq_uri q = t_uri (j_template j)
     else direct_target (t_uri (j_template j)) (rq_uri q)) ∧
    (if j_https j then cf_tls conf ≠ None else cf_h2_required conf = false).
Proof.
  intros Hp Hc.
  destruct (prepare_good _ _ _ Hp) as (m_b & url_b & scheme & host & port & Em & Eu & Emb & Eub & Eh &
    Es & Hs & Ek & Ea & Eabs & Ehs & Ebody & Hv).
  assert (in_width 16 port) as Hport.
  { destruct (port_u16 (t_uri (j_template j))) as [p|] eqn:E; simpl in Hs.
    - pose proof (port_u16_range _ _ E). by destruct Hs as [(_ & _ & -> & _)|(_ & _ & -> & _)].
    - by destruct Hs as [(_ & _ & -> & _)|(_ & _ & -> & _)]. }
  destruct (wire_request_spec (j_template j) host port h2) as
    (q & h & a & Eq & Enh & Eva & Eqm & Eqb & Hg & Hf); [done| |done|by eapply host_visible|done..|].
  { rewrite <- (request_headers_length _ _ _ Ehs) in Hc by lia. lia. }
  rewrite Ea in Eva. exists m_b, url_b, (t_headers (j_template j)), (t_body (j_template j)), host, port, q, h, a.
  rewrite <- Eabs. split_and!; try done.
  - by destruct Hs as [(-> & -> & _)|(-> & -> & _)].
  - rewrite Eqm. by apply method_from_as_str.
  - by destruct Hs as [(_ & -> & _ & ?)|(_ & -> & _ & ?)].
Qed.

(** A header count that no vector can hold ends the process, whatever else is
    wrong with the request: the capacity is asked for before the NULL check. *)
Lemma huge_header_count_panics mem r :
  2 ^ 57 ≤ header_count r → request_headers mem r = Panic.
Proof.
  intros Hn. unfold request_headers, with_capacity. by rewrite (proj2 (Z.ltb_ge _ _)) by lia.
Qed.

(** ** [close] *)

(** Settling always returns, and leaves the request settled. *)
Lemma run_close_request t b :
  ∃ b', run t close_request b = Some (b', tt) ∧ state b' ≠ RUNNING.
Proof.
  destruct (decide (state b = RUNNING)) as [Hs|Hs].
  - destruct (run_settle_discard t b (mk_terminal HYPER4K_ERR_CANCELLED (lit "client closed")) Hs)
      as (g & cp & E). eexists. split; [exact E|]. simpl. done.
  - unfold close_request, settle. rewrite run_bind.
    destruct b. simpl in *. rewrite (proj2 (Z.eqb_neq _ _) Hs). simpl.
    destruct paused; simpl; [destruct pause_guard, scheduled, abort; simpl; eauto|].
    destruct abort; simpl; eauto.
Qed.

(** Registered ids name requests, and the counts of the pools are [u32]. *)
Definition registry_ok (s : client) : Prop :=
  (∀ id i, c_requests s !! id = Some i → is_Some (c_slots s !! i)) ∧ counts_ok s.

(** The fields that settling a request leaves alone. *)
Definition switches (s : client) : bool * nat * bool := (c_closed s, c_shutdowns s, c_stopped s).

Definition settled (i : nat) (s : client) : Prop :=
  ∃ q, c_slots s !! i = Some q ∧ state (r_bridge q) ≠ RUNNING.

Lemma run_close_one t i q s :
  counts_ok s → c_slots s !! i = Some q →
  ∃ s', run t (on_slot task_of i close_request) s = Some (s', tt) ∧
    c_requests s' = c_requests s ∧ switches s' = switches s ∧ counts_ok s' ∧ settled i s' ∧
    (∀ k, settled k s → settled k s') ∧ (∀ k, is_Some (c_slots s !! k) → is_Some (c_slots s' !! k)).
Proof.
  intros Hcs Hq. destruct (run_close_request (local task_of i t) (r_bridge q)) as (b & Eb & Hb).
  exists (put_bridge i q b s).
  rewrite (run_on_slot_keeps task_of t i close_request s q), Eb by (done || apply settle_keeps_finished).
  destruct (put_bridge_fields i q b s) as (Es & Er & _ & Ec & Esh & Est & _).
  assert (Hi : settled i (put_bridge i q b s)).
  { exists (q <| r_bridge := b |>). split; [|done]. rewrite Es, list_lookup_insert_eq; [done|].
    by eapply lookup_lt_Some. }
  split_and!; [done|done|unfold switches; congruence|by apply put_bridge_counts|done| |].
  - intros k Hk. destruct (decide (k = i)) as [->|Hne]; [done|]. destruct Hk as (q' & Hq' & ?).
    exists q'. split; [|done]. by rewrite Es, list_lookup_insert_ne by congruence.
  - intros k. rewrite Es, !lookup_lt_is_Some, length_insert. done.
Qed.

Lemma run_close_all t ids s :
  registry_ok s →
  ∃ s', run t (close_all task_of ids) s = Some (s', tt) ∧
    c_requests s' = c_requests s ∧ switches s' = switches s ∧ (∀ k, settled k s → settled k s') ∧
    ∀ id i, id ∈ ids → c_requests s !! id = Some i → settled i s'.
Proof.
  revert s. induction ids as [|id ids IH]; intros s [Hr Hcs]; cbn [close_all].
  { exists s. split_and!; [done..|]. by intros ? ? ?%elem_of_nil. }
  rewrite run_bind. simpl (run t (get_request id) s). cbv iota. rewrite run_bind.
  destruct (c_requests s !! id) as [i|] eqn:Ei.
  - destruct (Hr id i Ei) as [q Hq].
    destruct (run_close_one t i q s Hcs Hq) as (s1 & -> & Er & Erest & Hcs1 & Hi & Hk & Hsome).
    destruct (IH s1) as (s' & E & Er' & Erest' & Hk' & Hids).
    { split; [|done]. intros id' k Hid. rewrite Er in Hid. by apply Hsome, (Hr id'). }
    exists s'. rewrite E, Er', Erest'. split_and!; [done..|by auto|].
    intros id' k [->|Hin]%elem_of_cons Hid; [simplify_eq; by apply Hk'|].
    apply (Hids id'); [done|by rewrite Er].
  - simpl. destruct (IH s) as (s' & E & Er' & Erest' & Hk' & Hids); [by split|]. exists s'.
    split_and!; [done..|]. intros id' k [->|Hin]%elem_of_cons Hid; [congruence|by apply (Hids id')].
Qed.

(** C20: [close] settles everything and stops the intake.  Run to its end with
    nothing interfering it returns, every registered request has been settled
    (so that its OnDone is due), a task that shuts the pools down was started,
    and from then on every well-formed submission is refused as CLIENT_CLOSED and
    changes nothing. *)
Theorem close_settles_every_request t s :
  registry_ok s →
  ∃ s', run t (hyper4k_client_close task_of false) s = Some (s', tt) ∧
    c_closed s' = true ∧ c_shutdowns s' = S (c_shutdowns s) ∧ c_requests s' = c_requests s ∧
    (∀ id i, c_requests s' !! id = Some i → settled i s') ∧
    ∀ t' a r, read_request a = inr r →
      run t' (hyper4k_client_send task_of conf a) s' = Some (s', (HYPER4K_STATUS_CLIENT_CLOSED, None)).
Proof.
  intros Hr. set (s0 := s <| c_closed := true |>).
  destruct (run_close_all t (map_to_list (c_requests s)).*1 s0) as (s1 & E & Er & Erest & _ & Hids);
    [done|].
  exists (s1 <| c_shutdowns ::= S |>). injection Erest as Ec Es Eo. split_and!.
  - unfold hyper4k_client_close. rewrite run_bind. simpl (run t (modify _) s). cbv iota.
    rewrite run_bind. simpl (run t (load _) _). cbv iota. rewrite run_bind.
    change (c_requests s) with (c_requests s0) in E. subst s0. simpl in E |- *. by rewrite E.
  - by simpl; rewrite Ec.
  - by simpl; rewrite Es.
  - done.
  - intros id i Hid. simpl in Hid. rewrite Er in Hid.
    destruct (Hids id i) as (q & ? & ?); [|done|by exists q].
    apply list_elem_of_fmap. exists (id, i). split; [done|]. by apply elem_of_map_to_list.
  - intros t' a r Ea. unfold hyper4k_client_send. rewrite Ea, run_bind. simpl. by rewrite Ec.
Qed.
End send.

(** ** [new] *)

Context {RL : RustlsLaws R}.




End run.

(** ** Witnesses *)

Import Client.Caller.

Module Example4.
Definition task_of (i : nat) : nat := (2 + i)%nat.
Definition fresh : client := new_client conf.

(** The state after one request was accepted. *)
Definition busy : client :=
  match run 0 (hyper4k_client_send task_of conf args) fresh with
  | Some (s, _) => s
  | None => fresh
  end.

(** The struct of a caller that asks for 2^58 headers and passes none. *)
Definition huge : Hyper4kClientRequest :=
  {| req_abi_version := hyper4k_abi_version; req_struct_size := 80;
     method := {| sl_ptr := 1000; sl_len := 3 |}; url := {| sl_ptr := 2000; sl_len := 15 |};
     headers := 0; header_count := 2 ^ 58; body_ptr := 0; body_len := 0;
     req_read_idle_timeout_ms := 0 |}.
End Example4.
Import Example4.

Lemma send_is_all_or_nothing_witness :
  ∃ s' j, run 0 (hyper4k_client_send task_of conf args) fresh = Some (s', (HYPER4K_STATUS_OK, Some 1)) ∧
    accepted conf args j fresh s' ∧ j_key j = pool_key (lit "http") (lit "origin") 80.
Proof.
  assert (match read_request args with
          | inr r => match prepare conf (a_mem args) r with
                     | Good j => (reserve_bytes conf j <=? 1000000) &&
                         bool_decide (j_key j = pool_key (lit "http") (lit "origin") 80)
                     | _ => false
                     end
          | inl _ => false
          end = true) as Ek by (vm_compute; reflexivity).
  assert (match run 0 (hyper4k_client_send task_of conf args) fresh with
          | Some (_, (st, _)) => st =? HYPER4K_STATUS_OK
          | None => false
          end = true) as Es by (vm_compute; reflexivity).
  destruct (send_is_all_or_nothing task_of conf 0 args fresh)
    as [(r & _ & _ & _ & E)|(s' & st & out & E & Ho)].
  - split; [discriminate|reflexivity].
  - reflexivity.
  - split; [discriminate|reflexivity].
  - intros j (r & Er & _ & Ep). rewrite Er, Ep in Ek. apply andb_true_iff in Ek as [Ek _].
    apply Z.leb_le in Ek. change (bytes_reserved (c_limits fresh)) with 0.
    split; [unfold reserve_bytes; lia|lia].
  - exfalso. rewrite E in Es. discriminate Es.
  - rewrite E in Es. apply Z.eqb_eq in Es as ->.
    destruct Ho as [(_ & -> & j & (r & Er & _ & Ep) & _ & Ha)|[(? & _)|(? & _)]]; [|done..].
    rewrite Er, Ep in Ek. apply andb_true_iff in Ek as [_ Ek]. apply bool_decide_eq_true_1 in Ek.
    exists s', j. split; [exact E|]. split; [exact Ha|exact Ek].
Defined.

Lemma accepted_request_goes_out_as_given_witness :
  ∃ r j q, read_request args = inr r ∧ prepare conf mem r = Good j ∧
    wire_request (j_template j) false = Some q ∧ path_and_query (rq_uri q) = Some (lit "/x") ∧
    method_as_str (rq_method q) = lit "GET".
Proof.
  destruct (read_request args) as [|r] eqn:Er; [discriminate Er|].
  assert (r = get_request_struct) as -> by (vm_compute in Er; injection Er as <-; reflexivity).
  assert (match prepare conf mem get_request_struct with
          | Good j => bool_decide (path_and_query (t_uri (j_template j)) = Some (lit "/x"))
          | _ => false
          end = true) as Ep by (vm_compute; reflexivity).
  destruct (prepare conf mem get_request_struct) as [| |j] eqn:Ej; [discriminate Ep..|].
  apply bool_decide_eq_true_1 in Ep.
  destruct (accepted_request_goes_out_as_given conf (HL := Headers.Concrete.http_laws)
    (HN := Template.Concrete.http_names) (UL := Uri.Concrete.uri_laws)
    (ML := Template.Concrete.http_method_laws) mem get_request_struct j false Ej)
    as (m & u & hs & b & h & p & q & _ & _ & Em & _ & _ & _ & _ & _ & Ek & Eq & Hm & _ & _ & _ & _ & Hf & _).
  - split; [discriminate|reflexivity].
  - exists get_request_struct, j, q. split; [reflexivity|]. split; [exact Ej|].
    split; [exact Eq|]. split.
    + change (cf_via_proxy conf) with false in Hf. simpl in Hf.
      exact (proj2 (proj2 (proj1 Hf _ Ep eq_refl))).
    + rewrite Hm. vm_compute in Em. injection Em as <-. reflexivity.
Defined.

Lemma close_settles_every_request_witness :
  ∃ s', run 1 (hyper4k_client_close task_of false) busy = Some (s', tt) ∧ settled 0 s' ∧ c_closed s' = true.
Proof.
  assert (Hb : registry_ok busy).
  { split; [|split; [intros id e; discriminate|intros p Ep id e; injection Ep as <-; discriminate]].
    intros id i Hid.
    assert (c_requests busy = {[1 := 0%nat]}) as E by (vm_compute; reflexivity).
    rewrite E in Hid. apply lookup_singleton_Some in Hid as [_ <-].
    assert (match c_slots busy !! 0%nat with Some _ => true | None => false end = true) as F
      by (vm_compute; reflexivity).
    destruct (c_slots busy !! 0%nat); [by eexists|discriminate F]. }
  destruct (close_settles_every_request task_of conf 1 busy Hb) as (s' & E & Hc & _ & Hr & Hs & _).
  exists s'. split; [exact E|]. split; [|exact Hc]. apply (Hs 1). rewrite Hr. vm_compute. reflexivity.
Defined.


(** ** What goes wrong *)

(** A header count that cannot be allocated ends the process although the header
    pointer is NULL, which is to be refused. *)
Theorem huge_header_count_ends_process :
  run 0 (hyper4k_client_send task_of conf (args_of huge)) fresh = None ∧
  read_request (args_of huge) = inr huge ∧ headers huge = 0.
Proof.
  split; [|split; [vm_compute; reflexivity|reflexivity]].
  assert (match run 0 (hyper4k_client_send task_of conf (args_of huge)) fresh with
          | None => true | Some _ => false end = true) as E by (vm_compute; reflexivity).
  by destruct (run 0 (hyper4k_client_send task_of conf (args_of huge)) fresh).
Qed.

(** The caller's memory with a URL that has a query and no path. *)
Definition query_only (p n : Z) : bytes := if p =? 2000 then lit "http://origin?x" else mem p n.

(** Its request goes to the origin itself with the whole URL as its target,
    although [to_origin_form] is there to rewrite it. *)
Theorem query_only_target_stays_absolute :
  ∃ j q, prepare conf query_only get_request_struct = Good j ∧
    absolute_form (j_template j) = false ∧ wire_request (j_template j) false = Some q ∧
    scheme_str (rq_uri q) = Some (lit "http") ∧ uri_authority (rq_uri q) = Some (lit "origin") ∧
    path_and_query (rq_uri q) = Some (lit "?x").
Proof.
  assert (match prepare conf query_only get_request_struct with
          | Good j => negb (absolute_form (j_template j)) &&
              match wire_request (j_template j) false with
              | Some q => bool_decide (scheme_str (rq_uri q) = Some (lit "http")) &&
                  bool_decide (uri_authority (rq_uri q) = Some (lit "origin")) &&
                  bool_decide (path_and_query (rq_uri q) = Some (lit "?x"))
              | None => false
              end
          | _ => false
          end = true) as E by (vm_compute; reflexivity).
  destruct (prepare conf query_only get_request_struct) as [| |j]; [done..|].
  apply andb_true_iff in E as [Ea E]. apply negb_true_iff in Ea.
  destruct (wire_request (j_template j) false) as [q|] eqn:Eq; [|done].
  rewrite !andb_true_iff, !bool_decide_eq_true in E. destruct E as [[E1 E2] E3]. by exists j, q.
Qed.

(** A submission that has looked at [closed] before [close] sets it is accepted
    after [close] has returned; its request is registered and running, and
    nothing has cancelled it. *)
Theorem send_survives_close :
  ∃ c', reachable (Config fresh [hyper4k_client_send task_of conf args ;; Ret tt;
                                 hyper4k_client_close task_of false]) c' ∧
    finished_thread 0 c' && finished_thread 1 c' && c_closed (shared c') &&
    bool_decide (map_to_list (c_requests (shared c')) = [(1, 0%nat)]) &&
    forallb (λ q, state (r_bridge q) =? RUNNING) (c_slots (shared c')) = true.
Proof.
  apply (exec_test_reachable ([0%nat] ++ replicate 3 1%nat ++ replicate 7 0%nat)).
  vm_compute. reflexivity.
Qed.

(** A bundle without a certificate is refused, but not when the platform has no
    usable roots: then the client is made, without TLS. *)
Definition empty_bundle : Hyper4kClientOptions :=
  {| abi_version := hyper4k_abi_version; struct_size := 88; flags := 0;
     connect_timeout_ms := 10000; request_timeout_ms := 60000; read_idle_timeout_ms := 60000;
     max_retries := 2; max_inflight_requests := 4; max_buffered_bytes := 0; custom_ca_pem := 4000;
     custom_ca_pem_len := 9; proxy_url := 0; proxy_url_len := 0 |}.

Theorem bad_bundle_is_not_reported :
  let no_roots := {| runtime_builds := true; native_certs := []; parallelism := None |} in
  hyper4k_client_new platform mem (Some (to_bytes empty_bundle)) false =
    inl HYPER4K_STATUS_INVALID_ARG ∧
  ∃ conf c, hyper4k_client_new no_roots mem (Some (to_bytes empty_bundle)) false = inr (conf, c) ∧
    cf_tls conf = None.
Proof.
  intros no_roots. split; [reflexivity|].
  destruct (hyper4k_client_new no_roots mem (Some (to_bytes empty_bundle)) false) as [|[conf' c]] eqn:E;
    [discriminate E|].
  exists conf', c. split; [done|]. injection E as <- <-. reflexivity.
Qed.
