(* ===== verification/ClientLeases.v ===== *)
(** * What the network tasks of a client hold

    The books of both pools of a client ([Leases]) under every interleaving of
    its threads.  Only a network task ever holds a lease or a dial lock; however
    it ends (a response, an error, an abort, a timeout, at any await) it has given
    back what it held. *)

From S2P Require Import Prelude Conc Ledger Abi Headers Text Uri Proxy Pool Leases Tls Template Limits.
From S2P Require Import Retry Bridge Request BridgeSafety Client ClientSafety ClientRun.

Open Scope prog_scope.

Section leases.
Context {H : HttpHeaders} {U : HttpUri} {M : HttpMethod} {R : Rustls}.
Context (task_of : nat → nat) (conf : ClientConf) (threads_max : nat) (request_max : Z).

(** ** The books of a client *)

(** A token names its pool first. *)
Definition share (h : bool) (m : holding (bool * token)) : holding token := λ k, m (h, k).
Definition lift (h : bool) (m : holding token) : holding (bool * token) :=
  λ k, if Bool.eqb h k.1 then m k.2 else 0%nat.

Record client_books (s : client) (m : holding (bool * token)) : Prop := ClientBooks {
  cb_pool : pool_books (c_pool s) (share false m);
  cb_tls : match c_tls_pool s with
           | Some p => pool_books p (share true m)
           | None => cf_tls conf = None ∧ same (share true m) none
           end;
  (* a task on the TLS pool was only accepted with a TLS connector *)
  cb_jobs i q j : c_slots s !! i = Some q → r_task q = Some j → j_https j = true → cf_tls conf ≠ None;
}.

Lemma client_books_same s m n : same m n → client_books s m → client_books s n.
Proof.
  intros Hmn [Hp Ht Hj].
  assert (Hsh : ∀ h, same (share h m) (share h n)) by (intros h k; apply Hmn).
  split; [by eapply pool_books_same| |done].
  destruct (c_tls_pool s); [by eapply pool_books_same|]. destruct Ht as [? Ht]. split; [done|].
  intros k. rewrite <- Hsh. apply Ht.
Qed.

#[local] Abbreviation csilent := (silent client_books) (only parsing).

(** *** Actions that move nothing *)

(** What the books of a client look at. *)
Definition parts (s : client) : pool * option pool * list (option Job) :=
  (c_pool s, c_tls_pool s, map r_task (c_slots s)).

Lemma parts_books s s' m : parts s' = parts s → client_books s m → client_books s' m.
Proof.
  intros [= E1 E2 E3] [Hp Ht Hj]. split; rewrite ?E1, ?E2; [done|done|].
  intros i q j Hq Hr. apply (f_equal (.!! i)) in E3. change (map r_task) with (fmap (M := list) r_task) in E3.
  rewrite !list_lookup_fmap, Hq in E3. destruct (c_slots s !! i) as [q'|] eqn:Eq; simplify_eq/=.
  apply (Hj i q' j); congruence.
Qed.

Lemma silent_keeps {A} (p : prog client A) : keeps parts p → csilent p.
Proof.
  intros Hp. induction p as [|T f k IH]; [done|]. destruct Hp as [Hf Hk].
  intros t s s' r m Hs E. split; [|auto]. apply (parts_books s); [by eapply Hf|done].
Qed.

Lemma silent_on_limits {A} (p : prog counters A) : csilent (on_limits p).
Proof.
  apply silent_keeps. induction p as [|T f k IH]; simpl; [done|]. split; [|done].
  intros t s s' r E. destruct (f t (c_limits s)) as [[]|]; by simplify_eq.
Qed.

Lemma silent_on_pool {A} (p : prog pool A) : silent pool_books p → csilent (on_pool p).
Proof.
  intros Hp. induction p as [|T f k IH]; simpl in *; [done|].
  intros t s s' r m [Hb Ht Hj] E. specialize (Hp t (c_pool s)).
  destruct (f t (c_pool s)) as [[l r']|]; simplify_eq.
  destruct (Hp l r (share false m) Hb eq_refl) as [? ?]. split; [by split|by apply IH].
Qed.

Lemma silent_on_tls_pool {A} (d : A) (p : prog pool A) :
  silent pool_books p → csilent (on_tls_pool d p).
Proof.
  intros Hp. induction p as [|T f k IH]; simpl in *; [done|].
  intros t s s' r m [Hb Ht Hj] E. destruct (c_tls_pool s) as [l0|] eqn:El.
  - specialize (Hp t l0). destruct (f t l0) as [[l r']|]; simplify_eq.
    destruct (Hp l r' (share true m) Ht eq_refl) as [? ?]. split; [by split|by apply IH].
  - simplify_eq. split; [|done]. split; [done| |done]. by rewrite El.
Qed.

(** Storing a slot changes the paused counts only. *)
Lemma shift_paused_books old new p m : pool_books p m → pool_books (shift_paused old new p) m.
Proof.
  intros Hp. unfold shift_paused. case_decide; [done|].
  eapply books_entries; [exact Hp|done..|]. intros id. simpl. rewrite map_lookup_imap.
  destruct (entries p !! id) as [e|]; simpl; [|done]. eexists. split; [done|]. by apply booked_books.
Qed.

Lemma put_bridge_books i q b s m :
  c_slots s !! i = Some q → client_books s m → client_books (put_bridge i q b s) m.
Proof.
  intros Hq [Hp Ht Hj].
  assert (Hj' : ∀ k q' j, c_slots (put_bridge i q b s) !! k = Some q' → r_task q' = Some j →
    j_https j = true → cf_tls conf ≠ None).
  { intros k q' j. rewrite (proj1 (put_bridge_fields i q b s)).
    intros [(<- & <- & _)|(_ & Hk)]%list_lookup_insert_Some; [exact (Hj i q j Hq)|by apply (Hj k)]. }
  unfold put_bridge, in_pool in *. destruct (is_https q); split; simpl; try done.
  - destruct (c_tls_pool s); simpl; [by apply shift_paused_books|done].
  - by apply shift_paused_books.
Qed.

Lemma silent_cleanup q : csilent (cleanup q).
Proof.
  apply silent_bind; [apply silent_on_limits|]. intros _. by apply silent_keeps, keeps_modify.
Qed.

Lemma silent_on_slot {A} i (p : prog bridge A) : csilent (on_slot task_of i p).
Proof.
  induction p as [|T f k IH]; cbn [on_slot]; [done|].
  intros t s s' r m Hs E. destruct (c_slots s !! i) as [q|] eqn:Eq; [|done].
  destruct (f _ _) as [[b r']|]; simplify_eq. split; [by apply put_bridge_books|]. cbn [fst snd].
  destruct (_ && _); [apply silent_bind; [apply silent_cleanup|auto]|apply IH].
Qed.

(** *** The threads that hold nothing *)

Lemma silent_get_request {A} id (g : option nat → prog client A) :
  (∀ h, csilent (g h)) → csilent (h <- get_request id ;; g h).
Proof. intros Hg. apply silent_bind; [apply silent_load|exact Hg]. Qed.

Lemma silent_shutdown_pools : csilent shutdown_pools.
Proof.
  apply silent_bind; [apply silent_on_pool, silent_shutdown|]. intros _.
  apply silent_on_tls_pool, silent_shutdown.
Qed.

Lemma silent_close n : csilent (hyper4k_client_close task_of n).
Proof.
  unfold hyper4k_client_close. destruct n; [apply silent_ret|].
  apply silent_bind; [by apply silent_keeps, keeps_modify|]. intros _.
  apply silent_bind; [apply silent_load|]. intros ids.
  apply silent_bind; [|intros _; by apply silent_keeps, keeps_modify].
  induction ids as [|id ids IH]; cbn [close_all]; [apply silent_ret|].
  apply silent_get_request. intros [i|]; (apply silent_bind; [|intros _; exact IH]);
    [apply silent_on_slot|apply silent_ret].
Qed.

(** Submitting: the task of an accepted request is one the client can run. *)
Lemma silent_send a : csilent (hyper4k_client_send task_of conf a).
Proof.
  unfold hyper4k_client_send. destruct (read_request a) as [st|r]; [apply silent_ret|].
  apply silent_bind; [apply silent_load|]. intros [|]; [apply silent_ret|].
  destruct (prepare conf (a_mem a) r) as [st| |j] eqn:Ep; [apply silent_ret|by apply silent_atomic|].
  destruct (prepare_good conf _ _ _ Ep) as (? & ? & ? & ? & ? & _ & _ & _ & _ & _ & _ & Hs & _).
  apply silent_bind; [by apply silent_keeps, keeps_fetch|]. intros id.
  apply silent_bind; [apply silent_on_limits|]. intros [|]; [|apply silent_ret]. cbn [negb].
  apply silent_bind.
  { apply silent_fetch. intros s m [Hp Ht Hj]. split; [done|done|]. intros i q j'. simpl.
    intros [Hq|[_ Hq]]%lookup_app_Some; [by apply (Hj i)|].
    destruct (i - _)%nat; simplify_eq/=. done. }
  intros i. apply silent_bind; [by apply silent_keeps, keeps_modify|]. intros _.
  apply silent_bind; [|intros _; apply silent_bind; [apply silent_on_slot|intros _; apply silent_ret]].
  apply silent_modify. intros s m [Hp Ht Hj]. split; [done|done|]. intros k q j'. simpl.
  destruct (decide (i = k)) as [<-|Hne].
  - rewrite list_lookup_alter_eq. intros (q0 & _ & ->)%fmap_Some. simpl. intros [= <-] Hh.
    destruct Hs as [(_ & _ & _ & ?)|(_ & Hf & _)]; congruence.
  - rewrite list_lookup_alter_ne by done. apply Hj.
Qed.

Lemma silent_stop_task i why : csilent (stop_task i why).
Proof.
  apply silent_atomic. intros t s s' r m [Hp Ht Hj] E.
  destruct (c_slots s !! i) as [q|] eqn:Eq; [|done]. destruct (can_stop why q s && _); simplify_eq.
  split; [done|done|]. intros k q' j. simpl.
  intros [(<- & <- & _)|(_ & Hk)]%list_lookup_insert_Some; [exact (Hj i q j Eq)|by apply (Hj k)].
Qed.

Lemma silent_wait {T} (f : nat → client → option (client * T)) :
  (∀ t s s' r, f t s = Some (s', r) → s' = s) → csilent (atomic f).
Proof. intros Hf. apply silent_atomic. intros t s s' r m Hs E. by rewrite (Hf t s s' r E). Qed.

Lemma silent_client_program p : client_program task_of conf request_max p → csilent p.
Proof.
  induction 1; [apply silent_ret|..]; (apply silent_bind; [|intros _; exact IHclient_program]).
  - apply silent_send.
  - unfold hyper4k_client_cancel. destruct n; [apply silent_ret|]. apply silent_get_request.
    intros [i|]; [apply silent_on_slot|apply silent_ret].
  - unfold hyper4k_client_resume. destruct n; [apply silent_ret|]. apply silent_get_request.
    intros [i|]; [apply silent_on_slot|apply silent_ret].
  - apply silent_close.
  - unfold hyper4k_client_free. destruct n; [apply silent_ret|].
    apply silent_bind; [apply silent_close|]. intros _.
    apply silent_bind; [apply silent_wait; intros t s s' r E; by case_match; simplify_eq|]. intros _.
    apply silent_bind; [apply silent_shutdown_pools|]. intros _. by apply silent_keeps, keeps_modify.
  - unfold hyper4k_client_inflight_count. destruct n; [apply silent_ret|apply silent_load].
  - unfold hyper4k_client_paused_stream_count. destruct n; [apply silent_ret|].
    apply silent_bind; [apply silent_on_pool, silent_total_paused|]. intros n.
    apply silent_bind; [apply silent_on_tls_pool, silent_total_paused|intros ?; apply silent_ret].
  - induction l as [|i l IHl]; cbn [client_worker]; [apply silent_ret|].
    apply silent_bind; [apply silent_on_slot|intros _; exact IHl].
  - apply silent_stop_task.
  - apply silent_on_pool, silent_peer_closes.
  - apply silent_on_tls_pool, silent_peer_closes.
  - unfold shutdown_task. apply silent_bind; [|intros _; apply silent_shutdown_pools].
    apply silent_wait. intros t s s' r E. by case_match; simplify_eq.
Qed.

(** ** The network task *)

Section thread.
Context (t : nat).

#[local] Abbreviation cowns := (owns client_books t) (only parsing).

(** A routine of the pool of a request. *)
Lemma owns_on_job {A} j (d : A) (p : prog pool A) B m Q :
  (j_https j = true → cf_tls conf ≠ None) → owns pool_books t (λ _, B) p m Q →
  cowns (λ _ n, ∃ n0, n = lift (j_https j) n0 ∧ B n0) (on_job j d p) (lift (j_https j) m)
    (λ a n, ∃ n0, n = lift (j_https j) n0 ∧ Q a n0).
Proof.
  intros Hj. unfold on_job. destruct (j_https j).
  - specialize (Hj eq_refl). revert m. induction p as [a|T f k IH]; intros m Hp; simpl in *; [by exists m|].
    intros s F [Hb Ht Hjs]. destruct (c_tls_pool s) as [l|] eqn:El; [|by destruct Ht].
    specialize (Hp l (share true F) Ht). destruct (f t l) as [[l' r]|].
    + destruct Hp as (m' & Hb' & Hk). exists (lift true m'). split; [split; [exact Hb|exact Hb'|exact Hjs]|by apply IH].
    + by exists m.
  - clear Hj. revert m. induction p as [a|T f k IH]; intros m Hp; simpl in *; [by exists m|].
    intros s F [Hb Ht Hjs]. specialize (Hp (c_pool s) (share false F) Hb).
    destruct (f t (c_pool s)) as [[l' r]|].
    + destruct Hp as (m' & Hb' & Hk). exists (lift false m'). split; [split; [exact Hb'|exact Ht|exact Hjs]|by apply IH].
    + by exists m.
Qed.

(** The same for a routine that never waits, whoever is to wait where. *)
Lemma owns_on_job_never {A} j (d : A) (p : prog pool A) B m Q :
  (j_https j = true → cf_tls conf ≠ None) → owns pool_books t never p m Q →
  cowns B (on_job j d p) (lift (j_https j) m) (λ a n, ∃ n0, n = lift (j_https j) n0 ∧ Q a n0).
Proof.
  intros Hj Hp. eapply owns_mono; [| |apply (owns_on_job j d p (λ _, False) m Q Hj), Hp]; [|done].
  by intros s n (n0 & _ & []).
Qed.

Section slot.
Context (i : nat).

(** Where the task of slot [i] may wait: its future is not being dropped. *)
Definition undropped (s : client) : Prop := is_dropped i s = false.
#[local] Abbreviation town := (cowns (λ s _, undropped s)) (only parsing).

(** A future is dropped where it waits. *)
Lemma owns_until {A} (p : prog client A) B m Q :
  cowns (λ _, B) p m Q →
  town (until i p) m (λ r n, match r with Some a => Q a n | None => B n end).
Proof.
  revert m. induction p as [a|T f k IH]; intros m Hp; simpl in *; [done|].
  intros s F Hs. specialize (Hp s F Hs). destruct (f t s) as [[s' r]|].
  - destruct Hp as (m' & ? & ?). exists m'. split; [done|by apply IH].
  - unfold undropped. destruct (is_dropped i s); [|done]. by exists m.
Qed.

(** The task's own code outside of an await never waits. *)
Lemma owns_task_slot {A} (p : prog bridge A) m :
  keeps finished p → nowait p → town (on_slot task_of i p) m (λ _ n, n = m).
Proof.
  induction p as [a|T f k IH]; intros Hk Hw; cbn [on_slot]; [done|].
  destruct Hk as [Hf Hk], Hw as [Hw Hw']. intros s F Hs.
  destruct (c_slots s !! i) as [q|] eqn:Eq.
  2: { unfold undropped, is_dropped, why_dropped. by rewrite Eq. }
  specialize (Hw (local task_of i t) (r_bridge q)).
  destruct (f _ _) as [[b r]|] eqn:E; [|done]. rewrite (Hf _ _ _ _ E), andb_negb_r. cbn [fst snd].
  exists m. split; [by apply put_bridge_books|by apply IH].
Qed.

Definition task_holds (h : bool) (n0 : holding token) (n : holding (bool * token)) : Prop :=
  same n (lift h n0).

Lemma lift_same h m n : same m n → same (lift h m) (lift h n).
Proof. intros Hmn [h' k]. unfold lift. simpl. by rewrite Hmn. Qed.

Lemma lift_none h : same (lift h none) none.
Proof. intros [h' k]. unfold lift. simpl. by destruct (Bool.eqb h h'). Qed.

(** Working with a holding of a given size. *)
Lemma owns_as {A} (p : prog client A) h n0 n (Q : A → holding (bool * token) → Prop) :
  task_holds h n0 n → (∀ a n n', same n n' → Q a n → Q a n') →
  town p (lift h n0) Q → town p n Q.
Proof.
  intros Hn HQ Hp. eapply (owns_same _ client_books_same); [done|exact HQ| |exact Hp].
  intros k. by rewrite Hn.
Qed.

(** The result of [acquire] in a task. *)
Definition task_acquired (h : bool) (r : option (Hyper4kErrorKind + nat))
    (n : holding (bool * token)) : Prop :=
  match r with
  | Some (inr c) => task_holds h (one (Lease c Held)) n
  | _ => same n none
  end.

Lemma lift_acquired h r n0 n :
  same n (lift h n0) → acquired r n0 → task_acquired h (Some r) n.
Proof.
  intros Hn. destruct r as [e|c]; simpl; intros Ha k; rewrite Hn.
  - etrans; [by apply lift_same|apply lift_none].
  - by apply lift_same.
Qed.

Lemma task_acquired_same h r n n' : same n n' → task_acquired h r n → task_acquired h r n'.
Proof.
  intros Hn. unfold task_acquired, task_holds. repeat case_match; intros Ha k; rewrite <- Hn; apply Ha.
Qed.

Lemma owns_task_acquire j a :
  (j_https j = true → cf_tls conf ≠ None) →
  town (task_acquire conf i j a) (lift (j_https j) none) (task_acquired (j_https j)).
Proof.
  intros Hj. unfold task_acquire. set (h := j_https j) in *.
  eapply owns_bind; [apply owns_until, owns_on_job, owns_start_acquire; done|]. fold h.
  intros [[r|]|] n; cbv beta iota.
  - intros (n0 & -> & Ha). by eapply lift_acquired.
  - intros (n0 & -> & Hd).
    eapply owns_as with (n0 := one (Dial (j_key j))); [by apply lift_same|by apply task_acquired_same|].
    destruct (connect conf j a) as [dial|].
    + eapply owns_bind; [by apply owns_on_job_never, owns_finish_acquire|].
      intros r n (n1 & -> & Ha). by eapply lift_acquired.
    + eapply owns_bind with (N := λ _ n, n = lift h (one (Dial (j_key j)))).
      { apply owns_atomic. intros s F Hs. unfold undropped. destruct (is_dropped i s); [by eexists|done]. }
      intros _ ? ->. eapply owns_bind; [by apply owns_on_job_never, owns_unlock_dial|].
      intros _ n (n1 & -> & ->). apply lift_none.
  - intros (n0 & -> & Hn) k. etrans; [apply lift_same; intros ?; symmetry; apply Hn|apply lift_none].
Qed.

(** Giving the lease back, whatever comes next. *)
Lemma owns_drop {A} j c n (g : unit → prog client A) (Q : A → holding (bool * token) → Prop) :
  (j_https j = true → cf_tls conf ≠ None) → task_holds (j_https j) (one (Lease c Held)) n →
  (∀ a n n', same n n' → Q a n → Q a n') →
  town (g tt) none Q → town (pbind (on_job j tt (lease_drop c)) g) n Q.
Proof.
  intros Hj Hn HQ Hg. eapply owns_as; [exact Hn|done|].
  eapply owns_bind; [by apply owns_on_job_never, owns_lease_drop|].
  intros [] n' (n1 & -> & ->). eapply (owns_same _ client_books_same); [done|exact HQ| |exact Hg].
  intros k. symmetry. apply lift_none.
Qed.

Lemma owns_is_closed j c n :
  (j_https j = true → cf_tls conf ≠ None) → task_holds (j_https j) (one (Lease c Held)) n →
  town (on_job j true (lease_is_closed c)) n (λ _, task_holds (j_https j) (one (Lease c Held))).
Proof.
  intros Hj Hn. eapply owns_as; [exact Hn| |].
  { intros _ n1 n2 Hs Ht k. rewrite <- Hs. apply Ht. }
  eapply owns_post; [|apply owns_on_job_never; [done|apply owns_nowait]].
  - by intros b n' (n0 & -> & ->).
  - apply silent_is_closed.
  - by split.
Qed.

Lemma nowait_settle x d : nowait (settle x d).
Proof.
  assert (nowait (claim d)) by (split; [|done]; intros ? s; by destruct (state s =? RUNNING)).
  unfold settle, settle_slot, leave_pause, set_pause_guard, guard_drop, reschedule, schedule_slot,
    ex_schedule, add_permits_bump.
  nowait_tac.
Qed.

Lemma owns_pooled_loop j idem pol (env : list Round) budget :
  (j_https j = true → cf_tls conf ≠ None) →
  town (attempt_loop (T := pooled task_of conf i j) idem (deliver_response pol) env budget) none
    (λ _ n, same n none).
Proof.
  intros Hj.
  assert (HQ : ∀ (a : bool) (n n' : holding (bool * token)), same n n' → same n none → same n' none)
    by (intros _ n n' Hn Hs k; by rewrite <- Hn).
  assert (Hend : ∀ x (b : bool) n, same n none →
    town (on_slot task_of i (settle x true) ;; Ret b) n (λ _ n, same n none)).
  { intros x b n Hn. eapply owns_bind; [apply owns_task_slot; [apply settle_keeps_finished|apply nowait_settle]|].
    by intros _ ? ->. }
  assert (Huntil : ∀ {A} (p : prog bridge A) n, town (until i (on_slot task_of i p)) n (λ _ n', n' = n)).
  { intros A p n. eapply owns_post; [|apply (owns_until _ (λ n', n' = n) _ (λ _ n', n' = n)), owns_silent;
      [apply silent_on_slot|done]]. by intros [r|] ? ->. }
  revert budget. induction env as [|a env IH]; intros budget; cbn [attempt_loop].
  { eapply owns_bind; [apply Huntil|]. by intros _ ? ->. }
  eapply owns_bind.
  { eapply (owns_as _ (j_https j) none); [|apply task_acquired_same|by apply owns_task_acquire].
    intros k. symmetry. apply lift_none. }
  intros [[k|c]|] n Hn; [by apply Hend| |exact Hn]. simpl in Hn.
  eapply owns_bind; [by apply owns_is_closed|]. intros [|] n' Hn'.
  - apply owns_drop; [done|done|exact HQ|]. destruct (0 <? budget); [apply IH|by apply Hend].
  - eapply owns_bind; [apply Huntil|]. intros again ? ->. apply owns_drop; [done|done|exact HQ|].
    by destruct again as [[|]|]; [apply IH|..].
Qed.

(** Where a task may wait: it has not been spawned, or it is not being dropped. *)
Definition may_wait (s : client) : Prop :=
  undropped s ∨ ∀ q, c_slots s !! i = Some q → r_task q = None.

Lemma owns_network_task env :
  cowns (λ s _, may_wait s) (network_task task_of conf i env) none (λ _, same none).
Proof.
  unfold network_task. eapply owns_bind with (N := λ j n, n = none ∧ (j_https j = true → cf_tls conf ≠ None)).
  { apply owns_atomic. intros s F Hs. unfold may_wait. destruct (c_slots s !! i) as [q|] eqn:Eq; [|by right].
    destruct (r_task q) as [j|] eqn:Er; [|right; by intros ? [= <-]].
    exists none. split; [exact Hs|]. split; [done|]. exact (cb_jobs _ _ Hs i q j Eq Er). }
  intros j ? [-> Hj]. eapply owns_mono with (B := λ s _, undropped s); [by left|intros ??; exact id|].
  eapply owns_bind; [by apply owns_pooled_loop|]. intros ended n Hn.
  eapply (owns_same _ client_books_same) with (m := none); [done| |intros k; by rewrite Hn|].
  { intros _ n1 n2 Hs Hs1 k. rewrite <- Hs. apply Hs1. }
  destruct ended; [done|]. eapply owns_bind; [apply owns_nowait; [apply silent_load|apply nowait_load]|].
  intros [[|]|] ? ->; [done| |done]. eapply owns_post; [|apply owns_task_slot]; [by intros ? ? ->|..].
  - apply timed_out_keeps_finished.
  - unfold request_timed_out. destruct (Request.request_timeout _); [apply nowait_settle|done].
Qed.
End slot.
End thread.

(** ** Every reachable state of a client *)

(** The network tasks among the threads that were started. *)
Definition is_task (ts : list (prog client unit)) (t : nat) : Prop :=
  ∃ i env, ts !! t = Some (network_task task_of conf i env).

Lemma new_client_books : client_books (new_client conf) none.
Proof.
  split; [apply pool_books_new| |done]. simpl. destruct (cf_tls conf); [apply pool_books_new|done].
Qed.

(** Every task keeps the books; a thread that is known to be one of [sure] is
    taken as one. *)
Lemma reachable_client_books ts c (sure : nat → Prop) :
  (∀ t, sure t → ∃ i env, t = task_of i ∧ ts !! t = Some (network_task task_of conf i env)) →
  (∀ t, Decision (sure t)) →
  client_threads task_of conf threads_max request_max ts → reachable (Config (new_client conf) ts) c →
  books client_books (λ t s _, ∃ i, t = task_of i ∧ may_wait i s) (λ t, ¬ sure t) (is_task ts) c.
Proof.
  intros Hsure Hdec [_ Hts] Hr. eapply (reachable_books _ client_books_same); [exact Hr|].
  apply (books_start _ client_books_same); [apply new_client_books|]. intros t p Hp.
  assert (Htask : ∀ i env, t = task_of i → p = network_task task_of conf i env →
    is_task ts t ∧ owns client_books t (λ s _, ∃ i, t = task_of i ∧ may_wait i s) p none (λ _, same none)).
  { intros i env Ht ->. split; [by exists i, env|]. eapply owns_mono; [| |apply owns_network_task]; [|done].
    intros s n Hw. by exists i. }
  destruct (decide (sure t)) as [Hs|Hs].
  - right. destruct (Hsure t Hs) as (i & env & Ht & E). apply (Htask i env Ht). congruence.
  - destruct (Hts t p Hp) as [Hc|(i & env & Ht & E)]; [left|right; by apply (Htask i env)].
    split; [done|by eapply silent_client_program].
Qed.

(** C21: nothing of a pool leaks.  However requests are submitted, cancelled,
    timed out and closed, and wherever their tasks are aborted, once the network
    tasks of a client are over every connection of both its pools is at rest: no
    lease of it exists or is being dropped, its active count is zero, the sender
    of an HTTP/1 connection is back in its slot unless the connection was given
    up, and no dial lock is held. *)
Theorem no_lease_is_leaked ts c :
  client_threads task_of conf threads_max request_max ts → reachable (Config (new_client conf) ts) c →
  (∀ t, is_task ts t → finished_thread t c = true) →
  at_rest (c_pool (shared c)) ∧ ∀ p, c_tls_pool (shared c) = Some p → at_rest p.
Proof.
  intros Hts Hr Hover. pose proof (reachable_client_books ts c (λ _, False) ltac:(done) _ Hts Hr) as Hb.
  destruct (books_over _ client_books_same _ _ _ _ Hb) as [Hp Ht _]; [by left; apply Hover|].
  split; [by apply books_at_rest|]. intros p Ep. rewrite Ep in Ht. by apply books_at_rest.
Qed.

(** C23: a connection of a client serves one request at a time if it is HTTP/1:
    whatever its threads do, at any moment at most one lease of it exists, and
    none while its sender is in the pool. *)
Theorem client_connections_are_exclusive ts c s id e :
  client_threads task_of conf threads_max request_max ts → reachable (Config (new_client conf) ts) c →
  s = c_pool (shared c) ∨ c_tls_pool (shared c) = Some s →
  entries s !! id = Some e → is_h2 e = false →
  (out e ≤ 1)%nat ∧ (slot e = true → out e = 0%nat).
Proof.
  intros Hts Hr Hs He E2.
  destruct (books_hold _ _ _ _ _ (reachable_client_books ts c (λ _, False) ltac:(done) _ Hts Hr)) as [m [Hp Ht _]].
  assert (∃ n, pool_books s n) as [n Hb].
  { destruct Hs as [-> | Es]; [by eexists|]. rewrite Es in Ht. by eexists. }
  pose proof (pb_entries _ _ Hb id) as Hid. rewrite He in Hid.
  destruct (eb_h1 _ _ Hid E2) as [Hle _]. destruct (slot e); split; intros; try done; lia.
Qed.

(** C22: dropping a task takes effect.  A network task that was aborted, that
    timed out or whose runtime is gone is never stuck: wherever its future stands
    (waiting for the dial lock, for the connection, for the response, for room in
    the queue) it can go on, and as it runs no loop it ends; together with the
    above, after it everything it held has been given back. *)
Theorem dropped_task_never_waits ts c i env p q :
  Inj (=) (=) task_of → client_threads task_of conf threads_max request_max ts →
  reachable (Config (new_client conf) ts) c →
  ts !! task_of i = Some (network_task task_of conf i env) →
  threads c !! task_of i = Some p → c_slots (shared c) !! i = Some q →
  is_Some (r_task q) → is_Some (r_dropped q) →
  finished_thread (task_of i) c = true ∨ is_Some (pstep (task_of i) p (shared c)).
Proof.
  intros Hinj Hts Hr Ht Hp Hq [j Hj] [w Hw].
  destruct (pstep (task_of i) p (shared c)) as [x|] eqn:E; [by right; exists x|left].
  pose proof (reachable_client_books ts c (λ t, t = task_of i)
    ltac:(intros t ->; by exists i, env) _ Hts Hr) as Hb.
  destruct (books_wait _ client_books_same _ _ _ _ _ _ Hb Hp E) as [Hn|[Hf|(m & i' & Hi & Hm)]]; [done|done|].
  apply Hinj in Hi as <-. exfalso. destruct Hm as [Hu|Hu]; [|by rewrite (Hu q Hq) in Hj].
  unfold undropped, is_dropped, why_dropped in Hu. by rewrite Hq, Hw in Hu.
Qed.
End leases.

(** ** Witnesses *)

Import Client.Caller ClientSafety.Example3.

(** The request of the example has connected and has given the connection back. *)
Lemma no_lease_is_leaked_witness :
  at_rest (c_pool (shared final)) ∧ map_size (entries (c_pool (shared final))) = 1%nat.
Proof.
  split; [|vm_compute; reflexivity].
  refine (proj1 (no_lease_is_leaked task_of conf 3 bound ts final threads_ok client_final_reachable _)).
  intros t (i & env' & Ht). destruct t as [|[|[|t]]]; [vm_compute; reflexivity..|discriminate Ht].
Defined.

Lemma client_connections_are_exclusive_witness :
  ∃ e, entries (c_pool (shared final)) !! 1%nat = Some e ∧ slot e = true ∧ out e = 0%nat.
Proof.
  assert (match entries (c_pool (shared final)) !! 1%nat with
          | Some e => negb (is_h2 e) && slot e | None => false end = true) as F by (vm_compute; reflexivity).
  destruct (entries (c_pool (shared final)) !! 1%nat) as [e|] eqn:E; [|discriminate F].
  apply andb_true_iff in F as [F1 F2]. exists e. split; [reflexivity|]. split; [exact F2|].
  refine (proj2 (client_connections_are_exclusive task_of conf 3 bound ts final _ 1 e threads_ok
    client_final_reachable (or_introl eq_refl) E _) F2).
  destruct (is_h2 e); [discriminate F1|reflexivity].
Defined.

(** A request whose connection never answers; its timeout has fired. *)
Module Example7.
Definition ts : list (prog client unit) :=
  [hyper4k_client_send task_of conf args ;; Ret tt; stop_task 0 TimedOut ;; Ret tt;
   network_task task_of conf 0 []].
Definition start : config client := Config (new_client conf) ts.
Definition timed_out : config client := default start (exec (replicate 8 0 ++ [2; 1])%nat start).

Lemma timed_out_reachable : reachable start timed_out.
Proof.
  unfold timed_out. destruct (exec _ start) eqn:E; [by eapply exec_reachable|apply rtc_refl].
Qed.

Lemma timed_out_threads : client_threads task_of conf 3 bound ts.
Proof.
  split; [unfold ts; cbn [length]; lia|].
  intros t p Hp. destruct (lookup_three _ _ _ _ _ Hp) as [[-> ->]|[[-> ->]|[-> ->]]].
  - left. constructor; [apply args_small|constructor].
  - left. apply cp_stop. constructor.
  - right. by exists 0%nat, [].
Qed.
End Example7.

Lemma dropped_task_never_waits_witness :
  ∃ p, threads Example7.timed_out !! 2%nat = Some p ∧ finished_thread 2 Example7.timed_out = false ∧
    is_Some (pstep 2 p (shared Example7.timed_out)).
Proof.
  assert (match c_slots (shared Example7.timed_out) !! 0%nat with
          | Some q => bool_decide (is_Some (r_task q)) && bool_decide (is_Some (r_dropped q))
          | None => false end && negb (finished_thread 2 Example7.timed_out) = true) as F
    by (vm_compute; reflexivity).
  apply andb_true_iff in F as [F1 F2]. apply negb_true_iff in F2.
  destruct (c_slots (shared Example7.timed_out) !! 0%nat) as [q|] eqn:Eq; [|discriminate F1].
  apply andb_true_iff in F1 as [F3 F4]. apply bool_decide_eq_true_1 in F3, F4.
  destruct (threads Example7.timed_out !! 2%nat) as [p|] eqn:Ep.
  2: { exfalso. apply lookup_ge_None in Ep.
       assert (length (threads Example7.timed_out) = 3%nat) as El by (vm_compute; reflexivity). lia. }
  exists p. split; [reflexivity|]. split; [exact F2|].
  destruct (dropped_task_never_waits task_of conf 3 bound Example7.ts Example7.timed_out 0 [] p q)
    as [Hf|Hs].
  - intros x y E. by injection E.
  - exact Example7.timed_out_threads.
  - exact Example7.timed_out_reachable.
  - reflexivity.
  - exact Ep.
  - exact Eq.
  - exact F3.
  - exact F4.
  - exfalso. change (task_of 0) with 2%nat in Hf. rewrite F2 in Hf. discriminate Hf.
  - exact Hs.
Defined.
