(* ===== verification/Reservations.v ===== *)
(** * Every reservation is released once

    The books of the limits of a client: a reservation is in the hands of the
    thread that submits, then of the request, and then of the worker that runs
    the cleanup.  Dropping it never waits, and when callers and workers are
    between calls both counters are exactly what the unfinished requests have
    reserved. *)

From S2P Require Import Prelude Conc Ledger Abi Headers Text Uri Proxy Pool Tls Template Limits.
From S2P Require Import Retry Bridge Request BridgeSafety Client ClientSafety ClientRun.

Open Scope prog_scope.

(** A reservation of [b] bytes; a one that was added to [inflight] without a
    reservation; a byte that was added to [bytes_reserved] without one. *)
Inductive share := Bytes (b : Z) | Counted | Extra.

#[export] Instance share_eq_dec : EqDecision share.
Proof. solve_decision. Defined.

Lemma zsum_perm l l' : l ≡ₚ l' → zsum l' = zsum l.
Proof. induction 1; simpl; lia. Qed.

Lemma occ_remove x b l :
  b ∈ l → (occ x (remove_one b l) + (if decide (b = x) then 1 else 0) = occ x l)%nat.
Proof.
  induction l as [|y l IH]; intros Hb; [by apply elem_of_nil in Hb|]. simpl.
  destruct (Z.eqb_spec b y) as [->|Hne]; [lia|].
  apply elem_of_cons in Hb as [?|Hb]; [done|]. simpl. specialize (IH Hb). lia.
Qed.

(** ** The books of the limits *)

Record limit_books (l : counters) (m : holding share) : Prop := LimitBooks {
  lb_held b : occ b (held l) = m (Bytes b);
  lb_n : inflight l = wrap 32 (Z.of_nat (length (held l) + m Counted));
  lb_b : bytes_reserved l = wrap 64 (zsum (held l) + Z.of_nat (m Extra));
}.

Lemma limit_books_same l m n : same m n → limit_books l m → limit_books l n.
Proof. intros Hmn [H1 H2 H3]. split; [intros b|..]; by rewrite <- Hmn. Qed.

(** A submission under way: counted, and [b] bytes besides. *)
Definition added (b : Z) : holding share :=
  λ k, match k with Bytes _ => 0%nat | Counted => 1%nat | Extra => Z.to_nat b end.

Section thread.
Context (t : nat).
#[local] Abbreviation lowns := (owns limit_books t) (only parsing).

Definition never (l : counters) (n : holding share) : Prop := False.

Lemma owns_sub_inflight : lowns never sub_inflight (added 0) (λ _ n, n = none).
Proof.
  apply owns_atomic. intros s M [H1 H2 H3]. exists none. split; [|done]. split; simpl; [done| |done].
  unfold fetch_sub. rewrite H2, wrap_sub. unfold plus. simpl. f_equal. lia.
Qed.

Lemma owns_try_reserve limits b :
  0 ≤ b →
  lowns never (try_reserve limits b) none (λ ok n, n = if ok : bool then one (Bytes b) else none).
Proof.
  intros Hb. unfold try_reserve. eapply owns_bind with (N := λ _ n, n = added 0).
  { apply owns_atomic. intros s M [H1 H2 H3]. eexists. split; [|done]. split; simpl; [done| |done].
    unfold fetch_add. rewrite H2, wrap_add. unfold plus. simpl. f_equal. lia. }
  intros n ? ->. destruct (max_inflight limits <=? n).
  { eapply owns_bind; [apply owns_sub_inflight|]. by intros _ ? ->. }
  eapply owns_bind with (N := λ p n, n =
    if max_bytes limits <? wrap 64 (p + b) then added b else one (Bytes b)).
  { apply owns_atomic. intros s M [H1 H2 H3]. eexists. split; [|done].
    destruct (max_bytes limits <? wrap 64 (bytes_reserved s + b)); split; simpl; try done;
      unfold fetch_add, plus, one in *; simpl in *; rewrite ?H3, ?wrap_add.
    - f_equal. lia.
    - intros x. rewrite <- H1. destruct (decide (b = x)) as [->|Hne]; [by rewrite decide_True|].
      rewrite decide_False by congruence. done.
    - rewrite H2. f_equal. lia.
    - f_equal. lia. }
  intros p ? ->. destruct (max_bytes limits <? wrap 64 (p + b)); [|done].
  eapply owns_bind with (N := λ _ n, n = added 0).
  { apply owns_atomic. intros s M [H1 H2 H3]. eexists. split; [|done]. split; simpl; [done|done|].
    unfold fetch_sub. rewrite H3, wrap_sub. unfold plus. simpl. f_equal. lia. }
  intros [] ? ->. eapply owns_bind; [apply owns_sub_inflight|]. by intros _ ? ->.
Qed.

(** Dropping a reservation never waits. *)
Lemma owns_reservation_drop b :
  lowns never (reservation_drop b) (one (Bytes b)) (λ _ n, n = none).
Proof.
  unfold reservation_drop. eapply owns_bind with (N := λ _ n, n = added 0).
  2: { intros [] ? ->. apply owns_sub_inflight. }
  apply owns_atomic. intros s M [H1 H2 H3].
  assert (b ∈ held s) as Hin.
  { apply occ_in. rewrite H1. unfold plus, one. rewrite decide_True by done. lia. }
  rewrite decide_True by done. eexists. split; [|done].
  destruct (remove_one_spec b (held s) Hin) as (Hs & Hl & _).
  split; simpl; unfold plus, one in *; simpl in *.
  - intros x. pose proof (occ_remove x b (held s) Hin) as Ho. rewrite H1 in Ho.
    destruct (decide (b = x)) as [->|Hne]; [rewrite decide_True in Ho by done; lia|].
    rewrite decide_False in Ho by congruence. lia.
  - rewrite H2. f_equal. lia.
  - unfold fetch_sub. rewrite H3, wrap_sub, Hs. f_equal. lia.
Qed.
End thread.

(** ** The books of a client *)

Section client.
Context {H : HttpHeaders} {U : HttpUri} {M : HttpMethod} {R : Rustls}.
Context (task_of : nat → nat) (conf : ClientConf) (threads_max : nat) (request_max : Z).

(** The requests whose cleanup is still to run, and what they have reserved. *)
Definition unfinished (l : list request) : list request := List.filter (λ q, finished (r_bridge q)) l.
Definition owed (s : client) : list Z := map r_reserved (unfinished (c_slots s)).

Definition owing (s : client) : holding share :=
  λ k, match k with Bytes b => occ b (owed s) | _ => 0%nat end.

Definition res_books (s : client) (m : holding share) : Prop :=
  limit_books (c_limits s) (plus m (owing s)).

Lemma res_books_same s m n : same m n → res_books s m → res_books s n.
Proof. intros Hmn. apply limit_books_same. intros k. unfold plus. by rewrite Hmn. Qed.

#[local] Abbreviation csilent := (silent res_books) (only parsing).

(** A change that the books do not see. *)
Lemma res_books_step s s' m :
  c_limits s' = c_limits s → owed s' = owed s → res_books s m → res_books s' m.
Proof. unfold res_books, owing. by intros -> ->. Qed.

Definition seen (s : client) : counters * list Z := (c_limits s, owed s).

Lemma silent_seen {A} (p : prog client A) : keeps seen p → csilent p.
Proof.
  intros Hp. induction p as [|T f k IH]; [done|]. destruct Hp as [Hf Hk].
  intros t s s' r m Hs E. specialize (Hf t s s' r E). injection Hf as ? ?.
  split; [by eapply res_books_step|auto].
Qed.

Lemma keeps_seen {A} (p : prog client A) : keeps ccore p → csilent p.
Proof.
  intros Hp. apply silent_seen. induction p as [|T f k IH]; [done|]. destruct Hp as [Hf Hk].
  split; [|auto]. intros t s s' r E. specialize (Hf t s s' r E). injection Hf as Es _ _ El.
  unfold seen, owed. by rewrite Es, El.
Qed.

(** *** One slot *)

Definition owes (q : request) : list Z := if finished (r_bridge q) then [r_reserved q] else [].

Lemma unfinished_insert l i q q' b :
  l !! i = Some q →
  (occ b (map r_reserved (unfinished (<[i := q']> l))) + occ b (owes q) =
   occ b (map r_reserved (unfinished l)) + occ b (owes q'))%nat.
Proof.
  revert i. induction l as [|x l IH]; intros [|i] E; simpl in *; simplify_eq.
  - unfold owes. destruct (finished (r_bridge q)), (finished (r_bridge q')); simpl; lia.
  - specialize (IH i E). destruct (finished (r_bridge x)); simpl; lia.
Qed.

(** Storing a slot that did or did not take [finished]. *)
Lemma put_bridge_res i q b s m :
  c_slots s !! i = Some q → (finished b = true → finished (r_bridge q) = true) →
  res_books s m →
  res_books (put_bridge i q b s)
    (plus (if finished (r_bridge q) && negb (finished b) then one (Bytes (r_reserved q)) else none) m).
Proof.
  intros Hq Hb Hs. destruct (put_bridge_fields i q b s) as (Es & _ & El & _).
  unfold res_books. rewrite El. eapply limit_books_same; [|exact Hs]. intros k.
  unfold plus, owing, owed. rewrite Es. destruct k as [x| |].
  2, 3: by destruct (_ && _).
  pose proof (unfinished_insert (c_slots s) i q (q <| r_bridge := b |>) x Hq) as Ho.
  revert Ho. unfold owes. simpl. destruct (finished (r_bridge q)) eqn:E1, (finished b) eqn:E2; simpl;
    unfold none, one; [lia| |specialize (Hb eq_refl); congruence|lia].
  destruct (decide (r_reserved q = x)) as [->|Hne]; [rewrite decide_True by done; lia|].
  rewrite decide_False by congruence. lia.
Qed.

Section thread.
Context (t : nat).
#[local] Abbreviation cowns := (owns res_books t (λ _, same none)) (only parsing).

Lemma owns_on_limits {A} (p : prog counters A) m Q :
  owns limit_books t never p m Q → cowns (on_limits p) m Q.
Proof.
  revert m. induction p as [a|T f k IH]; intros m Hp; simpl in *; [done|].
  intros s F Hs. specialize (Hp (c_limits s) (plus F (owing s))).
  assert (Hassoc : ∀ n, same (plus n (plus F (owing s))) (plus (plus n F) (owing s)))
    by (intros n x; unfold plus; lia).
  destruct (f t (c_limits s)) as [[l r]|].
  - destruct Hp as (m' & Hb & Hk); [eapply limit_books_same; [|exact Hs]; intros x; by rewrite Hassoc|].
    exists m'. split; [|by apply IH]. eapply limit_books_same; [apply Hassoc|exact Hb].
  - destruct Hp. eapply limit_books_same; [|exact Hs]. intros x. by rewrite Hassoc.
Qed.

(** The cleanup never waits. *)
Lemma owns_cleanup q : cowns (cleanup q) (one (Bytes (r_reserved q))) (λ _ n, n = none).
Proof.
  eapply owns_bind; [apply owns_on_limits, owns_reservation_drop|]. intros [] ? ->.
  eapply owns_post; [|apply owns_nowait]; [by intros ? ? ->|by apply silent_seen, keeps_modify|by split].
Qed.

(** A routine of a request holds nothing where it waits. *)
Lemma owns_on_slot {A} i (p : prog bridge A) :
  steps_in finished_step p → cowns (on_slot task_of i p) none (λ _ n, n = none).
Proof.
  induction p as [a|T f k IH]; intros Hp; cbn [on_slot]; [done|]. destruct Hp as [Hf Hk].
  intros s F Hs. destruct (c_slots s !! i) as [q|] eqn:Eq; [|done].
  destruct (f _ _) as [[b r]|] eqn:E; [|done].
  pose proof (put_bridge_res i q b s (plus none F) Eq (Hf _ _ _ _ E) Hs) as Hb.
  destruct (_ && _); cbn [fst snd].
  - exists (one (Bytes (r_reserved q))). split; [by eapply res_books_same; [|exact Hb]|].
    eapply owns_bind; [apply owns_cleanup|]. intros [] ? ->. by apply IH.
  - exists none. split; [by eapply res_books_same; [|exact Hb]|by apply IH].
Qed.

(** *** Submitting *)

Lemma owns_enter id a j :
  cowns (enter_and_spawn conf id a j) (one (Bytes (reserve_bytes conf j))) (λ _ n, n = none).
Proof.
  apply owns_atomic. intros s F Hs. exists none. split; [|done]. unfold res_books.
  eapply limit_books_same; [|exact Hs]. intros k. unfold plus, owing, owed, unfinished. simpl.
  rewrite List.filter_app, map_app. destruct k as [b| |]; [|done..]. rewrite occ_app. simpl. unfold one, none.
  destruct (decide (reserve_bytes conf j = b)) as [->|Hne]; [rewrite decide_True by done; lia|].
  rewrite decide_False by congruence. lia.
Qed.

(** A part that the books do not see. *)
Lemma owns_seen {A C} (p : prog client A) (g : A → prog client C) Q :
  csilent p → (∀ a, cowns (g a) none Q) → cowns (pbind p g) none Q.
Proof.
  intros Hp Hg. eapply owns_bind; [by apply owns_silent|]. intros a ? ->. apply Hg.
Qed.

Lemma spawn_task_seen i j : csilent (spawn_task i j).
Proof.
  apply silent_modify. intros s m. apply res_books_step; [done|]. unfold owed. simpl.
  generalize (c_slots s). intros l. clear s. revert i.
  induction l as [|x l IH]; intros i; [done|]. destruct i as [|i]; simpl.
  - by destruct (finished (r_bridge x)).
  - specialize (IH i). destruct (finished (r_bridge x)); simpl; [f_equal|]; exact IH.
Qed.

Lemma stop_task_seen i why : csilent (stop_task i why).
Proof.
  apply silent_atomic. intros t0 s s' r m Hs E. destruct (c_slots s !! i) as [q|] eqn:Eq; [|done].
  destruct (can_stop why q s && _); simplify_eq. unfold res_books.
  eapply limit_books_same; [|exact Hs]. intros [b| |]; [|done..]. unfold plus, owing, owed. simpl.
  pose proof (unfinished_insert (c_slots s) i q (q <| r_dropped := Some why |>) b Eq) as Ho.
  unfold owes in Ho. simpl in Ho. lia.
Qed.

Lemma owns_send a : cowns (hyper4k_client_send task_of conf a) none (λ _ n, n = none).
Proof.
  unfold hyper4k_client_send. destruct (read_request a) as [st|r]; [done|].
  apply owns_seen; [apply silent_load|]. intros [|]; [done|].
  destruct (prepare conf (a_mem a) r) as [st| |j]; [done|by intros s F _|].
  apply owns_seen; [by apply silent_seen, keeps_fetch|]. intros id.
  eapply owns_bind; [apply owns_on_limits, owns_try_reserve; unfold reserve_bytes; lia|].
  intros [|] ? ->; [|done]. cbn [negb]. eapply owns_bind; [apply owns_enter|]. intros i ? ->.
  apply owns_seen; [by apply silent_seen, keeps_modify|]. intros _.
  apply owns_seen; [apply spawn_task_seen|]. intros _.
  eapply owns_bind; [apply owns_on_slot|by intros _ ? ->].
  apply keeps_finished_step. by apply keeps_modify.
Qed.

Lemma owns_lookup {A} id (g : option nat → prog client A) Q :
  (∀ h, cowns (g h) none Q) → cowns (h <- get_request id ;; g h) none Q.
Proof. intros Hg. apply owns_seen; [apply silent_load|exact Hg]. Qed.

Lemma owns_close n : cowns (hyper4k_client_close task_of n) none (λ _ n, n = none).
Proof.
  unfold hyper4k_client_close. destruct n; [done|].
  apply owns_seen; [by apply silent_seen, keeps_modify|]. intros _.
  apply owns_seen; [apply silent_load|]. intros ids.
  eapply owns_bind with (N := λ _ n, n = none).
  - induction ids as [|id ids IH]; cbn [close_all]; [done|]. apply owns_lookup. intros [i|].
    + eapply owns_bind; [apply owns_on_slot, keeps_finished_step, settle_keeps_finished|].
      intros [] ? ->. exact IH.
    + exact IH.
  - intros [] ? ->. eapply owns_post; [|apply owns_nowait]; [by intros ? ? ->|by apply silent_seen, keeps_modify|by split].
Qed.

Lemma owns_quiet {A} (p : prog client A) : csilent p → cowns p none (λ _ n, n = none).
Proof. intros Hp. by apply owns_silent. Qed.

Lemma owns_client_program p :
  client_program task_of conf request_max p → cowns p none (λ _, same none).
Proof.
  induction 1; [done|..]; (eapply owns_bind with (N := λ _ n, n = none); [|intros ? ? ->; exact IHclient_program]).
  - apply owns_send.
  - unfold hyper4k_client_cancel. destruct n; [done|]. apply owns_lookup. intros [i|]; [|done].
    apply owns_on_slot, keeps_finished_step, cancel_keeps_finished.
  - unfold hyper4k_client_resume. destruct n; [done|]. apply owns_lookup. intros [i|]; [|done].
    apply owns_on_slot, keeps_finished_step, resume_keeps_finished.
  - apply owns_close.
  - unfold hyper4k_client_free. destruct n; [done|]. eapply owns_bind; [apply owns_close|]. intros [] ? ->.
    apply owns_seen; [apply keeps_seen, keeps_wait|]. intros _.
    apply owns_seen; [apply keeps_seen, keeps_shutdown_pools|]. intros _.
    by apply owns_quiet, silent_seen, keeps_modify.
  - unfold hyper4k_client_inflight_count. destruct n; [done|]. apply owns_quiet, silent_load.
  - unfold hyper4k_client_paused_stream_count. destruct n; [done|].
    apply owns_quiet, keeps_seen, keeps_bind; [apply keeps_on_pool|]. intros ?.
    apply keeps_bind; [apply keeps_on_tls_pool|done].
  - induction l as [|i l IHl]; cbn [client_worker]; [done|].
    eapply owns_bind; [apply owns_on_slot, turn_takes_finished|]. intros [] ? ->. exact IHl.
  - apply owns_quiet. apply stop_task_seen.
  - apply owns_quiet, keeps_seen, keeps_on_pool.
  - apply owns_quiet, keeps_seen, keeps_on_tls_pool.
  - apply owns_seen; [|intros _; apply owns_quiet, keeps_seen, keeps_shutdown_pools].
    apply keeps_seen. split; [|done]. intros t' s s' r E. destruct (c_shutdowns s); by simplify_eq.
Qed.
End thread.

(** *** The network task does not touch the limits *)

Lemma silent_on_slot_keeps {A} i (p : prog bridge A) :
  keeps finished p → csilent (on_slot task_of i p).
Proof.
  induction p as [a|T f k IH]; intros Hp; cbn [on_slot]; [done|]. destruct Hp as [Hf Hk].
  intros t s s' r m Hs E. destruct (c_slots s !! i) as [q|] eqn:Eq; [|done].
  destruct (f _ _) as [[b r']|] eqn:Ef; simplify_eq. specialize (Hf _ _ _ _ Ef).
  pose proof (put_bridge_res i q b s m Eq ltac:(by rewrite Hf) Hs) as Hb.
  rewrite Hf, andb_negb_r in *. cbn [fst snd]. split; [by eapply res_books_same; [|exact Hb]|by apply IH].
Qed.

Lemma silent_until {A} i (p : prog client A) : csilent p → csilent (until i p).
Proof.
  induction p as [a|T f k IH]; simpl; [done|]. intros Hp t s s' r m Hs E. specialize (Hp t s).
  destruct (f t s) as [[s1 r1]|].
  - injection E as <- <-. destruct (Hp s1 r1 m Hs eq_refl). split; [done|by apply IH].
  - destruct (is_dropped i s); [|done]. injection E as <- <-. done.
Qed.

Lemma silent_network_task i env : csilent (network_task task_of conf i env).
Proof.
  assert (Hs : ∀ x, csilent (on_slot task_of i (settle x true)))
    by (intros x; apply silent_on_slot_keeps, settle_keeps_finished).
  unfold network_task. apply silent_bind; [apply keeps_seen, keeps_wait_task|]. intros j.
  apply silent_bind.
  - generalize (policy_max_retries (j_policy j)). induction env as [|a env IH]; intros budget; cbn [attempt_loop].
    { apply silent_bind; [|done]. apply silent_until, silent_on_slot_keeps. by split. }
    apply silent_bind; [apply keeps_seen, keeps_task_acquire|].
    intros [[e|c]|]; [apply silent_bind; [apply Hs|done]| |done].
    apply silent_bind; [apply keeps_seen, keeps_on_job|]. intros [|].
    + apply silent_bind; [apply keeps_seen, keeps_on_job|]. intros _.
      destruct (0 <? budget); [apply IH|apply silent_bind; [apply Hs|done]].
    + apply silent_bind; [apply silent_until, silent_on_slot_keeps, attempt_keeps_finished|].
      intros again. apply silent_bind; [apply keeps_seen, keeps_on_job|]. intros _.
      by destruct again as [[|]|]; [apply IH|..].
  - intros [|]; [done|]. apply silent_bind; [apply silent_load|]. intros [[|]|]; [done| |done].
    apply silent_on_slot_keeps, timed_out_keeps_finished.
Qed.

(** ** Every reachable state of a client *)

(** The threads that were started to do something else. *)
Definition is_caller (ts : list (prog client unit)) (t : nat) : Prop :=
  ∃ p, ts !! t = Some p ∧ client_program task_of conf request_max p.

Lemma reachable_res_books ts c :
  client_threads task_of conf threads_max request_max ts → reachable (Config (new_client conf) ts) c →
  books res_books (λ _ _, same none) (λ _, True) (is_caller ts) c.
Proof.
  intros [_ Hts] Hr. eapply (reachable_books _ res_books_same); [exact Hr|].
  apply (books_start _ res_books_same); [by split|]. intros t p Hp.
  destruct (Hts t p Hp) as [Hc|(i & env & -> & ->)]; [right|left; split; [done|apply silent_network_task]].
  split; [by exists p|by apply owns_client_program].
Qed.

(** C25: the limits are exact.  Whenever the callers and workers of a client are
    between calls or wait (its network tasks may be anywhere), the reservations
    that exist are exactly those of the requests that have not had their cleanup,
    [inflight] is their number and [bytes_reserved] their sum: none was lost and
    none was released twice, however submissions, refusals, completions, cancels
    and closes raced. *)
Theorem reservations_are_exact ts c :
  0 ≤ request_max ∧ 0 ≤ max_inflight (cf_limits conf) ∧ 0 ≤ max_bytes (cf_limits conf) ∧
  max_inflight (cf_limits conf) + Z.of_nat (S threads_max) < 2 ^ 32 ∧
  max_bytes (cf_limits conf) + Z.of_nat (S threads_max) * request_max < 2 ^ 64 →
  client_threads task_of conf threads_max request_max ts → reachable (Config (new_client conf) ts) c →
  (∀ t p, is_caller ts t → threads c !! t = Some p → pstep t p (shared c) = None) →
  held (c_limits (shared c)) ≡ₚ owed (shared c) ∧
  inflight (c_limits (shared c)) = Z.of_nat (length (unfinished (c_slots (shared c)))) ∧
  bytes_reserved (c_limits (shared c)) = zsum (owed (shared c)).
Proof.
  intros Hw Hts Hr Hrest.
  pose proof (reachable_client_inv task_of conf threads_max request_max Hw ts c Hts Hr) as Hi.
  destruct (limits_inv_bounds _ _ _ Hw _ (ci_limits _ _ _ _ Hi)) as (Hn & Hb & _).
  pose proof (zsum_nonneg _ (li_held _ _ _ _ (ci_limits _ _ _ _ Hi))) as Hp.
  assert (res_books (shared c) none) as [H1 H2 H3].
  { eapply (books_over _ res_books_same); [by apply (reachable_res_books ts)|].
    intros t p Ht Hc. right. split; [by apply (Hrest t)|done]. }
  assert (held (c_limits (shared c)) ≡ₚ owed (shared c)) as Hperm by (apply occ_perm; exact H1).
  assert (length (unfinished (c_slots (shared c))) = length (held (c_limits (shared c)))) as El.
  { rewrite Hperm. unfold owed. by rewrite length_map. }
  assert (zsum (owed (shared c)) = zsum (held (c_limits (shared c)))) as Es.
  { by apply zsum_perm. }
  simpl in H2, H3. unfold plus, none in H2, H3. simpl in H2, H3. split_and!; [done| |].
  - rewrite H2, El. rewrite wrap_id by (split; lia). lia.
  - rewrite H3, Es. rewrite wrap_id by (split; lia). lia.
Qed.
End client.

(** ** Witness: a request whose connection never answers *)

Import Client.Caller ClientSafety.Example3.

Module Example5.
Definition ts : list (prog client unit) :=
  [hyper4k_client_send task_of conf args ;; Ret tt; client_worker task_of [0%nat] ;; Ret tt;
   network_task task_of conf 0 []].
Definition start : config client := Config (new_client conf) ts.
Definition hanging : config client := default start (exec (replicate 8 0%nat ++ [2%nat]) start).

Lemma hanging_reachable : reachable start hanging.
Proof.
  unfold hanging. destruct (exec _ start) eqn:E; [by eapply exec_reachable|apply rtc_refl].
Qed.

Lemma hanging_threads : client_threads task_of conf 3 bound ts.
Proof.
  split; [unfold ts; cbn [length]; lia|].
  intros t p Hp. destruct (lookup_three _ _ _ _ _ Hp) as [[-> ->]|[[-> ->]|[-> ->]]].
  - left. constructor; [apply args_small|constructor].
  - left. apply (cp_worker task_of conf bound [0%nat]). constructor.
  - right. by exists 0%nat, [].
Qed.
End Example5.
Import Example5.

Lemma reservations_are_exact_witness :
  inflight (c_limits (shared hanging)) = 1 ∧
  inflight (c_limits (shared hanging)) = Z.of_nat (length (unfinished (c_slots (shared hanging)))).
Proof.
  split; [vm_compute; reflexivity|].
  refine (proj1 (proj2 (reservations_are_exact task_of conf 3 bound Example5.ts hanging wide hanging_threads
    hanging_reachable _))).
  intros t p _. revert t p. apply (quiescent_test hanging). vm_compute. reflexivity.
Defined.
