(* ===== verification/Served.v ===== *)
(** * A request from end to end

    [hyper4k_client_send], the network task over the pool and the connector, and
    one turn of a worker, each run to its end: what the three leave behind when
    the origin accepts the connection and answers in full. *)

From S2P Require Import Prelude Conc Abi Headers Text Uri Proxy Pool PoolFacts Tls Template Limits.
From S2P Require Import Retry Bridge Request BridgeSafety BridgeRun Client ClientRun.

Open Scope prog_scope.

(** ** Dialling, without interference *)

(** What a pool is after a first connection for [key] was made and leased, and
    after the lease has been dropped. *)
Definition dialled (key : PoolKey) (e : ConnEntry) (p : pool) : pool :=
  p <| entries ::= insert (next_entry p) e |> <| next_entry ::= S |>
    <| conns ::= insert key [next_entry p] |> <| dial_locks ::= insert key None |>.

(** The entry while its first lease is held. *)
Definition first_lease (h2 : bool) : ConnEntry :=
  (new_entry h2) <| slot := false |> <| out := 1%nat |> <| active := 1 |>.

Definition lock_free (p : pool) (key : PoolKey) : Prop :=
  dial_locks p !! key = None ∨ dial_locks p !! key = Some None.

Lemma run_start_dial t max cap key p :
  closed p = false → conns p !! key = None → lock_free p key → 0 < max →
  run t (start_acquire max cap key) p = Some (p <| dial_locks ::= insert key (Some t) |>, None).
Proof.
  intros Hc Hk Hl Hm. unfold start_acquire, reuse, lock_dial, check_locked. simpl. rewrite Hc. simpl.
  rewrite Hk. simpl. assert (match dial_locks p !! key with
    | Some (Some _) => None
    | _ => Some (p <| dial_locks ::= insert key (Some t) |>, tt) end =
    Some (p <| dial_locks ::= insert key (Some t) |>, tt)) as E by (by destruct Hl as [-> | ->]).
  simpl in E. rewrite E. simpl. rewrite Hk. simpl. rewrite Hk. simpl.
  rewrite (proj2 (Z.leb_gt max 0)) by done. simpl. by rewrite Hc.
Qed.

Lemma run_finish_dial t key h2 p :
  conns p !! key = None →
  run t (finish_acquire key (inr h2)) p = Some (dialled key (first_lease h2) p, inr (next_entry p)).
Proof.
  intros Hk. unfold finish_acquire, add_connection, take_lease, on_entry. simpl. rewrite Hk, lookup_insert_eq.
  destruct h2; simpl; unfold dialled, upd; simpl; do 3 f_equal; destruct p; simpl; f_equal; apply map_eq; intros i;
    destruct (decide (next_entry = i)) as [<-|]; rewrite ?lookup_alter_eq, ?lookup_insert_eq, ?lookup_alter_ne,
    ?lookup_insert_ne by done; done.
Qed.

Lemma run_lease_drop t key h2 p :
  run t (lease_drop (next_entry p)) (dialled key (first_lease h2) p) =
    Some (dialled key (new_entry h2) p, tt).
Proof.
  unfold lease_drop, dialled. simpl. rewrite lookup_insert_eq. simpl. rewrite lookup_insert_eq. simpl.
  do 2 f_equal. destruct p; simpl; unfold upd; simpl. f_equal. apply map_eq. intros i.
  destruct (decide (next_entry = i)) as [<-|]; rewrite ?lookup_alter_eq, ?lookup_insert_eq, ?lookup_alter_ne,
    ?lookup_insert_ne by done; [|done]. by destruct h2.
Qed.

Lemma run_is_closed t key h2 p :
  run t (lease_is_closed (next_entry p)) (dialled key (first_lease h2) p) =
    Some (dialled key (first_lease h2) p, false).
Proof. unfold lease_is_closed, load_entry, dialled. simpl. by rewrite lookup_insert_eq. Qed.

(** ** The parts of a client, without interference *)

Section served.
Context {H : HttpHeaders} {U : HttpUri} {M : HttpMethod} {R : Rustls}.
Context (task_of : nat → nat) (conf : ClientConf).

(** The pool of a scheme. *)
Definition pool_of (https : bool) (s : client) : option pool :=
  if https then c_tls_pool s else Some (c_pool s).
Definition set_pool (https : bool) (p : pool) (s : client) : client :=
  if https then s <| c_tls_pool := Some p |> else s <| c_pool := p |>.

Lemma run_on_job {A} t j (d : A) (p : prog pool A) s l :
  pool_of (j_https j) s = Some l →
  run t (on_job j d p) s =
  match run t p l with
  | Some (l', a) => Some (set_pool (j_https j) l' s, a)
  | None => None
  end.
Proof.
  unfold on_job, pool_of, set_pool. destruct (j_https j).
  - revert s l. induction p as [a|T f k IH]; intros s l El; simpl; [destruct s; simpl in *; by subst|].
    rewrite El. destruct (f t l) as [[l1 r]|]; [|done]. rewrite (IH r _ l1) by done. simpl.
    by destruct (run t (k r) l1) as [[]|].
  - revert s l. induction p as [a|T f k IH]; intros s l [= <-]; simpl; [by destruct s|].
    destruct (f t (c_pool s)) as [[l1 r]|]; [|done]. rewrite (IH r _ l1) by done. simpl.
    by destruct (run t (k r) l1) as [[]|].
Qed.

(** A future that runs to its end is not interrupted. *)
Lemma run_until {A} t i (p : prog client A) s s' a :
  run t p s = Some (s', a) → run t (until i p) s = Some (s', Some a).
Proof.
  revert s. induction p as [b|T f k IH]; intros s E; simpl in *; [by simplify_eq|].
  destruct (f t s) as [[s1 r]|]; [by apply IH|done].
Qed.

(** *** The pool *)

(** A client that can make a first connection for a request. *)
Record can_dial (j : Job) (a : Round) (h2 : bool) (l : pool) : Prop := CanDial {
  cd_open : closed l = false;
  cd_new : conns l !! j_key j = None;
  cd_lock : lock_free l (j_key j);
  cd_connect : connect conf j a = Some (inr h2);
}.

Lemma dialled_over_lock key x e p :
  dialled key e (p <| dial_locks ::= insert key x |>) = dialled key e p.
Proof. unfold dialled. destruct p; simpl; unfold upd; simpl. f_equal. apply insert_insert_eq. Qed.

Lemma set_pool_twice h p p' s : set_pool h p (set_pool h p' s) = set_pool h p s.
Proof. by destruct h. Qed.

Lemma pool_of_set h p s : pool_of h (set_pool h p s) = Some p.
Proof. by destruct h. Qed.

Lemma run_task_acquire t i j a h2 s l :
  pool_of (j_https j) s = Some l → can_dial j a h2 l →
  run t (task_acquire conf i j a) s =
    Some (set_pool (j_https j) (dialled (j_key j) (first_lease h2) l) s, Some (inr (next_entry l))).
Proof.
  intros Hl [Ho Hn Hk Hc]. unfold task_acquire.
  rewrite run_bind, (run_until t i _ s (set_pool (j_https j) (l <| dial_locks ::= insert (j_key j) (Some t) |>) s) None).
  2: { rewrite (run_on_job t j _ _ s l) by done. by rewrite run_start_dial. }
  cbv iota. rewrite Hc, run_bind, (run_on_job t j _ _ _ _ (pool_of_set _ _ _)).
  rewrite run_finish_dial by done. rewrite set_pool_twice, dialled_over_lock. done.
Qed.

Lemma pool_of_counts h s l : counts_ok s → pool_of h s = Some l → pool_counts l.
Proof. intros [Hp Ht]. destruct h; simpl; [apply Ht|by intros [= <-]]. Qed.

Lemma set_pool_counts h p s : counts_ok s → pool_counts p → counts_ok (set_pool h p s).
Proof. intros [Hp Ht] Hc. destruct h; split; simpl; try done. by intros p' [= <-]. Qed.

Lemma dialled_counts key h2 p : pool_counts p → pool_counts (dialled key (first_lease h2) p).
Proof.
  intros Hp id e. simpl. intros [[<- <-]|[_ He]]%lookup_insert_Some; [|by apply (Hp id)]. done.
Qed.

(** *** The network task *)

Lemma run_attempt t idem pol r c budget b :
  complete_body (resp_body r) → state b = RUNNING → paused b = false → scheduled b = false →
  queue b = [] → (length (response_events r) ≤ space b)%nat →
  ∃ b', run t (attempt idem (deliver_response pol) true (Some (inr r)) c budget) b = Some (b', false) ∧
    response_queued b (response_events r) b'.
Proof.
  intros Hb Hs Hp Hsc Hq Hn. set (b1 := b <| conn := Some c |> <| sends ::= (λ l, l ++ [(c, false)]) |>).
  destruct (run_deliver_response t pol r b1) as (b' & E & Hb'); [done..|].
  exists b'. split; [|by destruct Hb'; split].
  unfold attempt, bind_connection, try_send_request. simpl. rewrite run_bind.
  subst b1. simpl in E. rewrite E. done.
Qed.

(** Storing a slot that shares as much of the counts as before. *)
Lemma put_bridge_queued i q es b s :
  response_queued (r_bridge q) es b →
  put_bridge i q b s = s <| c_slots ::= insert i (q <| r_bridge := b |>) |>.
Proof.
  intros Hb. rewrite put_bridge_same by apply Hb. rewrite (rq_counter _ _ _ Hb).
  destruct s; unfold upd; simpl. f_equal. lia.
Qed.

Definition fresh_slot (r : Response) (b : bridge) : Prop :=
  state b = RUNNING ∧ paused b = false ∧ scheduled b = false ∧ queue b = [] ∧
  (length (response_events r) ≤ space b)%nat.

(** Acquiring leases connection [c]; the pool is [p1] while the lease is held and
    [p2] after it has been dropped. *)
Record leasing (j : Job) (a : Round) (l p1 p2 : pool) (c : nat) : Prop := Leasing {
  ls_acquire t i s : pool_of (j_https j) s = Some l →
    run t (task_acquire conf i j a) s = Some (set_pool (j_https j) p1 s, Some (inr c));
  ls_open t : run t (lease_is_closed c) p1 = Some (p1, false);
  ls_drop t : run t (lease_drop c) p1 = Some (p2, tt);
  ls_counts : pool_counts l → pool_counts p1 ∧ pool_counts p2;
}.

Lemma leasing_new j a h2 l :
  can_dial j a h2 l →
  leasing j a l (dialled (j_key j) (first_lease h2) l) (dialled (j_key j) (new_entry h2) l) (next_entry l).
Proof.
  intros Hd. split; intros; [by apply run_task_acquire|apply run_is_closed|apply run_lease_drop|].
  split; [by apply dialled_counts|]. intros id e. simpl.
  intros [[<- <-]|[_ He]]%lookup_insert_Some; [done|by eauto].
Qed.

(** A connection that can be leased: the first of its key that is alive, below the
    cap of paused requests and, for HTTP/1, idle. *)
Record available (l : pool) (key : PoolKey) (c : nat) : Prop := Available {
  av_open : closed l = false;
  av_list : ∃ front back, conns l !! key = Some (front ++ c :: back) ∧
    Forall (λ i, eligible_now DEFAULT_PAUSED_CAP l i = false) front;
  av_entry : eligible_now DEFAULT_PAUSED_CAP l c = true;
  av_active e : entries l !! c = Some e → in_width 32 (active e);
}.


Lemma run_network_task t i j a r s q l p1 p2 c :
  c_slots s !! i = Some q → r_task q = Some j → counts_ok s →
  pool_of (j_https j) s = Some l → leasing j a l p1 p2 c → is_Some (build (j_template j)) →
  rd_sent a = Some (inr r) → complete_body (resp_body r) → fresh_slot r (r_bridge q) →
  ∃ b, run t (network_task task_of conf i [a]) s =
      Some (set_pool (j_https j) p2 (s <| c_slots ::= insert i (q <| r_bridge := b |>) |>), tt) ∧
    response_queued (r_bridge q) (response_events r) b.
Proof.
  intros Hq Hj Hc Hl [Hacq Hopen Hdrop Hcounts] [rq Hbuild] Hr Hbody (F1 & F2 & F3 & F4 & F5).
  destruct (run_attempt (local task_of i t) (is_idempotent (method_as_str (t_method (j_template j))))
    (j_policy j) r c (policy_max_retries (j_policy j)) (r_bridge q)) as (b & Eb & Hb); [done..|].
  exists b. split; [|done]. unfold network_task.
  assert (run t (wait_task i) s = Some (s, j)) as Ew by (simpl; by rewrite Hq, Hj).
  rewrite (run_bind_Some _ _ _ _ _ _ Ew). cbn [attempt_loop]. unfold tr_acquire, tr_is_closed, tr_until,
    tr_drop, tr_built, tr_sent, pooled. rewrite Hbuild, Hr.
  set (s1 := set_pool (j_https j) p1 s).
  assert (Hl1 : pool_of (j_https j) s1 = Some p1) by apply pool_of_set.
  set (s2 := s1 <| c_slots ::= insert i (q <| r_bridge := b |>) |>).
  assert (Hl2 : pool_of (j_https j) s2 = Some p1) by (unfold s2, s1; by destruct (j_https j)).
  rewrite run_bind, (run_bind_Some _ _ _ _ s1 (Some (inr c))) by (by apply Hacq).
  cbv beta iota.
  rewrite (run_bind_Some _ _ _ _ s1 false).
  2: { rewrite (run_on_job t j _ _ _ _ Hl1), Hopen. unfold s1. by rewrite set_pool_twice. }
  cbv iota. rewrite (run_bind_Some _ _ _ _ s2 (Some false)).
  2: { apply run_until. rewrite (run_on_slot_keeps task_of t i _ s1 q); [|apply attempt_keeps_finished| |].
       - rewrite Eb. by rewrite (put_bridge_queued _ _ _ _ _ Hb).
       - apply set_pool_counts; [done|]. by eapply Hcounts, pool_of_counts.
       - unfold s1. by destruct (j_https j). }
  rewrite (run_bind_Some _ _ _ _ (set_pool (j_https j) p2 s2) tt).
  2: { by rewrite (run_on_job t j _ _ _ _ Hl2), Hdrop. }
  simpl. unfold s2, s1. by destruct (j_https j).
Qed.

(** ** The whole request *)

(** One turn of a worker on a request whose response is queued: the callbacks,
    the reservation given back, the id gone from the registry. *)
Lemma run_worker t i q b0 es b m s :
  counts_ok s → c_slots s !! i = Some q → r_bridge q = b → response_queued b0 es b →
  running b0 = false → has_on_chunk b0 = true → finished b0 = true → calls b0 = [] → counter b0 = 1 →
  script b0 = replicate m HYPER4K_CHUNK_CONTINUE → (length es ≤ SLICE)%nat → (length es ≤ m)%nat →
  r_reserved q ∈ held (c_limits s) →
  ∃ s' b', run t (client_worker task_of [i]) s = Some (s', tt) ∧
    c_slots s' = <[i := q <| r_bridge := b' |>]> (c_slots s) ∧
    calls b' = map OnEvent es ++ [OnDone None] ∧
    c_requests s' = delete (r_id q) (c_requests s) ∧ c_bridges s' = c_bridges s - 1 ∧
    inflight (c_limits s') = fetch_sub 32 (inflight (c_limits s)) 1 ∧
    bytes_reserved (c_limits s') = fetch_sub 64 (bytes_reserved (c_limits s)) (r_reserved q) ∧
    held (c_limits s') = remove_one (r_reserved q) (held (c_limits s)) ∧
    c_pool s' = c_pool s ∧ c_tls_pool s' = c_tls_pool s.
Proof.
  intros Hc Hq <- Hb Hrun Hon Hfin Hcalls Hcnt Hscr Hlen Hm Hres.
  destruct (run_turn_delivers (local task_of i t) b0 es (r_bridge q) m Hb)
    as (b' & E & C1 & C2 & C3 & C4); [done..|].
  destruct (run_reservation_drop t (r_reserved q) (c_limits s) Hres) as (l & El & L1 & L2 & L3).
  assert (Es : put_bridge i q b' s = s <| c_slots ::= insert i (q <| r_bridge := b' |>) |>
      <| c_bridges ::= λ n, n + (counter b' - counter (r_bridge q)) |>).
  { apply put_bridge_same. rewrite C4. symmetry. apply Hb. }
  exists (cleaned q l (put_bridge i q b' s)), b'. rewrite Es. split_and!; try done.
  - cbn [client_worker]. rewrite run_bind, (run_on_slot task_of t i worker_turn s q), E; [|apply turn_takes_finished|done..].
    rewrite C3, (rq_finished _ _ _ Hb), Hfin. cbn [andb negb]. rewrite El, Es. done.
  - by rewrite C1, Hcalls.
  - simpl. rewrite C2, (rq_counter _ _ _ Hb). lia.
Qed.

(** A call of [send] that will be accepted, a response that arrives in full, and
    callbacks that take all of it ([m] times CONTINUE). *)
Record acceptable (a : SendArgs) (j : Job) (s : client) (env : Round) (resp : Response) (m : nat)
    : Prop := Acceptable {
  ac_prepare : ∃ r, read_request a = inr r ∧ prepare conf (a_mem a) r = Good _ j;
  ac_open : c_closed s = false;
  ac_room : has_room conf j s = true;
  ac_inflight : 0 ≤ inflight (c_limits s) < 2 ^ 32 - 1;
  ac_bytes : in_width 64 (bytes_reserved (c_limits s));
  ac_reserved : in_width 64 (bytes_reserved (c_limits s) + reserve_bytes conf j);
  ac_counts : counts_ok s;
  ac_id : c_requests s !! next_id s = None;
  ac_build : is_Some (build (j_template j));
  ac_sent : rd_sent env = Some (inr resp);
  ac_body : complete_body (resp_body resp);
  ac_chunk : a_on_chunk a = true;
  ac_script : a_script a = replicate m HYPER4K_CHUNK_CONTINUE;
  ac_slice : (length (response_events resp) ≤ SLICE)%nat;
  ac_calls : (length (response_events resp) ≤ m)%nat;
  ac_queue : (length (response_events resp) ≤ cf_queue_capacity conf)%nat;
}.

(** [send], the network task and one turn of a worker, in that order: the call
    returns OK with the next id, the callbacks are exactly those of the response
    and OnDone without an error, and registry, limits and bridge counter are as
    before; the pool of the request is [p] afterwards. *)
Definition serves (t t' t'' : nat) (a : SendArgs) (j : Job) (s : client) (env : Round)
    (resp : Response) (p : pool) : Prop :=
  ∃ s1 s2 s3 q,
    run t (hyper4k_client_send task_of conf a) s = Some (s1, (HYPER4K_STATUS_OK, Some (next_id s))) ∧
    run t' (network_task task_of conf (length (c_slots s)) [env]) s1 = Some (s2, tt) ∧
    run t'' (client_worker task_of [length (c_slots s)]) s2 = Some (s3, tt) ∧
    c_slots s3 = c_slots s ++ [q] ∧ r_id q = next_id s ∧
    calls (r_bridge q) = map OnEvent (response_events resp) ++ [OnDone None] ∧
    c_requests s3 = c_requests s ∧ c_bridges s3 = c_bridges s ∧
    inflight (c_limits s3) = inflight (c_limits s) ∧
    bytes_reserved (c_limits s3) = bytes_reserved (c_limits s) ∧ held (c_limits s3) = held (c_limits s) ∧
    pool_of (j_https j) s3 = Some p.

Lemma run_request_leased t t' t'' a j s l env resp m p1 p2 c :
  acceptable a j s env resp m → pool_of (j_https j) s = Some l → leasing j env l p1 p2 c →
  serves t t' t'' a j s env resp p2.
Proof.
  intros [(r & Er & Ep) Ec Hroom W12 W3 W4 Hcs Hid Hb Hs Hbody Hon Hscr Hn1 Hn2 Hn3] Hl Hd.
  assert (in_width 32 (inflight (c_limits s))) as W1 by (split; lia).
  assert (inflight (c_limits s) < 2 ^ 32 - 1) as W2 by lia.
  destruct (run_submit task_of conf t a j s) as (s1 & st & out & E1 & Ho); [done..|].
  rewrite Hroom in Ho. destruct Ho as (-> & -> & A1 & A2 & _ & A4 & A5 & A6 & A7 & A8).
  injection A8 as P1 P2 _ _ _.
  set (i := length (c_slots s)) in *.
  match type of A1 with _ = _ ++ [?x] => set (q := x) in * end.
  assert (Hq : c_slots s1 !! i = Some q) by (rewrite A1; by apply list_lookup_middle).
  assert (Hc1 : counts_ok s1) by (destruct Hcs; split; rewrite ?P1, ?P2; done).
  destruct (run_network_task t' i j env resp s1 q l p1 p2 c) as (b & E2 & Hb2); try done.
  { unfold pool_of in *. by rewrite P1, P2. }
  match type of E2 with _ = Some (?x, tt) => set (s2 := x) in * end.
  assert (S2 : c_slots s2 = <[i := q <| r_bridge := b |>]> (c_slots s1) ∧ c_limits s2 = c_limits s1 ∧
    c_requests s2 = c_requests s1 ∧ c_bridges s2 = c_bridges s1 ∧
    pool_of (j_https j) s2 = Some p2)
    by (unfold s2, set_pool, pool_of; by destruct (j_https j)).
  destruct S2 as (S1 & S2 & S3 & S4 & S5).
  destruct (run_worker t'' i (q <| r_bridge := b |>) (r_bridge q) (response_events resp) b m s2)
    as (s3 & b' & E3 & T1 & T2 & T3 & T4 & T5 & T6 & T7 & T8 & T9); try done.
  { unfold s2. apply set_pool_counts; [by destruct Hc1|].
    apply (ls_counts _ _ _ _ _ _ Hd). exact (pool_of_counts _ _ _ Hcs Hl). }
  { rewrite S1, list_lookup_insert_eq; [done|]. rewrite A1, length_app. simpl. lia. }
  { rewrite S2, A7. by left. }
  exists s1, s2, s3, (q <| r_bridge := b' |>).
  rewrite (run_send_submits task_of conf t a r j s) by done.
  split_and!; [done|done|done| |done|exact T2|..].
  - rewrite T1, S1, list_insert_insert_eq, A1. unfold i. apply insert_last.
  - rewrite T3, S3, A2. simpl. by apply delete_insert_id.
  - rewrite T4, S4, A4. lia.
  - rewrite T5, S2, A5. unfold fetch_sub. by rewrite Z.add_simpl_r, wrap_id.
  - rewrite T6, S2, A6. unfold fetch_sub. simpl. by rewrite Z.add_simpl_r, wrap_id.
  - rewrite T7, S2, A7. simpl. by rewrite Z.eqb_refl.
  - unfold pool_of in *. by rewrite T8, T9.
Qed.
(** C4: a request is served from end to end.  Suppose the client is open and has
    room, the pool has no connection for the request's key and the origin accepts
    one, the response arrives in full and makes at most as many events as the
    queue holds and a slice delivers, OnChunk is set and every callback answers
    CONTINUE; and suppose the call, the network task and one turn of a worker run
    one after the other.  Then [send] returns OK with the next id; the task
    connects, sends and returns; and the turn invokes exactly OnHeaders, OnChunk
    for every non-empty data frame in order, and OnDone without an error.
    Afterwards the id is gone from the registry, both limits and the bridge
    counter are what they were, and the new connection is idle in the pool as the
    only one of its key, available to the next request. *)
Theorem request_is_served t t' t'' a j s l env h2 resp m :
  acceptable a j s env resp m → pool_of (j_https j) s = Some l → can_dial j env h2 l →
  let p := dialled (j_key j) (new_entry h2) l in
  serves t t' t'' a j s env resp p ∧
  conns p !! j_key j = Some [next_entry l] ∧ entries p !! next_entry l = Some (new_entry h2) ∧
  available p (j_key j) (next_entry l).
Proof.
  intros Ha Hl Hd p. split; [by eapply run_request_leased, leasing_new|].
  assert (Hc : conns p !! j_key j = Some [next_entry l]) by apply lookup_insert_eq.
  assert (He : entries p !! next_entry l = Some (new_entry h2)) by apply lookup_insert_eq.
  split_and!; [done|done|]. split.
  - apply Hd.
  - by exists [], [].
  - unfold eligible_now. rewrite He. by destruct h2.
  - intros e Ee. rewrite He in Ee. by injection Ee as <-.
Qed.

End served.

(** ** Witness *)

Import Client.Caller.

Module Example6.
Definition task_of (i : nat) : nat := (2 + i)%nat.
Definition resp : Response :=
  {| resp_http2 := false; resp_status := 200; resp_headers := []; resp_body := [Data [1]; Trailers; Data [2]] |}.
Definition net : Net := λ _, {| accepts := Some true; takes := Some true; reads := [] |}.
Definition handshakes : Handshakes :=
  {| tls_handshake _ _ _ := None; http1_handshake _ := Some true; http2_handshake _ := None |}.
Definition env : Round := {| rd_net := net; rd_handshakes := handshakes; rd_sent := Some (inr resp) |}.
Definition fresh : client := new_client conf.
End Example6.
Import Example6.

(** The call of [Caller] on a client whose limits are untouched. *)
Lemma caller_acceptable j s env :
  prepare conf mem get_request_struct = Good _ j → c_closed s = false → c_limits s = counters_new →
  c_requests s !! next_id s = None → counts_ok s → rd_sent env = Some (inr resp) →
  acceptable conf args j s env resp 3.
Proof.
  intros Ej Hc Hl Hid Hcs Hs.
  assert (match prepare conf mem get_request_struct with
          | Good _ j => bool_decide (is_Some (build (j_template j))) && (reserve_bytes conf j <=? 1000000)
          | _ => false end = true) as F by (vm_compute; reflexivity).
  rewrite Ej, andb_true_iff in F. destruct F as [F1 F2]. apply bool_decide_eq_true_1 in F1. apply Z.leb_le in F2.
  assert (0 ≤ reserve_bytes conf j) as F3 by (unfold reserve_bytes; lia).
  split; rewrite ?Hl; try done.
  - exists get_request_struct. split; [vm_compute; reflexivity|exact Ej].
  - apply bool_decide_eq_true_2. rewrite Hl. change (max_bytes (cf_limits conf)) with DEFAULT_MAX_BUFFERED_BYTES.
    change (bytes_reserved counters_new) with 0. change (inflight counters_new) with 0.
    change (max_inflight (cf_limits conf)) with 4. unfold DEFAULT_MAX_BUFFERED_BYTES. lia.
  - change (bytes_reserved counters_new) with 0. split; lia.
  - repeat constructor; discriminate.
  - vm_compute. lia.
  - vm_compute. lia.
Qed.

Lemma request_is_served_witness :
  ∃ s1 s2 s3 q,
    run 0 (hyper4k_client_send task_of conf args) fresh = Some (s1, (HYPER4K_STATUS_OK, Some 1)) ∧
    run 2 (network_task task_of conf 0 [env]) s1 = Some (s2, tt) ∧
    run 1 (client_worker task_of [0%nat]) s2 = Some (s3, tt) ∧ c_slots s3 = [q] ∧
    calls (r_bridge q) = [OnEvent (Headers 200 1 []); OnEvent (Chunk [1]); OnEvent (Chunk [2]); OnDone None] ∧
    inflight (c_limits s3) = 0.
Proof.
  assert (match prepare conf mem get_request_struct with
          | Good _ j => negb (j_https j) &&
              match connect conf j env with Some (inr false) => true | _ => false end
          | _ => false end = true) as F by (vm_compute; reflexivity).
  destruct (prepare conf mem get_request_struct) as [| |j] eqn:Ej; [discriminate F..|].
  apply andb_true_iff in F. destruct F as [F1 F4].
  assert (Hh : j_https j = false) by (by destruct (j_https j)).
  assert (Hcon : connect conf j env = Some (inr false)) by (by destruct (connect conf j env) as [[|[]]|]).
  destruct (request_is_served task_of conf 0 2 1 args j fresh pool_new env false resp 3)
    as [(s1 & s2 & s3 & q & E1 & E2 & E3 & Es & _ & Ec & _ & _ & Ei & _) _].
  - apply caller_acceptable; try reflexivity; [exact Ej|].
    split; [intros id e; discriminate|intros p Ep id e; injection Ep as <-; discriminate].
  - rewrite Hh. reflexivity.
  - split; [reflexivity|reflexivity|by left|exact Hcon].
  - exists s1, s2, s3, q. split; [exact E1|]. split; [exact E2|]. split; [exact E3|].
    split; [exact Es|]. split; [exact Ec|exact Ei].
Defined.

(** A client with a dead and an idle HTTP/1 connection to the origin, and a network
    on which nothing can be reached any more. *)
Module Example10.
Definition key : PoolKey := pool_key (lit "http") (lit "origin") 80.
End Example10.
Import Example10.

