(* ===== verification/Guards.v ===== *)
(** * Pause guards, seen from one request and from one pool

    A [PauseGuard] is a unit of the paused count of a connection.  It is made by a
    worker that parks a request, stored in the request, and dropped by whoever
    releases the pause.  [parks] says what a routine of a request does with
    guards, [finds] that a routine of a pool leaves the counts alone; [Pauses]
    puts the requests and the pools of a client together. *)

From S2P Require Import Prelude Conc Ledger Abi Pool Retry Bridge Request BridgeSafety.

Open Scope prog_scope.

(** ** The guards of one request *)

Definition guards (b : bridge) (c : nat) : nat := if decide (pause_guard b = Some c) then 1 else 0.

(** The request's share of a paused count: the guard it stores and those in the
    hands of threads. *)
Definition counted (b : bridge) (n : holding nat) : Prop :=
  ∀ c, paused_count b c = wrap 32 (Z.of_nat (guards b c + n c)).

(** A connection that the request, or a thread working on it, knows. *)
Definition seen (b : bridge) (n : holding nat) (ys : list nat) (c : nat) : Prop :=
  conn b = Some c ∨ pause_guard b = Some c ∨ (0 < n c)%nat ∨ c ∈ ys.

Lemma counted_same b n n' : same n n' → counted b n → counted b n'.
Proof. intros Hn Hb c. by rewrite <- Hn. Qed.

(** [parks t p n ys Q]: run by thread [t] holding the guards [n] and knowing the
    connections [ys], every action of [p] keeps the share right and comes to know
    no others; where it waits, and where it takes the cleanup, it holds no guard. *)
Fixpoint parks {A} (t : nat) (p : prog bridge A) (n : holding nat) (ys : list nat)
    (Q : A → holding nat → Prop) : Prop :=
  match p with
  | Ret a => Q a n
  | Atom f k =>
      ∀ b N, counted b (plus n N) →
        match f t b with
        | Some (b', r) =>
            ∃ n' ys', counted b' (plus n' N) ∧ (∀ c, seen b' n' ys' c → seen b n ys c) ∧
              (finished b' = finished b ∨ same none n') ∧ parks t (k r) n' ys' Q
        | None => same none n
        end
  end.

Lemma parks_bind {A C} t (p : prog bridge A) (g : A → prog bridge C) n ys N Q :
  parks t p n ys N → (∀ a n' ys', N a n' → parks t (g a) n' ys' Q) → parks t (pbind p g) n ys Q.
Proof.
  intros Hp Hg. revert n ys Hp. induction p as [a|T f k IH]; intros n ys Hp; simpl in *; [by apply Hg|].
  intros b M Hb. specialize (Hp b M Hb). destruct (f t b) as [[b' r]|]; [|done].
  destruct Hp as (n' & ys' & ? & ? & ? & ?). exists n', ys'. eauto 6.
Qed.

(** What the guards look at; what else a routine does, it does not matter. *)
Definition held_by (b : bridge) : option nat * option nat * gmap nat Z :=
  (conn b, pause_guard b, conn_paused b).

Lemma parks_keeps {A} t (p : prog bridge A) ys :
  keeps held_by p → parks t p none ys (λ _ n, n = none).
Proof.
  induction p as [a|T f k IH]; simpl; [done|]. intros [Hf Hk] b N Hb.
  destruct (f t b) as [[b' r]|] eqn:E; [|done]. specialize (Hf t b b' r E). injection Hf as E1 E2 E3.
  exists none, ys. split_and!; [|unfold seen; by rewrite E1, E2|by right|by apply IH].
  intros c. specialize (Hb c). unfold paused_count, guards in *. by rewrite E2, E3.
Qed.

Lemma parks_then {A C} t (p : prog bridge A) (g : A → prog bridge C) ys Q :
  keeps held_by p → (∀ a ys', parks t (g a) none ys' Q) → parks t (pbind p g) none ys Q.
Proof. intros Hp Hg. eapply parks_bind; [by apply parks_keeps|]. intros a ? ys' ->. apply Hg. Qed.

(** Comparing what is known before and after. *)
Ltac seen_tac :=
  unfold seen, one, none in *; simpl in *; repeat case_decide; simplify_eq;
  intros Hseen; destruct Hseen as [?|[?|[?|?]]]; simplify_eq; auto 6 with lia.

Section guards.
Context (t : nat).

Lemma lookup_paused (m : gmap nat Z) c x c' :
  default 0 (<[c := x]> m !! c') = if decide (c = c') then x else default 0 (m !! c').
Proof. rewrite lookup_insert. by case_decide. Qed.

Lemma parks_guard_drop c ys : parks t (guard_drop c) (one c) ys (λ _ n, n = none).
Proof.
  simpl. intros b N Hb. exists none, ys. split_and!; [|intros c'; seen_tac|by left|done].
  intros c'. unfold paused_count at 1. simpl. rewrite lookup_paused. fold (paused_count b c').
  specialize (Hb c'). unfold plus, one, none, guards in *. simpl.
  destruct (decide (c = c')) as [->|]; [|done].
  unfold fetch_sub. rewrite Hb, wrap_sub. f_equal. lia.
Qed.

Lemma parks_guard_new c ys : c ∈ ys → parks t (guard_new c) none ys (λ _ n, n = one c).
Proof.
  intros Hc. simpl. intros b N Hb. exists (one c), ys. split_and!; [| |by left|done].
  - intros c'. unfold paused_count at 1. simpl. rewrite lookup_paused. fold (paused_count b c').
    specialize (Hb c'). unfold plus, one, none, guards in *. simpl.
    destruct (decide (c = c')) as [->|]; [|done].
    unfold fetch_add. rewrite Hb, wrap_add. f_equal. lia.
  - intros c'. seen_tac.
Qed.

(** Storing a guard, and dropping the one that was there. *)
Lemma parks_set_guard (g : option nat) ys :
  parks t (set_pause_guard g) (match g with Some c => one c | None => none end) ys (λ _ n, n = none).
Proof.
  unfold set_pause_guard. eapply parks_bind with (N := λ old n, n = match old with Some c => one c | None => none end).
  2: { intros [c|] ? ys' ->; [apply parks_guard_drop|done]. }
  simpl. intros b N Hb. eexists _, ys. split_and!; [| |by left|done].
  - intros c'. specialize (Hb c'). unfold paused_count, guards, plus in *. simpl. rewrite Hb. f_equal. f_equal.
    unfold one, none.
    destruct g as [c|], (pause_guard b) as [c0|]; repeat case_decide; simplify_eq; lia.
  - intros c'. destruct g as [c|], (pause_guard b) as [c0|] eqn:Eg; seen_tac.
Qed.

Lemma parks_load_conn {C} (g : option nat → prog bridge C) ys Q :
  (∀ x ys', match x with Some c => c ∈ ys' | None => True end → parks t (g x) none ys' Q) →
  parks t (x <- load conn ;; g x) none ys Q.
Proof.
  intros Hg. simpl. intros b N Hb. destruct (conn b) as [c|] eqn:Ec.
  - exists none, (c :: ys). split_and!; [done| |by left|apply Hg; by left].
    intros c'. unfold seen. rewrite elem_of_cons. intros [?|[?|[?|[?|?]]]]; subst; auto.
  - exists none, ys. split_and!; [done|done|by left|by apply Hg].
Qed.

Lemma parks_enter_pause ys : parks t enter_pause none ys (λ _ n, n = none).
Proof.
  unfold enter_pause. apply parks_then; [by apply keeps_modify|]. intros _ ys1.
  apply parks_load_conn. intros [c|] ys2 Hc; [|apply (parks_set_guard None)].
  eapply parks_bind; [by apply parks_guard_new|]. intros _ ? ys3 ->. apply (parks_set_guard (Some c)).
Qed.

Lemma parks_leave_pause ys : parks t leave_pause none ys (λ _ n, n = none).
Proof.
  unfold leave_pause. apply parks_then; [by apply keeps_modify|]. intros _ ys1.
  apply (parks_set_guard None).
Qed.

(** *** The routines of a request *)

#[local] Ltac parks_tac :=
  repeat first
    [ reflexivity
    | solve [auto with parks]
    | apply parks_then; [solve [auto with parks | keeps_walk]|intros ? ?]
    | eapply parks_bind; [solve [auto with parks]|intros ? ? ? ->]
    | apply parks_keeps; solve [auto with parks | keeps_walk]
    | case_match ].

#[local] Create HintDb parks.
#[local] Create HintDb frames.
#[local] Hint Resolve parks_enter_pause parks_leave_pause : parks.

Lemma claim_keeps_held d : keeps held_by (claim d).
Proof. keeps_action. Qed.
Lemma acquire_keeps_held : keeps held_by acquire_permit.
Proof. keeps_action. Qed.
Lemma invoke_keeps_held e : keeps held_by (invoke e).
Proof. keeps_action. Qed.
Lemma forever_keeps_held : keeps held_by wait_forever.
Proof. keeps_action. Qed.
Lemma schedule_keeps_held : keeps held_by schedule_slot.
Proof. unfold schedule_slot, ex_schedule. keeps_walk. Qed.
#[local] Hint Resolve claim_keeps_held acquire_keeps_held invoke_keeps_held forever_keeps_held
  schedule_keeps_held : parks frames.

Lemma send_keeps_held e : keeps held_by (send e).
Proof.
  unfold send, is_terminal, release_permit, mark_committed, push_back. keeps_walk; auto with parks.
Qed.
#[local] Hint Resolve send_keeps_held : parks frames.

Lemma parks_settle_slot x d ys : parks t (settle_slot x d) none ys (λ _ n, n = none).
Proof. unfold settle_slot, reschedule, add_permits_bump. parks_tac. Qed.
#[local] Hint Resolve parks_settle_slot : parks.

Lemma parks_settle x d ys : parks t (settle x d) none ys (λ _ n, n = none).
Proof. unfold settle. parks_tac. Qed.
#[local] Hint Resolve parks_settle : parks.

Lemma parks_resume ys : parks t resume none ys (λ _ n, n = none).
Proof. unfold resume, is_terminal. parks_tac. Qed.

Lemma parks_cancel ys : parks t cancel_request none ys (λ _ n, n = none).
Proof. unfold cancel_request, is_terminal. parks_tac. Qed.

Lemma parks_deliver_loop n ys : parks t (deliver_loop n) none ys (λ _ n, n = none).
Proof.
  revert ys. induction n as [|n IH]; intros ys; cbn [deliver_loop]; [done|].
  unfold pop_front, add_permits_popped, discarding, set_in_callback, deliver, clear_permit. parks_tac.
Qed.
#[local] Hint Resolve parks_deliver_loop : parks.

Lemma parks_run_owned n ys : parks t (run_owned n) none ys (λ _ n, n = none).
Proof.
  unfold run_owned. apply parks_then; [by apply keeps_modify|]. intros _ ys1.
  apply parks_then; [apply keeps_load|]. intros [|] ys2; [done|].
  eapply parks_bind; [apply parks_deliver_loop|]. intros [more|] ? ys3 ->; [done|].
  apply parks_keeps. unfold finish_if_done, deliver_done, leave. keeps_walk.
Qed.

Lemma parks_worker_turn ys : parks t worker_turn none ys (λ _ n, n = none).
Proof.
  unfold worker_turn. apply parks_then; [keeps_action|]. intros _ ys1.
  eapply parks_bind with (N := λ _ n, n = none).
  2: { intros [|] ? ys2 ->; [|done]. apply parks_keeps. by apply keeps_modify. }
  unfold run_slice. apply parks_then; [keeps_action|]. intros [|] ys2.
  - apply parks_keeps. keeps_walk.
  - eapply parks_bind; [apply parks_run_owned|]. intros more ? ys3 ->. apply parks_keeps. keeps_walk.
Qed.

Lemma parks_attempt idem pol built sent c budget ys :
  c ∈ ys → parks t (attempt idem (deliver_response pol) built sent c budget) none ys (λ _ n, n = none).
Proof.
  intros Hc. unfold attempt. eapply parks_bind with (N := λ _ n, n = none).
  { simpl. intros b N Hb. exists none, ys. split_and!; [exact Hb| |by left|done].
    intros c'. unfold seen. simpl. intros [[= <-]|?]; auto. }
  intros _ ? ys1 ->. destruct (negb built).
  { eapply parks_bind; [apply parks_settle|]. by intros _ ? ? ->. }
  assert (Hb : ∀ body ys', parks t (deliver_body pol body) none ys' (λ _ n, n = none)).
  { induction body as [|[b| | | |] body IH]; intros ys'; cbn [deliver_body]; parks_tac. }
  destruct sent as [[unsent|r]|]; (apply parks_then; [by apply keeps_modify|]; intros _ ys2).
  - apply parks_then; [apply keeps_load|]. intros com ys3. destruct (may_retry _ _ _ _); [done|].
    eapply parks_bind; [apply parks_settle|]. by intros _ ? ? ->.
  - eapply parks_bind with (N := λ _ n, n = none); [|by intros _ ? ? ->]. unfold deliver_response.
    apply parks_then; [apply send_keeps_held|]. intros [|] ys3; [apply Hb|done].
  - apply parks_then; [apply forever_keeps_held|]. by intros _ ys3.
Qed.
End guards.

(** ** The pools: paused counts are touched by guards only *)

(** The connections of a pool have ids that were given out. *)
Definition pool_ids (l : pool) : Prop :=
  (∀ key ids id, conns l !! key = Some ids → id ∈ ids → (id < next_entry l)%nat) ∧
  ∀ id, is_Some (entries l !! id) → (id < next_entry l)%nat.

Definition pool_step (l l' : pool) : Prop :=
  pool_ids l' ∧ (next_entry l ≤ next_entry l')%nat ∧
  ∀ id e', entries l' !! id = Some e' →
    (∃ e, entries l !! id = Some e ∧ Pool.paused e' = Pool.paused e) ∨
    (next_entry l ≤ id)%nat ∧ Pool.paused e' = 0.

(** [finds t p zs Q]: knowing that the connections [zs] exist, [p] is such steps,
    and what it knows at its end satisfies [Q]. *)
Fixpoint finds {A} (t : nat) (p : prog pool A) (zs : list nat) (Q : A → list nat → Prop) : Prop :=
  match p with
  | Ret a => Q a zs
  | Atom f k =>
      ∀ l l' r, pool_ids l → (∀ c, c ∈ zs → (c < next_entry l)%nat) → f t l = Some (l', r) →
        pool_step l l' ∧ ∃ zs', (∀ c, c ∈ zs' → (c < next_entry l')%nat) ∧ finds t (k r) zs' Q
  end.

Lemma finds_bind {A C} t (p : prog pool A) (g : A → prog pool C) zs N Q :
  finds t p zs N → (∀ a zs', N a zs' → finds t (g a) zs' Q) → finds t (pbind p g) zs Q.
Proof.
  intros Hp Hg. revert zs Hp. induction p as [a|T f k IH]; intros zs Hp; simpl in *; [by apply Hg|].
  intros l l' r Hl Hz E. destruct (Hp l l' r Hl Hz E) as (? & zs' & ? & ?). eauto 6.
Qed.

Lemma finds_post {A} t (p : prog pool A) zs (N Q : A → list nat → Prop) :
  (∀ a zs', N a zs' → Q a zs') → finds t p zs N → finds t p zs Q.
Proof.
  intros HQ. revert zs. induction p as [a|T f k IH]; intros zs Hp; simpl in *; [by apply HQ|].
  intros l l' r Hl Hz E. destruct (Hp l l' r Hl Hz E) as (? & zs' & ? & ?). eauto 6.
Qed.

(** Steps that make no connection. *)
Definition still (l l' : pool) : Prop :=
  next_entry l' = next_entry l ∧
  (∀ key ids, conns l' !! key = Some ids → conns l !! key = Some ids) ∧
  ∀ id e', entries l' !! id = Some e' → ∃ e, entries l !! id = Some e ∧ Pool.paused e' = Pool.paused e.

Lemma still_refl l : still l l.
Proof. split_and!; eauto. Qed.

Lemma still_step l l' : pool_ids l → still l l' → pool_step l l'.
Proof.
  intros [H1 H2] (En & Hc & He). split_and!; [split; rewrite En| |].
  - intros key ids id Hk. apply (H1 key), Hc, Hk.
  - intros id [e' Hid]. destruct (He id e' Hid) as (e & ? & _). eauto.
  - lia.
  - intros id e' Hid. left. by apply He.
Qed.

Lemma finds_still {A} t (p : prog pool A) zs :
  steps_in still p → finds t p zs (λ _ zs', zs' = zs).
Proof.
  induction p as [a|T f k IH]; simpl; [done|]. intros [Hf Hk] l l' r Hl Hz E.
  specialize (Hf t l l' r E). split; [by apply still_step|]. exists zs.
  split; [|by apply IH]. destruct Hf as (-> & _). exact Hz.
Qed.

Lemma finds_then {A C} t (p : prog pool A) (g : A → prog pool C) zs Q :
  steps_in still p → (∀ a, finds t (g a) zs Q) → finds t (pbind p g) zs Q.
Proof. intros Hp Hg. eapply finds_bind; [by apply finds_still|]. intros a ? ->. apply Hg. Qed.

Lemma still_alter l id f :
  (∀ e, Pool.paused (f e) = Pool.paused e) → still l (l <| entries ::= alter f id |>).
Proof.
  intros Hf. split_and!; simpl; [done|done|]. intros id' e' He.
  destruct (decide (id = id')) as [<-|]; [|rewrite lookup_alter_ne in He by done; eauto].
  rewrite lookup_alter_eq in He. destruct (entries l !! id) as [e|]; simplify_eq/=. eauto.
Qed.

Lemma still_insert l id e e1 :
  entries l !! id = Some e → Pool.paused e1 = Pool.paused e → still l (l <| entries ::= insert id e1 |>).
Proof.
  intros He Hp. split_and!; simpl; [done|done|].
  intros id' e' [[<- <-]|[_ He']]%lookup_insert_Some; eauto.
Qed.

#[local] Ltac still_action :=
  intros; simpl in *; repeat case_match; simplify_eq/=;
  first [ apply still_refl
        | apply still_alter; solve [intros; reflexivity]
        | eapply still_insert; [eassumption|solve [simpl; repeat case_match; reflexivity]]
        | solve [split_and!; eauto] ].

#[local] Ltac still_tac :=
  repeat first
    [ exact Logic.I
    | solve [auto]
    | apply steps_in_load; solve [apply still_refl]
    | apply steps_in_modify; solve [still_action]
    | apply steps_in_fetch; solve [still_action]
    | split; [solve [let E := fresh in intros ? ? ? ? E; simpl in E; still_action]|done]
    | apply steps_in_bind; [|intros ?]
    | case_match ].

Lemma entry_closed_still id : steps_in still (entry_closed id).
Proof. unfold entry_closed, load_entry. still_tac. Qed.
#[local] Hint Resolve entry_closed_still : core.

Lemma eligible_still cap id : steps_in still (eligible cap id).
Proof. unfold eligible, load_entry. still_tac. Qed.
#[local] Hint Resolve eligible_still : core.

Lemma take_lease_still id : steps_in still (take_lease id).
Proof. unfold take_lease, on_entry. still_tac. Qed.

Lemma lease_drop_still id : steps_in still (lease_drop id).
Proof. unfold lease_drop, on_entry, atomic. still_tac. Qed.

Lemma is_closed_still id : steps_in still (lease_is_closed id).
Proof. unfold lease_is_closed, load_entry. still_tac. Qed.

Lemma peer_closes_still id : steps_in still (peer_closes id).
Proof. unfold peer_closes, on_entry. still_tac. Qed.

Lemma count_live_still l : steps_in still (count_live l).
Proof. induction l; cbn [count_live]; still_tac. Qed.

Lemma lock_dial_still key : steps_in still (lock_dial key) ∧ steps_in still (unlock_dial key).
Proof. unfold lock_dial, unlock_dial, atomic. split; still_tac. Qed.

Lemma kill_list_still l : steps_in still (kill_list l).
Proof. induction l; cbn [kill_list]; unfold on_entry in *; still_tac. Qed.
#[local] Hint Resolve kill_list_still : core.

Lemma shutdown_still : steps_in still pool_shutdown.
Proof.
  unfold pool_shutdown, atomic. still_tac.
  apply steps_in_modify. intros s. split_and!; simpl; [done| |by eauto]. intros key ids. by rewrite lookup_empty.
Qed.

Lemma total_paused_still : steps_in still total_paused.
Proof.
  unfold total_paused. apply steps_in_bind; [apply steps_in_load, still_refl|]. intros ids.
  induction ids; cbn [sum_paused]; unfold load_entry; still_tac.
Qed.

(** *** What [acquire] returns exists *)

Section acquire.
Context (t : nat).

Definition found (r : option nat) (zs : list nat) : Prop :=
  match r with Some c => c ∈ zs | None => True end.

Lemma finds_take_lease id zs : id ∈ zs → finds t (take_lease id) zs (λ r zs', zs' = zs ∧ found r zs').
Proof.
  intros Hid. unfold take_lease. apply finds_then; [still_tac|]. intros [|]; [|done].
  apply finds_then; [unfold on_entry; still_tac|]. done.
Qed.

Lemma finds_reuse cap key zs : finds t (reuse cap key) zs found.
Proof.
  unfold reuse. eapply finds_bind with (N := λ x zs', ∀ id, id ∈ default [] x → id ∈ zs').
  { intros l l' r Hl Hz E. simpl in E. simplify_eq/=. split; [by apply still_step, still_refl|].
    exists (default [] (conns l' !! key)). split; [|done]. intros c Hc.
    destruct (conns l' !! key) as [ids|] eqn:Ek; [|by apply elem_of_nil in Hc].
    by apply (proj1 Hl key ids). }
  intros [ids|] zs'; [|done]. simpl. induction ids as [|id ids IH]; intros Hid; cbn [reuse_from]; [done|].
  apply finds_then; [apply eligible_still|]. intros [|]; [|apply IH; intros; apply Hid; by right].
  eapply finds_bind; [apply finds_take_lease, Hid; by left|]. intros [c|] ? [-> Hc]; [exact Hc|].
  apply IH. intros. apply Hid. by right.
Qed.

(** The result of [acquire], or of a part of it. *)
Definition got (r : Hyper4kErrorKind + nat) (zs : list nat) : Prop :=
  match r with inr c => c ∈ zs | inl _ => True end.
Definition may_got (r : option (Hyper4kErrorKind + nat)) (zs : list nat) : Prop :=
  match r with Some r => got r zs | None => True end.

Lemma finds_start_acquire max cap key zs : finds t (start_acquire max cap key) zs may_got.
Proof.
  unfold start_acquire. apply finds_then; [still_tac|]. intros [|]; [done|].
  eapply finds_bind; [apply finds_reuse|]. intros [c|] zs' Hc; [exact Hc|].
  apply finds_then; [apply lock_dial_still|]. intros _. eapply finds_bind with (N := may_got).
  - unfold check_locked. eapply finds_bind; [apply finds_reuse|]. intros [c|] zs1 Hc1; [exact Hc1|].
    apply finds_then; [still_tac|]. intros ids. apply finds_then; [apply count_live_still|]. intros live.
    by destruct (max <=? live).
  - intros [r|] zs2 Hr; [|done]. apply finds_then; [apply lock_dial_still|]. intros _. exact Hr.
Qed.

Lemma finds_finish_acquire key dial zs : finds t (finish_acquire key dial) zs got.
Proof.
  unfold finish_acquire. eapply finds_bind with (N := got).
  2: { intros r zs' Hr. apply finds_then; [apply lock_dial_still|]. intros _. exact Hr. }
  destruct dial as [e|h2]; cbn [add_connection]; [done|].
  eapply finds_bind with (N := λ id zs', id ∈ zs').
  { intros l l' r [Hk He] Hz E. simpl in E. simplify_eq/=. split.
    - split_and!; simpl; [split; simpl|lia|].
      + intros key' ids id Hid Hin. specialize (Hk key' ids id Hid Hin). lia.
      + intros id [e [[<- <-]|[_ Hid]]%lookup_insert_Some]; [lia|]. specialize (He id ltac:(eauto)). lia.
      + intros id e [[<- <-]|[_ Hid]]%lookup_insert_Some; [right; split; [lia|done]|left; eauto].
    - exists [next_entry l]. split; [|by left]. intros c Hc%list_elem_of_singleton. simpl. lia. }
  intros id zs1 Hid. eapply finds_bind with (N := λ _ zs', id ∈ zs').
  { intros l l' r [Hk He] Hz E. simpl in E. simplify_eq/=. split.
    - split_and!; simpl; [split; simpl; [|exact He]|lia|by eauto].
      intros key' ids id'. intros [[<- <-]|[_ Hk']]%lookup_insert_Some; [|by apply (Hk key')].
      intros [Hin|Hin%list_elem_of_singleton]%elem_of_app; [|subst; by apply Hz].
      destruct (conns l !! key) as [ids|] eqn:Ek; [by apply (Hk key ids)|by apply elem_of_nil in Hin].
    - exists zs1. by split. }
  intros _ zs2 Hid2. eapply finds_bind; [by apply finds_take_lease|]. intros [c|] ? [-> Hc]; done.
Qed.
End acquire.
