(* ===== verification/Pauses.v ===== *)
(** * The paused counts of a client are exact

    The books of the pause guards ([Guards]) over the slots, both pools and all
    threads of a client: when the threads rest, the paused count of a connection
    is the number of requests that store a guard for it. *)

From S2P Require Import Prelude Conc Ledger Abi Headers Text Uri Proxy Pool Tls Template Limits.
From S2P Require Import Retry Bridge Request BridgeSafety Client ClientSafety ClientRun Served Guards.

Open Scope prog_scope.

(** ** The books of a client *)

(** A guard for connection [c] in a thread that works on slot [i]; what a thread
    knows: [c] may be bound to slot [i], [c] exists in the pool of a scheme, the
    task of slot [i] has been spawned with a scheme; and the right to spawn it. *)
Inductive fact :=
| Parked (i c : nat)
| Known (i c : nat)
| Exists (h : bool) (c : nat)
| Task (i : nat) (h : bool)
| Fresh (i : nat).

Section client.
Context {H : HttpHeaders} {U : HttpUri} {M : HttpMethod} {R : Rustls}.
Context (task_of : nat → nat) (conf : ClientConf) (threads_max : nat) (request_max : Z).

Definition exists_in (s : client) (h : bool) (c : nat) : Prop :=
  ∃ l, pool_of h s = Some l ∧ (c < next_entry l)%nat.

Definition has_task (s : client) (i : nat) (j : option Job) : Prop :=
  ∃ q, c_slots s !! i = Some q ∧ r_task q = j.

Definition known (s : client) (i c : nat) : Prop :=
  ∃ j, has_task s i (Some j) ∧ exists_in s (j_https j) c.

(** What a fact says. *)
Definition says (s : client) (k : fact) : Prop :=
  match k with
  | Parked i c | Known i c => known s i c
  | Exists h c => exists_in s h c
  | Task i h => ∃ j, has_task s i (Some j) ∧ j_https j = h
  | Fresh i => has_task s i None
  end.

(** What a request adds to the count of connection [id] in the pool of a scheme. *)
Definition share_of (h : bool) (id : nat) (q : request) : Z :=
  if Bool.eqb (is_https q) h then paused_count (r_bridge q) id else 0.
Definition shares (h : bool) (id : nat) (s : client) : Z := zsum (map (share_of h id) (c_slots s)).

Record pause_books (s : client) (m : holding fact) : Prop := PauseBooks {
  pk_slot i q c : c_slots s !! i = Some q →
    paused_count (r_bridge q) c = wrap 32 (Z.of_nat (guards (r_bridge q) c + m (Parked i c)));
  pk_bound i q c : c_slots s !! i = Some q →
    conn (r_bridge q) = Some c ∨ pause_guard (r_bridge q) = Some c → known s i c;
  pk_says k : (0 < m k)%nat → says s k;
  pk_fresh i : (m (Fresh i) ≤ 1)%nat;
  pk_ids h l : pool_of h s = Some l → pool_ids l;
  pk_pool h l id e : pool_of h s = Some l → entries l !! id = Some e →
    Pool.paused e = wrap 32 (shares h id s);
}.

Lemma pause_books_same s m n : same m n → pause_books s m → pause_books s n.
Proof. intros Hmn [H1 H2 H3 H4 H5 H6]. split; intros; rewrite <- ?Hmn in *; eauto. Qed.

#[local] Abbreviation csilent := (silent pause_books) (only parsing).

(** What stays true when tasks stay and pools grow. *)
Definition grows (s s' : client) : Prop :=
  (∀ i j, has_task s i j → has_task s' i j) ∧ (∀ h c, exists_in s h c → exists_in s' h c).

Lemma grows_known s s' i c : grows s s' → known s i c → known s' i c.
Proof. intros [H1 H2] (j & Ht & He). exists j. auto. Qed.

Lemma grows_says s s' k : grows s s' → says s k → says s' k.
Proof.
  intros Hg. pose proof Hg as [H1 H2]. destruct k; simpl; eauto using grows_known.
  intros (j & ? & ?). exists j. auto.
Qed.

(** *** Steps that the books do not see *)

(** What the books look at. *)
Definition looked_at (s : client) : list (bridge * option Job) * pool * option pool :=
  (map (λ q, (r_bridge q, r_task q)) (c_slots s), c_pool s, c_tls_pool s).

Lemma looked_lookup s s' i q :
  looked_at s' = looked_at s → c_slots s' !! i = Some q →
  ∃ q', c_slots s !! i = Some q' ∧ r_bridge q' = r_bridge q ∧ r_task q' = r_task q.
Proof.
  intros [= E _ _] Hq. apply (f_equal (.!! i)) in E.
  change (map ?f ?l) with (fmap (M := list) f l) in E.
  rewrite !list_lookup_fmap, Hq in E. destruct (c_slots s !! i) as [q'|]; simplify_eq/=. eauto.
Qed.

Lemma shares_looked s s' h id :
  looked_at s' = looked_at s → shares h id s' = shares h id s.
Proof.
  intros [= E _ _]. unfold shares. revert E. generalize (c_slots s). generalize (c_slots s').
  intros l l'. revert l'. induction l as [|q l IH]; intros [|q' l'] E; [done..|].
  injection E as Eb Et El. simpl. f_equal; [|by apply IH]. unfold share_of, is_https. by rewrite Eb, Et.
Qed.

Lemma pool_of_looked s s' h : looked_at s' = looked_at s → pool_of h s' = pool_of h s.
Proof. intros [= _ E1 E2]. unfold pool_of. by rewrite E1, E2. Qed.

Lemma looked_grows s s' : looked_at s' = looked_at s → grows s s'.
Proof.
  intros E. split.
  - intros i j (q & Hq & Hj). destruct (looked_lookup s' s i q) as (q' & ? & _ & ?); [done|done|].
    exists q'. split; congruence.
  - intros h c (l & Hl & ?). exists l. by rewrite (pool_of_looked s s').
Qed.

Lemma looked_books s s' m : looked_at s' = looked_at s → pause_books s m → pause_books s' m.
Proof.
  intros E [H1 H2 H3 H4 H5 H6]. pose proof (looked_grows s s' E) as Hg. split.
  - intros i q c Hq. destruct (looked_lookup s s' i q E Hq) as (q' & Hq' & <- & _). eauto.
  - intros i q c Hq. destruct (looked_lookup s s' i q E Hq) as (q' & Hq' & <- & _).
    intros. eapply grows_known; eauto.
  - intros k Hk. eapply grows_says; eauto.
  - exact H4.
  - intros h l. rewrite (pool_of_looked s s') by done. apply H5.
  - intros h l id e. rewrite (pool_of_looked s s'), (shares_looked s s') by done. apply H6.
Qed.

Lemma silent_looked {A} (p : prog client A) : keeps looked_at p → csilent p.
Proof.
  intros Hp. induction p as [|T f k IH]; [done|]. destruct Hp as [Hf Hk].
  intros t s s' r m Hs E. split; [|auto]. apply (looked_books s); [by eapply Hf|done].
Qed.

(** *** Shares of connections that do not exist yet *)

(** A request that cannot know a connection adds nothing to its count. *)
Lemma unknown_count s m i q c :
  pause_books s m → c_slots s !! i = Some q → ¬ known s i c → paused_count (r_bridge q) c = 0.
Proof.
  intros Hs Hq Hn. rewrite (pk_slot _ _ Hs i q c Hq).
  assert (m (Parked i c) = 0%nat) as ->.
  { destruct (m (Parked i c)) eqn:Em; [done|]. destruct Hn. apply (pk_says _ _ Hs (Parked i c)). lia. }
  unfold guards. rewrite decide_False; [done|]. intros Hg. destruct Hn. eapply (pk_bound _ _ Hs); eauto.
Qed.

Lemma unknown_share s m h l id :
  pause_books s m → pool_of h s = Some l → (next_entry l ≤ id)%nat → shares h id s = 0.
Proof.
  intros Hs Hl Hid. apply zsum_zero. intros q [i Hq]%list_elem_of_lookup. unfold share_of.
  destruct (Bool.eqb (is_https q) h) eqn:Eh; [|done]. apply eqb_prop in Eh.
  eapply unknown_count; [done..|]. intros (j & (q' & Hq' & Hj) & l' & Hl' & Hc). simplify_eq.
  unfold is_https in Hl. rewrite Hj in Hl. simplify_eq. lia.
Qed.

(** *** Storing a slot *)

Lemma shift_paused_lookup old new p id e' :
  (∀ e, entries p !! id = Some e → in_width 32 (Pool.paused e)) →
  entries (shift_paused old new p) !! id = Some e' →
  ∃ e, entries p !! id = Some e ∧
    Pool.paused e' = wrap 32 (Pool.paused e + (default 0 (new !! id) - default 0 (old !! id))).
Proof.
  intros Hw. unfold shift_paused. case_decide as E.
  - intros He. exists e'. split; [done|]. subst. rewrite Z.sub_diag, Z.add_0_r, wrap_id; auto.
  - simpl. rewrite map_lookup_imap. destruct (entries p !! id) as [e|]; simpl; [|done].
    intros [= <-]. by exists e.
Qed.

Lemma shift_paused_ids old new p : pool_ids (shift_paused old new p) ↔ pool_ids p.
Proof.
  unfold shift_paused. case_decide; [done|]. unfold pool_ids. simpl.
  setoid_rewrite map_lookup_imap. apply and_iff_compat_l. split; intros Hp id Hid; apply Hp.
  - destruct Hid as [e ->]. simpl. eauto.
  - destruct (entries p !! id); simpl in *; [eauto|by destruct Hid].
Qed.

Lemma shift_paused_next old new p : next_entry (shift_paused old new p) = next_entry p.
Proof. unfold shift_paused. by case_decide. Qed.

Lemma pool_of_put_bridge h i q b s :
  pool_of h (put_bridge i q b s) =
  if Bool.eqb (is_https q) h
  then shift_paused (conn_paused (r_bridge q)) (conn_paused b) <$> pool_of h s else pool_of h s.
Proof. unfold put_bridge, in_pool, pool_of. by destruct (is_https q), h. Qed.

Lemma pool_of_put_next h i q b s l :
  pool_of h s = Some l → ∃ l', pool_of h (put_bridge i q b s) = Some l' ∧ next_entry l' = next_entry l.
Proof.
  intros Hl. rewrite pool_of_put_bridge, Hl. destruct (Bool.eqb _ _); simpl; eauto using shift_paused_next.
Qed.

Lemma grows_put_bridge i q b s : c_slots s !! i = Some q → grows s (put_bridge i q b s).
Proof.
  intros Hq. split.
  - intros i' j (q0 & Hq0 & Hj). unfold has_task. rewrite (proj1 (put_bridge_fields i q b s)).
    destruct (decide (i = i')) as [<-|Hne].
    + simplify_eq. eexists. split; [apply list_lookup_insert_eq; by eapply lookup_lt_Some|done].
    + exists q0. by rewrite list_lookup_insert_ne.
  - intros h c (l & Hl & Hc). destruct (pool_of_put_next h i q b s l Hl) as (l' & Hl' & En).
    exists l'. split; [done|lia].
Qed.

Lemma put_bridge_pause i q b s m m' :
  c_slots s !! i = Some q → pause_books s m →
  (∀ c, paused_count b c = wrap 32 (Z.of_nat (guards b c + m' (Parked i c)))) →
  (∀ i' c, i' ≠ i → m' (Parked i' c) = m (Parked i' c)) →
  (∀ c, conn b = Some c ∨ pause_guard b = Some c → known s i c) →
  (∀ k, (0 < m' k)%nat → says s k) →
  (∀ i', m' (Fresh i') = m (Fresh i')) →
  pause_books (put_bridge i q b s) m'.
Proof.
  intros Hq Hs Hb Ho Hk Hsay Hf.
  pose proof (grows_put_bridge i q b s Hq) as Hg.
  pose proof (proj1 (put_bridge_fields i q b s)) as Es.
  split; rewrite ?Es.
  - intros i' q' c [(<- & <- & _)|(Hne & Hq')]%list_lookup_insert_Some; [apply Hb|].
    rewrite Ho by done. by apply (pk_slot _ _ Hs).
  - intros i' q' c [(<- & <- & _)|(Hne & Hq')]%list_lookup_insert_Some Hc;
      (eapply grows_known; [exact Hg|]); [by apply Hk|by eapply (pk_bound _ _ Hs)].
  - intros k Hm. eapply grows_says; eauto.
  - intros i'. rewrite Hf. apply (pk_fresh _ _ Hs).
  - intros h l. rewrite pool_of_put_bridge. destruct (Bool.eqb _ _); [|apply (pk_ids _ _ Hs)].
    intros (l0 & Hl0 & ->)%fmap_Some. apply shift_paused_ids. by apply (pk_ids _ _ Hs h).
  - intros h l id e. rewrite pool_of_put_bridge. unfold shares. rewrite Es, (zsum_insert _ _ i q) by done.
    fold (shares h id s). unfold share_of. simpl. replace (is_https (q <| r_bridge := b |>)) with (is_https q) by done.
    destruct (Bool.eqb _ _).
    + intros (l0 & Hl0 & ->)%fmap_Some He'.
      assert (∀ e0, entries l0 !! id = Some e0 → Pool.paused e0 = wrap 32 (shares h id s)) as Hw
        by (intros e0; by apply (pk_pool _ _ Hs h)).
      apply shift_paused_lookup in He' as (e0 & He0 & ->).
      2: { intros e0 He0. rewrite (Hw e0 He0). apply wrap_range. lia. }
      by rewrite (Hw e0 He0), wrap_add.
    + intros Hl He'. rewrite Z.sub_diag, Z.add_0_r. by apply (pk_pool _ _ Hs h l id).
Qed.

(** ** The threads *)

(** No guard is in the thread's hands. *)
Definition rests (m : holding fact) : Prop := ∀ i c, m (Parked i c) = 0%nat.

(** The guards [n] for slot [i], and no other. *)
Definition grips (i : nat) (n : holding nat) (m : holding fact) : Prop :=
  ∀ i' c, m (Parked i' c) = if decide (i = i') then n c else 0%nat.

Lemma grips_none i m : grips i none m ↔ rests m.
Proof. split; intros Hm i' c; specialize (Hm i' c); by destruct (decide (i = i')). Qed.

(** What else a thread has stays as it is, or grows. *)
Definition no_less (m m' : holding fact) : Prop :=
  ∀ k, match k with
       | Parked _ _ => True
       | Fresh i => m' k = m k
       | _ => (0 < m k)%nat → (0 < m' k)%nat
       end.

Lemma no_less_refl m : no_less m m.
Proof. intros []; auto. Qed.
Lemma no_less_trans m1 m2 m3 : no_less m1 m2 → no_less m2 m3 → no_less m1 m3.
Proof. intros H1 H2 k. specialize (H1 k). specialize (H2 k). destruct k; auto. congruence. Qed.

(** A thread with these facts knows that [c] may be bound to slot [i]. *)
Definition knows (m : holding fact) (i c : nat) : Prop :=
  (0 < m (Known i c))%nat ∨ ∃ h, (0 < m (Task i h))%nat ∧ (0 < m (Exists h c))%nat.

Lemma knows_less m m' i c : no_less m m' → knows m i c → knows m' i c.
Proof.
  intros Hm [Hk|(h & Ht & He)]; [left; by apply (Hm (Known i c))|right]. exists h.
  split; [by apply (Hm (Task i h))|by apply (Hm (Exists h c))].
Qed.

Lemma knows_known s m i c : pause_books s m → knows m i c → known s i c.
Proof.
  intros Hs [Hk|(h & Ht & He)]; [by apply (pk_says _ _ Hs (Known i c))|].
  destruct (pk_says _ _ Hs _ Ht) as (j & Hj & <-). exists j. split; [done|].
  by apply (pk_says _ _ Hs (Exists (j_https j) c)).
Qed.

Section thread.
Context (t : nat).
#[local] Abbreviation cowns := (owns pause_books t (λ _, rests)) (only parsing).

(** What a thread working on slot [i] has after a step. *)
Definition hand (i : nat) (n : holding nat) (ys : list nat) (m : holding fact) : holding fact :=
  λ k, match k with
       | Parked i' c => if decide (i = i') then n c else 0%nat
       | Known i' c => if decide (i = i' ∧ c ∈ ys) then 1%nat else m k
       | _ => m k
       end.

Lemma hand_less i n ys m : no_less m (hand i n ys m).
Proof. intros []; simpl; auto. case_decide; lia. Qed.

Lemma hand_knows i n ys m c : c ∈ ys → knows (hand i n ys m) i c.
Proof. intros Hc. left. simpl. rewrite decide_True by done. lia. Qed.

(** One action of a routine of slot [i]. *)
Lemma slot_action i q b n ys n' ys' m F s :
  c_slots s !! i = Some q → grips i n m → (∀ c, c ∈ ys → knows m i c) → pause_books s (plus m F) →
  counted b (plus n' (λ c, F (Parked i c))) →
  (∀ c, seen b n' ys' c → seen (r_bridge q) n ys c) →
  pause_books (put_bridge i q b s) (plus (hand i n' ys' m) F).
Proof.
  intros Hq Hm Hys Hs Hb Hseen.
  assert (Hk : ∀ c, seen b n' ys' c → known s i c).
  { intros c [Hc|[Hc|[Hc|Hc]]]%Hseen; [by eapply (pk_bound _ _ Hs); eauto..| |].
    - apply (pk_says _ _ Hs (Parked i c)). unfold plus. rewrite Hm, decide_True by done. lia.
    - destruct (Hys c Hc) as [Hkn|(h & Ht & He)].
      + apply (pk_says _ _ Hs (Known i c)). unfold plus. lia.
      + eapply knows_known; [exact Hs|]. right. exists h. unfold plus. lia. }
  eapply put_bridge_pause; [done|exact Hs|..].
  - intros c. rewrite (Hb c). unfold plus, hand. by rewrite decide_True.
  - intros i' c Hne. unfold plus, hand. rewrite Hm. by rewrite !decide_False by congruence.
  - intros c Hc. apply Hk. unfold seen. destruct Hc; auto.
  - intros k Hpos. unfold plus, hand in Hpos.
    assert ((0 < m k + F k)%nat → says s k) as Hold by apply (pk_says _ _ Hs k).
    destruct k as [i' c|i' c|h c|i' h|i']; auto.
    + destruct (decide (i = i')) as [<-|]; [|apply Hold; lia].
      destruct (decide (0 < n' c)%nat); [|apply Hold; lia]. apply Hk. unfold seen. auto.
    + destruct (decide (i = i' ∧ c ∈ ys')) as [[<- Hc]|]; [|auto]. apply Hk. unfold seen. auto.
  - done.
Qed.

Lemma keeps_on_limits_looked {A} (p : prog counters A) : keeps looked_at (on_limits p).
Proof.
  induction p as [a|T f k IH]; simpl; [done|]. split; [|done].
  intros ? s s' r E. destruct (f _ _) as [[]|]; by simplify_eq.
Qed.

Lemma owns_cleanup_pause q m : rests m → cowns (cleanup q) m (λ _ n, n = m).
Proof.
  intros Hm. apply owns_silent; [|done]. apply silent_looked.
  apply keeps_bind; [apply keeps_on_limits_looked|intros _; by apply keeps_modify].
Qed.

Lemma owns_on_slot_pause {A} i (p : prog bridge A) n ys m Q :
  parks (local task_of i t) p n ys Q → grips i n m → (∀ c, c ∈ ys → knows m i c) →
  cowns (on_slot task_of i p) m (λ a m', ∃ n', Q a n' ∧ grips i n' m' ∧ no_less m m').
Proof.
  revert n ys m. induction p as [a|T f k IH]; intros n ys m Hp Hm Hys; cbn [on_slot].
  { exists n. split_and!; [exact Hp|exact Hm|apply no_less_refl]. }
  intros s F Hs. destruct (c_slots s !! i) as [q|] eqn:Eq.
  2: { intros i' c. rewrite Hm. case_decide; [|done]. subst. destruct (n c) eqn:En; [done|].
       destruct (pk_says _ _ Hs (Parked i' c)) as (j & (q & Hq & _) & _); [|congruence].
       unfold plus. rewrite Hm, decide_True by done. lia. }
  specialize (Hp (r_bridge q) (λ c, F (Parked i c))).
  assert (counted (r_bridge q) (plus n (λ c, F (Parked i c)))) as Hc.
  { intros c. rewrite (pk_slot _ _ Hs i q c Eq). unfold plus. by rewrite Hm, decide_True. }
  specialize (Hp Hc). destruct (f _ _) as [[b r]|].
  2: { apply (grips_none i). intros i' c. rewrite Hm. by rewrite <- Hp. }
  destruct Hp as (n' & ys' & Hb & Hseen & Hfin & Hk).
  exists (hand i n' ys' m). split; [by eapply slot_action|].
  assert (Hgrip : grips i n' (hand i n' ys' m)) by done.
  assert (Hnext : cowns (on_slot task_of i (k r)) (hand i n' ys' m)
    (λ a m', ∃ n', Q a n' ∧ grips i n' m' ∧ no_less m m')).
  { eapply owns_post; [|eapply (IH r n' ys'); [exact Hk|exact Hgrip|intros; by apply hand_knows]].
    intros a m' (n1 & ? & ? & ?). exists n1. split_and!; [done..|].
    eapply no_less_trans; [apply hand_less|done]. }
  destruct (_ && _) eqn:Ef; cbn [fst snd]; [|exact Hnext].
  eapply owns_bind; [apply owns_cleanup_pause|intros _ ? ->; exact Hnext].
  destruct Hfin as [Hfin|Hn]; [rewrite Hfin, andb_negb_r in Ef; done|].
  apply (grips_none i). intros i' c. rewrite Hgrip. by rewrite <- Hn.
Qed.

(** A routine that ends without a guard, as all of them do. *)
Definition after (m m' : holding fact) : Prop := rests m' ∧ no_less m m'.

Lemma owns_slot_pause {A} i (p : prog bridge A) ys m :
  parks (local task_of i t) p none ys (λ _ n, n = none) → rests m → (∀ c, c ∈ ys → knows m i c) →
  cowns (on_slot task_of i p) m (λ _, after m).
Proof.
  intros Hp Hm Hys. eapply owns_post; [|eapply owns_on_slot_pause; [exact Hp|by apply grips_none|exact Hys]].
  intros a m' (n' & -> & Hg & Hl). split; [by eapply grips_none|done].
Qed.

Lemma after_refl m : rests m → after m m.
Proof. intros Hm. split; [done|apply no_less_refl]. Qed.
Lemma after_trans m1 m2 m3 : after m1 m2 → after m2 m3 → after m1 m3.
Proof. intros [_ H1] [? H2]. split; [done|by eapply no_less_trans]. Qed.

(** A part the books do not see. *)
Lemma owns_looked {A} (p : prog client A) m : csilent p → rests m → cowns p m (λ _, after m).
Proof.
  intros Hp Hm. eapply owns_post; [|by apply owns_silent]. intros _ ? ->. by apply after_refl.
Qed.

(** One part after another. *)
Lemma pause_then {A C} (p : prog client A) (g : A → prog client C) m (Q : C → holding fact → Prop) :
  cowns p m (λ _, after m) → (∀ a m', after m m' → cowns (g a) m' Q) → cowns (pbind p g) m Q.
Proof. intros Hp Hg. eapply owns_bind; [exact Hp|]. intros a m' Hm'. by apply Hg. Qed.

(** *** The pools *)

(** What a thread has after it found connections in the pool of a scheme. *)
Definition finding (h : bool) (zs : list nat) (m : holding fact) : holding fact :=
  λ k, match k with
       | Exists h' c => if decide (h = h' ∧ c ∈ zs) then 1%nat else m k
       | _ => m k
       end.

Definition found_in (h : bool) (zs : list nat) (m : holding fact) : Prop :=
  ∀ c, c ∈ zs → (0 < m (Exists h c))%nat.

Lemma finding_after h zs m : rests m → after m (finding h zs m).
Proof. intros Hm. split; [exact Hm|]. intros []; simpl; auto. case_decide; lia. Qed.

Lemma finding_found h zs m : found_in h zs (finding h zs m).
Proof. intros c Hc. simpl. rewrite decide_True by done. lia. Qed.

Lemma shares_set_pool h p s h' id : shares h' id (set_pool h p s) = shares h' id s.
Proof. by destruct h. Qed.

Lemma pool_of_set_other h h' p s : h' ≠ h → pool_of h' (set_pool h p s) = pool_of h' s.
Proof. by destruct h, h'. Qed.

Lemma set_pool_grows h l l' s :
  pool_of h s = Some l → (next_entry l ≤ next_entry l')%nat → grows s (set_pool h l' s).
Proof.
  intros Hl Hn. split; [by destruct h|]. intros h' c (l0 & Hl0 & Hc).
  destruct (decide (h' = h)) as [->|Hne].
  - exists l'. split; [apply pool_of_set|]. simplify_eq. lia.
  - exists l0. by rewrite pool_of_set_other.
Qed.

(** One action of a routine of the pool of a scheme. *)
Lemma pool_action h l l' zs m F s :
  pool_of h s = Some l → pause_books s (plus m F) → pool_step l l' →
  (∀ c, c ∈ zs → (c < next_entry l')%nat) →
  pause_books (set_pool h l' s) (plus (finding h zs m) F).
Proof.
  intros Hl Hs (Hids & Hn & He) Hzs. pose proof (set_pool_grows h l l' s Hl Hn) as Hg.
  assert (Eslots : c_slots (set_pool h l' s) = c_slots s) by (by destruct h).
  split; rewrite ?Eslots.
  - apply (pk_slot _ _ Hs).
  - intros i q c Hq Hc. eapply grows_known; [exact Hg|]. by eapply (pk_bound _ _ Hs).
  - intros k Hk. unfold plus, finding in Hk.
    assert ((0 < m k + F k)%nat → says (set_pool h l' s) k) as Hold
      by (intros; eapply grows_says; [exact Hg|by apply (pk_says _ _ Hs)]).
    destruct k as [i c|i c|h' c|i h'|i]; auto.
    destruct (decide (h = h' ∧ c ∈ zs)) as [[<- Hc]|]; [|auto].
    exists l'. split; [apply pool_of_set|auto].
  - apply (pk_fresh _ _ Hs).
  - intros h' l0. destruct (decide (h' = h)) as [->|Hne].
    + rewrite pool_of_set. by intros [= <-].
    + rewrite pool_of_set_other by done. apply (pk_ids _ _ Hs).
  - intros h' l0 id e. rewrite shares_set_pool. destruct (decide (h' = h)) as [->|Hne].
    + rewrite pool_of_set. intros [= <-] Hid. destruct (He id e Hid) as [(e0 & He0 & ->)|[Hge ->]].
      * by apply (pk_pool _ _ Hs h l id).
      * by rewrite (unknown_share s _ h l id Hs Hl Hge).
    + rewrite pool_of_set_other by done. apply (pk_pool _ _ Hs).
Qed.

Definition on_scheme {A} (h : bool) (d : A) (p : prog pool A) : prog client A :=
  if h then on_tls_pool d p else on_pool p.

Lemma owns_scheme {A} h (d : A) (p : prog pool A) zs m Q :
  finds t p zs Q → (∀ zs', Q d zs') → rests m → found_in h zs m →
  cowns (on_scheme h d p) m (λ a m', after m m' ∧ ∃ zs', Q a zs' ∧ found_in h zs' m').
Proof.
  intros Hp Hd. revert zs m Hp. induction p as [a|T f k IH]; intros zs m Hp Hm Hz.
  { destruct h; simpl; (split; [by apply after_refl|by exists zs]). }
  assert (Hstep : ∀ s F l, pause_books s (plus m F) → pool_of h s = Some l →
    match f t l with
    | Some (l', r) => ∃ m', pause_books (set_pool h l' s) (plus m' F) ∧
        cowns (on_scheme h d (k r)) m' (λ a m', after m m' ∧ ∃ zs', Q a zs' ∧ found_in h zs' m')
    | None => rests m
    end).
  { intros s F l Hs Hl. specialize (Hp l). destruct (f t l) as [[l' r]|]; [|done].
    destruct (Hp l' r) as (Hst & zs' & Hz' & Hk); [by apply (pk_ids _ _ Hs h)| |done|].
    { intros c Hc. destruct (pk_says _ _ Hs (Exists h c)) as (l0 & Hl0 & ?); [|congruence].
      specialize (Hz c Hc). unfold plus. lia. }
    exists (finding h zs' m). split; [by eapply pool_action|].
    pose proof (finding_after h zs' m Hm) as Ha.
    eapply owns_post; [|apply (IH r zs'); [exact Hk|apply Ha|apply finding_found]].
    intros a m' [Ha' Hq]. split; [by eapply after_trans|exact Hq]. }
  destruct h; simpl; intros s F Hs.
  - destruct (c_tls_pool s) as [l|] eqn:El.
    + specialize (Hstep s F l Hs El). destruct (f t l) as [[l' r]|]; exact Hstep.
    + exists m. split; [exact Hs|]. split; [by apply after_refl|]. by exists zs.
  - specialize (Hstep s F (c_pool s) Hs eq_refl). destruct (f t (c_pool s)) as [[l' r]|]; exact Hstep.
Qed.

(** A routine that only has to leave the counts alone. *)
Lemma owns_still {A} h (d : A) (p : prog pool A) m :
  steps_in still p → rests m → cowns (on_scheme h d p) m (λ _, after m).
Proof.
  intros Hp Hm. eapply owns_post; [|apply (owns_scheme h d p [] m (λ _ _, True)); [|done|done|]].
  - by intros a m' [? _].
  - eapply finds_post; [|by apply finds_still]. done.
  - intros c Hc. by apply elem_of_nil in Hc.
Qed.

(** *** Submitting *)

(** The slot of a request that has been made, and not yet spawned its task. *)
Definition fresh (i : nat) (n : nat) (m : holding fact) : holding fact :=
  λ k, match k with
       | Fresh i' => if decide (i = i') then n else m k
       | _ => m k
       end.

Lemma owns_enter_pause id a j m :
  rests m → cowns (enter_and_spawn conf id a j) m (λ i m', rests m' ∧ m' (Fresh i) = 1%nat).
Proof.
  intros Hm. apply owns_atomic. intros s F Hs. set (i := length (c_slots s)).
  exists (fresh i 1 m). split; [|split; [exact Hm|simpl; by rewrite decide_True]].
  assert (Hnone : (m (Fresh i) + F (Fresh i) = 0)%nat).
  { destruct (m (Fresh i) + F (Fresh i))%nat eqn:E; [done|].
    destruct (pk_says _ _ Hs (Fresh i)) as (q & Hq & _); [unfold plus; lia|].
    apply lookup_lt_Some in Hq. unfold i in Hq. lia. }
  set (s' := _ : client). set (q0 := Req id (spawn (cf_queue_capacity conf) (a_on_chunk a) (a_script a))
    (reserve_bytes conf j) None None).
  assert (Es : c_slots s' = c_slots s ++ [q0]) by done.
  assert (Hnew : has_task s' i None).
  { exists q0. rewrite Es. split; [by apply list_lookup_middle|done]. }
  assert (Hg : grows s s').
  { split; [|done]. intros i' j' (q & Hq & Hj). exists q. split; [|done]. rewrite Es. by apply lookup_app_l_Some. }
  split; rewrite ?Es.
  - intros i' q c [Hq|[Hi Hq]]%lookup_app_Some; [by apply (pk_slot _ _ Hs)|].
    apply list_lookup_singleton_Some in Hq as [Ei <-].
    assert (m (Parked i' c) + F (Parked i' c) = 0)%nat as Hz.
    { destruct (m (Parked i' c) + F (Parked i' c))%nat eqn:E; [done|].
      destruct (pk_says _ _ Hs (Parked i' c)) as (j' & (q & Hq & _) & _); [unfold plus; lia|].
      apply lookup_lt_Some in Hq. lia. }
    unfold plus, fresh. rewrite Hz. done.
  - intros i' q c [Hq|[Hi Hq]]%lookup_app_Some Hc; [eapply grows_known; [exact Hg|]; by eapply (pk_bound _ _ Hs)|].
    apply list_lookup_singleton_Some in Hq as [_ <-]. by destruct Hc.
  - intros k Hk. unfold plus, fresh in Hk.
    assert ((0 < m k + F k)%nat → says s' k) as Hold
      by (intros; eapply grows_says; [exact Hg|by apply (pk_says _ _ Hs)]).
    destruct k as [i' c|i' c|h' c|i' h'|i']; auto.
    destruct (decide (i = i')) as [<-|]; [exact Hnew|auto].
  - intros i'. unfold plus, fresh. destruct (decide (i = i')) as [<-|]; [lia|apply (pk_fresh _ _ Hs)].
  - apply (pk_ids _ _ Hs).
  - intros h l id' e Hl He. rewrite (pk_pool _ _ Hs h l id' e Hl He). f_equal.
    unfold shares. rewrite Es, map_app, zsum_app.
    assert (zsum (map (share_of h id') [q0]) = 0) as ->; [|lia].
    apply zsum_zero. intros q ->%list_elem_of_singleton. unfold share_of, paused_count. by repeat case_match.
Qed.

Lemma owns_spawn_task i j m :
  rests m → m (Fresh i) = 1%nat → cowns (spawn_task i j) m (λ _, rests).
Proof.
  intros Hm Hi. apply owns_atomic. intros s F Hs. exists (fresh i 0 m). split; [|exact Hm].
  destruct (pk_says _ _ Hs (Fresh i)) as (q & Hq & Hnone); [unfold plus; lia|].
  pose proof (pk_fresh _ _ Hs i) as Hone. unfold plus in Hone.
  set (s' := s <| c_slots ::= _ |>).
  assert (Es : c_slots s' = <[i := q <| r_task := Some j |>]> (c_slots s)).
  { unfold s'. simpl. apply list_eq. intros i'. destruct (decide (i = i')) as [<-|Hne].
    - rewrite list_lookup_alter_eq, Hq, list_lookup_insert_eq; [done|by eapply lookup_lt_Some].
    - by rewrite list_lookup_alter_ne, list_lookup_insert_ne. }
  assert (Hother : ∀ i' j', has_task s i' j' → i' ≠ i → has_task s' i' j').
  { intros i' j' (q' & Hq' & Hj) Hne. exists q'. by rewrite Es, list_lookup_insert_ne. }
  assert (Htask : ∀ i' j', has_task s i' (Some j') → has_task s' i' (Some j')).
  { intros i' j' Ht. apply Hother; [done|]. intros ->. destruct Ht as (q' & ? & ?). congruence. }
  assert (Hkn : ∀ i' c, known s i' c → known s' i' c) by (intros i' c (j' & ? & ?); exists j'; auto).
  assert (Hzero : ∀ c, paused_count (r_bridge q) c = 0).
  { intros c. eapply unknown_count; [done..|]. intros (j' & (q' & Hq' & Hj') & _). congruence. }
  split; rewrite ?Es.
  - intros i' q' c [(<- & <- & _)|(_ & Hq')]%list_lookup_insert_Some;
      [exact (pk_slot _ _ Hs i q c Hq)|exact (pk_slot _ _ Hs i' q' c Hq')].
  - intros i' q' c [(<- & <- & _)|(_ & Hq')]%list_lookup_insert_Some Hc; apply Hkn;
      [exact (pk_bound _ _ Hs i q c Hq Hc)|exact (pk_bound _ _ Hs i' q' c Hq' Hc)].
  - intros k Hk. unfold plus, fresh in Hk.
    assert ((0 < m k + F k)%nat → says s k) as Hold by apply (pk_says _ _ Hs).
    destruct k as [i' c|i' c|h' c|i' h'|i']; simpl in *; auto.
    + destruct (Hold Hk) as (j' & ? & ?). exists j'. auto.
    + destruct (decide (i = i')) as [<-|]; [lia|]. apply Hother; auto.
  - intros i'. unfold plus, fresh. case_decide; [subst; lia|apply (pk_fresh _ _ Hs)].
  - apply (pk_ids _ _ Hs).
  - intros h l id e Hl He. rewrite (pk_pool _ _ Hs h l id e Hl He). f_equal. unfold shares.
    rewrite Es, (zsum_insert _ _ i q) by done. unfold share_of at 3 4. simpl. rewrite Hzero.
    repeat case_match; lia.
Qed.

Lemma owns_send_pause a m : rests m → cowns (hyper4k_client_send task_of conf a) m (λ _, rests).
Proof.
  intros Hm. unfold hyper4k_client_send. destruct (read_request a) as [st|r]; [done|].
  apply pause_then; [by apply owns_looked, Hm; apply silent_load|]. intros [|] m1 [Hm1 _]; [done|].
  destruct (prepare conf (a_mem a) r) as [st| |j]; [done|by intros s F _|].
  apply pause_then; [apply owns_looked, Hm1; by apply silent_looked, keeps_fetch|]. intros id m2 [Hm2 _].
  apply pause_then; [apply owns_looked, Hm2; apply silent_looked, keeps_on_limits_looked|].
  intros [|] m3 [Hm3 _]; [|done]. cbn [negb].
  eapply owns_bind; [by apply owns_enter_pause|]. intros i m4 [Hm4 Hi].
  apply pause_then; [apply owns_looked, Hm4; by apply silent_looked, keeps_modify|]. intros _ m5 [Hm5 Hl].
  eapply owns_bind; [apply owns_spawn_task; [done|by rewrite (Hl (Fresh i))]|]. intros ? m6 Hm6.
  apply pause_then; [apply (owns_slot_pause i set_abort []); [|done|]|by intros ? m7 [? ?]].
  - apply parks_keeps. by apply keeps_modify.
  - intros c Hc. by apply elem_of_nil in Hc.
Qed.

(** *** Callers, workers, timers and peers *)

Lemma owns_any_slot {A} i (p : prog bridge A) m :
  parks (local task_of i t) p none [] (λ _ n, n = none) → rests m → cowns (on_slot task_of i p) m (λ _, after m).
Proof.
  intros Hp Hm. apply (owns_slot_pause i p []); [done..|]. intros c Hc. by apply elem_of_nil in Hc.
Qed.

Lemma owns_lookup_pause {A} id (g : option nat → prog client A) m :
  rests m → (∀ h m', rests m' → cowns (g h) m' (λ _, rests)) →
  cowns (h <- get_request id ;; g h) m (λ _, rests).
Proof.
  intros Hm Hg. apply pause_then; [apply owns_looked, Hm; apply silent_load|].
  intros h m' [Hm' _]. by apply Hg.
Qed.

Lemma owns_only {A} (p : prog client A) m :
  cowns p m (λ _, after m) → cowns p m (λ _, rests).
Proof. apply owns_post. by intros _ m' [? _]. Qed.

Lemma owns_shutdown_pools m : rests m → cowns shutdown_pools m (λ _, rests).
Proof.
  intros Hm. apply pause_then; [exact (owns_still false tt _ m shutdown_still Hm)|].
  intros _ m' [Hm' _]. apply owns_only. exact (owns_still true tt _ m' shutdown_still Hm').
Qed.

Lemma owns_close_pause n m : rests m → cowns (hyper4k_client_close task_of n) m (λ _, rests).
Proof.
  intros Hm. unfold hyper4k_client_close. destruct n; [done|].
  apply pause_then; [apply owns_looked, Hm; by apply silent_looked, keeps_modify|]. intros _ m1 [Hm1 _].
  apply pause_then; [apply owns_looked, Hm1; apply silent_load|]. intros ids m2 [Hm2 _].
  eapply owns_bind with (N := λ _, rests).
  - clear -Hm2. revert m2 Hm2. induction ids as [|id ids IH]; intros m2 Hm2; cbn [close_all]; [done|].
    apply owns_lookup_pause; [done|]. intros [i|] m3 Hm3; [|by apply IH].
    apply pause_then; [apply owns_any_slot, Hm3; apply parks_settle|]. intros _ m4 [Hm4 _]. by apply IH.
  - intros ? m3 Hm3. apply owns_only, owns_looked, Hm3. by apply silent_looked, keeps_modify.
Qed.

Lemma stop_task_looked i why : keeps looked_at (stop_task i why).
Proof.
  split; [|done]. intros ? s s' r E. destruct (c_slots s !! i) as [q|] eqn:Eq; [|done].
  destruct (can_stop why q s && _); simplify_eq. unfold looked_at. simpl. f_equal. f_equal.
  change (map ?f ?l) with (fmap (M := list) f l). rewrite list_fmap_insert. simpl.
  apply list_insert_id. by rewrite list_lookup_fmap, Eq.
Qed.

Lemma owns_program_pause p m :
  client_program task_of conf request_max p → rests m → cowns p m (λ _, rests).
Proof.
  intros Hp. revert m. induction Hp; intros m Hm; [done|..];
    (eapply owns_bind with (N := λ _, rests); [|intros ? m' Hm'; exact (IHHp m' Hm')]).
  - by apply owns_send_pause.
  - unfold hyper4k_client_cancel. destruct n; [done|]. apply owns_lookup_pause; [done|]. intros [i|] m1 Hm1; [|done].
    apply owns_only, owns_any_slot, Hm1. apply parks_cancel.
  - unfold hyper4k_client_resume. destruct n; [done|]. apply owns_lookup_pause; [done|]. intros [i|] m1 Hm1; [|done].
    apply owns_only, owns_any_slot, Hm1. apply parks_resume.
  - by apply owns_close_pause.
  - unfold hyper4k_client_free. destruct n; [done|].
    eapply owns_bind; [by apply owns_close_pause|]. intros ? m1 Hm1.
    apply pause_then; [apply owns_looked, Hm1; apply silent_looked; split; [|done];
      intros ? s s' r E; by case_match; simplify_eq|]. intros _ m2 [Hm2 _].
    eapply owns_bind; [by apply owns_shutdown_pools|]. intros ? m3 Hm3.
    apply owns_only, owns_looked, Hm3. by apply silent_looked, keeps_modify.
  - unfold hyper4k_client_inflight_count. destruct n; [done|]. apply owns_only, owns_looked, Hm. apply silent_load.
  - unfold hyper4k_client_paused_stream_count. destruct n; [done|].
    apply pause_then; [exact (owns_still false 0 _ m total_paused_still Hm)|]. intros ? m1 [Hm1 _].
    apply pause_then; [exact (owns_still true 0 _ m1 total_paused_still Hm1)|]. by intros ? m2 [Hm2 _].
  - revert m Hm. induction l as [|i l IHl]; intros m Hm; cbn [client_worker]; [done|].
    apply pause_then; [apply owns_any_slot, Hm; apply parks_worker_turn|]. intros _ m1 [Hm1 _]. by apply IHl.
  - apply owns_only, owns_looked, Hm. apply silent_looked, stop_task_looked.
  - apply owns_only. exact (owns_still false tt _ m (peer_closes_still id) Hm).
  - apply owns_only. exact (owns_still true tt _ m (peer_closes_still id) Hm).
  - apply pause_then; [apply owns_looked, Hm; apply silent_looked; split; [|done];
      intros ? s s' r E; by case_match; simplify_eq|].
    intros _ m1 [Hm1 _]. by apply owns_shutdown_pools.
Qed.

(** *** The network task *)

Lemma owns_until_pause {A} i (p : prog client A) m (Q : A → holding fact → Prop) :
  cowns p m Q → cowns (until i p) m (λ r n, match r with Some a => Q a n | None => rests n end).
Proof.
  revert m. induction p as [a|T f k IH]; intros m Hp; simpl in *; [done|].
  intros s F Hs. specialize (Hp s F Hs). destruct (f t s) as [[s' r]|].
  - destruct Hp as (m' & ? & ?). exists m'. split; [done|by apply IH].
  - destruct (is_dropped i s); [|done]. by exists m.
Qed.

(** The result of [acquire] in a task: a connection that exists. *)
Definition task_got (h : bool) (m : holding fact) (r : option (Hyper4kErrorKind + nat)) (m' : holding fact) : Prop :=
  match r with
  | Some (inr c) => after m m' ∧ (0 < m' (Exists h c))%nat
  | Some (inl _) => after m m'
  | None => rests m'
  end.

Lemma got_task h m r m' zs : after m m' → got r zs → found_in h zs m' → task_got h m (Some r) m'.
Proof. destruct r as [e|c]; simpl; auto. Qed.

Lemma owns_acquire_pause i j a m :
  rests m → cowns (task_acquire conf i j a) m (task_got (j_https j) m).
Proof.
  intros Hm. unfold task_acquire. set (h := j_https j).
  assert (Hno : ∀ m', found_in h [] m') by (intros m' c Hc; by apply elem_of_nil in Hc).
  eapply owns_bind.
  { apply owns_until_pause. eapply (owns_scheme h _ _ [] m may_got); [apply finds_start_acquire|done|done|apply Hno]. }
  intros [[r|]|] m1; cbv beta iota.
  - intros [Ha (zs & Hr & Hz)]. by eapply got_task.
  - intros [Ha _]. destruct (connect conf j a) as [dial|].
    + eapply owns_bind; [eapply (owns_scheme h _ _ [] m1 got); [apply finds_finish_acquire|done|apply Ha|apply Hno]|].
      intros r m2 [Ha2 (zs & Hr & Hz)]. eapply got_task; [by eapply after_trans|done..].
    + apply pause_then; [apply owns_looked, Ha; apply silent_looked; split; [|done];
        intros ? s s' r E; by case_match; simplify_eq|]. intros _ m2 [Hm2 _].
      apply pause_then; [exact (owns_still h tt _ m2 (proj2 (lock_dial_still (j_key j))) Hm2)|].
      by intros ? m3 [Hm3 _].
  - done.
Qed.

Lemma owns_loop_pause i j idem pol (env : list Round) budget m :
  rests m → (0 < m (Task i (j_https j)))%nat →
  cowns (attempt_loop (T := pooled task_of conf i j) idem (deliver_response pol) env budget) m (λ _, rests).
Proof.
  revert budget m. induction env as [|a env IH]; intros budget m Hm Ht; cbn [attempt_loop].
  { eapply owns_bind; [apply owns_until_pause, owns_any_slot, Hm; apply parks_keeps; by split|].
    intros [r|] m1; cbv beta iota; [by intros [? _]|done]. }
  assert (Hend : ∀ x (b : bool) m', rests m' → cowns (on_slot task_of i (settle x true) ;; Ret b) m' (λ _, rests)).
  { intros x b m' Hm'. apply pause_then; [apply owns_any_slot, Hm'; apply parks_settle|]. by intros ? m2 [? _]. }
  assert (Hloop : ∀ m', after m m' → cowns (attempt_loop (T := pooled task_of conf i j) idem
    (deliver_response pol) env (budget - 1)) m' (λ _, rests)).
  { intros m' [? Hl]. apply IH; [done|]. by apply (Hl (Task i (j_https j))). }
  assert (Hdrop : ∀ c m', rests m' → cowns (on_job j tt (lease_drop c)) m' (λ _, after m')).
  { intros c m' Hm'. exact (owns_still (j_https j) tt _ m' (lease_drop_still c) Hm'). }
  eapply owns_bind; [by apply owns_acquire_pause|].
  intros [[k|c]|] m1 Hm1; simpl in Hm1; [by apply Hend, Hm1| |done]. destruct Hm1 as [Ha1 Hc].
  apply pause_then; [exact (owns_still (j_https j) true _ m1 (is_closed_still c) (proj1 Ha1))|].
  intros [|] m2 Ha2.
  - apply pause_then; [apply Hdrop, Ha2|]. intros _ m3 Ha3.
    destruct (0 <? budget); [apply Hloop; eauto using after_trans|apply Hend, Ha3].
  - eapply owns_bind.
    { apply owns_until_pause, (owns_slot_pause i _ [c]); [apply parks_attempt; by left|apply Ha2|].
      intros c' ->%list_elem_of_singleton. right. exists (j_https j).
      split; [apply (proj2 Ha2 (Task i (j_https j))), (proj2 Ha1 (Task i (j_https j))), Ht|].
      by apply (proj2 Ha2 (Exists (j_https j) c)). }
    intros again m3 Hm3.
    assert (rests m3) as Hr3 by (destruct again; [apply Hm3|done]).
    apply pause_then; [by apply Hdrop|]. intros _ m4 Ha4.
    destruct again as [[|]|]; [|apply Ha4..]. apply Hloop. eauto 6 using after_trans.
Qed.

Lemma owns_task_pause i env m : rests m → cowns (network_task task_of conf i env) m (λ _, rests).
Proof.
  intros Hm. unfold network_task.
  eapply owns_bind with (N := λ j m', rests m' ∧ (0 < m' (Task i (j_https j)))%nat).
  { apply owns_atomic. intros s F Hs. destruct (c_slots s !! i) as [q|] eqn:Eq; [|done].
    destruct (r_task q) as [j|] eqn:Er; [|done].
    exists (λ k, match k with Task i' h => if decide (i = i' ∧ j_https j = h) then 1%nat else m k | _ => m k end).
    split; [|split; [exact Hm|rewrite decide_True by done; lia]].
    destruct Hs as [H1 H2 H3 H4 H5 H6]. split; [done|done| |done|done|done].
    intros k Hk. unfold plus in Hk. specialize (H3 k). unfold plus in H3.
    destruct k as [| | |i' h|]; auto. destruct (decide (i = i' ∧ j_https j = h)) as [[<- <-]|]; [|auto].
    exists j. split; [by exists q|done]. }
  intros j m1 [Hm1 Ht]. eapply owns_bind; [by apply owns_loop_pause|]. intros [|] m2 Hm2; [done|].
  apply pause_then; [apply owns_looked, Hm2; apply silent_load|]. intros [[|]|] m3 [Hm3 _]; [done| |done].
  apply owns_only, owns_any_slot, Hm3. unfold request_timed_out.
  destruct (Request.request_timeout (j_policy j)); [apply parks_settle|done].
Qed.
End thread.

(** ** Every reachable state of a client *)

Lemma new_client_pause : pause_books (new_client conf) none.
Proof.
  split; try done; try (unfold none; lia).
  - intros [|] l; simpl; [destruct (cf_tls conf); [|done]|]; intros [= <-]; (split; [done|by intros id []]).
  - intros [|] l id e; simpl; [destruct (cf_tls conf); [|done]|]; by intros [= <-].
Qed.

Lemma reachable_pause_books ts c :
  client_threads task_of conf threads_max request_max ts → reachable (Config (new_client conf) ts) c →
  books_to pause_books rests (λ _ _, rests) (λ _, False) (λ _, True) c.
Proof.
  intros [_ Hts] Hr. eapply (reachable_books_to _ pause_books_same); [exact Hr|].
  apply (books_to_start _ pause_books_same); [apply new_client_pause|]. intros t p Hp. right. split; [done|].
  destruct (Hts t p Hp) as [Hc|(i & env & -> & ->)]; [by apply owns_program_pause|by apply owns_task_pause].
Qed.

(** The requests of a scheme that store a guard for connection [id]. *)
Definition stores_guard (h : bool) (id : nat) (q : request) : bool :=
  Bool.eqb (is_https q) h && bool_decide (pause_guard (r_bridge q) = Some id).
Definition paused_on (h : bool) (id : nat) (s : client) : list request :=
  List.filter (stores_guard h id) (c_slots s).

Lemma shares_stored s m h id :
  pause_books s m → rests m → shares h id s = Z.of_nat (length (paused_on h id s)).
Proof.
  intros Hs Hm. unfold shares, paused_on.
  assert (∀ q, q ∈ c_slots s → share_of h id q = if stores_guard h id q then 1 else 0) as Hq.
  { intros q [i Hi]%list_elem_of_lookup. unfold share_of, stores_guard.
    rewrite (pk_slot _ _ Hs i q id Hi), Hm. unfold guards.
    destruct (Bool.eqb _ _); simpl; [|done]. by case_decide; case_bool_decide. }
  clear -Hq. induction (c_slots s) as [|q l IH]; [done|]. simpl. unfold zsum in *. simpl.
  rewrite IH by (intros; apply Hq; by right). rewrite Hq by left. destruct (stores_guard h id q); simpl; lia.
Qed.

(** C26: the paused counts are exact.  When the threads of a client are over or
    wait, the paused count of a connection, by which the pool refuses to put more
    requests on it and which [hyper4k_client_paused_stream_count] sums up, is the
    number of requests of its scheme that store a guard for it: no pause was lost
    or counted twice, however resume, cancel, close, a timeout and the worker that
    parks the request raced. *)
Theorem paused_counts_are_exact ts c h l id e :
  client_threads task_of conf threads_max request_max ts → reachable (Config (new_client conf) ts) c →
  quiescent c → Z.of_nat (length (c_slots (shared c))) < 2 ^ 32 →
  pool_of h (shared c) = Some l → entries l !! id = Some e →
  Pool.paused e = Z.of_nat (length (paused_on h id (shared c))).
Proof.
  intros Hts Hr Hq Hsmall Hl He.
  destruct (books_over_kind _ pause_books_same (λ k, match k with Parked _ _ => True | _ => False end)
    _ _ _ _ c (reachable_pause_books ts c Hts Hr)) as (m & Hs & Hm).
  { intros m Hm [i x| | | |] Hk; [apply Hm|done..]. }
  { intros i p _ Hp. right. split; [by apply Hq|]. intros m Hm [? ?| | | |] Hk; [apply Hm|done..]. }
  rewrite (pk_pool _ _ Hs h l id e Hl He), (shares_stored _ m) by (done || (intros i x; by apply Hm)).
  apply wrap_id. split; [lia|].
  pose proof (List.filter_length_le (stores_guard h id) (c_slots (shared c))) as Hlen. unfold paused_on. lia.
Qed.
End client.

(** ** Witness: a caller that pauses at the first chunk *)

Import Client.Caller ClientSafety.Example3.

Module Example11.
Definition pausing : SendArgs :=
  {| a_client_null := false; a_mem := mem; a_request := Some (to_bytes get_request_struct); a_on_headers := true;
     a_on_chunk := true; a_on_done := true; a_out_null := false; a_script := [0; HYPER4K_CHUNK_PAUSE; 0] |}.
Definition ts : list (prog client unit) :=
  [hyper4k_client_send task_of conf pausing ;; Ret tt; client_worker task_of [0%nat] ;; Ret tt;
   network_task task_of conf 0 env].
Definition start : config client := Config (new_client conf) ts.

(** The worker parks the request. *)
Definition parked : config client :=
  default start (exec (replicate 8 0%nat ++ replicate 47 2%nat ++ replicate 29 1%nat) start).

Lemma parked_reachable : reachable start parked.
Proof.
  unfold parked. destruct (exec _ start) eqn:E; [by eapply exec_reachable|apply rtc_refl].
Qed.

Lemma pausing_threads : client_threads task_of conf 3 bound ts.
Proof.
  split; [unfold ts; cbn [length]; lia|].
  intros t p Hp. destruct (lookup_three _ _ _ _ _ Hp) as [[-> ->]|[[-> ->]|[-> ->]]].
  - left. constructor; [exact args_small|constructor].
  - left. apply (cp_worker task_of conf bound [0%nat]). constructor.
  - right. by exists 0%nat, env.
Qed.
End Example11.
Import Example11.

Lemma paused_counts_are_exact_witness :
  ∃ e, entries (c_pool (shared parked)) !! 1%nat = Some e ∧ Pool.paused e = 1 ∧
    length (paused_on false 1 (shared parked)) = 1%nat.
Proof.
  destruct (entries (c_pool (shared parked)) !! 1%nat) as [e|] eqn:Ee; [|vm_compute in Ee; discriminate Ee].
  assert (length (paused_on false 1 (shared parked)) = 1%nat) as El by (vm_compute; reflexivity).
  exists e. split; [reflexivity|]. split; [|exact El].
  assert (Pool.paused e = Z.of_nat (length (paused_on false 1 (shared parked)))) as Ep.
  { refine (paused_counts_are_exact task_of conf 3 bound Example11.ts parked false (c_pool (shared parked)) 1 e
      pausing_threads parked_reachable _ _ eq_refl Ee).
    - apply quiescent_test. vm_compute. reflexivity.
    - vm_compute. reflexivity. }
  rewrite Ep, El. reflexivity.
Defined.
