(* ===== verification/ClientCap.v ===== *)
(** * The connection cap of a client

    What [PoolFacts] shows of one pool carries over to both pools of a client:
    the only code that adds a connection is [acquire], called by the network tasks
    with the dial lock in hand, and a task that is dropped while it connects
    releases the lock without adding one. *)

From S2P Require Import Prelude Conc Abi Headers Text Uri Proxy Pool PoolFacts Tls Template Limits.
From S2P Require Import Retry Bridge Request Client ClientSafety ClientRun Served.

Open Scope prog_scope.

Section cap.
Context {H : HttpHeaders} {U : HttpUri} {M : HttpMethod} {R : Rustls}.
Context (task_of : nat → nat) (conf : ClientConf) (threads_max : nat) (request_max : Z).

#[local] Abbreviation pinv := (cap_inv DEFAULT_MAX_CONNS_PER_KEY) (only parsing).
#[local] Abbreviation psafe := (Conc.safe pinv cap_rely) (only parsing).

(** ** Invariant and interference *)

Definition cap_client_inv (s : client) : Prop := ∀ h p, pool_of h s = Some p → pinv p.

(** Between two states the pool of each scheme changes by an [X]-step. *)
Definition on_pools (X : pool → pool → Prop) (s s' : client) : Prop :=
  ∀ h, match pool_of h s with
       | Some p => ∃ p', pool_of h s' = Some p' ∧ X p p'
       | None => pool_of h s' = None
       end.

Definition cap_client_rely (t : nat) : client → client → Prop := on_pools (cap_rely t).

#[local] Abbreviation safe := (Conc.safe cap_client_inv cap_client_rely) (only parsing).
#[local] Abbreviation stable := (Conc.stable cap_client_inv cap_client_rely) (only parsing).
#[local] Abbreviation calm := (steps_in (on_pools tame)) (only parsing).

(** An assertion on the pool of a scheme, if there is one. *)
Definition OnPool (h : bool) (P : pool → Prop) (s : client) : Prop :=
  ∀ p, pool_of h s = Some p → P p.

Lemma OnPool_stable t h P : Conc.stable pinv cap_rely t P → stable t (OnPool h P).
Proof.
  intros HP s s' Hi Hi' Hr Hs p' Hp'. specialize (Hr h). destruct (pool_of h s) as [p|] eqn:E; [|congruence].
  destruct Hr as (p1 & E1 & Hr). rewrite E1 in Hp'. injection Hp' as ->.
  apply (HP p); [by apply (Hi h)|by apply (Hi' h)|done|by apply Hs].
Qed.

Lemma rely_same t p : cap_rely t p p.
Proof. split; auto. Qed.

Lemma guar_refl t s : guar cap_client_rely t s s.
Proof.
  intros t' _ h. destruct (pool_of h s) as [q|]; [|done]. exists q. split; [done|apply rely_same].
Qed.

(** One action on the pool of a scheme. *)
Lemma pool_step t h p p' s :
  cap_client_inv s → pool_of h s = Some p → pinv p' → guar cap_rely t p p' →
  cap_client_inv (set_pool h p' s) ∧ guar cap_client_rely t s (set_pool h p' s).
Proof.
  intros Hi Hp Hp' Hg. split.
  - intros h' q. destruct h, h'; simpl; [by intros [= <-]|exact (Hi false q)|exact (Hi true q)|by intros [= <-]].
  - intros t' Ht h'. destruct h, h'; simpl in *.
    + rewrite Hp. eauto.
    + exists (c_pool s). split; [done|apply rely_same].
    + destruct (c_tls_pool s) as [q|]; [|done]. exists q. split; [done|apply rely_same].
    + injection Hp as ->. eauto.
Qed.

(** ** Routines of the pools *)

Lemma safe_on_tls_pool {A} t (d : A) (p : prog pool A) P (Q : A → pool → Prop) :
  psafe t p P Q → safe t (on_tls_pool d p) (OnPool true P) (λ a, OnPool true (Q a)).
Proof.
  revert P. induction p as [a|T f k IH]; intros P [HP Hp].
  - apply safe_ret; [by apply OnPool_stable|]. intros s Hi Ps p Ep. apply Hp; [by apply (Hi true)|by apply Ps].
  - apply safe_atom; [by apply OnPool_stable|]. intros s s' r Hi Ps E.
    destruct (c_tls_pool s) as [l|] eqn:El.
    + destruct (f t l) as [[l' r']|] eqn:Ef; [|done]. injection E as <- <-.
      destruct (Hp l l' r' (Hi true l El) (Ps l El) Ef) as (Il & Hg & P' & Pl & Hk).
      destruct (pool_step t true l l' s Hi El Il Hg) as [Hi' Hg'].
      split_and!; [exact Hi'|exact Hg'|]. exists (OnPool true P'). split; [by intros ? [= <-]|by apply IH].
    + injection E as <- <-. split; [done|]. split; [by apply guar_refl|].
      exists (λ s, c_tls_pool s = None). split; [done|]. apply safe_ret.
      * intros s1 s2 _ _ Hr E1. specialize (Hr true). simpl in Hr. by rewrite E1 in Hr.
      * intros s1 _ E1 p Ep. simpl in Ep. congruence.
Qed.

Lemma safe_on_pool {A} t (p : prog pool A) P (Q : A → pool → Prop) :
  psafe t p P Q → safe t (on_pool p) (OnPool false P) (λ a, OnPool false (Q a)).
Proof.
  revert P. induction p as [a|T f k IH]; intros P [HP Hp].
  - apply safe_ret; [by apply OnPool_stable|]. intros s Hi Ps p Ep. apply Hp; [by apply (Hi false)|by apply Ps].
  - apply safe_atom; [by apply OnPool_stable|]. intros s s' r Hi Ps E.
    destruct (f t (c_pool s)) as [[l' r']|] eqn:Ef; [|done]. injection E as <- <-.
    destruct (Hp (c_pool s) l' r' (Hi false _ eq_refl) (Ps _ eq_refl) Ef) as (Il & Hg & P' & Pl & Hk).
    destruct (pool_step t false (c_pool s) l' s Hi eq_refl Il Hg) as [Hi' Hg'].
    split_and!; [exact Hi'|exact Hg'|]. exists (OnPool false P'). split; [by intros ? [= <-]|by apply IH].
Qed.

Lemma safe_on_job {A} t j (d : A) (p : prog pool A) P (Q : A → pool → Prop) :
  psafe t p P Q →
  safe t (on_job j d p) (OnPool (j_https j) P) (λ a, OnPool (j_https j) (Q a)).
Proof. unfold on_job. destruct (j_https j); [apply safe_on_tls_pool|apply safe_on_pool]. Qed.

(** A future that is dropped where it waits. *)
Lemma safe_until {A} t i (p : prog client A) P (Q : A → client → Prop) :
  safe t p P Q →
  safe t (until i p) P (λ r s, match r with Some a => Q a s | None => True end).
Proof.
  revert P. induction p as [a|T f k IH]; intros P [HP Hp]; [by apply safe_ret|].
  cbn [until]. apply safe_atom; [done|]. intros s s' r Hi Ps E. specialize (Hp s). destruct (f t s) as [[s1 r1]|].
  - injection E as <- <-. destruct (Hp s1 r1 Hi Ps eq_refl) as (? & ? & P' & ? & ?).
    split_and!; [done|done|]. exists P'. split; [done|by apply IH].
  - destruct (is_dropped i s); [|done]. injection E as <- <-. split; [done|]. split.
    { apply guar_refl. }
    exists (λ _, True). split; [done|by apply safe_ret].
Qed.

(** ** Code that adds no connection *)

Lemma on_pools_refl s : on_pools tame s s.
Proof.
  intros h. destruct (pool_of h s) as [p|]; [|done]. exists p. split; [done|apply tame_refl].
Qed.

Lemma cap_nonneg : 0 ≤ DEFAULT_MAX_CONNS_PER_KEY.
Proof. done. Qed.

Lemma calm_step s s' :
  cap_client_inv s → on_pools tame s s' → cap_client_inv s' ∧ ∀ t, cap_client_rely t s s'.
Proof.
  intros Hi Hs. split.
  - intros h p' Hp'. specialize (Hs h). destruct (pool_of h s) as [p|] eqn:E; [|congruence].
    destruct Hs as (p1 & E1 & Ht). rewrite E1 in Hp'. injection Hp' as ->.
    exact (proj1 (tame_ok _ cap_nonneg p p' (Hi h p E) Ht)).
  - intros t h. specialize (Hs h). destruct (pool_of h s) as [p|] eqn:E; [|done].
    destruct Hs as (p1 & E1 & Ht). exists p1. split; [done|].
    exact (proj2 (tame_ok _ cap_nonneg p p1 (Hi h p E) Ht) t).
Qed.

Lemma safe_calm {A} t (p : prog client A) P : stable t P → calm p → safe t p P (λ _, P).
Proof. apply safe_steps_in. apply calm_step. Qed.

(** The pools are as they were. *)
Definition pools (s : client) : pool * option pool := (c_pool s, c_tls_pool s).

Lemma calm_keeps {A} (p : prog client A) : keeps pools p → calm p.
Proof.
  induction p as [|T f k IH]; [done|]. intros [Hf Hk]. split; [|auto].
  intros t s s' r E. specialize (Hf t s s' r E). injection Hf as E1 E2. intros h.
  pose proof (on_pools_refl s h) as Hs. by destruct h; simpl in *; rewrite ?E1, ?E2.
Qed.

Lemma calm_on_job {A} j (d : A) (p : prog pool A) : steps_in tame p → calm (on_job j d p).
Proof.
  unfold on_job. destruct (j_https j); induction p as [|T f k IH]; simpl; try done; intros [Hf Hk].
  - split; [|by intros [r|]; [apply IH|]]. intros t s s' r E. destruct (c_tls_pool s) as [l|] eqn:El.
    + destruct (f t l) as [[l' r']|] eqn:Ef; [|done]. injection E as <- <-.
      intros [|]; simpl; [rewrite El; eauto|]. exists (c_pool s). split; [done|apply tame_refl].
    + injection E as <- <-. apply on_pools_refl.
  - split; [|by intros r; apply IH]. intros t s s' r E. destruct (f t (c_pool s)) as [[l' r']|] eqn:Ef; [|done].
    injection E as <- <-. intros [|]; simpl; [apply (on_pools_refl s true)|]. eauto.
Qed.

Lemma shift_paused_tame old new p : tame p (shift_paused old new p).
Proof.
  unfold shift_paused. case_decide; [apply tame_refl|]. split; try done. intros id. unfold live. simpl.
  rewrite map_lookup_imap. by destruct (entries p !! id) as [e|].
Qed.

Lemma put_bridge_pools i q b s : on_pools tame s (put_bridge i q b s).
Proof.
  unfold put_bridge, in_pool. destruct (is_https q); intros [|]; simpl.
  - destruct (c_tls_pool s) as [p|]; simpl; [|done]. eexists. split; [done|apply shift_paused_tame].
  - eexists. split; [done|apply tame_refl].
  - destruct (c_tls_pool s) as [p|]; simpl; [|done]. eexists. split; [done|apply tame_refl].
  - eexists. split; [done|apply shift_paused_tame].
Qed.

Lemma keeps_pools_limits {A} (p : prog counters A) : keeps pools (on_limits p).
Proof.
  induction p as [|T f k IH]; simpl; [done|]. split; [|done].
  intros t s s' r E. destruct (f t (c_limits s)) as [[]|]; by simplify_eq.
Qed.

Lemma calm_on_slot {A} i (p : prog bridge A) : calm (on_slot task_of i p).
Proof.
  induction p as [|T f k IH]; cbn [on_slot]; [done|]. split.
  - intros t s s' r E. destruct (c_slots s !! i) as [q|]; [|done].
    destruct (f _ _) as [[b r']|]; simplify_eq. apply put_bridge_pools.
  - intros [r [q|]]; cbn [fst snd]; [|apply IH]. apply steps_in_bind; [|auto].
    apply calm_keeps. apply keeps_bind; [apply keeps_pools_limits|]. intros _. by apply keeps_modify.
Qed.

Lemma calm_until {A} i (p : prog client A) : calm p → calm (until i p).
Proof.
  induction p as [|T f k IH]; simpl; [done|]. intros [Hf Hk]. split; [|intros [r|]; [by apply IH|done]].
  intros t s s' r E. specialize (Hf t s). destruct (f t s) as [[s1 r1]|].
  - injection E as <- _. by eapply Hf.
  - destruct (is_dropped i s); [|done]. injection E as <- _. apply on_pools_refl.
Qed.

Lemma calm_wait {T} (f : nat → client → option (client * T)) :
  (∀ t s s' r, f t s = Some (s', r) → s' = s) → calm (atomic f).
Proof. intros Hf. split; [|done]. intros t s s' r E. rewrite (Hf t s s' r E). apply on_pools_refl. Qed.

Lemma calm_send a : calm (hyper4k_client_send task_of conf a).
Proof.
  unfold hyper4k_client_send. destruct (read_request a) as [st|r]; [done|].
  apply steps_in_bind; [apply calm_keeps, keeps_load|]. intros [|]; [done|].
  destruct (prepare conf (a_mem a) r) as [st| |j]; [done|by split|].
  apply steps_in_bind; [by apply calm_keeps, keeps_fetch|]. intros id.
  apply steps_in_bind; [apply calm_keeps, keeps_pools_limits|]. intros [|]; [|done]. cbn [negb].
  apply steps_in_bind; [by apply calm_keeps, keeps_fetch|]. intros i.
  apply steps_in_bind; [by apply calm_keeps, keeps_modify|]. intros _.
  apply steps_in_bind; [by apply calm_keeps, keeps_modify|]. intros _.
  apply steps_in_bind; [apply calm_on_slot|done].
Qed.

Lemma calm_close n : calm (hyper4k_client_close task_of n).
Proof.
  unfold hyper4k_client_close. destruct n; [done|].
  apply steps_in_bind; [by apply calm_keeps, keeps_modify|]. intros _.
  apply steps_in_bind; [apply calm_keeps, keeps_load|]. intros ids.
  apply steps_in_bind; [|intros _; by apply calm_keeps, keeps_modify].
  induction ids as [|id ids IH]; cbn [close_all]; [done|].
  apply steps_in_bind; [apply calm_keeps, keeps_load|]. intros [i|];
    (apply steps_in_bind; [|intros _; exact IH]); [apply calm_on_slot|done].
Qed.

(** ** The threads of a client *)

#[local] Abbreviation anywhere := (λ _ : client, True) (only parsing).

(** A routine of a pool that any thread may run. *)
Lemma safe_pool_any {A} t h (q : prog client A) :
  safe t q (OnPool h (λ _, True)) (λ _, OnPool h (λ _, True)) → safe t q anywhere (λ _, anywhere).
Proof.
  intros Hq. eapply safe_post; [|eapply safe_pre; [| |exact Hq]]; [done|done|]. by intros s _ _ p _.
Qed.

Lemma safe_shutdown_pools t : safe t shutdown_pools anywhere (λ _, anywhere).
Proof.
  eapply safe_bind; [apply (safe_pool_any t false), safe_on_pool, (safe_shutdown _ cap_nonneg)|].
  intros ?; cbv beta. apply (safe_pool_any t true), safe_on_tls_pool, (safe_shutdown _ cap_nonneg).
Qed.

Lemma safe_task_acquire t i j a : safe t (task_acquire conf i j a) anywhere (λ _, anywhere).
Proof.
  unfold task_acquire. set (h := j_https j).
  eapply safe_bind.
  { eapply safe_pre with (P := OnPool h (λ _, True)); [done|by intros s _ _ p _|].
    apply safe_until, safe_on_job, safe_start_acquire. done. }
  intros [[r|]|]; cbv beta iota; fold h.
  - apply safe_ret; [|done]. apply OnPool_stable. done.
  - destruct (connect conf j a) as [dial|].
    + eapply safe_bind; [apply safe_on_job, safe_finish_acquire; done|]. intros r; cbv beta.
      apply safe_ret; [|done]. apply OnPool_stable. done.
    + assert (Hst : stable t (OnPool h (Room DEFAULT_MAX_CONNS_PER_KEY t (j_key j))))
        by (apply OnPool_stable, Room_stable; done).
      eapply safe_bind; [apply (safe_calm t _ _ Hst), calm_wait; intros ? s s' r E; by case_match; simplify_eq|].
      intros ?; cbv beta.
      eapply safe_bind.
      { eapply safe_pre with (P := OnPool h (Locked t (j_key j))); [exact Hst| |].
        - intros s _ Hs p Hp. apply (Hs p Hp).
        - apply safe_on_job, safe_unlock. }
      intros ?; cbv beta. apply safe_ret; [|done]. apply OnPool_stable. done.
  - by apply safe_ret.
Qed.

Lemma safe_task t i env : safe t (network_task task_of conf i env) anywhere (λ _, anywhere).
Proof.
  assert (Hcalm : ∀ {A} (p : prog client A), calm p → safe t p anywhere (λ _, anywhere))
    by (intros A p Hp; by apply safe_calm).
  assert (Hslot : ∀ {A} (p : prog bridge A) (b : bool),
    safe t (on_slot task_of i p ;; Ret b) anywhere (λ _, anywhere)).
  { intros A p b. eapply safe_bind; [apply Hcalm, calm_on_slot|]. intros ?; by apply safe_ret. }
  assert (Hdrop : ∀ j c, safe t (on_job j tt (lease_drop c)) anywhere (λ _, anywhere))
    by (intros j c; apply Hcalm, calm_on_job, lease_drop_tame).
  unfold network_task. eapply safe_bind.
  { apply Hcalm, calm_wait. intros ? s s' r E. by repeat case_match; simplify_eq. }
  intros j; cbv beta. eapply safe_bind with (M := λ _, anywhere).
  - generalize (policy_max_retries (j_policy j)). induction env as [|a env IH]; intros budget; cbn [attempt_loop].
    { eapply safe_bind; [apply Hcalm, calm_until, calm_on_slot|]. intros ?; by apply safe_ret. }
    eapply safe_bind; [apply safe_task_acquire|]. intros [[e|c]|]; cbv beta; [apply Hslot| |by apply safe_ret].
    eapply safe_bind; [apply Hcalm, calm_on_job; apply steps_in_load, tame_refl|]. intros [|]; cbv beta.
    + eapply safe_bind; [apply Hdrop|]. intros ?; cbv beta. destruct (0 <? budget); [apply IH|apply Hslot].
    + eapply safe_bind; [apply Hcalm, calm_until, calm_on_slot|]. intros again; cbv beta.
      eapply safe_bind; [apply Hdrop|]. intros ?; cbv beta. by destruct again as [[|]|]; [apply IH|apply safe_ret..].
  - intros [|]; cbv beta; [by apply safe_ret|].
    eapply safe_bind; [apply Hcalm, calm_keeps, keeps_load|].
    intros [[|]|]; cbv beta; [by apply safe_ret|apply Hcalm, calm_on_slot|by apply safe_ret].
Qed.

Lemma safe_caller t p : client_program task_of conf request_max p → safe t p anywhere (λ _, anywhere).
Proof.
  assert (Hcalm : ∀ {A} (p : prog client A), calm p → safe t p anywhere (λ _, anywhere))
    by (intros A q Hq; by apply safe_calm).
  assert (Hlook : ∀ id (g : option nat → prog client Hyper4kStatus), (∀ h, calm (g h)) →
    calm (h <- get_request id ;; g h)).
  { intros id g Hg. apply steps_in_bind; [apply calm_keeps, keeps_load|exact Hg]. }
  induction 1; [by apply safe_ret|..]; (eapply safe_bind; [|intros ?; exact IHclient_program]).
  - apply Hcalm, calm_send.
  - apply Hcalm. unfold hyper4k_client_cancel. destruct n; [done|]. apply Hlook. intros [i|]; [apply calm_on_slot|done].
  - apply Hcalm. unfold hyper4k_client_resume. destruct n; [done|]. apply Hlook. intros [i|]; [apply calm_on_slot|done].
  - apply Hcalm, calm_close.
  - unfold hyper4k_client_free. destruct n; [by apply safe_ret|].
    eapply safe_bind; [apply Hcalm, calm_close|]. intros ?; cbv beta.
    eapply safe_bind; [apply Hcalm, calm_wait; intros ? s s' r E; by case_match; simplify_eq|]. intros ?; cbv beta.
    eapply safe_bind; [apply safe_shutdown_pools|]. intros ?; cbv beta. by apply Hcalm, calm_keeps, keeps_modify.
  - apply Hcalm. unfold hyper4k_client_inflight_count. destruct n; [done|apply calm_keeps, keeps_load].
  - assert (Htot : steps_in tame total_paused) by apply total_paused_tame.
    unfold hyper4k_client_paused_stream_count. destruct n; [by apply safe_ret|].
    eapply safe_bind; [apply (safe_pool_any t false), safe_on_pool, safe_tame; done|]. intros ?; cbv beta.
    eapply safe_bind; [apply (safe_pool_any t true), safe_on_tls_pool, safe_tame; done|].
    intros ?; by apply safe_ret.
  - apply Hcalm. induction l as [|i l IHl]; cbn [client_worker]; [done|].
    apply steps_in_bind; [apply calm_on_slot|intros _; exact IHl].
  - apply Hcalm. split; [|done]. intros ? s s' r E. destruct (c_slots s !! i) as [q|]; [|done].
    destruct (can_stop why q s && _); simplify_eq. apply (on_pools_refl s).
  - apply (safe_pool_any t false), safe_on_pool, safe_tame; [done|done|apply peer_closes_tame].
  - apply (safe_pool_any t true), safe_on_tls_pool, safe_tame; [done|done|apply peer_closes_tame].
  - eapply safe_bind; [apply Hcalm, calm_wait; intros ? s s' r E; by case_match; simplify_eq|].
    intros ?; cbv beta. apply safe_shutdown_pools.
Qed.

(** C24: the connection cap of a client.  Whatever its threads do, and wherever
    its tasks are dropped while they connect, for each key the connections of
    either pool that are alive (not given up, not closed by the peer) never number
    more than [DEFAULT_MAX_CONNS_PER_KEY]. *)
Theorem client_connections_are_capped ts c s key :
  client_threads task_of conf threads_max request_max ts → reachable (Config (new_client conf) ts) c →
  s = c_pool (shared c) ∨ c_tls_pool (shared c) = Some s →
  Z.of_nat (length (live_ids s (conn_list s key))) ≤ DEFAULT_MAX_CONNS_PER_KEY.
Proof.
  intros [_ Hts] Hr Hs. assert (cap_client_inv (shared c)) as Hi.
  { refine (proj1 (safe_sound cap_client_inv cap_client_rely _ _ Hr _)). split.
    - intros h p Hp. assert (p = pool_new) as ->.
      { destruct h; simpl in Hp; [|congruence]. destruct (cf_tls conf); congruence. }
      split; unfold conn_list; simpl; intros k; rewrite lookup_empty; simpl; [done|].
      by intros ? ?%elem_of_nil.
    - intros t p Hp. exists (λ _, True). split; [done|]. simpl in Hp.
      eapply safe_post with (Q := λ _ _, True); [done|].
      destruct (Hts t p Hp) as [Hc|(i & env & -> & ->)]; [by apply safe_caller|apply safe_task]. }
  apply ci_cap. destruct Hs as [-> | E]; [by apply (Hi false)|by apply (Hi true)].
Qed.
End cap.

(** ** Witness *)

Import Client.Caller ClientSafety.Example3.

Definition origin_key : PoolKey := pool_key (lit "http") (lit "origin") 80.

(** The connection of the example is alive in the pool, and the only one. *)
Lemma client_connections_are_capped_witness :
  live_ids (c_pool (shared final)) (conn_list (c_pool (shared final)) origin_key) = [1%nat] ∧
  Z.of_nat (length (live_ids (c_pool (shared final)) (conn_list (c_pool (shared final)) origin_key))) ≤ 8.
Proof.
  split; [vm_compute; reflexivity|].
  exact (client_connections_are_capped task_of conf 3 bound ts final _ origin_key threads_ok
    client_final_reachable (or_introl eq_refl)).
Defined.
