(* ===== verification/Start.v ===== *)
(** * Starting and stopping a server

    Source: [hyper4k_server_start], [hyper4k_server_start_tls],
    [build_tls_config], the accept loops and [hyper4k_server_stop] of
    [lib/src/lib.rs].

    A C string is its bytes up to the NUL, or [None] for NULL.  Address parsing,
    the file system, rustls and the operating system's answers are the
    environment [Host]. *)

From S2P Require Import Prelude Headers Text.

(** ** UTF-8 encoding and trimming *)

(** The bytes of a character. *)
Definition encode_char (c : Z) : bytes :=
  if c <? 128 then [c]
  else if c <? 2048 then [192 + c / 64; 128 + c mod 64]
  else if c <? 65536 then [224 + c / 4096; 128 + c / 64 mod 64; 128 + c mod 64]
  else [240 + c / 262144; 128 + c / 4096 mod 64; 128 + c / 64 mod 64; 128 + c mod 64].

(** [str::as_bytes]. *)
Definition as_bytes (s : list Z) : bytes := concat (map encode_char s).

(** A [char]: a code point that is not a surrogate. *)
Definition is_char (c : Z) : Prop := 0 ≤ c < 55296 ∨ 57344 ≤ c < 1114112.

Fixpoint drop_whitespace (s : list Z) : list Z :=
  match s with
  | c :: s' => if is_whitespace c then drop_whitespace s' else s
  | [] => []
  end.

(** [str::trim]. *)
Definition str_trim (s : list Z) : list Z := rev (drop_whitespace (rev (drop_whitespace s))).

(** [alpn.split(',').map(str::trim).filter(|p| !p.is_empty())]. *)
Definition alpn_list (alpn : list Z) : list bytes :=
  map as_bytes (filter (λ p, p ≠ []) (map str_trim (split (λ c, c =? 44) alpn))).

(** ** The environment *)

Class Host := {
  SocketAddr : Type;
  ServerCert : Type;
  PrivateKey : Type;
  (* [str::parse::<SocketAddr>] *)
  parse_addr : bytes → option SocketAddr;
  (* [File::open] and reading *)
  open_file : bytes → option bytes;
  (* [rustls_pemfile::certs] and [private_key] *)
  read_certs : bytes → list (option ServerCert);
  read_key : bytes → option (option PrivateKey);
  (* [with_single_cert]: do the certificate and the key fit *)
  key_matches : list ServerCert → PrivateKey → bool;
  (* the Tokio runtime, [TcpListener::bind] *)
  builds_runtime : bool;
  binds : SocketAddr → bool;
}.

Section start.
Context {E : Host}.

Record ServerConfig := {
  sc_certs : list ServerCert;
  sc_key : PrivateKey;
  sc_alpn : list bytes;
}.

(** The pointer a start function returns: a server listening at an address, with
    TLS or without. *)
Record Hyper4kServer := {
  sv_addr : SocketAddr;
  sv_tls : option ServerConfig;
}.

(** NULL or not UTF-8 selects the fallback. *)
Definition as_str (p : option bytes) (fallback : bytes) : bytes :=
  match p with
  | None => fallback
  | Some s => if is_utf8 s then s else fallback
  end.

(** [collect::<Result<Vec<_>, _>>()]. *)
Fixpoint collect {A} (l : list (option A)) : option (list A) :=
  match l with
  | [] => Some []
  | None :: _ => None
  | Some a :: l => cons a <$> collect l
  end.

Definition build_tls_config (cert_path key_path alpn : bytes) : option ServerConfig :=
  file ← open_file cert_path;
  certs ← collect (read_certs file);
  if bool_decide (certs = []) then None
  else
    keyfile ← open_file key_path;
    key ← mjoin (read_key keyfile);
    if negb (key_matches certs key) then None
    else
      Some {| sc_certs := certs; sc_key := key;
              sc_alpn := alpn_list (default [] (from_utf8 alpn)) |}.

Definition listen_addr (host : bytes) (port : Z) : option SocketAddr :=
  parse_addr (host ++ [58] ++ u16_to_string port).

(** The runtime and the listener, in this order. *)
Definition bind_listener (addr : SocketAddr) (tls : option ServerConfig) : option Hyper4kServer :=
  if negb builds_runtime then None
  else if negb (binds addr) then None
  else Some {| sv_addr := addr; sv_tls := tls |}.

(** [None] is NULL. *)
Definition hyper4k_server_start (host : option bytes) (port : Z) : option Hyper4kServer :=
  let host := as_str host (lit "0.0.0.0") in
  addr ← listen_addr host port;
  bind_listener addr None.

Definition hyper4k_server_start_tls (host : option bytes) (port : Z)
    (cert_path key_path alpn : option bytes) : option Hyper4kServer :=
  let host := as_str host (lit "0.0.0.0") in
  let cert_path := as_str cert_path [] in
  let key_path := as_str key_path [] in
  let alpn := as_str alpn (lit "http/1.1") in
  addr ← listen_addr host port;
  tls ← build_tls_config cert_path key_path alpn;
  bind_listener addr (Some tls).
End start.

(** ** The accept loops

    What the two branches of [select!] give, turn by turn; a connection is a
    number.  The result is the connection tasks that were spawned and whether the
    loop has ended. *)
Inductive Turn :=
| ShutdownFired
| Accepted (conn : nat)
| AcceptFailed.

Fixpoint serve_loop (turns : list Turn) : list nat * bool :=
  match turns with
  | [] => ([], false)
  | ShutdownFired :: _ => ([], true)
  | AcceptFailed :: turns => serve_loop turns
  | Accepted c :: turns => let '(spawned, ended) := serve_loop turns in (c :: spawned, ended)
  end.

Definition serve_plaintext (turns : list Turn) : list nat * bool := serve_loop turns.

(** With TLS each task first does its own handshake ([handshake c]); when that
    fails only this task returns.  The connections that are then served. *)
Definition serve_tls (handshake : nat → bool) (turns : list Turn) : list nat * bool :=
  let '(spawned, ended) := serve_loop turns in (filter (λ c, handshake c = true) spawned, ended).


(** ** Stopping *)

(** The parts of the server object: the shutdown sender, whether it has fired,
    the runtime. *)
Record ServerState := {
  st_shutdown_tx : bool;
  st_fired : bool;
  st_runtime : bool;
}.

Definition server_state_new : ServerState :=
  {| st_shutdown_tx := true; st_fired := false; st_runtime := true |}.

(** [hyper4k_server_stop]: take the sender and fire it, then drop the rest. *)
Definition hyper4k_server_stop (server : option ServerState) : option ServerState :=
  match server with
  | None => None
  | Some s =>
      Some {| st_shutdown_tx := false; st_fired := st_fired s || st_shutdown_tx s;
              st_runtime := false |}
  end.

(** ** Lemmas *)

Lemma encode_char_decode c l :
  is_char c → from_utf8 (encode_char c ++ l) = cons c <$> from_utf8 l.
Proof.
  intros Hc. unfold is_char in Hc. unfold encode_char.
  assert (Hcont : ∀ x, continuation (128 + x mod 64) = true).
  { intros x. unfold continuation, between. pose proof (Z.mod_pos_bound x 64).
    apply andb_true_iff. rewrite !Z.leb_le. lia. }
  destruct (Z.ltb_spec c 128).
  { cbn [app from_utf8]. by rewrite (proj2 (Z.ltb_lt _ _)) by lia. }
  destruct (Z.ltb_spec c 2048).
  { pose proof (Z.div_mod c 64 ltac:(lia)) as Ed. pose proof (Z.mod_pos_bound c 64 ltac:(lia)).
    cbn [app from_utf8]. rewrite (proj2 (Z.ltb_ge (192 + c / 64) 128)) by lia.
    assert (between 194 223 (192 + c / 64) = true) as ->
      by (unfold between; apply andb_true_iff; rewrite !Z.leb_le; lia).
    rewrite Hcont. do 2 f_equal. lia. }
  destruct (Z.ltb_spec c 65536).
  { pose proof (Z.div_mod c 64 ltac:(lia)). pose proof (Z.mod_pos_bound c 64 ltac:(lia)).
    pose proof (Z.div_mod (c / 64) 64 ltac:(lia)). pose proof (Z.mod_pos_bound (c / 64) 64 ltac:(lia)).
    assert (c / 4096 = c / 64 / 64) as E by (by rewrite Z.div_div by lia).
    cbn [app from_utf8]. rewrite (proj2 (Z.ltb_ge (224 + c / 4096) 128)) by lia.
    assert (between 194 223 (224 + c / 4096) = false) as ->
      by (unfold between; apply andb_false_iff; right; apply Z.leb_gt; lia).
    assert (between 224 239 (224 + c / 4096) = true) as ->
      by (unfold between; apply andb_true_iff; rewrite !Z.leb_le; lia).
    assert (second_ok (224 + c / 4096) (128 + c / 64 mod 64) = true) as ->.
    { unfold second_ok. repeat case_match; try apply Hcont; unfold between;
        apply andb_true_iff; rewrite !Z.leb_le; bool_lia. }
    rewrite Hcont. cbn [andb]. do 2 f_equal. lia. }
  pose proof (Z.div_mod c 64 ltac:(lia)). pose proof (Z.mod_pos_bound c 64 ltac:(lia)).
  pose proof (Z.div_mod (c / 64) 64 ltac:(lia)). pose proof (Z.mod_pos_bound (c / 64) 64 ltac:(lia)).
  pose proof (Z.div_mod (c / 4096) 64 ltac:(lia)). pose proof (Z.mod_pos_bound (c / 4096) 64 ltac:(lia)).
  assert (c / 4096 = c / 64 / 64) as E by (by rewrite Z.div_div by lia).
  assert (c / 262144 = c / 4096 / 64) as E' by (by rewrite Z.div_div by lia).
  cbn [app from_utf8]. rewrite (proj2 (Z.ltb_ge (240 + c / 262144) 128)) by lia.
  assert (between 194 223 (240 + c / 262144) = false) as ->
    by (unfold between; apply andb_false_iff; right; apply Z.leb_gt; lia).
  assert (between 224 239 (240 + c / 262144) = false) as ->
    by (unfold between; apply andb_false_iff; right; apply Z.leb_gt; lia).
  assert (between 240 244 (240 + c / 262144) = true) as ->
    by (unfold between; apply andb_true_iff; rewrite !Z.leb_le; lia).
  assert (second_ok (240 + c / 262144) (128 + c / 4096 mod 64) = true) as ->.
  { unfold second_ok. repeat case_match; try apply Hcont; unfold between;
      apply andb_true_iff; rewrite !Z.leb_le; bool_lia. }
  rewrite !Hcont. cbn [andb]. do 2 f_equal. lia.
Qed.

(** Encoding a string and decoding it. *)
Lemma from_utf8_as_bytes s : Forall is_char s → from_utf8 (as_bytes s) = Some s.
Proof.
  unfold as_bytes. induction 1 as [|c s Hc _ IH]; [done|]. cbn [map concat].
  by rewrite encode_char_decode, IH.
Qed.

(** The comma-separated text of a list of names. *)
Fixpoint join_comma (ps : list (list Z)) : list Z :=
  match ps with
  | [] => []
  | [p] => p
  | p :: ps => p ++ [44] ++ join_comma ps
  end.

Lemma split_none p l : Forall (λ c, p c = false) l → split p l = [l].
Proof. induction 1 as [|c l Hc _ IH]; [done|]. simpl. by rewrite Hc, IH. Qed.

Lemma split_join ps :
  ps ≠ [] → Forall (λ p, Forall (λ c, (c =? 44) = false) p) ps →
  split (λ c, c =? 44) (join_comma ps) = ps.
Proof.
  intros Hne Hps. induction Hps as [|p ps Hp Hps IH]; [done|].
  destruct ps as [|p' ps]; [by apply split_none|].
  change (join_comma (p :: p' :: ps)) with (p ++ 44 :: join_comma (p' :: ps)).
  rewrite split_line by done. f_equal. by apply IH.
Qed.

(** A preference list is advertised in the caller's order: the names of the text
    "a,b,c" are a, b and c, when none is empty, padded or has a comma. *)
Theorem alpn_list_roundtrip ps :
  ps ≠ [] → Forall (λ p, p ≠ [] ∧ str_trim p = p ∧ Forall (λ c, (c =? 44) = false) p) ps →
  alpn_list (join_comma ps) = map as_bytes ps.
Proof.
  intros Hne Hps. unfold alpn_list. f_equal.
  rewrite split_join; [|done|by eapply Forall_impl; [exact Hps|]; intros ? (_ & _ & ?)].
  clear Hne. induction Hps as [|p ps (Hp & Ht & _) _ IH]; [done|]. cbn [map].
  rewrite Ht, filter_cons_True by done. by f_equal.
Qed.

(** A TLS start never falls back to plaintext: what it returns listens with a
    certificate chain that is not empty and a key that fits it, at the address
    that was asked for. *)
Theorem start_tls_is_tls `{E : Host} host port cert key alpn sv :
  hyper4k_server_start_tls host port cert key alpn = Some sv →
  listen_addr (as_str host (lit "0.0.0.0")) port = Some (sv_addr sv) ∧ binds (sv_addr sv) = true ∧
  ∃ cfg, sv_tls sv = Some cfg ∧ sc_certs cfg ≠ [] ∧ key_matches (sc_certs cfg) (sc_key cfg) = true ∧
    sc_alpn cfg = alpn_list (default [] (from_utf8 (as_str alpn (lit "http/1.1")))).
Proof.
  unfold hyper4k_server_start_tls, build_tls_config, bind_listener.
  destruct (listen_addr _ _) as [addr|]; [|done]. simpl.
  destruct (open_file (as_str cert [])) as [file|]; [|done]. simpl.
  destruct (collect (read_certs file)) as [certs|]; [|done]. simpl.
  case_bool_decide as Hc; [done|].
  destruct (open_file (as_str key [])) as [kf|]; [|done]. simpl.
  destruct (mjoin (read_key kf)) as [k|]; [|done]. simpl.
  destruct (key_matches certs k) eqn:Ek; [|done]. simpl.
  destruct builds_runtime; [|done]. simpl. destruct (binds addr) eqn:Eb; [|done]. simpl.
  intros [= <-]. simpl. split_and!; [done|done|]. eexists. by split_and!.
Qed.

(** The accept loop serves every connection accepted before the shutdown, in
    order; a failed accept costs nothing but itself; it ends with the shutdown. *)
Theorem serve_loop_spec before after :
  ShutdownFired ∉ before →
  serve_loop (before ++ ShutdownFired :: after) =
    (omap (λ t, match t with Accepted c => Some c | _ => None end) before, true) ∧
  serve_loop before = (omap (λ t, match t with Accepted c => Some c | _ => None end) before, false).
Proof.
  induction before as [|x before IH]; intros Hn; [done|].
  apply not_elem_of_cons in Hn as [Hx Hn]. destruct (IH Hn) as [E1 E2].
  destruct x as [|c|]; [done| |]; simpl; by rewrite ?E1, ?E2.
Qed.
