(* ===== verification/Channels.v ===== *)
(** * Tokio's channels, as the server uses them

    [oneshot] and [mpsc] belong to tokio.  [TokioChannels] is what the server
    calls, [TokioChannelsLaws] the documented behaviour the theorems use, and
    [Module Concrete] an instance of both.  A channel value is the state both
    halves share. *)

From S2P Require Import Prelude.

Inductive TrySend := SendOk | SendFull | SendClosed.

#[export] Instance TrySend_eq_dec : EqDecision TrySend.
Proof. solve_decision. Defined.

Class TokioChannels (D : Type) := {
  (* oneshot::channel, Sender::send (the bool is [is_ok]), dropping a half *)
  oneshot : Type;
  oneshot_channel : oneshot;
  oneshot_send : oneshot → D → oneshot * bool;
  oneshot_drop_sender : oneshot → oneshot;
  (* a value that was not received goes with the receiver *)
  oneshot_drop_receiver : oneshot → oneshot * option D;
  (* polling the receiver: pending, [Err] (no sender is left), or the value *)
  oneshot_poll : oneshot → oneshot * option (option D);
  (* observations: the value in the channel; the sender, the receiver still exists *)
  oneshot_value : oneshot → option D;
  oneshot_sender : oneshot → bool;
  oneshot_open : oneshot → bool;
  (* mpsc::channel, Sender::clone, dropping a sender or the receiver *)
  mpsc : Type;
  mpsc_channel : nat → mpsc;
  mpsc_clone : mpsc → mpsc;
  mpsc_drop_sender : mpsc → mpsc;
  mpsc_drop_receiver : mpsc → mpsc;
  mpsc_try_send : mpsc → bytes → mpsc * TrySend;
  (* polling the receiver: pending, the end of the stream, or a message *)
  mpsc_poll : mpsc → mpsc * option (option bytes);
  (* observations: messages in the channel, bound, senders, receiver dropped *)
  mpsc_queue : mpsc → list bytes;
  mpsc_capacity : mpsc → nat;
  mpsc_senders : mpsc → nat;
  mpsc_closed : mpsc → bool;
}.

Class TokioChannelsLaws {D} (T : TokioChannels D) := {
  oneshot_new :
    oneshot_value oneshot_channel = None ∧ oneshot_sender oneshot_channel = true ∧
    oneshot_open oneshot_channel = true;
  oneshot_sent c d :
    oneshot_open c = true →
    ∃ c', oneshot_send c d = (c', true) ∧ oneshot_value c' = Some d ∧ oneshot_open c' = true;
  oneshot_refused c d :
    oneshot_open c = false →
    ∃ c', oneshot_send c d = (c', false) ∧ oneshot_value c' = oneshot_value c ∧
      oneshot_open c' = false;
  oneshot_sender_dropped c :
    oneshot_value (oneshot_drop_sender c) = oneshot_value c ∧
    oneshot_open (oneshot_drop_sender c) = oneshot_open c;
  oneshot_receiver_dropped c :
    ∃ c', oneshot_drop_receiver c = (c', oneshot_value c) ∧ oneshot_value c' = None ∧
      oneshot_sender c' = oneshot_sender c ∧ oneshot_open c' = false;
  oneshot_received c d :
    oneshot_value c = Some d →
    ∃ c', oneshot_poll c = (c', Some (Some d)) ∧ oneshot_value c' = None ∧
      oneshot_open c' = oneshot_open c;
  oneshot_waiting c :
    oneshot_value c = None → oneshot_poll c = (c, if oneshot_sender c then None else Some None);
  mpsc_new n :
    mpsc_queue (mpsc_channel n) = [] ∧ mpsc_capacity (mpsc_channel n) = n ∧
    mpsc_senders (mpsc_channel n) = 1%nat ∧ mpsc_closed (mpsc_channel n) = false;
  mpsc_cloned c :
    mpsc_queue (mpsc_clone c) = mpsc_queue c ∧ mpsc_capacity (mpsc_clone c) = mpsc_capacity c ∧
    mpsc_senders (mpsc_clone c) = S (mpsc_senders c) ∧ mpsc_closed (mpsc_clone c) = mpsc_closed c;
  mpsc_sender_dropped c :
    mpsc_queue (mpsc_drop_sender c) = mpsc_queue c ∧
    mpsc_capacity (mpsc_drop_sender c) = mpsc_capacity c ∧
    mpsc_senders (mpsc_drop_sender c) = Nat.pred (mpsc_senders c) ∧
    mpsc_closed (mpsc_drop_sender c) = mpsc_closed c;
  mpsc_receiver_dropped c :
    mpsc_queue (mpsc_drop_receiver c) = [] ∧
    mpsc_capacity (mpsc_drop_receiver c) = mpsc_capacity c ∧
    mpsc_senders (mpsc_drop_receiver c) = mpsc_senders c ∧
    mpsc_closed (mpsc_drop_receiver c) = true;
  try_send_closed c b : mpsc_closed c = true → mpsc_try_send c b = (c, SendClosed);
  try_send_full c b :
    mpsc_closed c = false → (mpsc_capacity c ≤ length (mpsc_queue c))%nat →
    mpsc_try_send c b = (c, SendFull);
  try_send_room c b :
    mpsc_closed c = false → (length (mpsc_queue c) < mpsc_capacity c)%nat →
    ∃ c', mpsc_try_send c b = (c', SendOk) ∧ mpsc_queue c' = mpsc_queue c ++ [b] ∧
      mpsc_capacity c' = mpsc_capacity c ∧ mpsc_senders c' = mpsc_senders c ∧
      mpsc_closed c' = false;
  poll_message c b q :
    mpsc_queue c = b :: q →
    ∃ c', mpsc_poll c = (c', Some (Some b)) ∧ mpsc_queue c' = q ∧
      mpsc_capacity c' = mpsc_capacity c ∧ mpsc_senders c' = mpsc_senders c ∧
      mpsc_closed c' = mpsc_closed c;
  poll_empty c :
    mpsc_queue c = [] →
    mpsc_poll c = (c, if decide (mpsc_senders c = 0%nat) then Some None else None);
}.

Section laws.
Context {D : Type} {T : TokioChannels D} {TL : TokioChannelsLaws T}.

Lemma oneshot_send_ok c d : oneshot_open c = true → (oneshot_send c d).2 = true.
Proof. intros E. by destruct (oneshot_sent c d E) as (? & -> & _). Qed.

Lemma oneshot_send_err c d : oneshot_open c = false → (oneshot_send c d).2 = false.
Proof. intros E. by destruct (oneshot_refused c d E) as (? & -> & _). Qed.

Lemma oneshot_poll_sent c d :
  oneshot_open c = true → (oneshot_poll (oneshot_send c d).1).2 = Some (Some d).
Proof.
  intros E. destruct (oneshot_sent c d E) as (c' & -> & Hv & _). simpl.
  by destruct (oneshot_received c' d Hv) as (? & -> & _).
Qed.
End laws.

(** ** An instance *)

Module Concrete.
Record one (D : Type) := One { value : option D; tx : bool; rx : bool }.
Arguments One {D}. Arguments value {D}. Arguments tx {D}. Arguments rx {D}.

Record chan := Chan { buffer : list bytes; bound : nat; senders : nat; closed : bool }.

#[export] Instance tokio D : TokioChannels D := {
  oneshot := one D;
  oneshot_channel := One None true true;
  oneshot_send c d :=
    if rx c then (One (Some d) false true, true) else (One (value c) false false, false);
  oneshot_drop_sender c := One (value c) false (rx c);
  oneshot_drop_receiver c := (One None (tx c) false, value c);
  oneshot_poll c :=
    match value c with
    | Some d => (One None (tx c) (rx c), Some (Some d))
    | None => (c, if tx c then None else Some None)
    end;
  oneshot_value := value;
  oneshot_sender := tx;
  oneshot_open := rx;
  mpsc := chan;
  mpsc_channel n := Chan [] n 1 false;
  mpsc_clone c := Chan (buffer c) (bound c) (S (senders c)) (closed c);
  mpsc_drop_sender c := Chan (buffer c) (bound c) (Nat.pred (senders c)) (closed c);
  mpsc_drop_receiver c := Chan [] (bound c) (senders c) true;
  mpsc_try_send c b :=
    if closed c then (c, SendClosed)
    else if Nat.ltb (length (buffer c)) (bound c)
    then (Chan (buffer c ++ [b]) (bound c) (senders c) false, SendOk)
    else (c, SendFull);
  mpsc_poll c :=
    match buffer c with
    | b :: q => (Chan q (bound c) (senders c) (closed c), Some (Some b))
    | [] => (c, if decide (senders c = 0%nat) then Some None else None)
    end;
  mpsc_queue := buffer;
  mpsc_capacity := bound;
  mpsc_senders := senders;
  mpsc_closed := closed;
}.

#[export] Instance tokio_laws D : TokioChannelsLaws (tokio D).
Proof.
  constructor; simpl; try done; try by eauto.
  - intros c d ->. by eauto.
  - intros c d E. rewrite E. by eauto.
  - intros c d ->. by eauto.
  - by intros c ->.
  - by intros c b ->.
  - intros c b -> H. destruct (Nat.ltb_spec (length (buffer c)) (bound c)); [lia|done].
  - intros c b Hc H. rewrite Hc, (proj2 (Nat.ltb_lt _ _) H). eexists. split; [reflexivity|done].
  - intros c b q ->. eexists. split; [reflexivity|done].
  - by intros c ->.
Qed.
End Concrete.
