(* ===== verification/Server.v ===== *)
(** * The server: responders, one-shot responses and streams

    Source: [lib/src/lib.rs].  A request is shown to the callback with a
    responder id; the callback, or any other thread later, answers through it
    with [hyper4k_respond], or with [hyper4k_response_begin], [_write] and
    [_finish].

    One value of [server] is the shared state of the process: the responder-id
    counter, the two registries (DashMap, one map operation per action), the
    channels, and the thread-locals of the fast path, indexed by thread.  Each
    function is a [prog], one action per access of the source.  The callback is
    a [prog] too: what it calls happens on the calling thread.

    The crate is built with [panic = "abort"]: a panic is an action that cannot
    be taken.  Ghost: [accepted] and [received] are the chunks a stream took in
    and gave out, [registered] the responder of each one-shot channel (until then
    the thread that made it), [offered] the answers that were given, [answered] the responders whose channel took one,
    [served] the responses that [handle] returned. *)

From S2P Require Import Prelude Conc Headers Channels.

Open Scope prog_scope.

Definition MAX_REQUEST_BODY_BYTES : Z := 16 * 1024 * 1024.
Definition STREAM_CHANNEL_CAPACITY : nat := 4.

Definition HYPER4K_OK : Z := 1.
Definition HYPER4K_FAILED : Z := 0.
Definition HYPER4K_ERR_WRONG_STATE : Z := -4.
Definition HYPER4K_ERR_CLIENT_GONE : Z := -5.
Definition HYPER4K_ERR_WOULD_BLOCK : Z := -6.

(** ** Data *)

Section data.
Context {H : HttpHeaders}.

(** [ResponseData] and [StreamStart]; the receiver of a stream is the number
    of its channel. *)
Inductive Delivery :=
| Buffered (status : Z) (headers : HeaderMap) (body : bytes)
| Stream (status : Z) (headers : HeaderMap) (rx : nat).

Inductive BodyKind :=
| BodyFull (b : bytes)
| BodyStream (rx : nat).

Record HttpResponse := Resp { r_status : Z; r_headers : HeaderMap; r_body : BodyKind }.

(** What [handle] reads of a [hyper::Request]; [req_body] is [None] when the
    body could not be read to its end. *)
Record HttpRequest := {
  req_method : bytes;
  req_path : bytes;
  req_query : option bytes;
  req_headers : list (HeaderName * HeaderValue);
  req_body : option bytes;
}.

Record Hyper4kRequest := {
  method : bytes;
  path : bytes;
  query : bytes;
  headers : bytes;
  body : bytes;
  responder : Z;
}.
End data.

Section server.
Context {H : HttpHeaders} {T : TokioChannels Delivery}.

Record server := Server {
  next_id : Z;
  pending : gmap Z nat;
  active : gmap Z nat;
  oneshots : gmap nat oneshot;
  streams : gmap nat mpsc;
  next_chan : nat;
  in_callback : gmap nat Z;
  sync_response : gmap nat Delivery;
  (* ghost *)
  accepted : gmap nat (list bytes);
  received : gmap nat (list bytes);
  registered : gmap nat (nat + Z);
  offered : list (Z * Delivery);
  answered : list Z;
  served : list (Z * HttpResponse);
}.

#[export] Instance server_eta : Settable server := λ s,
  Server (next_id s) (pending s) (active s) (oneshots s) (streams s) (next_chan s)
    (in_callback s) (sync_response s) (accepted s) (received s) (registered s) (offered s)
    (answered s) (served s).

(** Process start: [NEXT_RESPONDER_ID] is one, everything else is empty. *)
Definition server_start : server := Server 1 ∅ ∅ ∅ ∅ 0 ∅ ∅ ∅ ∅ ∅ [] [] [].

Definition panic {A} : prog server A := atomic (λ _ _, None).

(** *** Channels by number *)

Definition on_oneshot (c : nat) (f : oneshot → oneshot) : prog server unit :=
  modify (λ s, s <| oneshots ::= alter f c |>).
Definition on_stream (c : nat) (f : mpsc → mpsc) : prog server unit :=
  modify (λ s, s <| streams ::= alter f c |>).

Definition new_oneshot : prog server nat :=
  atomic (λ t s, Some (s <| oneshots ::= insert (next_chan s) oneshot_channel |>
                         <| registered ::= insert (next_chan s) (inl t) |>
                         <| next_chan ::= S |>, next_chan s)).
Definition new_stream : prog server nat :=
  fetch (λ s, (s <| streams ::= insert (next_chan s) (mpsc_channel STREAM_CHANNEL_CAPACITY) |>
                 <| accepted ::= insert (next_chan s) [] |>
                 <| received ::= insert (next_chan s) [] |>
                 <| next_chan ::= S |>, next_chan s)).

(** [tx.send(delivery)]: consumes the sender; on [Err] the value is handed back. *)
Definition oneshot_send_on (r : Z) (c : nat) (d : Delivery) : prog server bool :=
  fetch (λ s,
    match oneshots s !! c with
    | Some o =>
        let x := oneshot_send o d in
        (s <| oneshots ::= insert c x.1 |>
           <| answered ::= λ l, if x.2 then r :: l else l |>, x.2)
    | None => (s, false)
    end).

Definition send_result (c : nat) (chunk : bytes) (s : server) : server * TrySend :=
  match streams s !! c with
  | Some m =>
      let r := mpsc_try_send m chunk in
      (s <| streams ::= insert c r.1 |>
         <| accepted ::= if decide (r.2 = SendOk) then alter (λ l, l ++ [chunk]) c else id |>, r.2)
  | None => (s, SendClosed)
  end.

Definition try_send_on (c : nat) (chunk : bytes) : prog server TrySend :=
  fetch (send_result c chunk).

(** [blocking_send]: [try_send] once it is not full. *)
Definition blocking_send_on (c : nat) (chunk : bytes) : prog server TrySend :=
  atomic (λ _ s, let r := send_result c chunk s in
                 if decide (r.2 = SendFull) then None else Some r).

(** A delivery that is dropped takes the receiver of its stream with it. *)
Definition drop_delivery (d : Delivery) : prog server unit :=
  match d with
  | Buffered _ _ _ => Ret tt
  | Stream _ _ rx => on_stream rx mpsc_drop_receiver
  end.

(** Dropping the receiver of a one-shot channel, with what was sent and not
    received. *)
Definition drop_receiver (c : nat) : prog server unit :=
  left <- fetch (λ s,
    match oneshots s !! c with
    | Some o => let x := oneshot_drop_receiver o in (s <| oneshots ::= insert c x.1 |>, x.2)
    | None => (s, None)
    end) ;;
  match left with Some d => drop_delivery d | None => Ret tt end.

(** *** Thread-locals *)

(** [IN_CALLBACK.get()], for an answer [d] to [responder]. *)
Definition get_in_callback (responder : Z) (d : Delivery) : prog server Z :=
  atomic (λ t s, Some (s <| offered ::= cons (responder, d) |>, default 0 (in_callback s !! t))).
Definition set_in_callback (r : Z) : prog server unit :=
  atomic (λ t s, Some (s <| in_callback ::= insert t r |>, tt)).

Definition take_sync_response : prog server (option Delivery) :=
  atomic (λ t s, Some (s <| sync_response ::= delete t |>, sync_response s !! t)).

Definition set_sync_response (d : Delivery) : prog server bool :=
  atomic (λ t s, match sync_response s !! t with
                 | Some _ => Some (s, false)
                 | None => Some (s <| sync_response ::= insert t d |>, true)
                 end).

(** *** Registration *)

(** The loop of [next_responder_id]; the counter wraps, and only one value of
    it is refused. *)
Fixpoint next_responder_id (fuel : nat) : prog server Z :=
  match fuel with
  | O => panic
  | S fuel =>
      id <- fetch (λ s, (s <| next_id := fetch_add 64 (next_id s) 1 |>, next_id s)) ;;
      if id =? 0 then next_responder_id fuel else Ret id
  end.

(** [pending_responses().insert(id, tx)]: an entry that was there is dropped. *)
Definition insert_pending (id : Z) (c : nat) : prog server unit :=
  old <- fetch (λ s, (s <| pending ::= insert id c |> <| registered ::= insert c (inr id) |>,
                      pending s !! id)) ;;
  match old with Some c' => on_oneshot c' oneshot_drop_sender | None => Ret tt end.

Definition register_response : prog server (Z * nat) :=
  c <- new_oneshot ;;
  id <- next_responder_id 2 ;;
  insert_pending id c ;;
  Ret (id, c).

Definition remove_pending (id : Z) : prog server (option nat) :=
  fetch (λ s, (s <| pending ::= delete id |>, pending s !! id)).

(** [PendingResponse::drop]. *)
Definition pending_drop (id : Z) : prog server unit :=
  old <- remove_pending id ;;
  match old with Some c => on_oneshot c oneshot_drop_sender | None => Ret tt end.

(** *** Delivering a response *)

Definition deliver_through_channel (responder : Z) (d : Delivery) : prog server Z :=
  sender <- remove_pending responder ;;
  match sender with
  | Some c =>
      ok <- oneshot_send_on responder c d ;;
      if ok : bool then Ret 1 else drop_delivery d ;; Ret 0
  | None => drop_delivery d ;; Ret 0
  end.

Definition slot_busy : Delivery :=
  Buffered 500 map_new (lit "hyper4k: sync response slot busy").

Definition deliver_response (responder : Z) (d : Delivery) : prog server Z :=
  r <- get_in_callback responder d ;;
  if r =? responder then
    ok <- set_sync_response d ;;
    if ok : bool then Ret 1
    else drop_delivery d ;; deliver_through_channel responder slot_busy
  else deliver_through_channel responder d.

(** *** The exported functions.  A pointer and a length are an [option]. *)

Definition hyper4k_respond (responder status : Z) (headers body : option bytes) : prog server Z :=
  if responder =? 0 then Ret 0
  else
    match parse_headers headers with
    | None => panic
    | Some headers =>
        let body := default [] body in
        streaming <- load (λ s, bool_decide (is_Some (active s !! responder))) ;;
        if streaming : bool then Ret HYPER4K_ERR_WRONG_STATE
        else deliver_response responder (Buffered status headers body)
    end.

(** [active_streams().remove]: the sender in the entry is dropped. *)
Definition remove_active (responder : Z) : prog server bool :=
  old <- fetch (λ s, (s <| active ::= delete responder |>, active s !! responder)) ;;
  match old with
  | Some c => on_stream c mpsc_drop_sender ;; Ret true
  | None => Ret false
  end.

Definition hyper4k_response_begin (responder status : Z) (headers : option bytes) : prog server Z :=
  if responder =? 0 then Ret HYPER4K_ERR_WRONG_STATE
  else
    match parse_headers headers with
    | None => panic
    | Some headers =>
        c <- new_stream ;;
        vacant <- fetch (λ s, match active s !! responder with
                              | Some _ => (s, false)
                              | None => (s <| active ::= insert responder c |>, true)
                              end) ;;
        if negb vacant then
          on_stream c mpsc_drop_receiver ;;
          on_stream c mpsc_drop_sender ;;
          Ret HYPER4K_ERR_WRONG_STATE
        else
          delivered <- deliver_response responder (Stream status headers c) ;;
          if negb (delivered =? HYPER4K_OK) then
            remove_active responder ;; Ret HYPER4K_ERR_WRONG_STATE
          else Ret HYPER4K_OK
    end.

(** [in_runtime]: the calling thread is a runtime thread
    ([Handle::try_current().is_ok()]).  A [None] chunk is a null pointer with a
    non-zero length.  The clone of the sender is dropped on every way out. *)
Definition hyper4k_response_write (in_runtime : bool) (responder : Z) (chunk : option bytes)
    : prog server Z :=
  if responder =? 0 then Ret HYPER4K_ERR_WRONG_STATE
  else
    sender <- fetch (λ s, match active s !! responder with
                          | Some c => (s <| streams ::= alter mpsc_clone c |>, Some c)
                          | None => (s, None)
                          end) ;;
    match sender with
    | None => Ret HYPER4K_ERR_WRONG_STATE
    | Some c =>
        code <- (match chunk with
                 | None => Ret HYPER4K_ERR_WRONG_STATE
                 | Some [] => Ret HYPER4K_OK
                 | Some chunk =>
                     r <- try_send_on c chunk ;;
                     match r with
                     | SendOk => Ret HYPER4K_OK
                     | SendClosed => Ret HYPER4K_ERR_CLIENT_GONE
                     | SendFull =>
                         if in_runtime then Ret HYPER4K_ERR_WOULD_BLOCK
                         else
                           r <- blocking_send_on c chunk ;;
                           match r with
                           | SendOk => Ret HYPER4K_OK
                           | _ => Ret HYPER4K_ERR_CLIENT_GONE
                           end
                     end
                 end) ;;
        on_stream c mpsc_drop_sender ;;
        Ret code
    end.

Definition hyper4k_response_finish (responder : Z) : prog server Z :=
  if responder =? 0 then Ret HYPER4K_ERR_WRONG_STATE
  else
    was <- remove_active responder ;;
    if was : bool then Ret HYPER4K_OK else Ret HYPER4K_ERR_WRONG_STATE.

(** *** Serving a request *)

Definition error_response (status : Z) (message : bytes) : HttpResponse :=
  Resp status map_new (BodyFull message).

(** [Response::builder().status(s)] accepts 100 to 999. *)
Definition build_response (d : Delivery) : prog server HttpResponse :=
  let '(status, headers, body) :=
    match d with
    | Buffered status headers body => (status, headers, BodyFull body)
    | Stream status headers rx => (status, headers, BodyStream rx)
    end in
  if (100 <=? status) && (status <=? 999) then Ret (Resp status headers body)
  else
    drop_delivery d ;;
    Ret (error_response 500 (lit "hyper4k: bad response")).

(** [Limited::collect]. *)
Definition collect_limited (b : option bytes) : option bytes :=
  match b with
  | Some b => if Z.of_nat (length b) <=? MAX_REQUEST_BODY_BYTES then Some b else None
  | None => None
  end.

(** [rx.await]: [None] is [Err], every sender is gone.  The receiver is consumed. *)
Definition await_oneshot (c : nat) : prog server (option Delivery) :=
  atomic (λ _ s,
    match oneshots s !! c with
    | Some o =>
        let x := oneshot_poll o in
        match x.2 with
        | Some d => Some (s <| oneshots ::= insert c (oneshot_drop_receiver x.1).1 |>, d)
        | None => None
        end
    | None => None
    end).

(** The first half of [handle], which runs on one thread: up to the point
    where the thread-local slot has been read. *)
Definition handle_call (cb : Hyper4kRequest → prog server unit) (req : HttpRequest) (b : bytes)
    : prog server (Z * nat * option Delivery) :=
  rc <- register_response ;;
  set_in_callback rc.1 ;;
  cb {| method := req_method req; path := req_path req;
        query := default [] (req_query req); headers := header_buf (req_headers req);
        body := b; responder := rc.1 |} ;;
  set_in_callback 0 ;;
  d <- take_sync_response ;;
  Ret (rc, d).

(** The response is returned; ghost only. *)
Definition returned (r : Z) (resp : HttpResponse) : prog server unit :=
  modify (λ s, s <| served ::= cons (r, resp) |>).

(** After the callback a response that is already there is built without waiting;
    the locals are dropped when [handle] returns, the guard before the receiver. *)
Definition handle_slot (rc : Z * nat) (d : Delivery) : prog server HttpResponse :=
  resp <- build_response d ;;
  pending_drop rc.1 ;;
  drop_receiver rc.2 ;;
  returned rc.1 resp ;;
  Ret resp.

(** Otherwise [handle] waits for the channel. *)
Definition handle_await (rc : Z * nat) : prog server HttpResponse :=
  d <- await_oneshot rc.2 ;;
  resp <- match d with
          | Some d => build_response d
          | None => Ret (error_response 500 (lit "hyper4k: handler dropped responder"))
          end ;;
  pending_drop rc.1 ;;
  returned rc.1 resp ;;
  Ret resp.

Definition handle (cb : Hyper4kRequest → prog server unit) (req : HttpRequest)
    : prog server HttpResponse :=
  match collect_limited (req_body req) with
  | None => Ret (error_response 413 (lit "hyper4k: request body too large"))
  | Some b =>
      x <- handle_call cb req b ;;
      match x.2 with
      | Some d => handle_slot x.1 d
      | None => handle_await x.1
      end
  end.

(** *** The response body *)

(** [Hyper4kBody::poll_frame] of a stream: pending is a step not taken; the
    result is the next chunk or the end. *)
Definition poll_stream (rx : nat) : prog server (option bytes) :=
  atomic (λ _ s, match streams s !! rx with
                 | Some m =>
                     let r := mpsc_poll m in
                     match r.2 with
                     | Some (Some b) =>
                         Some (s <| streams ::= insert rx r.1 |>
                                 <| received ::= alter (λ l, l ++ [b]) rx |>, Some b)
                     | Some None => Some (s <| streams ::= insert rx r.1 |>, None)
                     | None => None
                     end
                 | None => None
                 end).

(** [Full]: its data once, if there is any. *)
Definition poll_full (b : bytes) : option bytes := match b with [] => None | _ => Some b end.

(** [Hyper4kBody::poll_frame]: the body afterwards, and the frame or the end. *)
Definition poll_frame (b : BodyKind) : prog server (BodyKind * option bytes) :=
  match b with
  | BodyFull b => Ret (BodyFull [], poll_full b)
  | BodyStream rx => x <- poll_stream rx ;; Ret (b, x)
  end.

Definition is_end_stream (b : BodyKind) : bool :=
  match b with
  | BodyFull b => match poll_full b with None => true | Some _ => false end
  | BodyStream _ => false
  end.

(** [size_hint]: the exact length when it is known. *)
Definition size_hint (b : BodyKind) : option nat :=
  match b with BodyFull b => Some (length b) | BodyStream _ => None end.

(** The client disconnects: hyper drops the body. *)
Definition drop_body (b : BodyKind) : prog server unit :=
  match b with
  | BodyFull _ => Ret tt
  | BodyStream rx => on_stream rx mpsc_drop_receiver
  end.

(** The client disconnects before the response: hyper drops the future of
    [handle] where it waits, the receiver before the guard.  A response that was
    built without waiting is dropped with the connection. *)
Definition handle_abandoned (cb : Hyper4kRequest → prog server unit) (req : HttpRequest)
    : prog server unit :=
  match collect_limited (req_body req) with
  | None => Ret tt
  | Some b =>
      x <- handle_call cb req b ;;
      match x.2 with
      | Some d => resp <- handle_slot x.1 d ;; drop_body (r_body resp)
      | None => drop_receiver x.1.2 ;; pending_drop x.1.1
      end
  end.
End server.
Arguments server : clear implicits.
Arguments server {H T}.
