(* ===== verification/ServerFacts.v ===== *)
(** * Responders and streams: what the server promises

    Theorems about [Server], for every http crate and every channel library
    that satisfy the laws of [Headers] and [Channels]. *)

From S2P Require Import Prelude Conc Headers Channels Server.

Open Scope prog_scope.

Section facts.
Context {H : HttpHeaders} {HL : HttpHeadersLaws H}.
Context {T : TokioChannels Delivery} {TL : TokioChannelsLaws T}.

(** ** Streams, under every interleaving *)

(** Between what was accepted for a stream and what its body gave out there
    is exactly what the channel holds, unless the client has gone. *)
Definition stream_ok (s : server) (c : nat) (m : mpsc) : Prop :=
  (c < next_chan s)%nat ∧ mpsc_capacity m = STREAM_CHANNEL_CAPACITY ∧
  (length (mpsc_queue m) ≤ STREAM_CHANNEL_CAPACITY)%nat ∧
  ∃ a r, accepted s !! c = Some a ∧ received s !! c = Some r ∧
    if mpsc_closed m then mpsc_queue m = [] ∧ r `prefix_of` a else a = r ++ mpsc_queue m.

Definition streams_ok (s : server) : Prop :=
  ∀ c m, streams s !! c = Some m → stream_ok s c m.

#[local] Abbreviation keeps_streams := (preserves streams_ok) (only parsing).

(** An action that leaves the stream fields alone. *)
Lemma streams_ok_frame s s' :
  streams s' = streams s → (next_chan s ≤ next_chan s')%nat → accepted s' = accepted s →
  received s' = received s → streams_ok s → streams_ok s'.
Proof.
  intros E1 E2 E3 E4 Hs c m Hm. rewrite E1 in Hm. destruct (Hs c m Hm) as (?&?&?&?).
  unfold stream_ok. rewrite E3, E4. split_and!; auto. lia.
Qed.

(** An update of one channel that keeps its contents. *)
Lemma on_stream_ok c f :
  (∀ m, mpsc_queue (f m) = mpsc_queue m ∧ mpsc_capacity (f m) = mpsc_capacity m ∧
        mpsc_closed (f m) = mpsc_closed m) →
  ∀ s, streams_ok s → streams_ok (s <| streams ::= alter f c |>).
Proof.
  intros Hf s Hs c' m Hm. simpl in Hm.
  destruct (decide (c = c')) as [<-|Hne]; [|rewrite lookup_alter_ne in Hm by done; by apply Hs].
  rewrite lookup_alter_eq in Hm. destruct (streams s !! c) as [m0|] eqn:E; [|done].
  injection Hm as <-. destruct (Hf m0) as (Eq & Ec & Ecl). destruct (Hs c m0 E) as (?&?&?&?).
  unfold stream_ok. simpl. rewrite Eq, Ec, Ecl. by split_and!.
Qed.

Lemma clone_keeps c s : streams_ok s → streams_ok (s <| streams ::= alter mpsc_clone c |>).
Proof. apply on_stream_ok. intros m. destruct (mpsc_cloned m) as (?&?&?&?). done. Qed.

Lemma drop_sender_keeps c s :
  streams_ok s → streams_ok (s <| streams ::= alter mpsc_drop_sender c |>).
Proof. apply on_stream_ok. intros m. destruct (mpsc_sender_dropped m) as (?&?&?&?). done. Qed.

Lemma drop_receiver_keeps c s :
  streams_ok s → streams_ok (s <| streams ::= alter mpsc_drop_receiver c |>).
Proof.
  intros Hs c' m Hm. simpl in Hm.
  destruct (decide (c = c')) as [<-|Hne]; [|rewrite lookup_alter_ne in Hm by done; by apply Hs].
  rewrite lookup_alter_eq in Hm. destruct (streams s !! c) as [m0|] eqn:E; [|done].
  injection Hm as <-. destruct (mpsc_receiver_dropped m0) as (Eq & Ec & _ & Ecl).
  destruct (Hs c m0 E) as (?&?&?& a & r & Ha & Hr & Hc).
  unfold stream_ok. simpl. rewrite Eq, Ec, Ecl. split_and!; [done|done|simpl; lia|].
  exists a, r. split_and!; try done.
  destruct (mpsc_closed m0); [by destruct Hc|]. rewrite Hc. by apply prefix_app_r.
Qed.

Lemma send_result_keeps c chunk s : streams_ok s → streams_ok (send_result c chunk s).1.
Proof.
  intros Hs. unfold send_result. destruct (streams s !! c) as [m|] eqn:E; [|done].
  destruct (Hs c m E) as (Hn & Hcap & Hlen & a & r & Ha & Hr & Hc).
  destruct (mpsc_closed m) eqn:Ecl.
  { rewrite try_send_closed by done. simpl. rewrite insert_id by done.
    eapply streams_ok_frame; [..|exact Hs]; done. }
  destruct (decide (length (mpsc_queue m) < mpsc_capacity m)%nat) as [Hroom|Hfull].
  2: { rewrite try_send_full by (done || lia). simpl. rewrite insert_id by done.
       eapply streams_ok_frame; [..|exact Hs]; done. }
  destruct (try_send_room m chunk Ecl Hroom) as (m' & -> & Eq & Ecap & _ & Ecl').
  simpl. intros c' m1 Hm1. simpl in Hm1. unfold stream_ok. simpl.
  destruct (decide (c = c')) as [<-|Hne].
  - rewrite lookup_insert_eq in Hm1. injection Hm1 as <-.
    rewrite Eq, Ecap, Ecl', lookup_alter_eq, Ha, length_app. simpl.
    split_and!; [done|done|lia|]. exists (a ++ [chunk]), r. by rewrite Hc, <- app_assoc.
  - rewrite lookup_insert_ne in Hm1 by done. rewrite lookup_alter_ne by done. by apply Hs.
Qed.

Lemma new_stream_keeps s :
  streams_ok s →
  streams_ok (s <| streams ::= insert (next_chan s) (mpsc_channel STREAM_CHANNEL_CAPACITY) |>
                <| accepted ::= insert (next_chan s) [] |>
                <| received ::= insert (next_chan s) [] |> <| next_chan ::= S |>).
Proof.
  intros Hs c m Hm. simpl in Hm. unfold stream_ok. simpl.
  destruct (decide (next_chan s = c)) as [<-|Hne].
  - rewrite lookup_insert_eq in Hm. injection Hm as <-. rewrite !lookup_insert_eq.
    destruct (mpsc_new STREAM_CHANNEL_CAPACITY) as (-> & -> & _ & ->).
    split_and!; [lia|done|simpl; lia|]. by exists [], [].
  - rewrite lookup_insert_ne in Hm by done. rewrite !lookup_insert_ne by done.
    destruct (Hs c m Hm) as (?&?&?&?). split_and!; auto.
Qed.

Lemma poll_keeps rx : keeps_streams (poll_stream rx).
Proof.
  apply preserves_atomic. intros t s s' r Hs E.
  destruct (streams s !! rx) as [m|] eqn:Em; [|done].
  destruct (Hs rx m Em) as (Hn & Hcap & Hlen & a & l & Ha & Hl & Hc).
  destruct (mpsc_queue m) as [|b q] eqn:Eq.
  { rewrite poll_empty in E by done. simpl in E. destruct (decide _); [|done].
    injection E as <- _. rewrite insert_id by done. eapply streams_ok_frame; [..|exact Hs]; done. }
  destruct (poll_message m b q Eq) as (m' & Ep & Eq' & Ecap & _ & Ecl). rewrite Ep in E.
  simpl in E. injection E as <- _. intros c m1 Hm1. simpl in Hm1. unfold stream_ok. simpl.
  destruct (decide (rx = c)) as [<-|Hne].
  - rewrite lookup_insert_eq in Hm1. injection Hm1 as <-.
    rewrite Eq', Ecap, Ecl, lookup_alter_eq, Hl. simpl in *.
    split_and!; [done|done|lia|]. exists a, (l ++ [b]). split_and!; [done|done|].
    destruct (mpsc_closed m); [by destruct Hc|]. by rewrite <- app_assoc.
  - rewrite lookup_insert_ne in Hm1 by done. rewrite lookup_alter_ne by done. by apply Hs.
Qed.
(** *** Every routine keeps them *)

(** An action on the other fields. *)
Ltac frame_action :=
  intros; simpl in *; repeat case_match; simplify_eq/=;
  first [done | eapply streams_ok_frame; [..|eassumption]; simpl; auto with lia].

Ltac streams_tac :=
  repeat first
    [ exact Logic.I
    | solve [auto with streams hyper4k]
    | apply preserves_modify; solve [auto using drop_sender_keeps, drop_receiver_keeps
                                    | frame_action]
    | apply preserves_fetch; solve [auto using send_result_keeps
                                   | frame_action
                                   | intros; case_match; cbn [fst]; auto using clone_keeps]
    | apply preserves_atomic; solve [frame_action]
    | apply preserves_bind; [|intros ?]
    | case_match ].

Create HintDb streams.

Lemma drop_delivery_streams d : keeps_streams (drop_delivery d).
Proof. unfold drop_delivery, on_stream. streams_tac. Qed.
#[local] Hint Resolve drop_delivery_streams : streams.

Lemma deliver_response_streams r d : keeps_streams (deliver_response r d).
Proof.
  unfold deliver_response, deliver_through_channel, get_in_callback, set_sync_response,
    remove_pending, oneshot_send_on. streams_tac.
Qed.
#[local] Hint Resolve deliver_response_streams poll_keeps : streams.

Lemma respond_streams r st h b : keeps_streams (hyper4k_respond r st h b).
Proof. unfold hyper4k_respond, panic. streams_tac. Qed.

Lemma remove_active_streams r : keeps_streams (remove_active r).
Proof. unfold remove_active, on_stream. streams_tac. Qed.
#[local] Hint Resolve remove_active_streams : streams.

Lemma new_stream_streams : keeps_streams new_stream.
Proof. apply preserves_fetch. intros s Hs. by apply new_stream_keeps. Qed.
#[local] Hint Resolve new_stream_streams : streams.

Lemma begin_streams r st h : keeps_streams (hyper4k_response_begin r st h).
Proof. unfold hyper4k_response_begin, panic, on_stream. streams_tac. Qed.

Lemma write_streams rt r b : keeps_streams (hyper4k_response_write rt r b).
Proof.
  assert (∀ c chunk, keeps_streams (blocking_send_on c chunk)) as Hbl.
  { intros c chunk. apply preserves_atomic. intros t s s' x Hs. simpl.
    case_decide; [done|]. intros [= E].
    apply (f_equal fst) in E. simpl in E. subst s'. by apply send_result_keeps. }
  unfold hyper4k_response_write, try_send_on, on_stream. streams_tac.
Qed.

Lemma finish_streams r : keeps_streams (hyper4k_response_finish r).
Proof. unfold hyper4k_response_finish. streams_tac. Qed.

Lemma pending_drop_streams r : keeps_streams (pending_drop r).
Proof. unfold pending_drop, remove_pending, on_oneshot. streams_tac. Qed.

Lemma build_response_streams d : keeps_streams (build_response d).
Proof. unfold build_response. destruct d; streams_tac. Qed.
#[local] Hint Resolve pending_drop_streams build_response_streams : streams.

Lemma register_streams : keeps_streams register_response.
Proof.
  unfold register_response, new_oneshot, insert_pending, on_oneshot. cbn [next_responder_id].
  unfold panic. streams_tac.
Qed.
#[local] Hint Resolve register_streams : streams.

Lemma drop_receiver_streams c : keeps_streams (drop_receiver c).
Proof. unfold drop_receiver. streams_tac. Qed.
#[local] Hint Resolve drop_receiver_streams : streams.

Lemma handle_slot_streams rc d : keeps_streams (handle_slot rc d).
Proof. unfold handle_slot, returned. streams_tac. Qed.

Lemma handle_await_streams rc : keeps_streams (handle_await rc).
Proof. unfold handle_await, await_oneshot, returned. streams_tac. Qed.

Lemma handle_call_streams cb req b : (∀ q, keeps_streams (cb q)) → keeps_streams (handle_call cb req b).
Proof. intros Hcb. unfold handle_call, set_in_callback, take_sync_response. streams_tac. Qed.
#[local] Hint Resolve handle_slot_streams handle_await_streams handle_call_streams : streams.

Lemma drop_body_streams b : keeps_streams (drop_body b).
Proof. unfold drop_body, on_stream. streams_tac. Qed.
#[local] Hint Resolve drop_body_streams : streams.

(** What code that holds a responder does with the server, from a callback or from
    any other thread: any composition of the exported functions. *)
Inductive api_program : ∀ {A}, prog server A → Prop :=
| api_ret {A} (a : A) : api_program (Ret a)
| api_bind {A B} (p : prog server A) (g : A → prog server B) :
    api_program p → (∀ a, api_program (g a)) → api_program (pbind p g)
| api_respond r st h b : api_program (hyper4k_respond r st h b)
| api_begin r st h : api_program (hyper4k_response_begin r st h)
| api_write rt r b : api_program (hyper4k_response_write rt r b)
| api_finish r : api_program (hyper4k_response_finish r).

(** What threads do with the server: besides that, serve requests whose callbacks
    are such compositions (to the end, or until the client is gone), and poll or
    drop response bodies. *)
Inductive server_program : ∀ {A}, prog server A → Prop :=
| prog_api {A} (p : prog server A) : api_program p → server_program p
| prog_bind {A B} (p : prog server A) (g : A → prog server B) :
    server_program p → (∀ a, server_program (g a)) → server_program (pbind p g)
| prog_handle cb req : (∀ q, api_program (cb q)) → server_program (handle cb req)
| prog_abandon cb req : (∀ q, api_program (cb q)) → server_program (handle_abandoned cb req)
| prog_poll b : server_program (poll_frame b)
| prog_drop_body b : server_program (drop_body b).

Lemma api_program_streams {A} (p : prog server A) : api_program p → keeps_streams p.
Proof.
  induction 1; auto using preserves_bind, respond_streams, begin_streams, write_streams,
    finish_streams. exact Logic.I.
Qed.
#[local] Hint Resolve api_program_streams : streams.

Lemma server_program_streams {A} (p : prog server A) : server_program p → keeps_streams p.
Proof.
  induction 1; auto using preserves_bind with streams.
  - unfold handle. streams_tac.
  - unfold handle_abandoned. streams_tac.
  - unfold poll_frame. streams_tac.
Qed.

Lemma reachable_streams_ok ts c :
  Forall server_program ts → reachable (Config server_start ts) c → streams_ok (shared c).
Proof.
  intros Ht Hr. eapply preserves_sound; [done| |].
  - intros c0 m0 E. simpl in E. by rewrite lookup_empty in E.
  - eapply Forall_impl; [exact Ht|]. intros p. apply server_program_streams.
Qed.

(** C11: a stream is a bounded FIFO from the writer to the client. Whatever
    any number of threads do with responders and bodies, for every stream the
    chunks its body has produced are a prefix of the chunks [write] accepted,
    in order; while the client is there, at most four accepted chunks have
    not been produced yet. *)
Theorem stream_is_bounded_fifo ts c ch m :
  Forall server_program ts → reachable (Config server_start ts) c →
  streams (shared c) !! ch = Some m →
  ∃ acc out, accepted (shared c) !! ch = Some acc ∧ received (shared c) !! ch = Some out ∧
    out `prefix_of` acc ∧
    (mpsc_closed m = false →
     (length acc ≤ length out + STREAM_CHANNEL_CAPACITY)%nat).
Proof.
  intros Ht Hr Hm.
  destruct (reachable_streams_ok ts c Ht Hr ch m Hm) as (_ & _ & Hlen & a & r & Ha & Hr' & Hc).
  exists a, r. split_and!; [done|done|..].
  - destruct (mpsc_closed m); [by destruct Hc|]. rewrite Hc. by apply prefix_app_r.
  - intros E. rewrite E in Hc. rewrite Hc, length_app. lia.
Qed.
(** ** A responder as a state machine

    The contract of the ABI, independent of maps and channels: a responder is
    fresh, streaming or done. *)





(** The state of a responder in the registries: streaming when it has an
    active stream, fresh when its request still waits for a delivery. *)
Definition waiting (s : server) (r : Z) : bool :=
  match pending s !! r with
  | Some c => match oneshots s !! c with Some o => oneshot_open o | None => false end
  | None => false
  end.



(** *** Delivering outside of the responder's own callback *)

Lemma run_drop_delivery t d s :
  ∃ s', run t (drop_delivery d) s = Some (s', tt) ∧ pending s' = pending s ∧
    active s' = active s ∧ oneshots s' = oneshots s ∧ in_callback s' = in_callback s ∧
    sync_response s' = sync_response s.
Proof. destruct d; eexists; simpl; split; reflexivity || done. Qed.

Lemma run_deliver t r d s :
  default 0 (in_callback s !! t) ≠ r →
  (∀ c, pending s !! r = Some c → is_Some (oneshots s !! c)) →
  ∃ s', run t (deliver_response r d) s = Some (s', if waiting s r then 1 else 0) ∧
    pending s' = delete r (pending s) ∧ active s' = active s ∧
    in_callback s' = in_callback s ∧ sync_response s' = sync_response s ∧
    oneshots s' = match pending s !! r with
                  | Some c => alter (λ o, (oneshot_send o d).1) c (oneshots s)
                  | None => oneshots s
                  end.
Proof.
  intros Ht Hc. unfold deliver_response. rewrite run_bind. simpl (run t (get_in_callback r d) s).
  cbv iota. rewrite (proj2 (Z.eqb_neq _ _) Ht). unfold deliver_through_channel.
  rewrite run_bind. simpl (run t (remove_pending r) _). cbv iota. unfold waiting.
  destruct (pending s !! r) as [c|] eqn:Ep.
  - destruct (Hc c eq_refl) as [o Eo]. rewrite run_bind.
    simpl (run t (oneshot_send_on r c d) _). rewrite Eo. cbn [snd].
    assert (Ea : <[c:=(oneshot_send o d).1]> (oneshots s) =
                 alter (λ o, (oneshot_send o d).1) c (oneshots s)).
    { apply map_eq. intros i. destruct (decide (c = i)) as [<-|];
        [by rewrite lookup_insert_eq, lookup_alter_eq, Eo
        |by rewrite lookup_insert_ne, lookup_alter_ne]. }
    destruct (oneshot_open o) eqn:Eop.
    + rewrite oneshot_send_ok by done. eexists. split; [reflexivity|]. by split_and!.
    + rewrite oneshot_send_err by done. rewrite run_bind.
      match goal with |- context [run t (drop_delivery d) ?s1] =>
        destruct (run_drop_delivery t d s1) as (s' & -> & Hrest) end.
      simpl. eexists. split; [reflexivity|]. simpl in Hrest. rewrite Ea in Hrest.
      destruct Hrest as (?&?&?&?&?). by split_and!.
  - rewrite run_bind.
    match goal with |- context [run t (drop_delivery d) ?s1] =>
      destruct (run_drop_delivery t d s1) as (s' & -> & Hrest) end.
    simpl. eexists. split; [reflexivity|]. simpl in Hrest. destruct Hrest as (?&?&?&?&?).
    by split_and!.
Qed.




















(** ** The fast path: answers inside the callback *)

(** A thread that is inside the callback of one request and answers
    another one does not touch its thread-local slot: the answer goes to the
    channel of the responder it names, and its request receives exactly that
    delivery. *)
Theorem foreign_answer_uses_its_own_channel t r st h b s hm c o :
  r ≠ 0 → default 0 (in_callback s !! t) ≠ r → parse_headers h = Some hm →
  active s !! r = None → pending s !! r = Some c → oneshots s !! c = Some o →
  oneshot_open o = true →
  ∃ s' o', run t (hyper4k_respond r st h b) s = Some (s', HYPER4K_OK) ∧
    sync_response s' = sync_response s ∧ pending s' = delete r (pending s) ∧
    oneshots s' !! c = Some o' ∧
    (oneshot_poll o').2 = Some (Some (Buffered st hm (default [] b))).
Proof.
  intros Hr Ht Hh Ha Hp Ho Hop. unfold hyper4k_respond.
  rewrite (proj2 (Z.eqb_neq _ _) Hr), Hh, run_bind. simpl (run t (load _) s). cbv iota.
  rewrite bool_decide_eq_false_2 by (rewrite Ha; by intros [? ?]).
  destruct (run_deliver t r (Buffered st hm (default [] b)) s Ht)
    as (s' & E & Ep & _ & _ & Es & Eo); [rewrite Hp; intros ? [= <-]; eauto|].
  unfold waiting in E. rewrite Hp, Ho, Hop in E. rewrite Hp in Eo.
  exists s', (oneshot_send o (Buffered st hm (default [] b))).1. split_and!; try done.
  - by rewrite Eo, lookup_alter_eq, Ho.
  - by apply oneshot_poll_sent.
Qed.

(** Inside its own callback a one-shot answer lands in the slot; a second one
    finds the slot taken and goes to the channel as a 500. *)
Lemma run_respond_slot t r st h b s hm :
  r ≠ 0 → in_callback s !! t = Some r → parse_headers h = Some hm →
  active s !! r = None → sync_response s !! t = None →
  run t (hyper4k_respond r st h b) s =
    Some (s <| offered ::= cons (r, Buffered st hm (default [] b)) |>
            <| sync_response ::= insert t (Buffered st hm (default [] b)) |>, HYPER4K_OK).
Proof.
  intros Hr Ht Hh Ha Hs. unfold hyper4k_respond, deliver_response.
  rewrite (proj2 (Z.eqb_neq _ _) Hr), Hh. simpl. rewrite Ha. simpl. rewrite Ht. simpl.
  rewrite Z.eqb_refl. simpl. by rewrite Hs.
Qed.

(** A responder is not single-use inside its own callback: after an answer
    has been taken by the fast path a second [hyper4k_respond] on the same
    responder also reports success (1, "delivered"), although what it carries
    is discarded; the registration is consumed by a 500 nobody will read. *)
Theorem second_respond_in_callback_claims_success t r st h b st2 h2 b2 s hm hm2 c o :
  r ≠ 0 → in_callback s !! t = Some r → parse_headers h = Some hm →
  parse_headers h2 = Some hm2 → active s !! r = None → sync_response s !! t = None →
  pending s !! r = Some c → oneshots s !! c = Some o → oneshot_open o = true →
  ∃ s1 s2,
    run t (hyper4k_respond r st h b) s = Some (s1, HYPER4K_OK) ∧
    run t (hyper4k_respond r st2 h2 b2) s1 = Some (s2, HYPER4K_OK) ∧
    sync_response s2 !! t = Some (Buffered st hm (default [] b)) ∧
    pending s2 !! r = None.
Proof.
  intros Hr Ht Hh Hh2 Ha Hs Hp Ho Hop. eexists _, _.
  split; [by apply run_respond_slot|].
  unfold hyper4k_respond, deliver_response, deliver_through_channel.
  rewrite (proj2 (Z.eqb_neq _ _) Hr), Hh2. simpl. rewrite Ha. simpl. rewrite Ht. simpl.
  rewrite Z.eqb_refl. simpl. rewrite lookup_insert_eq. simpl. rewrite Hp. simpl.
  rewrite Ho. simpl. rewrite oneshot_send_ok by done. split; [reflexivity|]. simpl.
  by rewrite lookup_insert_eq, lookup_delete_eq.
Qed.

(** *** A request served from its callback *)

(** Responder ids that have not been handed out are in neither registry, and
    the counter is not about to wrap. *)
Definition ids_fresh (s : server) : Prop :=
  0 < next_id s < 2 ^ 64 - 1 ∧
  ∀ r, next_id s ≤ r → active s !! r = None ∧ pending s !! r = None.

Lemma new_channel_empty :
  (oneshot_drop_receiver (oneshot_drop_sender oneshot_channel)).2 = None.
Proof.
  destruct oneshot_new as (Hv & _). destruct (oneshot_sender_dropped oneshot_channel) as [Hd _].
  destruct (oneshot_receiver_dropped (oneshot_drop_sender oneshot_channel)) as (c & -> & _).
  simpl. congruence.
Qed.

(** C32: a request whose callback answers before it returns, with a status of 100
    to 999, is served with exactly that status, header map and body, and leaves nothing behind: the
    registration is gone, the thread-local slot is empty again and the thread
    is in no callback. *)
Theorem sync_answer_is_served t req body st h b s hm :
  ids_fresh s → sync_response s !! t = None →
  collect_limited (req_body req) = Some body → parse_headers h = Some hm → 100 ≤ st ≤ 999 →
  ∃ s', run t (handle (λ q, hyper4k_respond (responder q) st h b ;; Ret tt) req) s =
      Some (s', Resp st hm (BodyFull (default [] b))) ∧
    pending s' = pending s ∧ active s' = active s ∧
    sync_response s' = sync_response s ∧ in_callback s' !! t = Some 0 ∧ next_id s' = next_id s + 1.
Proof.
  intros [Hid Hfresh] Hs Hb Hh Hst. destruct (Hfresh (next_id s)) as [Ha Hp]; [lia|].
  assert (Hn : (next_id s =? 0) = false) by (apply Z.eqb_neq; lia).
  unfold handle, handle_call. rewrite Hb, !run_bind.
  unfold register_response. simpl (run t _ s). rewrite Hn. simpl. rewrite Hp. simpl.
  erewrite run_bind_Some.
  2: { erewrite run_bind_Some; [reflexivity|].
       eapply run_respond_slot; [lia|apply lookup_insert_eq|exact Hh|exact Ha|exact Hs]. }
  simpl. rewrite lookup_insert_eq. simpl.
  unfold handle_slot, build_response. rewrite (proj2 (Z.leb_le _ _) (proj1 Hst)).
  rewrite (proj2 (Z.leb_le _ _) (proj2 Hst)). simpl. rewrite lookup_insert_eq. simpl.
  rewrite lookup_alter_eq, lookup_insert_eq. cbn [fmap option_fmap option_map].
  rewrite new_channel_empty. simpl. eexists. split; [reflexivity|]. simpl.
  rewrite delete_insert_id by done. rewrite delete_insert_id by done.
  split_and!; try done; [by rewrite lookup_insert_eq|].
  unfold fetch_add. rewrite wrap_id by (split; lia). done.
Qed.
End facts.

Ltac api_tac :=
  intros; repeat first
    [ apply api_ret | apply api_respond | apply api_begin | apply api_write | apply api_finish
    | apply api_bind; [|intros ?] ].

(** ** Witnesses, with the concrete http and channel instances *)

Module Example1.
#[export] Existing Instances Headers.Concrete.http Headers.Concrete.http_laws.
#[export] Existing Instances Channels.Concrete.tokio Channels.Concrete.tokio_laws.

Definition req : HttpRequest :=
  {| req_method := lit "GET"; req_path := lit "/"; req_query := None; req_headers := [];
     req_body := Some [] |}.

(** The callback starts a stream; hyper polls the body once. *)
Definition serve : prog server unit :=
  resp <- handle (λ q, hyper4k_response_begin (responder q) 200 None ;; Ret tt) req ;;
  poll_frame (r_body resp) ;;
  Ret tt.

(** Another thread writes two chunks. *)
Definition writer : prog server unit :=
  hyper4k_response_write false 1 (Some [7]) ;;
  hyper4k_response_write false 1 (Some [8]) ;;
  Ret tt.

Definition threads0 : list (prog server unit) := [serve; writer].

Lemma threads0_ok : Forall server_program threads0.
Proof.
  repeat apply Forall_cons_2; [..|apply Forall_nil_2].
  - apply prog_bind; [apply prog_handle; api_tac|].
    intros resp. apply prog_bind; [apply prog_poll|]. intros. apply prog_api. api_tac.
  - apply prog_api. api_tac.
Qed.

Definition initial : config server := Config server_start threads0.
Definition sched : list nat := replicate 14 0%nat ++ replicate 6 1%nat ++ replicate 1 0%nat.
Definition final : config server := default initial (exec sched initial).

Lemma stream_final_reachable : reachable initial final.
Proof.
  unfold final. destruct (exec sched initial) eqn:E; [by eapply exec_reachable|apply rtc_refl].
Qed.

(** A request that waits, answered from a thread in no callback. *)
Definition waiting_server : server :=
  server_start <| next_id := 2 |> <| next_chan := 1%nat |>
    <| pending := {[1 := 0%nat]} |> <| oneshots := {[0%nat := oneshot_channel]} |>.

End Example1.
Import Example1.

Lemma stream_is_bounded_fifo_witness :
  ∃ acc out, accepted (shared final) !! 1%nat = Some acc ∧ received (shared final) !! 1%nat = Some out ∧
    acc = [[7]; [8]] ∧ out = [[7]] ∧ out `prefix_of` acc.
Proof.
  destruct (streams (shared final) !! 1%nat) as [m|] eqn:Em; [|vm_compute in Em; discriminate Em].
  destruct (stream_is_bounded_fifo threads0 final 1%nat m threads0_ok stream_final_reachable Em)
    as (acc & out & Ha & Ho & Hp & _).
  exists acc, out. split; [exact Ha|]. split; [exact Ho|].
  split; [|split; [|exact Hp]].
  - assert (Some acc = Some [[7]; [8]]) as E by (rewrite <- Ha; vm_compute; reflexivity).
    injection E as ->. reflexivity.
  - assert (Some out = Some [[7]]) as E by (rewrite <- Ho; vm_compute; reflexivity).
    injection E as ->. reflexivity.
Defined.


Lemma foreign_answer_uses_its_own_channel_witness :
  let s := waiting_server <| in_callback := {[0%nat := 9]} |> in
  ∃ s' o', run 0 (hyper4k_respond 1 204 None None) s = Some (s', HYPER4K_OK) ∧
    sync_response s' = ∅ ∧ oneshots s' !! 0%nat = Some o' ∧
    (oneshot_poll o').2 = Some (Some (Buffered 204 map_new [])).
Proof.
  intros s.
  destruct (foreign_answer_uses_its_own_channel 0 1 204 None None s map_new 0%nat oneshot_channel)
    as (s' & o' & E & Hs & _ & Ho & Hp); try reflexivity.
  - discriminate.
  - vm_compute. discriminate.
  - exists s', o'. split; [exact E|]. split; [exact Hs|]. split; [exact Ho|exact Hp].
Defined.

Lemma second_respond_in_callback_claims_success_witness :
  let s := waiting_server <| in_callback := {[0%nat := 1]} |> in
  ∃ s1 s2, run 0 (hyper4k_respond 1 200 None (Some [1])) s = Some (s1, HYPER4K_OK) ∧
    run 0 (hyper4k_respond 1 404 None (Some [2])) s1 = Some (s2, HYPER4K_OK) ∧
    sync_response s2 !! 0%nat = Some (Buffered 200 map_new [1]).
Proof.
  intros s.
  destruct (second_respond_in_callback_claims_success 0 1 200 None (Some [1]) 404 None (Some [2])
    s map_new map_new 0%nat oneshot_channel) as (s1 & s2 & E1 & E2 & Hs & _); try reflexivity.
  - discriminate.
  - exists s1, s2. split; [exact E1|]. split; [exact E2|exact Hs].
Defined.

Lemma sync_answer_is_served_witness :
  ∃ s', run 0 (handle (λ q, hyper4k_respond (responder q) 200 None (Some [104; 105]) ;; Ret tt) req)
      server_start = Some (s', Resp 200 map_new (BodyFull [104; 105])) ∧ pending s' = ∅.
Proof.
  destruct (sync_answer_is_served 0 req [] 200 None (Some [104; 105]) server_start map_new)
    as (s' & E & Hp & _); try reflexivity.
  - split; [simpl; lia|]. intros r _. split; reflexivity.
  - lia.
  - exists s'. split; [exact E|exact Hp].
Defined.
