(* ===== verification/ServerSafety.v ===== *)
(** * Answers reach the request they were given for

    Any number of tasks serve requests while callbacks and other threads answer
    them, in any order: the response that is sent for a request is made from an
    answer that some caller gave for that request's responder. *)

From S2P Require Import Prelude Conc Headers Channels Server ServerFacts.

Open Scope prog_scope.

Section answers.
Context {H : HttpHeaders} {HL : HttpHeadersLaws H}.
Context {T : TokioChannels Delivery} {TL : TokioChannelsLaws T}.

(** What [build_response] makes of an answer. *)
Definition response_of (d : Delivery) : HttpResponse :=
  let '(status, headers, body) :=
    match d with
    | Buffered status headers body => (status, headers, BodyFull body)
    | Stream status headers rx => (status, headers, BodyStream rx)
    end in
  if (100 <=? status) && (status <=? 999) then Resp status headers body
  else error_response 500 (lit "hyper4k: bad response").

(** The library's own answer when no answer can come any more. *)
Definition no_answer : HttpResponse :=
  error_response 500 (lit "hyper4k: handler dropped responder").

(** [d] was given for [r], or is what replaces a second answer in a callback. *)
Definition given (s : server) (r : Z) (d : Delivery) : Prop :=
  (r, d) ∈ offered s ∨ d = slot_busy.

(** What is in a channel was given for the responder the channel is registered
    for, and so was everything that has been served. *)
Record answers_inv (s : server) : Prop := AnswersInv {
  ai_value c o d :
    oneshots s !! c = Some o → oneshot_value o = Some d →
    ∃ r, registered s !! c = Some (inr r) ∧ given s r d;
  ai_pending r c : pending s !! r = Some c → registered s !! c = Some (inr r);
  ai_fresh c : (next_chan s ≤ c)%nat → registered s !! c = None;
  ai_served r resp :
    (r, resp) ∈ served s → (∃ d, given s r d ∧ resp = response_of d) ∨ resp = no_answer;
}.

(** History: channels stay registered, answers stay given. *)
Definition grows (s s' : server) : Prop :=
  (∀ c r, registered s !! c = Some (inr r) → registered s' !! c = Some (inr r)) ∧
  ∀ x, x ∈ offered s → x ∈ offered s'.

(** What thread [t] may rely on: its thread-locals and the channel it is about to
    register are its own. *)
Definition answers_rely (t : nat) (s s' : server) : Prop :=
  grows s s' ∧ in_callback s' !! t = in_callback s !! t ∧
  sync_response s' !! t = sync_response s !! t ∧
  ∀ c, registered s !! c = Some (inl t) → registered s' !! c = Some (inl t).

#[local] Abbreviation asafe := (safe answers_inv answers_rely) (only parsing).
#[local] Abbreviation astable := (stable answers_inv answers_rely) (only parsing).

Lemma grows_given s s' r d : grows s s' → given s r d → given s' r d.
Proof. intros [_ Ho] [?|?]; [left; by apply Ho|by right]. Qed.

Lemma answers_rely_same t s s' :
  registered s' = registered s → offered s' = offered s → in_callback s' !! t = in_callback s !! t →
  sync_response s' !! t = sync_response s !! t → answers_rely t s s'.
Proof. intros Er Eo Ei Ey. unfold answers_rely, grows. by rewrite Er, Eo. Qed.

(** ** Actions that answer nothing *)

Definition quiet (s s' : server) : Prop :=
  registered s' = registered s ∧ offered s' = offered s ∧ served s' = served s ∧
  in_callback s' = in_callback s ∧ sync_response s' = sync_response s ∧
  pending s' ⊆ pending s ∧ (next_chan s ≤ next_chan s')%nat ∧
  ∀ c o' d, oneshots s' !! c = Some o' → oneshot_value o' = Some d →
    ∃ o, oneshots s !! c = Some o ∧ oneshot_value o = Some d.

Lemma quiet_inv s s' : answers_inv s → quiet s s' → answers_inv s' ∧ ∀ t, answers_rely t s s'.
Proof.
  intros [Hv Hp Hf Hs] (Er & Eo & Es & Ei & Ey & Hsub & Hn & Ho). split.
  - split; unfold given; rewrite ?Er, ?Eo, ?Es.
    + intros c o' d Hc Hd. destruct (Ho c o' d Hc Hd) as (o & Hc' & Hd'). eauto.
    + intros r c Hc. apply Hp. by eapply lookup_weaken.
    + intros c Hc. apply Hf. lia.
    + exact Hs.
  - intros t. apply answers_rely_same; congruence.
Qed.

Lemma safe_quiet_server {A} t (p : prog server A) P :
  astable t P → steps_in quiet p → asafe t p P (λ _, P).
Proof. intros HP Hp. eapply safe_steps_in; [apply quiet_inv|done|done]. Qed.

Lemma quiet_refl s : quiet s s.
Proof. repeat split; eauto. Qed.

Lemma quiet_oneshot s c f :
  (∀ o d, oneshot_value (f o) = Some d → oneshot_value o = Some d) →
  quiet s (s <| oneshots ::= alter f c |>).
Proof.
  intros Hf. repeat split; simpl; try done. intros c' o' d Hc Hd.
  destruct (decide (c = c')) as [<-|Hne]; [|rewrite lookup_alter_ne in Hc by done; eauto].
  rewrite lookup_alter_eq in Hc. destruct (oneshots s !! c) as [o|]; [|done].
  injection Hc as <-. eauto.
Qed.

Lemma quiet_insert s c o o' :
  oneshots s !! c = Some o → (∀ d, oneshot_value o' = Some d → oneshot_value o = Some d) →
  quiet s (s <| oneshots ::= insert c o' |>).
Proof.
  intros Hc Ho. repeat split; simpl; try done. intros c' o1 d Hc' Hd.
  destruct (decide (c = c')) as [<-|Hne]; [|rewrite lookup_insert_ne in Hc' by done; eauto].
  rewrite lookup_insert_eq in Hc'. injection Hc' as <-. eauto.
Qed.

#[local] Ltac quiet_action :=
  intros; simpl in *; repeat case_match; simplify_eq/=;
  first [ apply quiet_refl
        | apply quiet_oneshot; solve [intros ? ?; by rewrite (proj1 (oneshot_sender_dropped _))]
        | repeat split; simpl; first [apply delete_subseteq | eauto with lia] ].

#[local] Ltac quiet_tac :=
  repeat first
    [ exact Logic.I
    | solve [auto with quiet]
    | apply steps_in_load; solve [apply quiet_refl]
    | apply steps_in_modify; solve [quiet_action]
    | apply steps_in_fetch; solve [quiet_action]
    | apply steps_in_bind; [|intros ?]
    | case_match ].

Create HintDb quiet.

Lemma on_stream_quiet c f : steps_in quiet (on_stream c f).
Proof. unfold on_stream. quiet_tac. Qed.
#[local] Hint Resolve on_stream_quiet : quiet.

Lemma drop_delivery_quiet d : steps_in quiet (drop_delivery d).
Proof. unfold drop_delivery. quiet_tac. Qed.
#[local] Hint Resolve drop_delivery_quiet : quiet.

Lemma drop_receiver_quiet c : steps_in quiet (drop_receiver c).
Proof.
  unfold drop_receiver. apply steps_in_bind; [|intros; quiet_tac]. apply steps_in_fetch. intros s.
  destruct (oneshots s !! c) as [o|] eqn:E; [|apply quiet_refl]. eapply quiet_insert; [done|].
  destruct (oneshot_receiver_dropped o) as (o' & -> & Hv & _). simpl. by rewrite Hv.
Qed.

Lemma pending_drop_quiet r : steps_in quiet (pending_drop r).
Proof. unfold pending_drop, remove_pending, on_oneshot. quiet_tac. Qed.

Lemma next_responder_id_quiet n : steps_in quiet (next_responder_id n).
Proof. induction n; cbn [next_responder_id]; [unfold panic; by split|]. quiet_tac. Qed.

Lemma remove_active_quiet r : steps_in quiet (remove_active r).
Proof. unfold remove_active. quiet_tac. Qed.

Lemma build_response_quiet d : steps_in quiet (build_response d).
Proof. unfold build_response. destruct d; quiet_tac. Qed.
#[local] Hint Resolve remove_active_quiet : quiet.

Lemma finish_quiet r : steps_in quiet (hyper4k_response_finish r).
Proof. unfold hyper4k_response_finish. quiet_tac. Qed.

Lemma send_result_quiet c b s : quiet s (send_result c b s).1.
Proof. unfold send_result. quiet_action. Qed.

Lemma write_quiet rt r b : steps_in quiet (hyper4k_response_write rt r b).
Proof.
  assert (∀ c chunk, steps_in quiet (try_send_on c chunk)).
  { intros. apply steps_in_fetch. intros. apply send_result_quiet. }
  assert (∀ c chunk, steps_in quiet (blocking_send_on c chunk)).
  { intros c chunk. split; [|done]. intros t s s' x E. simpl in E. case_decide; [done|].
    injection E as E. apply (f_equal fst) in E. simpl in E. subst. apply send_result_quiet. }
  unfold hyper4k_response_write. quiet_tac.
Qed.

Lemma drop_body_quiet b : steps_in quiet (drop_body b).
Proof. unfold drop_body. quiet_tac. Qed.

Lemma poll_frame_quiet b : steps_in quiet (poll_frame b).
Proof.
  destruct b as [b|rx]; [done|]. apply steps_in_bind; [|done]. split; [|done].
  intros t s s' x E. simpl in E. repeat case_match; simplify_eq/=; repeat split; eauto.
Qed.

(** ** Calls on a responder *)

Lemma safe_then_quiet {A B} t (p : prog server A) (g : A → prog server B) P Q :
  steps_in quiet p → astable t P → (∀ a, asafe t (g a) P Q) → asafe t (pbind p g) P Q.
Proof. intros Hp HP Hg. eapply safe_bind; [by apply safe_quiet_server|done]. Qed.

Section calls.
(** [F]: what the caller knows besides and no step takes away. *)
Context (t : nat) (F : server → Prop) (F_grows : ∀ s s', grows s s' → F s → F s').

(** The thread is in the callback of [r], or in none when [r] is zero; what its
    slot holds was given for [r]. *)
Definition inside (r : Z) (s : server) : Prop :=
  default 0 (in_callback s !! t) = r ∧ (r = 0 → sync_response s !! t = None) ∧
  (∀ d, sync_response s !! t = Some d → given s r d) ∧ F s.

Lemma inside_grows r s s' :
  grows s s' → in_callback s' !! t = in_callback s !! t → sync_response s' !! t = sync_response s !! t →
  inside r s → inside r s'.
Proof.
  intros Hg Ei Es (H1 & H2 & H3 & H4). unfold inside. rewrite Ei, Es. split_and!; eauto using grows_given.
Qed.

Lemma inside_stable r : astable t (inside r).
Proof. intros s s' _ _ (Hg & Hi & Hy & _). by apply inside_grows. Qed.

Lemma given_stable r' d : astable t (λ s, given s r' d).
Proof. intros s s' _ _ [Hg _]. by apply grows_given. Qed.

Lemma and_stable P Q : astable t P → astable t Q → astable t (λ s, P s ∧ Q s).
Proof. intros HP HQ s s' Hs Hs' HR [? ?]. split; eauto. Qed.

Lemma registered_stable c r : astable t (λ s, registered s !! c = Some (inr r)).
Proof. intros s s' _ _ [[Hg _] _]. apply Hg. Qed.

#[local] Hint Resolve inside_stable given_stable and_stable registered_stable : quiet.

Lemma safe_through_channel r r' d :
  asafe t (deliver_through_channel r' d) (λ s, inside r s ∧ given s r' d) (λ _, inside r).
Proof.
  unfold deliver_through_channel.
  eapply safe_bind with (M := λ x s, (inside r s ∧ given s r' d) ∧
    match x with Some c => registered s !! c = Some (inr r') | None => True end).
  { apply safe_atomic; [auto with quiet|intros [c|]; auto with quiet|].
    - apply and_stable; auto with quiet. apply stable_True.
    - intros s s' x Hs [Hi Hg] E. injection E as <- <-.
      destruct (quiet_inv s (s <| pending ::= delete r' |>) Hs) as [Hs' HR];
        [repeat split; simpl; first [apply delete_subseteq | by eauto]|].
      split_and!; [done|by intros ? _|by eapply (inside_stable r s)|exact Hg|].
      destruct (pending s !! r') as [c|] eqn:Ep; [|done]. by apply (ai_pending _ Hs). }
  intros [c|].
  2: { eapply safe_then_quiet; [apply drop_delivery_quiet| |]; [apply and_stable; auto with quiet; apply stable_True|].
       intros _. apply safe_ret; [apply and_stable; auto with quiet; apply stable_True|by intros s _ [[? _] _]]. }
  eapply safe_bind with (M := λ _, inside r).
  2: { intros [|]; [apply safe_ret; auto with quiet|].
       eapply safe_then_quiet; [apply drop_delivery_quiet|auto with quiet|].
       intros _. apply safe_ret; auto with quiet. }
  apply safe_atomic; [auto with quiet|auto with quiet|].
  intros s s' x Hs [[Hi Hg] Hr] E. simpl in E.
  destruct (oneshots s !! c) as [o|] eqn:Eo; simplify_eq/=.
  2: { split_and!; [done|intros ? _; by apply answers_rely_same|done]. }
  split_and!; [|intros ? _; by apply answers_rely_same|].
  - destruct Hs as [Hv Hp Hf Hsv]. split; unfold given; simpl; auto.
    intros c' o' d' Hc Hd. destruct (decide (c = c')) as [<-|Hne].
    + rewrite lookup_insert_eq in Hc. injection Hc as <-.
      destruct (oneshot_open o) eqn:Eop.
      * destruct (oneshot_sent o d Eop) as (o1 & E1 & Hv1 & _). rewrite E1 in Hd. simpl in Hd.
        simplify_eq. eauto.
      * destruct (oneshot_refused o d Eop) as (o1 & E1 & Hv1 & _). rewrite E1 in Hd. simpl in Hd.
        rewrite Hv1 in Hd. eauto.
    + rewrite lookup_insert_ne in Hc by done. eauto.
  - by apply (inside_grows r s).
Qed.

(** An action that changes offers and this thread's locals only. *)
Lemma local_inv s s' :
  answers_inv s → registered s' = registered s → oneshots s' = oneshots s → pending s' = pending s →
  next_chan s' = next_chan s → served s' = served s → (∀ x, x ∈ offered s → x ∈ offered s') →
  answers_inv s'.
Proof.
  intros [Hv Hp Hf Hsv] Er Eo Ep En Es Ho.
  assert (∀ r d, given s r d → given s' r d) as Hg by (intros r d [?|?]; [left; auto|by right]).
  split; rewrite ?Er, ?Eo, ?Ep, ?En, ?Es; eauto.
  - intros c o d Hc Hd. destruct (Hv c o d Hc Hd) as (r & ? & ?). eauto.
  - intros r resp Hr. destruct (Hsv r resp Hr) as [(d & ? & ?)|?]; [left; eauto|by right].
Qed.

Lemma safe_deliver_answer r r' d :
  r' ≠ 0 → asafe t (deliver_response r' d) (inside r) (λ _, inside r).
Proof.
  intros Hr'. unfold deliver_response.
  eapply safe_bind with (M := λ x s, (inside r s ∧ given s r' d) ∧ x = r).
  { apply safe_atomic; [auto with quiet|intros x; apply and_stable; [auto with quiet|by intros ? ?]|].
    intros s s' x Hs (H1 & H2 & H3 & H4) E. simpl in E. simplify_eq/=.
    assert (grows s (s <| offered ::= cons (r', d) |>)) as Hg.
    { split; simpl; [done|]. intros y Hy. by right. }
    split_and!; [apply (local_inv s); simpl; auto; intros; by right|intros t' _; by split| |by left; left|done].
    apply (inside_grows _ s); done. }
  intros x. destruct (Z.eqb_spec x r') as [->|Hne].
  2: { eapply safe_pre; [| |apply safe_through_channel]; [apply and_stable; [auto with quiet|by intros ? ?]|].
       by intros s _ [? _]. }
  eapply safe_bind with (M := λ _, inside r).
  - apply safe_atomic; [apply and_stable; [auto with quiet|by intros ? ?]|auto with quiet|].
    intros s s' x Hs [[Hi Hg] <-] E. simpl in E. destruct Hi as (H1 & H2 & H3 & H4).
    destruct (sync_response s !! t) as [d0|] eqn:Ey; simplify_eq/=.
    { split_and!; [done|intros ? _; by apply answers_rely_same|by unfold inside; rewrite Ey]. }
    split_and!; [by apply (local_inv s)| |].
    + intros t' Hne. apply answers_rely_same; simpl; try done. by rewrite lookup_insert_ne.
    + unfold inside. simpl. rewrite lookup_insert_eq. split_and!; try done.
      * intros d1 [= <-]. done.
      * by apply (F_grows s).
  - intros [|]; [apply safe_ret; auto with quiet|].
    eapply safe_then_quiet; [apply drop_delivery_quiet|auto with quiet|]. intros _.
    eapply safe_pre; [auto with quiet| |apply safe_through_channel].
    intros s _ Hi. split; [done|by right].
Qed.

Lemma safe_respond r r' st h b :
  asafe t (hyper4k_respond r' st h b) (inside r) (λ _, inside r).
Proof.
  unfold hyper4k_respond. destruct (Z.eqb_spec r' 0) as [|Hr']; [apply safe_ret; auto with quiet|].
  destruct (parse_headers h); [|by apply safe_atomic; auto with quiet].
  eapply safe_then_quiet; [apply steps_in_load, quiet_refl|auto with quiet|].
  intros [|]; [apply safe_ret; auto with quiet|by apply safe_deliver_answer].
Qed.

Lemma safe_begin r r' st h :
  asafe t (hyper4k_response_begin r' st h) (inside r) (λ _, inside r).
Proof.
  unfold hyper4k_response_begin. destruct (Z.eqb_spec r' 0) as [|Hr']; [apply safe_ret; auto with quiet|].
  destruct (parse_headers h); [|by apply safe_atomic; auto with quiet].
  eapply safe_then_quiet; [unfold new_stream; quiet_tac|auto with quiet|]. intros c.
  eapply safe_then_quiet; [quiet_tac|auto with quiet|]. intros vacant.
  destruct (negb vacant).
  - apply (safe_quiet_server t); [auto with quiet|quiet_tac].
  - eapply safe_bind; [by apply safe_deliver_answer|]. intros code.
    destruct (negb (code =? HYPER4K_OK)); [|apply safe_ret; auto with quiet].
    apply (safe_quiet_server t); [auto with quiet|quiet_tac].
Qed.

Lemma safe_api r {A} (p : prog server A) : api_program p → asafe t p (inside r) (λ _, inside r).
Proof.
  induction 1.
  - apply safe_ret; auto with quiet.
  - eapply safe_bind; [eassumption|auto].
  - apply safe_respond.
  - apply safe_begin.
  - apply safe_quiet_server; [auto with quiet|apply write_quiet].
  - apply safe_quiet_server; [auto with quiet|apply finish_quiet].
Qed.
End calls.

(** ** Serving a request *)

Section handler.
Context (t : nat).

(** The thread is in no callback. *)
Definition outside : server → Prop := inside t (λ _, True) 0.

Lemma outside_stable : astable t outside.
Proof. by apply inside_stable. Qed.

Lemma pure_stable (X : Prop) : astable t (λ _, X).
Proof. by intros s s' _ _ _. Qed.

Lemma made_stable c : astable t (λ s, registered s !! c = Some (inl t)).
Proof. intros s s' _ _ (_ & _ & _ & Hm). apply Hm. Qed.

#[local] Hint Resolve outside_stable pure_stable made_stable and_stable given_stable
  registered_stable inside_stable : quiet.

Lemma outside_same s s' :
  in_callback s' !! t = in_callback s !! t → sync_response s' !! t = sync_response s !! t →
  outside s → outside s'.
Proof.
  unfold outside, inside. intros -> -> (H1 & H2 & _). split_and!; [done|done| |done].
  intros d Hd. rewrite (H2 eq_refl) in Hd. done.
Qed.

Lemma safe_register_responder :
  asafe t register_response outside (λ rc s, outside s ∧ registered s !! rc.2 = Some (inr rc.1)).
Proof.
  unfold register_response.
  eapply safe_bind with (M := λ c s, outside s ∧ registered s !! c = Some (inl t)).
  { apply safe_atomic; [auto with quiet|auto with quiet|]. intros s s' c Hs Hout E. simpl in E.
    injection E as <- <-. pose proof (ai_fresh _ Hs (next_chan s) ltac:(lia)) as Hn.
    split_and!; [| |by apply (outside_same s)|by apply lookup_insert_eq].
    - destruct Hs as [Hv Hp Hf Hsv]. split; unfold given; simpl; auto.
      + intros c o d Hc Hd. destruct (decide (next_chan s = c)) as [<-|Hne].
        * rewrite lookup_insert_eq in Hc. injection Hc as <-. destruct oneshot_new as [Hv0 _]. congruence.
        * rewrite lookup_insert_ne in Hc by done. rewrite lookup_insert_ne by done. eauto.
      + intros r c Hc. specialize (Hp r c Hc). by rewrite lookup_insert_ne by congruence.
      + intros c Hc. rewrite lookup_insert_ne by lia. apply Hf. lia.
    - intros t' Hne. split_and!; try done.
      + split; [|done]. intros c r Hc. simpl. by rewrite lookup_insert_ne by congruence.
      + intros c Hc. simpl. by rewrite lookup_insert_ne by congruence. }
  intros c. eapply safe_then_quiet; [apply next_responder_id_quiet|auto with quiet|]. intros id.
  eapply safe_bind with (M := λ _ s, outside s ∧ registered s !! c = Some (inr id)).
  2: { intros []. apply safe_ret; auto with quiet. }
  unfold insert_pending. eapply safe_bind with (M := λ _ s, outside s ∧ registered s !! c = Some (inr id)).
  2: { intros [c'|]; [|apply safe_ret; auto with quiet].
       apply safe_quiet_server; [auto with quiet|]. unfold on_oneshot. quiet_tac. }
  apply safe_atomic; [auto with quiet|auto with quiet|]. intros s s' x Hs [Hout Hc] E. simpl in E.
  injection E as <- _. split_and!; [| |by apply (outside_same s)|by apply lookup_insert_eq].
  - destruct Hs as [Hv Hp Hf Hsv]. split; unfold given; simpl; auto.
    + intros c' o d Ho Hd. destruct (Hv c' o d Ho Hd) as (r & Hr & Hg).
      exists r. by rewrite lookup_insert_ne by congruence.
    + intros r c' [[-> ->]|[Hne Hr]]%lookup_insert_Some; [by apply lookup_insert_eq|].
      specialize (Hp r c' Hr). by rewrite lookup_insert_ne by congruence.
    + intros c' Hc'. rewrite lookup_insert_ne; [by apply Hf|]. intros <-.
      rewrite Hf in Hc by done. done.
  - intros t' Hne. split_and!; try done.
    + split; [|done]. intros c' r Hc'. simpl. by rewrite lookup_insert_ne by congruence.
    + intros c' Hc'. simpl. rewrite lookup_insert_ne; [done|]. intros <-. congruence.
Qed.

(** After the callback: the channel, and what the slot held. *)
Definition called (x : Z * nat * option Delivery) (s : server) : Prop :=
  (outside s ∧ registered s !! x.1.2 = Some (inr x.1.1)) ∧
  match x.2 with Some d => given s x.1.1 d | None => True end.

Lemma called_stable x : astable t (called x).
Proof. apply and_stable; [auto with quiet|]. destruct x.2; auto with quiet. Qed.

(** The callback has returned and the slot has not been read. *)
Definition leaving (r : Z) (c : nat) (s : server) : Prop :=
  (default 0 (in_callback s !! t) = 0 ∧ registered s !! c = Some (inr r)) ∧
  ∀ d, sync_response s !! t = Some d → given s r d.

Lemma leaving_stable r c : astable t (leaving r c).
Proof.
  intros s s' _ _ (Hg & Ei & Ey & _) [[H1 H2] H3]. unfold leaving. rewrite Ei, Ey.
  split; [split; [done|by apply Hg]|]. intros d Hd. eapply grows_given; [done|auto].
Qed.

Lemma safe_handle_call cb req b :
  (∀ q, api_program (cb q)) → asafe t (handle_call cb req b) outside called.
Proof.
  intros Hcb. unfold handle_call. eapply safe_bind; [apply safe_register_responder|]. intros [r c]. cbn [fst snd].
  set (F := λ s : server, registered s !! c = Some (inr r)).
  assert (HF : ∀ s s', grows s s' → F s → F s') by (intros s s' [Hg _]; apply Hg).
  eapply safe_bind with (M := λ _, inside t F r).
  { apply safe_atomic; [unfold F; auto with quiet|auto with quiet|].
    intros s s' x Hs [(H1 & H2 & _) Hr] E. simpl in E. injection E as <- <-.
    split_and!; [by apply (local_inv s)|intros t' Hne; apply answers_rely_same; simpl; try done;
      by rewrite lookup_insert_ne|].
    unfold inside. simpl. rewrite lookup_insert_eq. split_and!; try done; [by intros _; apply H2|].
    intros d Hd. rewrite (H2 eq_refl) in Hd. done. }
  intros _. eapply safe_bind; [by apply (safe_api t F HF r)|]. intros [].
  eapply safe_bind with (M := λ _, leaving r c).
  { apply safe_atomic; [auto with quiet|intros _; apply leaving_stable|].
    intros s s' x Hs (H1 & H2 & H3 & H4) E. simpl in E. injection E as <- <-.
    split; [by apply (local_inv s)|split].
    - intros t' Hne. apply answers_rely_same; simpl; try done. by rewrite lookup_insert_ne.
    - split; [|done]. split; [simpl; by rewrite lookup_insert_eq|exact H4]. }
  intros []. eapply safe_bind with (M := λ d, called ((r, c), d)).
  { apply safe_atomic; [apply leaving_stable|intros d; apply called_stable|].
    intros s s' x Hs [[H1 H2] H3] E. simpl in E. injection E as <- <-.
    split; [by apply (local_inv s)|split].
    - intros t' Hne. apply answers_rely_same; simpl; try done. by rewrite lookup_delete_ne.
    - split; [split; [|exact H2]|].
      + unfold outside, inside. simpl. by rewrite lookup_delete_eq.
      + simpl. destruct (sync_response s !! t) as [d|] eqn:Ey; [by apply (H3 d)|done]. }
  intros d. apply safe_ret; [apply called_stable|done].
Qed.

Lemma safe_build r d P :
  astable t P →
  asafe t (build_response d) (λ s, P s ∧ given s r d)
    (λ resp s, P s ∧ given s r d ∧ resp = response_of d).
Proof.
  intros HP. assert (astable t (λ s, P s ∧ given s r d)) as HS by auto with quiet.
  assert (Hret : ∀ resp, resp = response_of d →
    asafe t (Ret resp) (λ s, P s ∧ given s r d) (λ resp s, P s ∧ given s r d ∧ resp = response_of d)).
  { intros resp ->. apply safe_ret; [done|]. by intros s _ [? ?]. }
  unfold build_response, response_of in *. destruct d; destruct (_ && _);
    try (by apply Hret); (eapply safe_then_quiet; [apply drop_delivery_quiet|done|]; by intros []; apply Hret).
Qed.

Lemma safe_returned r resp X :
  (∀ s, X s → (∃ d, given s r d ∧ resp = response_of d) ∨ resp = no_answer) → astable t X →
  asafe t (returned r resp) (λ s, outside s ∧ X s) (λ _, outside).
Proof.
  intros HX Hst. apply safe_atomic; [auto with quiet|auto with quiet|].
  intros s s' x Hs [Hout Hx] E. simpl in E. injection E as <- _.
  split_and!; [|intros ? _; by apply answers_rely_same|by apply (outside_same s)].
  destruct Hs as [Hv Hp Hf Hsv]. split; unfold given; simpl; auto.
  intros r' resp' [Heq|Hin]%elem_of_cons; [|by apply Hsv]. simplify_eq. by apply HX.
Qed.

(** The end of [handle], once the response is there. *)
Lemma safe_end {A} (p : prog server A) r resp X :
  (∀ s, X s → (∃ d, given s r d ∧ resp = response_of d) ∨ resp = no_answer) → astable t X →
  steps_in quiet p →
  asafe t (p ;; returned r resp ;; Ret resp) (λ s, outside s ∧ X s) (λ _, outside).
Proof.
  intros HX Hst Hp. eapply safe_then_quiet; [done|auto with quiet|]. intros _.
  eapply safe_bind; [by apply safe_returned|]. intros ?. apply safe_ret; auto with quiet.
Qed.

(** Dropping the receiver and the guard, in either order, is quiet. *)
Lemma drops_quiet rc :
  steps_in quiet (pending_drop rc.1 ;; drop_receiver rc.2) ∧
  steps_in quiet (drop_receiver rc.2 ;; pending_drop rc.1).
Proof. split; apply steps_in_bind; auto using pending_drop_quiet, drop_receiver_quiet. Qed.

Lemma safe_slot rc d :
  asafe t (handle_slot rc d) (called (rc, Some d)) (λ _, outside).
Proof.
  unfold handle_slot. eapply safe_pre with (P := λ s, outside s ∧ given s rc.1 d);
    [apply called_stable|by intros s _ [[? _] ?]|].
  eapply safe_bind; [by apply safe_build, outside_stable|]. intros resp.
  eapply safe_then_quiet; [apply pending_drop_quiet|auto with quiet|]. intros _.
  apply (safe_end (drop_receiver rc.2)); [|auto with quiet|apply drop_receiver_quiet].
  intros s [? ->]. left. by exists d.
Qed.

Lemma safe_await rc :
  asafe t (handle_await rc) (called (rc, None)) (λ _, outside).
Proof.
  unfold handle_await.
  eapply safe_bind with (M := λ d s, outside s ∧
    match d with Some d => given s rc.1 d | None => True end).
  { apply safe_atomic; [apply called_stable|intros [d|]; auto with quiet|].
    intros s s' x Hs [[Hout Hr] _] E. simpl in E. destruct (oneshots s !! rc.2) as [o|] eqn:Eo; [|done].
    set (o' := oneshot_drop_receiver (oneshot_poll o).1) in *.
    destruct (oneshot_poll o).2 as [d|] eqn:Ep; [|done]. simplify_eq/=.
    destruct (quiet_inv s (s <| oneshots ::= insert rc.2 o'.1 |>) Hs) as [Hs' HR].
    { eapply quiet_insert; [done|]. intros d. unfold o'.
      destruct (oneshot_receiver_dropped (oneshot_poll o).1) as (o1 & -> & Hv & _). simpl. by rewrite Hv. }
    split_and!; [exact Hs'|by intros ? _|by apply (outside_same s)|].
    destruct x as [d|]; [|done]. destruct (oneshot_value o) as [d'|] eqn:Ev.
    - destruct (oneshot_received o d' Ev) as (o1 & E1 & _). rewrite E1 in Ep. simpl in Ep.
      simplify_eq. destruct (ai_value _ Hs _ _ _ Eo Ev) as (r & Hr' & Hg). by simplify_eq/=.
    - rewrite (oneshot_waiting o Ev) in Ep. simpl in Ep. by destruct (oneshot_sender o). }
  intros [d|].
  - eapply safe_bind; [by apply safe_build, outside_stable|]. intros resp.
    apply (safe_end (pending_drop rc.1)); [|auto with quiet|apply pending_drop_quiet].
    intros s [? ->]. left. by exists d.
  - apply (safe_end (pending_drop rc.1)); [by right|auto with quiet|apply pending_drop_quiet].
Qed.

Lemma safe_server_program {A} (p : prog server A) :
  server_program p → asafe t p outside (λ _, outside).
Proof.
  induction 1 as [A p Hp|A B p g _ IHp _ IHg|cb req Hcb|cb req Hcb|b|b].
  - by apply safe_api.
  - eapply safe_bind; eauto.
  - unfold handle. destruct (collect_limited _); [|apply safe_ret; auto with quiet].
    eapply safe_bind; [by apply safe_handle_call|]. intros [rc [d|]]; [apply safe_slot|apply safe_await].
  - unfold handle_abandoned. destruct (collect_limited _); [|apply safe_ret; auto with quiet].
    eapply safe_bind; [by apply safe_handle_call|]. intros [rc [d|]].
    + eapply safe_bind; [apply safe_slot|]. intros resp.
      apply safe_quiet_server; [auto with quiet|apply drop_body_quiet].
    + eapply safe_pre; [apply called_stable|by intros s _ [[? _] _]|].
      apply safe_quiet_server; [auto with quiet|apply drops_quiet].
  - apply safe_quiet_server; [auto with quiet|apply poll_frame_quiet].
  - apply safe_quiet_server; [auto with quiet|apply drop_body_quiet].
Qed.
End handler.

(** Every reachable configuration; a thread that is over is in no callback. *)
Lemma reachable_answers ts c :
  Forall server_program ts → reachable (Config server_start ts) c →
  config_ends answers_inv answers_rely outside c.
Proof.
  intros Ht Hr. eapply ends_sound; [exact Hr|]. split; [by split; simpl; try set_solver|].
  intros t p Hp. exists (outside t). split; [done|].
  apply safe_server_program. by eapply Forall_lookup_1.
Qed.

(** C8: answers are not mixed up.  Whatever any number of threads do, serving
    requests, answering them from callbacks (their own or another request's) or
    from elsewhere, and disconnecting, a response that is returned for responder
    [r] is made from an answer some caller gave for [r]; the only others are the
    library's own two errors, for a second answer in a callback and for an answer
    that cannot come any more. *)
Theorem answers_are_not_mixed_up ts c r resp :
  Forall server_program ts → reachable (Config server_start ts) c →
  (r, resp) ∈ served (shared c) →
  (∃ d, (r, d) ∈ offered (shared c) ∧ resp = response_of d) ∨
  resp = response_of slot_busy ∨ resp = no_answer.
Proof.
  intros Ht Hr Hin. destruct (reachable_answers ts c Ht Hr) as [Hs _].
  destruct (ai_served _ Hs r resp Hin) as [(d & [Hd| ->] & ->)|?]; eauto.
Qed.
End answers.

(** ** Witness: a request answered from another thread while it waits *)

Import ServerFacts.Example1.

Module Example8.
Definition ts : list (prog server unit) :=
  [handle (λ _, Ret tt) req ;; Ret tt; hyper4k_respond 1 204 None (Some [33]) ;; Ret tt].

Lemma answering_ok : Forall server_program ts.
Proof.
  repeat apply Forall_cons_2; [..|apply Forall_nil_2].
  - apply prog_bind; [apply prog_handle; api_tac|]. intros. apply prog_api. api_tac.
  - apply prog_api. api_tac.
Qed.

Definition start : config server := Config server_start ts.
Definition answered_config : config server :=
  default start (exec (replicate 6 0%nat ++ replicate 4 1%nat ++ replicate 3 0%nat) start).

Lemma answered_reachable : reachable start answered_config.
Proof.
  unfold answered_config. destruct (exec _ start) eqn:E; [by eapply exec_reachable|apply rtc_refl].
Qed.
End Example8.
Import Example8.

Definition answer : HttpResponse := Resp 204 map_new (BodyFull [33]).

Lemma answers_are_not_mixed_up_witness :
  ∃ d, (1, d) ∈ offered (shared answered_config) ∧ answer = response_of d.
Proof.
  assert (served (shared answered_config) = [(1, answer)]) as Hs
    by (exact (@eq_refl _ [(1, answer)] <: served (shared answered_config) = [(1, answer)])).
  destruct (answers_are_not_mixed_up Example8.ts answered_config 1 answer answering_ok answered_reachable)
    as [Hd|[E|E]].
  - rewrite Hs. left.
  - exact Hd.
  - apply (f_equal r_status) in E. discriminate E.
  - apply (f_equal r_status) in E. discriminate E.
Defined.
