(* ===== verification/ServerBooks.v ===== *)
(** * What serving a request leaves behind

    The books of the server.  [PendingResponse] guards and one-shot senders are
    tokens of the task or caller that holds them; so are the senders of a stream.
    From this: a responder's channel takes at most one
    answer, nothing is left in the registry or in a slot once the tasks are over,
    and a stream that was finished ends after its last chunk. *)

From S2P Require Import Prelude Conc Ledger Headers Channels Server ServerFacts ServerSafety.

Open Scope prog_scope.

(** ** Registrations *)

(** A channel that was made and has no id yet; the sender of a responder's channel,
    outside the registry; a [PendingResponse]. *)
Inductive asset := Draw | SenderOf (r : Z) | Guard (r : Z).

#[export] Instance asset_eq_dec : EqDecision asset.
Proof. solve_decision. Defined.

Section books.
Context {H : HttpHeaders} {HL : HttpHeadersLaws H}.
Context {T : TokioChannels Delivery} {TL : TokioChannelsLaws T}.

Definition in_registry (s : server) (r : Z) : nat :=
  match pending s !! r with Some _ => 1%nat | None => 0%nat end.

(** Fewer channels than ids were ever made, so no id was drawn twice. *)
Definition ids_unique (s : server) : Prop := Z.of_nat (next_chan s) < 2 ^ 64 - 1.

Record reg_books (s : server) (m : holding asset) : Prop := RegBooks {
  rb_guard r : is_Some (pending s !! r) → (0 < m (Guard r))%nat;
  rb_next : ids_unique s → 1 ≤ next_id s ∧ next_id s + Z.of_nat (m Draw) ≤ 1 + Z.of_nat (next_chan s);
  rb_once r : ids_unique s →
    (m (SenderOf r) + in_registry s r + occ r (answered s) ≤
     if decide (1 ≤ r < next_id s)%Z then 1 else 0)%nat;
}.

Lemma reg_books_same s m n : same m n → reg_books s m → reg_books s n.
Proof.
  intros Hmn [H1 H2 H3]. split; intros; rewrite <- !Hmn; auto.
Qed.

#[local] Abbreviation rowns t := (owns reg_books t (λ _ _, True)) (only parsing).

(** Steps that the registry does not see. *)
Definition elsewhere (s s' : server) : Prop :=
  pending s' = pending s ∧ next_id s' = next_id s ∧ answered s' = answered s ∧
  (next_chan s ≤ next_chan s')%nat.

Lemma elsewhere_books s s' m : reg_books s m → elsewhere s s' → reg_books s' m.
Proof.
  intros [H1 H2 H3] (Ep & En & Ea & Hn).
  assert (ids_unique s' → ids_unique s) as Hu by (unfold ids_unique; lia).
  split; unfold in_registry in *; rewrite ?Ep, ?En, ?Ea; auto.
  intros Hs. destruct (H2 (Hu Hs)). lia.
Qed.

Lemma owns_elsewhere {A} t (p : prog server A) m :
  steps_in elsewhere p → rowns t p m (λ _ n, n = m).
Proof. intros Hp. apply owns_silent; [|done]. eapply silent_steps; [apply elsewhere_books|done]. Qed.

Lemma owns_then_elsewhere {A C} t (p : prog server A) (g : A → prog server C) m Q :
  steps_in elsewhere p → (∀ a, rowns t (g a) m Q) → rowns t (pbind p g) m Q.
Proof. intros Hp Hg. eapply owns_bind; [by apply owns_elsewhere|]. intros a ? ->. apply Hg. Qed.

#[local] Ltac elsewhere_tac :=
  repeat first
    [ exact Logic.I
    | solve [auto with elsewhere]
    | apply steps_in_load; solve [repeat split; auto with lia]
    | apply steps_in_modify; solve [intros; repeat split; simpl; auto with lia]
    | apply steps_in_fetch; solve [intros; simpl; repeat case_match; repeat split; simpl; auto with lia]
    | apply steps_in_bind; [|intros ?]
    | case_match ].

Create HintDb elsewhere.

Lemma on_stream_elsewhere c f : steps_in elsewhere (on_stream c f).
Proof. unfold on_stream. elsewhere_tac. Qed.
#[local] Hint Resolve on_stream_elsewhere : elsewhere.

Lemma drop_delivery_elsewhere d : steps_in elsewhere (drop_delivery d).
Proof. unfold drop_delivery. elsewhere_tac. Qed.
#[local] Hint Resolve drop_delivery_elsewhere : elsewhere.

Lemma drop_receiver_elsewhere c : steps_in elsewhere (drop_receiver c).
Proof. unfold drop_receiver. elsewhere_tac. Qed.

Lemma remove_active_elsewhere r : steps_in elsewhere (remove_active r).
Proof. unfold remove_active. elsewhere_tac. Qed.
#[local] Hint Resolve remove_active_elsewhere : elsewhere.

Lemma finish_elsewhere r : steps_in elsewhere (hyper4k_response_finish r).
Proof. unfold hyper4k_response_finish. elsewhere_tac. Qed.

Lemma build_response_elsewhere d : steps_in elsewhere (build_response d).
Proof. unfold build_response. destruct d; elsewhere_tac. Qed.

Lemma drop_body_elsewhere b : steps_in elsewhere (drop_body b).
Proof. unfold drop_body. elsewhere_tac. Qed.

Lemma poll_frame_elsewhere b : steps_in elsewhere (poll_frame b).
Proof.
  destruct b as [b|rx]; [done|]. apply steps_in_bind; [|done]. split; [|done].
  intros t s s' x E. simpl in E. repeat case_match; simplify_eq/=; repeat split; auto.
Qed.

Lemma write_elsewhere rt r b : steps_in elsewhere (hyper4k_response_write rt r b).
Proof.
  assert (Hs : ∀ c chunk s, elsewhere s (send_result c chunk s).1).
  { intros. unfold send_result. repeat case_match; repeat split; simpl; auto. }
  assert (∀ c chunk, steps_in elsewhere (try_send_on c chunk)).
  { intros. apply steps_in_fetch. auto. }
  assert (∀ c chunk, steps_in elsewhere (blocking_send_on c chunk)).
  { intros c chunk. split; [|done]. intros t s s' x E. simpl in E. case_decide; [done|].
    injection E as E. apply (f_equal fst) in E. simpl in E. subst. auto. }
  unfold hyper4k_response_write. elsewhere_tac.
Qed.

(** ** Serving and answering *)

Section thread.
Context (t : nat).

Lemma owns_next_id n :
  rowns t (next_responder_id n) (one Draw) (λ id m, m = one (SenderOf id)).
Proof.
  induction n as [|n IH]; cbn [next_responder_id]; [done|].
  eapply owns_bind with (N := λ id m, m = if id =? 0 then one Draw else one (SenderOf id)).
  2: { intros id ? ->. by destruct (id =? 0). }
  apply owns_atomic. intros s M [Hg Hn Ho]. eexists. split; [|done].
  assert (ids_unique s → fetch_add 64 (next_id s) 1 = next_id s + 1) as Hw.
  { intros Hu. destruct (Hn Hu). unfold ids_unique, plus, one in *. simpl in *.
    unfold fetch_add. apply wrap_id. split; lia. }
  destruct (Z.eqb_spec (next_id s) 0) as [E0|Hne].
  { split; simpl; [exact Hg|..]; intros; destruct (Hn ltac:(done)); lia. }
  split; simpl.
  - exact Hg.
  - intros Hu. rewrite Hw by done. destruct (Hn Hu). unfold plus, one in *. simpl in *. lia.
  - intros r Hu. rewrite Hw by done. destruct (Hn Hu). specialize (Ho r Hu).
    unfold plus, one, in_registry in *. simpl in *.
    repeat case_decide; simplify_eq; lia.
Qed.

Lemma owns_insert_pending id c :
  rowns t (insert_pending id c) (one (SenderOf id)) (λ _ m, m = one (Guard id)).
Proof.
  unfold insert_pending. eapply owns_bind with (N := λ _ m, m = one (Guard id)).
  2: { intros [c'|] ? ->; [|done]. apply owns_elsewhere. unfold on_oneshot. elsewhere_tac. }
  apply owns_atomic. intros s M [Hg Hn Ho]. eexists. split; [|done]. split; simpl.
  - intros r. specialize (Hg r). unfold plus, one in *. rewrite lookup_insert. simpl in *.
    repeat case_decide; simplify_eq; lia || auto.
  - intros Hu. exact (Hn Hu).
  - intros r Hu. specialize (Ho r Hu). unfold plus, one, in_registry in *. simpl in *.
    rewrite lookup_insert. repeat case_decide; simplify_eq; lia.
Qed.

Lemma owns_register : rowns t register_response none (λ rc m, m = one (Guard rc.1)).
Proof.
  unfold register_response. eapply owns_bind with (N := λ _ m, m = one Draw).
  { apply owns_atomic. intros s M [Hg Hn Ho]. eexists. split; [|done].
    assert (ids_unique (s <| next_chan ::= S |>) → ids_unique s) as Hu by (unfold ids_unique; simpl; lia).
    split; simpl; [exact Hg|..]; intros; [specialize (Hn (Hu ltac:(assumption)))|by apply Ho, Hu].
    unfold plus, one in *. simpl in *. lia. }
  intros c ? ->. eapply owns_bind; [apply owns_next_id|]. intros id ? ->.
  eapply owns_bind; [apply owns_insert_pending|]. by intros _ ? ->.
Qed.

(** Taking an entry out of the registry. *)
Lemma reg_books_remove s r m :
  reg_books s m →
  reg_books (s <| pending ::= delete r |>) (plus (if decide (is_Some (pending s !! r)) then one (SenderOf r) else none) m).
Proof.
  intros [Hg Hn Ho]. split; simpl.
  - intros r' [c [_ Hc]%lookup_delete_Some]. specialize (Hg r' ltac:(eauto)). unfold plus. lia.
  - intros Hu. destruct (Hn Hu). unfold plus. by case_decide.
  - intros r' Hu. specialize (Ho r' Hu). unfold plus, in_registry in *. simpl.
    rewrite lookup_delete. unfold one, none.
    destruct (decide (is_Some (pending s !! r))) as [[c Hc]|Hd], (decide (r = r')) as [->|Hne].
    + rewrite decide_True by done. rewrite Hc in Ho. lia.
    + rewrite decide_False by congruence. lia.
    + lia.
    + lia.
Qed.

Lemma owns_through_channel r d :
  rowns t (deliver_through_channel r d) none (λ _ m, m = none).
Proof.
  unfold deliver_through_channel.
  eapply owns_bind with (N := λ x m, m = match x with Some _ => one (SenderOf r) | None => none end).
  { apply owns_atomic. intros s M Hs. apply (reg_books_remove s r) in Hs. eexists. split; [|done].
    eapply reg_books_same; [|exact Hs]. intros k. unfold plus, none.
    destruct (pending s !! r) as [c|] eqn:E; [rewrite decide_True by eauto|rewrite decide_False by (by intros [? ?])]; lia. }
  intros [c|] ? ->.
  2: { apply owns_then_elsewhere; [apply drop_delivery_elsewhere|done]. }
  eapply owns_bind with (N := λ _ m, m = none).
  2: { intros [|] ? ->; [done|]. apply owns_then_elsewhere; [apply drop_delivery_elsewhere|done]. }
  apply owns_atomic. intros s M [Hg Hn Ho]. simpl.
  destruct (oneshots s !! c) as [o|]; (eexists; split; [|done]); (split; simpl; [exact Hg|exact Hn|]);
    intros r' Hu; specialize (Ho r' Hu); unfold plus, one, none, in_registry in *; simpl in *.
  - destruct (oneshot_send o d).2; simpl; repeat case_decide; simplify_eq; lia.
  - repeat case_decide; simplify_eq; lia.
Qed.

Lemma owns_deliver r d : rowns t (deliver_response r d) none (λ _ m, m = none).
Proof.
  unfold deliver_response. apply owns_then_elsewhere; [split; [|done]; intros ? s s' x E; simpl in E; by simplify_eq/=|].
  intros x. destruct (x =? r); [|apply owns_through_channel].
  apply owns_then_elsewhere.
  { split; [|done]. intros t' s s' y E. simpl in E. case_match; by simplify_eq/=. }
  intros [|]; [done|]. apply owns_then_elsewhere; [apply drop_delivery_elsewhere|].
  intros _. apply owns_through_channel.
Qed.

Lemma owns_api {A} (p : prog server A) : api_program p → rowns t p none (λ _ m, m = none).
Proof.
  induction 1 as [A a|A B p g _ IHp _ IHg|r st h b|r st h|rt r b|r].
  - done.
  - eapply owns_bind; [exact IHp|]. intros a ? ->. apply IHg.
  - unfold hyper4k_respond. destruct (r =? 0); [done|]. destruct (parse_headers h); [|done].
    apply owns_then_elsewhere; [elsewhere_tac|]. intros [|]; [done|apply owns_deliver].
  - unfold hyper4k_response_begin. destruct (r =? 0); [done|]. destruct (parse_headers h); [|done].
    apply owns_then_elsewhere; [unfold new_stream; elsewhere_tac|]. intros c.
    apply owns_then_elsewhere; [elsewhere_tac|]. intros vacant. destruct (negb vacant).
    + apply owns_elsewhere. elsewhere_tac.
    + eapply owns_bind; [apply owns_deliver|]. intros code ? ->.
      destruct (negb (code =? HYPER4K_OK)); [|done]. apply owns_elsewhere. elsewhere_tac.
  - apply owns_elsewhere, write_elsewhere.
  - apply owns_elsewhere, finish_elsewhere.
Qed.

(** Around a callback, what the task holds stays as it is. *)
Lemma owns_framed {A} (p : prog server A) m :
  rowns t p none (λ _ n, n = none) → rowns t p m (λ _, same m).
Proof.
  intros Hp. apply (owns_frame _ reg_books_same _ _ _ _ m) in Hp.
  eapply (owns_same _ reg_books_same) with (m := plus none m); [done| |done|].
  - intros _ n n' Hn Hm k. by rewrite <- Hn.
  - eapply owns_mono; [..|exact Hp]; [done|]. intros _ n (n0 & Hn & ->) k. by rewrite Hn.
Qed.

Lemma owns_continue {A} (p : prog server A) m m' :
  same m m' → rowns t p m (λ _, same none) → rowns t p m' (λ _, same none).
Proof.
  intros Hm. eapply (owns_same _ reg_books_same); [done| |done].
  intros _ n n' Hn Hk k. by rewrite <- Hn.
Qed.

Lemma owns_pending_drop r :
  rowns t (pending_drop r) (one (Guard r)) (λ _ m, m = none).
Proof.
  unfold pending_drop. eapply owns_bind with (N := λ _ m, m = none).
  2: { intros [c|] ? ->; [|done]. apply owns_elsewhere. unfold on_oneshot. elsewhere_tac. }
  apply owns_atomic. intros s M [Hg Hn Ho]. eexists. split; [|done]. split; simpl.
  - intros r' [c [Hne Hc]%lookup_delete_Some]. specialize (Hg r' ltac:(eauto)).
    unfold plus, one, none in *. rewrite decide_False in Hg by congruence. done.
  - exact Hn.
  - intros r' Hu. specialize (Ho r' Hu). unfold plus, one, none, in_registry in *. simpl in *.
    rewrite lookup_delete. destruct (decide (r = r')); lia.
Qed.

Lemma owns_handle_call cb req b :
  (∀ q, api_program (cb q)) →
  rowns t (handle_call cb req b) none (λ x, same (one (Guard x.1.1))).
Proof.
  intros Hcb. unfold handle_call. eapply owns_bind; [apply owns_register|]. intros rc ? ->.
  apply owns_then_elsewhere; [split; [|done]; intros ? s s' x E; simpl in E; by simplify_eq/=|]. intros _.
  eapply owns_bind; [apply owns_framed, owns_api, Hcb|]. intros ? m Hm.
  apply owns_then_elsewhere; [split; [|done]; intros ? s s' x E; simpl in E; by simplify_eq/=|]. intros _.
  apply owns_then_elsewhere; [split; [|done]; intros ? s s' x E; simpl in E; by simplify_eq/=|]. done.
Qed.

(** The guard is given back, and then nothing is touched. *)
Lemma owns_end {A} r (p : prog server A) :
  steps_in elsewhere p → rowns t (pending_drop r ;; p) (one (Guard r)) (λ _, same none).
Proof.
  intros Hp. eapply owns_bind; [apply owns_pending_drop|]. intros _ ? ->.
  eapply owns_post; [|by apply owns_elsewhere]. by intros _ ? ->.
Qed.

Lemma returned_elsewhere r resp : steps_in elsewhere (returned r resp ;; Ret resp).
Proof. unfold returned. elsewhere_tac. Qed.

Lemma owns_slot rc d : rowns t (handle_slot rc d) (one (Guard rc.1)) (λ _, same none).
Proof.
  unfold handle_slot. apply owns_then_elsewhere; [apply build_response_elsewhere|]. intros resp.
  apply owns_end. apply steps_in_bind; [apply drop_receiver_elsewhere|]. intros _. apply returned_elsewhere.
Qed.

Lemma owns_await rc : rowns t (handle_await rc) (one (Guard rc.1)) (λ _, same none).
Proof.
  unfold handle_await. apply owns_then_elsewhere.
  { split; [|done]. intros ? s s' x E. simpl in E. repeat case_match; simplify_eq/=; repeat split; auto. }
  intros d. apply owns_then_elsewhere; [destruct d; [apply build_response_elsewhere|done]|].
  intros resp. apply owns_end, returned_elsewhere.
Qed.

Lemma owns_server_program {A} (p : prog server A) :
  server_program p → rowns t p none (λ _, same none).
Proof.
  assert (Hnone : ∀ B (q : prog server B), rowns t q none (λ _ m, m = none) → rowns t q none (λ _, same none)).
  { intros B q. apply owns_post. by intros _ ? ->. }
  induction 1 as [A p Hp|A B p g _ IHp _ IHg|cb req Hcb|cb req Hcb|b|b].
  - by apply Hnone, owns_api.
  - eapply owns_bind; [exact IHp|]. intros a m Hm. eapply owns_continue; [exact Hm|apply IHg].
  - unfold handle. destruct (collect_limited _); [|done].
    eapply owns_bind; [by apply owns_handle_call|]. intros [rc [d|]] m Hm; (eapply owns_continue; [exact Hm|]);
      [apply owns_slot|apply owns_await].
  - unfold handle_abandoned. destruct (collect_limited _); [|done].
    eapply owns_bind; [by apply owns_handle_call|]. intros [rc [d|]] m Hm; (eapply owns_continue; [exact Hm|]).
    + eapply owns_bind; [apply owns_slot|]. intros resp n Hn. eapply owns_continue; [exact Hn|].
      apply Hnone, owns_elsewhere, drop_body_elsewhere.
    + apply owns_then_elsewhere; [apply drop_receiver_elsewhere|]. intros _.
      eapply owns_post; [|apply owns_pending_drop]. by intros _ ? ->.
  - apply Hnone, owns_elsewhere, poll_frame_elsewhere.
  - apply Hnone, owns_elsewhere, drop_body_elsewhere.
Qed.
End thread.

Lemma reachable_reg_books ts c :
  Forall server_program ts → reachable (Config server_start ts) c →
  books reg_books (λ _ _ _, True) (λ _, False) (λ _, True) c.
Proof.
  intros Ht Hr. eapply (reachable_books _ reg_books_same); [exact Hr|].
  apply (books_start _ reg_books_same).
  - split; simpl; [by intros r [? ?]|unfold none; simpl; lia|].
    intros r _. unfold none, in_registry. simpl. rewrite lookup_empty. case_decide; lia.
  - intros t p Hp. right. split; [done|]. apply owns_server_program. by eapply Forall_lookup_1.
Qed.

(** C9: a responder's channel takes one answer.  As long as no id has been drawn
    twice (2^64 - 1 channels), however many threads answer a responder through its
    channel, with [hyper4k_respond] or [hyper4k_response_begin] and in any
    interleaving, at most one of them is accepted; while the responder is
    registered none was. *)
Theorem channel_takes_one_answer ts c r :
  Forall server_program ts → reachable (Config server_start ts) c → ids_unique (shared c) →
  (occ r (answered (shared c)) ≤ 1)%nat ∧
  (is_Some (pending (shared c) !! r) → occ r (answered (shared c)) = 0%nat).
Proof.
  intros Ht Hr Hu. destruct (books_hold _ _ _ _ _ (reachable_reg_books ts c Ht Hr)) as [m [_ _ Ho]].
  specialize (Ho r Hu). unfold in_registry in Ho.
  destruct (decide (1 ≤ r < next_id (shared c)))%Z, (pending (shared c) !! r);
    (split; [lia|]); [lia|by intros [? ?]|lia|by intros [? ?]].
Qed.

(** C10: nothing is left behind.  Once every thread is over, however its requests
    ended (answered in the callback, through the channel, twice, or abandoned by
    the client while they waited), the registry is empty, and no thread is left in
    a callback or with an answer in its slot. *)
Theorem nothing_is_left_behind ts c :
  Forall server_program ts → reachable (Config server_start ts) c →
  (∀ t, (t < length ts)%nat → finished_thread t c = true) →
  pending (shared c) = ∅ ∧
  ∀ t, (t < length ts)%nat →
    default 0 (in_callback (shared c) !! t) = 0 ∧ sync_response (shared c) !! t = None.
Proof.
  intros Ht Hr Hf.
  assert (length (threads c) = length ts) as Hlen by (by apply reachable_length in Hr).
  split.
  - assert (reg_books (shared c) none) as [Hg _ _].
    { eapply (books_over _ reg_books_same); [by apply (reachable_reg_books ts)|].
      intros t p _ Hp. left. apply Hf. rewrite <- Hlen. by eapply lookup_lt_Some. }
    apply map_empty. intros r. destruct (pending (shared c) !! r) eqn:E; [|done].
    specialize (Hg r ltac:(eauto)). unfold none in Hg. lia.
  - intros t Hlt. destruct (ended _ _ _ _ t (reachable_answers ts c Ht Hr) (Hf t Hlt)) as (H1 & H2 & _).
    auto.
Qed.
End books.

(** ** Witnesses: the request of [Example8], answered and over *)

Import ServerFacts.Example1 ServerSafety.Example8.

Lemma channel_takes_one_answer_witness :
  occ 1 (answered (shared answered_config)) = 1%nat ∧
  (occ 1 (answered (shared answered_config)) ≤ 1)%nat.
Proof.
  split; [vm_compute; reflexivity|].
  apply (channel_takes_one_answer Example8.ts answered_config 1 answering_ok answered_reachable).
  unfold ids_unique. vm_compute. reflexivity.
Defined.

Lemma nothing_is_left_behind_witness :
  next_id (shared answered_config) = 2 ∧ pending (shared answered_config) = ∅.
Proof.
  split; [vm_compute; reflexivity|].
  apply (nothing_is_left_behind Example8.ts answered_config answering_ok answered_reachable).
  intros t Hlt. destruct t as [|[|t]]; [vm_compute; reflexivity..|].
  exfalso. unfold Example8.ts in Hlt. cbn [length] in Hlt. lia.
Defined.
