(* ===== verification/ServerStreams.v ===== *)
(** * A finished stream ends

    The books of the senders of a stream: one in the registry of active streams
    while the stream is open, and one in the hands of every call that is writing.
    Once [hyper4k_response_finish] has taken the first away and no call is in
    progress, the body never waits again: it gives out what was accepted and
    then ends. *)

From S2P Require Import Prelude Conc Ledger Headers Channels Server ServerFacts.

Open Scope prog_scope.

Section streams.
Context {H : HttpHeaders} {HL : HttpHeadersLaws H}.
Context {T : TokioChannels Delivery} {TL : TokioChannelsLaws T}.

(** The entries of the registry that hold a sender of [c]. *)
Definition owners (a : gmap Z nat) (c : nat) : nat :=
  length (filter (λ x : Z * nat, x.2 = c) (map_to_list a)).

Lemma owners_insert a r c c' :
  a !! r = None → owners (<[r := c]> a) c' = (owners a c' + one c c')%nat.
Proof.
  intros Hr. unfold owners. rewrite (map_to_list_insert a r c Hr), filter_cons. unfold one.
  simpl. repeat case_decide; simpl; try done; lia.
Qed.

Lemma owners_delete a r c c' :
  a !! r = Some c → (owners (delete r a) c' + one c c')%nat = owners a c'.
Proof.
  intros Hr. rewrite <- (insert_delete_id a r c Hr) at 2. by rewrite owners_insert by apply lookup_delete_eq.
Qed.

Lemma owners_none a c : (∀ r, a !! r ≠ Some c) → owners a c = 0%nat.
Proof.
  intros Ha. unfold owners. destruct (filter _ _) as [|[r c'] l] eqn:E; [done|].
  assert ((r, c') ∈ filter (λ x : Z * nat, x.2 = c) (map_to_list a)) as Hin by (rewrite E; by left).
  apply list_elem_of_filter in Hin as [Hc Hin%elem_of_map_to_list]. simpl in Hc. subst. by destruct (Ha r).
Qed.

Record tx_books (s : server) (m : holding nat) : Prop := TxBooks {
  tb_senders c q : streams s !! c = Some q → mpsc_senders q = (owners (active s) c + m c)%nat;
  tb_fresh c : (next_chan s ≤ c)%nat →
    streams s !! c = None ∧ owners (active s) c = 0%nat ∧ m c = 0%nat;
}.

Lemma tx_books_same s m n : same m n → tx_books s m → tx_books s n.
Proof. intros Hmn [H1 H2]. split; intros; rewrite <- Hmn; auto. Qed.

(** A thread that waits with a sender waits for room in that stream. *)
Definition stream_full (s : server) (c : nat) : Prop :=
  ∃ q, streams s !! c = Some q ∧ mpsc_closed q = false ∧ (mpsc_capacity q ≤ length (mpsc_queue q))%nat.

Definition waits_full (s : server) (m : holding nat) : Prop := ∀ c, m c ≠ 0%nat → stream_full s c.

#[local] Abbreviation towns t := (owns tx_books t waits_full) (only parsing).

(** Steps that leave the senders alone. *)
Definition aside (s s' : server) : Prop :=
  active s' = active s ∧ (next_chan s ≤ next_chan s')%nat ∧
  (∀ c, (next_chan s' ≤ c)%nat → streams s !! c = None → streams s' !! c = None) ∧
  ∀ c q', streams s' !! c = Some q' →
    ∃ q, streams s !! c = Some q ∧ mpsc_senders q' = mpsc_senders q.

Lemma aside_books s s' m : tx_books s m → aside s s' → tx_books s' m.
Proof.
  intros [H1 H2] (Ea & Hn & Hf & Hs). split; rewrite ?Ea.
  - intros c q' Hc. destruct (Hs c q' Hc) as (q & Hq & ->). auto.
  - intros c Hc. destruct (H2 c ltac:(lia)) as (? & ? & ?). auto.
Qed.

Lemma waits_none s : waits_full s none.
Proof. intros c Hc. by destruct Hc. Qed.

Lemma aside_same s s' :
  active s' = active s → streams s' = streams s → (next_chan s ≤ next_chan s')%nat → aside s s'.
Proof. intros Ea Es Hn. unfold aside. rewrite Ea, Es. split_and!; eauto. Qed.

Lemma owns_aside {A} t (p : prog server A) :
  steps_in aside p → towns t p none (λ _ n, n = none).
Proof.
  intros Hp. apply owns_silent; [|by intros s c []]. eapply silent_steps; [apply aside_books|done].
Qed.

Lemma owns_aside_full {A} t (p : prog server A) m :
  steps_in aside p → nowait p → towns t p m (λ _ n, n = m).
Proof. intros Hp Hw. apply owns_nowait; [|done]. eapply silent_steps; [apply aside_books|done]. Qed.

Lemma owns_then_aside {A C} t (p : prog server A) (g : A → prog server C) Q :
  steps_in aside p → (∀ a, towns t (g a) none Q) → towns t (pbind p g) none Q.
Proof. intros Hp Hg. eapply owns_bind; [by apply owns_aside|]. intros a ? ->. apply Hg. Qed.

Lemma on_stream_aside c f :
  (∀ q, mpsc_senders (f q) = mpsc_senders q) → steps_in aside (on_stream c f).
Proof.
  intros Hf. apply steps_in_modify. intros s. repeat split; simpl; [done| |].
  - intros c' _ Hc. destruct (decide (c = c')) as [<-|]; [by rewrite lookup_alter_eq, Hc|].
    by rewrite lookup_alter_ne.
  - intros c' q' Hc. destruct (decide (c = c')) as [<-|]; [|rewrite lookup_alter_ne in Hc by done; eauto].
    rewrite lookup_alter_eq in Hc. destruct (streams s !! c) as [q|]; simplify_eq/=. eauto.
Qed.

Lemma drop_receiver_aside c : steps_in aside (on_stream c mpsc_drop_receiver).
Proof. apply on_stream_aside. intros q. by destruct (mpsc_receiver_dropped q) as (_ & _ & ? & _). Qed.

#[local] Ltac aside_tac :=
  repeat first
    [ exact Logic.I
    | solve [auto with aside]
    | apply steps_in_load; solve [intros; by apply aside_same]
    | apply steps_in_modify; solve [intros; by apply aside_same]
    | apply steps_in_fetch; solve [intros; simpl; repeat case_match; apply aside_same; simpl; auto with lia]
    | split; [solve [let E := fresh in intros ? ? ? ? E; simpl in E; repeat case_match; simplify_eq/=;
                     apply aside_same; simpl; auto with lia]|done]
    | apply steps_in_bind; [|intros ?]
    | case_match ].

Create HintDb aside.
#[local] Hint Resolve drop_receiver_aside : aside.

Lemma drop_delivery_aside d : steps_in aside (drop_delivery d).
Proof. unfold drop_delivery. aside_tac. Qed.
#[local] Hint Resolve drop_delivery_aside : aside.

Lemma deliver_aside r d : steps_in aside (deliver_response r d).
Proof.
  unfold deliver_response, get_in_callback, set_sync_response, deliver_through_channel, remove_pending,
    oneshot_send_on, atomic. aside_tac.
Qed.
#[local] Hint Resolve deliver_aside : aside.

Lemma respond_aside r st h b : steps_in aside (hyper4k_respond r st h b).
Proof. unfold hyper4k_respond, panic, atomic. aside_tac. Qed.

Lemma register_aside : steps_in aside register_response.
Proof.
  unfold register_response, new_oneshot, insert_pending, on_oneshot, atomic. cbn [next_responder_id].
  unfold panic, atomic. aside_tac.
Qed.

Lemma handle_end_aside rc : steps_in aside (pending_drop rc.1) ∧ steps_in aside (drop_receiver rc.2).
Proof. unfold pending_drop, remove_pending, on_oneshot, drop_receiver. split; aside_tac. Qed.

Lemma build_response_aside d : steps_in aside (build_response d).
Proof. unfold build_response. destruct d; aside_tac. Qed.

Lemma send_result_aside c b s : aside s (send_result c b s).1.
Proof.
  unfold send_result. destruct (streams s !! c) as [q|] eqn:E; [|by apply aside_same].
  assert (mpsc_senders (mpsc_try_send q b).1 = mpsc_senders q) as Hs.
  { destruct (mpsc_closed q) eqn:Ec; [by rewrite try_send_closed|].
    destruct (decide (length (mpsc_queue q) < mpsc_capacity q)%nat).
    - by destruct (try_send_room q b) as (? & -> & _ & _ & ? & _).
    - by rewrite try_send_full by (done || lia). }
  repeat split; simpl; [done| |].
  - intros c' _ Hc. rewrite lookup_insert_ne; congruence.
  - intros c' q' [[<- <-]|[_ Hq]]%lookup_insert_Some; eauto.
Qed.

Lemma send_result_full c b s :
  (send_result c b s).2 = SendFull → stream_full s c.
Proof.
  unfold send_result, stream_full. destruct (streams s !! c) as [q|]; [|done]. simpl. intros E.
  exists q. split; [done|]. destruct (mpsc_closed q) eqn:Ec; [by rewrite try_send_closed in E|].
  split; [done|]. destruct (decide (mpsc_capacity q ≤ length (mpsc_queue q))%nat); [done|].
  destruct (try_send_room q b) as (? & E' & _); [done|lia|]. by rewrite E' in E.
Qed.

Lemma poll_frame_aside b : steps_in aside (poll_frame b).
Proof.
  destruct b as [b|rx]; [done|]. apply steps_in_bind; [|done]. split; [|done].
  intros t s s' x E. simpl in E. destruct (streams s !! rx) as [q|] eqn:Eq; [|done].
  assert (mpsc_senders (mpsc_poll q).1 = mpsc_senders q) as Hs.
  { destruct (mpsc_queue q) as [|b l] eqn:El; [by rewrite poll_empty|].
    by destruct (poll_message q b l El) as (? & -> & _ & _ & ? & _). }
  assert (∀ s1, streams s1 = <[rx := (mpsc_poll q).1]> (streams s) → active s1 = active s →
    next_chan s1 = next_chan s → aside s s1) as Ha.
  { intros s1 E1 E2 E3. unfold aside. rewrite E1, E2, E3. split_and!; [done|done| |].
    - intros c _ Hc. rewrite lookup_insert_ne; congruence.
    - intros c q' [[<- <-]|[_ Hc]]%lookup_insert_Some; eauto. }
  repeat case_match; simplify_eq/=; by apply Ha.
Qed.

(** ** The calls that hold senders *)

Section thread.
Context (t : nat).

Lemma owns_new_stream : towns t new_stream none (λ c n, n = one c).
Proof.
  apply owns_atomic. intros s M [Hs Hf]. eexists. split; [|done].
  destruct (Hf (next_chan s) ltac:(lia)) as (_ & Ho & Hm). unfold plus, none, one in *. split; simpl.
  - intros c q [[<- <-]|[Hne Hc]]%lookup_insert_Some.
    + rewrite decide_True by done. destruct (mpsc_new STREAM_CHANNEL_CAPACITY) as (_ & _ & -> & _). lia.
    + rewrite decide_False by done. auto.
  - intros c Hc. rewrite lookup_insert_ne, decide_False by lia. apply Hf. lia.
Qed.

Lemma owns_drop_sender c : towns t (on_stream c mpsc_drop_sender) (one c) (λ _ n, n = none).
Proof.
  apply owns_atomic. intros s M [Hs Hf]. exists none. split; [|done]. unfold plus, none, one in *. split; simpl.
  - intros c' q Hc. destruct (decide (c = c')) as [<-|Hne].
    + rewrite lookup_alter_eq in Hc. destruct (streams s !! c) as [q0|] eqn:Eq; simplify_eq/=.
      destruct (mpsc_sender_dropped q0) as (_ & _ & -> & _). specialize (Hs c q0 Eq).
      rewrite decide_True in Hs by done. lia.
    + rewrite lookup_alter_ne in Hc by done. specialize (Hs c' q Hc). by rewrite decide_False in Hs.
  - intros c' Hc. destruct (Hf c' Hc) as (E & Ho & Hm). split_and!; [|done|lia].
    destruct (decide (c = c')) as [<-|]; [by rewrite lookup_alter_eq, E|by rewrite lookup_alter_ne].
Qed.

Lemma owns_remove_active r : towns t (remove_active r) none (λ _ n, n = none).
Proof.
  unfold remove_active. eapply owns_bind with (N := λ old n, n = match old with Some c => one c | None => none end).
  - apply owns_atomic. intros s M [Hs Hf]. eexists. split; [|done]. unfold plus, none in *.
    destruct (active s !! r) as [c|] eqn:Er; simpl.
    + split; simpl; [intros c' q Hc|intros c' Hc]; pose proof (owners_delete _ r c c' Er) as Ho.
      * rewrite (Hs c' q Hc). lia.
      * destruct (Hf c' Hc) as (? & ? & ?). split_and!; [done|lia|lia].
    + split; simpl; rewrite delete_id by done; auto.
  - intros [c|] ? ->; [|done]. eapply owns_bind; [apply owns_drop_sender|]. by intros _ ? ->.
Qed.

Lemma owns_begin r st h : towns t (hyper4k_response_begin r st h) none (λ _ n, n = none).
Proof.
  unfold hyper4k_response_begin. destruct (r =? 0); [done|].
  destruct (parse_headers h); [|intros s M _; apply waits_none].
  eapply owns_bind; [apply owns_new_stream|]. intros c ? ->.
  eapply owns_bind with (N := λ vacant n, n = if vacant : bool then none else one c).
  { apply owns_atomic. intros s M [Hs Hf]. unfold plus in *.
    destruct (active s !! r) as [c0|] eqn:Er; (eexists; split; [|done]); [by split|]. unfold none.
    split; simpl; intros c' ?; [intros Hc|]; rewrite (owners_insert _ r c c' Er).
    - rewrite (Hs _ _ Hc). lia.
    - destruct (Hf c' ltac:(assumption)) as (? & ? & ?). split_and!; [done|lia|lia]. }
  intros [|] ? ->; cbn [negb].
  - apply owns_then_aside; [apply deliver_aside|]. intros code. destruct (negb _); [|done].
    eapply owns_bind; [apply owns_remove_active|]. by intros _ ? ->.
  - eapply owns_bind; [apply owns_aside_full; [apply drop_receiver_aside|unfold on_stream; nowait_tac]|].
    intros _ ? ->. eapply owns_bind; [apply owns_drop_sender|]. by intros _ ? ->.
Qed.

Lemma owns_try_send c chunk : towns t (try_send_on c chunk) (one c) (λ _ n, n = one c).
Proof.
  apply owns_aside_full; [|unfold try_send_on; nowait_tac].
  apply steps_in_fetch. intros s. apply send_result_aside.
Qed.

(** A writer waits only where its stream is full. *)
Lemma owns_blocking_send c chunk : towns t (blocking_send_on c chunk) (one c) (λ _ n, n = one c).
Proof.
  apply owns_atomic. intros s M Hs. simpl.
  destruct (decide ((send_result c chunk s).2 = SendFull)) as [Hfull|_].
  - intros c' Hc. unfold one in Hc. case_decide; [subst|done]. by eapply send_result_full.
  - destruct (send_result c chunk s) as [s' x] eqn:E. exists (one c). split; [|done].
    eapply aside_books; [exact Hs|]. pose proof (send_result_aside c chunk s) as Ha. by rewrite E in Ha.
Qed.

Lemma owns_write rt r b : towns t (hyper4k_response_write rt r b) none (λ _ n, n = none).
Proof.
  unfold hyper4k_response_write. destruct (r =? 0); [done|].
  eapply owns_bind with (N := λ x n, n = match x with Some c => one c | None => none end).
  { apply owns_atomic. intros s M [Hs Hf]. unfold plus, none in *.
    destruct (active s !! r) as [c|] eqn:Er; (eexists; split; [|done]); [|by split]. unfold one.
    assert (next_chan s ≤ c → False)%nat as Hc.
    { intros Hc. destruct (Hf c Hc) as (_ & Ho & _). pose proof (owners_delete _ r c c Er) as Hd.
      unfold one in Hd. rewrite decide_True in Hd by done. lia. }
    split; simpl.
    - intros c' q Hq. destruct (decide (c = c')) as [<-|Hne].
      + rewrite lookup_alter_eq in Hq. destruct (streams s !! c) as [q0|] eqn:Eq; simplify_eq/=.
        destruct (mpsc_cloned q0) as (_ & _ & -> & _). rewrite (Hs c q0 Eq). lia.
      + rewrite lookup_alter_ne in Hq by done. auto.
    - intros c' Hc'. destruct (Hf c' Hc') as (E & Ho & Hm).
      assert (c ≠ c') by (intros ->; auto). rewrite lookup_alter_ne, decide_False by done. auto. }
  intros [c|] ? ->; [|done].
  eapply owns_bind with (N := λ _ n, n = one c).
  2: { intros code ? ->. eapply owns_bind; [apply owns_drop_sender|]. by intros _ ? ->. }
  destruct b as [[|x b]|]; [done| |done].
  eapply owns_bind; [apply owns_try_send|]. intros [| |] ? ->; [done| |done].
  destruct rt; [done|]. eapply owns_bind; [apply owns_blocking_send|]. by intros [| |] ? ->.
Qed.

Lemma owns_api_tx {A} (p : prog server A) : api_program p → towns t p none (λ _ n, n = none).
Proof.
  induction 1 as [A a|A B p g _ IHp _ IHg|r st h b|r st h|rt r b|r].
  - done.
  - eapply owns_bind; [exact IHp|]. intros a ? ->. apply IHg.
  - apply owns_aside, respond_aside.
  - apply owns_begin.
  - apply owns_write.
  - unfold hyper4k_response_finish. destruct (r =? 0); [done|].
    eapply owns_bind; [apply owns_remove_active|]. by intros [|] ? ->.
Qed.

Lemma owns_call_tx cb req b :
  (∀ q, api_program (cb q)) → towns t (handle_call cb req b) none (λ _ n, n = none).
Proof.
  intros Hcb. unfold handle_call. apply owns_then_aside; [apply register_aside|]. intros rc.
  apply owns_then_aside; [unfold set_in_callback, atomic; aside_tac|]. intros _.
  eapply owns_bind; [apply owns_api_tx, Hcb|]. intros [] ? ->.
  apply owns_aside. unfold set_in_callback, take_sync_response, atomic. aside_tac.
Qed.

Lemma handle_slot_aside rc d : steps_in aside (handle_slot rc d).
Proof.
  destruct (handle_end_aside rc). unfold handle_slot, returned.
  apply steps_in_bind; [apply build_response_aside|]. intros resp. aside_tac.
Qed.

Lemma handle_await_aside rc : steps_in aside (handle_await rc).
Proof.
  destruct (handle_end_aside rc). unfold handle_await, returned, await_oneshot, atomic.
  apply steps_in_bind; [aside_tac|]. intros d.
  apply steps_in_bind; [destruct d; [apply build_response_aside|done]|]. intros resp. aside_tac.
Qed.

Lemma owns_server_tx {A} (p : prog server A) : server_program p → towns t p none (λ _ n, n = none).
Proof.
  induction 1 as [A p Hp|A B p g _ IHp _ IHg|cb req Hcb|cb req Hcb|b|b].
  - by apply owns_api_tx.
  - eapply owns_bind; [exact IHp|]. intros a ? ->. apply IHg.
  - unfold handle. destruct (collect_limited _); [|done].
    eapply owns_bind; [by apply owns_call_tx|]. intros [rc [d|]] ? ->;
      apply owns_aside; [apply handle_slot_aside|apply handle_await_aside].
  - unfold handle_abandoned. destruct (collect_limited _); [|done].
    eapply owns_bind; [by apply owns_call_tx|]. intros [rc [d|]] ? ->; apply owns_aside.
    + apply steps_in_bind; [apply handle_slot_aside|]. intros resp. unfold drop_body. aside_tac.
    + destruct (handle_end_aside rc). by apply steps_in_bind.
  - apply owns_aside, poll_frame_aside.
  - apply owns_aside. unfold drop_body. aside_tac.
Qed.
End thread.

Lemma reachable_tx_books ts c :
  Forall server_program ts → reachable (Config server_start ts) c →
  books tx_books (λ _, waits_full) (λ _, False) (λ _, True) c.
Proof.
  intros Ht Hr. eapply (reachable_books _ tx_books_same); [exact Hr|].
  apply (books_start _ tx_books_same).
  - split; simpl; [by intros c0 q E; rewrite lookup_empty in E|]. intros c0 _. by rewrite lookup_empty.
  - intros t p Hp. right. split; [done|]. eapply owns_post; [|apply owns_server_tx; by eapply Forall_lookup_1].
    by intros _ ? ->.
Qed.

(** C12: a finished stream is never stuck.  Whenever every thread of the server is
    over or waits, the body of a stream that is not active any more can be polled:
    it gives out the next accepted chunk, or it ends, and it ends only when it has
    given out everything that was accepted (unless it was dropped).  So a client
    whose stream was finished is never left waiting, whatever writers, finishers
    and other requests raced. *)
Theorem finished_stream_is_never_stuck ts c t ch q :
  Forall server_program ts → reachable (Config server_start ts) c → quiescent c →
  streams (shared c) !! ch = Some q → (∀ r, active (shared c) !! r ≠ Some ch) →
  ∃ s' x, run t (poll_frame (BodyStream ch)) (shared c) = Some (s', (BodyStream ch, x)) ∧
    match x with
    | Some b => ∃ out acc, received (shared c) !! ch = Some out ∧ accepted (shared c) !! ch = Some acc ∧
                  received s' !! ch = Some (out ++ [b]) ∧ out ++ [b] `prefix_of` acc
    | None => mpsc_closed q = false → received (shared c) !! ch = accepted (shared c) !! ch
    end.
Proof.
  intros Ht Hr Hq Hch Ha.
  destruct (reachable_streams_ok ts c Ht Hr ch q Hch) as (_ & Hcap & _ & acc & out & Eacc & Eout & Hc).
  simpl. rewrite Hch. destruct (mpsc_queue q) as [|b l] eqn:El.
  - destruct (books_over_kind _ tx_books_same (eq ch) _ _ _ _ c (reachable_tx_books ts c Ht Hr))
      as (m & [Hs _] & Hm).
    { intros m Hm k _. by rewrite <- Hm. }
    { intros i p _ Hp. right. split; [by apply Hq|]. intros m Hw ? <-. destruct (decide (m ch = 0%nat)) as [|Hne]; [done|].
      destruct (Hw ch Hne) as (q0 & Eq & _ & Hlen). simplify_eq. rewrite El, Hcap in Hlen. simpl in Hlen.
      unfold STREAM_CHANNEL_CAPACITY in Hlen. lia. }
    rewrite poll_empty by done. simpl.
    rewrite decide_True by (rewrite (Hs ch q Hch), owners_none, Hm by done; lia).
    eexists _, None. split; [reflexivity|]. intros Ecl. rewrite Ecl, app_nil_r in Hc. congruence.
  - destruct (mpsc_closed q) eqn:Ecl; [by destruct Hc|].
    destruct (poll_message q b l El) as (q' & -> & _). simpl. eexists _, (Some b). split; [reflexivity|].
    exists out, acc. simpl. rewrite lookup_alter_eq, Eout. split_and!; try done.
    rewrite Hc. replace (out ++ b :: l) with ((out ++ [b]) ++ l) by (by rewrite <- app_assoc).
    by apply prefix_app_r.
Qed.
End streams.

(** ** Witness: a stream with one chunk, written and finished by another thread *)

Import ServerFacts.Example1.

Module Example9.
Definition ts : list (prog server unit) :=
  [handle (λ q, hyper4k_response_begin (responder q) 200 None ;; Ret tt) req ;; Ret tt;
   hyper4k_response_write false 1 (Some [7]) ;; hyper4k_response_finish 1 ;; Ret tt].

Lemma streaming_ok : Forall server_program ts.
Proof.
  repeat apply Forall_cons_2; [..|apply Forall_nil_2].
  - apply prog_bind; [apply prog_handle; api_tac|]. intros. apply prog_api. api_tac.
  - apply prog_api. api_tac.
Qed.

Definition start : config server := Config server_start ts.
Definition finished : config server :=
  default start (exec (replicate 14 0%nat ++ replicate 5 1%nat) start).

Lemma finished_reachable : reachable start finished.
Proof.
  unfold finished. destruct (exec _ start) eqn:E; [by eapply exec_reachable|apply rtc_refl].
Qed.
End Example9.
Import Example9.

Lemma finished_stream_is_never_stuck_witness :
  ∃ s', run 5 (poll_frame (BodyStream 1)) (shared finished) = Some (s', (BodyStream 1, Some [7])) ∧
    received s' !! 1%nat = Some [[7]].
Proof.
  destruct (streams (shared finished) !! 1%nat) as [q|] eqn:Eq; [|vm_compute in Eq; discriminate Eq].
  destruct (finished_stream_is_never_stuck Example9.ts finished 5 1 q streaming_ok finished_reachable)
    as (s' & x & Hrun & Hx).
  - apply quiescent_test. vm_compute. reflexivity.
  - exact Eq.
  - intros r. assert (active (shared finished) = ∅) as -> by (vm_compute; reflexivity).
    rewrite lookup_empty. discriminate.
  - exists s'. assert (x = Some [7]) as ->.
    { assert ((λ y, y.2.2) <$> run 5 (poll_frame (BodyStream 1)) (shared finished) = Some (Some [7])) as E
        by (vm_compute; reflexivity).
      rewrite Hrun in E. simpl in E. congruence. }
    split; [exact Hrun|]. destruct Hx as (out & acc & Hout & _ & Hs' & _).
    assert (Some out = Some []) as E by (rewrite <- Hout; vm_compute; reflexivity).
    injection E as ->. exact Hs'.
Defined.
